(* ===== verification/_CoqProject ===== *)
-Q . S2P
Prelude.v
GoStrings.v
Sha256.v
Commitment.v
GoSlice.v
Mempool.v
TxQueue.v
TxQueueInv.v
TxQueueProps.v
OrderedLog.v
Pipeline.v
ReceptionStore.v
Server.v
Ingress.v
Settlement.v
Startup.v
Keys.v
Lease.v
GoJson.v
RaftLog.v
RaftProps.v
CMemory.v
Tasks.v
Decryption.v
DecryptionInv.v
DecryptionProps.v
ThreadPool.v
ThreadPoolInv.v
ThreadPoolProps.v
BatchDecryptor.v
Privacy.v
PrivacyInv.v
PrivacyProps.v
Clients.v
ClientProps.v
Demo.v
DemoProps.v
LiveDemo.v
LiveProps.v
GoPath.v
Main.v
Reveal.v
Node.v
NodeInv.v
Shutdown.v
ShutdownProps.v
CppMempool.v
Cluster.v
PrivacyStub.v
Dex.v
DexInv.v
DexProps.v
