(* ===== verification/Prelude.v ===== *)
(** * Secure-Order: a verification of the sequencer

    Secure-Order is a sequencer of encrypted transactions.  Clients submit
    sealed transactions over gRPC; the node commits them to an ordered log,
    collects them in an encrypted mempool, and reveals them in batches of 1000,
    publishing a commitment of each batch to an Ethereum contract.  This library
    models that path, down to the C++ layer that decrypts a batch on several
    threads, and proves what it promises: the revealed order is the committed
    order, nothing is lost or repeated on the way, replicas compute the same
    commitments, commitments bind what they cover, and decryption gives every
    client its message back whatever the threads do.

    ** The program and the files

    Submissions enter through SubmitTx, go to the ordered log, and leave it
    through the sequencer's ingress collector:

    client (Clients) -> Server, Ingress -> TxQueue or RaftLog (OrderedLog) ->
    Pipeline (collector -> Mempool -> batch goroutine -> Commitment) ->
    Settlement -> contract, and Privacy -> Decryption for the reveal

    - [Prelude] (this file): bytes, results, machine integers, little-endian
      encoding, sorted lists, the hint database [go] and the shared tactics.
    - [GoStrings]: the functions of Go's strings, encoding/hex, strconv, fmt and
      net that the program uses, with their round trips.
    - [Sha256]: SHA-256, executable.  Nothing is assumed of it: the binding
      theorems conclude "equal, or these two messages are a collision".
    - [Commitment]: pkg/sequencing/commitment.go and the transaction of queue.go.
    - [GoSlice]: Go slices over a heap of arrays, with append's freedom to
      reallocate as a parameter.
    - [Mempool]: pkg/sequencing/encrypted_mempool.go down to the backing array,
      refined to a list.
    - [TxQueue], [TxQueueInv], [TxQueueProps]: pkg/sequencing/queue.go as a
      transition system, its invariant, and its theorems.
    - [OrderedLog]: pkg/sequencing/log.go, the interface as a type class with
      laws, and TxQueue as an instance; [RaftLog] gives the second one.
    - [Pipeline]: the collector and batch goroutines of cmd/sequencer/main.go,
      against the interface.
    - [ReceptionStore]: pkg/sequencing/reception_store.go.
    - [Server]: internal/rpc/server.go, handlers and proxy cache.
    - [Ingress]: concurrent SubmitTx handlers over the queue and the store.
    - [Settlement]: internal/settlement and contracts/OrderVerifier.sol.
    - [Startup]: peer parsing, backend construction and the join decision of
      main.go, and NewRaftOrderedLog of pkg/sequencing/raft_log.go.
    - [Keys]: the key files of main.go, pkg/privacy and cpp/src/privacy/keygen.cpp.
    - [Lease]: the leader lease goroutine of main.go.
    - [GoJson]: the JSON and base64 of the Raft log's proposals, both ways.
    - [RaftLog], [RaftProps]: pkg/sequencing/raft_log.go at run time, the FSM,
      DrainWait, Close and SubmitWithReceipt; its invariant and its theorems.
    - [CMemory]: the C heap of the privacy layer, the structs of encryption.h,
      malloc, free and typed access, where undefined behaviour is an error.
    - [Tasks]: tasks that interleave on a shared state under a schedule.
    - [Decryption], [DecryptionInv], [DecryptionProps]: encryption.cpp and
      generate_sequencer_keys of keygen.cpp; the invariant of a parallel batch;
      chunks, memory safety, and equality with the single-threaded run.
    - [ThreadPool], [ThreadPoolInv], [ThreadPoolProps]: thread_pool.cpp with its
      mutex and condition variables, its invariant, and its theorems.
    - [BatchDecryptor]: batch_decryptor.cpp on the pool, equal to Decryption.
    - [Privacy], [PrivacyInv], [PrivacyProps]: pkg/privacy/privacy_cgo.go across
      cgo; the memory of its calls; what it returns and what it leaks.
    - [Clients], [ClientProps]: cmd/client and cmd/rpc-loadtest.
    - [Demo], [DemoProps], [LiveDemo], [LiveProps]: cmd/demo and cmd/live-demo,
      composed with the queue and the privacy layer.
    - [GoPath]: filepath.Clean and Join.
    - [Main]: main.go from the flags to the listener, the data directory, and
      the join with the handler it reaches.
    - [Reveal]: the pipeline with the privacy layer in the place of its
      parameters.
    - [Node], [NodeInv], [Shutdown], [ShutdownProps]: the running single-node
      sequencer of main.go, from the first request to the end of main; its
      invariant; the work left and progress of a shutdown; its theorems.
    - [Cluster]: SubmitTx at a Raft leader through to the batches of every
      replica, and what a stopped collector does to the FSM.
    - [PrivacyStub]: pkg/privacy/privacy_stub.go, and the pipeline on it.
    - [CppMempool]: cpp/src/privacy/encrypted_mempool.cpp, refined to a list.
    - [Dex], [DexInv], [DexProps]: contracts/MockDEXEngine.sol, the exchange of
      the simulation; its invariant and what its calls do; its theorems.

    ** How state and operations are modelled

    - Strings and byte slices are lists of bytes.  A uint64 is a [Z] with its
      wrap-around written out ([wrap64]); an instant is its nanoseconds since
      the Unix epoch, and [UnixNano] wraps like Go's.
    - Errors are values of [res] or of an option, one constructor per error the
      source constructs; a panic is a [None] result or the flag [panicked].
    - A goroutine is a program counter, and an [event] names one atomic action
      of one goroutine together with the select branch it takes, so every
      interleaving and every choice of select is a sequence of events.  A call
      whose program counter is at a select need not have parked yet; a default
      branch is therefore possible while such a call is about to send.
    - What other goroutines do while a call waits is an argument of the call
      where the call polls ([DrainWait] of the mempool) and a step of the
      transition system elsewhere.
    - Third-party code is a parameter: the gRPC library (connections and remote
      replies), go-ethereum (dialling, keys, transactions, receipts),
      hashicorp/raft and the operating system (results of each call).  The one
      hypothesis about it, [mined_executed], says that a transaction mined with
      status 1 took effect.  Decryption is a parameter of [Pipeline], and
      [Reveal] says what follows when it is the privacy layer.
    - libsodium is two parameters, sealing a message for a key and opening a box
      with a pair of keys.  The hypotheses about it are that a box is 48 bytes
      longer than its message and, for round trips, that a keypair opens what was
      sealed for it; a sealed box in the clear ([toy_seal]) satisfies both.
    - C memory is a map from pointers to typed blocks with uninitialised cells;
      an access out of bounds, through a dangling or NULL pointer, or of an
      uninitialised cell has no result.  cgo's malloc does not return NULL: it
      ends the program.  What a function leaves allocated stays in the map.
    - A C++ thread runs store by store; a schedule lists whose turn it is.  A
      wait on a condition variable may end without a notification, and notify_one
      picks any sleeper.
    - A node is the pipeline over the queue with its handlers ([ingress_log], an
      instance of the interface), main's program counter, and the goroutines that
      publish commitments.  main's context is context 0, the requests have the
      others.  grpc-go's GracefulStop is the parameter [graceful], with the
      hypothesis that it returns when all handlers have replied; no request
      enters after it was called.  When main has returned nothing runs.
    - A Solidity call returns a new storage or reverts and leaves the old one; its
      arithmetic panics outside 256 bits.
    - A C++ method that holds its mutex throughout is one operation, and a vector
      that was moved from is empty.
    - grpc between a client program and the server, and between a follower and the
      leader, delivers a handler's reply or an error; it is a parameter with that
      hypothesis.  What the log answers to the client's call is not assumed but
      comes from the two logs themselves ([log_answer] of [ClientProps]).
    - Writing a key file can fail at the open, in the write, or in the flush that
      closing the stream does, which save_key_to_file does not look at
      ([save_outcome]); key persistence is proved for starts without that last
      failure, and [keys_lost] shows what happens with it.
    - hashicorp/raft at run time is the list of committed entries, one list for
      all nodes with increasing indices, and the environment's choice of when a
      node applies the next entry, installs a snapshot or answers a proposal.
      JSON documents that no node of this program wrote are decoded by the
      parameter [unmarshal_other].

    ** What is proved

    - Pipeline: replicas agree on commitments; batches are the consecutive
      thousands of the committed sequence; nothing is lost between log and
      publisher; IDs increase; the batch goroutine keeps up.
    - TxQueue: exactly-once FIFO delivery, honest receipts, increasing IDs, first
      come first served, when the admission goroutine can block, shutdown,
      draining after shutdown, release of callers, and success without
      contention.
    - Mempool: the slice program refines a FIFO list and never overwrites a batch
      it handed out; DrainWait refines the abstract drain and returns.
    - Commitment, Settlement: what each commitment binds and does not bind; the
      on-chain value is the digest of the batch; the contract verifies committed
      orders once.
    - Server, Ingress: forwarding is transparent, one connection per address,
      one reception proof for each acknowledged request.
    - RaftLog: nodes that follow the same log reveal the same batches, receipts
      name the committed entry, and Close releases every caller.
    - Node, Cluster: what an acknowledgement promises, on one node and on every
      replica of a cluster, whose replicas have the same batches; how a shutdown
      ends, when it cannot, and what a stopped node has answered, revealed, handed
      on for publication and dropped.
    - CppMempool: it refines a list in arrival order if no removed key returns.
    - Dex: tokens are conserved, a swap does what its preview says, swaps and
      deposits take no value out of the pool, the square root is exact.
    - Startup, Keys, Lease, Main: parsing, configuration, key persistence, when a
      leader steps down, the order of a start, and that a node that joins is a
      voter.
    - Decryption, ThreadPool, BatchDecryptor: the chunks partition the batch, no
      interleaving reaches undefined behaviour, the result is that of one
      thread; wait_all is a barrier, no wake-up is lost, and the pool's steps are
      bounded up to spurious wake-ups.
    - Privacy, Reveal: DecryptBatch returns all messages or exactly the positions
      that fail and frees its memory; sealing and decrypting is the identity; a
      sealed transaction is never logged as undecryptable.
    - Clients, Demo, LiveDemo: an accepted submission is a committed transaction
      and decrypts to its payload; the load test's summary is exact; what the
      demos display is in order and complete.
    - Some theorems record behaviour that differs from what a comment says, or
      that a reader would not expect: colliding commitments, an error after a
      commit, proofs stored out of order, mismatched and lost keys, a node that
      diverges after installing a snapshot, a receipt without a transaction, C
      buffers that DecryptBatch never frees, a shutdown that waits for ever,
      acknowledged transactions that are never revealed, a mempool entry drained
      twice.

    ** Bounds and fuel

    Recursion on fuel: [Sha256] splits a message into blocks and a block into
    words with the length as fuel, of which each round uses at least one, and
    its search for the first primes is evaluated.  In [GoStrings], [trim_start] runs for the
    length of the string, of which each round removes a byte, and [dec_digits]
    for the number of bits, which is at least the number of digits.  Loops
    that can wait for ever are transition systems or take the environment's
    behaviour as a list, at whose end the call is still blocked.  A schedule of
    threads gives each a number of turns; the theorems that a batch returns ask
    for 6n+1 turns of each thread for n items (six steps an item and one to
    finish), those on the load test for 3r+3 turns of each client for r requests.
    [Dex] gives the square root 260 rounds: each halves the distance to the root,
    which is below 2^256.
    The theorems on IDs assume that fewer than 2^64 were assigned, the range of the counter.

    ** Not modelled

    The Raft protocol itself (hashicorp/raft), the algorithms of libsodium,
    generated protobuf code and Register, which calls it, the process-wide
    shutdown in Raft mode (only its effect on the log, in [Cluster]), what the
    programs print (other than the lines of a start and the rows of the demos),
    throughput figures, scripts and deployment files.

    ** Plan

    The components are modelled.  What could still be added is a node of a
    cluster from the signal to the end of main, as [Node] has it for a single
    node. *)

From Stdlib Require Export ZArith Lia Sorted.
From Stdlib Require Export Strings.Byte.
From stdpp Require Export base option list gmap strings sorting.

#[global] Set Default Goal Selector "!".

(** ** Go values

    A Go [string] and a Go [[]byte] are both sequences of bytes; [bytes] is
    that sequence.  [str] turns a literal into its bytes. *)
Abbreviation bytes := (list byte).

Definition str (s : string) : bytes := String.list_byte_of_string s.

Declare Scope go_scope.
Delimit Scope go_scope with go.

#[global] Instance byte_eq_decision : EqDecision byte := Byte.byte_eq_dec.

#[global] Instance byte_countable : Countable byte :=
  inj_countable Byte.to_N Byte.of_N Byte.of_to_N.

(** A Go call that can fail returns a value and an error; [res] keeps the
    value only when the error is nil. *)
Inductive res (E A : Type) : Type :=
| Ok (a : A)
| Err (e : E).
Arguments Ok {E A} a.
Arguments Err {E A} e.

(** What the caller of such a function goes on with. *)
Definition as_res {E A} (p : A * option E) : res E A :=
  match p.2 with None => Ok p.1 | Some e => Err e end.

#[global] Instance res_eq_decision {E A} `{EqDecision E, EqDecision A} : EqDecision (res E A).
Proof. solve_decision. Defined.

Definition res_bind {E A B} (r : res E A) (k : A → res E B) : res E B :=
  match r with Ok a => k a | Err e => Err e end.

Notation "'let!' x := r 'in' k" := (res_bind r (λ x, k))
  (at level 10, x name, r at level 100, k at level 200) : go_scope.

(** ** Machine integers *)

Definition wrap64 (z : Z) : Z := (z mod 2 ^ 64)%Z.
(** [uint64(x)] and [int64(x)]: conversions between the two 64-bit types keep
    the bit pattern. *)
Definition uint64 (z : Z) : Z := wrap64 z.
Definition int64 (z : Z) : Z := (wrap64 (z + 2 ^ 63) - 2 ^ 63)%Z.
Definition is_uint64 (z : Z) : Prop := (0 ≤ z < 2 ^ 64)%Z.
Definition is_int64 (z : Z) : Prop := (- 2 ^ 63 ≤ z < 2 ^ 63)%Z.

#[global] Instance is_uint64_dec z : Decision (is_uint64 z) := ltac:(unfold is_uint64; apply _).
#[global] Instance is_int64_dec z : Decision (is_int64 z) := ltac:(unfold is_int64; apply _).

Lemma wrap64_small z : is_uint64 z → wrap64 z = z.
Proof. intros H. unfold wrap64. by apply Z.mod_small. Qed.

Lemma wrap64_range z : is_uint64 (wrap64 z).
Proof. unfold is_uint64, wrap64. apply Z.mod_pos_bound. lia. Qed.

Lemma uint64_inj_int64 x y : is_int64 x → is_int64 y → uint64 x = uint64 y → x = y.
Proof.
  unfold is_int64, uint64, wrap64. intros Hx Hy He.
  pose proof (Z.div_mod x (2 ^ 64) ltac:(lia)).
  pose proof (Z.div_mod y (2 ^ 64) ltac:(lia)). nia.
Qed.

(** ** Bytes and little-endian words *)

Definition byte_Z (b : byte) : Z := Z.of_N (Byte.to_N b).
Definition Z_byte (z : Z) : byte := default x00 (Byte.of_N (Z.to_N (z mod 256))).

Lemma byte_Z_range b : (0 ≤ byte_Z b < 256)%Z.
Proof. unfold byte_Z. pose proof (Byte.to_N_bounded b). lia. Qed.

Lemma Z_byte_byte_Z b : Z_byte (byte_Z b) = b.
Proof.
  unfold Z_byte. rewrite Z.mod_small by apply byte_Z_range.
  unfold byte_Z. by rewrite N2Z.id, Byte.of_to_N.
Qed.

Lemma byte_Z_Z_byte z : byte_Z (Z_byte z) = (z mod 256)%Z.
Proof.
  unfold Z_byte, byte_Z. pose proof (Z.mod_pos_bound z 256 ltac:(lia)).
  destruct (Byte.of_N _) as [b|] eqn:E; cbn.
  - apply Byte.to_of_N in E. rewrite E. lia.
  - apply Byte.of_N_None_iff in E. lia.
Qed.

#[global] Instance byte_Z_inj : Inj (=) (=) byte_Z.
Proof. intros a b H. by rewrite <- (Z_byte_byte_Z a), H, Z_byte_byte_Z. Qed.

(** [n] bytes of [z], least significant first. *)
Fixpoint le_bytes (n : nat) (z : Z) : bytes :=
  match n with
  | O => []
  | S n => Z_byte z :: le_bytes n (z / 256)
  end.

Lemma le_bytes_length n z : length (le_bytes n z) = n.
Proof. revert z; induction n as [|n IH]; intros z; cbn; auto. Qed.

Lemma le_bytes_inj n x y :
  le_bytes n x = le_bytes n y → (x mod 256 ^ Z.of_nat n = y mod 256 ^ Z.of_nat n)%Z.
Proof.
  revert x y; induction n as [|n IH]; intros x y H.
  - cbn. by rewrite !Z.mod_1_r.
  - cbn [le_bytes] in H. injection H as H0 H.
    apply (f_equal byte_Z) in H0. rewrite !byte_Z_Z_byte in H0. apply IH in H.
    rewrite Nat2Z.inj_succ, Z.pow_succ_r by lia.
    rewrite !Z.rem_mul_r by lia. congruence.
Qed.

Lemma le_bytes_8_inj x y : is_uint64 x → is_uint64 y → le_bytes 8 x = le_bytes 8 y → x = y.
Proof.
  unfold is_uint64. intros Hx Hy H%le_bytes_inj.
  change (256 ^ Z.of_nat 8)%Z with (2 ^ 64)%Z in H.
  by rewrite !Z.mod_small in H.
Qed.

(** ** Strictly increasing sequences *)

Lemma StronglySorted_snoc {A} (R : A → A → Prop) l x :
  StronglySorted R (l ++ [x]) ↔ StronglySorted R l ∧ Forall (λ y, R y x) l.
Proof.
  rewrite StronglySorted_app, Forall_forall. split.
  - intros (H & Hl & _). split; [done|]. intros y Hy. apply H; set_solver.
  - intros [Hl H]. split_and!; [|done|repeat constructor].
    intros x1 x2 H1 ->%list_elem_of_singleton. auto.
Qed.

Lemma StronglySorted_sublist {A} (R : A → A → Prop) l k :
  sublist l k → StronglySorted R k → StronglySorted R l.
Proof.
  induction 1 as [|x l k H IH|x l k H IH]; intros Hk; auto.
  - apply StronglySorted_cons in Hk as [H1 H2]. apply StronglySorted_cons.
    split; [|auto]. rewrite Forall_forall in H1 |- *. intros y Hy. apply H1.
    by eapply elem_of_sublist.
  - apply StronglySorted_cons in Hk as [_ H2]. auto.
Qed.

Lemma StronglySorted_lt_NoDup (l : list Z) : StronglySorted Z.lt l → NoDup l.
Proof.
  induction 1 as [|x l H IH Hx]; constructor; [|done].
  intros Hin. rewrite Forall_forall in Hx. specialize (Hx x Hin). lia.
Qed.

(** Two different lists of one length split at their first difference. *)
Lemma first_difference {A} `{EqDecision A} (l1 l2 : list A) :
  length l1 = length l2 → l1 ≠ l2 →
  ∃ p x y r1 r2, l1 = p ++ x :: r1 ∧ l2 = p ++ y :: r2 ∧ x ≠ y.
Proof.
  revert l2. induction l1 as [|a l1 IH]; intros [|b l2] Hlen Hne; [done..|].
  destruct (decide (a = b)) as [<-|Hab].
  - destruct (IH l2) as (p & x & y & r1 & r2 & -> & -> & Hxy);
      [by injection Hlen|congruence|]. by exists (a :: p), x, y, r1, r2.
  - by exists [], a, b, l1, l2.
Qed.

(** A separator that occurs in neither prefix aligns the two sides. *)
Lemma separator_cancel {A} (c : A) (a b x y : list A) :
  c ∉ a → c ∉ b → a ++ c :: x = b ++ c :: y → a = b ∧ x = y.
Proof.
  revert b. induction a as [|u a IH]; intros [|v b] Ha Hb E; cbn in E.
  - by simplify_eq.
  - exfalso. simplify_eq. set_solver.
  - exfalso. simplify_eq. set_solver.
  - injection E as -> E. destruct (IH b) as [-> ->]; [set_solver..|done].
Qed.

Lemma NoDup_fmap_inj {A B} (f : A → B) (l : list A) x y :
  NoDup (f <$> l) → x ∈ l → y ∈ l → f x = f y → x = y.
Proof.
  induction l as [|z l IH]; [set_solver|].
  rewrite fmap_cons, NoDup_cons, !elem_of_cons. intros [Hz Hl] [->|Hx] [->|Hy] E; auto.
  - exfalso. apply Hz. rewrite E. by apply list_elem_of_fmap_2.
  - exfalso. apply Hz. rewrite <- E. by apply list_elem_of_fmap_2.
Qed.

(** ** Filtering *)

Lemma filter_iff_elem {A} (P Q : A → Prop) `{∀ x, Decision (P x)} `{∀ x, Decision (Q x)} (l : list A) :
  (∀ x, x ∈ l → P x ↔ Q x) → filter P l = filter Q l.
Proof.
  induction l as [|x l IH]; intros H1; [done|]. rewrite !filter_cons, IH by (intros; apply H1; by right).
  repeat case_decide; try done; specialize (H1 x ltac:(by left)); tauto.
Qed.

(** ** Sums over a map *)

Section map_sum.
Context {K A : Type} `{Countable K}.

Definition map_sum (f : A → nat) (m : gmap K A) : nat := sum_list_with f (map_to_list m).*2.

Lemma map_sum_new f m i x : m !! i = None → map_sum f (<[i:=x]> m) = f x + map_sum f m.
Proof. intros Hi. unfold map_sum. by rewrite map_to_list_insert. Qed.

Lemma map_sum_set f m i x y :
  m !! i = Some x → map_sum f (<[i:=y]> m) + f x = f y + map_sum f m.
Proof.
  intros Hi. rewrite <- insert_delete_eq, map_sum_new by apply lookup_delete_eq.
  rewrite <- (insert_delete_id m i x Hi) at 2. rewrite map_sum_new by apply lookup_delete_eq. lia.
Qed.

Lemma map_sum_alter f g m i x :
  m !! i = Some x → map_sum f (alter g i m) + f x = f (g x) + map_sum f m.
Proof.
  intros Hi. assert (alter g i m = <[i:=g x]> m) as ->; [|by apply map_sum_set].
  apply map_eq. intros j. rewrite lookup_alter, lookup_insert. case_decide; [|done]. subst. by rewrite Hi.
Qed.
End map_sum.

(** ** Automation

    [go_simpl] normalises hypotheses about [option], [res] and pairs;
    [go_cases] additionally splits every [match] and [if] in the context. *)
Create HintDb go discriminated.
#[export] Hint Resolve wrap64_range byte_Z_range le_bytes_length sublist_inserts_r : go.

Ltac go_simpl := cbn in *; simplify_eq/=; try done.

Ltac go_cases :=
  repeat (first [ case_match | case_decide ]; go_simpl).
