(* ===== verification/GoStrings.v ===== *)
(** The parts of Go's standard library the sources use on strings: package
    [strings] (TrimSpace, Split, SplitN, TrimPrefix, Join), [strconv]
    (ParseInt), [encoding/hex], [fmt]'s [%d], and [net]'s SplitHostPort and
    JoinHostPort.  A Go string is its byte sequence.  Each function returns
    what Go returns on every input, errors included; the lemmas at the end are
    the round trips and shape facts the components use. *)

From S2P Require Import Prelude.

(** ** Package strings *)

(** [strings.IndexByte] and [strings.LastIndexByte]; [None] is Go's -1. *)
Fixpoint IndexByte (s : bytes) (c : byte) : option nat :=
  match s with
  | [] => None
  | x :: s => if decide (x = c) then Some 0 else S <$> IndexByte s c
  end.

Fixpoint LastIndexByte (s : bytes) (c : byte) : option nat :=
  match s with
  | [] => None
  | x :: s =>
      match LastIndexByte s c with
      | Some i => Some (S i)
      | None => if decide (x = c) then Some 0 else None
      end
  end.

Fixpoint strip_prefix (p s : bytes) : option bytes :=
  match p, s with
  | [], _ => Some s
  | a :: p, b :: s => if decide (a = b) then strip_prefix p s else None
  | _ :: _, [] => None
  end.

(** [strings.TrimPrefix s prefix]. *)
Definition TrimPrefix (s prefix : bytes) : bytes := default s (strip_prefix prefix s).

(** The code points of [unicode.IsSpace], in UTF-8.  A rune at either end of a
    string is one of them exactly when the string starts (ends) with its
    encoding, so trimming can work on bytes. *)
Definition space_encodings : list bytes :=
  [ [x09]; [x0a]; [x0b]; [x0c]; [x0d]; [x20];
    [xc2; x85]; [xc2; xa0]; [xe1; x9a; x80];
    [xe2; x80; x80]; [xe2; x80; x81]; [xe2; x80; x82]; [xe2; x80; x83];
    [xe2; x80; x84]; [xe2; x80; x85]; [xe2; x80; x86]; [xe2; x80; x87];
    [xe2; x80; x88]; [xe2; x80; x89]; [xe2; x80; x8a];
    [xe2; x80; xa8]; [xe2; x80; xa9]; [xe2; x80; xaf]; [xe2; x81; x9f];
    [xe3; x80; x80] ].

Fixpoint strip_any (encs : list bytes) (s : bytes) : option bytes :=
  match encs with
  | [] => None
  | e :: encs =>
      match strip_prefix e s with
      | Some s' => Some s'
      | None => strip_any encs s
      end
  end.

Fixpoint trim_start (fuel : nat) (encs : list bytes) (s : bytes) : bytes :=
  match fuel with
  | O => s
  | S fuel =>
      match strip_any encs s with
      | Some s' => trim_start fuel encs s'
      | None => s
      end
  end.

(** [strings.TrimSpace]: each round removes at least one byte, so the length of
    the string bounds the number of rounds. *)
Definition TrimSpace (s : bytes) : bytes :=
  let l := trim_start (length s) space_encodings s in
  rev (trim_start (length l) (map (@rev byte) space_encodings) (rev l)).

(** [strings.Split s sep] for a one-byte separator. *)
Fixpoint Split (s : bytes) (sep : byte) : list bytes :=
  match s with
  | [] => [[]]
  | x :: s =>
      if decide (x = sep) then [] :: Split s sep
      else match Split s sep with
           | [] => [[x]]
           | w :: ws => (x :: w) :: ws
           end
  end.

(** [strings.SplitN s sep 2]: at most two pieces, the second one unsplit. *)
Definition SplitN2 (s : bytes) (sep : byte) : list bytes :=
  match IndexByte s sep with
  | Some i => [take i s; drop (S i) s]
  | None => [s]
  end.

(** [strings.Join]. *)
Fixpoint Join (parts : list bytes) (sep : bytes) : bytes :=
  match parts with
  | [] => []
  | [p] => p
  | p :: ps => p ++ sep ++ Join ps sep
  end.

(** ** Package encoding/hex *)

Inductive HexError := InvalidByteError (b : byte) | ErrLength.

#[global] Instance HexError_eq_decision : EqDecision HexError.
Proof. solve_decision. Defined.

Definition hex_digit (n : Z) : byte :=
  if (n <? 10)%Z then Z_byte (48 + n) else Z_byte (87 + n).

(** Go's reverseHexTable: both letter cases are accepted. *)
Definition unhex (b : byte) : option Z :=
  let n := byte_Z b in
  if ((48 <=? n) && (n <=? 57))%Z then Some (n - 48)%Z
  else if ((97 <=? n) && (n <=? 102))%Z then Some (n - 87)%Z
  else if ((65 <=? n) && (n <=? 70))%Z then Some (n - 55)%Z
  else None.

Definition hex_EncodeToString (s : bytes) : bytes :=
  s ≫= λ b, [hex_digit (byte_Z b / 16); hex_digit (byte_Z b mod 16)].

Fixpoint hex_DecodeString (s : bytes) : res HexError bytes :=
  match s with
  | [] => Ok []
  | [p] => match unhex p with None => Err (InvalidByteError p) | Some _ => Err ErrLength end
  | p :: q :: s =>
      match unhex p, unhex q with
      | None, _ => Err (InvalidByteError p)
      | Some _, None => Err (InvalidByteError q)
      | Some a, Some b =>
          match hex_DecodeString s with
          | Ok r => Ok (Z_byte (a * 16 + b) :: r)
          | Err e => Err e
          end
      end
  end.

(** ** Package strconv and fmt's decimal verb *)

Inductive NumError := ErrSyntax | ErrRange.

#[global] Instance NumError_eq_decision : EqDecision NumError.
Proof. solve_decision. Defined.

Definition digit_val (b : byte) : option Z :=
  let n := byte_Z b in
  if ((48 <=? n) && (n <=? 57))%Z then Some (n - 48)%Z else None.

Fixpoint parse_digits (n : Z) (s : bytes) : res NumError Z :=
  match s with
  | [] => Ok n
  | c :: s =>
      match digit_val c with
      | None => Err ErrSyntax
      | Some d =>
          if (2 ^ 64 <=? n * 10 + d)%Z then Err ErrRange
          else parse_digits (n * 10 + d) s
      end
  end.

(** [strconv.ParseUint s 10 64] *)
Definition ParseUint (s : bytes) : res NumError Z :=
  match s with [] => Err ErrSyntax | _ => parse_digits 0 s end.

(** [strconv.ParseInt s 10 64] *)
Definition ParseInt (s : bytes) : res NumError Z :=
  match s with
  | [] => Err ErrSyntax
  | c :: r =>
      let neg := bool_decide (c = x2d) in
      let digits := if decide (c = x2b ∨ c = x2d) then r else s in
      match ParseUint digits with
      | Err ErrSyntax => Err ErrSyntax
      | Err ErrRange => Err ErrRange
      | Ok un =>
          if neg then if (2 ^ 63 <? un)%Z then Err ErrRange else Ok (- un)%Z
          else if (2 ^ 63 <=? un)%Z then Err ErrRange else Ok un
      end
  end.

Fixpoint dec_digits (fuel : nat) (n : Z) (acc : bytes) : bytes :=
  match fuel with
  | O => acc
  | S fuel =>
      let acc := Z_byte (48 + n mod 10) :: acc in
      if (n <? 10)%Z then acc else dec_digits fuel (n / 10) acc
  end.

(** [fmt.Sprintf "%d"]; an [n]-bit number has at most [n] decimal digits. *)
Definition fmt_d (z : Z) : bytes :=
  let digits n := dec_digits (S (Z.to_nat (Z.log2 n))) n [] in
  if (z <? 0)%Z then x2d :: digits (- z)%Z else digits z.

(** ** Package net *)

Inductive AddrError :=
| missingPort | tooManyColons | missingBracket | unexpectedOpen | unexpectedClose.

#[global] Instance AddrError_eq_decision : EqDecision AddrError.
Proof. solve_decision. Defined.

Definition colon : byte := x3a.
Definition lbrack : byte := x5b.
Definition rbrack : byte := x5d.

Definition SplitHostPort (hostport : bytes) : res AddrError (bytes * bytes) :=
  match LastIndexByte hostport colon with
  | None => Err missingPort
  | Some i =>
      let finish (host : bytes) (j k : nat) :=
        match IndexByte (drop j hostport) lbrack with
        | Some _ => Err unexpectedOpen
        | None =>
            match IndexByte (drop k hostport) rbrack with
            | Some _ => Err unexpectedClose
            | None => Ok (host, drop (S i) hostport)
            end
        end in
      if decide (head hostport = Some lbrack) then
        match IndexByte hostport rbrack with
        | None => Err missingBracket
        | Some e =>
            if decide (S e = length hostport) then Err missingPort
            else if decide (S e = i) then finish (take (e - 1) (drop 1 hostport)) 1 (S e)
            else if decide (hostport !! S e = Some colon) then Err tooManyColons
            else Err missingPort
        end
      else
        let host := take i hostport in
        match IndexByte host colon with
        | Some _ => Err tooManyColons
        | None => finish host 0 0
        end
  end.

Definition JoinHostPort (host port : bytes) : bytes :=
  match IndexByte host colon with
  | Some _ => lbrack :: host ++ [rbrack; colon] ++ port
  | None => host ++ [colon] ++ port
  end.

(** ** Lemmas *)

Lemma IndexByte_None s c : IndexByte s c = None ↔ c ∉ s.
Proof.
  induction s as [|x s IH]; cbn; [set_solver|]. case_decide; subst.
  - set_solver.
  - rewrite fmap_None, IH. set_solver.
Qed.

Lemma IndexByte_app_r s t c : c ∉ s → IndexByte (s ++ c :: t) c = Some (length s).
Proof.
  induction s as [|x s IH]; intros H; cbn; [by rewrite decide_True|].
  rewrite decide_False by set_solver. rewrite IH by set_solver. done.
Qed.

Lemma LastIndexByte_None s c : LastIndexByte s c = None ↔ c ∉ s.
Proof.
  induction s as [|x s IH]; cbn; [set_solver|].
  destruct (LastIndexByte s c) eqn:E.
  - split; [done|]. intros H. exfalso.
    assert (c ∉ s) as H' by set_solver. by apply IH in H'.
  - case_decide; subst; set_solver.
Qed.

Lemma LastIndexByte_app s t c : c ∉ t → LastIndexByte (s ++ c :: t) c = Some (length s).
Proof.
  intros H. induction s as [|x s IH]; cbn; [|by rewrite IH].
  apply LastIndexByte_None in H. rewrite H. by rewrite decide_True.
Qed.

Lemma strip_prefix_app p s : strip_prefix p (p ++ s) = Some s.
Proof. induction p as [|a p IH]; cbn; [done|]. by rewrite decide_True. Qed.

Lemma TrimPrefix_cons_ne c s d p : c ≠ d → TrimPrefix (c :: s) (d :: p) = c :: s.
Proof. intros H. unfold TrimPrefix. cbn. by rewrite decide_False. Qed.

Lemma Split_no_sep s sep : sep ∉ s → Split s sep = [s].
Proof.
  induction s as [|x s IH]; intros H; cbn; [done|].
  rewrite decide_False by set_solver. by rewrite IH by set_solver.
Qed.

(** Printable ASCII other than the blank. *)
Definition graphic (b : byte) : bool := ((33 <=? byte_Z b) && (byte_Z b <=? 126))%Z.

Definition head_blank (e : bytes) : bool :=
  match e with [] => false | a :: _ => negb (graphic a) end.

Lemma strip_any_heads encs b s :
  forallb head_blank encs = true → graphic b = true → strip_any encs (b :: s) = None.
Proof.
  intros He Hb. induction encs as [|[|a e] encs IH]; [done..|]. cbn in *.
  apply andb_prop in He as [Ha He]. rewrite decide_False; [by apply IH|].
  intros ->. by rewrite Hb in Ha.
Qed.

Lemma strip_any_graphic b s :
  graphic b = true →
  strip_any space_encodings (b :: s) = None ∧
  strip_any (map (@rev byte) space_encodings) (b :: s) = None.
Proof. intros Hb. split; (apply strip_any_heads; [vm_compute; reflexivity|exact Hb]). Qed.

Lemma trim_start_graphic fuel encs b s :
  strip_any encs (b :: s) = None → trim_start fuel encs (b :: s) = b :: s.
Proof. intros H. destruct fuel; [done|]. cbn [trim_start]. by rewrite H. Qed.

Lemma TrimSpace_graphic s : Forall (λ b, graphic b = true) s → TrimSpace s = s.
Proof.
  intros H. unfold TrimSpace. destruct s as [|b s]; [done|].
  rewrite trim_start_graphic by exact (proj1 (strip_any_graphic b s (Forall_inv H))).
  assert (Forall (λ b, graphic b = true) (rev (b :: s))) as Hr.
  { apply Forall_forall. intros x Hx. rewrite Forall_forall in H. apply H.
    by apply list_elem_of_In, in_rev, list_elem_of_In. }
  destruct (rev (b :: s)) as [|x r] eqn:E.
  - apply (f_equal (@rev byte)) in E. by rewrite rev_involutive in E.
  - rewrite trim_start_graphic by exact (proj2 (strip_any_graphic x r (Forall_inv Hr))).
    by rewrite <- E, rev_involutive.
Qed.

Lemma Split_app s t sep : sep ∉ s → Split (s ++ sep :: t) sep = s :: Split t sep.
Proof.
  induction s as [|x s IH]; intros H; cbn; [by rewrite decide_True|].
  rewrite decide_False by set_solver. by rewrite IH by set_solver.
Qed.

Lemma Split_Join parts sep :
  parts ≠ [] → Forall (λ p, sep ∉ p) parts → Split (Join parts [sep]) sep = parts.
Proof.
  intros Hne H. induction H as [|p ps Hp Hps IH]; [done|].
  destruct ps as [|q ps]; [by apply Split_no_sep|].
  change (Join (p :: q :: ps) [sep]) with (p ++ sep :: Join (q :: ps) [sep]).
  rewrite Split_app by done. by rewrite IH.
Qed.

Lemma drop_S_app_cons {A} (s t : list A) x : drop (S (length s)) (s ++ x :: t) = t.
Proof.
  rewrite cons_middle, app_assoc. apply drop_app_length'. rewrite length_app. cbn. lia.
Qed.

Lemma SplitN2_app s t sep : sep ∉ s → SplitN2 (s ++ sep :: t) sep = [s; t].
Proof.
  intros H. unfold SplitN2. rewrite IndexByte_app_r by done.
  rewrite take_app_length. by rewrite drop_S_app_cons.
Qed.

(** Induction two elements at a time. *)
Lemma list_ind2 {A} (P : list A → Prop) :
  P [] → (∀ x, P [x]) → (∀ x y l, P l → P (x :: y :: l)) → ∀ l, P l.
Proof.
  intros H0 H1 H2 l. enough (P l ∧ ∀ x, P (x :: l)) by naive_solver.
  induction l as [|y l [IH1 IH2]]; auto.
Qed.

Lemma hex_digit_unhex n : (0 ≤ n < 16)%Z → unhex (hex_digit n) = Some n.
Proof.
  intros H. unfold hex_digit.
  destruct (Z.ltb_spec n 10); unfold unhex; rewrite byte_Z_Z_byte;
    rewrite Z.mod_small by lia.
  - rewrite !(proj2 (Z.leb_le _ _)) by lia. cbn [andb]. f_equal. lia.
  - rewrite (proj2 (Z.leb_gt (87 + n) 57)) by lia. rewrite andb_false_r.
    rewrite !(proj2 (Z.leb_le _ _)) by lia. cbn [andb]. f_equal. lia.
Qed.

(** Decoding a hex encoding gives the bytes back. *)
Lemma hex_roundtrip s : hex_DecodeString (hex_EncodeToString s) = Ok s.
Proof.
  induction s as [|b s IH]; [done|].
  change (hex_EncodeToString (b :: s)) with
    (hex_digit (byte_Z b / 16) :: hex_digit (byte_Z b mod 16) :: hex_EncodeToString s).
  pose proof (byte_Z_range b) as Hb.
  pose proof (Z.mod_pos_bound (byte_Z b) 16 ltac:(lia)) as Hm.
  pose proof (Z.div_mod (byte_Z b) 16 ltac:(lia)) as Hd.
  cbn [hex_DecodeString].
  rewrite !hex_digit_unhex by lia. rewrite IH. do 2 f_equal.
  rewrite <- (Z_byte_byte_Z b) at 3. f_equal. lia.
Qed.

Lemma hex_EncodeToString_length s : length (hex_EncodeToString s) = 2 * length s.
Proof.
  induction s as [|b s IH]; [done|].
  change (S (S (length (hex_EncodeToString s))) = 2 * S (length s)). lia.
Qed.

#[global] Instance hex_EncodeToString_inj : Inj (=) (=) hex_EncodeToString.
Proof.
  intros a b H. pose proof (hex_roundtrip a) as Ha. rewrite H, hex_roundtrip in Ha.
  by simplify_eq.
Qed.

Lemma hex_DecodeString_length s b : hex_DecodeString s = Ok b → length s = 2 * length b.
Proof.
  revert b. induction s as [| p|p q s IH] using list_ind2; intros b H; cbn in H.
  - by injection H as <-.
  - by destruct (unhex p).
  - destruct (unhex p), (unhex q); try done.
    destruct (hex_DecodeString s) as [r|]; [|done]. injection H as <-.
    rewrite !length_cons, (IH r) by done. cbn. lia.
Qed.

Lemma digit_val_digit d : (0 ≤ d < 10)%Z → digit_val (Z_byte (48 + d)) = Some d.
Proof.
  intros H. unfold digit_val. rewrite byte_Z_Z_byte, Z.mod_small by lia.
  rewrite !(proj2 (Z.leb_le _ _)) by lia. cbn. f_equal. lia.
Qed.

Lemma dec_digits_parse fuel n acc :
  (0 ≤ n < 2 ^ Z.of_nat fuel)%Z → (n < 2 ^ 64)%Z → fuel ≠ 0 →
  parse_digits 0 (dec_digits fuel n acc) = parse_digits n acc.
Proof.
  revert n acc. induction fuel as [|fuel IH]; intros n acc Hn H64 Hf; [done|].
  rewrite Nat2Z.inj_succ, Z.pow_succ_r in Hn by lia.
  pose proof (Z.mod_pos_bound n 10 ltac:(lia)) as Hm.
  pose proof (Z.div_mod n 10 ltac:(lia)) as Hd.
  cbn [dec_digits]. destruct (Z.ltb_spec n 10) as [Hlt|Hge].
  - rewrite Z.mod_small by lia. cbn [parse_digits]. rewrite digit_val_digit by lia.
    rewrite (proj2 (Z.leb_gt _ _)) by lia. done.
  - assert (0 ≤ n / 10 < 2 ^ Z.of_nat fuel)%Z as Hq.
    { revert Hn. generalize (2 ^ Z.of_nat fuel)%Z. lia. }
    assert (fuel ≠ 0) as Hf' by (intros ->; change (2 ^ Z.of_nat 0)%Z with 1%Z in Hq; lia).
    rewrite IH by (done || lia).
    cbn [parse_digits]. rewrite digit_val_digit by lia.
    rewrite (proj2 (Z.leb_gt _ _)) by lia. f_equal. lia.
Qed.

Lemma dec_digits_head fuel n acc :
  (0 ≤ n)%Z → fuel ≠ 0 → ∃ c r, dec_digits fuel n acc = c :: r ∧ is_Some (digit_val c).
Proof.
  revert n acc. induction fuel as [|fuel IH]; intros n acc Hn Hf; [done|].
  pose proof (Z.mod_pos_bound n 10 ltac:(lia)) as Hm.
  pose proof (Z.div_mod n 10 ltac:(lia)) as Hd.
  cbn [dec_digits]. destruct (Z.ltb_spec n 10) as [Hlt|Hge].
  - do 2 eexists. split; [done|]. rewrite digit_val_digit by lia. eauto.
  - destruct fuel as [|fuel]; [|apply IH; [lia|done]].
    do 2 eexists. split; [done|]. rewrite digit_val_digit by lia. eauto.
Qed.

Lemma log2_fuel n : (0 ≤ n)%Z → (0 ≤ n < 2 ^ Z.of_nat (S (Z.to_nat (Z.log2 n))))%Z.
Proof.
  intros H. rewrite Nat2Z.inj_succ, Z2Nat.id by apply Z.log2_nonneg.
  destruct (decide (n = 0)%Z) as [->|]; [done|]. split; [done|]. apply Z.log2_spec. lia.
Qed.

(** Parsing a printed 64-bit integer gives the integer back. *)
Lemma ParseInt_fmt_d z : is_int64 z → ParseInt (fmt_d z) = Ok z.
Proof.
  unfold is_int64, fmt_d. intros Hz. destruct (Z.ltb_spec z 0) as [Hneg|Hpos].
  - cbn [ParseInt]. rewrite bool_decide_true, decide_True by (done || by right).
    destruct (dec_digits_head (S (Z.to_nat (Z.log2 (- z)))) (- z) []) as (c & r & E & _);
      [lia|done|].
    pose proof (dec_digits_parse (S (Z.to_nat (Z.log2 (- z)))) (- z) []
      (log2_fuel (- z) ltac:(lia)) ltac:(lia) ltac:(done)) as P.
    rewrite E in *. cbn [ParseUint]. rewrite P. cbn [parse_digits].
    rewrite (proj2 (Z.ltb_ge _ _)) by lia. f_equal. lia.
  - destruct (dec_digits_head (S (Z.to_nat (Z.log2 z))) z []) as (c & r & E & Hc);
      [lia|done|].
    pose proof (dec_digits_parse (S (Z.to_nat (Z.log2 z))) z []
      (log2_fuel z ltac:(lia)) ltac:(lia) ltac:(done)) as P.
    rewrite E in *. cbn [ParseInt].
    rewrite bool_decide_false, decide_False
      by (intros X; by (destruct X as [->| ->] || subst); destruct Hc).
    cbn [ParseUint]. rewrite P. cbn [parse_digits].
    rewrite (proj2 (Z.leb_gt _ _)) by lia. done.
Qed.

(** [%d] prints digits and a minus sign only. *)
Lemma dec_digits_chars c fuel n acc :
  digit_val c = None → c ∉ acc → c ∉ dec_digits fuel n acc.
Proof.
  intros Hc. revert n acc. induction fuel as [|fuel IH]; intros n acc H; [done|].
  assert (c ∉ Z_byte (48 + n mod 10) :: acc) as H'.
  { apply not_elem_of_cons. split; [|done]. intros ->.
    rewrite digit_val_digit in Hc by (apply Z.mod_pos_bound; lia). done. }
  cbn [dec_digits]. destruct (n <? 10)%Z; [done|]. by apply IH.
Qed.

Lemma fmt_d_chars c z : digit_val c = None → c ≠ x2d → c ∉ fmt_d z.
Proof.
  intros Hc Hm. assert (c ∉ []) as H by apply not_elem_of_nil.
  unfold fmt_d. destruct (z <? 0)%Z; [apply not_elem_of_cons; split; [done|]|];
    by apply dec_digits_chars.
Qed.

Lemma SplitHostPort_plain h p :
  colon ∉ h → lbrack ∉ h → rbrack ∉ h → colon ∉ p → lbrack ∉ p → rbrack ∉ p →
  SplitHostPort (h ++ colon :: p) = Ok (h, p).
Proof.
  intros. unfold SplitHostPort. rewrite LastIndexByte_app by done. cbn zeta.
  rewrite decide_False.
  2:{ intros E. destruct h as [|x h]; cbn in E; simplify_eq. set_solver. }
  rewrite take_app_length.
  rewrite (proj2 (IndexByte_None h colon)) by done.
  rewrite !drop_0, !(proj2 (IndexByte_None _ _)).
  - by rewrite drop_S_app_cons.
  - rewrite elem_of_app, elem_of_cons. intros [?|[?|?]]; done.
  - rewrite elem_of_app, elem_of_cons. intros [?|[?|?]]; done.
Qed.

Lemma SplitHostPort_bracketed h p :
  lbrack ∉ h → rbrack ∉ h → colon ∉ p → lbrack ∉ p → rbrack ∉ p →
  SplitHostPort (lbrack :: h ++ [rbrack; colon] ++ p) = Ok (h, p).
Proof.
  intros. unfold SplitHostPort.
  assert (lbrack :: h ++ [rbrack; colon] ++ p
          = (lbrack :: h ++ [rbrack]) ++ colon :: p) as E1.
  { cbn. by rewrite <- app_assoc. }
  assert (lbrack :: h ++ [rbrack; colon] ++ p
          = (lbrack :: h) ++ rbrack :: (colon :: p)) as E2 by done.
  rewrite E1 at 1. rewrite LastIndexByte_app by done. cbn zeta.
  rewrite decide_True by done. rewrite E2 at 1.
  rewrite IndexByte_app_r by (rewrite elem_of_cons; by intros [?|?]).
  rewrite decide_False by (cbn; rewrite length_app; cbn; lia).
  rewrite decide_True by (cbn; rewrite length_app; cbn; lia).
  rewrite (proj2 (IndexByte_None (drop 1 _) _)).
  1: rewrite (proj2 (IndexByte_None _ _)).
  - f_equal. f_equal.
    + cbn. rewrite Nat.sub_0_r. apply take_app_length.
    + rewrite E1. apply drop_S_app_cons.
  - rewrite E2, drop_S_app_cons, elem_of_cons. by intros [?|?].
  - change (drop 1 (lbrack :: h ++ [rbrack; colon] ++ p)) with (h ++ [rbrack; colon] ++ p).
    rewrite !elem_of_app, !elem_of_cons, elem_of_nil. intros [?|[[?|[?|?]]|?]]; done.
Qed.

(** Splitting a joined address gives the host and the port back. *)
Lemma SplitHostPort_JoinHostPort h p :
  lbrack ∉ h → rbrack ∉ h → colon ∉ p → lbrack ∉ p → rbrack ∉ p →
  SplitHostPort (JoinHostPort h p) = Ok (h, p).
Proof.
  intros. unfold JoinHostPort. destruct (IndexByte h colon) eqn:E.
  - by apply SplitHostPort_bracketed.
  - apply SplitHostPort_plain; try done. by apply IndexByte_None.
Qed.
