(* ===== verification/Sha256.v ===== *)
(** Go's [crypto/sha256], as the commitment code uses it: the running hash of
    [sha256.New], [Write] and [Sum], and the one-shot [Sum256].  The round
    constants are computed from their definition (fractional parts of roots of
    the first primes) instead of being listed. *)

From S2P Require Import Prelude.
Local Open Scope Z_scope.

(** ** 32-bit words *)

Definition w32 (z : Z) : Z := z mod 2 ^ 32.
Definition add32 (x y : Z) : Z := w32 (x + y).
Definition rotr (n x : Z) : Z := Z.lor (Z.shiftr x n) (w32 (Z.shiftl x (32 - n))).
Definition not32 (x : Z) : Z := 2 ^ 32 - 1 - x.

Definition choose (x y z : Z) : Z := Z.lxor (Z.land x y) (Z.land (not32 x) z).
Definition majority (x y z : Z) : Z :=
  Z.lxor (Z.lxor (Z.land x y) (Z.land x z)) (Z.land y z).
Definition big0 (x : Z) : Z := Z.lxor (Z.lxor (rotr 2 x) (rotr 13 x)) (rotr 22 x).
Definition big1 (x : Z) : Z := Z.lxor (Z.lxor (rotr 6 x) (rotr 11 x)) (rotr 25 x).
Definition small0 (x : Z) : Z := Z.lxor (Z.lxor (rotr 7 x) (rotr 18 x)) (Z.shiftr x 3).
Definition small1 (x : Z) : Z := Z.lxor (Z.lxor (rotr 17 x) (rotr 19 x)) (Z.shiftr x 10).

(** ** Constants *)

Definition divides_none (ps : list Z) (n : Z) : bool :=
  forallb (λ p, negb (n mod p =? 0)) ps.

Fixpoint primes_from (fuel : nat) (count : nat) (n : Z) (acc : list Z) : list Z :=
  match fuel, count with
  | O, _ | _, O => rev acc
  | S fuel, S k =>
      if divides_none acc n then primes_from fuel k (n + 1) (n :: acc)
      else primes_from fuel (S k) (n + 1) acc
  end.

Fixpoint root_bits (k : Z) (bits : nat) (acc n : Z) : Z :=
  match bits with
  | O => acc
  | S b =>
      let c := acc + 2 ^ Z.of_nat b in
      root_bits k b (if c ^ k <=? n then c else acc) n
  end.

(** First 32 bits of the fractional part of the [k]-th root of [p]. *)
Definition root_frac (k p : Z) : Z := w32 (root_bits k 40 0 (p * 2 ^ (32 * k))).

Definition round_constants : list Z :=
  Eval vm_compute in map (root_frac 3) (primes_from 320 64 2 []).

Record hash8 := H8 { hA : Z; hB : Z; hC : Z; hD : Z; hE : Z; hF : Z; hG : Z; hH : Z }.

Definition initial_hash : hash8 :=
  Eval vm_compute in
  match map (root_frac 2) (primes_from 20 8 2 []) with
  | [a; b; c; d; e; f; g; h] => H8 a b c d e f g h
  | _ => H8 0 0 0 0 0 0 0 0
  end.

(** ** Padding and blocks *)

Definition be_bytes (n : nat) (z : Z) : bytes := rev (le_bytes n z).

Definition pad (m : bytes) : bytes :=
  let len := Z.of_nat (length m) in
  m ++ [x80] ++ replicate (Z.to_nat ((55 - len) mod 64)) x00 ++ be_bytes 8 (8 * len).

Fixpoint be_word (acc : Z) (s : bytes) : Z :=
  match s with [] => acc | b :: s => be_word (acc * 256 + byte_Z b) s end.

Fixpoint words (fuel : nat) (s : bytes) : list Z :=
  match fuel, s with
  | S fuel, _ :: _ => be_word 0 (take 4 s) :: words fuel (drop 4 s)
  | _, _ => []
  end.

(** The schedule is built newest word first. *)
Fixpoint extend (n : nat) (ws : list Z) : list Z :=
  match n with
  | O => ws
  | S n =>
      let w i := nth i ws 0 in
      extend n (add32 (add32 (small1 (w 1%nat)) (w 6%nat))
                      (add32 (small0 (w 14%nat)) (w 15%nat)) :: ws)
  end.

Definition schedule (block : bytes) : list Z := rev (extend 48 (rev (words 16 block))).

Definition round (h : hash8) (kw : Z * Z) : hash8 :=
  let '(H8 a b c d e f g hh) := h in
  let t1 := add32 (add32 (add32 hh (big1 e)) (choose e f g)) (add32 kw.1 kw.2) in
  let t2 := add32 (big0 a) (majority a b c) in
  H8 (add32 t1 t2) a b c (add32 d t1) e f g.

Definition compress (h : hash8) (block : bytes) : hash8 :=
  let r := foldl round h (zip round_constants (schedule block)) in
  H8 (add32 (hA h) (hA r)) (add32 (hB h) (hB r)) (add32 (hC h) (hC r)) (add32 (hD h) (hD r))
     (add32 (hE h) (hE r)) (add32 (hF h) (hF r)) (add32 (hG h) (hG r)) (add32 (hH h) (hH r)).

Fixpoint process (fuel : nat) (h : hash8) (s : bytes) : hash8 :=
  match fuel, s with
  | S fuel, _ :: _ => process fuel (compress h (take 64 s)) (drop 64 s)
  | _, _ => h
  end.

(** [sha256.Sum256]: every round consumes 64 bytes, so the padded length is
    fuel enough. *)
Definition Sum256 (m : bytes) : bytes :=
  let p := pad m in
  let '(H8 a b c d e f g h) := process (length p) initial_hash p in
  be_bytes 4 a ++ be_bytes 4 b ++ be_bytes 4 c ++ be_bytes 4 d ++
  be_bytes 4 e ++ be_bytes 4 f ++ be_bytes 4 g ++ be_bytes 4 h.

(** ** The running hash

    [h.Write] adds data to the running hash and never fails; [h.Sum(nil)] is
    the hash of everything written. *)
Record Hash := MkHash { written : bytes }.

Definition New : Hash := MkHash [].
Definition Write (h : Hash) (p : bytes) : Hash := MkHash (written h ++ p).
Definition Sum (h : Hash) : bytes := Sum256 (written h).

(** ** Facts *)

Lemma Sum256_length m : length (Sum256 m) = 32%nat.
Proof.
  unfold Sum256. destruct (process _ _ _). unfold be_bytes.
  by rewrite !length_app, !length_rev, !le_bytes_length.
Qed.

#[export] Hint Resolve Sum256_length : go.
