(* ===== verification/Commitment.v ===== *)
(** pkg/sequencing/commitment.go: the commitments of single orders, of single
    received transactions and of ordered batches, together with the
    transaction record of pkg/sequencing/queue.go they are computed from. *)

From Stdlib Require Import SpecFloat.
From S2P Require Import Prelude GoStrings Sha256.

(** ** Time

    A [time.Time] is its distance from the Unix epoch in nanoseconds;
    [UnixNano] is that distance in an int64. *)
Definition UnixNano (t : Z) : Z := int64 t.
(** [time.Unix(0, nsec)] *)
Definition Unix0 (nsec : Z) : Z := nsec.
(** The zero [time.Time], January 1 of year 1. *)
Definition zero_time : Z := (- 62135596800 * 10 ^ 9)%Z.

(** ** Transactions *)

Record EncryptedTransaction := {
  ID : Z;
  Ciphertext : bytes;
  ArrivedAt : Z
}.

#[global] Instance EncryptedTransaction_eq_decision : EqDecision EncryptedTransaction.
Proof. solve_decision. Defined.

(** [EncryptedTransaction{}] *)
Definition zero_tx : EncryptedTransaction :=
  {| ID := 0; Ciphertext := []; ArrivedAt := zero_time |}.

(** What the Go types guarantee (ID is a uint64), and an arrival time in the
    range where UnixNano is defined (years 1678 to 2262). *)
Definition tx_wf (tx : EncryptedTransaction) : Prop :=
  is_uint64 (ID tx) ∧ is_int64 (ArrivedAt tx).

#[global] Instance tx_wf_dec tx : Decision (tx_wf tx) := ltac:(unfold tx_wf; apply _).

(** ** Orders *)

Record OrderMetadata := {
  OrderID : bytes;
  User : bytes;
  Token : bytes;
  Amount : spec_float;
  Price : spec_float;
  Timestamp : Z;
  Nonce : bytes
}.

(** [x / d] to the nearest integer, halves to even, for [0 ≤ x] and [0 < d]. *)
Definition round_half_even (x d : Z) : Z :=
  let q := (x / d)%Z in
  let r := (x mod d)%Z in
  match (2 * r ?= d)%Z with
  | Lt => q
  | Gt => (q + 1)%Z
  | Eq => if Z.even q then q else (q + 1)%Z
  end.

(** Millionths in the finite float [m * 2 ^ e]. *)
Definition micros (m : positive) (e : Z) : Z :=
  if (0 <=? e)%Z then (Z.pos m * 2 ^ e * 10 ^ 6)%Z
  else round_half_even (Z.pos m * 10 ^ 6) (2 ^ (- e)).

Definition sign_bytes (neg : bool) : bytes := if neg then [x2d] else [].

(** [%f]: six digits after the point, correctly rounded. *)
Definition fmt_f (x : spec_float) : bytes :=
  let fixed neg n :=
    let frac := fmt_d (n mod 10 ^ 6)%Z in
    sign_bytes neg ++ fmt_d (n / 10 ^ 6)%Z ++ [x2e] ++
    replicate (6 - length frac) x30 ++ frac in
  match x with
  | S754_zero s => fixed s 0%Z
  | S754_finite s m e => fixed s (micros m e)
  | S754_infinity s => (if s then x2d else x2b) :: str "Inf"
  | S754_nan => str "NaN"
  end.

Definition pipe : byte := x7c.

(** The string GenerateCommitment hashes:
    [fmt.Sprintf("%s|%s|%s|%f|%f|%d|%s", ...)]. *)
Definition order_data (o : OrderMetadata) : bytes :=
  OrderID o ++ pipe :: User o ++ pipe :: Token o ++ pipe ::
  fmt_f (Amount o) ++ pipe :: fmt_f (Price o) ++ pipe ::
  fmt_d (Timestamp o) ++ pipe :: Nonce o.

Definition GenerateCommitment (o : OrderMetadata) : bytes :=
  let data := order_data o in
  let hash := Sum256 data in
  hex_EncodeToString hash.

(** ** Reception proofs and batches *)

Record ReceptionProof := {
  SequenceID : Z;
  ArrivedUnix : Z;
  Commitment : bytes
}.

#[global] Instance ReceptionProof_eq_decision : EqDecision ReceptionProof.
Proof. solve_decision. Defined.

Definition zero_proof : ReceptionProof :=
  {| SequenceID := 0; ArrivedUnix := 0; Commitment := [] |}.

(** [binary.LittleEndian.PutUint64] into a fresh 8-byte array *)
Definition PutUint64 (v : Z) : bytes := le_bytes 8 v.

Definition write_tx (h : Hash) (tx : EncryptedTransaction) : Hash :=
  let h := Write h (PutUint64 (ID tx)) in
  let h := Write h (PutUint64 (uint64 (UnixNano (ArrivedAt tx)))) in
  Write h (Ciphertext tx).

Definition GenerateReceptionCommitment (tx : EncryptedTransaction) : bytes :=
  hex_EncodeToString (Sum (write_tx New tx)).

Definition GenerateBatchCommitment (batch : list EncryptedTransaction) : bytes :=
  hex_EncodeToString (Sum (foldl write_tx New batch)).

(** ** What is hashed *)

Definition tx_bytes (tx : EncryptedTransaction) : bytes :=
  PutUint64 (ID tx) ++ PutUint64 (uint64 (UnixNano (ArrivedAt tx))) ++ Ciphertext tx.

Definition batch_bytes (batch : list EncryptedTransaction) : bytes := batch ≫= tx_bytes.

(** Two different messages with the same SHA-256 digest. *)
Definition sha256_collision (m1 m2 : bytes) : Prop := m1 ≠ m2 ∧ Sum256 m1 = Sum256 m2.

Lemma written_foldl batch h : written (foldl write_tx h batch) = written h ++ batch_bytes batch.
Proof.
  revert h. induction batch as [|tx batch IH]; intros h; [cbn; by rewrite app_nil_r|].
  cbn [foldl]. rewrite IH. unfold batch_bytes. rewrite bind_cons.
  unfold write_tx, tx_bytes. cbn [written Write]. by rewrite <- !app_assoc.
Qed.

Lemma GenerateBatchCommitment_eq batch :
  GenerateBatchCommitment batch = hex_EncodeToString (Sum256 (batch_bytes batch)).
Proof. unfold GenerateBatchCommitment, Sum. by rewrite written_foldl. Qed.

Lemma GenerateReceptionCommitment_eq tx :
  GenerateReceptionCommitment tx = hex_EncodeToString (Sum256 (tx_bytes tx)).
Proof.
  unfold GenerateReceptionCommitment, Sum, write_tx, tx_bytes. cbn. done.
Qed.

Lemma GenerateBatchCommitment_length batch : length (GenerateBatchCommitment batch) = 64.
Proof. by rewrite GenerateBatchCommitment_eq, hex_EncodeToString_length, Sum256_length. Qed.

Lemma int64_small z : is_int64 z → int64 z = z.
Proof. unfold is_int64, int64, wrap64. intros H. rewrite Z.mod_small; lia. Qed.

Lemma tx_bytes_app_inv t1 t2 r1 r2 :
  tx_wf t1 → tx_wf t2 → tx_bytes t1 ++ r1 = tx_bytes t2 ++ r2 →
  ID t1 = ID t2 ∧ ArrivedAt t1 = ArrivedAt t2 ∧ Ciphertext t1 ++ r1 = Ciphertext t2 ++ r2.
Proof.
  intros [Hi1 Ha1] [Hi2 Ha2]. unfold tx_bytes, PutUint64. rewrite <- !app_assoc.
  intros [H1 H]%app_inj_1; [|by rewrite !le_bytes_length].
  apply app_inj_1 in H as [H2 H]; [|by rewrite !le_bytes_length].
  apply le_bytes_8_inj in H1; [|done..].
  apply le_bytes_8_inj in H2; [|apply wrap64_range..].
  unfold UnixNano in H2. rewrite !int64_small in H2 by done.
  split_and!; [done|by apply uint64_inj_int64|done].
Qed.

Lemma tx_bytes_inj t1 t2 : tx_wf t1 → tx_wf t2 → tx_bytes t1 = tx_bytes t2 → t1 = t2.
Proof.
  intros H1 H2 E. rewrite <- (app_nil_r (tx_bytes t1)), <- (app_nil_r (tx_bytes t2)) in E.
  apply tx_bytes_app_inv in E as (?&?&E); [|done..]. rewrite !app_nil_r in E.
  destruct t1, t2; cbn in *; congruence.
Qed.

(** Batches that agree up to a transaction with different IDs hash different
    bytes, whatever follows. *)
Lemma batch_bytes_diff_id l t1 t2 r1 r2 :
  tx_wf t1 → tx_wf t2 → ID t1 ≠ ID t2 →
  batch_bytes (l ++ t1 :: r1) ≠ batch_bytes (l ++ t2 :: r2).
Proof.
  intros H1 H2 Hid E. unfold batch_bytes in E. rewrite !bind_app in E.
  apply app_inv_head in E. cbn in E. apply tx_bytes_app_inv in E as (?&_); done.
Qed.

Lemma tx_bytes_swallow t x :
  tx_bytes t ++ x = tx_bytes {| ID := ID t; Ciphertext := Ciphertext t ++ x;
                                ArrivedAt := ArrivedAt t |}.
Proof. unfold tx_bytes. cbn [ID Ciphertext ArrivedAt]. by rewrite <- !app_assoc. Qed.

(** The formatted fields contain no pipe. *)
Lemma fmt_d_no_pipe z : pipe ∉ fmt_d z.
Proof. by apply fmt_d_chars. Qed.

Lemma fmt_f_no_pipe x : pipe ∉ fmt_f x.
Proof.
  assert (∀ neg n, pipe ∉ sign_bytes neg ++ fmt_d (n / 10 ^ 6) ++ [x2e] ++
    replicate (6 - length (fmt_d (n mod 10 ^ 6))) x30 ++ fmt_d (n mod 10 ^ 6)) as H.
  { intros neg n. pose proof (fmt_d_no_pipe (n / 10 ^ 6)).
    pose proof (fmt_d_no_pipe (n mod 10 ^ 6)).
    rewrite !elem_of_app, elem_of_replicate, list_elem_of_singleton.
    intros [Hs|[?|[?|[[??]|?]]]]; try done.
    destruct neg; cbn in Hs; [by apply list_elem_of_singleton in Hs|by apply elem_of_nil in Hs]. }
  destruct x as [s|s| |s m e]; cbn [fmt_f]; [apply H| | |apply H].
  - destruct s; by apply (bool_decide_unpack _).
  - by apply (bool_decide_unpack _).
Qed.

#[export] Hint Resolve fmt_d_no_pipe fmt_f_no_pipe : go.

(** ** Properties *)

(** C30: a batch commitment binds every position of the batch.  Take two batches
    that agree up to a position.  If the transactions there differ in ID or in
    arrival time, whatever follows in either batch, or if they differ in any way
    (say, in ciphertexts of any lengths) and the rest is the same, then the bytes
    that are hashed differ; so the two can share a commitment only if those very
    bytes are a SHA-256 collision. *)
Theorem batch_commitment_binds_position l t t' r r' :
  tx_wf t → tx_wf t' →
  ID t ≠ ID t' ∨ ArrivedAt t ≠ ArrivedAt t' ∨ t ≠ t' ∧ r = r' →
  GenerateBatchCommitment (l ++ t :: r) = GenerateBatchCommitment (l ++ t' :: r') →
  sha256_collision (batch_bytes (l ++ t :: r)) (batch_bytes (l ++ t' :: r')).
Proof.
  intros Ht Ht' Hne E. rewrite !GenerateBatchCommitment_eq in E.
  apply (inj hex_EncodeToString) in E. split; [|done].
  unfold batch_bytes. rewrite !bind_app, !bind_cons. intros Eq. apply app_inv_head in Eq.
  destruct (tx_bytes_app_inv _ _ _ _ Ht Ht' Eq) as (Hi & Ha & _).
  destruct Hne as [|[|[Hne <-]]]; [done..|].
  apply app_inv_tail in Eq. by apply tx_bytes_inj in Eq.
Qed.

Definition sample_tx (id : Z) (ct : string) (at_ : Z) : EncryptedTransaction :=
  {| ID := id; Ciphertext := str ct; ArrivedAt := at_ |}.

Lemma batch_commitment_binds_position_witness :
  GenerateBatchCommitment [sample_tx 1 "a" 5; sample_tx 2 "b" 6] ≠
  GenerateBatchCommitment [sample_tx 1 "a" 5; sample_tx 3 "bb" 6; sample_tx 4 "c" 7].
Proof.
  intros E.
  pose proof (batch_commitment_binds_position [sample_tx 1 "a" 5]
    (sample_tx 2 "b" 6) (sample_tx 3 "bb" 6) [] [sample_tx 4 "c" 7]) as H.
  destruct H as [_ H]; [vm_compute; intuition congruence..|left; discriminate|exact E|].
  revert H. vm_compute. discriminate.
Defined.

(** A batch commitment binds the order of the batch.  Any reordering of a
    batch whose sequence IDs are distinct hashes different bytes, so it can
    share the commitment of the batch only through a SHA-256 collision of those
    bytes. *)
Theorem batch_commitment_binds_order b b' :
  Forall tx_wf b → NoDup (ID <$> b) → b ≡ₚ b' → b ≠ b' →
  GenerateBatchCommitment b = GenerateBatchCommitment b' →
  sha256_collision (batch_bytes b) (batch_bytes b').
Proof.
  intros Hwf Hnd Hp Hne E. rewrite !GenerateBatchCommitment_eq in E.
  apply (inj hex_EncodeToString) in E. split; [|done].
  destruct (first_difference b b') as (p & x & y & r1 & r2 & E1 & E2 & Hxy);
    [by apply Permutation_length|done|].
  assert (x ∈ b) as Hx by (rewrite E1; set_solver).
  assert (y ∈ b) as Hy by (rewrite Hp, E2; set_solver).
  rewrite Forall_forall in Hwf. rewrite E1, E2. apply batch_bytes_diff_id; auto.
  intros Hid. apply Hxy. by eapply (NoDup_fmap_inj ID b).
Qed.

Lemma batch_commitment_binds_order_witness :
  GenerateBatchCommitment [sample_tx 1 "a" 5; sample_tx 2 "b" 6] ≠
  GenerateBatchCommitment [sample_tx 2 "b" 6; sample_tx 1 "a" 5].
Proof.
  intros E.
  destruct (batch_commitment_binds_order
    [sample_tx 1 "a" 5; sample_tx 2 "b" 6] [sample_tx 2 "b" 6; sample_tx 1 "a" 5])
    as [_ H].
  - by apply (bool_decide_unpack _).
  - by apply (bool_decide_unpack _).
  - apply perm_swap.
  - discriminate.
  - exact E.
  - revert H. vm_compute. discriminate.
Defined.

(** A reception commitment binds the sequence ID, the arrival time and the
    ciphertext of its transaction: two transactions with the same commitment
    are equal, or the bytes hashed for them are a SHA-256 collision. *)
Theorem reception_commitment_binds t1 t2 :
  tx_wf t1 → tx_wf t2 →
  GenerateReceptionCommitment t1 = GenerateReceptionCommitment t2 →
  t1 = t2 ∨ sha256_collision (tx_bytes t1) (tx_bytes t2).
Proof.
  intros H1 H2 E. rewrite !GenerateReceptionCommitment_eq in E.
  apply (inj hex_EncodeToString) in E.
  destruct (decide (t1 = t2)) as [|Hne]; [by left|right].
  split; [|done]. contradict Hne. by apply tx_bytes_inj.
Qed.

Lemma reception_commitment_binds_witness :
  GenerateReceptionCommitment (sample_tx 12 "x" 3) ≠ GenerateReceptionCommitment (sample_tx 1 "x" 23).
Proof.
  intros E. destruct (reception_commitment_binds (sample_tx 12 "x" 3) (sample_tx 1 "x" 23))
    as [H|[_ H]]; [by apply (bool_decide_unpack _)..|exact E| |].
  - discriminate H.
  - revert H. vm_compute. discriminate.
Defined.

(** The batch commitment does not bind where one ciphertext ends and the
    next transaction begins.  A batch of two transactions and the batch of the
    single transaction whose ciphertext swallows the encoding of the second one
    hash the same bytes, hence have the same commitment. *)
Theorem batch_commitment_merge l t1 t2 r :
  GenerateBatchCommitment (l ++ t1 :: t2 :: r) =
  GenerateBatchCommitment
    (l ++ {| ID := ID t1; Ciphertext := Ciphertext t1 ++ tx_bytes t2;
             ArrivedAt := ArrivedAt t1 |} :: r).
Proof.
  rewrite !GenerateBatchCommitment_eq. unfold batch_bytes. do 2 f_equal.
  rewrite !bind_app, !bind_cons, app_assoc, <- tx_bytes_swallow.
  by rewrite <- !app_assoc.
Qed.

(** Two orders print the same fields. *)
Definition same_print (o1 o2 : OrderMetadata) : Prop :=
  OrderID o1 = OrderID o2 ∧ User o1 = User o2 ∧ Token o1 = Token o2 ∧
  fmt_f (Amount o1) = fmt_f (Amount o2) ∧ fmt_f (Price o1) = fmt_f (Price o2) ∧
  Timestamp o1 = Timestamp o2 ∧ Nonce o1 = Nonce o2.

(** An order whose timestamp is an int64 and whose first fields hold no pipe. *)
Definition pipe_free (o : OrderMetadata) : Prop :=
  pipe ∉ OrderID o ∧ pipe ∉ User o ∧ pipe ∉ Token o ∧ is_int64 (Timestamp o).

#[global] Instance pipe_free_dec o : Decision (pipe_free o) := ltac:(unfold pipe_free; apply _).

Lemma order_data_inj o1 o2 :
  pipe_free o1 → pipe_free o2 → order_data o1 = order_data o2 → same_print o1 o2.
Proof.
  intros (?&?&?&Ht1) (?&?&?&Ht2) Hd. unfold order_data in Hd.
  do 5 (apply separator_cancel in Hd as [? Hd]; [|auto with go..]).
  apply separator_cancel in Hd as [Ht Hn]; [|auto with go..].
  repeat (split; [done|]). split; [|done].
  pose proof (ParseInt_fmt_d _ Ht1) as P. rewrite Ht in P.
  rewrite ParseInt_fmt_d in P by done. by simplify_eq.
Qed.

(** On orders whose ID, user and token contain no pipe, the hashed string
    determines every field as it is printed: two such orders with the same
    commitment agree on all strings, on the timestamp and on the six-decimal
    rendering of amount and price, or their strings are a SHA-256 collision. *)
Theorem order_commitment_binds o1 o2 :
  pipe_free o1 → pipe_free o2 → GenerateCommitment o1 = GenerateCommitment o2 →
  same_print o1 o2 ∨ sha256_collision (order_data o1) (order_data o2).
Proof.
  intros H1 H2 E. unfold GenerateCommitment in E. apply (inj hex_EncodeToString) in E.
  destruct (decide (order_data o1 = order_data o2)); [left|by right]. by apply order_data_inj.
Qed.

Definition sample_order (oid user : string) : OrderMetadata :=
  {| OrderID := str oid; User := str user; Token := str "ETH";
     Amount := S754_finite false 5 (-1); Price := S754_finite false 225 3;
     Timestamp := 1700000000; Nonce := str "n|1" |}.

Lemma order_commitment_binds_witness :
  GenerateCommitment (sample_order "12345" "0xA") ≠ GenerateCommitment (sample_order "12345" "0xB").
Proof.
  intros E. destruct (order_commitment_binds (sample_order "12345" "0xA")
    (sample_order "12345" "0xB")) as [(_ & H & _)|[_ H]];
    [by apply (bool_decide_unpack _)..|exact E| |].
  - discriminate H.
  - revert H. vm_compute. discriminate.
Defined.

(** The pipe-delimited format does not separate adjacent fields that may
    themselves contain a pipe: moving text across the delimiter gives a
    different order with the same commitment. *)
Theorem order_commitment_pipe_shift a b c o :
  GenerateCommitment {| OrderID := a ++ pipe :: b; User := c; Token := Token o;
    Amount := Amount o; Price := Price o; Timestamp := Timestamp o; Nonce := Nonce o |} =
  GenerateCommitment {| OrderID := a; User := b ++ pipe :: c; Token := Token o;
    Amount := Amount o; Price := Price o; Timestamp := Timestamp o; Nonce := Nonce o |}.
Proof.
  unfold GenerateCommitment, order_data. cbn [OrderID User Token Amount Price Timestamp Nonce].
  do 2 f_equal. by rewrite <- !app_assoc.
Qed.
