(* ===== verification/GoSlice.v ===== *)
(** Go slices over a heap of backing arrays: [make], slice expressions,
    [copy] and [append] with its in-place and its reallocating case.  A run-time
    panic (a slice expression out of range) is [None].  The capacity a
    reallocating [append] chooses is left to an arbitrary growth policy; Go
    only promises that the elements fit. *)

From S2P Require Import Prelude.

Section slices.
Context {A : Type} (zero : A) (grow : nat → nat → nat).

(** A heap maps array locations to their (fixed-length) contents. *)
Abbreviation heap := (gmap nat (list A)).

Record Slice := MkSlice { arr : nat; off : nat; len : nat; cap : nat }.

Definition contents (h : heap) (s : Slice) : option (list A) :=
  (λ a, take (len s) (drop (off s) a)) <$> h !! arr s.

Definition fresh_loc (h : heap) : nat := fresh (dom h : gset nat).

(** [make([]A, l, c)] for [l ≤ c]. *)
Definition make_slice (h : heap) (l c : nat) : heap * Slice :=
  let p := fresh_loc h in
  (<[p := replicate c zero]> h, MkSlice p 0 l c).

(** [s[lo:hi]] *)
Definition slice_expr (s : Slice) (lo hi : nat) : option Slice :=
  if decide (lo ≤ hi ∧ hi ≤ cap s)
  then Some (MkSlice (arr s) (off s + lo) (hi - lo) (cap s - lo))
  else None.

Definition write_at (i : nat) (xs a : list A) : list A :=
  take i a ++ xs ++ drop (i + length xs) a.

(** [copy(dst, src)]: as many elements as both hold; the source is read
    before anything is written, so the two may overlap. *)
Definition copy_slice (h : heap) (dst src : Slice) : option heap :=
  xs ← contents h src;
  a ← h !! arr dst;
  Some (<[arr dst := write_at (off dst) (take (len dst) xs) a]> h).

(** [append(s, xs...)] *)
Definition append_slice (h : heap) (s : Slice) (xs : list A) : option (heap * Slice) :=
  a ← h !! arr s;
  if decide (len s + length xs ≤ cap s) then
    Some (<[arr s := write_at (off s + len s) xs a]> h,
          MkSlice (arr s) (off s) (len s + length xs) (cap s))
  else
    let old := take (len s) (drop (off s) a) in
    let need := len s + length xs in
    let c := need `max` grow (cap s) need in
    let p := fresh_loc h in
    Some (<[p := old ++ xs ++ replicate (c - need) zero]> h, MkSlice p 0 need c).

(** A slice that fits in an allocated array. *)
Definition slice_wf (h : heap) (s : Slice) : Prop :=
  len s ≤ cap s ∧ ∃ a, h !! arr s = Some a ∧ off s + cap s ≤ length a.

Lemma slice_wf_contents h s :
  slice_wf h s → ∃ xs, contents h s = Some xs ∧ length xs = len s.
Proof.
  intros (Hl & a & Ha & Hc). unfold contents. rewrite Ha. eexists; split; [done|].
  rewrite length_take, length_drop. lia.
Qed.

Lemma fresh_loc_lookup h : h !! fresh_loc h = None.
Proof.
  apply (not_elem_of_dom (D := gset nat)). unfold fresh_loc.
  exact (is_fresh (dom h : gset nat)).
Qed.

Lemma fresh_loc_ne h p a : h !! p = Some a → p ≠ fresh_loc h.
Proof. intros H ->. by rewrite fresh_loc_lookup in H. Qed.

(** Writing elsewhere keeps a slice and its contents. *)
Lemma contents_insert_ne h s p a : arr s ≠ p → contents (<[p := a]> h) s = contents h s.
Proof. intros H. unfold contents. by rewrite lookup_insert_ne. Qed.

Lemma slice_wf_insert_ne h s p a : arr s ≠ p → slice_wf h s → slice_wf (<[p := a]> h) s.
Proof.
  intros H (Hl & b & Hb & Hc). split; [done|]. exists b. by rewrite lookup_insert_ne.
Qed.

Lemma write_at_length i xs (a : list A) :
  i + length xs ≤ length a → length (write_at i xs a) = length a.
Proof. intros H. unfold write_at. rewrite !length_app, length_take, length_drop. lia. Qed.

Lemma make_slice_spec h l c h' s :
  l ≤ c → make_slice h l c = (h', s) →
  slice_wf h' s ∧ contents h' s = Some (replicate l zero) ∧ len s = l ∧ off s = 0 ∧
  h !! arr s = None ∧ (∀ p, p ≠ arr s → h' !! p = h !! p).
Proof.
  intros Hlc [= <- <-]. unfold slice_wf, contents. cbn. rewrite lookup_insert_eq. cbn.
  rewrite drop_0, take_replicate, Nat.min_l by done.
  split_and!; [done| |done..|apply fresh_loc_lookup|].
  - eexists; split; [done|]. by rewrite length_replicate.
  - intros p Hp. by rewrite lookup_insert_ne.
Qed.

(** [copy] into a slice as long as its source makes the contents equal. *)
Lemma copy_slice_spec h dst src xs :
  slice_wf h dst → contents h src = Some xs → length xs = len dst → off dst = 0 →
  ∃ h', copy_slice h dst src = Some h' ∧ slice_wf h' dst ∧ contents h' dst = Some xs ∧
    (∀ p, p ≠ arr dst → h' !! p = h !! p).
Proof.
  intros (Hl & a & Ha & Hc) Hs Hlen Hoff.
  unfold copy_slice. rewrite Hs. cbn. rewrite Ha. cbn. eexists; split; [done|].
  rewrite firstn_all2 by lia. rewrite Hoff in *. split_and!.
  - split; [done|]. exists (write_at 0 xs a). rewrite lookup_insert_eq.
    split; [done|]. rewrite Hoff, write_at_length; lia.
  - unfold contents. rewrite lookup_insert_eq. cbn. rewrite Hoff, drop_0.
    unfold write_at. rewrite take_0, app_nil_l. by rewrite take_app_length' by lia.
  - intros p Hp. by rewrite lookup_insert_ne.
Qed.

(** [append] extends the contents, in place or in a fresh array; every other
    array keeps its contents. *)
Lemma append_slice_spec h s ys xs :
  slice_wf h s → contents h s = Some ys →
  ∃ h' s', append_slice h s xs = Some (h', s') ∧ slice_wf h' s' ∧
    contents h' s' = Some (ys ++ xs) ∧ len s' = len s + length xs ∧
    (arr s' = arr s ∧ off s' = off s ∨ h !! arr s' = None ∧ off s' = 0) ∧
    (∀ p, p ≠ arr s' → h' !! p = h !! p).
Proof.
  intros (Hl & a & Ha & Hc) Hs. unfold contents in Hs. rewrite Ha in Hs. cbn in Hs.
  injection Hs as <-. unfold append_slice. rewrite Ha. cbn. case_decide as Hfit.
  - do 2 eexists; split; [done|]. cbn. split_and!; [..|by left|].
    + split; cbn; [lia|]. eexists. rewrite lookup_insert_eq. split; [done|].
      rewrite write_at_length; lia.
    + unfold contents. cbn. rewrite lookup_insert_eq. cbn. f_equal. unfold write_at.
      rewrite drop_app_le by (rewrite length_take; lia).
      rewrite <- take_drop_commute, app_assoc.
      apply take_app_length'. rewrite length_app, length_take, length_drop. lia.
    + done.
    + intros p Hp. by rewrite lookup_insert_ne.
  - do 2 eexists; split; [done|]. cbn. split_and!.
    + split; cbn; [lia|]. eexists. rewrite lookup_insert_eq. split; [done|].
      rewrite !length_app, length_take, length_drop, length_replicate. lia.
    + unfold contents. cbn. rewrite lookup_insert_eq. cbn. rewrite drop_0, app_assoc.
      f_equal. apply take_app_length'. rewrite length_app, length_take, length_drop. lia.
    + done.
    + right. split; [apply fresh_loc_lookup|done].
    + intros p Hp. by rewrite lookup_insert_ne.
Qed.
End slices.

Arguments Slice : clear implicits.
