(* ===== verification/Mempool.v ===== *)
(** pkg/sequencing/encrypted_mempool.go: the mutex-protected slice between the
    ordered log and the batch processor, modelled down to its backing array
    because draining shifts the array in place.

    Every method body runs under the mutex, so a concurrent execution is a
    sequence of whole operations ([mop]); DrainWait, which releases the mutex
    between polls, is a loop over what the environment does before each poll.
    The abstract mempool is the list of its transactions. *)

From S2P Require Import Prelude Commitment GoSlice.

Section mempool.
(** Growth policy of the Go runtime's append. *)
Context (grow : nat → nat → nat).

Record EncryptedMempool := MkMempool {
  mheap : gmap nat (list EncryptedTransaction);
  items : Slice
}.

(** NewEncryptedMempool, in a process whose heap is [h]. *)
Definition NewEncryptedMempool (h : gmap nat (list EncryptedTransaction)) (capacity : Z)
  : EncryptedMempool :=
  let capacity := if (capacity <? 0)%Z then 0%Z else capacity in
  let '(h, s) := make_slice zero_tx h 0 (Z.to_nat capacity) in
  MkMempool h s.

Definition Add (m : EncryptedMempool) (tx : EncryptedTransaction) : option EncryptedMempool :=
  '(h, s) ← append_slice zero_tx grow (mheap m) (items m) [tx];
  Some (MkMempool h s).

Definition Size (m : EncryptedMempool) : Z := Z.of_nat (len (items m)).

(** The shared tail of the drains: copy the first [n] items into a fresh
    slice, then shift the rest to the front of the backing array. *)
Definition take_front (m : EncryptedMempool) (n : nat) : option (Slice * EncryptedMempool) :=
  let '(h, out) := make_slice zero_tx (mheap m) n n in
  src ← slice_expr (items m) 0 n;
  h ← copy_slice h out src;
  front ← slice_expr (items m) 0 0;
  back ← slice_expr (items m) n (len (items m));
  rest ← contents h back;
  '(h, s) ← append_slice zero_tx grow h front rest;
  Some (out, MkMempool h s).

(** [None] as the inner result is Go's nil slice. *)
Definition DrainUpTo (m : EncryptedMempool) (n : Z)
  : option (option Slice * EncryptedMempool) :=
  if (n <=? 0)%Z then Some (None, m)
  else if decide (len (items m) = 0) then Some (None, m)
  else
    let n := if (Size m <? n)%Z then Size m else n in
    '(out, m) ← take_front m (Z.to_nat n);
    Some (Some out, m).

Definition DrainAll (m : EncryptedMempool) : option (option Slice * EncryptedMempool) :=
  if decide (len (items m) = 0) then Some (None, m)
  else
    let '(h, out) := make_slice zero_tx (mheap m) (len (items m)) (len (items m)) in
    h ← copy_slice h out (items m);
    s ← slice_expr (items m) 0 0;
    Some (Some out, MkMempool h s).

(** One locked section of DrainWait's loop. *)
Definition poll (m : EncryptedMempool) (n : Z) : option (option Slice * EncryptedMempool) :=
  if (n <=? Size m)%Z then
    let n := if (Size m <? n)%Z then Size m else n in
    '(out, m) ← take_front m (Z.to_nat n);
    Some (Some out, m)
  else Some (None, m).

(** ** Operations of other goroutines *)

Inductive mop :=
| OpAdd (tx : EncryptedTransaction)
| OpDrainUpTo (n : Z)
| OpDrainAll
| OpPoll (n : Z).

Definition run_op (o : mop) (m : EncryptedMempool)
  : option (option Slice * EncryptedMempool) :=
  match o with
  | OpAdd tx => m ← Add m tx; Some (None, m)
  | OpDrainUpTo n => DrainUpTo m n
  | OpDrainAll => DrainAll m
  | OpPoll n => if (0 <? n)%Z then poll m n else Some (None, m)
  end.

(** A sequence of operations, with every slice the drains returned. *)
Fixpoint run_ops (os : list mop) (m : EncryptedMempool)
  : option (list Slice * EncryptedMempool) :=
  match os with
  | [] => Some ([], m)
  | o :: os =>
      '(r, m) ← run_op o m;
      '(outs, m) ← run_ops os m;
      Some (option_list r ++ outs, m)
  end.

(** What ends the select between two polls. *)
Inductive wake := CtxDone | Tick.

Inductive outcome (B : Type) := Drained (b : B) | Nil | Blocked.
Arguments Drained {B} b.
Arguments Nil {B}.
Arguments Blocked {B}.

(** [env] lists, for each poll, what other goroutines did before it and what
    the select picks if the poll finds too few items.  When [env] is used up
    the caller is still blocked. *)
Fixpoint DrainWait_loop (n : Z) (env : list (list mop * wake)) (m : EncryptedMempool)
  : option (outcome Slice * EncryptedMempool) :=
  match env with
  | [] => Some (Blocked, m)
  | (os, w) :: env =>
      '(_, m) ← run_ops os m;
      '(r, m) ← poll m n;
      match r with
      | Some out => Some (Drained out, m)
      | None =>
          match w with
          | CtxDone => Some (Nil, m)
          | Tick => DrainWait_loop n env m
          end
      end
  end.

Definition DrainWait (env : list (list mop * wake)) (n : Z) (m : EncryptedMempool)
  : option (outcome Slice * EncryptedMempool) :=
  if (n <=? 0)%Z then Some (Nil, m) else DrainWait_loop n env m.

(** ** The abstract mempool *)

Definition spec_op (o : mop) (q : list EncryptedTransaction)
  : option (list EncryptedTransaction) * list EncryptedTransaction :=
  match o with
  | OpAdd tx => (None, q ++ [tx])
  | OpDrainUpTo n =>
      if decide ((n ≤ 0)%Z ∨ q = []) then (None, q)
      else (Some (take (Z.to_nat n) q), drop (Z.to_nat n) q)
  | OpDrainAll => if decide (q = []) then (None, q) else (Some q, [])
  | OpPoll n =>
      if decide ((0 < n)%Z ∧ (n ≤ Z.of_nat (length q))%Z)
      then (Some (take (Z.to_nat n) q), drop (Z.to_nat n) q) else (None, q)
  end.

Fixpoint spec_ops (os : list mop) (q : list EncryptedTransaction)
  : list (list EncryptedTransaction) * list EncryptedTransaction :=
  match os with
  | [] => ([], q)
  | o :: os =>
      let '(r, q) := spec_op o q in
      let '(outs, q) := spec_ops os q in
      (option_list r ++ outs, q)
  end.

Fixpoint spec_drain_wait (n : Z) (env : list (list mop * wake)) (q : list EncryptedTransaction)
  : outcome (list EncryptedTransaction) * list EncryptedTransaction :=
  match env with
  | [] => (Blocked, q)
  | (os, w) :: env =>
      let q := (spec_ops os q).2 in
      match spec_op (OpPoll n) q with
      | (Some b, q) => (Drained b, q)
      | (None, q) =>
          match w with CtxDone => (Nil, q) | Tick => spec_drain_wait n env q end
      end
  end.

Fixpoint added (os : list mop) : list EncryptedTransaction :=
  match os with
  | [] => []
  | OpAdd tx :: os => tx :: added os
  | _ :: os => added os
  end.
(** ** Representation *)

(** The backing array of [m] holds the transactions [q]. *)
Definition rep (m : EncryptedMempool) (q : list EncryptedTransaction) : Prop :=
  slice_wf (mheap m) (items m) ∧ off (items m) = 0 ∧ contents (mheap m) (items m) = Some q.

(** The slice [out] holds [b] and does not share the mempool's array. *)
Definition owned (m : EncryptedMempool) (out : Slice) (b : list EncryptedTransaction) : Prop :=
  contents (mheap m) out = Some b ∧ arr out ≠ arr (items m).

(** [m'] differs from [m] only in the mempool's array and in new arrays. *)
Definition only_own (m m' : EncryptedMempool) : Prop :=
  (∀ p, is_Some (mheap m !! p) → p ≠ arr (items m) → mheap m' !! p = mheap m !! p) ∧
  (arr (items m') = arr (items m) ∨ mheap m !! arr (items m') = None).

Lemma contents_is_Some (h : gmap nat (list EncryptedTransaction)) s xs :
  contents h s = Some xs → is_Some (h !! arr s).
Proof. unfold contents. intros (a & Ha & _)%fmap_Some. eauto. Qed.

Lemma owned_only_own m m' out b : only_own m m' → owned m out b → owned m' out b.
Proof.
  intros [Hk Ha] [Hc Hne]. pose proof (contents_is_Some _ _ _ Hc) as Hs. split.
  - unfold contents in *. by rewrite Hk.
  - destruct Ha as [-> | Hn]; [done|]. intros E. rewrite <- E in Hn.
    destruct Hs. congruence.
Qed.

#[local] Instance only_own_refl : Reflexive only_own.
Proof. intros m. split; [done|by left]. Qed.

#[local] Instance only_own_trans : Transitive only_own.
Proof.
  intros m1 m2 m3 [H12 A12] [H23 A23].
  assert (∀ p, is_Some (mheap m1 !! p) → p ≠ arr (items m1) →
               is_Some (mheap m2 !! p) ∧ p ≠ arr (items m2)) as Hp.
  { intros p Hs Hne. rewrite H12 by done. split; [done|].
    destruct A12 as [-> | Hn]; [done|]. intros ->. destruct Hs. congruence. }
  split.
  - intros p Hs Hne. destruct (Hp p Hs Hne). rewrite H23, H12 by done. done.
  - destruct A23 as [-> | Hn]; [done|].
    destruct (decide (arr (items m3) = arr (items m1))) as [|Hne]; [by left|right].
    apply eq_None_not_Some. intros Hs. destruct (Hp _ Hs Hne) as [Hs2 _].
    rewrite Hn in Hs2. by destruct Hs2.
Qed.

Lemma rep_length m q : rep m q → len (items m) = length q.
Proof.
  intros (Hwf & _ & Hc). destruct (slice_wf_contents _ _ Hwf) as (xs & Hxs & Hl).
  congruence.
Qed.

Lemma NewEncryptedMempool_rep h capacity : rep (NewEncryptedMempool h capacity) [].
Proof.
  unfold NewEncryptedMempool. cbn zeta.
  destruct (make_slice zero_tx h 0 _) as [h' s] eqn:E.
  apply make_slice_spec in E as (Hwf & Hc & _ & Ho & _); [|lia]. done.
Qed.

Lemma Add_spec m q tx :
  rep m q → ∃ m', Add m tx = Some m' ∧ rep m' (q ++ [tx]) ∧ only_own m m'.
Proof.
  intros (Hwf & Ho & Hc).
  destruct (append_slice_spec zero_tx grow (mheap m) (items m) q [tx])
    as (h' & s' & E & Hwf' & Hc' & _ & Hs & Hk); [done..|].
  unfold Add. rewrite E. cbn. eexists; split; [done|]. split; [|split].
  - refine (conj Hwf' (conj _ Hc')). cbn. destruct Hs as [[_ ->]|[_ ->]]; done.
  - intros p Hp Hne. apply Hk. cbn. destruct Hs as [[-> _]|[Hn _]]; [done|].
    intros ->. destruct Hp. congruence.
  - cbn. destruct Hs as [[-> _]|[Hn _]]; [by left|by right].
Qed.

Lemma slice_expr_front m q n :
  rep m q → n ≤ length q →
  ∃ s, slice_expr (items m) 0 n = Some s ∧ arr s = arr (items m) ∧ off s = 0 ∧
    len s = n ∧ cap s = cap (items m) ∧ contents (mheap m) s = Some (take n q).
Proof.
  intros Hr Hn. pose proof (rep_length _ _ Hr) as Hl.
  destruct Hr as ((Hlc & a & Ha & Hac) & Ho & Hc).
  unfold slice_expr. rewrite decide_True by lia. eexists; split; [done|]. cbn.
  split_and!; [done|lia|lia|lia|].
  unfold contents in *. cbn. rewrite Ha in *. cbn in *. rewrite Ho in *. injection Hc as <-.
  rewrite Nat.sub_0_r, take_take. do 2 f_equal. lia.
Qed.

Lemma slice_expr_back m q n :
  rep m q → n ≤ length q →
  ∃ s, slice_expr (items m) n (len (items m)) = Some s ∧ arr s = arr (items m) ∧
    contents (mheap m) s = Some (drop n q).
Proof.
  intros Hr Hn. pose proof (rep_length _ _ Hr) as Hl.
  destruct Hr as ((Hlc & a & Ha & Hac) & Ho & Hc).
  unfold slice_expr. rewrite decide_True by lia. eexists; split; [done|]. cbn.
  split_and!; [done|].
  unfold contents in *. cbn. rewrite Ha in *. cbn in *. rewrite Ho in *. injection Hc as <-.
  cbn. rewrite drop_0, take_drop_commute. do 2 f_equal. f_equal. lia.
Qed.

(** The drains' common tail: the first [n] transactions go to a slice of
    their own and the rest stays, in order. *)
Lemma take_front_spec m q n :
  rep m q → n ≤ length q →
  ∃ out m', take_front m n = Some (out, m') ∧ owned m' out (take n q) ∧
    rep m' (drop n q) ∧ only_own m m'.
Proof.
  intros Hr Hn. pose proof Hr as (Hwf & Ho & Hc).
  destruct (slice_expr_front m q n Hr Hn) as (src & Es & As & _ & Ls & _ & Cs).
  destruct (slice_expr_front m q 0 Hr ltac:(lia)) as (front & Ef & Af & Of & Lf & Capf & Cf).
  destruct (slice_expr_back m q n Hr Hn) as (back & Eb & Ab & Cb).
  unfold take_front. destruct (make_slice zero_tx (mheap m) n n) as [h1 out] eqn:Em.
  apply make_slice_spec in Em as (Wo & Co & Lo & Oo & Fo & K1); [|done].
  assert (arr (items m) ≠ arr out) as Hne.
  { intros E. destruct (contents_is_Some _ _ _ Hc) as [a Ha]. congruence. }
  assert (∀ s, arr s = arr (items m) → contents h1 s = contents (mheap m) s) as C1.
  { intros s E. unfold contents. by rewrite K1 by congruence. }
  rewrite Es. cbn. destruct (copy_slice_spec h1 out src (take n q))
    as (h2 & Ec & Wo2 & Co2 & K2); [done|by rewrite C1| |done|].
  { rewrite length_take. lia. }
  rewrite Ec. cbn. rewrite Ef. cbn. rewrite Eb. cbn.
  assert (∀ s, arr s = arr (items m) → contents h2 s = contents (mheap m) s) as C2.
  { intros s E. rewrite <- C1 by done. unfold contents. by rewrite K2 by congruence. }
  rewrite C2, Cb by done. cbn.
  destruct (append_slice_spec zero_tx grow h2 front [] (drop n q))
    as (h3 & s3 & Ea & W3 & C3 & _ & A3 & K3).
  { destruct Hwf as (Hlc & a & Ha & Hac). split; [lia|]. exists a.
    rewrite Af, Of, K2, K1 by congruence. split; [done|]. lia. }
  { by rewrite C2, Cf by done. }
  rewrite Ea. cbn. do 2 eexists; split; [done|].
  assert (arr s3 ≠ arr out) as Hne3.
  { destruct A3 as [[-> _]|[Hn3 _]]; [congruence|]. intros E. rewrite E in Hn3.
    destruct (contents_is_Some _ _ _ Co2). congruence. }
  split_and!.
  - split; cbn; [|done]. unfold contents. by rewrite K3.
  - refine (conj W3 (conj _ C3)). cbn. destruct A3 as [[_ ->]|[_ ->]]; done.
  - assert (∀ p, p ≠ arr out → h2 !! p = mheap m !! p) as K12.
    { intros p Hp. by rewrite K2, K1 by done. }
    assert (∀ p, is_Some (mheap m !! p) → p ≠ arr out) as Hold.
    { intros p [b Hb] ->. congruence. }
    split; cbn.
    + intros p Hp Hpi. rewrite <- K12 by auto. apply K3. intros ->.
      destruct A3 as [[E _]|[Hn3 _]]; [congruence|]. rewrite K12 in Hn3 by done.
      destruct Hp. congruence.
    + destruct A3 as [[-> _]|[Hn3 _]]; [by left|right]. by rewrite K12 in Hn3.
Qed.

Lemma DrainAll_spec m q :
  rep m q → q ≠ [] →
  ∃ out m', DrainAll m = Some (Some out, m') ∧ owned m' out q ∧ rep m' [] ∧ only_own m m'.
Proof.
  intros Hr Hq. pose proof (rep_length _ _ Hr) as Hl. pose proof Hr as (Hwf & Ho & Hc).
  unfold DrainAll. rewrite decide_False by (destruct q; cbn in *; lia || done).
  destruct (make_slice zero_tx (mheap m) _ _) as [h1 out] eqn:Em.
  apply make_slice_spec in Em as (Wo & Co & Lo & Oo & Fo & K1); [|done].
  assert (arr (items m) ≠ arr out) as Hne.
  { intros E. destruct (contents_is_Some _ _ _ Hc) as [a Ha]. congruence. }
  destruct (copy_slice_spec h1 out (items m) q) as (h2 & Ec & Wo2 & Co2 & K2);
    [done| |congruence|done|].
  { unfold contents in *. by rewrite K1. }
  rewrite Ec. cbn.
  destruct (slice_expr_front m q 0 Hr ltac:(lia)) as (front & Ef & Af & Of & Lf & Capf & Cf).
  rewrite Ef. cbn. do 2 eexists; split; [done|].
  assert (∀ p, p ≠ arr out → h2 !! p = mheap m !! p) as K12.
  { intros p Hp. by rewrite K2, K1 by done. }
  split_and!.
  - split; cbn; [done|]. congruence.
  - refine (conj _ (conj Of _)); cbn.
    + destruct Hwf as (Hlc & a & Ha & Hac). split; [lia|]. exists a.
      rewrite K12 by congruence. rewrite Af, Of. split; [done|lia].
    + unfold contents in *. rewrite K12 by congruence. exact Cf.
  - split; cbn; [|by left]. intros p [b Hb] _. apply K12. congruence.
Qed.

Lemma run_op_spec o m q :
  rep m q →
  ∃ r m', run_op o m = Some (r, m') ∧ rep m' (spec_op o q).2 ∧ only_own m m' ∧
    option_Forall2 (owned m') r (spec_op o q).1.
Proof.
  intros Hr. pose proof (rep_length _ _ Hr) as Hl. destruct o as [tx|n| |n]; cbn [run_op spec_op].
  - destruct (Add_spec m q tx Hr) as (m' & E & Hr' & Hk). rewrite E. cbn.
    do 2 eexists; split; [done|]. split_and!; [done..|constructor].
  - unfold DrainUpTo, Size. destruct (Z.leb_spec n 0) as [Hn|Hn].
    { rewrite decide_True by (left; lia). do 2 eexists; split; [done|].
      split_and!; [done..|constructor]. }
    destruct (decide (len (items m) = 0)) as [Hz|Hz].
    { rewrite decide_True by (right; apply length_zero_iff_nil; congruence).
      do 2 eexists; split; [done|]. split_and!; [done..|constructor]. }
    rewrite decide_False by (intros [?| ->]; [lia|cbn in Hl; lia]).
    set (k := Z.to_nat _).
    assert (k ≤ length q ∧ take k q = take (Z.to_nat n) q ∧ drop k q = drop (Z.to_nat n) q)
      as (Hk & Ht & Hd).
    { unfold k. destruct (Z.ltb_spec (Z.of_nat (len (items m))) n).
      - rewrite Nat2Z.id, Hl. rewrite !take_ge, !drop_ge by lia. done.
      - split_and!; [lia|done|done]. }
    destruct (take_front_spec m q k Hr Hk) as (out & m' & E & Hown & Hr' & Ho).
    rewrite E. cbn. rewrite Ht, Hd in *. do 2 eexists; split; [done|].
    split_and!; [done..|by constructor].
  - case_decide as Hq.
    { subst q. unfold DrainAll. rewrite decide_True by done.
      do 2 eexists; split; [done|]. split_and!; [done..|constructor]. }
    destruct (DrainAll_spec m q Hr Hq) as (out & m' & E & Hown & Hr' & Ho).
    do 2 eexists; split; [done|]. split_and!; [done..|by constructor].
  - unfold poll, Size. destruct (Z.ltb_spec 0 n) as [Hn|Hn].
    2:{ rewrite decide_False by lia. do 2 eexists; split; [done|].
        split_and!; [done..|constructor]. }
    rewrite Hl. destruct (Z.leb_spec n (Z.of_nat (length q))) as [Hle|Hgt].
    2:{ rewrite decide_False by lia. do 2 eexists; split; [done|].
        split_and!; [done..|constructor]. }
    rewrite decide_True by done.
    rewrite (proj2 (Z.ltb_ge _ _)) by done.
    destruct (take_front_spec m q (Z.to_nat n) Hr ltac:(lia)) as (out & m' & E & Hown & Hr' & Ho).
    rewrite E. cbn. do 2 eexists; split; [done|]. split_and!; [done..|by constructor].
Qed.

Lemma run_ops_spec os m q :
  rep m q →
  ∃ outs m', run_ops os m = Some (outs, m') ∧ rep m' (spec_ops os q).2 ∧ only_own m m' ∧
    Forall2 (owned m') outs (spec_ops os q).1.
Proof.
  revert m q. induction os as [|o os IH]; intros m q Hr.
  { do 2 eexists; split; [done|]. split_and!; [done..|constructor]. }
  cbn [run_ops spec_ops].
  destruct (run_op_spec o m q Hr) as (r & m1 & E1 & Hr1 & Ho1 & Hf1).
  destruct (spec_op o q) as [r' q1]. cbn in Hr1, Hf1.
  destruct (IH m1 q1 Hr1) as (outs & m2 & E2 & Hr2 & Ho2 & Hf2).
  destruct (spec_ops os q1) as [outs' q2]. cbn in Hr2, Hf2.
  rewrite E1. cbn. rewrite E2. cbn. do 2 eexists; split; [done|]. cbn.
  split_and!; [done|by etrans|]. apply Forall2_app; [|done].
  destruct Hf1; constructor; [|constructor]. by eapply owned_only_own.
Qed.

(** ** The abstract mempool is a FIFO queue *)

Lemma spec_op_fifo o q :
  concat (option_list (spec_op o q).1) ++ (spec_op o q).2 = q ++ added [o].
Proof.
  destruct o as [tx|n| |n]; cbn; repeat case_decide; cbn;
    rewrite ?app_nil_r, ?take_drop; done.
Qed.

Lemma added_cons o os : added (o :: os) = added [o] ++ added os.
Proof. destruct o; done. Qed.

Lemma spec_ops_fifo os q :
  concat (spec_ops os q).1 ++ (spec_ops os q).2 = q ++ added os.
Proof.
  revert q. induction os as [|o os IH]; intros q; [cbn; by rewrite app_nil_r|].
  rewrite added_cons. cbn [spec_ops]. pose proof (spec_op_fifo o q) as Ho.
  destruct (spec_op o q) as [r q1]. cbn in Ho. specialize (IH q1).
  destruct (spec_ops os q1) as [outs q2]. cbn [fst snd] in *.
  rewrite concat_app, <- app_assoc, IH, app_assoc, Ho. by rewrite app_assoc.
Qed.

Lemma spec_op_poll_None n q q' :
  (0 < n)%Z → spec_op (OpPoll n) q = (None, q') → q' = q ∧ (Z.of_nat (length q) < n)%Z.
Proof. intros Hn. cbn. case_decide; [done|]. intros [= <-]. split; [done|lia]. Qed.

(** One poll: the oldest [n] transactions if there are that many. *)
Lemma poll_spec n m q :
  (0 < n)%Z → rep m q →
  ∃ r m', poll m n = Some (r, m') ∧ only_own m m' ∧
    match r with
    | Some out => (n ≤ Z.of_nat (length q))%Z ∧ owned m' out (take (Z.to_nat n) q) ∧
                  rep m' (drop (Z.to_nat n) q)
    | None => (Z.of_nat (length q) < n)%Z ∧ rep m' q
    end.
Proof.
  intros Hn Hr. destruct (run_op_spec (OpPoll n) m q Hr) as (r & m' & E & Hr' & Ho & Hf).
  cbn [run_op] in E. rewrite (proj2 (Z.ltb_lt _ _)) in E by done.
  exists r, m'. split; [done|]. split; [done|]. cbn [spec_op] in Hr', Hf.
  case_decide as Hc; cbn in Hr', Hf; inversion Hf; subst.
  - split_and!; [lia|done..].
  - split; [lia|done].
Qed.

(** [r] is the concrete form of the abstract outcome [r']. *)
Definition outcome_rep (m : EncryptedMempool) (r : outcome Slice)
    (r' : outcome (list EncryptedTransaction)) : Prop :=
  match r, r' with
  | Drained out, Drained b => owned m out b
  | Nil, Nil | Blocked, Blocked => True
  | _, _ => False
  end.

Lemma DrainWait_loop_spec n env m q :
  (0 < n)%Z → rep m q →
  ∃ r m', DrainWait_loop n env m = Some (r, m') ∧ rep m' (spec_drain_wait n env q).2 ∧
    outcome_rep m' r (spec_drain_wait n env q).1.
Proof.
  intros Hn. revert m q. induction env as [|[os w] env IH]; intros m q Hr; [by do 2 eexists|].
  cbn [DrainWait_loop spec_drain_wait].
  destruct (run_ops_spec os m q Hr) as (outs & m1 & E1 & Hr1 & _ & _).
  rewrite E1. cbn [mbind option_bind]. set (q1 := (spec_ops os q).2) in *.
  destruct (run_op_spec (OpPoll n) m1 q1 Hr1) as (r & m2 & E2 & Hr2 & _ & Hf2).
  cbn [run_op] in E2. rewrite (proj2 (Z.ltb_lt _ _)) in E2 by done. rewrite E2.
  cbn [mbind option_bind].
  destruct (spec_op (OpPoll n) q1) as [r' q2]. cbn in Hr2, Hf2.
  destruct Hf2 as [out b Hob|]; [by do 2 eexists|].
  destruct w; [by do 2 eexists|]. by apply IH.
Qed.

(** ** Properties *)

(** C27: whatever operations are run on a new mempool, none of them panics,
    and reading every returned batch after all of them, in the order they
    were returned, followed by what is still in the mempool, gives exactly
    the added transactions in the order they were added.  Nothing is lost,
    duplicated or reordered, and the in-place shift of the backing array
    never overwrites a batch that was handed out. *)
Theorem mempool_fifo h capacity os :
  ∃ outs m' batches q,
    run_ops os (NewEncryptedMempool h capacity) = Some (outs, m') ∧
    Forall2 (λ out b, contents (mheap m') out = Some b) outs batches ∧
    contents (mheap m') (items m') = Some q ∧
    concat batches ++ q = added os.
Proof.
  destruct (run_ops_spec os _ [] (NewEncryptedMempool_rep h capacity))
    as (outs & m' & E & (_ & _ & Hc) & _ & Hf).
  exists outs, m', (spec_ops os []).1, (spec_ops os []).2. split_and!; [done| |done|].
  - eapply Forall2_impl; [done|]. by intros ?? [? _].
  - by rewrite spec_ops_fifo.
Qed.

(** DrainWait implements the abstract drain: on any mempool and against
    any behaviour of the other goroutines it never panics, returns nil,
    stays blocked or drains exactly when the abstract mempool does, and
    leaves the transactions the abstract mempool leaves. *)
Theorem DrainWait_refines n env m q :
  rep m q →
  ∃ r m', DrainWait env n m = Some (r, m') ∧
    (if decide (n ≤ 0)%Z then r = Nil ∧ m' = m
     else rep m' (spec_drain_wait n env q).2 ∧
          outcome_rep m' r (spec_drain_wait n env q).1).
Proof.
  intros Hr. unfold DrainWait. destruct (Z.leb_spec n 0) as [Hn|Hn].
  - do 2 eexists; split; [done|]. by rewrite decide_True.
  - destruct (DrainWait_loop_spec n env m q Hn Hr) as (r & m' & E & H).
    do 2 eexists; split; [done|]. by rewrite decide_False by lia.
Qed.

Lemma spec_ops_app os1 os2 q :
  (spec_ops (os1 ++ os2) q).2 = (spec_ops os2 (spec_ops os1 q).2).2.
Proof.
  revert q. induction os1 as [|o os1 IH]; intros q; [done|]. cbn.
  destruct (spec_op o q) as [r q1]. specialize (IH q1).
  destruct (spec_ops (os1 ++ os2) q1), (spec_ops os1 q1). exact IH.
Qed.

Lemma spec_drain_wait_returns n pre os w post q :
  (0 < n)%Z → Forall (λ e, e.2 = Tick) pre →
  (n ≤ Z.of_nat (length (spec_ops (concat pre.*1 ++ os) q).2))%Z →
  ∃ b, (spec_drain_wait n (pre ++ (os, w) :: post) q).1 = Drained b ∧
    Z.of_nat (length b) = n.
Proof.
  intros Hn. revert q. induction pre as [|[os0 w0] pre IH]; intros q Hp Hlen.
  - cbn in *. rewrite decide_True by lia. eexists; split; [done|]. rewrite length_take. lia.
  - apply Forall_cons in Hp as [Hw Hp]. cbn in Hw. subst w0.
    cbn [app spec_drain_wait]. cbn [fmap list_fmap concat fst] in Hlen.
    rewrite <- app_assoc, spec_ops_app in Hlen.
    destruct (spec_op (OpPoll n) _) as [[b|] q1] eqn:E.
    + cbn in E. case_decide; simplify_eq. eexists; split; [done|]. rewrite length_take. lia.
    + apply spec_op_poll_None in E as [-> _]; [|done]. by apply IH.
Qed.

(** DrainWait returns.  If the context is not cancelled before a poll at
    which the other goroutines have left at least [n] transactions in the
    mempool, DrainWait has returned a batch of exactly [n] transactions by
    that poll. *)
Theorem DrainWait_returns n pre os w post m q :
  (0 < n)%Z → rep m q → Forall (λ e, e.2 = Tick) pre →
  (n ≤ Z.of_nat (length (spec_ops (concat pre.*1 ++ os) q).2))%Z →
  ∃ out b m', DrainWait (pre ++ (os, w) :: post) n m = Some (Drained out, m') ∧
    contents (mheap m') out = Some b ∧ Z.of_nat (length b) = n.
Proof.
  intros Hn Hr Hp Hlen.
  destruct (DrainWait_loop_spec n (pre ++ (os, w) :: post) m q Hn Hr)
    as (r & m' & E & _ & Ho).
  destruct (spec_drain_wait_returns n pre os w post q Hn Hp Hlen) as (b & Eb & Hb).
  rewrite Eb in Ho. destruct r as [out| |]; try done. destruct Ho as [Hc _].
  exists out, b, m'. split_and!; [|done..]. unfold DrainWait.
  by rewrite (proj2 (Z.leb_gt _ _)) by done.
Qed.
End mempool.

Arguments Drained {B} b.
Arguments Nil {B}.
Arguments Blocked {B}.

(** A doubling growth policy, for evaluating the model. *)
Definition doubling (old need : nat) : nat := 2 * old.

Definition sample_pool : EncryptedMempool := NewEncryptedMempool ∅ 2.

Lemma DrainWait_refines_witness :
  ∃ r m', DrainWait doubling [([OpAdd (sample_tx 1 "a" 5)], Tick);
                              ([OpAdd (sample_tx 2 "b" 6)], CtxDone)] 2 sample_pool = Some (r, m') ∧
    outcome_rep m' r (Drained [sample_tx 1 "a" 5; sample_tx 2 "b" 6]).
Proof.
  destruct (DrainWait_refines doubling 2
    [([OpAdd (sample_tx 1 "a" 5)], Tick); ([OpAdd (sample_tx 2 "b" 6)], CtxDone)]
    sample_pool [] (NewEncryptedMempool_rep ∅ 2)) as (r & m' & E & H).
  rewrite decide_False in H by lia. exists r, m'. split; [exact E|exact (proj2 H)].
Defined.

Lemma DrainWait_returns_witness :
  ∃ out b m', DrainWait doubling ([([OpAdd (sample_tx 1 "a" 5)], Tick)] ++
                              ([OpAdd (sample_tx 2 "b" 6)], CtxDone) :: []) 2 sample_pool
                = Some (Drained out, m') ∧
    contents (mheap m') out = Some b ∧ Z.of_nat (length b) = 2%Z.
Proof.
  apply (DrainWait_returns doubling 2 [([OpAdd (sample_tx 1 "a" 5)], Tick)]
    [OpAdd (sample_tx 2 "b" 6)] CtxDone [] sample_pool []).
  - lia.
  - apply NewEncryptedMempool_rep.
  - by repeat constructor.
  - vm_compute. discriminate.
Defined.
