(* ===== verification/TxQueue.v ===== *)
(** pkg/sequencing/queue.go: the single-node ordering queue as a transition
    system of goroutines.

    The state holds the channels [ch], [submitCh] and [done], the admission
    goroutine's position in runAdmissionLoop, every call of SubmitWithReceipt
    and every call of Drain or DrainWait.  An [event] is one atomic action of
    one goroutine, and names the select branch it takes; [step] returns [None]
    when the branch is not ready.  A channel of capacity 0 has no buffer: its
    send and its receive are one event, of both goroutines.

    The fields from [accepted] on are history: they record what happened and
    are read by no step. *)

From S2P Require Import Prelude Commitment.

(** ** Data *)

(** [ctx.Err()] of a finished context. *)
Inductive ctx_error := Canceled | DeadlineExceeded.

Inductive q_error := ErrQueueClosed | CtxErr (e : ctx_error).

#[global] Instance ctx_error_eq_decision : EqDecision ctx_error.
Proof. solve_decision. Defined.
#[global] Instance q_error_eq_decision : EqDecision q_error.
Proof. solve_decision. Defined.

(** submitResponse: a nil error is [None]. *)
Record submitResponse := Resp { resp_tx : EncryptedTransaction; resp_err : option q_error }.

Definition reject (e : q_error) : submitResponse := Resp zero_tx (Some e).
Definition receipt (tx : EncryptedTransaction) : submitResponse := Resp tx None.

(** Where a SubmitWithReceipt call is: at its first select, at its second one,
    or returned. *)
Inductive submit_pc := SSend | SWait | SReturned (r : submitResponse).

(** A call in progress, which is also the submitRequest it sends: its context,
    its copy of the ciphertext, and its response channel of capacity 1. *)
Record submit_call := Call {
  sc_ctx : nat;
  sc_payload : bytes;
  sc_pc : submit_pc;
  sc_resp : option submitResponse
}.

(** A call of DrainWait ([d_ctx] is its context) or of Drain (no context):
    the batch so far and, once returned, its error. *)
Record drain_call := DrainCall {
  d_ctx : option nat;
  d_size : Z;
  d_batch : list EncryptedTransaction;
  d_ret : option (option q_error)
}.

(** Where the admission goroutine is: at the select of the loop, at the check
    of a received request, at the select that commits a stamped transaction,
    in rejectPendingSubmissions, about to close [ch], or returned. *)
Inductive admission_pc :=
| ALoop
| ACheck (c : nat)
| ASend (c : nat) (tx : EncryptedTransaction)
| AReject
| AClose
| AExited.

Record TxQueue := MkQueue {
  capacity : nat;
  ch : list EncryptedTransaction;
  ch_closed : bool;
  submitCh : list nat;
  done : bool;
  closeOnce : bool;
  nextID : Z;
  adm : admission_pc;
  ctxs : gmap nat ctx_error;
  calls : gmap nat submit_call;
  drains : gmap nat drain_call;
  panicked : bool;
  accepted : list nat;
  sent : list (nat * EncryptedTransaction);
  recvd : list (nat * EncryptedTransaction);
  stamps : Z
}.

(** NewTxQueue; a negative capacity panics in [make]. *)
Definition NewTxQueue (cap : Z) : option TxQueue :=
  if (cap <? 0)%Z then None
  else Some {| capacity := Z.to_nat cap; ch := []; ch_closed := false; submitCh := [];
               done := false; closeOnce := false; nextID := 0; adm := ALoop; ctxs := ∅;
               calls := ∅; drains := ∅; panicked := false;
               accepted := []; sent := []; recvd := []; stamps := 0 |}.

(** [Len]: len(q.ch) *)
Definition Len (q : TxQueue) : Z := Z.of_nat (length (ch q)).

(** ** Updates *)

Definition set_adm (a : admission_pc) (q : TxQueue) : TxQueue :=
  MkQueue (capacity q) (ch q) (ch_closed q) (submitCh q) (done q) (closeOnce q) (nextID q) a
    (ctxs q) (calls q) (drains q) (panicked q) (accepted q) (sent q) (recvd q) (stamps q).
Definition set_calls (m : gmap nat submit_call) (q : TxQueue) : TxQueue :=
  MkQueue (capacity q) (ch q) (ch_closed q) (submitCh q) (done q) (closeOnce q) (nextID q)
    (adm q) (ctxs q) m (drains q) (panicked q) (accepted q) (sent q) (recvd q) (stamps q).
Definition set_drains (m : gmap nat drain_call) (q : TxQueue) : TxQueue :=
  MkQueue (capacity q) (ch q) (ch_closed q) (submitCh q) (done q) (closeOnce q) (nextID q)
    (adm q) (ctxs q) (calls q) m (panicked q) (accepted q) (sent q) (recvd q) (stamps q).
Definition set_ctxs (m : gmap nat ctx_error) (q : TxQueue) : TxQueue :=
  MkQueue (capacity q) (ch q) (ch_closed q) (submitCh q) (done q) (closeOnce q) (nextID q)
    (adm q) m (calls q) (drains q) (panicked q) (accepted q) (sent q) (recvd q) (stamps q).
Definition set_submitCh (l : list nat) (q : TxQueue) : TxQueue :=
  MkQueue (capacity q) (ch q) (ch_closed q) l (done q) (closeOnce q) (nextID q)
    (adm q) (ctxs q) (calls q) (drains q) (panicked q) (accepted q) (sent q) (recvd q) (stamps q).
Definition set_ch (l : list EncryptedTransaction) (q : TxQueue) : TxQueue :=
  MkQueue (capacity q) l (ch_closed q) (submitCh q) (done q) (closeOnce q) (nextID q)
    (adm q) (ctxs q) (calls q) (drains q) (panicked q) (accepted q) (sent q) (recvd q) (stamps q).
Definition panic (q : TxQueue) : TxQueue :=
  MkQueue (capacity q) (ch q) (ch_closed q) (submitCh q) (done q) (closeOnce q) (nextID q)
    (adm q) (ctxs q) (calls q) (drains q) true (accepted q) (sent q) (recvd q) (stamps q).

(** History updates. *)
Definition log_accept (c : nat) (q : TxQueue) : TxQueue :=
  MkQueue (capacity q) (ch q) (ch_closed q) (submitCh q) (done q) (closeOnce q) (nextID q)
    (adm q) (ctxs q) (calls q) (drains q) (panicked q) (accepted q ++ [c]) (sent q) (recvd q)
    (stamps q).
Definition log_send (c : nat) (tx : EncryptedTransaction) (q : TxQueue) : TxQueue :=
  MkQueue (capacity q) (ch q) (ch_closed q) (submitCh q) (done q) (closeOnce q) (nextID q)
    (adm q) (ctxs q) (calls q) (drains q) (panicked q) (accepted q) (sent q ++ [(c, tx)])
    (recvd q) (stamps q).
Definition log_recv (d : nat) (tx : EncryptedTransaction) (q : TxQueue) : TxQueue :=
  MkQueue (capacity q) (ch q) (ch_closed q) (submitCh q) (done q) (closeOnce q) (nextID q)
    (adm q) (ctxs q) (calls q) (drains q) (panicked q) (accepted q) (sent q)
    (recvd q ++ [(d, tx)]) (stamps q).

(** [q.nextID++] on a uint64. *)
Definition next_id (q : TxQueue) : TxQueue :=
  MkQueue (capacity q) (ch q) (ch_closed q) (submitCh q) (done q) (closeOnce q)
    (wrap64 (nextID q + 1))
    (adm q) (ctxs q) (calls q) (drains q) (panicked q) (accepted q) (sent q) (recvd q)
    (stamps q + 1).

Definition shut_ch (q : TxQueue) : TxQueue :=
  MkQueue (capacity q) (ch q) true (submitCh q) (done q) (closeOnce q) (nextID q)
    (adm q) (ctxs q) (calls q) (drains q) (panicked q) (accepted q) (sent q) (recvd q) (stamps q).
Definition shut_done (q : TxQueue) : TxQueue :=
  MkQueue (capacity q) (ch q) (ch_closed q) (submitCh q) true true (nextID q)
    (adm q) (ctxs q) (calls q) (drains q) (panicked q) (accepted q) (sent q) (recvd q) (stamps q).

(** [close(q.ch)]: closing a closed channel panics. *)
Definition close_ch (q : TxQueue) : TxQueue :=
  if ch_closed q then panic q else shut_ch q.

(** [Close]: the sync.Once runs its body the first time only; closing the
    closed [done] would panic. *)
Definition Close (q : TxQueue) : TxQueue :=
  if closeOnce q then q
  else if done q then panic q
  else shut_done q.

Definition set_pc (p : submit_pc) (k : submit_call) : submit_call :=
  Call (sc_ctx k) (sc_payload k) p (sc_resp k).

Definition goto_call (c : nat) (p : submit_pc) (q : TxQueue) : TxQueue :=
  set_calls (alter (set_pc p) c (calls q)) q.

(** Error of the context of call [c], once it is done. *)
Definition call_ctx_err (q : TxQueue) (c : nat) : option ctx_error :=
  k ← calls q !! c; ctxs q !! sc_ctx k.

(** [req.resp <- r]: blocks (is not ready) while the channel holds a response. *)
Definition respond (c : nat) (r : submitResponse) (q : TxQueue) : option TxQueue :=
  k ← calls q !! c;
  match sc_resp k with
  | Some _ => None
  | None => Some (set_calls (<[c := Call (sc_ctx k) (sc_payload k) (sc_pc k) (Some r)]> (calls q)) q)
  end.

(** ** SubmitWithReceipt *)

Inductive submit_branch := SendReq | SendDone | SendCtx | RecvResp | WaitDone | WaitCtx.

(** Entering SubmitWithReceipt: the ciphertext is copied into the request. *)
Definition submit_begin (c x : nat) (ciphertext : bytes) (q : TxQueue) : option TxQueue :=
  match calls q !! c with
  | Some _ => None
  | None =>
      let payload := ciphertext in
      Some (set_calls (<[c := Call x payload SSend None]> (calls q)) q)
  end.

(** The branches of its two selects. *)
Definition submit_step (c : nat) (b : submit_branch) (q : TxQueue) : option TxQueue :=
  k ← calls q !! c;
  match sc_pc k, b with
  | SSend, SendReq =>
      if decide (length (submitCh q) < capacity q)
      then Some (log_accept c (set_submitCh (submitCh q ++ [c]) (goto_call c SWait q)))
      else None
  | SSend, SendDone | SWait, WaitDone =>
      if done q then Some (goto_call c (SReturned (reject ErrQueueClosed)) q) else None
  | SSend, SendCtx | SWait, WaitCtx =>
      e ← ctxs q !! sc_ctx k;
      Some (goto_call c (SReturned (reject (CtxErr e))) q)
  | SWait, RecvResp =>
      r ← sc_resp k;
      Some (set_calls (<[c := Call (sc_ctx k) (sc_payload k) (SReturned r) None]> (calls q)) q)
  | _, _ => None
  end.

(** [Submit]: the error of SubmitWithReceipt. *)
Definition Submit (r : submitResponse) : option q_error := resp_err r.

(** ** The admission goroutine *)

Inductive reject_branch := RejectRecv | RejectDefault.

(** rejectPendingSubmissions *)
Definition reject_step (b : reject_branch) (q : TxQueue) : option TxQueue :=
  match b, submitCh q with
  | RejectRecv, c :: rest => respond c (reject ErrQueueClosed) (set_submitCh rest q)
  | RejectRecv, [] => None
  | RejectDefault, [] => Some (set_adm AClose q)
  | RejectDefault, _ :: _ => None
  end.

Inductive admission_branch :=
| LoopDone
| LoopRecv
| CheckCtx
| CheckDone
| CheckDefault (now : Z)
| CommitCh
| CommitCtx
| CommitDone
| Rejecting (b : reject_branch)
| CloseCh.

(** runAdmissionLoop.  [now] is what time.Now() returns. *)
Definition admission_step (b : admission_branch) (q : TxQueue) : option TxQueue :=
  match adm q, b with
  | ALoop, LoopDone => if done q then Some (set_adm AReject q) else None
  | ALoop, LoopRecv =>
      match submitCh q with
      | c :: rest => Some (set_adm (ACheck c) (set_submitCh rest q))
      | [] => None
      end
  | ACheck c, CheckCtx =>
      e ← call_ctx_err q c;
      respond c (reject (CtxErr e)) (set_adm ALoop q)
  | ACheck c, CheckDone =>
      if done q then respond c (reject ErrQueueClosed) (set_adm AReject q) else None
  | ACheck c, CheckDefault now =>
      match call_ctx_err q c, done q with
      | None, false =>
          let q := next_id q in
          k ← calls q !! c;
          let tx := {| ID := nextID q; Ciphertext := sc_payload k; ArrivedAt := now |} in
          Some (set_adm (ASend c tx) q)
      | _, _ => None
      end
  | ASend c tx, CommitCh =>
      if decide (length (ch q) < capacity q) then
        if ch_closed q then Some (panic q)
        else respond c (receipt tx) (set_adm ALoop (log_send c tx (set_ch (ch q ++ [tx]) q)))
      else None
  | ASend c tx, CommitCtx =>
      e ← call_ctx_err q c;
      respond c (reject (CtxErr e)) (set_adm ALoop q)
  | ASend c tx, CommitDone =>
      if done q then respond c (reject ErrQueueClosed) (set_adm AReject q) else None
  | AReject, Rejecting b => reject_step b q
  | AClose, CloseCh => Some (set_adm AExited (close_ch q))
  | _, _ => None
  end.

(** ** Drain and DrainWait *)

Inductive drain_branch := DRecv | DClosed | DCtx | DDefault | DFull.

(** Entering DrainWait ([x] is its context) or Drain (no context): allocating
    a batch of negative capacity panics. *)
Definition drain_begin (d : nat) (x : option nat) (n : Z) (q : TxQueue) : option TxQueue :=
  match drains q !! d with
  | Some _ => None
  | None =>
      let q := set_drains (<[d := DrainCall x n [] None]> (drains q)) q in
      if (n <? 0)%Z then Some (panic q) else Some q
  end.

Definition drain_return (d : nat) (k : drain_call) (e : option q_error) (q : TxQueue) : TxQueue :=
  set_drains (<[d := DrainCall (d_ctx k) (d_size k) (d_batch k) (Some e)]> (drains q)) q.

Definition drain_recv (d : nat) (k : drain_call) (tx : EncryptedTransaction) (q : TxQueue)
  : TxQueue :=
  log_recv d tx
    (set_drains (<[d := DrainCall (d_ctx k) (d_size k) (d_batch k ++ [tx]) None]> (drains q)) q).

(** The loop of both: the receive is ready on a non-empty or closed channel;
    Drain has a default branch where DrainWait watches its context.  A Drain
    that finds the channel closed returns its batch without an error. *)
Definition drain_step (d : nat) (b : drain_branch) (q : TxQueue) : option TxQueue :=
  k ← drains q !! d;
  match d_ret k with
  | Some _ => None
  | None =>
      if (Z.of_nat (length (d_batch k)) <? d_size k)%Z then
        match b, ch q, d_ctx k with
        | DRecv, tx :: rest, _ => Some (drain_recv d k tx (set_ch rest q))
        | DClosed, [], Some _ =>
            if ch_closed q then Some (drain_return d k (Some ErrQueueClosed) q) else None
        | DClosed, [], None => if ch_closed q then Some (drain_return d k None q) else None
        | DCtx, _, Some x => e ← ctxs q !! x; Some (drain_return d k (Some (CtxErr e)) q)
        | DDefault, [], None => if ch_closed q then None else Some (drain_return d k None q)
        | _, _, _ => None
        end
      else match b with DFull => Some (drain_return d k None q) | _ => None end
  end.

(** ** Rendezvous on unbuffered channels *)

(** Call [c]'s send meets the admission goroutine's receive: in its loop, or in
    rejectPendingSubmissions. *)
Definition rv_submit (c : nat) (q : TxQueue) : option TxQueue :=
  k ← calls q !! c;
  match sc_pc k with
  | SSend =>
      if decide (capacity q = 0) then
        let q := log_accept c (goto_call c SWait q) in
        match adm q with
        | ALoop => Some (set_adm (ACheck c) q)
        | AReject => respond c (reject ErrQueueClosed) q
        | _ => None
        end
      else None
  | _ => None
  end.

(** The admission goroutine's commit meets drain [d]'s receive. *)
Definition rv_deliver (d : nat) (q : TxQueue) : option TxQueue :=
  k ← drains q !! d;
  match adm q, d_ret k with
  | ASend c tx, None =>
      if decide (capacity q = 0 ∧ (Z.of_nat (length (d_batch k)) < d_size k)%Z) then
        if ch_closed q then Some (panic q)
        else respond c (receipt tx) (set_adm ALoop (drain_recv d k tx (log_send c tx q)))
      else None
  | _, _ => None
  end.

(** ** The transition system *)

Inductive event :=
| ESubmit (c x : nat) (ciphertext : bytes)
| ECall (c : nat) (b : submit_branch)
| EAdmission (b : admission_branch)
| EDrainWait (d x : nat) (n : Z)
| EDrain (d : nat) (n : Z)
| EDrainCall (d : nat) (b : drain_branch)
| ERvSubmit (c : nat)
| ERvDeliver (d : nat)
| EClose
| ECtxDone (x : nat) (e : ctx_error).

Definition step (e : event) (q : TxQueue) : option TxQueue :=
  if panicked q then None else
  match e with
  | ESubmit c x ciphertext => submit_begin c x ciphertext q
  | ECall c b => submit_step c b q
  | EAdmission b => admission_step b q
  | EDrainWait d x n => drain_begin d (Some x) n q
  | EDrain d n => drain_begin d None n q
  | EDrainCall d b => drain_step d b q
  | ERvSubmit c => rv_submit c q
  | ERvDeliver d => rv_deliver d q
  | EClose => Some (Close q)
  | ECtxDone x e =>
      match ctxs q !! x with
      | Some _ => None
      | None => Some (set_ctxs (<[x := e]> (ctxs q)) q)
      end
  end.

Fixpoint run (es : list event) (q : TxQueue) : option TxQueue :=
  match es with
  | [] => Some q
  | e :: es => q ← step e q; run es q
  end.

(** States of a queue created by NewTxQueue. *)
Inductive reachable : TxQueue → Prop :=
| reachable_new cap q : NewTxQueue cap = Some q → reachable q
| reachable_step e q q' : reachable q → step e q = Some q' → reachable q'.

Lemma reachable_run es q q' : reachable q → run es q = Some q' → reachable q'.
Proof.
  revert q. induction es as [|e es IH]; intros q Hr; cbn; [by intros [= <-]|].
  destruct (step e q) as [q1|] eqn:E; cbn; [|done]. apply IH. by econstructor.
Qed.

Lemma run_app es1 es2 q : run (es1 ++ es2) q = run es1 q ≫= run es2.
Proof.
  revert q. induction es1 as [|e es1 IH]; intros q; [done|]. cbn.
  destruct (step e q); cbn; [apply IH|done].
Qed.
