(* ===== verification/TxQueueInv.v ===== *)
(** Invariants of the ordering queue.  [effect] lists what one step of any
    goroutine can do to the state, [inv] is the invariant, and [inv_reachable]
    shows that every reachable state satisfies it. *)

From S2P Require Import Prelude Commitment TxQueue.

(** The request the admission goroutine is working on. *)
Definition held (a : admission_pc) : list nat :=
  match a with ACheck c | ASend c _ => [c] | _ => [] end.

Definition with_resp (k : submit_call) (r : submitResponse) : submit_call :=
  Call (sc_ctx k) (sc_payload k) (sc_pc k) (Some r).

(** ** Effects of a step *)

Inductive effect (q : TxQueue) : TxQueue → Prop :=
| T_new_call c x p :
    calls q !! c = None →
    effect q (set_calls (<[c := Call x p SSend None]> (calls q)) q)
| T_accept c k :
    calls q !! c = Some k → sc_pc k = SSend → length (submitCh q) < capacity q →
    effect q (log_accept c (set_submitCh (submitCh q ++ [c]) (goto_call c SWait q)))
| T_return_err c k e :
    calls q !! c = Some k → (sc_pc k = SSend ∨ sc_pc k = SWait) →
    effect q (goto_call c (SReturned (reject e)) q)
| T_recv_resp c k r :
    calls q !! c = Some k → sc_pc k = SWait → sc_resp k = Some r →
    effect q (set_calls (<[c := Call (sc_ctx k) (sc_payload k) (SReturned r) None]> (calls q)) q)
| T_control a :
    (adm q = ALoop ∧ a = AReject ∧ done q = true ∨ adm q = AReject ∧ a = AClose) →
    effect q (set_adm a q)
| T_loop_recv c rest :
    adm q = ALoop → submitCh q = c :: rest →
    effect q (set_adm (ACheck c) (set_submitCh rest q))
| T_respond_err c k e a rest :
    calls q !! c = Some k → sc_resp k = None →
    held (adm q) ++ submitCh q = c :: rest → length rest ≤ length (submitCh q) →
    (held (adm q) = [c] ∧ (a = ALoop ∨ a = AReject ∧ done q = true) ∨
     adm q = AReject ∧ a = AReject) →
    effect q (set_calls (<[c := with_resp k (reject e)]> (calls q)) (set_adm a (set_submitCh rest q)))
| T_stamp c k now :
    adm q = ACheck c → calls q !! c = Some k → done q = false → call_ctx_err q c = None →
    effect q (set_adm (ASend c {| ID := wrap64 (nextID q + 1); Ciphertext := sc_payload k;
                                  ArrivedAt := now |}) (next_id q))
| T_commit c tx k :
    adm q = ASend c tx → calls q !! c = Some k → sc_resp k = None → ch_closed q = false →
    length (ch q) < capacity q →
    effect q (set_calls (<[c := with_resp k (receipt tx)]> (calls q))
                (set_adm ALoop (log_send c tx (set_ch (ch q ++ [tx]) q))))
| T_close_ch :
    adm q = AClose → ch_closed q = false → effect q (set_adm AExited (shut_ch q))
| T_drain_begin d x n :
    drains q !! d = None → (0 ≤ n)%Z →
    effect q (set_drains (<[d := DrainCall x n [] None]> (drains q)) q)
| T_drain_panic d x n :
    drains q !! d = None → (n < 0)%Z →
    effect q (panic (set_drains (<[d := DrainCall x n [] None]> (drains q)) q))
| T_drain_return d k e :
    drains q !! d = Some k → d_ret k = None →
    (e = None → d_ctx k = None ∨ (d_size k ≤ Z.of_nat (length (d_batch k)))%Z) →
    (e ≠ None → (Z.of_nat (length (d_batch k)) < d_size k)%Z) →
    effect q (drain_return d k e q)
| T_drain_recv d k tx rest :
    drains q !! d = Some k → (Z.of_nat (length (d_batch k)) < d_size k)%Z →
    ch q = tx :: rest → d_ret k = None →
    effect q (drain_recv d k tx (set_ch rest q))
| T_rv_loop c k :
    calls q !! c = Some k → sc_pc k = SSend → capacity q = 0 → adm q = ALoop →
    effect q (set_adm (ACheck c) (log_accept c (goto_call c SWait q)))
| T_rv_reject c k :
    calls q !! c = Some k → sc_pc k = SSend → capacity q = 0 → adm q = AReject →
    effect q (set_calls (<[c := with_resp (set_pc SWait k) (reject ErrQueueClosed)]> (calls q))
                (log_accept c q))
| T_rv_deliver d kd c tx k :
    adm q = ASend c tx → calls q !! c = Some k → sc_resp k = None → ch_closed q = false →
    capacity q = 0 → drains q !! d = Some kd → d_ret kd = None →
    (Z.of_nat (length (d_batch kd)) < d_size kd)%Z →
    effect q (set_calls (<[c := with_resp k (receipt tx)]> (calls q))
                (set_adm ALoop (drain_recv d kd tx (log_send c tx q))))
| T_close : closeOnce q = false → done q = false → effect q (shut_done q)
| T_close_again : closeOnce q = true → effect q q
| T_ctx x e : ctxs q !! x = None → effect q (set_ctxs (<[x := e]> (ctxs q)) q)
| T_panic_send c tx : adm q = ASend c tx → ch_closed q = true → effect q (panic q)
| T_panic_close : closeOnce q = false → done q = true → effect q (panic q)
| T_panic_close_ch :
    adm q = AClose → ch_closed q = true → effect q (set_adm AExited (panic q)).

Lemma set_submitCh_id q : set_submitCh (submitCh q) q = q.
Proof. by destruct q. Qed.

Lemma set_adm_id a q : adm q = a → set_adm a q = q.
Proof. intros <-. by destruct q. Qed.

Lemma respond_Some c r q q' :
  respond c r q = Some q' →
  ∃ k, calls q !! c = Some k ∧ sc_resp k = None ∧
       q' = set_calls (<[c := with_resp k r]> (calls q)) q.
Proof. unfold respond. intros H. simplify_option_eq. case_match; simplify_eq. eauto. Qed.

Ltac invert_step :=
  repeat match goal with
  | H : _ ≫= _ = Some _ |- _ =>
      apply bind_Some in H as (? & ? & H)
  | H : respond _ _ _ = Some _ |- _ =>
      apply respond_Some in H as (? & ? & ? & H); cbn in *
  | H : None = Some _ |- _ => discriminate H
  | H : Some _ = Some _ |- _ => injection H as H; subst
  | H : (match ?x with _ => _ end) = Some _ |- _ => destruct x eqn:?
  | H : (if decide ?P then _ else _) = Some _ |- _ => destruct (decide P)
  end; subst.

(** Answering the request in hand does not touch [submitCh]. *)
Lemma respond_held q c k e a :
  calls q !! c = Some k → sc_resp k = None → held (adm q) = [c] →
  (a = ALoop ∨ a = AReject ∧ done q = true) →
  effect q (set_calls (<[c := with_resp k (reject e)]> (calls q)) (set_adm a q)).
Proof.
  intros. rewrite <- (set_submitCh_id q) at 3.
  eapply T_respond_err; [done..|by rewrite H1|done|by left].
Qed.

Lemma submit_step_effect c b q q' : submit_step c b q = Some q' → effect q q'.
Proof.
  unfold submit_step. intros H. invert_step; try (by econstructor; eauto).
Qed.

Lemma admission_step_effect b q q' : admission_step b q = Some q' → effect q q'.
Proof.
  unfold admission_step, reject_step, call_ctx_err. intros H.
  invert_step;
    try match goal with E : adm q = _ |- _ =>
      solve [ apply respond_held; [done..|by rewrite E|auto]
            | eapply T_control; auto
            | eapply T_loop_recv; done
            | eapply T_stamp; [done..|unfold call_ctx_err; done]
            | eapply T_commit; done
            | eapply T_panic_send; done ]
    end.
  - rewrite <- (set_adm_id AReject (set_submitCh _ _)) by done.
    eapply T_respond_err; [done..|by rewrite Heqa|by rewrite Heql; cbn; lia|by right].
  - unfold close_ch. destruct (ch_closed q) eqn:?; [by apply T_panic_close_ch|by apply T_close_ch].
Qed.

Lemma drain_step_effect d b q q' : drain_step d b q = Some q' → effect q q'.
Proof.
  unfold drain_step. intros H.
  invert_step; rewrite ?Z.ltb_lt, ?Z.ltb_ge in *;
    solve [ eapply T_drain_return; eauto; congruence | eapply T_drain_recv; eauto ].
Qed.

(** Every step is one of the effects. *)
Lemma step_effect e q q' : step e q = Some q' → panicked q = false ∧ effect q q'.
Proof.
  unfold step. destruct (panicked q); [done|]. intros H. split; [done|].
  destruct e as [c x p|c b|b|d x n|d n|d b|c|d| |x e].
  - unfold submit_begin in H. invert_step. by apply T_new_call.
  - by eapply submit_step_effect.
  - by eapply admission_step_effect.
  - unfold drain_begin in H. invert_step; rewrite ?Z.ltb_lt, ?Z.ltb_ge in *;
      [by apply T_drain_panic|by apply T_drain_begin].
  - unfold drain_begin in H. invert_step; rewrite ?Z.ltb_lt, ?Z.ltb_ge in *;
      [by apply T_drain_panic|by apply T_drain_begin].
  - by eapply drain_step_effect.
  - unfold rv_submit in H. invert_step; cbn in *.
    + by eapply T_rv_loop.
    + rewrite lookup_alter, decide_True in * by done.
      match goal with E : set_pc _ <$> _ = Some _ |- _ =>
        apply fmap_Some in E as (k & Ek & ->) end.
      simplify_eq. rewrite insert_alter_eq. by refine (T_rv_reject q c x _ _ _ _).
  - unfold rv_deliver in H. invert_step; destruct_and?.
    + by eapply T_panic_send.
    + by eapply T_rv_deliver.
  - injection H as <-. unfold Close. destruct (closeOnce q) eqn:?, (done q) eqn:?.
    + by apply T_close_again.
    + by apply T_close_again.
    + by apply T_panic_close.
    + by apply T_close.
  - invert_step. by apply T_ctx.
Qed.

(** ** Requests *)

(** Every request accepted so far has been processed, is in hand or waits in
    [submitCh], in this order and without repetition; commits follow the
    order of acceptance; and a request that is not processed yet has an empty
    response channel. *)
Record inv_req (q : TxQueue) : Prop := {
  ir_split : ∃ proc, accepted q = proc ++ held (adm q) ++ submitCh q ∧
                     sublist (sent q).*1 proc;
  ir_nodup : NoDup (accepted q);
  ir_started : ∀ c, c ∈ accepted q → ∃ k, calls q !! c = Some k ∧ sc_pc k ≠ SSend;
  ir_fresh : ∀ c k, calls q !! c = Some k →
               sc_pc k = SSend ∨ c ∈ held (adm q) ++ submitCh q → sc_resp k = None;
  ir_room : length (submitCh q) ≤ capacity q
}.

Ltac lookup_cases :=
  repeat match goal with
  | H : context [alter _ _ _ !! _] |- _ => rewrite lookup_alter in H; case_decide
  | H : context [<[_ := _]> _ !! _] |- _ => rewrite lookup_insert in H; case_decide
  | |- context [alter _ _ _ !! _] => rewrite lookup_alter; case_decide
  | |- context [<[_ := _]> _ !! _] => rewrite lookup_insert; case_decide
  | H : _ <$> _ = Some _ |- _ => apply fmap_Some in H as (? & ? & ->)
  end; simplify_eq/=;
  repeat match goal with
  | H : ?m !! ?i = Some _ |- context [?m !! ?i] => rewrite H
  end; cbn.

(** A call keeps its payload and never goes back to its first select. *)
Lemma calls_mono q q' c k :
  effect q q' → calls q !! c = Some k →
  ∃ k', calls q' !! c = Some k' ∧ sc_payload k' = sc_payload k ∧
        (sc_pc k ≠ SSend → sc_pc k' ≠ SSend).
Proof.
  intros He Hc.
  destruct He; cbn; try (by eauto);
    try (by repeat case_match; cbn; eauto);
    lookup_cases; try (by eauto);
    eexists; (split; [done|]); (split; [done|]); cbn; naive_solver.
Qed.

(** [proc ++ held ++ submitCh] with its pieces as one list. *)
Lemma inv_req_pending q c : inv_req q → c ∈ held (adm q) ++ submitCh q → c ∈ accepted q.
Proof. intros [(proc & -> & _)] H. apply elem_of_app. by right. Qed.

Lemma ir_split_step q q' :
  inv_req q → effect q q' →
  ∃ proc, accepted q' = proc ++ held (adm q') ++ submitCh q' ∧ sublist (sent q').*1 proc.
Proof.
  intros [(proc & Hacc & Hsub) _ _ _ Hroom] He.
  destruct He; cbn in *; try (by eauto);
    try (by exists proc; repeat case_match; cbn in *; eauto);
    try match goal with E : adm q = _ |- _ => rewrite E in * end; cbn in *;
    try match goal with E : capacity q = 0 |- _ =>
      rewrite E in *; apply Nat.le_0_r, length_zero_iff_nil in Hroom; rewrite Hroom in * end.
  - exists proc. split; [|done]. rewrite Hacc. by rewrite <- !app_assoc.
  - exists proc. split; [|done]. destruct H as [(E & -> & _)|(E & ->)]; by rewrite E in *.
  - exists proc. by rewrite Hacc, H0.
  - exists (proc ++ [c]). split; [|by apply sublist_inserts_r].
    assert (held a = []) as ->.
    { destruct H3 as [[_ [->|[-> _]]]|[_ ->]]; done. }
    rewrite Hacc, H1. cbn. by rewrite <- app_assoc.
  - by exists proc.
  - exists (proc ++ [c]). rewrite fmap_app. split; [by rewrite Hacc, <- app_assoc|].
    by apply sublist_app.
  - by exists proc.
  - exists proc. split; [|done]. rewrite Hacc. by rewrite <- !app_assoc.
  - exists (proc ++ [c]). split; [|by apply sublist_inserts_r].
    rewrite Hacc. by rewrite !app_nil_r.
  - exists (proc ++ [c]). rewrite fmap_app. split; [by rewrite Hacc, <- app_assoc|].
    by apply sublist_app.
  - by exists proc.
Qed.

(** One new request is accepted at most, and it was at its first select. *)
Lemma accepted_step q q' :
  effect q q' →
  accepted q' = accepted q ∨
  ∃ c k, accepted q' = accepted q ++ [c] ∧ calls q !! c = Some k ∧ sc_pc k = SSend ∧
         ∃ k', calls q' !! c = Some k' ∧ sc_pc k' ≠ SSend.
Proof.
  intros He. destruct He; cbn; try (by left);
    try (by left; repeat case_match).
  all: right; do 2 eexists; split; [done|]; split; [done|]; split; [done|];
    lookup_cases; eexists; done.
Qed.

Lemma ir_nodup_step q q' : inv_req q → effect q q' → NoDup (accepted q').
Proof.
  intros [_ Hnd Hst _ _] He.
  destruct (accepted_step _ _ He) as [-> | (c & k & -> & Hc & Hpc & _)]; [done|].
  apply NoDup_app. split_and!; [done| |apply NoDup_singleton].
  intros x Hx ->%list_elem_of_singleton. destruct (Hst c Hx) as (k' & ? & ?). congruence.
Qed.

Lemma ir_started_step q q' :
  inv_req q → effect q q' →
  ∀ c, c ∈ accepted q' → ∃ k, calls q' !! c = Some k ∧ sc_pc k ≠ SSend.
Proof.
  intros [_ _ Hst _ _] He c Hc.
  destruct (accepted_step _ _ He) as [E | (c' & k & E & _ & _ & Hk')]; rewrite E in Hc.
  2: apply elem_of_app in Hc as [Hc | ->%list_elem_of_singleton]; [|done].
  all: destruct (Hst c Hc) as (k0 & Hk0 & Hpc).
  all: destruct (calls_mono _ _ _ _ He Hk0) as (k1 & ? & _ & ?); eauto.
Qed.

Lemma ir_room_step q q' : inv_req q → effect q q' → length (submitCh q') ≤ capacity q'.
Proof.
  intros [_ _ _ _ Hroom] He.
  destruct He; cbn in *; try done; try (by repeat case_match).
  - rewrite length_app. cbn. lia.
  - rewrite H0 in Hroom. cbn in Hroom. lia.
  - lia.
Qed.

(** The next request to answer is not queued a second time and has left its
    first select. *)
Lemma pending_head q c rest k :
  inv_req q → held (adm q) ++ submitCh q = c :: rest → calls q !! c = Some k →
  c ∉ rest ∧ sc_pc k ≠ SSend.
Proof.
  intros [(proc & Hacc & _) Hnd Hst _ _] E Hk. rewrite Hacc, E in Hnd.
  apply NoDup_app in Hnd as (_ & _ & [Hc _]%NoDup_cons). split; [done|].
  destruct (Hst c) as (k' & ? & ?); [rewrite Hacc, E; set_solver|]. congruence.
Qed.

Lemma respond_fresh q c k r rest :
  inv_req q → held (adm q) ++ submitCh q = c :: rest → calls q !! c = Some k →
  ∀ c' k', <[c := with_resp k r]> (calls q) !! c' = Some k' →
    sc_pc k' = SSend ∨ c' ∈ rest → sc_resp k' = None.
Proof.
  intros Hi E Hk c' k' Hk' Hor. destruct (pending_head _ _ _ _ Hi E Hk) as [Hn Hpc].
  rewrite lookup_insert in Hk'. case_decide; simplify_eq/=.
  - by destruct Hor.
  - apply (ir_fresh _ Hi c' k' Hk'). rewrite E. set_solver.
Qed.

Lemma ir_fresh_step q q' :
  inv_req q → effect q q' →
  ∀ c k, calls q' !! c = Some k →
    sc_pc k = SSend ∨ c ∈ held (adm q') ++ submitCh q' → sc_resp k = None.
Proof.
  intros Hi He. pose proof (ir_fresh _ Hi) as Hf. pose proof (ir_room _ Hi) as Hroom.
  destruct He; cbn in *; try done;
    try (by repeat case_match; cbn in *);
    try match goal with E : adm q = _ |- _ => rewrite E in Hf end; cbn in *;
    intros c' k' Hk' Hor.
  - lookup_cases; eauto.
  - lookup_cases; [apply (Hf c'); auto|]. apply (Hf c' k' Hk').
    rewrite elem_of_app, elem_of_app, list_elem_of_singleton in Hor.
    rewrite elem_of_app. naive_solver.
  - lookup_cases; [apply (Hf c'); naive_solver|]. by apply (Hf c').
  - lookup_cases; [done|]. by apply (Hf c').
  - apply (Hf c' k' Hk'). destruct Hor as [|Hor]; [by left|right].
    destruct H as [(E & -> & _)|(E & ->)]; rewrite E in *; done.
  - rewrite H0 in Hf. by apply (Hf c').
  - eapply respond_fresh; [done..|]. destruct Hor as [|Hor]; [by left|right].
    destruct H3 as [[_ [->|[-> _]]]|[_ ->]]; done.
  - by apply (Hf c').
  - eapply (respond_fresh q c k _ (submitCh q)); [done|by rewrite H|done..].
  - by apply (Hf c').
  - rewrite elem_of_cons in Hor.
    lookup_cases; [apply (Hf c'); auto|]. apply (Hf c' k' Hk'). naive_solver.
  - rewrite H2 in Hor. cbn in Hor. lookup_cases; [|by apply (Hf c')]. rewrite H1 in Hroom.
    apply Nat.le_0_r, length_zero_iff_nil in Hroom. rewrite Hroom in Hor.
    by destruct Hor as [|?%elem_of_nil].
  - eapply (respond_fresh q c k _ (submitCh q)); [done|by rewrite H|done..].
  - by apply (Hf c').
Qed.

Lemma inv_req_step q q' : inv_req q → effect q q' → inv_req q'.
Proof.
  intros Hi He. split.
  - by eapply ir_split_step.
  - by eapply ir_nodup_step.
  - by eapply ir_started_step.
  - by eapply ir_fresh_step.
  - by eapply ir_room_step.
Qed.

(** ** Transactions and receipts *)

(** The stamped transaction that is being committed. *)
Definition inflight (a : admission_pc) : list (nat * EncryptedTransaction) :=
  match a with ASend c tx => [(c, tx)] | _ => [] end.

(** A response is a receipt of a committed transaction of that call, or an
    error with the zero transaction. *)
Definition good_resp (q : TxQueue) (c : nat) (r : submitResponse) : Prop :=
  match resp_err r with
  | None => (c, resp_tx r) ∈ sent q
  | Some _ => resp_tx r = zero_tx
  end.

Record inv_data (q : TxQueue) : Prop := {
  id_payload : ∀ c tx, (c, tx) ∈ sent q ++ inflight (adm q) →
                 ∃ k, calls q !! c = Some k ∧ Ciphertext tx = sc_payload k;
  id_resp : ∀ c k r, calls q !! c = Some k → sc_resp k = Some r ∨ sc_pc k = SReturned r →
              good_resp q c r
}.

Lemma good_resp_reject q c e : good_resp q c (reject e).
Proof. done. Qed.

(** [sent] only grows; a new entry is the transaction in flight, and a new
    transaction in flight carries the payload of its call. *)
Lemma sent_step q q' :
  effect q q' →
  (∃ c tx, sent q' = sent q ++ [(c, tx)] ∧ adm q = ASend c tx ∧ adm q' = ALoop) ∨
  (sent q' = sent q ∧
   (inflight (adm q') = [] ∨ adm q' = adm q ∨
    ∃ c k now, adm q = ACheck c ∧ calls q !! c = Some k ∧
      adm q' = ASend c {| ID := wrap64 (nextID q + 1); Ciphertext := sc_payload k;
                          ArrivedAt := now |} ∧
      nextID q' = wrap64 (nextID q + 1) ∧ stamps q' = (stamps q + 1)%Z)).
Proof.
  intros He. destruct He; cbn; try (by right; auto);
    try (by right; repeat case_match; auto).
  - right. split; [done|left]. destruct H as [(_ & -> & _)|(_ & ->)]; done.
  - right. split; [done|left]. destruct H3 as [[_ [->|[-> _]]]|[_ ->]]; done.
  - right. split; [done|]. right. right. by exists c, k, now.
  - left. by exists c, tx.
  - left. by exists c, tx.
Qed.

Lemma id_payload_step q q' :
  inv_data q → effect q q' →
  ∀ c tx, (c, tx) ∈ sent q' ++ inflight (adm q') →
    ∃ k, calls q' !! c = Some k ∧ Ciphertext tx = sc_payload k.
Proof.
  intros [Hp _] He c tx Hin.
  assert (∀ k, calls q !! c = Some k → Ciphertext tx = sc_payload k →
               ∃ k', calls q' !! c = Some k' ∧ Ciphertext tx = sc_payload k') as Hm.
  { intros k Hk E. destruct (calls_mono _ _ _ _ He Hk) as (k' & ? & ? & _).
    exists k'. split; congruence. }
  assert ((c, tx) ∈ sent q ++ inflight (adm q) →
          ∃ k', calls q' !! c = Some k' ∧ Ciphertext tx = sc_payload k') as Hold.
  { intros Ho. destruct (Hp _ _ Ho) as (k & ? & ?). eauto. }
  destruct (sent_step _ _ He) as [(c0 & tx0 & E & Ea & Ea') | (E & Hor)]; rewrite E in Hin.
  - apply Hold. rewrite Ea' in Hin. rewrite Ea. cbn in *. by rewrite app_nil_r in Hin.
  - destruct Hor as [Ei | [Ei | (c0 & k & now & _ & Hk & Ei & _)]].
    + rewrite Ei, app_nil_r in Hin. apply Hold. set_solver.
    + apply Hold. by rewrite <- Ei.
    + rewrite Ei in Hin. cbn in Hin. apply elem_of_app in Hin as [Hin|Hin].
      * apply Hold. set_solver.
      * apply list_elem_of_singleton in Hin. simplify_eq. by apply (Hm k).
Qed.

Lemma good_resp_step q q' c r : effect q q' → good_resp q c r → good_resp q' c r.
Proof.
  intros He. unfold good_resp. destruct (resp_err r); [done|].
  destruct (sent_step _ _ He) as [(? & ? & -> & _) | [-> _]]; [|done].
  rewrite elem_of_app. by left.
Qed.

Lemma id_resp_step q q' :
  inv_data q → effect q q' →
  ∀ c k r, calls q' !! c = Some k → sc_resp k = Some r ∨ sc_pc k = SReturned r →
    good_resp q' c r.
Proof.
  intros [_ Hr] He c k' r Hk' Hor.
  assert (∀ k, calls q !! c = Some k → sc_resp k = Some r ∨ sc_pc k = SReturned r →
               good_resp q' c r) as Hold.
  { intros k Hk H. eapply good_resp_step; eauto. }
  clear Hr. destruct He; cbn in *; try (by eapply Hold);
    try (by eapply Hold; repeat case_match; eauto);
    lookup_cases; try (by eapply Hold; eauto).
  all: try (destruct Hor; simplify_eq/=; first [apply good_resp_reject | by eapply Hold; eauto]).
  all: destruct Hor; simplify_eq/=; [|by eapply Hold; eauto]; unfold good_resp; cbn; set_solver.
Qed.

Lemma inv_data_step q q' : inv_data q → effect q q' → inv_data q'.
Proof. intros Hi He. split; [by eapply id_payload_step|by eapply id_resp_step]. Qed.

(** ** Sequence IDs *)

(** nextID counts the stamps modulo 2^64; until the counter wraps, the
    committed IDs are strictly increasing and the transaction in flight has
    the largest one. *)
Record inv_ids (q : TxQueue) : Prop := {
  ii_next : nextID q = wrap64 (stamps q);
  ii_nonneg : (0 ≤ stamps q)%Z;
  ii_sorted : (stamps q < 2 ^ 64)%Z →
    StronglySorted Z.lt (ID <$> (sent q ++ inflight (adm q)).*2) ∧
    Forall (λ i, 1 ≤ i ≤ stamps q)%Z (ID <$> (sent q ++ inflight (adm q)).*2)
}.

Lemma stamps_step q q' :
  effect q q' →
  (nextID q' = nextID q ∧ stamps q' = stamps q) ∨
  (nextID q' = wrap64 (nextID q + 1) ∧ stamps q' = (stamps q + 1)%Z ∧
   ∃ c, adm q = ACheck c).
Proof.
  intros He. destruct He; cbn; try (by left);
    try (by left; repeat case_match). right. eauto.
Qed.

Lemma inv_ids_sublist (q q' : TxQueue) :
  (stamps q < 2 ^ 64)%Z → inv_ids q → stamps q = stamps q' →
  sublist (sent q' ++ inflight (adm q')) (sent q ++ inflight (adm q)) →
  StronglySorted Z.lt (ID <$> (sent q' ++ inflight (adm q')).*2) ∧
  Forall (λ i, 1 ≤ i ≤ stamps q')%Z (ID <$> (sent q' ++ inflight (adm q')).*2).
Proof.
  intros Hs Hi <- Hsub. destruct (ii_sorted _ Hi Hs) as [H1 H2].
  assert (sublist (ID <$> (sent q' ++ inflight (adm q')).*2)
                  (ID <$> (sent q ++ inflight (adm q)).*2)) as Hsub'.
  { by do 2 apply fmap_sublist. }
  split; [by eapply StronglySorted_sublist|].
  rewrite Forall_forall in *. intros i Hi'. apply H2. by eapply elem_of_sublist.
Qed.

Lemma inv_ids_step q q' : inv_ids q → effect q q' → inv_ids q'.
Proof.
  intros Hi He. pose proof (ii_next _ Hi) as Hn. pose proof (ii_nonneg _ Hi) as H0.
  split.
  - destruct (stamps_step _ _ He) as [[-> ->]|(-> & -> & _)]; [done|].
    rewrite Hn. unfold wrap64. by rewrite Zplus_mod_idemp_l.
  - destruct (stamps_step _ _ He) as [[_ ->]|(_ & -> & _)]; lia.
  - intros Hlt. destruct (sent_step _ _ He) as [(c & tx & E & Ea & Ea') | (E & Hor)].
    + destruct (stamps_step _ _ He) as [[_ Es]|(_ & Es & c' & Ec)]; [|congruence].
      rewrite Es in Hlt. apply (inv_ids_sublist q); [done..|].
      rewrite E, Ea, Ea'. cbn. by rewrite app_nil_r.
    + destruct Hor as [Ei | [Ei | (c & k & now & Ea & _ & Ei & _ & Es)]].
      * assert (stamps q < 2 ^ 64)%Z as Hlt' by (destruct (stamps_step _ _ He) as [[_ Es]|(_ & Es & _)]; lia).
        destruct (stamps_step _ _ He) as [[_ Es]|(_ & Es & c' & Ec)].
        -- apply (inv_ids_sublist q); [done..|]. rewrite E, Ei, app_nil_r.
           by apply sublist_inserts_r.
        -- destruct (ii_sorted _ Hi Hlt') as [Hs Hf]. rewrite E, Ei, Es.
           rewrite Ec in Hs, Hf. split; [done|]. eapply Forall_impl; [done|]. cbn. lia.
      * assert (stamps q < 2 ^ 64)%Z as Hlt' by (destruct (stamps_step _ _ He) as [[_ Es]|(_ & Es & _)]; lia).
        destruct (ii_sorted _ Hi Hlt') as [Hs Hf]. rewrite E, Ei. split; [done|].
        eapply Forall_impl; [done|]. cbn.
        destruct (stamps_step _ _ He) as [[_ Es]|(_ & Es & _)]; lia.
      * rewrite Es in Hlt |- *. destruct (ii_sorted _ Hi ltac:(lia)) as [Hs Hf].
        rewrite Ea in Hs, Hf. cbn in Hs, Hf. rewrite app_nil_r in Hs, Hf.
        rewrite E, Ei. cbn. rewrite !fmap_app. cbn.
        assert (wrap64 (nextID q + 1) = stamps q + 1)%Z as ->.
        { rewrite Hn. unfold wrap64. rewrite Zplus_mod_idemp_l. apply Z.mod_small. lia. }
        split.
        -- apply StronglySorted_snoc. split; [done|]. eapply Forall_impl; [done|]. cbn. lia.
        -- apply Forall_app. split; [|by repeat constructor; lia].
           eapply Forall_impl; [done|]. cbn. lia.
Qed.

(** ** Delivery *)

(** What was committed is what was received, in order, followed by what is
    still buffered; a drain's batch is what it received. *)
Record inv_deliver (q : TxQueue) : Prop := {
  iv_split : (sent q).*2 = (recvd q).*2 ++ ch q;
  iv_batch : ∀ d k, drains q !! d = Some k →
               d_batch k = (filter (λ p, p.1 = d) (recvd q)).*2;
  iv_known : ∀ d tx, (d, tx) ∈ recvd q → is_Some (drains q !! d);
  iv_room : length (ch q) ≤ capacity q;
  iv_size : ∀ d k, drains q !! d = Some k →
              (Z.of_nat (length (d_batch k)) ≤ Z.max 0 (d_size k))%Z;
  iv_full : ∀ d k x, drains q !! d = Some k → d_ret k = Some None → d_ctx k = Some x →
              (d_size k ≤ Z.of_nat (length (d_batch k)))%Z;
  iv_err : ∀ d k e, drains q !! d = Some k → d_ret k = Some (Some e) →
              (Z.of_nat (length (d_batch k)) < d_size k)%Z
}.

Lemma filter_snoc_recvd d d' tx (l : list (nat * EncryptedTransaction)) :
  (filter (λ p, p.1 = d) (l ++ [(d', tx)])).*2 =
  (filter (λ p, p.1 = d) l).*2 ++ (if decide (d' = d) then [tx] else []).
Proof. rewrite filter_app, fmap_app, filter_cons, filter_nil. cbn. by case_decide. Qed.

Lemma filter_recvd_none q d :
  inv_deliver q → drains q !! d = None → filter (λ p, p.1 = d) (recvd q) = [].
Proof.
  intros Hi Hd. destruct (filter _ (recvd q)) as [|[d' tx] l] eqn:E; [done|]. exfalso.
  assert ((d', tx) ∈ filter (λ p, p.1 = d) (recvd q)) as Hin by (rewrite E; set_solver).
  apply list_elem_of_filter in Hin as [<- Hin]. cbn in Hd.
  destruct (iv_known _ Hi _ _ Hin). congruence.
Qed.

Lemma iv_split_step q q' : inv_deliver q → effect q q' → (sent q').*2 = (recvd q').*2 ++ ch q'.
Proof.
  intros [Hs _ _ Hroom _ _ _] He.
  destruct He; cbn in *; try done; try (by repeat case_match);
    rewrite ?fmap_app; cbn; rewrite Hs.
  - by rewrite app_assoc.
  - rewrite H1. by rewrite <- app_assoc.
  - rewrite H3 in Hroom. apply Nat.le_0_r, length_zero_iff_nil in Hroom. rewrite Hroom.
    by rewrite !app_nil_r.
Qed.

Lemma inv_deliver_step q q' : inv_deliver q → effect q q' → inv_deliver q'.
Proof.
  intros Hi He. split; [by eapply iv_split_step|..].
  - intros d k Hk. pose proof (iv_batch _ Hi) as Hb.
    destruct He; cbn in *; try (by apply Hb);
      try (by apply Hb; repeat case_match);
      rewrite ?filter_snoc_recvd; lookup_cases; rewrite ?app_nil_r; try (by eapply Hb);
      try (by rewrite filter_recvd_none); by f_equal; eapply Hb.
  - intros d tx Hin. pose proof (iv_known _ Hi) as Hk.
    destruct He; cbn in *; try (by eapply Hk);
      try (by eapply Hk; repeat case_match; eauto);
      rewrite lookup_insert; case_decide; try (by eauto); try (by eapply Hk).
    all: apply elem_of_app in Hin as [Hin|Hin]; [by eapply Hk|set_solver].
  - pose proof (iv_room _ Hi) as Hr.
    destruct He; cbn in *; try done; try (by repeat case_match).
    + rewrite length_app. cbn. lia.
    + rewrite H1 in Hr. cbn in Hr. lia.
  - intros d k Hk. pose proof (iv_size _ Hi) as Hb.
    destruct He; cbn in *; try (by apply Hb in Hk);
      try (by eapply Hb; repeat case_match; eauto);
      lookup_cases; try (by eapply Hb; eauto); try lia.
    all: rewrite length_app; cbn; lia.
  - intros d k x Hk Hret Hctx. pose proof (iv_full _ Hi) as Hb.
    destruct He; cbn in *; try (by eapply Hb);
      try (by eapply Hb; repeat case_match; eauto);
      lookup_cases; try (by eapply Hb; eauto). naive_solver.
  - intros d k e Hk Hret. pose proof (iv_err _ Hi) as Hb.
    destruct He; cbn in *; try (by eapply Hb);
      try (by eapply Hb; repeat case_match; eauto);
      lookup_cases; try (by eapply Hb; eauto). naive_solver.
Qed.

(** ** Control *)

Definition shutting_down (a : admission_pc) : bool :=
  match a with AReject | AClose | AExited => true | _ => false end.

(** [done] is closed by Close only; the admission goroutine shuts down only
    once it is; [ch] is closed exactly when it has exited; and the only panic
    is a drain asked for a batch of negative size. *)
Record inv_ctrl (q : TxQueue) : Prop := {
  ic_once : closeOnce q = done q;
  ic_shutdown : shutting_down (adm q) = true → done q = true;
  ic_closed : ch_closed q = true ↔ adm q = AExited;
  ic_panic : panicked q = true → ∃ d k, drains q !! d = Some k ∧ (d_size k < 0)%Z
}.

Lemma inv_ctrl_step q q' : panicked q = false → inv_ctrl q → effect q q' → inv_ctrl q'.
Proof.
  intros Hnp [Honce Hshut Hcl Hpan] He. split.
  - destruct He; cbn in *; congruence.
  - intros Hin.
    destruct He; cbn in *; try (by apply Hshut); try done;
      try (by apply Hshut; match goal with E : adm q = _ |- _ => rewrite E end).
    + destruct H as [(_ & -> & ?)|(E & ->)]; [done|]. apply Hshut. by rewrite E.
    + destruct H3 as [[_ [->|[-> ?]]]|[E ->]]; [done|done|]. apply Hshut. by rewrite E.
  - destruct He; cbn in *; try done; rewrite ?Hcl;
      try match goal with E : adm q = _ |- _ => rewrite E in *; clear E end; try (by split).
    + destruct H as [(E & -> & _)|(E & ->)]; by rewrite E.
    + destruct H3 as [[E [->|[-> _]]]|[E ->]]; destruct (adm q); naive_solver.
  - assert (panicked q' = true → panicked q = true ∨
              ∃ d k, drains q' !! d = Some k ∧ (d_size k < 0)%Z) as Hp.
    { intros Hp'. destruct He; cbn in *; try (by left).
      - right. exists d. eexists. rewrite lookup_insert_eq. done.
      - exfalso. rewrite H in Hcl. apply Hcl in H0. done.
      - exfalso. congruence.
      - exfalso. rewrite H in Hcl. apply Hcl in H0. done. }
    intros Hp'. destruct (Hp Hp') as [|]; [congruence|done].
Qed.

(** ** The invariant of every reachable state *)

Record inv (q : TxQueue) : Prop := {
  i_req : inv_req q;
  i_data : inv_data q;
  i_ids : inv_ids q;
  i_deliver : inv_deliver q;
  i_ctrl : inv_ctrl q
}.

Lemma inv_new cap q : NewTxQueue cap = Some q → inv q.
Proof.
  unfold NewTxQueue. destruct (cap <? 0)%Z; [done|]. intros [= <-].
  split; split; cbn; try done; try lia; try (by intros ?? ?%elem_of_nil); try (by intros ? ?%elem_of_nil).
  - exists []. split; [done|constructor].
  - apply NoDup_nil_2.
  - intros _. split; constructor.
Qed.

Lemma inv_step e q q' : inv q → step e q = Some q' → inv q'.
Proof.
  intros [] H. apply step_effect in H as [Hp He]. split.
  - by eapply inv_req_step.
  - by eapply inv_data_step.
  - by eapply inv_ids_step.
  - by eapply inv_deliver_step.
  - by eapply inv_ctrl_step.
Qed.

Lemma inv_reachable q : reachable q → inv q.
Proof. induction 1; [by eapply inv_new|by eapply inv_step]. Qed.

#[export] Hint Resolve inv_reachable : go.
