(* ===== verification/TxQueueProps.v ===== *)
(** What the ordering queue promises: increasing sequence IDs, exactly-once
    FIFO delivery, honest receipts, order of admission, absence of panics and
    of blocked responses, and a shutdown that terminates and releases every
    caller. *)

From S2P Require Import Prelude Commitment TxQueue TxQueueInv.

(** ** Schedules used by the witnesses *)

(** One uncontended submission, from the call to its receipt. *)
Definition submit_schedule (c x : nat) (ct : bytes) (now : Z) : list event :=
  [ESubmit c x ct; ECall c SendReq; EAdmission LoopRecv; EAdmission (CheckDefault now);
   EAdmission CommitCh; ECall c RecvResp].

(** A Drain of [n] that finds [k] transactions. *)
Definition drain_schedule (d : nat) (n : Z) (k : nat) : list event :=
  EDrain d n :: replicate k (EDrainCall d DRecv) ++
  [EDrainCall d (if (n <=? Z.of_nat k)%Z then DFull else DDefault)].

Definition sample_run : list event :=
  submit_schedule 1 0 (str "a") 5 ++ submit_schedule 2 0 (str "b") 6 ++
  drain_schedule 7 10 2.

Definition empty_queue (cap : nat) : TxQueue :=
  MkQueue cap [] false [] false false 0 ALoop ∅ ∅ ∅ false [] [] [] 0.

Lemma empty_queue_new cap : NewTxQueue (Z.of_nat cap) = Some (empty_queue cap).
Proof.
  unfold NewTxQueue, empty_queue. rewrite (proj2 (Z.ltb_ge _ _)) by lia. by rewrite Nat2Z.id.
Qed.

Lemma reachable_from_empty cap es q : run es (empty_queue cap) = Some q → reachable q.
Proof. apply reachable_run. by eapply reachable_new, empty_queue_new. Qed.

(** ** Properties *)

(** As long as fewer than 2^64 IDs have been assigned, the transactions
    committed to the queue carry strictly increasing IDs, starting above 0, and
    so does every batch a Drain or DrainWait has collected. *)
Theorem txqueue_ids_increasing q :
  reachable q → (stamps q < 2 ^ 64)%Z →
  StronglySorted Z.lt (ID <$> (sent q).*2) ∧
  Forall (λ i, 1 ≤ i ≤ stamps q)%Z (ID <$> (sent q).*2) ∧
  ∀ d k, drains q !! d = Some k → StronglySorted Z.lt (ID <$> d_batch k).
Proof.
  intros Hr Hlt. destruct (inv_reachable q Hr) as [_ _ Hi Hd _].
  destruct (ii_sorted _ Hi Hlt) as [Hs Hf]. rewrite !fmap_app in Hs, Hf.
  apply StronglySorted_app_1_l in Hs. apply Forall_app in Hf as [Hf _].
  split_and!; [done..|]. intros d k Hk. rewrite (iv_batch _ Hd _ _ Hk).
  eapply StronglySorted_sublist; [|exact Hs]. apply fmap_sublist.
  rewrite (iv_split _ Hd). apply sublist_inserts_r. apply fmap_sublist, sublist_filter.
Qed.

Lemma txqueue_ids_increasing_witness :
  ∃ q, run sample_run (empty_queue 4) = Some q ∧
    StronglySorted Z.lt (ID <$> (sent q).*2) ∧ ID <$> (sent q).*2 = [1; 2]%Z.
Proof.
  destruct (run sample_run (empty_queue 4)) as [q|] eqn:E; [|by vm_compute in E].
  exists q. split; [done|].
  pose proof (txqueue_ids_increasing q (reachable_from_empty 4 _ _ E)) as H.
  vm_compute in E. injection E as <-. split; [|done].
  apply H. vm_compute. done.
Defined.

(** C7: delivery is exactly once and first in, first out.  The committed
    transactions are, in order, those that drains have received followed by
    those in the channel, whose length never exceeds the capacity; each drain's
    batch is the sequence of transactions it received and never exceeds the
    requested size, and a DrainWait that returned without error collected the
    whole batch. *)
Theorem txqueue_delivery q :
  reachable q →
  (sent q).*2 = (recvd q).*2 ++ ch q ∧ length (ch q) ≤ capacity q ∧
  ∀ d k, drains q !! d = Some k →
    d_batch k = (filter (λ p, p.1 = d) (recvd q)).*2 ∧
    (Z.of_nat (length (d_batch k)) ≤ Z.max 0 (d_size k))%Z ∧
    (∀ x, d_ctx k = Some x → d_ret k = Some None →
       Z.of_nat (length (d_batch k)) = Z.max 0 (d_size k)).
Proof.
  intros Hr. destruct (inv_reachable q Hr) as [_ _ _ [Hs Hb _ Hroom Hsz Hfull _] _].
  split_and!; [done..|]. intros d k Hk. split_and!; [by apply Hb|by eapply Hsz|].
  intros x Hx Hret. specialize (Hfull d k x Hk Hret Hx). specialize (Hsz d k Hk). lia.
Qed.

Lemma txqueue_delivery_witness :
  ∃ q, run sample_run (empty_queue 4) = Some q ∧ (sent q).*2 = (recvd q).*2 ++ ch q.
Proof.
  destruct (run sample_run (empty_queue 4)) as [q|] eqn:E; [|by vm_compute in E].
  exists q. split; [done|]. apply (txqueue_delivery q (reachable_from_empty 4 _ _ E)).
Defined.

(** C8: receipts are honest.  A SubmitWithReceipt call that returned without
    error returned the transaction that was committed for it, with its
    ciphertext; no other transaction was committed for that call, and no other
    call has its ID.  A call that returned an error returned the zero
    transaction. *)
Theorem txqueue_receipts q c k r :
  reachable q → (stamps q < 2 ^ 64)%Z →
  calls q !! c = Some k → sc_pc k = SReturned r →
  match resp_err r with
  | Some _ => resp_tx r = zero_tx
  | None =>
      (c, resp_tx r) ∈ sent q ∧ Ciphertext (resp_tx r) = sc_payload k ∧
      ∀ c' tx', (c', tx') ∈ sent q → c' = c ∨ ID tx' = ID (resp_tx r) →
        c' = c ∧ tx' = resp_tx r
  end.
Proof.
  intros Hr Hlt Hk Hpc. destruct (inv_reachable q Hr) as [Hreq [Hp Hresp] Hi _ _].
  specialize (Hresp c k r Hk (or_intror Hpc)). unfold good_resp in Hresp.
  destruct (resp_err r); [done|]. split; [done|]. split.
  { destruct (Hp c (resp_tx r)) as (k' & Hk' & ->); [apply elem_of_app; by left|]. congruence. }
  intros c' tx' Hin Hor.
  enough ((c', tx') = (c, resp_tx r)) by (by simplify_eq). destruct Hor as [->|Hid].
  - destruct (ir_split _ Hreq) as (proc & Hacc & Hsub).
    eapply (NoDup_fmap_inj fst (sent q)); try done.
    pose proof (ir_nodup _ Hreq) as Hnd. rewrite Hacc in Hnd.
    apply NoDup_app in Hnd as [Hnd _]. by eapply sublist_NoDup.
  - destruct (ii_sorted _ Hi Hlt) as [Hs _]. rewrite !fmap_app in Hs.
    apply StronglySorted_app_1_l in Hs. rewrite <- list_fmap_compose in Hs.
    eapply (NoDup_fmap_inj (ID ∘ snd) (sent q)); try done.
    by apply StronglySorted_lt_NoDup.
Qed.

Lemma txqueue_receipts_witness :
  ∃ q r, run sample_run (empty_queue 4) = Some q ∧
    sc_pc <$> calls q !! 2 = Some (SReturned r) ∧ resp_err r = None ∧
    (2, resp_tx r) ∈ sent q ∧ Ciphertext (resp_tx r) = str "b".
Proof.
  destruct (run sample_run (empty_queue 4)) as [q|] eqn:E; [|by vm_compute in E].
  assert (∃ k r, calls q !! 2 = Some k ∧ sc_pc k = SReturned r ∧ resp_err r = None ∧
            sc_payload k = str "b" ∧ (stamps q < 2 ^ 64)%Z) as (k & r & Hk & Hpc & He & Hpay & Hs).
  { vm_compute in E. injection E as <-. do 2 eexists. split; [done|]. by vm_compute. }
  exists q, r. split; [done|]. rewrite Hk. cbn. rewrite Hpc. split; [done|]. split; [done|].
  pose proof (txqueue_receipts q 2 k r (reachable_from_empty 4 _ _ E) Hs Hk Hpc) as H.
  rewrite He in H. destruct H as (H1 & H2 & _). by rewrite Hpay in H2.
Defined.

(** Admission is first come, first served: the order in which calls are
    committed is the order in which their requests entered the submission
    channel, and no request is committed twice. *)
Theorem txqueue_admission_order q :
  reachable q → sublist (sent q).*1 (accepted q) ∧ NoDup (accepted q).
Proof.
  intros Hr. destruct (inv_reachable q Hr) as [Hreq _ _ _ _].
  split; [|apply (ir_nodup _ Hreq)]. destruct (ir_split _ Hreq) as (proc & -> & Hsub).
  by apply sublist_inserts_r.
Qed.

Lemma txqueue_admission_order_witness :
  ∃ q, run sample_run (empty_queue 4) = Some q ∧ sublist [1; 2] (accepted q).
Proof.
  destruct (run sample_run (empty_queue 4)) as [q|] eqn:E; [|by vm_compute in E].
  exists q. split; [done|].
  pose proof (txqueue_admission_order q (reachable_from_empty 4 _ _ E)) as [H _].
  vm_compute in E. injection E as <-. exact H.
Defined.


(** ** Progress of the admission goroutine *)

Lemma respond_ready q c k r :
  calls q !! c = Some k → sc_resp k = None →
  respond c r q = Some (set_calls (<[c := with_resp k r]> (calls q)) q).
Proof. unfold respond. intros -> E. cbn. by rewrite E. Qed.

(** The response channel of every unanswered request is empty. *)
Lemma pending_ready q c :
  inv_req q → c ∈ held (adm q) ++ submitCh q →
  ∃ k, calls q !! c = Some k ∧ sc_resp k = None.
Proof.
  intros Hi Hc. destruct (ir_started _ Hi c) as (k & Hk & _); [by apply inv_req_pending|].
  exists k. split; [done|]. apply (ir_fresh _ Hi c k Hk). by right.
Qed.

Lemma held_ready q c :
  inv_req q → held (adm q) = [c] → ∃ k, calls q !! c = Some k ∧ sc_resp k = None.
Proof. intros Hi E. apply pending_ready; [done|]. rewrite E. by left. Qed.

(** The admission goroutine waits: for a request, or for room in [ch]. *)
Definition idle (q : TxQueue) : Prop := adm q = ALoop ∧ submitCh q = [] ∧ done q = false.
Definition full (q : TxQueue) : Prop :=
  ∃ c tx, adm q = ASend c tx ∧ capacity q ≤ length (ch q) ∧ done q = false ∧
          call_ctx_err q c = None.

Lemma admission_step_ready q :
  inv q → panicked q = false →
  (∃ b, is_Some (step (EAdmission b) q)) ∨ idle q ∨ full q ∨ adm q = AExited.
Proof.
  intros [Hreq _ _ _ Hc] Hp. unfold step, admission_step. rewrite Hp.
  destruct (adm q) as [|c|c tx| | |] eqn:Ea; [| | | | |auto].
  - destruct (submitCh q) as [|c rest] eqn:Es.
    + destruct (done q) eqn:Ed; [|by right; left].
      left. exists LoopDone. cbn. rewrite ?Ed. eauto.
    + left. exists LoopRecv. cbn. rewrite ?Es. eauto.
  - left. destruct (held_ready q c Hreq) as (k & Hk & Hn); [by rewrite Ea|].
    destruct (done q) eqn:Ed.
    { exists CheckDone. cbn. rewrite ?Ed. erewrite respond_ready by done. eauto. }
    destruct (call_ctx_err q c) as [e|] eqn:Ex.
    { exists CheckCtx. cbn. rewrite ?Ex. cbn. erewrite respond_ready by done. eauto. }
    exists (CheckDefault 0). cbn. rewrite ?Ex, ?Ed, ?Hk. cbn. eauto.
  - destruct (held_ready q c Hreq) as (k & Hk & Hn); [by rewrite Ea|].
    destruct (done q) eqn:Ed.
    { left. exists CommitDone. cbn. rewrite ?Ed. erewrite respond_ready by done. eauto. }
    destruct (call_ctx_err q c) as [e|] eqn:Ex.
    { left. exists CommitCtx. cbn. rewrite ?Ex. cbn. erewrite respond_ready by done. eauto. }
    destruct (decide (length (ch q) < capacity q)).
    + left. exists CommitCh. cbn.
      destruct (ch_closed q); [eauto|]. erewrite respond_ready by done. eauto.
    + right; right; left. exists c, tx. split_and!; [done|lia|done..].
  - left. destruct (submitCh q) as [|c rest] eqn:Es.
    { exists (Rejecting RejectDefault). cbn. rewrite ?Es. eauto. }
    destruct (pending_ready q c Hreq) as (k & Hk & Hn); [rewrite Ea, Es; by left|].
    exists (Rejecting RejectRecv). cbn. rewrite ?Es.
    erewrite respond_ready by done. eauto.
  - left. exists CloseCh. cbn. eauto.
Qed.

Lemma idle_or_full_blocked q b :
  idle q ∨ full q ∨ adm q = AExited → step (EAdmission b) q = None.
Proof.
  unfold step, admission_step. destruct (panicked q); [done|].
  intros [(Ea & Es & Ed)|[(c & tx & Ea & Hf & Ed & Ex)|Ea]]; rewrite Ea.
  - rewrite Es, Ed. by destruct b.
  - rewrite Ed, Ex, decide_False by lia. by destruct b.
  - done.
Qed.

(** C9: the admission goroutine blocks in three cases only: it waits for a
    request with none pending and the queue open; it waits for room in the full
    channel for a request that is neither cancelled nor closed; or it has
    exited.  In particular it is never blocked on a response channel, whatever
    became of the callers. *)
Theorem txqueue_blocking q :
  reachable q → panicked q = false →
  (∀ b, step (EAdmission b) q = None) ↔ idle q ∨ full q ∨ adm q = AExited.
Proof.
  intros Hr Hp. split.
  - intros Hb. destruct (admission_step_ready q (inv_reachable q Hr) Hp) as [(b & q' & E)|]; [|done].
    rewrite Hb in E. done.
  - intros H b. by apply idle_or_full_blocked.
Qed.

Lemma txqueue_blocking_witness :
  ∃ q, run sample_run (empty_queue 4) = Some q ∧ ∀ b, step (EAdmission b) q = None.
Proof.
  destruct (run sample_run (empty_queue 4)) as [q|] eqn:E; [|by vm_compute in E].
  exists q. split; [done|].
  pose proof (txqueue_blocking q (reachable_from_empty 4 _ _ E)) as H.
  vm_compute in E. injection E as <-. apply H; [done|]. by left.
Defined.

(** ** Shutdown *)





(** A queue closed with two requests pending. *)
Definition pending_close : list event :=
  [ESubmit 1 0 (str "a"); ESubmit 2 0 (str "b"); ECall 1 SendReq; ECall 2 SendReq; EClose].



(** Close releases every caller.  Once [done] is closed, a
    SubmitWithReceipt call that has not returned can return in its next step,
    without waiting for any other goroutine. *)
Theorem txqueue_close_releases q c k :
  panicked q = false → done q = true →
  calls q !! c = Some k → (∀ r, sc_pc k ≠ SReturned r) →
  ∃ b q', step (ECall c b) q = Some q' ∧
    sc_pc <$> calls q' !! c = Some (SReturned (reject ErrQueueClosed)).
Proof.
  intros Hp Hd Hk Hpc.
  exists (if sc_pc k is SSend then SendDone else WaitDone), (goto_call c (SReturned (reject ErrQueueClosed)) q).
  split.
  - unfold step, submit_step. rewrite Hp, Hk. cbn. rewrite Hd.
    destruct (sc_pc k) as [| |r] eqn:E; [done..|by destruct (Hpc r)].
  - cbn. rewrite lookup_alter, decide_True, Hk by done. done.
Qed.

Lemma txqueue_close_releases_witness :
  ∃ q b q', run pending_close (empty_queue 4) = Some q ∧ step (ECall 2 b) q = Some q' ∧
    sc_pc <$> calls q' !! 2 = Some (SReturned (reject ErrQueueClosed)).
Proof.
  destruct (run pending_close (empty_queue 4)) as [q|] eqn:E; [|by vm_compute in E].
  assert (∃ k, calls q !! 2 = Some k ∧ sc_pc k = SWait ∧ panicked q = false ∧ done q = true)
    as (k & Hk & Hpc & Hp & Hd).
  { vm_compute in E. injection E as <-. eexists. split; [reflexivity|]. done. }
  destruct (txqueue_close_releases q 2 k Hp Hd Hk) as (b & q' & H).
  { intros r. by rewrite Hpc. }
  by exists q, b, q'.
Defined.

(** ** Draining *)

Definition with_batch (k : drain_call) (b : list EncryptedTransaction) : drain_call :=
  DrainCall (d_ctx k) (d_size k) b None.

(** The transactions a drain can take without waiting. *)
Definition available (k : drain_call) (q : TxQueue) : nat :=
  length (ch q) `min` Z.to_nat (d_size k - Z.of_nat (length (d_batch k))).

Lemma drain_recv_step d k tx rest q :
  panicked q = false → drains q !! d = Some k → d_ret k = None →
  (Z.of_nat (length (d_batch k)) < d_size k)%Z → ch q = tx :: rest →
  step (EDrainCall d DRecv) q = Some (drain_recv d k tx (set_ch rest q)).
Proof.
  intros Hp Hk Hn Hlt Hch. unfold step, drain_step. rewrite Hp, Hk. cbn.
  by rewrite Hn, (proj2 (Z.ltb_lt _ _)), Hch by done.
Qed.

Lemma drain_collects m d k q :
  panicked q = false → drains q !! d = Some k → d_ret k = None → m ≤ available k q →
  ∃ q', run (replicate m (EDrainCall d DRecv)) q = Some q' ∧ panicked q' = false ∧
    ch_closed q' = ch_closed q ∧ ch q' = drop m (ch q) ∧
    drains q' !! d = Some (with_batch k (d_batch k ++ take m (ch q))).
Proof.
  revert k q. induction m as [|m IH]; intros k q Hp Hk Hn Hm.
  { exists q. cbn. rewrite app_nil_r. split_and!; [done..|].
    rewrite Hk. unfold with_batch. destruct k; cbn in *; by subst. }
  unfold available in Hm. destruct (ch q) as [|tx rest] eqn:Hch; cbn [length] in Hm; [lia|].
  cbn [replicate run]. rewrite (drain_recv_step d k tx rest) by (done || lia). cbn [mbind option_bind].
  destruct (IH (with_batch k (d_batch k ++ [tx])) (drain_recv d k tx (set_ch rest q)))
    as (q' & E & ? & ? & Hc & Hd); [done|cbn; by rewrite lookup_insert_eq|done| |].
  { unfold available. cbn. rewrite length_app. cbn. lia. }
  exists q'. split_and!; [done..|]. rewrite Hd. cbn. by rewrite <- app_assoc.
Qed.

Lemma drain_ends d k q :
  panicked q = false → drains q !! d = Some k → d_ret k = None → available k q = 0 →
  d_ctx k = None ∨ ch_closed q = true →
  ∃ b, step (EDrainCall d b) q =
    Some (drain_return d k (if decide (d_size k ≤ Z.of_nat (length (d_batch k)))%Z then None
                            else (λ _, ErrQueueClosed) <$> d_ctx k) q).
Proof.
  intros Hp Hk Hn Ha Hor. unfold step, drain_step. rewrite Hp, Hk. cbn. rewrite Hn.
  unfold available in Ha. destruct (Z.ltb_spec (Z.of_nat (length (d_batch k))) (d_size k)).
  - rewrite decide_False by lia. assert (ch q = []) as ->; [apply length_zero_iff_nil; lia|].
    destruct (ch_closed q) eqn:Hc.
    + exists DClosed. by destruct (d_ctx k).
    + exists DDefault. by destruct Hor as [->|].
  - exists DFull. by rewrite decide_True.
Qed.

(** Drain never waits and a DrainWait on a closed channel does not
    either: on its own, the call takes as many of the oldest transactions as
    are there and fit, leaves the others in order, and returns; the error is
    ErrQueueClosed exactly for a DrainWait that did not fill its batch.  So the
    transactions committed before the queue closed can all still be drained. *)
Theorem txqueue_drain_finishes d k q :
  panicked q = false → drains q !! d = Some k → d_ret k = None →
  d_ctx k = None ∨ ch_closed q = true →
  ∃ b q', run (replicate (available k q) (EDrainCall d DRecv) ++ [EDrainCall d b]) q = Some q' ∧
    ch q' = drop (available k q) (ch q) ∧
    let batch := d_batch k ++ take (available k q) (ch q) in
    drains q' !! d = Some (DrainCall (d_ctx k) (d_size k) batch
      (Some (if decide (d_size k ≤ Z.of_nat (length batch))%Z then None
             else (λ _, ErrQueueClosed) <$> d_ctx k))).
Proof.
  intros Hp Hk Hn Hor.
  destruct (drain_collects (available k q) d k q) as (q1 & E & Hp1 & Hc1 & Hch1 & Hd1); [done..|].
  set (k1 := with_batch k _) in Hd1.
  destruct (drain_ends d k1 q1) as (b & Eb); [done..| |by rewrite Hc1|].
  { unfold available, k1. cbn. rewrite Hch1, length_app, length_drop, length_take.
    unfold available. lia. }
  exists b. eexists. split; [rewrite run_app, E; cbn; by rewrite Eb|]. cbn.
  split; [done|]. by rewrite lookup_insert_eq.
Qed.

(** A queue closed and shut down with one transaction undrained. *)
Definition closed_with_one : list event :=
  submit_schedule 1 0 (str "a") 5 ++
  [EClose; EAdmission LoopDone; EAdmission (Rejecting RejectDefault); EAdmission CloseCh;
   EDrainWait 7 3 10].

Lemma txqueue_drain_finishes_witness :
  ∃ q q' k' b, run closed_with_one (empty_queue 4) = Some q ∧
    run [EDrainCall 7 DRecv; EDrainCall 7 b] q = Some q' ∧ drains q' !! 7 = Some k' ∧
    Ciphertext <$> d_batch k' = [str "a"] ∧ d_ret k' = Some (Some ErrQueueClosed).
Proof.
  destruct (run closed_with_one (empty_queue 4)) as [q|] eqn:E; [|by vm_compute in E].
  vm_compute in E. injection E as <-.
  match goal with |- ∃ q0 _ _ _, Some ?q = _ ∧ _ =>
    destruct (txqueue_drain_finishes 7 (DrainCall (Some 3) 10 [] None) q)
      as (b & q' & E & _ & Hd); [reflexivity..|by right|];
    exists q, q'; eexists; exists b; split; [done|]; split; [exact E|]; split; [exact Hd|]
  end.
  by split.
Defined.

(** ** An uncontended submission *)

(** The queue is open and idle with room for one more transaction. *)
Definition ready (q : TxQueue) : Prop :=
  panicked q = false ∧ adm q = ALoop ∧ submitCh q = [] ∧ done q = false ∧
  ch_closed q = false ∧ length (ch q) < capacity q.

Definition next_tx (q : TxQueue) (ct : bytes) (now : Z) : EncryptedTransaction :=
  {| ID := wrap64 (nextID q + 1); Ciphertext := ct; ArrivedAt := now |}.

Lemma run_cons e es q q1 : step e q = Some q1 → run (e :: es) q = run es q1.
Proof. intros E. cbn [run]. by rewrite E. Qed.

(** The steps of call [c] leave the other calls and the drains alone. *)
Definition untouched (c : nat) (q q' : TxQueue) : Prop :=
  drains q' = drains q ∧ ∀ c', c' ≠ c → calls q' !! c' = calls q !! c'.

(** A fresh call enters the submission channel of an idle queue and is picked
    up by the admission goroutine. *)
Lemma submit_enters c x ct q :
  ready q → calls q !! c = None →
  ∃ q', run (take 3 (submit_schedule c x ct 0)) q = Some q' ∧
    panicked q' = false ∧ ch q' = ch q ∧ ctxs q' = ctxs q ∧ nextID q' = nextID q ∧
    done q' = false ∧ ch_closed q' = false ∧ capacity q' = capacity q ∧ adm q' = ACheck c ∧
    calls q' !! c = Some (Call x ct SWait None) ∧ untouched c q q' ∧ submitCh q' = [] ∧ stamps q' = stamps q.
Proof.
  intros (Hp & Ha & Hs & Hd & Hcl & Hroom) Hc.
  set (q1 := set_calls (<[c := Call x ct SSend None]> (calls q)) q).
  assert (step (ESubmit c x ct) q = Some q1) as E1.
  { unfold step, submit_begin. by rewrite Hp, Hc. }
  set (q2 := log_accept c (set_submitCh [c] (goto_call c SWait q1))).
  assert (step (ECall c SendReq) q1 = Some q2) as E2.
  { unfold step, submit_step. cbn. rewrite Hp, lookup_insert_eq, Hs. cbn.
    by rewrite decide_True by lia. }
  assert (step (EAdmission LoopRecv) q2 = Some (set_adm (ACheck c) (set_submitCh [] q2))) as E3.
  { unfold step, admission_step. cbn. by rewrite Hp, Ha. }
  eexists. split; [cbn [take submit_schedule]; rewrite !(run_cons _ _ _ _ E1), !(run_cons _ _ _ _ E2);
                   by rewrite (run_cons _ _ _ _ E3)|].
  cbn. split_and!; [done..| | |done|done].
  - by rewrite lookup_alter, decide_True, lookup_insert_eq by done.
  - split; [done|]. intros c' Hne. cbn. by rewrite lookup_alter_ne, lookup_insert_ne by done.
Qed.

(** The first five steps of [submit_schedule] commit the transaction. *)
Lemma submit_commits c x ct now q :
  ready q → calls q !! c = None → ctxs q !! x = None →
  ∃ q', run (take 5 (submit_schedule c x ct now)) q = Some q' ∧
    panicked q' = false ∧ ch q' = ch q ++ [next_tx q ct now] ∧ ctxs q' = ctxs q ∧
    nextID q' = wrap64 (nextID q + 1) ∧ done q' = false ∧ adm q' = ALoop ∧
    calls q' !! c = Some (Call x ct SWait (Some (receipt (next_tx q ct now)))) ∧
    untouched c q q' ∧ submitCh q' = [] ∧ ch_closed q' = false ∧ capacity q' = capacity q ∧
    stamps q' = (stamps q + 1)%Z.
Proof.
  intros Hq Hc Hx. destruct Hq as (? & ? & ? & ? & ? & Hroom) eqn:HQ.
  destruct (submit_enters c x ct q Hq Hc) as (q3 & E3 & Hp & Hch & Hcx & Hid & Hd & Hcl & Hcap & Ha & Hk & Hun & Hsub & Hst).
  assert (call_ctx_err q3 c = None) as Hce by (unfold call_ctx_err; rewrite Hk, Hcx; done).
  set (q4 := set_adm (ASend c (next_tx q ct now)) (next_id q3)).
  assert (step (EAdmission (CheckDefault now)) q3 = Some q4) as E4.
  { unfold step, admission_step. rewrite Hp, Ha, Hce, Hd. cbn. rewrite Hk. cbn.
    unfold q4, next_tx. by rewrite Hid. }
  set (q5 := set_calls (<[c := with_resp (Call x ct SWait None) (receipt (next_tx q ct now))]> (calls q4))
    (set_adm ALoop (log_send c (next_tx q ct now) (set_ch (ch q4 ++ [next_tx q ct now]) q4)))).
  assert (step (EAdmission CommitCh) q4 = Some q5) as E5.
  { unfold step, admission_step. cbn. rewrite Hp, Hch, Hcap, decide_True, Hcl by done.
    erewrite respond_ready by done. cbn. unfold q5. cbn. by rewrite Hch. }
  exists q5. split.
  - change (take 5 (submit_schedule c x ct now)) with (take 3 (submit_schedule c x ct 0) ++
      [EAdmission (CheckDefault now); EAdmission CommitCh]).
    rewrite run_app, E3. cbn [mbind option_bind].
    by rewrite (run_cons _ _ _ _ E4), (run_cons _ _ _ _ E5).
  - cbn. rewrite lookup_insert_eq, Hch, Hid, Hst. split_and!; try done.
    destruct Hun as [Hdr Hcs]. split; [done|]. intros c' Hne. cbn.
    rewrite lookup_insert_ne by done. by apply Hcs.
Qed.

(** An uncontended submission succeeds: on an open queue with room, a
    fresh call whose context stays live is stamped with the next ID and the
    current time, is appended to the queue with its ciphertext, and returns
    that transaction as its receipt. *)
Theorem txqueue_submit_succeeds c x ct now q :
  ready q → calls q !! c = None → ctxs q !! x = None →
  ∃ q', run (submit_schedule c x ct now) q = Some q' ∧
    ch q' = ch q ++ [next_tx q ct now] ∧ nextID q' = wrap64 (nextID q + 1) ∧
    sc_pc <$> calls q' !! c = Some (SReturned (receipt (next_tx q ct now))).
Proof.
  intros Hq Hc Hx.
  destruct (submit_commits c x ct now q Hq Hc Hx) as (q1 & E & Hp & Hch & _ & Hid & _ & _ & Hk & _).
  change (submit_schedule c x ct now)
    with (take 5 (submit_schedule c x ct now) ++ [ECall c RecvResp]).
  rewrite run_app, E. cbn. unfold step, submit_step. rewrite Hp, Hk. cbn.
  eexists. split; [done|]. cbn. split_and!; [done..|]. by rewrite lookup_insert_eq.
Qed.

Lemma txqueue_submit_succeeds_witness :
  ∃ q', run (submit_schedule 1 0 (str "a") 5) (empty_queue 1) = Some q' ∧
    ch q' = [sample_tx 1 "a" 5].
Proof.
  destruct (txqueue_submit_succeeds 1 0 (str "a") 5 (empty_queue 1)) as (q' & E & Hch & _);
    [|done..|by exists q'].
  unfold ready. cbn. split_and!; [done..|lia].
Defined.

(** An error does not mean that nothing was committed.  If the context
    finishes after the commit, the call can return the context's error although
    its transaction is in the queue: a caller that retries is sequenced
    twice. *)
Theorem txqueue_error_after_commit c x ct now e q :
  ready q → calls q !! c = None → ctxs q !! x = None →
  ∃ q', run (take 5 (submit_schedule c x ct now) ++ [ECtxDone x e; ECall c WaitCtx]) q = Some q' ∧
    sc_pc <$> calls q' !! c = Some (SReturned (reject (CtxErr e))) ∧
    ch q' = ch q ++ [next_tx q ct now].
Proof.
  intros Hq Hc Hx.
  destruct (submit_commits c x ct now q Hq Hc Hx) as (q1 & E & Hp & Hch & Hcx & _ & _ & _ & Hk & _).
  set (q2 := set_ctxs (<[x := e]> (ctxs q)) q1).
  assert (step (ECtxDone x e) q1 = Some q2) as E1 by (unfold step; by rewrite Hp, Hcx, ?Hx).
  assert (step (ECall c WaitCtx) q2 = Some (goto_call c (SReturned (reject (CtxErr e))) q2)) as E2.
  { unfold step, submit_step. cbn. rewrite Hp, Hk. cbn. by rewrite lookup_insert_eq. }
  eexists. split.
  - rewrite run_app, E. cbn [mbind option_bind]. by rewrite (run_cons _ _ _ _ E1), (run_cons _ _ _ _ E2).
  - cbn. by rewrite lookup_alter, decide_True, Hk by done.
Qed.

Lemma txqueue_error_after_commit_witness :
  ∃ q', run (take 5 (submit_schedule 1 0 (str "a") 5) ++ [ECtxDone 0 Canceled; ECall 1 WaitCtx])
          (empty_queue 1) = Some q' ∧ ch q' = [sample_tx 1 "a" 5].
Proof.
  destruct (txqueue_error_after_commit 1 0 (str "a") 5 Canceled (empty_queue 1))
    as (q' & E & _ & Hch); [|done..|by exists q'].
  unfold ready. cbn. split_and!; [done..|lia].
Defined.
