(* ===== verification/OrderedLog.v ===== *)
(** pkg/sequencing/log.go: the OrderedLog interface as a type class, with what
    its comment promises as laws, and the proof that TxQueue keeps them.
    Clients of the log (the ingress collector of the sequencer) are verified
    against the class. *)

From S2P Require Import Prelude Commitment TxQueue TxQueueInv.

(** ** The interface *)

(** A log whose goroutines take steps.  A step may begin the DrainWait call [d]
    for [n] transactions, written [Some (d, n)]; every other step (of a
    SubmitWithReceipt or DrainWait in progress, of Close, of a context or of
    the log's own goroutines) is [None]. *)
Class OrderedLog (L : Type) := {
  log_ok : L → Prop;
  log_step : option (nat * Z) → L → L → Prop;
  (** the transactions committed so far, in order *)
  committed : L → list EncryptedTransaction;
  (** who received which of them so far, in order *)
  taken : L → list (nat * EncryptedTransaction);
  (** the batch size of each DrainWait call *)
  asked : L → nat → option Z;
  (** the batch a DrainWait call returned, and whether with an error *)
  drain_result : L → nat → option (list EncryptedTransaction * bool);
  (** fewer transactions than IDs *)
  ids_fit : L → Prop
}.

Definition received_by {L} `{OrderedLog L} (l : L) (d : nat) : list EncryptedTransaction :=
  (filter (λ p, p.1 = d) (taken l)).*2.

Class OrderedLogLaws (L : Type) `{OrderedLog L} := {
  log_ok_step o l l' : log_ok l → log_step o l l' → log_ok l';
  (** committed transactions stay committed, in their order, ... *)
  committed_step o l l' : log_ok l → log_step o l l' → committed l `prefix_of` committed l';
  (** ... with increasing IDs, ... *)
  committed_sorted l : log_ok l → ids_fit l → StronglySorted Z.lt (ID <$> committed l);
  (** ... and are received in that order, each once, ... *)
  taken_prefix l : log_ok l → (taken l).*2 `prefix_of` committed l;
  (** ... by calls that have begun and not returned. *)
  taken_step o l l' : log_ok l → log_step o l l' →
    ∃ new, taken l' = taken l ++ new ∧
           ∀ p, p ∈ new → is_Some (asked l p.1) ∧ drain_result l p.1 = None;
  taken_asked l p : log_ok l → p ∈ taken l → is_Some (asked l p.1);
  asked_begin l l' d n : log_ok l → log_step (Some (d, n)) l l' → asked l d = None;
  asked_step o l l' d : log_ok l → log_step o l l' →
    asked l' d = (if o is Some (d', n) then if decide (d = d') then Some n else asked l d
                  else asked l d);
  (** A call returns what it has received, and nothing changes that; without
      an error it is a full batch, with an error it is not. *)
  result_step o l l' d r : log_ok l → log_step o l l' →
    drain_result l d = Some r → drain_result l' d = Some r;
  result_asked l d r : log_ok l → drain_result l d = Some r → is_Some (asked l d);
  result_batch l d b err : log_ok l → drain_result l d = Some (b, err) → b = received_by l d;
  result_size l d n b err : log_ok l → asked l d = Some n → drain_result l d = Some (b, err) →
    if err then (Z.of_nat (length b) < n)%Z else Z.of_nat (length b) = Z.max 0 n
}.

(** ** TxQueue implements it *)

(** The step an event is for a user of the interface; Drain is not part of
    it. *)
Definition log_event (e : event) : option (option (nat * Z)) :=
  match e with
  | EDrainWait d _ n => Some (Some (d, n))
  | EDrain _ _ => None
  | _ => Some None
  end.

Definition txqueue_ok (q : TxQueue) : Prop :=
  reachable q ∧ ∀ d k, drains q !! d = Some k → is_Some (d_ctx k).

#[export] Instance txqueue_log : OrderedLog TxQueue := {
  log_ok := txqueue_ok;
  log_step o q q' := ∃ e, log_event e = Some o ∧ step e q = Some q';
  committed q := (sent q).*2;
  taken := recvd;
  asked q d := d_size <$> drains q !! d;
  drain_result q d := k ← drains q !! d; (λ e, (d_batch k, bool_decide (e ≠ None))) <$> d_ret k;
  ids_fit q := (stamps q < 2 ^ 64)%Z
}.

(** A drain keeps its context and size, and its result once it has one. *)
Lemma drains_mono q q' d k :
  effect q q' → drains q !! d = Some k →
  ∃ k', drains q' !! d = Some k' ∧ d_ctx k' = d_ctx k ∧ d_size k' = d_size k ∧
        (d_ret k ≠ None → k' = k).
Proof.
  intros He Hk. destruct He; cbn; try (by eauto);
    try (by repeat case_match; cbn; eauto);
    rewrite lookup_insert; case_decide; simplify_eq; eauto;
    eexists; split_and!; try done; intros; congruence.
Qed.

(** Only the event that begins a drain adds one. *)
Lemma drains_old e q q' d :
  step e q = Some q' → drains q !! d = None →
  match e with
  | EDrainWait d' x n => drains q' !! d = if decide (d = d') then Some (DrainCall (Some x) n [] None) else None
  | EDrain d' n => drains q' !! d = if decide (d = d') then Some (DrainCall None n [] None) else None
  | _ => drains q' !! d = None
  end.
Proof.
  unfold step. destruct (panicked q); [done|]. intros H Hn.
  destruct e as [c x p|c b|b|d' x n|d' n|d' b|c|d'| |x e];
    unfold submit_begin, submit_step, admission_step, reject_step, drain_begin, drain_step,
      rv_submit, rv_deliver, Close, close_ch in H; invert_step; cbn in *; try done.
  all: try (by rewrite lookup_insert; repeat case_decide; simplify_eq; try congruence).
  all: by repeat case_match.
Qed.

Lemma committed_grows q q' : effect q q' → sent q `prefix_of` sent q'.
Proof.
  intros He. destruct (sent_step _ _ He) as [(? & ? & -> & _)|[-> _]]; [by apply prefix_app_r|done].
Qed.

Lemma recvd_step q q' :
  effect q q' →
  ∃ new, recvd q' = recvd q ++ new ∧
    ∀ p, p ∈ new → ∃ k, drains q !! p.1 = Some k ∧ d_ret k = None.
Proof.
  intros He. assert (∀ q', recvd q' = recvd q → ∃ new, recvd q' = recvd q ++ new ∧
    ∀ p, p ∈ new → ∃ k, drains q !! p.1 = Some k ∧ d_ret k = None) as Hnil.
  { intros q0 ->. exists []. rewrite app_nil_r. split; [done|set_solver]. }
  destruct He; try (by apply Hnil); try (by apply Hnil; cbn; repeat case_match).
  all: eexists; split; [done|]; intros p ->%list_elem_of_singleton; eauto.
Qed.

Lemma txqueue_ok_step o q q' : txqueue_ok q → log_step o q q' → txqueue_ok q'.
Proof.
  intros [Hr Hx] (e & Ee & E). split; [by econstructor|]. intros d k' Hk'.
  destruct (drains q !! d) as [k|] eqn:Hk.
  - apply step_effect in E as [_ He].
    destruct (drains_mono _ _ _ _ He Hk) as (k'' & Hk'' & Hc & _); simplify_eq. rewrite Hc. by apply (Hx d).
  - pose proof (drains_old _ _ _ _ E Hk) as H. destruct e; cbn in Ee; try done;
      rewrite Hk' in H; try done. case_decide; simplify_eq. by eexists.
Qed.

Lemma txqueue_asked_step o q q' d :
  txqueue_ok q → log_step o q q' →
  asked q' d = (if o is Some (d', n) then if decide (d = d') then Some n else asked q d
                else asked q d).
Proof.
  intros _ (e & Ee & E). cbn. pose proof (step_effect _ _ _ E) as [_ He].
  destruct (drains q !! d) as [k|] eqn:Hk.
  - destruct (drains_mono _ _ _ _ He Hk) as (k' & -> & _ & Hsz & _). cbn. rewrite Hsz.
    destruct o as [[d' n]|]; [|done]. case_decide; [|done]. subst d'.
    destruct e; try done. injection Ee as -> ->. unfold step, drain_begin in E. rewrite Hk in E.
    by destruct (panicked q).
  - pose proof (drains_old _ _ _ _ E Hk) as H.
    destruct e; cbn in Ee; simplify_eq; rewrite H; try done. by case_decide.
Qed.

#[export] Instance txqueue_log_laws : OrderedLogLaws TxQueue.
Proof.
  split.
  - exact txqueue_ok_step.
  - intros o q q' _ (e & _ & [_ He]%step_effect). destruct (committed_grows _ _ He) as [k E].
    exists k.*2. cbn. by rewrite E, fmap_app.
  - intros q [Hr _] Hfit. pose proof (i_ids _ (inv_reachable q Hr)) as Hi.
    destruct (ii_sorted _ Hi Hfit) as [Hs _]. rewrite !fmap_app in Hs.
    by apply StronglySorted_app_1_l in Hs.
  - intros q [Hr _]. exists (ch q). apply (iv_split _ (i_deliver _ (inv_reachable q Hr))).
  - intros o q q' _ (e & _ & [_ He]%step_effect). destruct (recvd_step _ _ He) as (new & E & Hnew).
    exists new. split; [done|]. intros p Hp. destruct (Hnew p Hp) as (k & Hk & Hret). cbn.
    rewrite Hk. cbn. rewrite Hret. eauto.
  - intros q [d tx] [Hr _] Hp. cbn.
    destruct (iv_known _ (i_deliver _ (inv_reachable q Hr)) d tx Hp) as [k Hk]. rewrite Hk. eauto.
  - intros q q' d n _ (e & Ee & E). destruct e; cbn in Ee; simplify_eq. cbn.
    unfold step, drain_begin in E. destruct (panicked q); [done|].
    by destruct (drains q !! d).
  - exact txqueue_asked_step.
  - intros o q q' d r _ (e & _ & [_ He]%step_effect) Hres. cbn in *.
    destruct (drains q !! d) as [k|] eqn:Hk; cbn in Hres; [|done].
    destruct (drains_mono _ _ _ _ He Hk) as (k' & Hk' & _ & _ & Hsame). rewrite Hk'. cbn.
    destruct (d_ret k) eqn:Hret; [|done]. rewrite Hsame by done. by rewrite Hret.
  - intros q d r _ Hres. cbn in *. destruct (drains q !! d); [by eexists|done].
  - intros q d b err [Hr _] Hres. cbn in Hres. apply bind_Some in Hres as (k & Hk & Hres).
    destruct (d_ret k); cbn in Hres; simplify_eq. unfold received_by. cbn.
    by apply (iv_batch _ (i_deliver _ (inv_reachable q Hr))).
  - intros q d n b err [Hr Hx] Ha Hres. cbn in *. apply bind_Some in Hres as (k & Hk & Hres).
    rewrite Hk in Ha. cbn in Ha. pose proof (i_deliver _ (inv_reachable q Hr)) as Hi.
    destruct (Hx d k Hk) as [x Hc].
    destruct (d_ret k) as [[e|]|] eqn:Hret; cbn in Hres; simplify_eq.
    + by apply (iv_err _ Hi d k e).
    + pose proof (iv_full _ Hi d k x Hk Hret Hc). pose proof (iv_size _ Hi d k Hk). lia.
Qed.
