(* ===== verification/Pipeline.v ===== *)
(** cmd/sequencer/main.go: the goroutines between the ordered log and the
    settlement layer.

    The ingress collector moves committed transactions one at a time from the
    log into the encrypted mempool; the batch goroutine drains the mempool in
    batches of 1000, computes each batch's commitment, hands it to the
    publisher and decrypts the batch.  Both are verified against the OrderedLog
    interface, for any implementation of it, any interleaving with the log's own
    goroutines, and any growth of the mempool's backing array. *)

From S2P Require Import Prelude Commitment GoSlice Mempool TxQueue TxQueueInv TxQueueProps OrderedLog.

Definition batchSize : Z := 1000.

Inductive collector_pc :=
| CLoop                                    (* about to call DrainWait(ctx, 1) *)
| CWait (d : nat)                          (* in call [d] *)
| CAdd (txs : list EncryptedTransaction)   (* adding what it returned *)
| CStopped.

Inductive batcher_pc :=
| BCheck                                   (* at the select on ctx.Done() *)
| BWait                                    (* in mempool.DrainWait *)
| BProcess (batch : Slice)
| BStopped.

Section pipeline.
Context {L : Type} `{Hlog : OrderedLog L}.
Context (grow : nat → nat → nat).
(** The privacy layer: [None] is an error. *)
Context (DecryptBatch : list bytes → option (list bytes)) (DecryptSingle : bytes → option bytes).

(** [batches], [commitments], [published] and [failures] are history: the
    batches processed, their commitments, the ones handed to the publisher, and
    the IDs of the transactions logged as undecryptable. *)
Record sequencer := Seq {
  slog : L;
  mempool : EncryptedMempool;
  collector : collector_pc;
  batcher : batcher_pc;
  cancelled : bool;
  batches : list (list EncryptedTransaction);
  commitments : list bytes;
  published : list bytes;
  failures : list Z
}.

Definition set_slog (l : L) (s : sequencer) : sequencer :=
  Seq l (mempool s) (collector s) (batcher s) (cancelled s) (batches s) (commitments s)
    (published s) (failures s).
Definition set_collector (c : collector_pc) (s : sequencer) : sequencer :=
  Seq (slog s) (mempool s) c (batcher s) (cancelled s) (batches s) (commitments s)
    (published s) (failures s).
Definition set_batcher (b : batcher_pc) (s : sequencer) : sequencer :=
  Seq (slog s) (mempool s) (collector s) b (cancelled s) (batches s) (commitments s)
    (published s) (failures s).
Definition set_mempool (m : EncryptedMempool) (s : sequencer) : sequencer :=
  Seq (slog s) m (collector s) (batcher s) (cancelled s) (batches s) (commitments s)
    (published s) (failures s).
Definition cancel (s : sequencer) : sequencer :=
  Seq (slog s) (mempool s) (collector s) (batcher s) true (batches s) (commitments s)
    (published s) (failures s).

(** When both goroutines start: nothing drained, an empty mempool. *)
Definition start (l : L) : sequencer :=
  Seq l (NewEncryptedMempool ∅ 1024) CLoop BCheck false [] [] [] [].

(** The collector's steps other than the call itself.  A DrainWait error ends
    it; the batch that came with the error is not added. *)
Definition collect (s : sequencer) : option sequencer :=
  match collector s with
  | CWait d =>
      '(txs, err) ← drain_result (slog s) d;
      Some (set_collector (if err : bool then CStopped else CAdd txs) s)
  | CAdd [] => Some (set_collector CLoop s)
  | CAdd (tx :: txs) =>
      m ← Add grow (mempool s) tx;
      Some (set_collector (CAdd txs) (set_mempool m s))
  | CLoop | CStopped => None
  end.

(** Step 3 of the batch goroutine: the IDs it logs as undecryptable. *)
Definition reveal (batch : list EncryptedTransaction) : list Z :=
  match DecryptBatch (Ciphertext <$> batch) with
  | Some _ => []
  | None => ID <$> filter (λ tx, DecryptSingle (Ciphertext tx) = None) batch
  end.

(** Processing one batch.  [publish] says that the backend is local or that
    this node is the leader. *)
Definition process_batch (publish : bool) (batch : list EncryptedTransaction) (s : sequencer)
  : sequencer :=
  let c := GenerateBatchCommitment batch in
  Seq (slog s) (mempool s) (collector s) BCheck (cancelled s) (batches s ++ [batch])
    (commitments s ++ [c]) (published s ++ if publish then [c] else [])
    (failures s ++ reveal batch).

(** The batch goroutine's steps: its select, one poll of mempool.DrainWait
    ([wake] ends the select between polls), and the processing of a batch. *)
Inductive batch_branch := BSelect | BPoll (w : wake) | BRun (publish : bool).

Definition batch_step (b : batch_branch) (s : sequencer) : option sequencer :=
  match batcher s, b with
  | BCheck, BSelect => Some (set_batcher (if cancelled s then BStopped else BWait) s)
  | BWait, BPoll w =>
      '(r, m) ← poll grow (mempool s) batchSize;
      let s := set_mempool m s in
      match r, w with
      | Some out, _ => Some (set_batcher (BProcess out) s)
      | None, Tick => Some s
      | None, CtxDone => if cancelled s then Some (set_batcher BCheck s) else None
      end
  | BProcess out, BRun publish =>
      batch ← contents (mheap (mempool s)) out;
      Some (process_batch publish batch s)
  | _, _ => None
  end.

Inductive pipe_step : sequencer → sequencer → Prop :=
| P_log s l' : log_step None (slog s) l' → pipe_step s (set_slog l' s)
| P_call s d l' :
    collector s = CLoop → log_step (Some (d, 1%Z)) (slog s) l' →
    pipe_step s (set_collector (CWait d) (set_slog l' s))
| P_collect s s' : collect s = Some s' → pipe_step s s'
| P_batch b s s' : batch_step b s = Some s' → pipe_step s s'
| P_cancel s : pipe_step s (cancel s).

(** States of a sequencer started on a log with no drain in progress. *)
Inductive pipe_reachable : sequencer → Prop :=
| pipe_start l : log_ok l → (∀ d, asked l d = None) → pipe_reachable (start l)
| pipe_next s s' : pipe_reachable s → pipe_step s s' → pipe_reachable s'.

(** ** The invariant *)

(** The transactions the two goroutines have in hand. *)
Definition hand (c : collector_pc) : list EncryptedTransaction :=
  match c with CAdd txs => txs | _ => [] end.

Definition draining (s : sequencer) (fl : list EncryptedTransaction) : Prop :=
  match batcher s with
  | BProcess out => owned (mempool s) out fl ∧ Z.of_nat (length fl) = batchSize
  | _ => fl = []
  end.

(** What the log handed over ([pre], and [cur] to the call in progress) is, in
    order, in the processed batches, in the batch in hand, in the mempool
    ([q]) and in the collector's hand; the only DrainWait call that has not
    returned is the collector's. *)
Record pipe_inv (s : sequencer) (fl q : list EncryptedTransaction)
    (pre cur : list (nat * EncryptedTransaction)) : Prop := {
  pi_log : log_ok (slog s);
  pi_rep : rep (mempool s) q;
  pi_fl : draining s fl;
  pi_taken : taken (slog s) = pre ++ cur;
  pi_split : pre.*2 = concat (batches s) ++ fl ++ q ++ hand (collector s);
  pi_cur : match collector s with
           | CWait d => asked (slog s) d = Some 1%Z ∧ received_by (slog s) d = cur.*2
           | _ => cur = []
           end;
  pi_open : ∀ d, is_Some (asked (slog s) d) → drain_result (slog s) d = None →
              collector s = CWait d;
  pi_size : Forall (λ b, Z.of_nat (length b) = batchSize) (batches s);
  pi_comm : commitments s = GenerateBatchCommitment <$> batches s
}.

Context `{!OrderedLogLaws L}.

Lemma received_by_none l d : log_ok l → asked l d = None → received_by l d = [].
Proof.
  intros Hl Ha. unfold received_by. destruct (filter _ (taken l)) as [|p r] eqn:E; [done|].
  assert (p ∈ filter (λ p, p.1 = d) (taken l)) as Hin by (rewrite E; by left).
  apply list_elem_of_filter in Hin as [<- Hin]. apply taken_asked in Hin; [|done].
  rewrite Ha in Hin. by destruct Hin.
Qed.

Lemma result_none l d : log_ok l → asked l d = None → drain_result l d = None.
Proof.
  intros Hl Ha. destruct (drain_result l d) eqn:E; [|done].
  apply result_asked in E; [|done]. rewrite Ha in E. by destruct E.
Qed.

(** What a step hands over goes to the collector's call. *)
Lemma pipe_taken s fl q pre cur o l' :
  pipe_inv s fl q pre cur → log_step o (slog s) l' →
  ∃ new, taken l' = taken (slog s) ++ new ∧
    match collector s with CWait d => Forall (λ p, p.1 = d) new | _ => new = [] end.
Proof.
  intros Hi Hs. destruct (taken_step _ _ _ (pi_log _ _ _ _ _ Hi) Hs) as (new & E & Hnew).
  exists new. split; [done|].
  assert (∀ p, p ∈ new → collector s = CWait p.1) as Hp.
  { intros p Hin. destruct (Hnew p Hin). by eapply pi_open. }
  destruct (collector s) as [|d|txs|] eqn:Ec;
    try (destruct new as [|p new]; [done|]; by pose proof (Hp p ltac:(by left))).
  apply Forall_forall. intros p Hin. specialize (Hp p Hin). congruence.
Qed.

Definition invariant (s : sequencer) : Prop := ∃ fl q pre cur, pipe_inv s fl q pre cur.

Lemma received_by_snoc l l' d new :
  taken l' = taken l ++ new → Forall (λ p, p.1 = d) new →
  received_by l' d = received_by l d ++ new.*2.
Proof.
  intros E Hnew. unfold received_by. rewrite E, filter_app, fmap_app. clear E. do 2 f_equal.
  induction Hnew as [|p new Hp _ IH]; [done|].
  by rewrite filter_cons_True, IH by done.
Qed.

Lemma invariant_log s l' : invariant s → log_step None (slog s) l' → invariant (set_slog l' s).
Proof.
  intros (fl & q & pre & cur & Hi) Hs. destruct (pipe_taken _ _ _ _ _ _ _ Hi Hs) as (new & E & Hnew).
  destruct Hi as [Hl Hr Hf Ht Hsp Hc Ho Hsz Hcm].
  pose proof (λ d, asked_step _ _ _ d Hl Hs) as Ha. cbn in Ha.
  exists fl, q, pre, (cur ++ new). split; cbn; try done.
  - by eapply log_ok_step.
  - by rewrite E, Ht, app_assoc.
  - destruct (collector s) as [|d|txs|]; try (by subst).
    destruct Hc as [Hd Hrec]. rewrite Ha. split; [done|].
    by rewrite (received_by_snoc _ _ _ _ E Hnew), Hrec, fmap_app.
  - intros d Hd Hres. rewrite Ha in Hd. apply Ho; [done|].
    destruct (drain_result (slog s) d) as [r|] eqn:Er; [|done].
    rewrite (result_step _ _ _ _ _ Hl Hs Er) in Hres. done.
Qed.

Lemma invariant_call s d l' :
  invariant s → collector s = CLoop → log_step (Some (d, 1%Z)) (slog s) l' →
  invariant (set_collector (CWait d) (set_slog l' s)).
Proof.
  intros (fl & q & pre & cur & Hi) Hco Hs.
  destruct (pipe_taken _ _ _ _ _ _ _ Hi Hs) as (new & E & Hnew).
  destruct Hi as [Hl Hr Hf Ht Hsp Hc Ho Hsz Hcm]. rewrite Hco in *. subst new cur.
  rewrite app_nil_r in E, Ht. pose proof (asked_begin _ _ _ _ Hl Hs) as Hd.
  exists fl, q, pre, []. split; cbn; try done.
  - by eapply log_ok_step.
  - by rewrite E, app_nil_r.
  - rewrite (asked_step _ _ _ d Hl Hs), decide_True by done. split; [done|].
    unfold received_by. rewrite E. by apply (received_by_none _ d Hl).
  - intros d' Hd' Hres. rewrite (asked_step _ _ _ d' Hl Hs) in Hd'.
    case_decide; [congruence|]. exfalso.
    assert (CLoop = CWait d') as ?; [|done]. apply Ho; [done|].
    destruct (drain_result (slog s) d') as [r|] eqn:Er; [|done].
    rewrite (result_step _ _ _ _ _ Hl Hs Er) in Hres. done.
Qed.

Lemma invariant_collect s s' : invariant s → collect s = Some s' → invariant s'.
Proof.
  intros (fl & q & pre & cur & [Hl Hr Hf Ht Hsp Hc Ho Hsz Hcm]) E. unfold collect in E.
  destruct (collector s) as [|d|[|tx txs]|] eqn:Eco; try done.
  - apply bind_Some in E as ([txs err] & Er & [= <-]). destruct Hc as [Hd Hrec].
    pose proof (result_batch _ _ _ _ Hl Er) as Hb. pose proof (result_size _ _ _ _ _ Hl Hd Er) as Hsize.
    exists fl, q, (pre ++ cur), []. split; cbn; try done.
    + by rewrite Ht, app_nil_r.
    + rewrite fmap_app, <- Hrec, <- Hb, Hsp. cbn. rewrite app_nil_r. destruct err; cbn.
      * destruct txs; [|cbn in Hsize; lia]. by rewrite !app_nil_r.
      * by rewrite <- !app_assoc.
    + by destruct err.
    + intros d' Hd' Hres. specialize (Ho d' Hd' Hres). congruence.
  - injection E as <-. exists fl, q, pre, cur. split; cbn; try done.
    intros d' Hd' Hres. specialize (Ho d' Hd' Hres). congruence.
  - destruct (Add_spec grow (mempool s) q tx Hr) as (m & Em & Hm & Ho'). rewrite Em in E.
    injection E as <-. exists fl, (q ++ [tx]), pre, cur. split; cbn; try done.
    + unfold draining in *. cbn. destruct (batcher s); try done. destruct Hf.
      split; [by eapply owned_only_own|done].
    + rewrite Hsp. cbn. by rewrite <- !app_assoc.
    + intros d' Hd' Hres. specialize (Ho d' Hd' Hres). congruence.
Qed.

Lemma invariant_batch b s s' : invariant s → batch_step b s = Some s' → invariant s'.
Proof.
  intros (fl & q & pre & cur & [Hl Hr Hf Ht Hsp Hc Ho Hsz Hcm]) E.
  unfold batch_step, draining in *. destruct (batcher s) as [| |out|] eqn:Eb, b as [|w|pub]; try done.
  - injection E as <-. exists fl, q, pre, cur. split; cbn; try done.
    unfold draining. cbn. by destruct (cancelled s).
  - destruct (poll_spec grow batchSize (mempool s) q ltac:(done) Hr) as (r & m & Em & Ho' & Hm).
    rewrite Em in E. cbn in E. subst fl. destruct r as [out|].
    + injection E as <-. destruct Hm as (Hlen & Hown & Hm).
      exists (take (Z.to_nat batchSize) q), (drop (Z.to_nat batchSize) q), pre, cur.
      split; cbn; try done.
      * unfold draining. cbn. split; [done|]. rewrite length_take. unfold batchSize in *. lia.
      * rewrite Hsp. cbn. by rewrite !app_assoc, <- (app_assoc _ (take _ _)), take_drop.
    + destruct Hm as [_ Hm]. destruct w; [destruct (cancelled s); [|done]|]; injection E as <-;
        exists [], q, pre, cur; split; cbn; try done.
      unfold draining. cbn. by rewrite Eb.
  - destruct Hf as [[Hown _] Hlen]. rewrite Hown in E. cbn in E. injection E as <-.
    exists [], q, pre, cur. split; cbn; try done.
    + rewrite Hsp, concat_app. cbn. by rewrite app_nil_r, <- !app_assoc.
    + apply Forall_app. split; [done|by repeat constructor].
    + by rewrite Hcm, fmap_app.
Qed.

Lemma invariant_reachable s : pipe_reachable s → invariant s.
Proof.
  induction 1 as [l Hl Ha|s s' _ IH Hs].
  - exists [], [], [], []. split; cbn; try done.
    + exact (NewEncryptedMempool_rep ∅ 1024).
    + destruct (taken l) as [|p r] eqn:E; [done|]. exfalso.
      assert (is_Some (asked l p.1)) as [x Hx]; [|by rewrite Ha in Hx].
      apply taken_asked; [done|]. rewrite E. by left.
    + intros d [x Hx]. by rewrite Ha in Hx.
  - destruct Hs as [s l' Hs|s d l' Hc Hs|s s' E|b s s' E|s].
    + by apply invariant_log.
    + by apply invariant_call.
    + by eapply invariant_collect.
    + by eapply invariant_batch.
    + destruct IH as (fl & q & pre & cur & []). by exists fl, q, pre, cur.
Qed.

(** ** Properties *)

(** The [k]-th batch of a committed sequence. *)
Definition batch_at (k : nat) (txs : list EncryptedTransaction) : list EncryptedTransaction :=
  take (Z.to_nat batchSize) (drop (Z.to_nat batchSize * k) txs).

Lemma concat_batch_at (bs : list (list EncryptedTransaction)) rest k b :
  Forall (λ b, Z.of_nat (length b) = batchSize) bs → bs !! k = Some b →
  batch_at k (concat bs ++ rest) = b.
Proof.
  intros Hsz. unfold batch_at. revert k. induction Hsz as [|b0 bs Hb _ IH]; intros [|k] Hk; cbn in Hk; try done.
  - injection Hk as ->. rewrite Nat.mul_0_r, drop_0. cbn. rewrite <- app_assoc.
    rewrite take_app_le by lia. by rewrite take_ge by lia.
  - rewrite <- (IH k Hk). cbn. rewrite <- app_assoc, drop_app_ge by lia. do 2 f_equal. lia.
Qed.

(** The place of an element in a list of full batches. *)
Lemma batch_position (bs : list (list EncryptedTransaction)) rest i tx b :
  Forall (λ b, Z.of_nat (length b) = batchSize) bs → (concat bs ++ rest) !! i = Some tx →
  bs !! (i / Z.to_nat batchSize) = Some b → b !! (i mod Z.to_nat batchSize) = Some tx.
Proof.
  set (B := Z.to_nat batchSize). intros Hsz Hi Hb.
  rewrite <- (concat_batch_at bs rest _ b Hsz Hb). unfold batch_at. fold B.
  assert (B ≠ 0) by done. pose proof (Nat.div_mod_eq i B) as Hdiv.
  rewrite lookup_take_lt by (by apply Nat.mod_upper_bound). rewrite lookup_drop. by rewrite <- Hdiv.
Qed.

(** What has been processed is the beginning of the committed sequence. *)
Lemma committed_split s :
  pipe_reachable s →
  ∃ rest, committed (slog s) = concat (batches s) ++ rest ∧
    Forall (λ b, Z.of_nat (length b) = batchSize) (batches s) ∧
    commitments s = GenerateBatchCommitment <$> batches s.
Proof.
  intros (fl & q & pre & cur & [Hl _ _ Ht Hsp _ _ Hsz Hcm])%invariant_reachable.
  destruct (taken_prefix _ Hl) as [k Hk]. rewrite Ht, fmap_app, Hsp in Hk.
  eexists. split; [|done]. rewrite Hk, <- !app_assoc. done.
Qed.

(** C2: the reveal pipeline cuts the committed sequence into consecutive
    batches of exactly 1000: the k-th batch processed holds the transactions
    committed at positions 1000k to 1000k+999, in commit order, and the k-th
    commitment computed is the batch commitment of those transactions.  No
    transaction is skipped, repeated or moved by the collector, the mempool or
    the batch goroutine. *)
Theorem pipeline_batches s k b :
  pipe_reachable s → batches s !! k = Some b →
  Z.of_nat (length b) = batchSize ∧ b = batch_at k (committed (slog s)) ∧
  commitments s !! k = Some (GenerateBatchCommitment (batch_at k (committed (slog s)))).
Proof.
  intros Hs Hk. destruct (committed_split s Hs) as (rest & Hc & Hsz & Hcm).
  assert (batch_at k (committed (slog s)) = b) as E by (rewrite Hc; by apply concat_batch_at).
  rewrite E, Hcm, list_lookup_fmap, Hk. split_and!; [|done..]. exact (Forall_lookup_1 _ _ _ _ Hsz Hk).
Qed.

(** Where everything is that the log has handed out. *)
Lemma pipeline_in_hand s :
  pipe_reachable s →
  ∃ fl q cur, contents (mheap (mempool s)) (items (mempool s)) = Some q ∧
    draining s fl ∧
    (taken (slog s)).*2 = concat (batches s) ++ fl ++ q ++ hand (collector s) ++ cur ∧
    match collector s with
    | CWait d => cur = received_by (slog s) d
    | _ => cur = []
    end.
Proof.
  intros (fl & q & pre & cur & [_ (_ & _ & Hr) Hf Ht Hsp Hc _ _ _])%invariant_reachable.
  exists fl, q, cur.*2. split_and!; [done..| |].
  - rewrite Ht, fmap_app, Hsp. by rewrite <- !app_assoc.
  - destruct (collector s); [by subst|by destruct Hc|by subst..].
Qed.

(** C3: nothing is lost between the log and the publisher.  At every moment
    what the log has handed out is, in order: the processed batches, the batch
    in hand, the contents of the mempool, the transactions the collector is
    about to add, and those received by its DrainWait call in progress.  Once
    the collector has stopped this includes everything it ever received. *)
Theorem pipeline_no_loss s :
  pipe_reachable s →
  ∃ fl q cur, contents (mheap (mempool s)) (items (mempool s)) = Some q ∧
    draining s fl ∧
    (taken (slog s)).*2 = concat (batches s) ++ fl ++ q ++ hand (collector s) ++ cur ∧
    match collector s with
    | CWait d => cur = received_by (slog s) d
    | _ => cur = []
    end.
Proof. apply pipeline_in_hand. Qed.

(** C4: the revealed order is the order of the sequence IDs: as long as the
    IDs have not wrapped, IDs are strictly increasing within each batch and from
    each batch to the next. *)
Theorem pipeline_fifo s :
  pipe_reachable s → ids_fit (slog s) →
  StronglySorted Z.lt (ID <$> concat (batches s)).
Proof.
  intros Hs Hfit. destruct (committed_split s Hs) as (rest & Hc & _).
  destruct (invariant_reachable s Hs) as (? & ? & ? & ? & [Hl _ _ _ _ _ _ _ _]).
  pose proof (committed_sorted _ Hl Hfit) as H. rewrite Hc, fmap_app in H.
  by apply StronglySorted_app_1_l in H.
Qed.

(** One batch, from the poll to the publication. *)
Lemma batch_ready s q (publish : bool) :
  batcher s = BWait → rep (mempool s) q → (batchSize ≤ Z.of_nat (length q))%Z →
  ∃ s1 s2, batch_step (BPoll Tick) s = Some s1 ∧ batch_step (BRun publish) s1 = Some s2 ∧
    slog s2 = slog s ∧ batches s2 = batches s ++ [batch_at 0 q] ∧
    published s2 = published s ++
      (if publish then [GenerateBatchCommitment (batch_at 0 q)] else []) ∧
    rep (mempool s2) (drop (Z.to_nat batchSize) q) ∧ batcher s2 = BCheck ∧
    cancelled s2 = cancelled s.
Proof.
  intros Hb Hr Hlen.
  destruct (poll_spec grow batchSize (mempool s) q ltac:(done) Hr) as (r & m & Em & _ & Hm).
  destruct r as [out|]; [|destruct Hm; lia]. destruct Hm as (_ & [Hown _] & Hm).
  unfold batch_at. rewrite Nat.mul_0_r, drop_0.
  exists (set_batcher (BProcess out) (set_mempool m s)). eexists.
  unfold batch_step. rewrite Hb, Em. cbn [mbind option_bind]. split; [done|].
  cbn -[batchSize GenerateBatchCommitment]. rewrite Hown. cbn -[batchSize GenerateBatchCommitment].
  split; [done|]. done.
Qed.

Fixpoint batch_run (bs : list batch_branch) (s : sequencer) : option sequencer :=
  match bs with
  | [] => Some s
  | b :: bs => s ← batch_step b s; batch_run bs s
  end.

(** C29: the batch goroutine keeps up.  Waiting in mempool.DrainWait and left to
    run, it processes the mempool's transactions in batches of exactly 1000,
    oldest first, until fewer than 1000 remain, and then waits again; it hands
    the commitment of each of these batches to the publisher, in order, exactly
    if this node is to publish. *)
Theorem pipeline_progress s q (publish : bool) :
  batcher s = BWait → cancelled s = false → rep (mempool s) q →
  ∃ bs s' new q', batch_run bs s = Some s' ∧ batcher s' = BWait ∧
    rep (mempool s') q' ∧ (Z.of_nat (length q') < batchSize)%Z ∧
    batches s' = batches s ++ new ∧ concat new ++ q' = q ∧
    Forall (λ b, Z.of_nat (length b) = batchSize) new ∧
    published s' = published s ++
      (if publish then GenerateBatchCommitment <$> new else []).
Proof.
  remember (length q) as n eqn:Hn. revert s q Hn.
  induction n as [n IH] using (well_founded_induction Nat.lt_wf_0). intros s q Hn Hb Hc Hr.
  destruct (Z.ltb_spec (Z.of_nat (length q)) batchSize) as [Hlt|Hge].
  { exists [], s, ([] : list (list EncryptedTransaction)), q. rewrite !app_nil_r.
    by destruct publish; rewrite ?app_nil_r. }
  destruct (batch_ready s q publish Hb Hr Hge)
    as (s1 & s2 & E1 & E2 & _ & Hbs & Hpub & Hr2 & Hb2 & Hc2).
  set (s3 := set_batcher BWait s2).
  assert (batch_step BSelect s2 = Some s3) as E3.
  { unfold batch_step. rewrite Hb2, Hc2, Hc. done. }
  destruct (IH (length (drop (Z.to_nat batchSize) q))) with (s := s3) (q := drop (Z.to_nat batchSize) q)
    as (bs & s' & new & q' & E & Hw & Hr' & Hl & Hbs' & Hq & Hsz & Hpub'); [|done|done|by cbn; congruence|done|].
  { rewrite length_drop. unfold batchSize in *. lia. }
  exists (BPoll Tick :: BRun publish :: BSelect :: bs), s', (batch_at 0 q :: new), q'.
  cbn [batch_run]. rewrite E1. cbn [mbind option_bind]. rewrite E2. cbn [mbind option_bind].
  rewrite E3. cbn [mbind option_bind]. split_and!; [done..| | | |].
  - rewrite Hbs'. cbn. by rewrite Hbs, <- app_assoc.
  - cbn [concat]. rewrite <- app_assoc, Hq. unfold batch_at. rewrite Nat.mul_0_r, drop_0.
    apply take_drop.
  - constructor; [|done]. unfold batch_at. rewrite Nat.mul_0_r, drop_0, length_take. unfold batchSize in *. lia.
  - rewrite Hpub'. cbn [published s3 set_batcher]. rewrite Hpub, <- app_assoc.
    by destruct publish.
Qed.

End pipeline.

(** ** Two sequencers *)

(** The batches of a sequencer are determined by the committed sequence. *)
Lemma batches_prefix (bs1 bs2 : list (list EncryptedTransaction)) r1 r2 :
  Forall (λ b, Z.of_nat (length b) = batchSize) bs1 →
  Forall (λ b, Z.of_nat (length b) = batchSize) bs2 →
  concat bs1 ++ r1 = concat bs2 ++ r2 → length bs1 ≤ length bs2 → bs1 `prefix_of` bs2.
Proof.
  intros H1. revert bs2. induction H1 as [|b1 bs1 Hb1 _ IH]; intros bs2 H2 E Hlen;
    [by apply prefix_nil|].
  destruct H2 as [|b2 bs2 Hb2 H2]; cbn in Hlen; [lia|]. cbn in E. rewrite <- !app_assoc in E.
  apply app_inj_1 in E as [-> E]; [|lia]. apply prefix_cons, IH; [done|done|lia].
Qed.

(** Two sequencers, each on its own ordered log and of any implementation, whose
    committed sequences extend one another, have computed sequences of batch
    commitments that extend one another, whatever the timing of their
    goroutines. *)
Lemma commitments_comparable {L1 L2} `{OrderedLogLaws L1} `{OrderedLogLaws L2} g1 g2 db1 db2 ds1 ds2
    (s1 : sequencer (L := L1)) (s2 : sequencer (L := L2)) :
  pipe_reachable g1 db1 ds1 s1 → pipe_reachable g2 db2 ds2 s2 →
  committed (slog s1) `prefix_of` committed (slog s2) →
  commitments s1 `prefix_of` commitments s2 ∨ commitments s2 `prefix_of` commitments s1.
Proof.
  intros Hr1 Hr2 [k Hk].
  destruct (committed_split _ _ _ s1 Hr1) as (r1 & E1 & Hs1 & ->).
  destruct (committed_split _ _ _ s2 Hr2) as (r2 & E2 & Hs2 & ->).
  rewrite E1, E2, <- app_assoc in Hk.
  destruct (Nat.le_ge_cases (length (batches s1)) (length (batches s2))) as [Hle|Hge].
  - left. destruct (batches_prefix _ _ _ _ Hs1 Hs2 (eq_sym Hk) Hle) as [l ->].
    rewrite fmap_app. by apply prefix_app_r.
  - right. destruct (batches_prefix _ _ _ _ Hs2 Hs1 Hk Hge) as [l ->].
    rewrite fmap_app. by apply prefix_app_r.
Qed.

(** ** The sequencer in local mode, executable *)

Inductive pipe_event :=
| PLog (e : event)
| PCall (d x : nat)
| PCollect
| PBatch (b : batch_branch)
| PCancel.

Section schedules.
Context (DecryptBatch : list bytes → option (list bytes)) (DecryptSingle : bytes → option bytes).

Definition pipe_exec (e : pipe_event) (s : sequencer (L := TxQueue)) : option sequencer :=
  match e with
  | PLog e =>
      o ← log_event e;
      match o with
      | None => q ← step e (slog s); Some (set_slog q s)
      | Some _ => None
      end
  | PCall d x =>
      match collector s with
      | CLoop => q ← step (EDrainWait d x 1) (slog s); Some (set_collector (CWait d) (set_slog q s))
      | _ => None
      end
  | PCollect => collect doubling s
  | PBatch b => batch_step doubling DecryptBatch DecryptSingle b s
  | PCancel => Some (cancel s)
  end.

Fixpoint pipe_run (es : list pipe_event) (s : sequencer (L := TxQueue)) : option sequencer :=
  match es with
  | [] => Some s
  | e :: es => s ← pipe_exec e s; pipe_run es s
  end.

Abbreviation local_reachable := (pipe_reachable doubling DecryptBatch DecryptSingle (L := TxQueue)).

Lemma pipe_exec_reachable e s s' : pipe_exec e s = Some s' → local_reachable s → local_reachable s'.
Proof.
  intros E Hs. eapply pipe_next; [done|]. destruct e as [e|d x| |b|]; cbn in E.
  - apply bind_Some in E as ([o|] & Ee & E); [done|]. apply bind_Some in E as (q & Eq & [= <-]).
    apply P_log. by exists e.
  - destruct (collector s) eqn:Ec; try done. apply bind_Some in E as (q & Eq & [= <-]).
    apply P_call; [done|]. by exists (EDrainWait d x 1).
  - by apply P_collect.
  - by eapply P_batch.
  - injection E as <-. apply P_cancel.
Qed.

Lemma pipe_run_reachable es s s' : pipe_run es s = Some s' → local_reachable s → local_reachable s'.
Proof.
  revert s. induction es as [|e es IH]; intros s; cbn; [by intros [= <-]|].
  intros (s1 & E & Hrun)%bind_Some Hs. eapply IH; [done|]. by eapply pipe_exec_reachable.
Qed.

(** ** A run that fills the mempool *)

Lemma local_log es s q :
  run es (slog s) = Some q → Forall (λ e, log_event e = Some None) es →
  local_reachable s → local_reachable (set_slog q s).
Proof.
  intros Hrun Hes. revert s Hrun. induction Hes as [|e es He _ IH]; intros s Hrun Hs.
  - injection Hrun as <-. by destruct s.
  - cbn in Hrun. apply bind_Some in Hrun as (q1 & E & Hrun).
    change (set_slog q s) with (set_slog q (set_slog q1 s)). apply IH; [done|].
    eapply pipe_next; [done|]. apply P_log. by exists e.
Qed.

(** Both goroutines wait, the queue is idle and empty, and [n] calls and [n]
    drains have been made. *)
Record waiting (n : nat) (s : sequencer (L := TxQueue)) : Prop := {
  w_ready : ready (slog s);
  w_ch : ch (slog s) = [];
  w_ctxs : ctxs (slog s) = ∅;
  w_calls : ∀ c, n ≤ c → calls (slog s) !! c = None;
  w_drains : ∀ d, n ≤ d → drains (slog s) !! d = None;
  w_collector : collector s = CLoop;
  w_batcher : batcher s = BWait;
  w_batches : batches s = [];
  w_cancelled : cancelled s = false
}.

Definition drained (n : nat) (tx : EncryptedTransaction) (q : TxQueue) : TxQueue :=
  drain_return n (DrainCall (Some 0) 1 [tx] None) None
    (drain_recv n (DrainCall (Some 0) 1 [] None) tx
      (set_ch [] (set_drains (<[n := DrainCall (Some 0) 1 [] None]> (drains q)) q))).

(** The collector takes the only committed transaction into the mempool. *)
Lemma collect_one n tx s pool :
  panicked (slog s) = false → ch (slog s) = [tx] → drains (slog s) !! n = None →
  collector s = CLoop → rep (mempool s) pool → local_reachable s →
  ∃ m, rep m (pool ++ [tx]) ∧
    local_reachable (set_collector CLoop (set_mempool m (set_slog (drained n tx (slog s)) s))).
Proof.
  intros Hp Hch Hn Hco Hr Hs. set (k := DrainCall (Some 0) 1 [] None).
  set (q1 := set_drains (<[n := k]> (drains (slog s))) (slog s)).
  destruct (Add_spec doubling (mempool s) pool tx Hr) as (m & Em & Hm & _).
  exists m. split; [done|].
  eapply (pipe_run_reachable
    [PCall n 0; PLog (EDrainCall n DRecv); PLog (EDrainCall n DFull); PCollect; PCollect; PCollect]);
    [|exact Hs].
  cbn [pipe_run pipe_exec]. rewrite Hco.
  assert (step (EDrainWait n 0 1) (slog s) = Some q1) as ->.
  { unfold step, drain_begin. by rewrite Hp, Hn. }
  cbn [mbind option_bind log_event slog set_slog set_collector].
  rewrite (drain_recv_step n k tx []); [|done|cbn; by rewrite lookup_insert_eq|done|done|done].
  cbn [mbind option_bind log_event slog set_slog set_collector].
  assert (step (EDrainCall n DFull) (drain_recv n k tx (set_ch [] q1)) = Some (drained n tx (slog s)))
    as ->.
  { unfold step, drain_step. cbn. by rewrite Hp, lookup_insert_eq. }
  cbn [mbind option_bind]. unfold collect. cbn [collector set_slog set_collector].
  assert (drain_result (drained n tx (slog s)) n = Some ([tx], false)) as Hres.
  { cbn. by rewrite lookup_insert_eq. }
  cbn [slog set_slog set_collector]. rewrite Hres. cbn [mbind option_bind].
  cbn [collector set_slog set_collector mempool]. rewrite Em. done.
Qed.

Lemma waiting_next n s pool :
  waiting n s → rep (mempool s) pool → local_reachable s →
  ∃ s' tx, local_reachable s' ∧ waiting (S n) s' ∧ rep (mempool s') (pool ++ [tx]) ∧
    stamps (slog s') = (stamps (slog s) + 1)%Z ∧ Ciphertext tx = [].
Proof.
  intros [Hrd Hch Hcx Hcs Hds Hco Hb Hbs Hca] Hr Hs.
  destruct (submit_commits n 0 [] 0 (slog s) Hrd (Hcs n (le_n n)))
    as (q & E & Hp & Hq & Hx & _ & Hd & Ha & Hk & [Hdr Hun] & Hsub & Hcl & Hcap & Hst);
    [by rewrite Hcx|].
  rewrite Hch in Hq. set (tx := next_tx (slog s) [] 0) in *.
  pose proof (local_log _ _ _ E ltac:(by repeat constructor) Hs) as Hs1.
  destruct (collect_one n tx (set_slog q s) pool Hp Hq) as (m & Hm & Hs2);
    [cbn; rewrite Hdr; by apply Hds|done..|].
  eexists _, tx. split; [exact Hs2|]. split; [|split; [done|split; [exact Hst|done]]]. split; cbn; try done.
  - destruct Hrd as (_ & _ & _ & _ & _ & Hroom). rewrite Hch in Hroom.
    unfold ready. cbn. rewrite Hcap. split_and!; try done. 
  - by rewrite Hx.
  - intros c Hc. rewrite Hun by lia. apply Hcs. lia.
  - intros d Hd'. rewrite !lookup_insert_ne by lia. rewrite Hdr. apply Hds. lia.
Qed.

Lemma waiting_fill n :
  ∃ s pool, local_reachable s ∧ waiting n s ∧ rep (mempool s) pool ∧ length pool = n ∧
    stamps (slog s) = Z.of_nat n ∧ Forall (λ tx, Ciphertext tx = []) pool.
Proof.
  induction n as [|n (s & pool & Hs & Hw & Hr & Hlen & Hst & Hct)].
  - set (s0 := start (empty_queue 1)). exists (set_batcher BWait s0), [].
    assert (local_reachable s0) as Hs0.
    { apply pipe_start; [|done]. split; [|done]. by eapply reachable_new, (empty_queue_new 1). }
    split; [|split; [|split; [exact (NewEncryptedMempool_rep ∅ 1024)|done]]].
    + eapply pipe_next; [exact Hs0|]. by apply (P_batch _ _ _ BSelect).
    + split; try done. unfold ready. cbn. split_and!; try done. lia.
  - destruct (waiting_next n s pool Hw Hr Hs) as (s' & tx & Hs' & Hw' & Hr' & Hst' & Htx).
    exists s', (pool ++ [tx]). split_and!; try done; [rewrite length_app; cbn; lia|lia|].
    apply Forall_app. by split; [|constructor].
Qed.

(** A reachable sequencer that has processed a batch. *)
Lemma one_batch_processed :
  ∃ s b, local_reachable s ∧ batches s = [b] ∧ ids_fit (slog s) ∧ Forall (λ tx, Ciphertext tx = []) b.
Proof.
  destruct (waiting_fill (Z.to_nat batchSize)) as (s & pool & Hs & [] & Hr & Hlen & Hst & Hct).
  destruct (batch_ready doubling DecryptBatch DecryptSingle s pool true)
    as (s1 & s2 & E1 & E2 & El & Hb & _); [done|done|lia|].
  exists s2, (batch_at 0 pool). rewrite Hb, w_batches0, El. split_and!; [|done| |].
  - eapply pipe_next; [eapply pipe_next; [exact Hs|]|]; by eapply P_batch.
  - cbn. rewrite Hst. done.
  - by apply Forall_take, Forall_drop.
Qed.

End schedules.

(** ** Witnesses *)

Abbreviation local_reachable := (pipe_reachable doubling (λ _, Some []) (λ _, Some []) (L := TxQueue)).

Lemma pipeline_batches_witness :
  ∃ s b, local_reachable s ∧ batches s !! 0 = Some b ∧ Z.of_nat (length b) = 1000%Z ∧
    b = batch_at 0 (committed (slog s)).
Proof.
  destruct (one_batch_processed (λ _, Some []) (λ _, Some [])) as (s & b & Hs & Hb & _).
  apply (f_equal (λ l, l !! 0)) in Hb.
  destruct (pipeline_batches doubling (λ _, Some []) (λ _, Some []) s 0 b Hs Hb) as (Hl & E & _).
  by exists s, b.
Defined.

Lemma pipeline_no_loss_witness :
  ∃ s pool fl q cur, local_reachable s ∧ length pool = 7 ∧ rep (mempool s) pool ∧
    (taken (slog s)).*2 = concat (batches s) ++ fl ++ q ++ hand (collector s) ++ cur.
Proof.
  destruct (waiting_fill (λ _, Some []) (λ _, Some []) 7) as (s & pool & Hs & _ & Hr & Hlen & _).
  destruct (pipeline_no_loss doubling (λ _, Some []) (λ _, Some []) s Hs)
    as (fl & q & cur & _ & _ & E & _).
  by exists s, pool, fl, q, cur.
Defined.

Lemma pipeline_fifo_witness :
  ∃ s b, local_reachable s ∧ batches s !! 0 = Some b ∧
    StronglySorted Z.lt (ID <$> concat (batches s)).
Proof.
  destruct (one_batch_processed (λ _, Some []) (λ _, Some [])) as (s & b & Hs & Hb & Hf & _). exists s, b.
  apply (f_equal (λ l, l !! 0)) in Hb. split_and!; [done..|]. exact (pipeline_fifo doubling (λ _, Some []) (λ _, Some []) s Hs Hf).
Defined.

Lemma pipeline_progress_witness :
  ∃ s pool bs s' new q', local_reachable s ∧ rep (mempool s) pool ∧ length pool = Z.to_nat 2345 ∧
    batch_run doubling (λ _, Some []) (λ _, Some []) bs s = Some s' ∧
    rep (mempool s') q' ∧ (Z.of_nat (length q') < batchSize)%Z ∧ concat new ++ q' = pool ∧
    Forall (λ b, Z.of_nat (length b) = batchSize) new.
Proof.
  destruct (waiting_fill (λ _, Some []) (λ _, Some []) (Z.to_nat 2345)) as (s & pool & Hs & Hw & Hr & Hlen & _).
  destruct (pipeline_progress doubling (λ _, Some []) (λ _, Some []) s pool true
    (w_batcher _ _ Hw) (w_cancelled _ _ Hw) Hr) as (bs & s' & new & q' & E & _ & H1 & H2 & _ & H3 & H4 & _).
  by exists s, pool, bs, s', new, q'.
Defined.
