(* ===== verification/ReceptionStore.v ===== *)
(** pkg/sequencing/reception_store.go: the append-only store of reception
    proofs.  Every method holds the lock, so a concurrent execution is a
    sequence of whole operations on the list. *)

From S2P Require Import Prelude Commitment.

Record ReceptionStore := MkStore { proofs : list ReceptionProof }.

(** NewReceptionStore: the capacity of 1024 is not observable. *)
Definition NewReceptionStore : ReceptionStore := MkStore [].

(** Add *)
Definition store_Add (s : ReceptionStore) (p : ReceptionProof) : ReceptionStore :=
  MkStore (proofs s ++ [p]).

Definition Count (s : ReceptionStore) : Z := Z.of_nat (length (proofs s)).

Definition Last (s : ReceptionStore) : ReceptionProof * bool :=
  if decide (Count s = 0%Z) then (zero_proof, false)
  else match proofs s !! (length (proofs s) - 1) with
       | Some p => (p, true)
       | None => (zero_proof, false)
       end.

Lemma Count_Add s p : Count (store_Add s p) = (Count s + 1)%Z.
Proof. unfold Count, store_Add. cbn. rewrite length_app. cbn. lia. Qed.

Lemma Last_Add s p : Last (store_Add s p) = (p, true).
Proof.
  unfold Last. rewrite Count_Add, decide_False by (unfold Count; lia). cbn.
  rewrite length_app. cbn. by rewrite Nat.add_sub, list_lookup_middle.
Qed.

(** The proof that SubmitTx stores for a committed transaction. *)
Definition proof_of (tx : EncryptedTransaction) : ReceptionProof :=
  {| SequenceID := ID tx;
     ArrivedUnix := UnixNano (ArrivedAt tx);
     Commitment := GenerateReceptionCommitment tx |}.
