(* ===== verification/Server.v ===== *)
(** internal/rpc/server.go: the gRPC server in front of the ordered log.

    [SubmitTx] and [JoinCluster] are functions of what the server reads from
    its environment (the backend and, for Raft, its view of the leader), of the
    log's answer and of the gRPC layer; [proxy_step] interleaves concurrent
    calls of getProxyClient at its two critical sections. *)

From S2P Require Import Prelude GoStrings Commitment TxQueue ReceptionStore.

Section server.
(** The gRPC library: connections, clients made from them, and the errors of
    dialling, of remote calls and of the ordered log. *)
Context (conn client dial_error remote_error log_error : Type).
Context (NewRPCServiceClient : conn → client).

Inductive rpc_error :=
| ErrNoLeader
| ErrConnectLeader (addr : bytes) (e : dial_error)
| ErrSubmit (e : log_error)
| ErrRemote (e : remote_error).

(** SubmitAck and JoinResponse; a nil pointer is [None]. *)
Record SubmitAck := MkAck { Accepted : bool }.

Inductive join_message :=
| MsgNoDynamicJoins
| MsgNoLeader
| MsgAddVoter (e : log_error)
| MsgRemote (text : bytes).

Record JoinResponse := MkJoin { Success : bool; ErrorMessage : option join_message }.

(** The ordering backend as the handlers see it. *)
Inductive backend :=
| LocalLog
| RaftLog (IsLeader : bool) (LeaderAddress : bytes).

(** The server's own state; [sdone] is the closed state of the channel [done].
    The fields [log] and [publisher] never change: what the handlers ask of the
    log is their argument, and the publisher is [Settlement.server_publisher]. *)
Record Server := MkServer {
  sproofs : ReceptionStore;
  sdone : bool;
  proxyCache : gmap bytes client;
  conns : gmap bytes conn
}.

Definition NewServer : Server :=
  {| sproofs := NewReceptionStore; sdone := false; proxyCache := ∅; conns := ∅ |}.

(** ** getProxyClient *)

(** The fast path, under the read lock. *)
Definition proxy_lookup (s : Server) (addr : bytes) : option client := proxyCache s !! addr.

(** The slow path, under the write lock: [dialed] is what DialContext returns. *)
Definition proxy_dial (s : Server) (addr : bytes) (dialed : res dial_error conn)
  : res dial_error client * Server :=
  match proxyCache s !! addr with
  | Some c => (Ok c, s)
  | None =>
      match dialed with
      | Err e => (Err e, s)
      | Ok co =>
          let c := NewRPCServiceClient co in
          (Ok c, {| sproofs := sproofs s; sdone := sdone s;
                    proxyCache := <[addr := c]> (proxyCache s);
                    conns := <[addr := co]> (conns s) |})
      end
  end.

(** A call that no other goroutine interrupts. *)
Definition getProxyClient (s : Server) (addr : bytes) (dialed : res dial_error conn)
  : res dial_error client * Server :=
  match proxy_lookup s addr with
  | Some c => (Ok c, s)
  | None => proxy_dial s addr dialed
  end.

(** [Close]: closing [done] twice panics.  Returns the connections it closes. *)
Definition server_Close (s : Server) : option (list conn * Server) :=
  if sdone s then None
  else Some ((map_to_list (conns s)).*2,
             {| sproofs := sproofs s; sdone := true; proxyCache := proxyCache s;
                conns := conns s |}).

(** ProofCount *)
Definition ProofCount (s : Server) : Z := Count (sproofs s).

Definition add_proof (p : ReceptionProof) (s : Server) : Server :=
  {| sproofs := store_Add (sproofs s) p; sdone := sdone s;
     proxyCache := proxyCache s; conns := conns s |}.

(** ** SubmitTx *)

(** The leader's gRPC address, derived from its Raft address. *)
Definition leader_grpc_addr (leader : bytes) : bytes :=
  let host := match SplitHostPort leader with Ok (h, _) => h | Err _ => leader end in
  JoinHostPort host (str "12345").

(** [dial] is the answer of DialContext for an address, [remote] the answer of
    the leader's SubmitTx, [submit] that of the log's SubmitWithReceipt. *)
Definition SubmitTx (b : backend) (dial : bytes → res dial_error conn)
    (remote : client → bytes → option SubmitAck * option rpc_error)
    (submit : bytes → res log_error EncryptedTransaction)
    (Ciphertext : bytes) (s : Server) : (option SubmitAck * option rpc_error) * Server :=
  let commit :=
    match submit Ciphertext with
    | Err e => ((Some (MkAck false), Some (ErrSubmit e)), s)
    | Ok tx => ((Some (MkAck true), None), add_proof (proof_of tx) s)
    end in
  match b with
  | RaftLog false leaderRaftAddr =>
      if decide (leaderRaftAddr = []) then ((None, Some ErrNoLeader), s)
      else
        let leaderGRPCAddr := leader_grpc_addr leaderRaftAddr in
        let '(r, s) := getProxyClient s leaderGRPCAddr (dial leaderGRPCAddr) in
        match r with
        | Err e => ((None, Some (ErrConnectLeader leaderGRPCAddr e)), s)
        | Ok c => (remote c Ciphertext, s)
        end
  | RaftLog true _ | LocalLog => commit
  end.

(** ** JoinCluster *)

Definition JoinCluster (b : backend) (dial : bytes → res dial_error conn)
    (remote : client → bytes → bytes → option JoinResponse * option rpc_error)
    (AddVoter : bytes → bytes → option log_error)
    (NodeId RaftAddress : bytes) (s : Server)
  : (option JoinResponse * option rpc_error) * Server :=
  match b with
  | LocalLog => ((Some (MkJoin false (Some MsgNoDynamicJoins)), None), s)
  | RaftLog false leaderRaftAddr =>
      if decide (leaderRaftAddr = []) then ((Some (MkJoin false (Some MsgNoLeader)), None), s)
      else
        let leaderGRPCAddr := leader_grpc_addr leaderRaftAddr in
        let '(r, s) := getProxyClient s leaderGRPCAddr (dial leaderGRPCAddr) in
        match r with
        | Err e => ((None, Some (ErrConnectLeader leaderGRPCAddr e)), s)
        | Ok c => (remote c NodeId RaftAddress, s)
        end
  | RaftLog true _ =>
      match AddVoter NodeId RaftAddress with
      | Some e => ((Some (MkJoin false (Some (MsgAddVoter e))), None), s)
      | None => ((Some (MkJoin true None), None), s)
      end
  end.

(** ** Start

    [listen] is the answer of net.Listen, [serve] what Serve returns with a
    server registered. *)

Inductive start_error (E : Type) := ErrListen (e : E) | ErrServe (e : E).
Arguments ErrListen {E} e.
Arguments ErrServe {E} e.

Definition Start {E} (listen : option E) (serve : Server → option E) : option (start_error E) :=
  match listen with
  | Some e => Some (ErrListen e)
  | None =>
      let rpcServer := NewServer in
      match serve rpcServer with
      | Some e => Some (ErrServe e)
      | None => None
      end
  end.

(** ** Concurrent calls of getProxyClient *)

Inductive proxy_pc :=
| PFast (addr : bytes)
| PSlow (addr : bytes)
| PReturned (addr : bytes) (r : res dial_error client).

(** [pdials] is history: the successful dials. *)
Record proxies := Proxies {
  pserver : Server;
  pcalls : gmap nat proxy_pc;
  pdials : list (bytes * conn)
}.

Inductive proxy_event :=
| PxCall (g : nat) (addr : bytes)
| PxStep (g : nat) (dialed : res dial_error conn).

(** One critical section of call [g]. *)
Definition proxy_step (e : proxy_event) (p : proxies) : option proxies :=
  match e with
  | PxCall g addr =>
      match pcalls p !! g with
      | Some _ => None
      | None => Some (Proxies (pserver p) (<[g := PFast addr]> (pcalls p)) (pdials p))
      end
  | PxStep g dialed =>
      pc ← pcalls p !! g;
      match pc with
      | PFast addr =>
          let pc' := match proxy_lookup (pserver p) addr with
                     | Some c => PReturned addr (Ok c)
                     | None => PSlow addr
                     end in
          Some (Proxies (pserver p) (<[g := pc']> (pcalls p)) (pdials p))
      | PSlow addr =>
          let '(r, s) := proxy_dial (pserver p) addr dialed in
          let new := match proxyCache (pserver p) !! addr, dialed with
                     | None, Ok co => [(addr, co)]
                     | _, _ => []
                     end in
          Some (Proxies s (<[g := PReturned addr r]> (pcalls p)) (pdials p ++ new))
      | PReturned _ _ => None
      end
  end.

Fixpoint proxy_run (es : list proxy_event) (p : proxies) : option proxies :=
  match es with
  | [] => Some p
  | e :: es => p ← proxy_step e p; proxy_run es p
  end.

Definition no_proxies : proxies := Proxies NewServer ∅ [].

(** ** Lemmas *)

Record proxy_inv (p : proxies) : Prop := {
  px_cache : proxyCache (pserver p) = NewRPCServiceClient <$> conns (pserver p);
  px_dials : map_to_list (conns (pserver p)) ≡ₚ pdials p;
  px_open : sdone (pserver p) = false;
  px_returned : ∀ g addr c, pcalls p !! g = Some (PReturned addr (Ok c)) →
                  proxyCache (pserver p) !! addr = Some c
}.

Lemma proxy_inv_start : proxy_inv no_proxies.
Proof. by split. Qed.

Lemma proxy_dial_inv p addr dialed :
  proxy_inv p → proxyCache (pserver p) !! addr = None →
  let '(r, s) := proxy_dial (pserver p) addr dialed in
  let new := match dialed with Ok co => [(addr, co)] | Err _ => [] end in
  proxyCache s = NewRPCServiceClient <$> conns s ∧
  map_to_list (conns s) ≡ₚ pdials p ++ new ∧ sdone s = false ∧
  proxyCache (pserver p) ⊆ proxyCache s ∧ (∀ c, r = Ok c → proxyCache s !! addr = Some c).
Proof.
  intros [Hc Hd Ho _] Hn. unfold proxy_dial. rewrite Hn.
  destruct dialed as [co|e]; cbn; [|by rewrite app_nil_r].
  rewrite Hc, lookup_fmap in Hn. apply fmap_None in Hn.
  split_and!; [by rewrite fmap_insert, Hc| |done| |].
  - rewrite map_to_list_insert, Hd by done. apply Permutation_cons_append.
  - apply insert_subseteq. by rewrite Hc, lookup_fmap, Hn.
  - intros c [= <-]. by rewrite lookup_insert_eq.
Qed.

Lemma proxy_step_inv e p p' : proxy_inv p → proxy_step e p = Some p' → proxy_inv p'.
Proof.
  intros Hi E. destruct e as [g addr|g dialed]; cbn in E.
  - destruct (pcalls p !! g) eqn:Eg; [done|]. injection E as <-. destruct Hi. split; try done.
    cbn. intros g' addr' c. rewrite lookup_insert. case_decide; [done|]. apply px_returned0.
  - apply bind_Some in E as (pc & Eg & E). destruct pc as [addr|addr|]; [| |done].
    + injection E as <-. destruct Hi. split; try done. cbn. intros g' addr' c.
      rewrite lookup_insert. case_decide; [|by eauto]. unfold proxy_lookup.
      destruct (proxyCache (pserver p) !! addr) eqn:El; intros; by simplify_eq.
    + destruct (proxyCache (pserver p) !! addr) as [c|] eqn:Hn.
      * unfold proxy_dial in E. rewrite Hn in E. cbn in E. injection E as <-.
        destruct Hi. split; cbn; rewrite ?app_nil_r; try done. intros g' addr' c'.
        rewrite lookup_insert. case_decide; [intros; by simplify_eq|by eauto].
      * pose proof (proxy_dial_inv p addr dialed Hi Hn) as H.
        destruct (proxy_dial (pserver p) addr dialed) as [r s]. injection E as <-.
        destruct H as (Hc & Hd & Ho & Hsub & Hr). split; cbn; [done|by destruct dialed|done|].
        intros g' addr' c'. rewrite lookup_insert. case_decide.
        -- intros [= -> ->]. by apply Hr.
        -- intros Hg. eapply lookup_weaken; [|done]. by eapply px_returned.
Qed.

Lemma proxy_run_inv es p p' : proxy_inv p → proxy_run es p = Some p' → proxy_inv p'.
Proof.
  revert p. induction es as [|e es IH]; intros p Hi E; cbn in E; [by simplify_eq|].
  apply bind_Some in E as (p1 & E1 & E). eapply IH; [|done]. by eapply proxy_step_inv.
Qed.

(** ** Properties *)

(** Whatever concurrent calls of getProxyClient do and however their
    critical sections interleave, at most one connection per address is kept or
    even dialled successfully, all calls for an address that succeed return the
    same client, and Close closes exactly the connections that were dialled,
    each once. *)
Theorem proxy_single_connection es p :
  proxy_run es no_proxies = Some p →
  NoDup (pdials p).*1 ∧
  (∀ g g' addr c c', pcalls p !! g = Some (PReturned addr (Ok c)) →
     pcalls p !! g' = Some (PReturned addr (Ok c')) → c = c') ∧
  ∃ cs s', server_Close (pserver p) = Some (cs, s') ∧ cs ≡ₚ (pdials p).*2.
Proof.
  intros Hrun. destruct (proxy_run_inv _ _ _ proxy_inv_start Hrun) as [Hc Hd Ho Hr].
  split_and!.
  - rewrite <- Hd. apply NoDup_fst_map_to_list.
  - intros g g' addr c c' H1%Hr H2%Hr. congruence.
  - unfold server_Close. rewrite Ho. do 2 eexists. split; [done|]. by rewrite Hd.
Qed.

(** Forwarding ends with Close.  main calls Close before GracefulStop has
    waited for the requests in flight: a follower's handler that gets its client
    after Close, for any leader already known, gets one whose connection has just
    been closed, without dialling again. *)
Theorem closed_clients es p closed s' addr c dialed :
  proxy_run es no_proxies = Some p → server_Close (pserver p) = Some (closed, s') →
  proxyCache (pserver p) !! addr = Some c →
  getProxyClient s' addr dialed = (Ok c, s') ∧ ∃ co, co ∈ closed ∧ c = NewRPCServiceClient co.
Proof.
  intros Hrun Hcl Hc. destruct (proxy_run_inv _ _ _ proxy_inv_start Hrun) as [Hcache _ Ho _].
  unfold server_Close in Hcl. rewrite Ho in Hcl. injection Hcl as <- <-. split.
  - unfold getProxyClient, proxy_lookup. cbn. by rewrite Hc.
  - rewrite Hcache, lookup_fmap in Hc. apply fmap_Some in Hc as (co & Hco & ->). exists co. split; [|done].
    apply list_elem_of_fmap. exists (addr, co). split; [done|]. by apply elem_of_map_to_list.
Qed.

(** On the leader or a local node, SubmitTx acknowledges a transaction
    exactly if the log committed it, in which case the reception proof of the
    committed transaction (its ID, arrival time and commitment) is appended to
    the store; a log error gives a negative acknowledgement with the error and
    leaves the store alone.  The proxy cache is never touched. *)
Theorem SubmitTx_commits b dial remote submit ct s :
  (if b is RaftLog false _ then False else True) →
  let '(reply, s') := SubmitTx b dial remote submit ct s in
  proxyCache s' = proxyCache s ∧ conns s' = conns s ∧
  match submit ct with
  | Ok tx => reply = (Some (MkAck true), None) ∧
             ProofCount s' = (ProofCount s + 1)%Z ∧
             Last (sproofs s') =
               ({| SequenceID := ID tx; ArrivedUnix := UnixNano (ArrivedAt tx);
                   Commitment := GenerateReceptionCommitment tx |}, true)
  | Err e => reply = (Some (MkAck false), Some (ErrSubmit e)) ∧ s' = s
  end.
Proof.
  intros Hb. unfold SubmitTx, ProofCount. destruct b as [|[] addr]; [| |done];
    destruct (submit ct); try done; cbn -[Last Count store_Add];
    rewrite Count_Add, Last_Add; done.
Qed.

(** C32: forwarding is transparent.  A follower whose leader's Raft address is
    [host:port], and which has or gets a connection to [host:12345], gives the
    client exactly the reply that the server at [host:12345] gives, and neither
    submits to its own log nor stores a proof; the connection is kept for the
    next request, which reuses it without dialling. *)
Theorem SubmitTx_forwards host port c dial remote submit ct s :
  lbrack ∉ host → rbrack ∉ host → colon ∉ port → lbrack ∉ port → rbrack ∉ port →
  (proxyCache s !! JoinHostPort host (str "12345") = Some c ∨
   proxyCache s !! JoinHostPort host (str "12345") = None ∧
   ∃ co, dial (JoinHostPort host (str "12345")) = Ok co ∧ c = NewRPCServiceClient co) →
  let '(reply, s') := SubmitTx (RaftLog false (JoinHostPort host port)) dial remote submit ct s in
  reply = remote c ct ∧ sproofs s' = sproofs s ∧
  proxyCache s' !! JoinHostPort host (str "12345") = Some c ∧
  ∀ dial' submit' ct', 
    SubmitTx (RaftLog false (JoinHostPort host port)) dial' remote submit' ct' s' =
    (remote c ct', s').
Proof.
  intros H1 H2 H3 H4 H5 Hc.
  assert (leader_grpc_addr (JoinHostPort host port) = JoinHostPort host (str "12345")) as Ha.
  { unfold leader_grpc_addr. by rewrite SplitHostPort_JoinHostPort. }
  assert (JoinHostPort host port ≠ []) as Hne.
  { unfold JoinHostPort. destruct (IndexByte host colon); [done|]. by destruct host. }
  assert (∀ s0, proxyCache s0 !! JoinHostPort host (str "12345") = Some c →
    ∀ dial' submit' ct',
      SubmitTx (RaftLog false (JoinHostPort host port)) dial' remote submit' ct' s0 =
      (remote c ct', s0)) as Hcached.
  { intros s0 Hs0 dial' submit' ct'. unfold SubmitTx. rewrite decide_False, Ha by done.
    unfold getProxyClient, proxy_lookup. by rewrite Hs0. }
  destruct Hc as [Hc|(Hn & co & Hd & ->)].
  - rewrite Hcached by done. split_and!; try done. by apply Hcached.
  - unfold SubmitTx at 1. rewrite decide_False, Ha by done.
    unfold getProxyClient, proxy_lookup, proxy_dial. rewrite Hn, Hd. cbn.

    split_and!; try done; [by rewrite lookup_insert_eq|].
    apply Hcached. cbn. by rewrite lookup_insert_eq.
Qed.
End server.

Arguments PxCall {_ _} g addr.
Arguments PxStep {_ _} g dialed.

(** ** Witnesses *)

(** Two calls for one address that both miss the cache, and one that hits. *)
Definition proxy_race : list (proxy_event nat nat) :=
  [PxCall 1 (str "a"); PxCall 2 (str "a"); PxStep 1 (Ok 7); PxStep 2 (Ok 8); PxStep 2 (Ok 8);
   PxStep 1 (Ok 7); PxCall 3 (str "a"); PxStep 3 (Ok 9)].

Lemma proxy_single_connection_witness :
  ∃ p, proxy_run nat nat nat (λ co, co) proxy_race (no_proxies nat nat nat) = Some p ∧
    pdials _ _ _ p = [(str "a", 8)] ∧ NoDup (pdials _ _ _ p).*1.
Proof.
  assert (pdials nat nat nat <$> proxy_run nat nat nat (λ co, co) proxy_race (no_proxies nat nat nat)
          = Some [(str "a", 8)]) as Hd by (by vm_compute).
  apply fmap_Some in Hd as (p & E & Hd). exists p. split; [done|]. split; [done|].
  exact (proj1 (proxy_single_connection nat nat nat (λ co, co) proxy_race p E)).
Defined.

Definition sample_submit (ct : bytes) : res nat EncryptedTransaction :=
  Ok {| ID := 3; Ciphertext := ct; ArrivedAt := 9 |}.

Definition sample_server : Server nat nat := NewServer nat nat.

Definition no_remote (c : nat) (ct : bytes) : option SubmitAck * option (rpc_error nat unit nat) :=
  (None, Some (ErrRemote _ _ _ tt)).

Lemma closed_clients_witness :
  ∃ p closed s', proxy_run nat nat nat (λ co, co) proxy_race (no_proxies nat nat nat) = Some p ∧
    server_Close nat nat (pserver _ _ _ p) = Some (closed, s') ∧ 8 ∈ closed.
Proof.
  eexists _, _, _. split; [vm_compute; reflexivity|]. split; [vm_compute; reflexivity|].
  edestruct (closed_clients nat nat nat (λ co, co) proxy_race)
    with (addr := str "a") (c := 8) (dialed := @Err nat nat 0) as (_ & co & Hin & E);
    [vm_compute; reflexivity|vm_compute; reflexivity|vm_compute; reflexivity|].
  by rewrite <- E in Hin.
Defined.

Lemma SubmitTx_commits_witness :
  let '(reply, s') := SubmitTx nat nat nat unit nat (λ co, co) (RaftLog true []) (λ _, Err 0) no_remote
                        sample_submit (str "x") sample_server in
  reply = (Some (MkAck true), None) ∧ ProofCount nat nat s' = 1%Z.
Proof.
  pose proof (SubmitTx_commits nat nat nat unit nat (λ co, co) (RaftLog true []) (λ _, Err 0) no_remote
    sample_submit (str "x") sample_server I) as H.
  destruct (SubmitTx _ _ _ _ _ _ _ _ _ _ _ _) as [reply s'].
  destruct H as (_ & _ & -> & -> & _). done.
Defined.

(** The leader at 10.0.0.2 acknowledges everything. *)
Definition leader_reply (c : nat) (ct : bytes) : option SubmitAck * option (rpc_error nat unit nat) :=
  (Some (MkAck true), None).

Lemma SubmitTx_forwards_witness :
  let '(reply, s') := SubmitTx nat nat nat unit nat (λ co, co)
      (RaftLog false (JoinHostPort (str "10.0.0.2") (str "7000")))
      (λ a, if decide (a = str "10.0.0.2:12345") then Ok 5 else Err 0) leader_reply
      sample_submit (str "x") sample_server in
  reply = (Some (MkAck true), None) ∧ ProofCount nat nat s' = 0%Z.
Proof.
  pose proof (SubmitTx_forwards nat nat nat unit nat (λ co, co) (str "10.0.0.2") (str "7000") 5
    (λ a, if decide (a = str "10.0.0.2:12345") then Ok 5 else Err 0) leader_reply
    sample_submit (str "x") sample_server) as H.
  destruct (SubmitTx _ _ _ _ _ _ _ _ _ _ _ _) as [reply s'].
  destruct H as (-> & Hp & _).
  1-5: by apply (bool_decide_unpack _).
  - right. split; [done|]. by exists 5.
  - split; [done|]. unfold ProofCount. by rewrite Hp.
Defined.
