(* ===== verification/Ingress.v ===== *)
(** Concurrent SubmitTx handlers on a local node: internal/rpc/server.go lines
    171-186 over the ordering queue of pkg/sequencing/queue.go.

    Each handler is a goroutine: it is in SubmitWithReceipt, or about to store
    the reception proof of the transaction it got, or has replied.  Between the
    return of SubmitWithReceipt and the store's Add anything else can run. *)

From S2P Require Import Prelude Commitment TxQueue TxQueueInv TxQueueProps ReceptionStore.

Inductive handler :=
| HSubmit
| HStore (tx : EncryptedTransaction)
| HReplied (accepted : bool).

Record ingress := Ingress {
  iqueue : TxQueue;
  store : ReceptionStore;
  handlers : gmap nat handler
}.

Inductive ingress_event :=
| IRequest (c x : nat) (ciphertext : bytes)   (* a request arrives: handler [c] calls the queue *)
| IQueue (e : event)                          (* any other action on the queue *)
| IReturn (c : nat)                           (* SubmitWithReceipt returns to handler [c] *)
| IStore (c : nat).                           (* handler [c] stores the proof and replies *)

Definition is_submit (e : event) : bool := match e with ESubmit _ _ _ => true | _ => false end.

Definition ingress_step (e : ingress_event) (s : ingress) : option ingress :=
  match e with
  | IRequest c x ct =>
      match handlers s !! c with
      | Some _ => None
      | None => q ← step (ESubmit c x ct) (iqueue s);
                Some (Ingress q (store s) (<[c := HSubmit]> (handlers s)))
      end
  | IQueue e =>
      if is_submit e then None
      else q ← step e (iqueue s); Some (Ingress q (store s) (handlers s))
  | IReturn c =>
      h ← handlers s !! c;
      k ← calls (iqueue s) !! c;
      match h, sc_pc k with
      | HSubmit, SReturned r =>
          let h := match resp_err r with None => HStore (resp_tx r) | Some _ => HReplied false end in
          Some (Ingress (iqueue s) (store s) (<[c := h]> (handlers s)))
      | _, _ => None
      end
  | IStore c =>
      h ← handlers s !! c;
      match h with
      | HStore tx =>
          Some (Ingress (iqueue s) (store_Add (store s) (proof_of tx))
                  (<[c := HReplied true]> (handlers s)))
      | _ => None
      end
  end.

Fixpoint ingress_run (es : list ingress_event) (s : ingress) : option ingress :=
  match es with
  | [] => Some s
  | e :: es => s ← ingress_step e s; ingress_run es s
  end.

Definition ingress_start (q : TxQueue) : ingress := Ingress q NewReceptionStore ∅.

(** The proofs stored are those of [added], the calls whose handlers have
    acknowledged, each with the transaction committed for it. *)
Record ingress_inv (s : ingress) (added : list (nat * EncryptedTransaction)) : Prop := {
  in_reach : reachable (iqueue s);
  in_store : proofs (store s) = proof_of <$> added.*2;
  in_nodup : NoDup added.*1;
  in_sent : ∀ p, p ∈ added → p ∈ sent (iqueue s);
  in_hand : ∀ c tx, handlers s !! c = Some (HStore tx) → (c, tx) ∈ sent (iqueue s);
  in_acked : ∀ c, handlers s !! c = Some (HReplied true) ↔ c ∈ added.*1
}.

(** A receipt names a transaction committed for its call. *)
Lemma receipt_sent q c k r :
  reachable q → calls q !! c = Some k → sc_pc k = SReturned r → resp_err r = None →
  (c, resp_tx r) ∈ sent q.
Proof.
  intros Hr Hk Hpc He. pose proof (id_resp _ (i_data _ (inv_reachable q Hr)) c k r Hk (or_intror Hpc)) as H.
  unfold good_resp in H. by rewrite He in H.
Qed.

Lemma sent_mono e q q' p : step e q = Some q' → p ∈ sent q → p ∈ sent q'.
Proof.
  intros [_ He]%step_effect Hp. destruct (sent_step _ _ He) as [(? & ? & -> & _)|[-> _]]; [|done].
  apply elem_of_app. by left.
Qed.

Lemma ingress_queue_inv e s added q :
  ingress_inv s added → step e (iqueue s) = Some q →
  ingress_inv (Ingress q (store s) (handlers s)) added.
Proof.
  intros [Hr Hst Hnd Hs Hh Ha] E. split; cbn; try done.
  - by econstructor.
  - intros p Hp. by eapply sent_mono, Hs.
  - intros c tx Hc. by eapply sent_mono, Hh.
Qed.

Lemma ingress_handler_inv s added c h :
  ingress_inv s added → (∀ a, handlers s !! c ≠ Some (HReplied a)) →
  match h with HStore tx => (c, tx) ∈ sent (iqueue s) | HReplied true => False | _ => True end →
  ingress_inv (Ingress (iqueue s) (store s) (<[c := h]> (handlers s))) added.
Proof.
  intros [Hr Hst Hnd Hs Hh Ha] Hc Hok. split; cbn; try done.
  - intros c' tx. rewrite lookup_insert. case_decide; [|by apply Hh]. intros [= ->]. by subst.
  - intros c'. rewrite lookup_insert. case_decide as Hcc; [|by apply Ha]. subst c'. split.
    + intros [= ->]. done.
    + intros Hin%Ha. by apply Hc in Hin.
Qed.

Lemma ingress_step_inv e s s' added :
  ingress_inv s added → ingress_step e s = Some s' → ∃ added', ingress_inv s' added'.
Proof.
  intros Hi E. destruct e as [c x ct|e|c|c]; cbn in E.
  - destruct (handlers s !! c) eqn:Hc; [done|]. apply bind_Some in E as (q & E & [= <-]).
    exists added. pose proof (ingress_queue_inv _ _ _ _ Hi E) as Hi'.
    apply (ingress_handler_inv _ _ c HSubmit Hi'); [|done]. intros a. cbn. by rewrite Hc.
  - destruct (is_submit e); [done|]. apply bind_Some in E as (q & E & [= <-]).
    exists added. by eapply ingress_queue_inv.
  - apply bind_Some in E as (h & Hh & (k & Hk & E)%bind_Some).
    destruct h; [|done..]. destruct (sc_pc k) as [| |r] eqn:Hpc; [done..|]. injection E as <-.
    exists added. apply ingress_handler_inv; [done|intros a; by rewrite Hh|].
    destruct (resp_err r) eqn:He; [done|]. by eapply receipt_sent, He; [apply Hi|..].
  - apply bind_Some in E as (h & Hc & E). destruct h as [|tx|]; [done| |done].
    injection E as <-. destruct Hi as [Hr Hst Hnd Hs Hh Ha]. exists (added ++ [(c, tx)]).
    split; cbn; [done|by rewrite Hst, !fmap_app| | |..].
    + rewrite fmap_app. apply NoDup_app. split_and!; [done| |apply NoDup_singleton].
      intros c' Hin ->%list_elem_of_singleton. apply Ha in Hin. cbn in Hin. congruence.
    + intros p [Hp| ->%list_elem_of_singleton]%elem_of_app; [by apply Hs|by apply Hh].
    + intros c' tx'. rewrite lookup_insert. case_decide; [done|]. apply Hh.
    + intros c'. rewrite lookup_insert, fmap_app, elem_of_app. cbn.
      rewrite list_elem_of_singleton.
      case_decide; [naive_solver|]. rewrite Ha. naive_solver.
Qed.

Lemma ingress_start_inv q : reachable q → ingress_inv (ingress_start q) [].
Proof.
  intros Hr. split; cbn; try done.
  - constructor.
  - intros p Hp. set_solver.
  - intros c. rewrite lookup_empty. set_solver.
Qed.

Lemma ingress_run_inv es q s :
  reachable q → ingress_run es (ingress_start q) = Some s → ∃ added, ingress_inv s added.
Proof.
  intros Hr. assert (∃ added, ingress_inv (ingress_start q) added) as Hi by (eexists; by apply ingress_start_inv).
  generalize dependent (ingress_start q). clear q Hr. 
  induction es as [|e es IH]; intros s0 Hi; cbn; [by intros [= <-]|].
  intros (s1 & E & Hrun)%bind_Some. destruct Hi as [added Hi]. eapply IH; [|done].
  by eapply ingress_step_inv.
Qed.

(** ** Properties *)

(** C31: the audit trail is complete and exact.  In every execution of any
    number of concurrent SubmitTx calls, the store holds one reception proof
    for each positively acknowledged request and no other: that of the
    transaction the queue committed for the request.  No two proofs share a
    sequence ID. *)
Theorem ingress_proofs es q s :
  reachable q → ingress_run es (ingress_start q) = Some s → (stamps (iqueue s) < 2 ^ 64)%Z →
  NoDup (SequenceID <$> proofs (store s)) ∧
  ∃ added, proofs (store s) = proof_of <$> added.*2 ∧
    Count (store s) = Z.of_nat (length added) ∧ NoDup added.*1 ∧
    (∀ c, handlers s !! c = Some (HReplied true) ↔ c ∈ added.*1) ∧
    ∀ c tx, (c, tx) ∈ added → (c, tx) ∈ sent (iqueue s).
Proof.
  intros Hq Hrun Hlt. destruct (ingress_run_inv _ _ _ Hq Hrun) as (added & [Hr Hst Hnd Hs _ Ha]).
  split.
  - rewrite Hst, <- !list_fmap_compose.
    destruct (ii_sorted _ (i_ids _ (inv_reachable _ Hr)) Hlt) as [Hsort _].
    rewrite !fmap_app, <- list_fmap_compose in Hsort.
    apply StronglySorted_app_1_l, StronglySorted_lt_NoDup in Hsort.
    apply NoDup_fmap_2_strong; [|by eapply NoDup_fmap_1].
    intros p p' Hp Hp' E. by eapply (NoDup_fmap_inj (ID ∘ snd) (sent (iqueue s))); auto.
  - exists added. split_and!; try done; [|by auto].
    unfold Count. by rewrite Hst, !length_fmap.
Qed.

(** Two overlapping requests: the first is committed first, but the second
    handler reaches the store first. *)
Definition overtaking : list ingress_event :=
  [IRequest 1 0 (str "a"); IRequest 2 0 (str "b")] ++
  (IQueue <$> [ECall 1 SendReq; EAdmission LoopRecv; EAdmission (CheckDefault 5); EAdmission CommitCh;
               ECall 2 SendReq; EAdmission LoopRecv; EAdmission (CheckDefault 6); EAdmission CommitCh;
               ECall 1 RecvResp; ECall 2 RecvResp]) ++
  [IReturn 1; IReturn 2; IStore 2; IStore 1].

Lemma ingress_proofs_witness :
  ∃ s, ingress_run overtaking (ingress_start (empty_queue 4)) = Some s ∧
    Count (store s) = 2%Z ∧ NoDup (SequenceID <$> proofs (store s)).
Proof.
  assert ((λ s, (stamps (iqueue s), Count (store s))) <$>
          ingress_run overtaking (ingress_start (empty_queue 4)) = Some (2%Z, 2%Z)) as H by (by vm_compute).
  apply fmap_Some in H as (s & E & [= Hs Hc]). exists s. split_and!; [done..|].
  apply (ingress_proofs overtaking (empty_queue 4) s (reachable_from_empty 4 [] _ eq_refl) E).
  by rewrite <- Hs.
Defined.

(** The proofs need not be stored in sequence order: overlapping SubmitTx
    calls can reach the store in the opposite order of their IDs, so the order
    of the store (and Last) is not the committed order. *)
Theorem ingress_proofs_overtake :
  ∃ es s, ingress_run es (ingress_start (empty_queue 4)) = Some s ∧
    SequenceID <$> proofs (store s) = [2; 1]%Z ∧ ID <$> (sent (iqueue s)).*2 = [1; 2]%Z.
Proof.
  assert ((λ s, (SequenceID <$> proofs (store s), ID <$> (sent (iqueue s)).*2)) <$>
          ingress_run overtaking (ingress_start (empty_queue 4)) = Some ([2; 1], [1; 2])%Z)
    as H by (by vm_compute).
  apply fmap_Some in H as (s & E & [= H1 H2]). exists overtaking, s.
  exact (conj E (conj (eq_sym H1) (eq_sym H2))).
Qed.
