(* ===== verification/Settlement.v ===== *)
(** internal/settlement: publishing batch commitments, and the OrderVerifier
    contract (contracts/OrderVerifier.sol) they are published to.

    go-ethereum is a parameter: dialling a node, parsing keys, building a
    transactor, sending a transaction and waiting for it. *)

From S2P Require Import Prelude GoStrings Sha256 Commitment.

(** ** contracts/OrderVerifier.sol *)

(** validCommitments: the keys mapped to true. *)
Record OrderVerifier := MkVerifier { validCommitments : gset bytes }.

Record OrderData := {
  orderId : bytes; user : bytes; token : bytes; amountStr : bytes;
  priceStr : bytes; timestampStr : bytes; nonce : bytes
}.

Inductive verify_event :=
| OrderVerified (commitment orderId : bytes)
| VerificationFailed (commitment orderId : bytes).

Definition commitOrder (commitment : bytes) (v : OrderVerifier) : OrderVerifier :=
  MkVerifier ({[commitment]} ∪ validCommitments v).

(** The two abi.encodePacked payloads of verifyOrder, concatenated. *)
Definition order_payload (o : OrderData) : bytes :=
  let p1 := orderId o ++ [pipe] ++ user o ++ [pipe] ++ token o ++ [pipe] ++ amountStr o in
  let p2 := [pipe] ++ priceStr o ++ [pipe] ++ timestampStr o ++ [pipe] ++ nonce o in
  p1 ++ p2.

Definition verifyOrder (o : OrderData) (v : OrderVerifier) : bool * verify_event * OrderVerifier :=
  let generatedCommitment := Sum256 (order_payload o) in
  if decide (generatedCommitment ∈ validCommitments v) then
    (true, OrderVerified generatedCommitment (orderId o),
     MkVerifier (validCommitments v ∖ {[generatedCommitment]}))
  else (false, VerificationFailed generatedCommitment (orderId o), v).

(** The strings a client passes for an order of the Go layer. *)
Definition order_strings (o : OrderMetadata) : OrderData :=
  {| orderId := OrderID o; user := User o; token := Token o; amountStr := fmt_f (Amount o);
     priceStr := fmt_f (Price o); timestampStr := fmt_d (Timestamp o); nonce := Nonce o |}.

(** ** evm_publisher.go: parsing *)

Inductive parse_error := ErrCommitmentLen (n : Z) | ErrCommitmentHex (e : HexError).

(** [copy(out[:], b)] into a zeroed [32]byte. *)
Definition copy32 (b : bytes) : bytes := take 32 (b ++ replicate 32 x00).

Definition parseCommitment32 (commitmentHex : bytes) : res parse_error bytes :=
  let raw := TrimPrefix commitmentHex (str "0x") in
  if decide (length raw ≠ 64) then Err (ErrCommitmentLen (Z.of_nat (length raw)))
  else match hex_DecodeString raw with
       | Err e => Err (ErrCommitmentHex e)
       | Ok b => Ok (copy32 b)
       end.

Section settlement.
Context {ethclient ecdsa_key transactor chain eth_tx eth_error : Type}.
Context (ethclient_Dial : bytes → res eth_error ethclient).
Context (abi_JSON : option eth_error).
Context (HexToAddress : bytes → bytes).
Context (HexToECDSA : bytes → res eth_error ecdsa_key).
Context (NewKeyedTransactorWithChainID : ecdsa_key → Z → res eth_error transactor).
(** [contract.Transact(&auth, "commitOrder", commitment)] for the contract at an
    address, and [bind.WaitMined]: the receipt's status. *)
Context (Transact : ethclient → bytes → transactor → bytes → chain → res eth_error eth_tx * chain).
Context (WaitMined : ethclient → eth_tx → chain → res eth_error Z * chain).

(** Whether the binary is built with the tag evm. *)
Context (evm_build : bool).

Inductive settle_error :=
| ErrDisabled                   (* "evm publisher disabled: build with -tags evm" *)
| ErrRequired | ErrChainIDRequired
| ErrDial (e : eth_error)
| ErrABI (e : eth_error)
| ErrKeyHex (e : HexError)
| ErrKey (e : eth_error)
| ErrTransactor (e : eth_error)
| ErrChainID (e : NumError)
| ErrParse (e : parse_error)
| ErrSend (e : eth_error)
| ErrWait (e : eth_error)
| ErrReverted (tx : eth_tx).

Definition parsePrivateKey (privateKeyHex : bytes) : res settle_error ecdsa_key :=
  let key := TrimPrefix privateKeyHex (str "0x") in
  match hex_DecodeString key with
  | Err e => Err (ErrKeyHex e)
  | Ok _ =>
      match HexToECDSA key with
      | Err e => Err (ErrKey e)
      | Ok pk => Ok pk
      end
  end.

(** The EVMPublisher of the evm build: its client, bound contract and signer. *)
Record EVMPublisher := MkEVM { eclient : ethclient; econtract : bytes; authBase : transactor }.

(** NewEVMPublisher of evm_publisher.go; a nil chain ID is [None]. *)
Definition NewEVMPublisher_evm (rpcURL contractAddress privateKeyHex : bytes) (chainID : option Z)
  : res settle_error EVMPublisher :=
  if decide (rpcURL = [] ∨ contractAddress = [] ∨ privateKeyHex = []) then Err ErrRequired
  else match chainID with
  | None => Err ErrChainIDRequired
  | Some id =>
      match ethclient_Dial rpcURL with
      | Err e => Err (ErrDial e)
      | Ok client =>
          match abi_JSON with
          | Some e => Err (ErrABI e)
          | None =>
              let addr := HexToAddress contractAddress in
              match parsePrivateKey privateKeyHex with
              | Err e => Err e
              | Ok pk =>
                  match NewKeyedTransactorWithChainID pk id with
                  | Err e => Err (ErrTransactor e)
                  | Ok auth => Ok (MkEVM client addr auth)
                  end
              end
          end
      end
  end.

(** NewEVMPublisher of the build: evm_publisher_stub.go without the tag. *)
Definition NewEVMPublisher (rpcURL contractAddress privateKeyHex : bytes) (chainID : option Z)
  : res settle_error EVMPublisher :=
  if evm_build then NewEVMPublisher_evm rpcURL contractAddress privateKeyHex chainID
  else Err ErrDisabled.

(** CommitmentPublisher: the two implementations that are constructed. *)
Inductive CommitmentPublisher := NoopPublisher | EVM (p : EVMPublisher).

Definition evm_PublishCommitment (p : EVMPublisher) (commitmentHex : bytes) (c : chain)
  : option settle_error * chain :=
  match parseCommitment32 commitmentHex with
  | Err e => (Some (ErrParse e), c)
  | Ok commitment =>
      match Transact (eclient p) (econtract p) (authBase p) commitment c with
      | (Err e, c) => (Some (ErrSend e), c)
      | (Ok tx, c) =>
          match WaitMined (eclient p) tx c with
          | (Err e, c) => (Some (ErrWait e), c)
          | (Ok status, c) =>
              if decide (status ≠ 1%Z) then (Some (ErrReverted tx), c) else (None, c)
          end
      end
  end.

Definition PublishCommitment (p : CommitmentPublisher) (commitmentHex : bytes) (c : chain)
  : option settle_error * chain :=
  match p with
  | NoopPublisher => (None, c)
  | EVM p =>
      if evm_build then evm_PublishCommitment p commitmentHex c else (Some ErrDisabled, c)
  end.

(** ** factory.go *)

Definition NewPublisherFromEnv (Getenv : bytes → bytes) : res settle_error CommitmentPublisher :=
  let rpcURL := Getenv (str "ORDER_VERIFIER_RPC_URL") in
  let contract := Getenv (str "ORDER_VERIFIER_CONTRACT") in
  let pk := Getenv (str "ORDER_VERIFIER_PRIVATE_KEY") in
  let chainIDRaw := Getenv (str "ORDER_VERIFIER_CHAIN_ID") in
  if decide (rpcURL = [] ∨ contract = [] ∨ pk = [] ∨ chainIDRaw = []) then Ok NoopPublisher
  else match ParseInt chainIDRaw with
  | Err e => Err (ErrChainID e)
  | Ok chainIDInt =>
      match NewEVMPublisher rpcURL contract pk (Some chainIDInt) with
      | Err e => Err e
      | Ok pub => Ok (EVM pub)
      end
  end.

(** The publisher rpc.NewServer installs: Noop when there is an error. *)
Definition server_publisher (Getenv : bytes → bytes) : CommitmentPublisher :=
  match NewPublisherFromEnv Getenv with
  | Ok p => p
  | Err _ => NoopPublisher
  end.

(** ** Lemmas *)

Lemma copy32_id b : length b = 32 → copy32 b = b.
Proof. intros H. unfold copy32. rewrite take_app_le by lia. by rewrite take_ge by lia. Qed.

Lemma hex_no_prefix b : TrimPrefix (hex_EncodeToString b) (str "0x") = hex_EncodeToString b.
Proof.
  destruct b as [|x b]; [done|]. unfold hex_EncodeToString.
  rewrite bind_cons. cbn [app].
  destruct (decide (hex_digit (byte_Z x / 16) = x30)) as [->|Hne]; [|by apply TrimPrefix_cons_ne].
  unfold TrimPrefix. cbn. rewrite decide_True by done. rewrite decide_False; [done|].
  intros E. assert (unhex (hex_digit (byte_Z x mod 16)) = unhex x78) as H by (by rewrite <- E).
  rewrite hex_digit_unhex in H by (apply Z.mod_pos_bound; lia). done.
Qed.

Lemma parseCommitment32_iff s b :
  parseCommitment32 s = Ok b ↔
  hex_DecodeString (TrimPrefix s (str "0x")) = Ok b ∧ length b = 32.
Proof.
  unfold parseCommitment32. split.
  - case_decide as Hl; [done|]. destruct (hex_DecodeString _) as [b'|] eqn:E; [|done].
    apply hex_DecodeString_length in E as Hb. rewrite copy32_id by lia. intros [= ->]. split; [done|lia].
  - intros [E Hb]. apply hex_DecodeString_length in E as Hl. rewrite decide_False by lia.
    by rewrite E, copy32_id.
Qed.

Lemma parse_hex b : length b = 32 → parseCommitment32 (hex_EncodeToString b) = Ok b.
Proof. intros Hb. apply parseCommitment32_iff. by rewrite hex_no_prefix, hex_roundtrip. Qed.

Lemma order_payload_strings o : order_payload (order_strings o) = order_data o.
Proof. unfold order_payload, order_data. cbn. repeat (rewrite <- app_assoc; cbn). done. Qed.


(** ** Properties *)

(** ParseCommitment32 accepts exactly the hexadecimal encodings of 32
    bytes (either letter case, with or without 0x) and returns those bytes; in
    particular every commitment the sequencer computes parses, to the SHA-256
    digest of the bytes it covers, with or without the prefix. *)
Theorem parse_commitment_exact s b batch :
  (parseCommitment32 s = Ok b ↔
     hex_DecodeString (TrimPrefix s (str "0x")) = Ok b ∧ length b = 32) ∧
  parseCommitment32 (GenerateBatchCommitment batch) = Ok (Sum256 (batch_bytes batch)) ∧
  parseCommitment32 (str "0x" ++ GenerateBatchCommitment batch) = Ok (Sum256 (batch_bytes batch)).
Proof.
  rewrite GenerateBatchCommitment_eq. split_and!.
  - apply parseCommitment32_iff.
  - by apply parse_hex, Sum256_length.
  - apply parseCommitment32_iff. split; [|apply Sum256_length].
    unfold TrimPrefix. rewrite strip_prefix_app. cbn. apply hex_roundtrip.
Qed.

(** [executed c]: the commitOrder calls that took effect on the chain, as
    (contract address, commitment). *)
Section mined.
Context (executed : chain → list (bytes * bytes)).
(** A transaction that was mined with status 1 took effect. *)
Context (mined_executed : ∀ cl addr auth cm c tx c1 c2,
  Transact cl addr auth cm c = (Ok tx, c1) → WaitMined cl tx c1 = (Ok 1%Z, c2) →
  (addr, cm) ∈ executed c2).

(** C33: a nil error from the EVM publisher means that the batch is on chain:
    PublishCommitment of a batch's commitment never fails to parse, and if it
    returns no error then commitOrder took effect for the SHA-256 digest of
    exactly that batch, at the configured contract. *)
Theorem publish_batch_on_chain p batch c :
  let '(err, c') := evm_PublishCommitment p (GenerateBatchCommitment batch) c in
  match err with
  | None => (econtract p, Sum256 (batch_bytes batch)) ∈ executed c'
  | Some (ErrSend _ | ErrWait _ | ErrReverted _) => True
  | Some _ => False
  end.
Proof.
  unfold evm_PublishCommitment. rewrite GenerateBatchCommitment_eq, parse_hex by apply Sum256_length.
  destruct (Transact _ _ _ _ _) as [[tx|e] c1] eqn:Et; [|done].
  destruct (WaitMined _ _ _) as [[status|e] c2] eqn:Ew; [|done].
  case_decide as Hs; [done|]. eapply mined_executed; [done|].
  destruct (decide (status = 1%Z)); [by subst|done].
Qed.
End mined.

(** Without the build tag evm nothing is ever published, whatever the
    environment says: even with all four variables set and valid, NewServer
    installs the no-op publisher, and PublishCommitment reports success while
    leaving the chain alone. *)
Theorem stub_build_never_publishes Getenv commitmentHex c :
  evm_build = false →
  server_publisher Getenv = NoopPublisher ∧
  PublishCommitment (server_publisher Getenv) commitmentHex c = (None, c).
Proof.
  intros Hb. assert (server_publisher Getenv = NoopPublisher) as ->; [|done].
  unfold server_publisher, NewPublisherFromEnv, NewEVMPublisher. rewrite Hb.
  case_decide; [done|]. by destruct (ParseInt _).
Qed.
End settlement.

(** ** The contract against the Go layer *)

(** An order committed under the Go layer's commitment verifies once and
    only once: parsed and passed to commitOrder, the commitment of an order
    makes verifyOrder succeed on the order's printed fields; an immediate
    second verification of the same fields fails; and commitments of other
    payloads are untouched by both. *)
Theorem order_verifies_once o v :
  ∃ cm v2, parseCommitment32 (GenerateCommitment o) = Ok cm ∧
    verifyOrder (order_strings o) (commitOrder cm v) =
      (true, OrderVerified cm (OrderID o), v2) ∧
    verifyOrder (order_strings o) v2 = (false, VerificationFailed cm (OrderID o), v2) ∧
    ∀ cm', cm' ≠ cm → cm' ∈ validCommitments v2 ↔ cm' ∈ validCommitments v.
Proof.
  exists (Sum256 (order_data o)), (MkVerifier (({[Sum256 (order_data o)]} ∪ validCommitments v)
                                              ∖ {[Sum256 (order_data o)]})).
  split; [by apply parse_hex, Sum256_length|]. unfold verifyOrder. rewrite order_payload_strings.
  cbn [validCommitments commitOrder]. split_and!.
  - by rewrite decide_True by set_solver.
  - by rewrite decide_False by set_solver.
  - set_solver.
Qed.

(** Any sequence of transactions to the contract. *)
Inductive contract_call := CallCommit (commitment : bytes) | CallVerify (o : OrderData).

Definition contract_step (v : OrderVerifier) (c : contract_call) : OrderVerifier :=
  match c with CallCommit cm => commitOrder cm v | CallVerify o => (verifyOrder o v).2 end.

Definition contract_run (calls : list contract_call) : OrderVerifier := foldl contract_step (MkVerifier ∅) calls.

(** Only what was committed is valid. *)
Lemma contract_valid calls cm : cm ∈ validCommitments (contract_run calls) → CallCommit cm ∈ calls.
Proof.
  unfold contract_run. induction calls as [|c calls IH] using rev_ind; [set_solver|].
  rewrite foldl_app, elem_of_app, list_elem_of_singleton. destruct c as [cm'|o]; cbn.
  - rewrite elem_of_union, elem_of_singleton. intros [->|H]; [by right|left; by apply IH].
  - unfold verifyOrder. case_decide; cbn; [rewrite elem_of_difference; intros [H' _]|intros H'];
      left; by apply IH.
Qed.

(** None of the strings before the last separator contains one. *)
Definition plain (o : OrderData) : Prop :=
  pipe ∉ orderId o ∧ pipe ∉ user o ∧ pipe ∉ token o ∧ pipe ∉ amountStr o ∧ pipe ∉ priceStr o ∧
  pipe ∉ timestampStr o.

#[global] Instance plain_dec o : Decision (plain o) := ltac:(unfold plain; apply _).

Lemma order_payload_inj o1 o2 : plain o1 → plain o2 → order_payload o1 = order_payload o2 → o1 = o2.
Proof.
  destruct o1, o2. unfold order_payload. cbn -[app]. intros (?&?&?&?&?&?) (?&?&?&?&?&?) E.
  cbn in *. rewrite <- !app_assoc in E. cbn in E.
  do 6 (rewrite <- ?app_assoc in E; cbn in E; apply separator_cancel in E as [-> E]; [|done..]). by subst.
Qed.

Lemma order_strings_plain o : pipe ∉ OrderID o → pipe ∉ User o → pipe ∉ Token o → plain (order_strings o).
Proof. intros. unfold plain. cbn. split_and!; auto with go. Qed.

(** C34: verifyOrder detects tampering.  Suppose that only the Go layer's
    commitments of the orders [os] were ever passed to commitOrder, in any
    sequence of calls of the contract.  If verifyOrder then succeeds on any seven
    strings, the bytes it hashes are those of one of these orders, or the two are
    a SHA-256 collision; and if neither the strings (but for the nonce) nor the
    order's ID, user and token contain the separator, the strings are the printed
    fields of that order, so that no field was changed. *)
Theorem verify_detects_tampering (os : list OrderMetadata) calls d ev v' :
  (∀ cm, CallCommit cm ∈ calls → ∃ o, o ∈ os ∧ parseCommitment32 (GenerateCommitment o) = Ok cm) →
  verifyOrder d (contract_run calls) = (true, ev, v') →
  ∃ o, o ∈ os ∧
    (order_payload d = order_data o ∧
     (plain d → pipe ∉ OrderID o → pipe ∉ User o → pipe ∉ Token o → d = order_strings o) ∨
     sha256_collision (order_payload d) (order_data o)).
Proof.
  intros Hc E. unfold verifyOrder in E. case_decide as Hin; [|done]. clear E.
  apply contract_valid, Hc in Hin as (o & Ho & Hp). exists o. split; [done|].
  unfold GenerateCommitment in Hp. rewrite parse_hex in Hp by apply Sum256_length. injection Hp as Hp.
  destruct (decide (order_payload d = order_data o)) as [E|]; [left|by right].
  split; [done|]. intros. rewrite <- order_payload_strings in E.
  apply order_payload_inj; [done|by apply order_strings_plain|done].
Qed.

(** ** Witnesses *)

(** A chain that executes every transaction at once. *)
Definition instant_Transact (cl : unit) (addr : bytes) (auth : unit) (cm : bytes)
    (c : list (bytes * bytes)) : res unit nat * list (bytes * bytes) :=
  (Ok (length c), c ++ [(addr, cm)]).

Definition instant_WaitMined (cl : unit) (tx : nat) (c : list (bytes * bytes))
  : res unit Z * list (bytes * bytes) := (Ok 1%Z, c).

Lemma publish_batch_on_chain_witness :
  let '(err, c') := evm_PublishCommitment instant_Transact instant_WaitMined
    (MkEVM tt (str "contract") tt) (GenerateBatchCommitment [sample_tx 1 "a" 5]) [] in
  err = None ∧ (str "contract", Sum256 (batch_bytes [sample_tx 1 "a" 5])) ∈ c'.
Proof.
  pose proof (publish_batch_on_chain instant_Transact instant_WaitMined id) as H.
  specialize (H ltac:(intros cl addr auth cm c tx c1 c2 [= <- <-] [= <-]; set_solver)
    (MkEVM tt (str "contract") tt) [sample_tx 1 "a" 5] []).
  assert ((evm_PublishCommitment instant_Transact instant_WaitMined (MkEVM tt (str "contract") tt)
            (GenerateBatchCommitment [sample_tx 1 "a" 5]) []).1 = None) as E.
  { unfold evm_PublishCommitment. by rewrite GenerateBatchCommitment_eq, parse_hex by apply Sum256_length. }
  destruct (evm_PublishCommitment _ _ _ _ _) as [err c']. cbn in E. subst err. by split.
Defined.

Lemma stub_build_never_publishes_witness :
  PublishCommitment instant_Transact instant_WaitMined false
    (server_publisher (eth_tx := nat) (eth_error := unit) (λ _, Ok tt) None id (λ _ : bytes, Ok tt) (λ _ _, Ok tt) false
       (λ _, str "1"))
    (str "00") [] = (None, []).
Proof.
  exact (proj2 (stub_build_never_publishes (λ _, Ok tt) None id (λ _ : bytes, Ok tt) (λ _ _, Ok tt)
    instant_Transact instant_WaitMined false (λ _, str "1") (str "00") [] eq_refl)).
Defined.

(** Two orders are committed and one is verified, then the other. *)
Definition sample_orders : list OrderMetadata := [sample_order "1" "u"; sample_order "2" "v"].

Definition sample_calls : list contract_call :=
  ((λ o, CallCommit (Sum256 (order_data o))) <$> sample_orders) ++ [CallVerify (order_strings (sample_order "1" "u"))].

Lemma verify_detects_tampering_witness :
  ∃ o, o ∈ sample_orders ∧
    (order_strings (sample_order "2" "v") = order_strings o ∨
     sha256_collision (order_payload (order_strings (sample_order "2" "v"))) (order_data o)).
Proof.
  assert ((verifyOrder (order_strings (sample_order "2" "v")) (contract_run sample_calls)).1.1 = true) as E
    by (vm_compute; reflexivity).
  destruct (verifyOrder _ _) as [[ok ev] v'] eqn:Ev. cbn in E. subst ok.
  destruct (verify_detects_tampering sample_orders sample_calls
    (order_strings (sample_order "2" "v")) ev v') as (o & Ho & Hor); [|exact Ev|].
  - intros cm [(o & E & Ho)%list_elem_of_fmap|[=]%list_elem_of_singleton]%elem_of_app.
    injection E as ->. exists o. split; [exact Ho|]. by apply parse_hex, Sum256_length.
  - exists o. split; [exact Ho|]. destruct Hor as [[_ H]|H]; [left|by right].
    assert (Forall (λ o, pipe ∉ OrderID o ∧ pipe ∉ User o ∧ pipe ∉ Token o) sample_orders) as Hp
      by (by apply (bool_decide_unpack _)).
    rewrite Forall_forall in Hp. pose proof (Hp (sample_order "2" "v") ltac:(by right; left)) as (P1 & P2 & P3).
    destruct (Hp o Ho) as (O1 & O2 & O3). exact (H (order_strings_plain _ P1 P2 P3) O1 O2 O3).
Defined.
