(* ===== verification/Startup.v ===== *)
(** Starting a sequencer node: the peer list, the choice of the ordering
    backend and the join decision (cmd/sequencer/main.go), the construction of
    the Raft backend (NewRaftOrderedLog of pkg/sequencing/raft_log.go), and the
    key files (main.go and pkg/privacy). *)

From S2P Require Import Prelude GoStrings TxQueue.

(** ** The peer list *)

Record RaftPeer := MkPeer { peer_ID : bytes; Address : bytes }.

#[global] Instance RaftPeer_eq_decision : EqDecision RaftPeer.
Proof. solve_decision. Defined.

(** An invalid entry is reported with its text. *)
Inductive peer_error := ErrInvalidPeer (part : bytes).

Definition comma : byte := x2c.
Definition equals : byte := x3d.

(** The loop over the comma-separated parts. *)
Fixpoint parse_parts (parts : list bytes) : res peer_error (list RaftPeer) :=
  match parts with
  | [] => Ok []
  | part :: parts =>
      let part := TrimSpace part in
      if decide (part = []) then parse_parts parts
      else match SplitN2 part equals with
           | [f0; f1] =>
               match parse_parts parts with
               | Ok peers => Ok (MkPeer (TrimSpace f0) (TrimSpace f1) :: peers)
               | Err e => Err e
               end
           | _ => Err (ErrInvalidPeer part)
           end
  end.

(** parseRaftPeers; the nil slice is the empty list. *)
Definition parseRaftPeers (spec : bytes) : res peer_error (list RaftPeer) :=
  let spec := TrimSpace spec in
  if decide (spec = []) then Ok [] else parse_parts (Split spec comma).

(** ** The Raft backend *)

Record RaftOrderedLogConfig := {
  NodeID : bytes;
  BindAddress : bytes;
  Bootstrap : bool;
  Peers : list RaftPeer;
  CommitBuffer : Z;
  DataDir : bytes
}.

Inductive raft_error (E : Type) :=
| ErrNodeID | ErrBindAddress | ErrDataDir
| ErrResolve (e : E) | ErrTransport (e : E) | ErrMkdir (e : E) | ErrLogStore (e : E)
| ErrStableStore (e : E) | ErrSnapshots (e : E) | ErrNode (e : E) | ErrBootstrap (e : E).
Arguments ErrNodeID {E}.
Arguments ErrBindAddress {E}.
Arguments ErrDataDir {E}.
Arguments ErrResolve {E} e.
Arguments ErrTransport {E} e.
Arguments ErrMkdir {E} e.
Arguments ErrLogStore {E} e.
Arguments ErrStableStore {E} e.
Arguments ErrSnapshots {E} e.
Arguments ErrNode {E} e.
Arguments ErrBootstrap {E} e.

(** The servers of the initial configuration: the loop over the peers, with
    [seenSelf]; then this node, and the case of no server at all. *)
Fixpoint bootstrap_peers (node : bytes) (peers : list RaftPeer) : list RaftPeer * bool :=
  match peers with
  | [] => ([], false)
  | p :: peers =>
      let '(servers, seen) := bootstrap_peers node peers in
      if decide (TrimSpace (peer_ID p) = [] ∨ TrimSpace (Address p) = []) then (servers, seen)
      else (p :: servers, bool_decide (peer_ID p = node) || seen)
  end.

Definition bootstrap_servers (node localAddr : bytes) (peers : list RaftPeer) : list RaftPeer :=
  let '(servers, seenSelf) := bootstrap_peers node peers in
  let servers := if seenSelf then servers else servers ++ [MkPeer node localAddr] in
  if decide (servers = []) then servers ++ [MkPeer node localAddr] else servers.

(** What the steps of NewRaftOrderedLog outside this repository answer:
    [None] is success; for the bootstrap, [cant] says that the error is
    raft.ErrCantBootstrap. *)
Record raft_io (E : Type) := {
  io_resolve : option E; io_transport : option E; io_mkdir : option E;
  io_log : option E; io_stable : option E; io_snapshots : option E; io_raft : option E;
  io_bootstrap : list RaftPeer → option (E * bool);
  io_local_addr : bytes
}.
Arguments io_resolve {E}. Arguments io_transport {E}. Arguments io_mkdir {E}.
Arguments io_log {E}. Arguments io_stable {E}. Arguments io_snapshots {E}.
Arguments io_raft {E}. Arguments io_bootstrap {E}. Arguments io_local_addr {E}.

(** A node that came up: its commit buffer and, if it bootstrapped, the servers
    it proposed. *)
Record raft_node := MkNode { committed_cap : Z; proposed : option (list RaftPeer) }.

(** Which resources are open when the constructor returns. *)
Record opened := MkOpened { o_transport : bool; o_log : bool; o_stable : bool; o_node : bool }.

Definition nothing_open : opened := MkOpened false false false false.

Definition NewRaftOrderedLog {E} (io : raft_io E) (cfg : RaftOrderedLogConfig)
  : res (raft_error E) raft_node * opened :=
  if decide (TrimSpace (NodeID cfg) = []) then (Err ErrNodeID, nothing_open)
  else if decide (TrimSpace (BindAddress cfg) = []) then (Err ErrBindAddress, nothing_open)
  else if decide (TrimSpace (DataDir cfg) = []) then (Err ErrDataDir, nothing_open)
  else
    let buffer := if (CommitBuffer cfg <=? 0)%Z then 1024%Z else CommitBuffer cfg in
    match io_resolve io with Some e => (Err (ErrResolve e), nothing_open) | None =>
    match io_transport io with Some e => (Err (ErrTransport e), nothing_open) | None =>
    match io_mkdir io with Some e => (Err (ErrMkdir e), nothing_open) | None =>
    match io_log io with Some e => (Err (ErrLogStore e), nothing_open) | None =>
    match io_stable io with
    | Some e => (Err (ErrStableStore e), MkOpened false true false false) | None =>
    match io_snapshots io with
    | Some e => (Err (ErrSnapshots e), MkOpened false true true false) | None =>
    match io_raft io with
    | Some e => (Err (ErrNode e), MkOpened false true true false) | None =>
    if Bootstrap cfg then
      let servers := bootstrap_servers (NodeID cfg) (io_local_addr io) (Peers cfg) in
      match io_bootstrap io servers with
      | Some (e, false) => (Err (ErrBootstrap e), MkOpened false true true false)
      | _ => (Ok (MkNode buffer (Some servers)), MkOpened true true true true)
      end
    else (Ok (MkNode buffer None), MkOpened true true true true)
    end end end end end end end.

(** ** The ordering backend *)

Inductive ordered_log := LocalQueue (q : TxQueue) | RaftBackend (n : raft_node).

Inductive log_error (E : Type) :=
| ErrPeers (e : peer_error) | ErrRaft (e : raft_error E) | ErrUnsupportedMode (mode : bytes).
Arguments ErrPeers {E} e.
Arguments ErrRaft {E} e.
Arguments ErrUnsupportedMode {E} mode.

(** newOrderedLog; NewTxQueue(100) does not panic. *)
Definition newOrderedLog {E} (io : raft_io E)
    (orderingMode raftNodeID raftBind raftPeers raftDataDir : bytes) (raftBootstrap : bool)
  : option (res (log_error E) ordered_log) :=
  if decide (orderingMode = str "local") then
    q ← NewTxQueue 100; Some (Ok (LocalQueue q))
  else if decide (orderingMode = str "raft") then
    match parseRaftPeers raftPeers with
    | Err e => Some (Err (ErrPeers e))
    | Ok peers =>
        match (NewRaftOrderedLog io {| NodeID := raftNodeID; BindAddress := raftBind;
                 Bootstrap := raftBootstrap; Peers := peers; CommitBuffer := 0;
                 DataDir := raftDataDir |}).1 with
        | Ok n => Some (Ok (RaftBackend n))
        | Err e => Some (Err (ErrRaft e))
        end
    end
  else Some (Err (ErrUnsupportedMode orderingMode)).

(** The join decision of main: [hasState] is pathExists on raft-log.bolt. *)
Definition should_join (orderingMode raftJoinAddr : bytes) (raftBootstrap hasState : bool) : bool :=
  bool_decide (orderingMode = str "raft") && negb raftBootstrap &&
  bool_decide (raftJoinAddr ≠ []) && negb hasState.

(** ** Lemmas *)

Definition show_peer (p : RaftPeer) : bytes := peer_ID p ++ equals :: Address p.

(** A peer specification: [nodeID=host:port,nodeID2=host2:port2]. *)
Definition show_peers (peers : list RaftPeer) : bytes := Join (show_peer <$> peers) [comma].

(** Node IDs and addresses of printable characters, without the separators. *)
Definition peer_wf (p : RaftPeer) : Prop :=
  Forall (λ b, graphic b = true) (peer_ID p ++ Address p) ∧
  comma ∉ peer_ID p ++ Address p ∧ equals ∉ peer_ID p.

#[global] Instance peer_wf_dec p : Decision (peer_wf p) := ltac:(unfold peer_wf; apply _).

Lemma show_peer_graphic p : peer_wf p → Forall (λ b, graphic b = true) (show_peer p).
Proof.
  intros [[H1 H2]%Forall_app _]. apply Forall_app. split; [exact H1|].
  apply Forall_cons. split; [vm_compute; reflexivity|exact H2].
Qed.

Lemma show_peers_graphic peers :
  Forall peer_wf peers → Forall (λ b, graphic b = true) (show_peers peers).
Proof.
  unfold show_peers. induction 1 as [|p peers Hp Hps IH]; [constructor|].
  destruct peers as [|p' peers]; [by apply show_peer_graphic|].
  change (Join (show_peer <$> p :: p' :: peers) [comma])
    with (show_peer p ++ [comma] ++ Join (show_peer <$> p' :: peers) [comma]).
  apply Forall_app. split; [by apply show_peer_graphic|]. apply Forall_app. split; [|exact IH].
  apply Forall_singleton. vm_compute. reflexivity.
Qed.

Lemma parse_parts_show peers :
  Forall peer_wf peers → parse_parts (show_peer <$> peers) = Ok peers.
Proof.
  induction 1 as [|p peers Hp Hps IH]; [done|]. rewrite fmap_cons. cbn [parse_parts].
  rewrite TrimSpace_graphic by by apply show_peer_graphic.
  rewrite decide_False by (unfold show_peer; by destruct (peer_ID p)).
  destruct Hp as ([H1 H2]%Forall_app & _ & He). unfold show_peer at 1.
  rewrite SplitN2_app by done. rewrite IH, !TrimSpace_graphic by done.
  by destruct p.
Qed.

Lemma parse_parts_error parts :
  (∃ e, parse_parts parts = Err e) ↔
  ∃ part, part ∈ parts ∧ TrimSpace part ≠ [] ∧ equals ∉ TrimSpace part.
Proof.
  induction parts as [|part parts IH]; cbn.
  { split; [by intros [e ?]|by intros (? & ?%elem_of_nil & _)]. }
  case_decide as Hp.
  { rewrite IH. setoid_rewrite elem_of_cons. naive_solver. }
  unfold SplitN2. destruct (IndexByte (TrimSpace part) equals) as [i|] eqn:Ei.
  - assert (equals ∈ TrimSpace part) as Hin.
    { apply dec_stable. intros Hn. apply IndexByte_None in Hn. congruence. }
    setoid_rewrite elem_of_cons. destruct (parse_parts parts) as [peers|e].
    + split; [by intros [e ?]|]. intros (p & [->|Hp'] & Hne & Hni); [done|].
      destruct (proj2 IH) as [e ?]; [by exists p|done].
    + split; [|by eauto]. intros _. destruct IH as [IH _]. destruct IH as (p & ? & ?); eauto.
  - apply IndexByte_None in Ei. split; [|by eauto]. intros _. exists part.
    split; [by left|done].
Qed.

(** A peer that the bootstrap does not skip. *)
Definition usable (p : RaftPeer) : Prop := TrimSpace (peer_ID p) ≠ [] ∧ TrimSpace (Address p) ≠ [].

Lemma bootstrap_peers_spec node peers :
  bootstrap_peers node peers =
  (filter usable peers, bool_decide (node ∈ peer_ID <$> filter usable peers)).
Proof.
  induction peers as [|p peers IH]; [done|]. cbn [bootstrap_peers]. rewrite IH.
  destruct (decide (TrimSpace (peer_ID p) = [] ∨ TrimSpace (Address p) = [])) as [Hd|Hd].
  - rewrite filter_cons_False; [done|]. unfold usable. naive_solver.
  - rewrite filter_cons_True by (unfold usable; naive_solver). f_equal. rewrite fmap_cons.
    destruct (decide (peer_ID p = node)) as [<-|Hne].
    + rewrite (bool_decide_true (peer_ID p = peer_ID p)) by done.
      cbn [orb]. symmetry. apply bool_decide_true. by left.
    + rewrite (bool_decide_false (peer_ID p = node)) by done. cbn [orb].
      apply bool_decide_ext. rewrite elem_of_cons. naive_solver.
Qed.

Lemma bootstrap_servers_eq node localAddr peers :
  bootstrap_servers node localAddr peers = filter usable peers ++
    (if bool_decide (node ∈ peer_ID <$> filter usable peers) then [] else [MkPeer node localAddr]).
Proof.
  unfold bootstrap_servers. rewrite bootstrap_peers_spec. case_bool_decide as Hin.
  - rewrite app_nil_r, decide_False; [done|]. intros E. rewrite E in Hin. cbn in Hin. set_solver.
  - rewrite decide_False; [done|]. by destruct (filter usable peers).
Qed.

Lemma bootstrap_has_self node localAddr peers :
  node ∈ peer_ID <$> bootstrap_servers node localAddr peers.
Proof.
  rewrite bootstrap_servers_eq, fmap_app, elem_of_app.
  case_bool_decide; [by left|]. right. by left.
Qed.

(** ** Properties *)

(** The peer list parses as written.  A specification
    nodeID=host:port,... of printable IDs and addresses without commas (and
    without = in the IDs) parses to exactly those peers in order; and for any
    input parsing fails if and only if some comma-separated part, trimmed, is
    non-empty and contains no =. *)
Theorem parse_peers_exact peers spec :
  (Forall peer_wf peers → parseRaftPeers (show_peers peers) = Ok peers) ∧
  ((∃ e, parseRaftPeers spec = Err e) ↔
     ∃ part, part ∈ Split (TrimSpace spec) comma ∧ TrimSpace part ≠ [] ∧ equals ∉ TrimSpace part).
Proof.
  split.
  - intros Hp. unfold parseRaftPeers. rewrite TrimSpace_graphic by by apply show_peers_graphic.
    destruct peers as [|p peers]; [done|]. rewrite decide_False.
    2: { unfold show_peers. cbn. destruct peers; unfold show_peer; by destruct (peer_ID p). }
    unfold show_peers. rewrite Split_Join; [by apply parse_parts_show|done|].
    apply Forall_fmap. eapply Forall_impl; [exact Hp|]. intros q (_ & Hc & _). cbn.
    unfold show_peer. rewrite elem_of_app, elem_of_cons in *. intros [?|[?|?]]; [naive_solver|done|naive_solver].
  - unfold parseRaftPeers. case_decide as Hs.
    + rewrite Hs. split; [by intros [e ?]|]. cbn. intros (p & ->%list_elem_of_singleton & Hne & _). done.
    + apply parse_parts_error.
Qed.

(** A bootstrapping node proposes a non-empty configuration that contains
    itself: the usable peers in the given order, followed by this node at its
    transport address if it is not one of them.  If the peers' IDs are distinct
    so are the servers'.  (The source's case for no servers at all never
    applies.) *)
Theorem bootstrap_contains_self node localAddr peers :
  let servers := bootstrap_servers node localAddr peers in
  servers = filter usable peers ++
    (if bool_decide (node ∈ peer_ID <$> filter usable peers) then [] else [MkPeer node localAddr]) ∧
  node ∈ peer_ID <$> servers ∧ (NoDup (peer_ID <$> peers) → NoDup (peer_ID <$> servers)).
Proof.
  cbn zeta. split; [apply bootstrap_servers_eq|]. split; [apply bootstrap_has_self|].
  intros Hnd. rewrite bootstrap_servers_eq, fmap_app.
  assert (NoDup (peer_ID <$> filter usable peers)) as Hu.
  { eapply sublist_NoDup; [exact Hnd|]. apply fmap_sublist, sublist_filter. }
  case_bool_decide as Hin; cbn; [by rewrite app_nil_r|]. apply NoDup_app. split_and!; [exact Hu| |].
  - by intros x Hx ->%list_elem_of_singleton.
  - apply NoDup_singleton.
Qed.

(** NewOrderedLog always returns.  In local mode the result is an open
    queue of capacity 100; in raft mode it is a node with a commit buffer of
    1024 whose proposed configuration, if any, contains the node, or an error
    after which neither the transport nor the Raft node is left running; any
    other mode is refused. *)
Theorem newOrderedLog_total {E} (io : raft_io E) mode node bind peers dir boot :
  ∃ r, newOrderedLog io mode node bind peers dir boot = Some r ∧
  match r with
  | Ok (LocalQueue q) => mode = str "local" ∧ capacity q = 100 ∧ done q = false ∧ ch q = []
  | Ok (RaftBackend n) =>
      mode = str "raft" ∧ committed_cap n = 1024%Z ∧
      (∀ servers, proposed n = Some servers → boot = true ∧ node ∈ peer_ID <$> servers)
  | Err (ErrPeers e) => parseRaftPeers peers = Err e
  | Err (ErrRaft e) => ∃ cfg o, NewRaftOrderedLog io cfg = (Err e, o) ∧
                         o_transport o = false ∧ o_node o = false
  | Err (ErrUnsupportedMode m) => m = mode ∧ mode ≠ str "local" ∧ mode ≠ str "raft"
  end.
Proof.
  unfold newOrderedLog. destruct (decide (mode = str "local")) as [Hl|Hl].
  { eexists. split; [reflexivity|]. done. }
  destruct (decide (mode = str "raft")) as [Hr|Hr].
  2: { eexists. split; [reflexivity|]. done. }
  destruct (parseRaftPeers peers) as [ps|e] eqn:Ep.
  2: { eexists. split; [reflexivity|]. done. }
  set (cfg := {| NodeID := node |}).
  assert (match NewRaftOrderedLog io cfg with
          | (Ok n, _) => committed_cap n = 1024%Z ∧
              ∀ servers, proposed n = Some servers → boot = true ∧ node ∈ peer_ID <$> servers
          | (Err _, o) => o_transport o = false ∧ o_node o = false
          end) as H.
  { unfold NewRaftOrderedLog. cbn [CommitBuffer cfg Z.leb Z.compare].
    repeat (case_match; try done); simplify_eq.
    all: split; [reflexivity|]; cbn; try reflexivity.
    all: intros servers Es; simplify_eq; (split; [assumption|apply bootstrap_has_self]). }
  destruct (NewRaftOrderedLog io cfg) as [[n|e] o] eqn:E1; eexists; (split; [done|]); [done|].
  by exists cfg, o.
Qed.
