(* ===== verification/Keys.v ===== *)
(** The sequencer's keypair on disk: loadOrCreateSequencerKeys of
    cmd/sequencer/main.go, SaveKeyToFile and LoadKeyFromFile of
    pkg/privacy/privacy_cgo.go, and the file functions of
    cpp/src/privacy/keygen.cpp they call.

    The disk maps paths to file contents.  What the operating system and
    libsodium answer is an argument ([key_env]). *)

From S2P Require Import Prelude.

Abbreviation disk := (gmap bytes bytes).

Definition PublicKeyBytes : Z := 32.
Definition SecretKeyBytes : Z := 32.

Definition pubPath : bytes := str "keys/sequencer_public.key".
Definition secPath : bytes := str "keys/sequencer_private.key".

(** ** keygen.cpp *)

(** How an attempt to write a file goes.  It cannot be opened; or opening
    truncates it, and the stream goes bad in write, with [n] bytes in the file;
    or write only fills the stream's buffer, and flushing that in close fails
    after [n] bytes; or everything is written. *)
Inductive save_outcome := CannotOpen | WriteFails (n : nat) | CloseFails (n : nat) | Written.

(** good() is tested before close(), and what close() does is not looked at. *)
Definition save_key_to_file (o : save_outcome) (path key : bytes) (d : disk) : Z * disk :=
  match o with
  | CannotOpen => (0%Z, d)
  | WriteFails n => (0%Z, <[path := take n key]> d)
  | CloseFails n => (1%Z, <[path := take n key]> d)
  | Written => (1%Z, <[path := key]> d)
  end.

(** Exactly [len] bytes of the file, if it opens and has as many. *)
Definition load_key_from_file (opens : bool) (path : bytes) (len : nat) (d : disk) : option bytes :=
  content ← d !! path;
  if opens then if decide (len ≤ length content) then Some (take len content) else None
  else None.

(** ** privacy_cgo.go *)

Inductive key_error :=
| ErrMkdir | ErrEmptyKey | ErrSave (path : bytes) | ErrKeyLen | ErrLoad (path : bytes)
| ErrGenerate (code : Z).

Definition SaveKeyToFile (o : save_outcome) (path key : bytes) (d : disk)
  : option key_error * disk :=
  if decide (length key = 0) then (Some ErrEmptyKey, d)
  else
    let '(ok, d) := save_key_to_file o path key d in
    if decide (ok ≠ 1%Z) then (Some (ErrSave path), d) else (None, d).

Definition LoadKeyFromFile (opens : bool) (path : bytes) (expectedLen : Z) (d : disk)
  : res key_error bytes :=
  if (expectedLen <=? 0)%Z then Err ErrKeyLen
  else match load_key_from_file opens path (Z.to_nat expectedLen) d with
       | Some buf => Ok buf
       | None => Err (ErrLoad path)
       end.

(** ** loadOrCreateSequencerKeys *)

(** [keygen] is the outcome of generate_sequencer_keys: an error code, or the
    new keypair. *)
Record key_env := {
  mkdir_ok : bool;
  pub_opens : bool;
  sec_opens : bool;
  keygen : res Z (bytes * bytes);
  save_pub : save_outcome;
  save_sec : save_outcome
}.

Definition loadOrCreateSequencerKeys (e : key_env) (d : disk)
  : res key_error (bytes * bytes) * disk :=
  if mkdir_ok e then
    match LoadKeyFromFile (pub_opens e) pubPath PublicKeyBytes d,
          LoadKeyFromFile (sec_opens e) secPath SecretKeyBytes d with
    | Ok pub, Ok sec => (Ok (pub, sec), d)
    | _, _ =>
        match keygen e with
        | Err code => (Err (ErrGenerate code), d)
        | Ok (pub, sec) =>
            match SaveKeyToFile (save_pub e) pubPath pub d with
            | (Some err, d) => (Err err, d)
            | (None, d) =>
                match SaveKeyToFile (save_sec e) secPath sec d with
                | (Some err, d) => (Err err, d)
                | (None, d) => (Ok (pub, sec), d)
                end
            end
        end
    end
  else (Err ErrMkdir, d).

(** ** Lemmas *)


(** A start at which nothing on disk is out of reach. *)
Definition readable (e : key_env) : Prop :=
  mkdir_ok e = true ∧ pub_opens e = true ∧ sec_opens e = true.

Lemma load_stored (path key : bytes) (d : disk) :
  length key = 32 → d !! path = Some key → LoadKeyFromFile true path 32 d = Ok key.
Proof.
  intros Hl Hd. unfold LoadKeyFromFile, load_key_from_file. cbn [Z.leb Z.compare]. rewrite Hd.
  cbn [mbind option_bind]. rewrite decide_True by (rewrite Hl; by compute).
  rewrite take_ge; [done|]. rewrite Hl. by compute.
Qed.


Lemma load_fails (path : bytes) (d : disk) :
  (∀ content, d !! path = Some content → length content < 32) →
  LoadKeyFromFile true path 32 d = Err (ErrLoad path).
Proof.
  intros H. unfold LoadKeyFromFile, load_key_from_file. cbn [Z.leb Z.compare].
  destruct (d !! path) as [c|] eqn:E; [|done]. cbn [mbind option_bind].
  rewrite decide_False; [done|]. specialize (H c eq_refl). change (Z.to_nat 32) with 32. lia.
Qed.

(** What is in the file when SaveKeyToFile reports success. *)
Lemma save_closes (o : save_outcome) (path key : bytes) (d : disk) :
  length key ≠ 0 → (if o is CloseFails _ then True else o = Written) →
  SaveKeyToFile o path key d = (None, <[path := if o is CloseFails n then take n key else key]> d).
Proof. intros Hk Ho. unfold SaveKeyToFile. rewrite decide_False by done. by destruct o. Qed.



(** ** Properties *)


(** The condition on close is needed.  On an empty disk, a start whose public
    key is lost when its file is closed reports success and runs with the new
    pair; the next start finds a file that is too short, generates another pair
    and overwrites both files, so that what was sealed for the first key can no
    longer be opened. *)
Theorem keys_lost (pub sec pub' sec' : bytes) (n : nat) :
  length pub = 32 → length sec = 32 → length pub' = 32 → length sec' = 32 → n < 32 →
  let start o p s := {| mkdir_ok := true; pub_opens := true; sec_opens := true; keygen := Ok (p, s);
                        save_pub := o; save_sec := Written |} in
  ∃ d d', loadOrCreateSequencerKeys (start (CloseFails n) pub sec) ∅ = (Ok (pub, sec), d) ∧
    loadOrCreateSequencerKeys (start Written pub' sec') d = (Ok (pub', sec'), d').
Proof.
  intros Hp Hs Hp' Hs' Hn start. exists (<[secPath := sec]> (<[pubPath := take n pub]> ∅)). eexists.
  unfold loadOrCreateSequencerKeys, start. cbn [mkdir_ok pub_opens sec_opens keygen save_pub save_sec].
  rewrite (load_fails pubPath ∅), (load_fails pubPath (<[secPath := sec]> _)); cycle 1.
  { intros c. rewrite lookup_insert_ne, lookup_insert_eq by done. intros [= <-]. rewrite length_take. lia. }
  { intros c. by rewrite lookup_empty. }
  rewrite (save_closes (CloseFails n) pubPath pub), (save_closes Written secPath sec), (save_closes Written pubPath pub'),
    (save_closes Written secPath sec') by (done || lia). done.
Qed.

(** A failed start can leave halves of two keypairs.  If the public key
    file is missing and the private one is not, a start that generates a new
    pair and saves its public half but cannot open the private file fails; the
    next start then succeeds with the new public key and the old private key,
    which do not belong together. *)
Theorem keys_can_mismatch (d : disk) (old pub sec : bytes) (e' : key_env) :
  d !! pubPath = None → d !! secPath = Some old → length old = 32 →
  length pub = 32 → length sec = 32 → readable e' →
  let e := {| mkdir_ok := true; pub_opens := true; sec_opens := true; keygen := Ok (pub, sec);
              save_pub := Written; save_sec := CannotOpen |} in
  ∃ d', loadOrCreateSequencerKeys e d = (Err (ErrSave secPath), d') ∧
    loadOrCreateSequencerKeys e' d' = (Ok (pub, old), d').
Proof.
  intros Hp Hs Hlo Hlp Hls (Hm' & Hp' & Hs') e. exists (<[pubPath := pub]> d). split.
  - unfold loadOrCreateSequencerKeys, e. cbn [mkdir_ok pub_opens sec_opens keygen save_pub save_sec].
    unfold LoadKeyFromFile at 1, load_key_from_file. rewrite Hp. cbn [Z.leb Z.compare mbind option_bind PublicKeyBytes].
    unfold SaveKeyToFile. rewrite decide_False by lia. cbn.
    destruct (decide (length sec = 0)); [lia|]. reflexivity.
  - unfold loadOrCreateSequencerKeys. rewrite Hm', Hp', Hs'.
    rewrite (load_stored pubPath pub), (load_stored secPath old); try done.
    + by rewrite lookup_insert_ne.
    + by rewrite lookup_insert_eq.
Qed.

(** ** Witnesses *)

Definition sample_keys (c : byte) : bytes := replicate 32 c.

Definition good_start (pub sec : bytes) : key_env :=
  {| mkdir_ok := true; pub_opens := true; sec_opens := true; keygen := Ok (pub, sec);
     save_pub := Written; save_sec := Written |}.


Lemma keys_can_mismatch_witness :
  ∃ d', loadOrCreateSequencerKeys (good_start (sample_keys x05) (sample_keys x06)) d' =
    (Ok (sample_keys x01, sample_keys x02), d').
Proof.
  destruct (keys_can_mismatch {[secPath := sample_keys x02]} (sample_keys x02) (sample_keys x01)
    (sample_keys x03) (good_start (sample_keys x05) (sample_keys x06))) as (d' & _ & E);
    [reflexivity|by rewrite lookup_singleton_eq|done..|].
  by exists d'.
Defined.

Lemma keys_lost_witness :
  ∃ d d', loadOrCreateSequencerKeys (good_start (sample_keys x03) (sample_keys x04)) d =
    (Ok (sample_keys x03, sample_keys x04), d').
Proof.
  destruct (keys_lost (sample_keys x01) (sample_keys x02) (sample_keys x03) (sample_keys x04) 0)
    as (d & d' & _ & E); [done..|lia|]. by exists d, d'.
Defined.
