(* ===== verification/Lease.v ===== *)
(** The leader lease of cmd/sequencer/main.go (lines 385-422): a goroutine that
    looks at the node's leadership on every tick of a 2-second ticker and steps
    down once the node has led for longer than the lease. *)

From S2P Require Import Prelude.

(** Its variables: [leaderStartTime] (nanoseconds) and [wasLeader]. *)
Record lease_state := MkLease { leaderStartTime : Z; wasLeader : bool }.

Definition lease_start : lease_state := MkLease 0 false.

(** What one tick sees: the answer of IsLeader, and the clock at time.Now() and
    at time.Since(). *)
Record tick := MkTick { isLeader : bool; now : Z; since : Z }.

(** One iteration; the boolean says that StepDown is called. *)
Definition lease_tick (leaderLease : Z) (t : tick) (s : lease_state) : bool * lease_state :=
  let s := if isLeader t && negb (wasLeader s) then MkLease (now t) (wasLeader s) else s in
  if isLeader t && (leaderLease <? since t - leaderStartTime s)%Z
  then (true, MkLease (leaderStartTime s) false)
  else (false, MkLease (leaderStartTime s) (isLeader t)).

(** The ticks of a run, each with whether it stepped down. *)
Fixpoint lease_run (leaderLease : Z) (ts : list tick) (s : lease_state) : list (tick * bool) :=
  match ts with
  | [] => []
  | t :: ts =>
      let '(down, s) := lease_tick leaderLease t s in
      (t, down) :: lease_run leaderLease ts s
  end.

(** The clock is monotonic. *)
Fixpoint monotonic (t0 : Z) (ts : list tick) : Prop :=
  match ts with
  | [] => True
  | t :: ts => (t0 ≤ now t ≤ since t)%Z ∧ monotonic (since t) ts
  end.

Definition final_state (leaderLease : Z) (ts : list tick) (s : lease_state) : lease_state :=
  foldl (λ s t, (lease_tick leaderLease t s).2) s ts.

Lemma lease_run_app lease ts1 ts2 s :
  lease_run lease (ts1 ++ ts2) s =
  lease_run lease ts1 s ++ lease_run lease ts2 (final_state lease ts1 s).
Proof.
  revert s. induction ts1 as [|t ts1 IH]; intros s; [done|]. cbn [app lease_run final_state foldl].
  destruct (lease_tick lease t s) as [down s']. by rewrite IH.
Qed.

(** [s] after the ticks [ts] (from the initial state): if it is in a term of
    leadership, the term began at a tick of [ts] and every tick since saw the
    node lead. *)
Definition in_term (ts : list tick) (s : lease_state) : Prop :=
  wasLeader s = true →
  ∃ ts0 t ts1, ts = ts0 ++ t :: ts1 ∧ now t = leaderStartTime s ∧
    Forall (λ t, isLeader t = true) (t :: ts1).

Lemma in_term_tick lease ts t s :
  in_term ts s → in_term (ts ++ [t]) (lease_tick lease t s).2.
Proof.
  unfold in_term, lease_tick. intros Hs. destruct (isLeader t) eqn:Hl; cbn [andb].
  2: { cbn. done. }
  destruct (wasLeader s) eqn:Hw; cbn [negb].
  - destruct (lease <? since t - leaderStartTime s)%Z; cbn; [done|]. intros _.
    destruct (Hs eq_refl) as (ts0 & t0 & ts1 & -> & Hn & Hf). exists ts0, t0, (ts1 ++ [t]).
    split; [by rewrite <- app_assoc|]. split; [done|].
    change (Forall (λ t, isLeader t = true) ((t0 :: ts1) ++ [t])). apply Forall_app. split; [done|].
    by apply Forall_singleton.
  - cbn. destruct (lease <? since t - now t)%Z; cbn; [done|]. intros _.
    exists ts, t, []. split_and!; [done..|]. by apply Forall_singleton.
Qed.

Lemma in_term_final lease ts : in_term ts (final_state lease ts lease_start).
Proof.
  induction ts as [|t ts IH] using rev_ind; [done|].
  unfold final_state. rewrite foldl_app. cbn [foldl]. by apply in_term_tick.
Qed.

(** During a term that is not ended by a step-down, the recorded start does not
    move. *)
Lemma lease_quiet lease t0 ts s :
  wasLeader s = true → (leaderStartTime s ≤ t0)%Z → monotonic t0 ts →
  Forall (λ t, isLeader t = true) ts → Forall (λ p, p.2 = false) (lease_run lease ts s) →
  Forall (λ t, since t - leaderStartTime s ≤ lease)%Z ts.
Proof.
  revert t0 s. induction ts as [|t ts IH]; intros t0 s Hw Hs Hm Hl Hq; [constructor|].
  destruct Hm as [Ht Hm]. apply Forall_cons in Hl as [Hlt Hl]. cbn in Hq. unfold lease_tick in Hq.
  rewrite Hlt, Hw in Hq. cbn in Hq.
  destruct (Z.ltb_spec lease (since t - leaderStartTime s)) as [Hgt|Hle];
    apply Forall_cons in Hq as [Hd Hq]; [done|].
  constructor; [lia|].
  apply (IH (since t) (MkLease (leaderStartTime s) true)); [done|cbn; lia|done..].
Qed.

Lemma monotonic_suffix t0 ts1 t ts2 :
  monotonic t0 (ts1 ++ t :: ts2) → (t0 ≤ now t)%Z ∧ monotonic (now t) (t :: ts2).
Proof.
  revert t0. induction ts1 as [|t1 ts1 IH]; intros t0 Hm; cbn in *.
  - destruct Hm as [Ht Hm]. split; [lia|]. split; [lia|done].
  - destruct Hm as [Ht Hm]. destruct (IH _ Hm). split; [lia|done].
Qed.

(** Entering a stretch of leadership, the goroutine is, or may as well be, in a
    term that began no later. *)
Lemma lease_enter lease ts1 t0 tsl ts2 :
  monotonic 0 (ts1 ++ (t0 :: tsl) ++ ts2) → isLeader t0 = true →
  ∃ s, wasLeader s = true ∧ (leaderStartTime s ≤ now t0)%Z ∧
    lease_run lease (t0 :: tsl) (final_state lease ts1 lease_start) = lease_run lease (t0 :: tsl) s.
Proof.
  intros Hm Hl. set (s := final_state lease ts1 lease_start).
  destruct (wasLeader s) eqn:Hw.
  - exists s. split_and!; [done| |done].
    destruct (in_term_final lease ts1 Hw) as (a & t & b & E & Hn & _).
    change (final_state lease ts1 lease_start) with s in Hn. rewrite <- Hn.
    rewrite E, <- app_assoc in Hm. apply monotonic_suffix in Hm as [_ Hm].
    by apply (monotonic_suffix (now t) (t :: b) t0 (tsl ++ ts2)) in Hm as [? _].
  - exists (MkLease (now t0) true). split_and!; [done|cbn; lia|].
    cbn [lease_run]. unfold lease_tick. rewrite Hl, Hw. done.
Qed.

(** C35: the lease does what it says.  StepDown is called at a tick only if
    the node was seen leading at every tick since one that is more than the
    lease in the past; and conversely, if a node is seen leading at consecutive
    ticks that span more than the lease, at least one of them steps down. *)
Theorem lease_correct lease ts :
  monotonic 0 ts →
  (∀ ts1 t ts2, ts = ts1 ++ t :: ts2 →
     (lease_tick lease t (final_state lease ts1 lease_start)).1 = true →
     ∃ ts0 t0 tsl, ts1 ++ [t] = ts0 ++ t0 :: tsl ∧
       Forall (λ t, isLeader t = true) (t0 :: tsl) ∧ (lease < since t - now t0)%Z) ∧
  (∀ ts1 t0 tsl ts2 t, ts = ts1 ++ (t0 :: tsl) ++ ts2 →
     Forall (λ t, isLeader t = true) (t0 :: tsl) → t ∈ t0 :: tsl → (lease < since t - now t0)%Z →
     ∃ t', (t', true) ∈ lease_run lease (t0 :: tsl) (final_state lease ts1 lease_start)).
Proof.
  intros Hm. split.
  - intros ts1 t ts2 _. set (s := final_state lease ts1 lease_start). unfold lease_tick.
    destruct (isLeader t) eqn:Hl; [|done]. cbn [andb].
    destruct (wasLeader s) eqn:Hw; cbn [negb]; destruct (Z.ltb_spec lease (since t - leaderStartTime s)).
    1: { intros _. destruct (in_term_final lease ts1 Hw) as (a & t0 & b & -> & Hn & Hf).
      exists a, t0, (b ++ [t]). split; [by rewrite <- app_assoc|]. split; [|rewrite Hn; done].
      change (Forall (λ t, isLeader t = true) ((t0 :: b) ++ [t])). apply Forall_app.
      split; [done|by apply Forall_singleton]. }
    1: done.
    all: cbn; destruct (Z.ltb_spec lease (since t - now t)); [|done]; intros _;
      exists ts1, t, []; (split_and!; [done|by apply Forall_singleton|done]).
  - intros ts1 t0 tsl ts2 t -> Hf Hin Hgt.
    destruct (decide (Forall (λ p, p.2 = false) (lease_run lease (t0 :: tsl)
      (final_state lease ts1 lease_start)))) as [Hq|Hq].
    + exfalso. destruct (lease_enter lease ts1 t0 tsl ts2 Hm (Forall_inv Hf)) as (s & Hw & Hs & E).
      rewrite E in Hq. apply monotonic_suffix in Hm as [_ [Ht0 Hm]].
      assert (monotonic (now t0) (t0 :: tsl)) as Hm'.
      { split; [lia|]. clear -Hm. revert Hm. generalize (since t0).
        induction tsl as [|t1 tsl IH]; intros z; [done|]. intros [? ?]. split; [done|auto]. }
      pose proof (lease_quiet lease (now t0) (t0 :: tsl) s Hw Hs Hm' Hf Hq) as Hall.
      rewrite Forall_forall in Hall. specialize (Hall t Hin). lia.
    + apply not_Forall_Exists, Exists_exists in Hq as ([t' d] & Hin' & Hd); [|apply _].
      exists t'. destruct d; [done|]. by destruct (Hd eq_refl).
Qed.

(** A leader observed at 0s, 2s, 4s and 6s, with a lease of 3s. *)
Definition sample_ticks : list tick :=
  [MkTick true 0 0; MkTick true 2 2; MkTick true 4 4; MkTick true 6 6].

Lemma lease_correct_witness :
  ∃ t', (t', true) ∈ lease_run 3 sample_ticks lease_start.
Proof.
  destruct (lease_correct 3 sample_ticks) as [_ H]; [cbn; lia|].
  apply (H [] (MkTick true 0 0) [MkTick true 2 2; MkTick true 4 4; MkTick true 6 6] []
    (MkTick true 4 4)); [done|by repeat constructor|set_solver|cbn; lia].
Defined.
