(* ===== verification/GoJson.v ===== *)
(** What the Raft log uses of Go's encoding/json and encoding/base64: the
    encoding of a proposal (a struct of an int64 and a byte slice), and the
    decoding of such documents. *)

From S2P Require Import Prelude GoStrings.

(** ** Standard base64 *)

Definition b64_char (n : Z) : byte :=
  if (n <? 26)%Z then Z_byte (65 + n)
  else if (n <? 52)%Z then Z_byte (71 + n)
  else if (n <? 62)%Z then Z_byte (n - 4)
  else if (n =? 62)%Z then x2b else x2f.

Definition b64_val (b : byte) : option Z :=
  let n := byte_Z b in
  if ((65 <=? n) && (n <=? 90))%Z then Some (n - 65)%Z
  else if ((97 <=? n) && (n <=? 122))%Z then Some (n - 71)%Z
  else if ((48 <=? n) && (n <=? 57))%Z then Some (n + 4)%Z
  else if (n =? 43)%Z then Some 62%Z
  else if (n =? 47)%Z then Some 63%Z
  else None.

Definition pad : byte := x3d.

(** [base64.StdEncoding.EncodeToString] *)
Fixpoint b64_encode (s : bytes) : bytes :=
  match s with
  | [] => []
  | [a] =>
      let n := (byte_Z a * 16)%Z in
      [b64_char (n / 64); b64_char (n mod 64); pad; pad]
  | [a; b] =>
      let n := (byte_Z a * 1024 + byte_Z b * 4)%Z in
      [b64_char (n / 4096); b64_char (n / 64 mod 64); b64_char (n mod 64); pad]
  | a :: b :: c :: s =>
      let n := (byte_Z a * 65536 + byte_Z b * 256 + byte_Z c)%Z in
      b64_char (n / 262144) :: b64_char (n / 4096 mod 64) :: b64_char (n / 64 mod 64) ::
      b64_char (n mod 64) :: b64_encode s
  end.

(** The decoder on padded texts without line breaks. *)
Fixpoint b64_decode (s : bytes) : option bytes :=
  match s with
  | [] => Some []
  | c0 :: c1 :: c2 :: c3 :: s =>
      v0 ← b64_val c0; v1 ← b64_val c1;
      if decide (s = [] ∧ c2 = pad ∧ c3 = pad) then Some [Z_byte ((v0 * 64 + v1) / 16)]
      else
        v2 ← b64_val c2;
        if decide (s = [] ∧ c3 = pad) then
          let n := ((v0 * 64 + v1) * 64 + v2)%Z in
          Some [Z_byte (n / 1024); Z_byte (n / 4)]
        else
          v3 ← b64_val c3;
          let n := (((v0 * 64 + v1) * 64 + v2) * 64 + v3)%Z in
          r ← b64_decode s;
          Some (Z_byte (n / 65536) :: Z_byte (n / 256) :: Z_byte n :: r)
  | _ => None
  end.

(** ** Proposals *)

Record raftProposal := MkProposal { SubmittedAtUnixNano : Z; pCiphertext : bytes }.

Definition field_time : bytes := str "{" ++ [x22] ++ str "submitted_at_unix_nano" ++ [x22] ++ str ":".
Definition field_cipher : bytes := [x22] ++ str "ciphertext" ++ [x22] ++ str ":" ++ [x22].
Definition object_end : bytes := [x22] ++ str "}".

(** [json.Marshal] of a proposal whose ciphertext is not the nil slice. *)
Definition Marshal (p : raftProposal) : bytes :=
  field_time ++ fmt_d (SubmittedAtUnixNano p) ++ x2c :: field_cipher ++
  b64_encode (pCiphertext p) ++ object_end.

(** Reading a document of the form Marshal writes. *)
Definition parse_proposal (data : bytes) : option raftProposal :=
  rest ← strip_prefix field_time data;
  match SplitN2 rest x2c with
  | [digits; rest] =>
      match ParseInt digits with
      | Err _ => None
      | Ok t =>
          rest ← strip_prefix field_cipher rest;
          c ← b64_decode (take (length rest - 2) rest);
          Some (MkProposal t c)
      end
  | _ => None
  end.

Section unmarshal.
(** What json.Unmarshal does with documents that Marshal does not write. *)
Context (unmarshal_other : bytes → option raftProposal).

(** [json.Unmarshal] into a proposal; [None] is an error. *)
Definition Unmarshal (data : bytes) : option raftProposal :=
  match parse_proposal data with
  | Some p => if decide (Marshal p = data) then Some p else unmarshal_other data
  | None => unmarshal_other data
  end.
End unmarshal.

(** ** Round trips *)

Lemma b64_val_char n : (0 ≤ n < 64)%Z → b64_val (b64_char n) = Some n.
Proof.
  intros H. assert (∃ m, m < 64 ∧ n = Z.of_nat m) as (m & Hm & ->) by (exists (Z.to_nat n); lia).
  clear H. do 64 (destruct m as [|m]; [vm_compute; reflexivity|]). lia.
Qed.

Lemma b64_char_not_pad n : (0 ≤ n < 64)%Z → b64_char n ≠ pad.
Proof. intros H E. apply (f_equal b64_val) in E. rewrite b64_val_char in E by done. done. Qed.

Lemma Z_byte_eq b z : z = byte_Z b → Z_byte z = b.
Proof. intros ->. apply Z_byte_byte_Z. Qed.

Lemma Z_byte_mod b z : (z mod 256 = byte_Z b)%Z → Z_byte z = b.
Proof.
  intros H. rewrite <- (Z_byte_byte_Z b), <- H. unfold Z_byte. by rewrite Zmod_mod.
Qed.

(** The recombination of 6-bit digits. *)
Lemma digits4 n : (0 ≤ n < 16777216)%Z →
  (0 ≤ n / 262144 < 64)%Z ∧ (0 ≤ n / 4096 mod 64 < 64)%Z ∧ (0 ≤ n / 64 mod 64 < 64)%Z ∧
  (0 ≤ n mod 64 < 64)%Z ∧
  (((n / 262144 * 64 + n / 4096 mod 64) * 64 + n / 64 mod 64) * 64 + n mod 64 = n)%Z.
Proof. intros H. Z.to_euclidean_division_equations. lia. Qed.

Lemma bytes3 a b c :
  Z_byte ((byte_Z a * 65536 + byte_Z b * 256 + byte_Z c) / 65536) = a ∧
  Z_byte ((byte_Z a * 65536 + byte_Z b * 256 + byte_Z c) / 256) = b ∧
  Z_byte (byte_Z a * 65536 + byte_Z b * 256 + byte_Z c) = c.
Proof.
  pose proof (byte_Z_range a). pose proof (byte_Z_range b). pose proof (byte_Z_range c).
  split_and!; apply Z_byte_mod; Z.to_euclidean_division_equations; lia.
Qed.

Lemma list_ind3 {A} (P : list A → Prop) :
  P [] → (∀ x, P [x]) → (∀ x y, P [x; y]) → (∀ x y z l, P l → P (x :: y :: z :: l)) → ∀ l, P l.
Proof.
  intros H0 H1 H2 H3 l. enough (P l ∧ (∀ x, P (x :: l)) ∧ ∀ x y, P (x :: y :: l)) by naive_solver.
  induction l as [|z l (IH1 & IH2 & IH3)]; auto.
Qed.

Lemma b64_decode_1 a : b64_decode (b64_encode [a]) = Some [a].
Proof.
  pose proof (byte_Z_range a). cbn [b64_encode b64_decode].
  rewrite !b64_val_char by (Z.to_euclidean_division_equations; lia). cbn [mbind option_bind].
  rewrite decide_True by done. do 2 f_equal. apply Z_byte_mod.
  Z.to_euclidean_division_equations. lia.
Qed.

Lemma b64_decode_2 a b : b64_decode (b64_encode [a; b]) = Some [a; b].
Proof.
  pose proof (byte_Z_range a). pose proof (byte_Z_range b). cbn [b64_encode b64_decode].
  set (n := (byte_Z a * 1024 + byte_Z b * 4)%Z).
  assert (0 ≤ n < 262144)%Z as Hn by (unfold n; lia).
  assert (0 ≤ n / 4096 < 64 ∧ 0 ≤ n / 64 mod 64 < 64 ∧ 0 ≤ n mod 64 < 64 ∧
          ((n / 4096 * 64 + n / 64 mod 64) * 64 + n mod 64 = n))%Z as (? & ? & ? & E).
  { Z.to_euclidean_division_equations. lia. }
  rewrite !b64_val_char by done. cbn [mbind option_bind].
  rewrite decide_False by (intros (_ & Hp & _); by apply b64_char_not_pad in Hp).
  rewrite decide_True by done. rewrite E.
  do 2 f_equal; [|f_equal]; apply Z_byte_mod; unfold n; Z.to_euclidean_division_equations; lia.
Qed.

Lemma b64_roundtrip s : b64_decode (b64_encode s) = Some s.
Proof.
  induction s as [|a|a b|a b c s IH] using list_ind3; [done|apply b64_decode_1|apply b64_decode_2|].
  pose proof (byte_Z_range a). pose proof (byte_Z_range b). pose proof (byte_Z_range c).
  cbn [b64_encode b64_decode]. set (n := (byte_Z a * 65536 + byte_Z b * 256 + byte_Z c)%Z).
  destruct (digits4 n ltac:(unfold n; lia)) as (? & ? & ? & ? & E).
  rewrite !b64_val_char by done. cbn [mbind option_bind].
  rewrite decide_False by (intros (_ & Hp & _); by apply b64_char_not_pad in Hp).
  rewrite decide_False by (intros (_ & Hp); by apply b64_char_not_pad in Hp).
  rewrite E, IH. cbn [mbind option_bind].
  destruct (bytes3 a b c) as (Ea & Eb & Ec). fold n in Ea, Eb, Ec. by rewrite Ea, Eb, Ec.
Qed.

Lemma parse_Marshal p :
  is_int64 (SubmittedAtUnixNano p) → parse_proposal (Marshal p) = Some p.
Proof.
  intros Ht. unfold parse_proposal, Marshal. rewrite strip_prefix_app. cbn [mbind option_bind].
  rewrite SplitN2_app by (by apply fmt_d_chars).
  rewrite ParseInt_fmt_d by done. rewrite strip_prefix_app. cbn [mbind option_bind].
  rewrite length_app. change (length object_end) with 2. rewrite Nat.add_sub, take_app_length.
  rewrite b64_roundtrip. cbn [mbind option_bind]. by destruct p.
Qed.

Lemma Unmarshal_Marshal other p :
  is_int64 (SubmittedAtUnixNano p) → Unmarshal other (Marshal p) = Some p.
Proof. intros Ht. unfold Unmarshal. rewrite parse_Marshal by done. by rewrite decide_True. Qed.
