(* ===== verification/RaftLog.v ===== *)
(** pkg/sequencing/raft_log.go at run time: proposals, the FSM that the Raft
    library drives, DrainWait and Close.

    hashicorp/raft is the list [rlog] of committed command entries, the same on
    every node, and the environment's choice of when a node applies the next
    one, installs a snapshot or answers a proposal. *)

From S2P Require Import Prelude GoStrings GoJson Commitment TxQueue TxQueueInv OrderedLog.

(** A committed log entry; Raft numbers entries with increasing indices. *)
Record raft_entry := MkEntry { Index : Z; Data : bytes }.

(** What FSM.Apply returns: the transaction, or the decoding error. *)
Inductive raft_response := RespTx (tx : EncryptedTransaction) | RespError.

(** Where the FSM is: between entries, or at the select that sends a
    transaction. *)
Inductive fsm_pc := FIdle | FSend (tx : EncryptedTransaction).

(** [rapplied] is the position in the log up to which the node has applied or
    restored; [rshutdowns] counts the calls of raft.Shutdown and of
    transport.Close.  The fields from [remitted] on are history: what the FSM
    sent, what drains received, and whether an entry was ever skipped by a
    restored snapshot or dropped because the log was closed. *)
Record RaftOrderedLog := MkRaft {
  rcap : nat;
  rch : list EncryptedTransaction;
  rdone : bool;
  rcloseOnce : bool;
  rfsm : fsm_pc;
  rapplied : nat;
  rshutdowns : nat;
  rctxs : gmap nat ctx_error;
  rdrains : gmap nat drain_call;
  remitted : list EncryptedTransaction;
  rrecvd : list (nat * EncryptedTransaction);
  rskipped : bool
}.

Definition new_raft (buffer : nat) : RaftOrderedLog :=
  MkRaft buffer [] false false FIdle 0 0 ∅ ∅ [] [] false.

Definition set_fsm (f : fsm_pc) (r : RaftOrderedLog) : RaftOrderedLog :=
  MkRaft (rcap r) (rch r) (rdone r) (rcloseOnce r) f (rapplied r) (rshutdowns r) (rctxs r)
    (rdrains r) (remitted r) (rrecvd r) (rskipped r).
Definition set_applied (n : nat) (r : RaftOrderedLog) : RaftOrderedLog :=
  MkRaft (rcap r) (rch r) (rdone r) (rcloseOnce r) (rfsm r) n (rshutdowns r) (rctxs r)
    (rdrains r) (remitted r) (rrecvd r) (rskipped r).
Definition set_skipped (r : RaftOrderedLog) : RaftOrderedLog :=
  MkRaft (rcap r) (rch r) (rdone r) (rcloseOnce r) (rfsm r) (rapplied r) (rshutdowns r) (rctxs r)
    (rdrains r) (remitted r) (rrecvd r) true.
Definition emit (tx : EncryptedTransaction) (r : RaftOrderedLog) : RaftOrderedLog :=
  MkRaft (rcap r) (rch r ++ [tx]) (rdone r) (rcloseOnce r) (rfsm r) (rapplied r) (rshutdowns r)
    (rctxs r) (rdrains r) (remitted r ++ [tx]) (rrecvd r) (rskipped r).
Definition set_rdrain (d : nat) (k : drain_call) (r : RaftOrderedLog) : RaftOrderedLog :=
  MkRaft (rcap r) (rch r) (rdone r) (rcloseOnce r) (rfsm r) (rapplied r) (rshutdowns r)
    (rctxs r) (<[d := k]> (rdrains r)) (remitted r) (rrecvd r) (rskipped r).
Definition take_one (d : nat) (tx : EncryptedTransaction) (rest : list EncryptedTransaction)
    (r : RaftOrderedLog) : RaftOrderedLog :=
  MkRaft (rcap r) rest (rdone r) (rcloseOnce r) (rfsm r) (rapplied r) (rshutdowns r)
    (rctxs r) (rdrains r) (remitted r) (rrecvd r ++ [(d, tx)]) (rskipped r).
Definition finish_ctx (x : nat) (e : ctx_error) (r : RaftOrderedLog) : RaftOrderedLog :=
  MkRaft (rcap r) (rch r) (rdone r) (rcloseOnce r) (rfsm r) (rapplied r) (rshutdowns r)
    (<[x := e]> (rctxs r)) (rdrains r) (remitted r) (rrecvd r) (rskipped r).

(** Close: the sync.Once runs its body once. *)
Definition raft_Close (r : RaftOrderedLog) : RaftOrderedLog :=
  if rcloseOnce r then r
  else MkRaft (rcap r) (rch r) true true (rfsm r) (rapplied r) (S (rshutdowns r)) (rctxs r)
         (rdrains r) (remitted r) (rrecvd r) (rskipped r).

Section raft.
(** What json.Unmarshal makes of data no node proposed, and the log. *)
Context (unmarshal_other : bytes → option raftProposal).
Context (rlog : list raft_entry).

(** ** The FSM *)

(** The transaction of an entry. *)
Definition entry_tx (e : raft_entry) : option EncryptedTransaction :=
  proposal ← Unmarshal unmarshal_other (Data e);
  Some {| ID := Index e; Ciphertext := pCiphertext proposal;
          ArrivedAt := Unix0 (SubmittedAtUnixNano proposal) |}.

(** The value Apply returns for an entry. *)
Definition fsm_response (e : raft_entry) : raft_response :=
  match entry_tx e with Some tx => RespTx tx | None => RespError end.

(** Apply up to its select. *)
Definition fsm_apply (r : RaftOrderedLog) : option RaftOrderedLog :=
  match rfsm r with
  | FSend _ => None
  | FIdle =>
      e ← rlog !! rapplied r;
      let r := set_applied (S (rapplied r)) r in
      match entry_tx e with
      | None => Some r
      | Some tx => Some (set_fsm (FSend tx) r)
      end
  end.

(** Its select: send the transaction, or drop it once [done] is closed. *)
Definition fsm_send (r : RaftOrderedLog) : option RaftOrderedLog :=
  match rfsm r with
  | FSend tx =>
      if decide (length (rch r) < rcap r) then Some (set_fsm FIdle (emit tx r)) else None
  | FIdle => None
  end.

Definition fsm_drop (r : RaftOrderedLog) : option RaftOrderedLog :=
  match rfsm r with
  | FSend tx => if rdone r then Some (set_skipped (set_fsm FIdle r)) else None
  | FIdle => None
  end.

(** Installing a snapshot of the log up to position [n]: Snapshot saves
    nothing and Restore does nothing. *)
Definition fsm_restore (n : nat) (r : RaftOrderedLog) : option RaftOrderedLog :=
  match rfsm r with
  | FIdle =>
      if decide (rapplied r < n ≤ length rlog) then Some (set_skipped (set_applied n r)) else None
  | FSend _ => None
  end.

(** ** DrainWait *)

(** A batch size that is not positive returns at once. *)
Definition rdrain_begin (d x : nat) (n : Z) (r : RaftOrderedLog) : option RaftOrderedLog :=
  match rdrains r !! d with
  | Some _ => None
  | None => Some (set_rdrain d (DrainCall (Some x) n [] (if (n <=? 0)%Z then Some None else None)) r)
  end.

Definition rdrain_return (d : nat) (k : drain_call) (e : option q_error) (r : RaftOrderedLog)
  : RaftOrderedLog :=
  set_rdrain d (DrainCall (d_ctx k) (d_size k) (d_batch k) (Some e)) r.

Definition rdrain_step (d : nat) (b : drain_branch) (r : RaftOrderedLog) : option RaftOrderedLog :=
  k ← rdrains r !! d;
  match d_ret k with
  | Some _ => None
  | None =>
      if (Z.of_nat (length (d_batch k)) <? d_size k)%Z then
        match b, rch r, d_ctx k with
        | DRecv, tx :: rest, _ =>
            Some (set_rdrain d (DrainCall (d_ctx k) (d_size k) (d_batch k ++ [tx]) None)
                    (take_one d tx rest r))
        | DClosed, _, _ => if rdone r then Some (rdrain_return d k (Some ErrQueueClosed) r) else None
        | DCtx, _, Some x => e ← rctxs r !! x; Some (rdrain_return d k (Some (CtxErr e)) r)
        | _, _, _ => None
        end
      else match b with DFull => Some (rdrain_return d k None r) | _ => None end
  end.

(** ** The transition system *)

Inductive raft_event :=
| RApply
| RSend
| RDrop
| RRestore (n : nat)
| RDrainWait (d x : nat) (n : Z)
| RDrainCall (d : nat) (b : drain_branch)
| RClose
| RCtxDone (x : nat) (e : ctx_error).

Definition raft_step (e : raft_event) (r : RaftOrderedLog) : option RaftOrderedLog :=
  match e with
  | RApply => fsm_apply r
  | RSend => fsm_send r
  | RDrop => fsm_drop r
  | RRestore n => fsm_restore n r
  | RDrainWait d x n => rdrain_begin d x n r
  | RDrainCall d b => rdrain_step d b r
  | RClose => Some (raft_Close r)
  | RCtxDone x e => match rctxs r !! x with Some _ => None | None => Some (finish_ctx x e r) end
  end.

Fixpoint raft_run (es : list raft_event) (r : RaftOrderedLog) : option RaftOrderedLog :=
  match es with
  | [] => Some r
  | e :: es => r ← raft_step e r; raft_run es r
  end.

Inductive raft_reachable : RaftOrderedLog → Prop :=
| raft_new buffer : raft_reachable (new_raft buffer)
| raft_next e r r' : raft_reachable r → raft_step e r = Some r' → raft_reachable r'.

(** ** SubmitWithReceipt *)

Inductive raft_submit_error (E : Type) :=
| RErrCtx (e : ctx_error) | RErrApply (e : E) | RErrResponse.
Arguments RErrCtx {E} e.
Arguments RErrApply {E} e.
Arguments RErrResponse {E}.

Definition defaultRaftApplyTimeout : Z := (10 * 10 ^ 9)%Z.

(** [err0] and [err1] are ctx.Err() at the entry and at the deadline check;
    [until] is time.Until of the context's deadline, if it has one; [now] is
    time.Now(); [apply] is raft.Apply: an error, or the FSM's response.  The
    result pairs the returned transaction with the returned error. *)
Definition raft_SubmitWithReceipt {E} (err0 : option ctx_error) (until : option Z)
    (err1 : option ctx_error) (now : Z) (apply : bytes → Z → res E raft_response)
    (ciphertext : bytes) : EncryptedTransaction * option (raft_submit_error E) :=
  match err0 with
  | Some e => (zero_tx, Some (RErrCtx e))
  | None =>
      let payload := ciphertext in
      let proposalBytes := Marshal (MkProposal (UnixNano now) payload) in
      let timeout := default defaultRaftApplyTimeout until in
      if bool_decide (is_Some until) && (timeout <=? 0)%Z then (zero_tx, RErrCtx <$> err1)
      else
        match apply proposalBytes timeout with
        | Err e => (zero_tx, Some (RErrApply e))
        | Ok (RespTx tx) => (tx, None)
        | Ok RespError => (zero_tx, Some RErrResponse)
        end
  end.

(** What the Raft library says of a node. *)
Inductive raft_state := Follower | Candidate | Leader | RaftShutdown.

#[global] Instance raft_state_eq_decision : EqDecision raft_state.
Proof. solve_decision. Defined.

Definition IsLeader (State : raft_state) : bool := bool_decide (State = Leader).

(** [LeaderWithID] is the library's answer: an address and an ID. *)
Definition LeaderAddress (LeaderWithID : bytes * bytes) : bytes := LeaderWithID.1.

(** [voter] is the library's AddVoter, with the error of its future. *)
Definition AddVoter {E} (voter : bytes → bytes → option E) (id address : bytes) : option E :=
  voter id address.

(** StepDown: [transfer] is the answer of LeadershipTransfer. *)
Definition StepDown {E} (State : raft_state) (transfer : option E) : option E :=
  if negb (IsLeader State) then None else transfer.

(** ** The invariant *)

(** The transactions of the first [n] entries. *)
Definition log_txs (n : nat) : list EncryptedTransaction := omap entry_tx (take n rlog).

Definition sending (f : fsm_pc) : list EncryptedTransaction :=
  match f with FSend tx => [tx] | FIdle => [] end.

Record raft_inv (r : RaftOrderedLog) : Prop := {
  rv_sub : sublist (remitted r ++ sending (rfsm r)) (log_txs (rapplied r));
  rv_exact : rskipped r = false → remitted r ++ sending (rfsm r) = log_txs (rapplied r);
  rv_split : remitted r = (rrecvd r).*2 ++ rch r;
  rv_batch : ∀ d k, rdrains r !! d = Some k → d_batch k = (filter (λ p, p.1 = d) (rrecvd r)).*2;
  rv_known : ∀ d tx, (d, tx) ∈ rrecvd r → is_Some (rdrains r !! d);
  rv_size : ∀ d k, rdrains r !! d = Some k →
              (Z.of_nat (length (d_batch k)) ≤ Z.max 0 (d_size k))%Z ∧
              match d_ret k with
              | Some None => (d_size k ≤ Z.of_nat (length (d_batch k)))%Z
              | Some (Some _) => (Z.of_nat (length (d_batch k)) < d_size k)%Z
              | None => True
              end
}.

(** The steps of the FSM and of the environment leave the drains alone. *)
Lemma raft_inv_fsm r r' :
  raft_inv r → rdrains r' = rdrains r → rrecvd r' = rrecvd r →
  sublist (remitted r' ++ sending (rfsm r')) (log_txs (rapplied r')) →
  (rskipped r' = false → remitted r' ++ sending (rfsm r') = log_txs (rapplied r')) →
  remitted r' = (rrecvd r').*2 ++ rch r' → raft_inv r'.
Proof. intros [] Hd Hr H1 H2 H3. split; rewrite ?Hd, ?Hr in *; done. Qed.

Lemma log_txs_S n e :
  rlog !! n = Some e → log_txs (S n) = log_txs n ++ option_list (entry_tx e).
Proof.
  intros He. unfold log_txs. rewrite (take_S_r _ _ e) by done. rewrite omap_app. cbn.
  by destruct (entry_tx e).
Qed.

Lemma log_txs_mono n m : n ≤ m → sublist (log_txs n) (log_txs m).
Proof.
  intros Hle. unfold log_txs. rewrite <- (take_drop n (take m rlog)), take_take, Nat.min_l by done.
  rewrite omap_app. apply sublist_inserts_r. done.
Qed.

Lemma fsm_apply_inv r r' : raft_inv r → fsm_apply r = Some r' → raft_inv r'.
Proof.
  intros Hi E. unfold fsm_apply in E. destruct (rfsm r) eqn:Hf; [|done].
  apply bind_Some in E as (e & He & E). pose proof (log_txs_S _ _ He) as HS.
  pose proof (rv_sub _ Hi) as Hs. pose proof (rv_exact _ Hi) as Hx. rewrite Hf in Hs, Hx. cbn in Hs, Hx.
  rewrite app_nil_r in Hs, Hx.
  destruct (entry_tx e) as [tx|] eqn:Ee; injection E as <-;
    (apply (raft_inv_fsm r); [done..| | |apply (rv_split _ Hi)]); cbn -[log_txs]; rewrite HS, ?Hf; cbn.
  - by apply sublist_app.
  - intros Hsk. by rewrite Hx.
  - by rewrite !app_nil_r.
  - intros Hsk. by rewrite !app_nil_r, Hx.
Qed.

Lemma fsm_send_inv r r' : raft_inv r → fsm_send r = Some r' → raft_inv r'.
Proof.
  intros Hi E. unfold fsm_send in E. destruct (rfsm r) as [|tx] eqn:Hf; [done|].
  case_decide; [|done]. injection E as <-.
  pose proof (rv_sub _ Hi) as Hs. pose proof (rv_exact _ Hi) as Hx. rewrite Hf in Hs, Hx. cbn in Hs, Hx.
  apply (raft_inv_fsm r); try done; cbn; rewrite ?app_nil_r; try done.
  by rewrite (rv_split _ Hi), app_assoc.
Qed.

Lemma fsm_drop_inv r r' : raft_inv r → fsm_drop r = Some r' → raft_inv r'.
Proof.
  intros Hi E. unfold fsm_drop in E. destruct (rfsm r) as [|tx] eqn:Hf; [done|].
  destruct (rdone r); [|done]. injection E as <-.
  pose proof (rv_sub _ Hi) as Hs. rewrite Hf in Hs. cbn in Hs.
  apply (raft_inv_fsm r); try done; cbn; [|by apply rv_split].
  rewrite app_nil_r. etrans; [|exact Hs]. by apply sublist_inserts_r.
Qed.

Lemma fsm_restore_inv n r r' : raft_inv r → fsm_restore n r = Some r' → raft_inv r'.
Proof.
  intros Hi E. unfold fsm_restore in E. destruct (rfsm r) eqn:Hf; [|done].
  case_decide as Hn; [|done]. injection E as <-.
  pose proof (rv_sub _ Hi) as Hs. rewrite Hf in Hs. cbn in Hs.
  apply (raft_inv_fsm r); try done; cbn; [|by apply rv_split].
  rewrite Hf. etrans; [exact Hs|]. apply log_txs_mono. lia.
Qed.

Lemma rdrain_begin_inv d x n r r' : raft_inv r → rdrain_begin d x n r = Some r' → raft_inv r'.
Proof.
  intros [Hs Hx Hsp Hb Hk Hz] E. unfold rdrain_begin in E.
  destruct (rdrains r !! d) eqn:Hd; [done|]. injection E as <-.
  split; cbn; try done.
  - intros d' k. rewrite lookup_insert. case_decide as Hdd; [|by apply Hb]. intros [= <-]. subst d'. cbn.
    destruct (filter _ (rrecvd r)) as [|[d0 tx] l] eqn:Ef; [done|].
    assert ((d0, tx) ∈ filter (λ p, p.1 = d) (rrecvd r)) as Hin by (rewrite Ef; by left).
    apply list_elem_of_filter in Hin as [<- Hin]. destruct (Hk _ _ Hin). cbn in *. congruence.
  - intros d' tx Hin. rewrite lookup_insert. case_decide; [done|]. by eapply Hk.
  - intros d' k. rewrite lookup_insert. case_decide; [|by apply Hz]. intros [= <-]. cbn.
    destruct (Z.leb_spec n 0); split; (lia || done).
Qed.

Lemma rdrain_return_inv d k e r :
  raft_inv r → rdrains r !! d = Some k →
  match e with
  | None => (d_size k ≤ Z.of_nat (length (d_batch k)))%Z
  | Some _ => (Z.of_nat (length (d_batch k)) < d_size k)%Z
  end → raft_inv (rdrain_return d k e r).
Proof.
  intros [Hs Hx Hsp Hb Hk Hz] Hd He. split; cbn; try done.
  - intros d' k'. rewrite lookup_insert. case_decide; [|by apply Hb]. intros [= <-]. subst d'.
    by apply (Hb d k).
  - intros d' tx Hin. rewrite lookup_insert. case_decide; [done|]. by eapply Hk.
  - intros d' k'. rewrite lookup_insert. case_decide; [|by apply Hz]. intros [= <-]. cbn.
    split; [by apply (Hz d k)|]. by destruct e.
Qed.

Lemma rdrain_recv_inv d k tx rest r :
  raft_inv r → rdrains r !! d = Some k → rch r = tx :: rest →
  (Z.of_nat (length (d_batch k)) < d_size k)%Z →
  raft_inv (set_rdrain d (DrainCall (d_ctx k) (d_size k) (d_batch k ++ [tx]) None)
              (take_one d tx rest r)).
Proof.
  intros [Hs Hx Hsp Hb Hk Hz] Hd Hch Hlt. split; cbn; try done.
  - rewrite fmap_app. cbn. by rewrite Hsp, Hch, <- app_assoc.
  - intros d' k'. rewrite lookup_insert, filter_snoc_recvd. case_decide as Hdd.
    + intros [= <-]. subst d'. cbn. by rewrite (Hb d k).
    + rewrite app_nil_r. apply Hb.
  - intros d' tx' Hin. rewrite lookup_insert. case_decide; [done|].
    apply elem_of_app in Hin as [Hin|[=]%list_elem_of_singleton]; [by eapply Hk|congruence].
  - intros d' k'. rewrite lookup_insert. case_decide; [|by apply Hz]. intros [= <-]. cbn.
    rewrite length_app. cbn. split; [lia|done].
Qed.

Lemma raft_step_inv e r r' : raft_inv r → raft_step e r = Some r' → raft_inv r'.
Proof.
  intros Hi E. destruct e as [| | |n|d x n|d b| |x c]; cbn in E.
  - by eapply fsm_apply_inv.
  - by eapply fsm_send_inv.
  - by eapply fsm_drop_inv.
  - by eapply fsm_restore_inv.
  - by eapply rdrain_begin_inv.
  - unfold rdrain_step in E. apply bind_Some in E as (k & Hk & E).
    destruct (d_ret k); [done|]. destruct (Z.ltb_spec (Z.of_nat (length (d_batch k))) (d_size k)).
    + destruct b, (rch r) as [|tx rest] eqn:Hch; try done.
      * injection E as <-. by apply rdrain_recv_inv.
      * destruct (rdone r); [|done]. injection E as <-. by apply rdrain_return_inv.
      * destruct (rdone r); [|done]. injection E as <-. by apply rdrain_return_inv.
      * destruct (d_ctx k); [|done]. apply bind_Some in E as (c & _ & [= <-]). by apply rdrain_return_inv.
      * destruct (d_ctx k); [|done]. apply bind_Some in E as (c & _ & [= <-]). by apply rdrain_return_inv.
    + destruct b; try done. injection E as <-. by apply rdrain_return_inv.
  - injection E as <-. unfold raft_Close. destruct (rcloseOnce r); [done|].
    destruct Hi. by split.
  - destruct (rctxs r !! x); [done|]. injection E as <-. destruct Hi. by split.
Qed.

Lemma raft_inv_reachable r : raft_reachable r → raft_inv r.
Proof.
  induction 1; [|by eapply raft_step_inv]. split; cbn; try done.
  intros d tx Hin. by apply elem_of_nil in Hin.
Qed.

(** ** RaftOrderedLog implements the OrderedLog interface *)

Definition raft_log_event (e : raft_event) : option (nat * Z) :=
  match e with RDrainWait d _ n => Some (d, n) | _ => None end.

(** The transactions committed for the consumers of a node are those its FSM
    sent. *)
#[local] Instance raft_log : OrderedLog RaftOrderedLog := {
  log_ok := raft_reachable;
  log_step o r r' := ∃ e, raft_log_event e = o ∧ raft_step e r = Some r';
  committed := remitted;
  taken := rrecvd;
  asked r d := d_size <$> rdrains r !! d;
  drain_result r d := k ← rdrains r !! d; (λ e, (d_batch k, bool_decide (e ≠ None))) <$> d_ret k;
  ids_fit _ := True
}.

(** What a step does to one drain call. *)
Lemma rdrains_step e r r' d :
  raft_step e r = Some r' →
  match rdrains r !! d with
  | Some k => ∃ k', rdrains r' !! d = Some k' ∧ d_size k' = d_size k ∧ (d_ret k ≠ None → k' = k)
  | None => d_size <$> rdrains r' !! d =
              (if raft_log_event e is Some (d', n) then if decide (d = d') then Some n else None else None)
  end.
Proof.
  intros E. destruct e as [| | |n|d' x n|d' b| |x c]; cbn in E.
  1-4: unfold fsm_apply, fsm_send, fsm_drop, fsm_restore in E; invert_step;
    cbn; destruct (rdrains r !! d); by eauto.
  - unfold rdrain_begin in E. destruct (rdrains r !! d') eqn:Hd'; [done|]. injection E as <-. cbn.
    rewrite lookup_insert. case_decide as Hdd.
    + subst d'. by rewrite Hd', decide_True by done.
    + rewrite decide_False by congruence. destruct (rdrains r !! d); by eauto.
  - unfold rdrain_step in E. invert_step; cbn; rewrite lookup_insert;
      (case_decide; [subst d'|destruct (rdrains r !! d); by eauto]);
      match goal with H : rdrains r !! d = Some _ |- _ => rewrite H end;
      eexists; split_and!; try done; cbn; intros; congruence.
  - injection E as <-. unfold raft_Close. destruct (rcloseOnce r); cbn; destruct (rdrains r !! d); by eauto.
  - invert_step. cbn. destruct (rdrains r !! d); by eauto.
Qed.

(** What a step hands over, and that the FSM's output only grows. *)
Lemma raft_flow_step e r r' :
  raft_step e r = Some r' →
  remitted r `prefix_of` remitted r' ∧
  ∃ new, rrecvd r' = rrecvd r ++ new ∧
    ∀ p, p ∈ new → ∃ k, rdrains r !! p.1 = Some k ∧ d_ret k = None.
Proof.
  intros E.
  assert (∀ q : RaftOrderedLog, rrecvd q = rrecvd r → remitted r `prefix_of` remitted q →
    remitted r `prefix_of` remitted q ∧
    ∃ new, rrecvd q = rrecvd r ++ new ∧
      ∀ p, p ∈ new → ∃ k, rdrains r !! p.1 = Some k ∧ d_ret k = None) as Hnil.
  { intros q -> Hp. split; [done|]. exists []. rewrite app_nil_r. split; [done|].
    by intros p ?%elem_of_nil. }
  destruct e as [| | |n|d x n|d b| |x c]; cbn in E;
    unfold fsm_apply, fsm_send, fsm_drop, fsm_restore, rdrain_begin, rdrain_step, raft_Close in E;
    invert_step; try (by apply Hnil); try (by apply Hnil; [done|cbn; by apply prefix_app_r]).
  all: try (split; [done|]; eexists; split; [reflexivity|]; intros p ->%list_elem_of_singleton; by eauto).
  all: apply Hnil; by destruct (rcloseOnce r).
Qed.

Context (indices : StronglySorted Z.lt (Index <$> rlog)).

Lemma entry_tx_ID e tx : entry_tx e = Some tx → ID tx = Index e.
Proof. unfold entry_tx. by intros (p & _ & [= <-])%bind_Some. Qed.

Lemma log_txs_sorted n : StronglySorted Z.lt (ID <$> log_txs n).
Proof.
  eapply StronglySorted_sublist; [|exact indices].
  assert (sublist (ID <$> log_txs n) (Index <$> take n rlog)) as H.
  { unfold log_txs. induction (take n rlog) as [|e l IH]; [done|]. cbn.
    destruct (entry_tx e) as [tx|] eqn:Ee; cbn; [|by apply sublist_cons].
    apply entry_tx_ID in Ee as ->. by apply sublist_skip. }
  etrans; [exact H|]. apply fmap_sublist. apply sublist_take.
Qed.

Lemma raft_log_laws : OrderedLogLaws RaftOrderedLog.
Proof.
  split.
  - intros o r r' Hr (e & _ & E). by econstructor.
  - intros o r r' _ (e & _ & E). by apply raft_flow_step in E as [? _].
  - intros r Hr _. eapply StronglySorted_sublist; [|apply (log_txs_sorted (rapplied r))].
    apply fmap_sublist. etrans; [|apply (rv_sub _ (raft_inv_reachable r Hr))].
    by apply sublist_inserts_r.
  - intros r Hr. exists (rch r). apply (rv_split _ (raft_inv_reachable r Hr)).
  - intros o r r' _ (e & _ & E). apply raft_flow_step in E as (_ & new & E & Hnew).
    exists new. split; [done|]. intros p Hp. destruct (Hnew p Hp) as (k & Hk & Hret). cbn.
    rewrite Hk. cbn. rewrite Hret. eauto.
  - intros r [d tx] Hr Hp. cbn.
    destruct (rv_known _ (raft_inv_reachable r Hr) d tx Hp) as [k ->]. eauto.
  - intros r r' d n _ (e & Ee & E). destruct e; try done. injection Ee as -> ->. cbn in *.
    unfold rdrain_begin in E. by destruct (rdrains r !! d).
  - intros o r r' d _ (e & <- & E). pose proof (rdrains_step _ _ _ d E) as H. cbn.
    destruct (rdrains r !! d) as [k|] eqn:Hk; [|by rewrite H].
    destruct H as (k' & -> & Hsz & _). cbn. rewrite Hsz.
    destruct e; try done. cbn in *. case_decide; [|done]. subst.
    unfold rdrain_begin in E. by rewrite Hk in E.
  - intros o r r' d res _ (e & _ & E) Hres. pose proof (rdrains_step _ _ _ d E) as H. cbn in *.
    destruct (rdrains r !! d) as [k|] eqn:Hk; cbn in Hres; [|done].
    destruct H as (k' & -> & _ & Hsame). cbn. destruct (d_ret k) eqn:Hret; [|done].
    rewrite Hsame by done. by rewrite Hret.
  - intros r d res _ Hres. cbn in *. destruct (rdrains r !! d); [by eexists|done].
  - intros r d b err Hr Hres. cbn in Hres. apply bind_Some in Hres as (k & Hk & Hres).
    destruct (d_ret k); cbn in Hres; simplify_eq. unfold received_by. cbn.
    by apply (rv_batch _ (raft_inv_reachable r Hr)).
  - intros r d n b err Hr Ha Hres. cbn in *. apply bind_Some in Hres as (k & Hk & Hres).
    rewrite Hk in Ha. cbn in Ha. destruct (rv_size _ (raft_inv_reachable r Hr) d k Hk) as [Hle Hret].
    destruct (d_ret k) as [[e|]|]; cbn in Hres; simplify_eq; cbn; lia.
Qed.

End raft.
