(* ===== verification/RaftProps.v ===== *)
(** What the Raft backend promises: replicas that reveal the same batches,
    honest receipts, and a shutdown that releases everyone; and two behaviours
    that break these promises. *)

From S2P Require Import Prelude GoStrings GoJson Commitment GoSlice Mempool.
From S2P Require Import TxQueue TxQueueInv OrderedLog Pipeline RaftLog.

(** ** Lemmas *)

Lemma int64_range z : is_int64 (int64 z).
Proof. unfold is_int64, int64, wrap64. pose proof (Z.mod_pos_bound (z + 2 ^ 63) (2 ^ 64)). lia. Qed.

(** The entry of a proposal carries the transaction that was proposed. *)
Lemma entry_tx_Marshal other i t ct :
  is_int64 t →
  entry_tx other (MkEntry i (Marshal (MkProposal t ct))) =
    Some {| ID := i; Ciphertext := ct; ArrivedAt := Unix0 t |}.
Proof. intros Ht. unfold entry_tx. cbn [Data Index]. by rewrite Unmarshal_Marshal. Qed.

(** A node that has skipped nothing has sent a beginning of the log. *)
Lemma remitted_prefix other rlog r :
  raft_reachable other rlog r → rskipped r = false →
  remitted r `prefix_of` log_txs other rlog (length rlog).
Proof.
  intros Hr Hsk. pose proof (rv_exact _ _ _ (raft_inv_reachable _ _ r Hr) Hsk) as E.
  trans (log_txs other rlog (rapplied r)); [rewrite <- E; by apply prefix_app_r|].
  unfold log_txs. rewrite (take_ge rlog (length rlog)) by lia.
  exists (omap (entry_tx other) (drop (rapplied r) rlog)).
  by rewrite <- omap_app, take_drop.
Qed.

Lemma closeOnce_done other rlog r :
  raft_reachable other rlog r →
  rcloseOnce r = rdone r ∧ rshutdowns r = (if rdone r then 1 else 0).
Proof.
  induction 1 as [|e r r' _ [Hc Hn] E]; [done|].
  destruct e; cbn in E;
    unfold fsm_apply, fsm_send, fsm_drop, fsm_restore, rdrain_begin, rdrain_step, raft_Close in E;
    invert_step; try done; repeat case_match; cbn in *; try done; split; congruence.
Qed.

(** What SubmitWithReceipt returns when Raft answers with the entry's
    transaction. *)
Lemma raft_receipt_returned {E} other (until : option Z) err1 now i ct
    (apply : bytes → Z → res E raft_response) :
  (if until is Some t then 0 < t else True)%Z →
  (∀ data t, apply data t = Ok (fsm_response other (MkEntry i data))) →
  raft_SubmitWithReceipt None until err1 now apply ct =
    ({| ID := i; Ciphertext := ct; ArrivedAt := Unix0 (UnixNano now) |}, None).
Proof.
  intros Hu Ha. assert (is_int64 (UnixNano now)) as Ht by apply int64_range. unfold raft_SubmitWithReceipt.
  assert (bool_decide (is_Some until) && (default defaultRaftApplyTimeout until <=? 0)%Z = false) as ->.
  { destruct until as [t|]; [|done]. cbn. by apply Z.leb_gt. }
  rewrite Ha. unfold fsm_response. by rewrite entry_tx_Marshal.
Qed.

(** A transaction belongs to a position of the log. *)
Lemma elem_of_log_txs other rlog n x :
  x ∈ log_txs other rlog n ↔ ∃ k e, k < n ∧ rlog !! k = Some e ∧ entry_tx other e = Some x.
Proof.
  unfold log_txs. rewrite list_elem_of_omap. split.
  - intros (e & [k Hk]%list_elem_of_lookup & Hx). apply lookup_take_Some in Hk as [Hk Hlt]. by exists k, e.
  - intros (k & e & Hlt & Hk & Hx). exists e. split; [|done]. apply list_elem_of_lookup. exists k.
    by rewrite lookup_take_lt.
Qed.

Lemma remitted_position other rlog r x :
  raft_reachable other rlog r → x ∈ remitted r →
  ∃ k e, k < rapplied r ∧ rlog !! k = Some e ∧ entry_tx other e = Some x.
Proof.
  intros Hr Hx. apply elem_of_log_txs. eapply elem_of_sublist; [|apply (rv_sub _ _ _ (raft_inv_reachable _ _ r Hr))].
  apply elem_of_app. by left.
Qed.

(** Later positions have larger IDs. *)
Lemma position_order other rlog :
  StronglySorted Z.lt (Index <$> rlog) → ∀ j k ej ek x y, j < k →
  rlog !! j = Some ej → rlog !! k = Some ek → entry_tx other ej = Some x → entry_tx other ek = Some y →
  (ID x < ID y)%Z.
Proof.
  intros Hix j k ej ek x y Hjk Hj Hk Hx Hy. apply entry_tx_ID in Hx as ->. apply entry_tx_ID in Hy as ->.
  rewrite <- (take_drop k rlog), fmap_app in Hix. apply StronglySorted_app in Hix as (Hix & _).
  apply Hix; apply list_elem_of_fmap_2, list_elem_of_lookup.
  - exists j. by rewrite lookup_take_lt.
  - exists 0. by rewrite lookup_drop, Nat.add_0_r.
Qed.

(** After restoring position [n] a node sends only entries from there on. *)
Lemma sent_since_restore other rlog n r0 r es r2 x :
  raft_step other rlog (RRestore n) r0 = Some r → raft_run other rlog es r = Some r2 → x ∈ remitted r2 →
  x ∈ remitted r0 ∨ ∃ k e, n ≤ k ∧ rlog !! k = Some e ∧ entry_tx other e = Some x.
Proof.
  set (P r := n ≤ rapplied r ∧ ∀ x, x ∈ remitted r ++ sending (rfsm r) →
    x ∈ remitted r0 ∨ ∃ k e, n ≤ k ∧ rlog !! k = Some e ∧ entry_tx other e = Some x).
  intros E Hrun Hx. assert (P r) as HP.
  { cbn in E. unfold fsm_restore in E. destruct (rfsm r0) eqn:Hf; [|done]. case_decide; [|done]. injection E as <-.
    split; cbn; [done|]. rewrite Hf, app_nil_r. by left. }
  assert (P r2) as [_ H]; [|apply H, elem_of_app; by left]. clear E Hx. revert r HP Hrun.
  induction es as [|ev es IH]; intros r [Hn HP]; cbn; [by intros [= <-]|].
  intros (r' & E & Hrun)%bind_Some. eapply IH, Hrun. clear IH Hrun. unfold P.
  destruct ev as [| | |m|d c z|d b| |c err]; cbn in E;
    unfold fsm_apply, fsm_send, fsm_drop, fsm_restore, rdrain_begin, rdrain_step, raft_Close in E; invert_step;
    cbn; try (by split).
  - split; [lia|]. intros y [Hy| ->%list_elem_of_singleton]%elem_of_app; [by apply HP, elem_of_app; left|].
    right. by exists (rapplied r), x0.
  - split; [lia|]. by rewrite Heqf.
  - split; [done|]. by rewrite app_nil_r.
  - split; [done|]. rewrite app_nil_r. intros y Hy. by apply HP, elem_of_app; left.
  - split; [lia|]. by rewrite Heqf.
  - by destruct (rcloseOnce r).
Qed.

(** ** Properties *)

(** C1: replicas agree.  Two sequencers of one Raft cluster apply the same log;
    as long as neither has skipped an entry (by restoring a snapshot, or by
    dropping one while it was shut down), the batch commitments they compute are
    the same at every index that both have reached, whatever the timing of
    their FSMs, collectors, mempools and batch goroutines, and whoever leads. *)
Theorem raft_replicas_agree other rlog g1 g2 db1 db2 ds1 ds2
    (s1 s2 : sequencer (L := RaftOrderedLog)) :
  StronglySorted Z.lt (Index <$> rlog) →
  pipe_reachable (Hlog := raft_log other rlog) g1 db1 ds1 s1 →
  pipe_reachable (Hlog := raft_log other rlog) g2 db2 ds2 s2 →
  rskipped (slog s1) = false → rskipped (slog s2) = false →
  commitments s1 `prefix_of` commitments s2 ∨ commitments s2 `prefix_of` commitments s1.
Proof.
  intros Hi Hr1 Hr2 Hk1 Hk2. pose proof (raft_log_laws other rlog Hi) as Hlaws.
  destruct (invariant_reachable _ _ _ s1 Hr1) as (? & ? & ? & ? & [Hl1 _ _ _ _ _ _ _ _]).
  destruct (invariant_reachable _ _ _ s2 Hr2) as (? & ? & ? & ? & [Hl2 _ _ _ _ _ _ _ _]).
  destruct (prefix_weak_total _ _ _ (remitted_prefix _ _ _ Hl1 Hk1) (remitted_prefix _ _ _ Hl2 Hk2))
    as [Hp|Hp].
  - exact (commitments_comparable _ _ _ _ _ _ s1 s2 Hr1 Hr2 Hp).
  - destruct (commitments_comparable _ _ _ _ _ _ s2 s1 Hr2 Hr1 Hp); auto.
Qed.

(** Receipts are honest.  If raft.Apply answers a proposal with the FSM's
    response for the entry it became, SubmitWithReceipt returns the transaction
    with that entry's index as ID, the caller's ciphertext, and the time of the
    call; and every replica that has applied the entry's position without
    skipping has sent, or is sending, this same transaction. *)
Theorem raft_receipts {E} other rlog (until : option Z) err1 now i ct
    (apply : bytes → Z → res E raft_response) :
  (if until is Some t then 0 < t else True)%Z →
  (∀ data t, apply data t = Ok (fsm_response other (MkEntry i data))) →
  let tx := {| ID := i; Ciphertext := ct; ArrivedAt := Unix0 (UnixNano now) |} in
  raft_SubmitWithReceipt None until err1 now apply ct = (tx, None) ∧
  ∀ r k, raft_reachable other rlog r → rskipped r = false → k < rapplied r →
    rlog !! k = Some (MkEntry i (Marshal (MkProposal (UnixNano now) ct))) →
    tx ∈ remitted r ++ sending (rfsm r).
Proof.
  intros Hu Ha tx. assert (is_int64 (UnixNano now)) as Ht by apply int64_range.
  split; [by apply (raft_receipt_returned other)|].
  intros r k Hr Hsk Hk He. rewrite (rv_exact _ _ _ (raft_inv_reachable _ _ r Hr) Hsk).
  unfold log_txs. apply list_elem_of_omap. eexists. split; [|by apply entry_tx_Marshal].
  apply list_elem_of_lookup. exists k. by rewrite lookup_take_lt.
Qed.

(** C26: Close releases everyone.  It can be called again without effect, it
    shuts Raft and its transport down once, and from then on the FSM is never
    blocked by a full channel and every DrainWait call in progress can return in
    its next step: with ErrQueueClosed, or without error if its batch is
    full. *)
Theorem raft_close_releases other rlog r :
  raft_reachable other rlog r →
  let r' := raft_Close r in
  raft_Close r' = r' ∧ rshutdowns r' = 1 ∧
  (∀ tx, rfsm r' = FSend tx → is_Some (fsm_drop r')) ∧
  ∀ d k, rdrains r' !! d = Some k → d_ret k = None →
    ∃ b, rdrain_step d b r' = Some (rdrain_return d k
      (if decide (d_size k ≤ Z.of_nat (length (d_batch k)))%Z then None else Some ErrQueueClosed) r').
Proof.
  intros Hr. destruct (closeOnce_done _ _ _ Hr) as [Hc Hn]. cbn zeta.
  assert (rdone (raft_Close r) = true ∧ rcloseOnce (raft_Close r) = true ∧
          rshutdowns (raft_Close r) = 1) as (Hd & Ho & Hs).
  { unfold raft_Close. rewrite Hc. destruct (rdone r) eqn:E; cbn; rewrite ?Hn; [|done].
    split_and!; congruence. }
  generalize dependent (raft_Close r). intros r' Hd Ho Hs. split_and!.
  - unfold raft_Close. by rewrite Ho.
  - done.
  - intros tx Hf. unfold fsm_drop. rewrite Hf, Hd. eauto.
  - intros d k Hk Hret. unfold rdrain_step. rewrite Hk. cbn [mbind option_bind]. rewrite Hret.
    destruct (Z.ltb_spec (Z.of_nat (length (d_batch k))) (d_size k)).
    + exists DClosed. rewrite decide_False by lia. rewrite Hd. by destruct (rch r').
    + exists DFull. by rewrite decide_True by lia.
Qed.

(** C37: a restored snapshot breaks the agreement.  Snapshots save nothing, so
    take a node that at any time restores one covering the entry of a transaction
    u that it has not applied, and that has sent some transaction t since then.
    It never sends u; and any node that skipped nothing and has sent t has sent u
    before it, so that of the two sequences neither extends the other. *)
Theorem raft_restore_diverges other rlog r0 n r es r2 k e u t r1 :
  StronglySorted Z.lt (Index <$> rlog) →
  raft_reachable other rlog r0 → raft_step other rlog (RRestore n) r0 = Some r → raft_run other rlog es r = Some r2 →
  rapplied r0 ≤ k < n → rlog !! k = Some e → entry_tx other e = Some u →
  t ∈ remitted r2 → t ∉ remitted r0 →
  raft_reachable other rlog r1 → rskipped r1 = false → t ∈ remitted r1 →
  u ∈ remitted r1 ∧ u ∉ remitted r2 ∧
  ¬ remitted r1 `prefix_of` remitted r2 ∧ ¬ remitted r2 `prefix_of` remitted r1.
Proof.
  intros Hix Hr0 Er Hrun Hk He Hu Ht Ht0 Hr1 Hsk Ht1.
  assert (u ∉ remitted r2) as Hu2.
  { intros Hin. destruct (sent_since_restore _ _ _ _ _ _ _ _ Er Hrun Hin) as [H0|(j & e' & Hj & He' & Hx)].
    - destruct (remitted_position _ _ _ _ Hr0 H0) as (j & e' & Hj & He' & Hx).
      pose proof (position_order _ _ Hix j k e' e u u ltac:(lia) He' He Hx Hu). lia.
    - pose proof (position_order _ _ Hix k j e e' u u ltac:(lia) He He' Hu Hx). lia. }
  destruct (sent_since_restore _ _ _ _ _ _ _ _ Er Hrun Ht) as [|(j & et & Hj & Het & Hxt)]; [done|].
  pose proof (position_order _ _ Hix k j e et u t ltac:(lia) He Het Hu Hxt) as Hlt.
  pose proof (rv_exact _ _ _ (raft_inv_reachable _ _ r1 Hr1) Hsk) as Ex.
  pose proof (log_txs_sorted other rlog Hix (rapplied r1)) as Hs1. rewrite <- Ex, fmap_app in Hs1.
  assert (u ∈ remitted r1) as Hu1.
  { destruct (remitted_position _ _ _ _ Hr1 Ht1) as (j' & e' & Hj' & He' & Hx').
    assert (k < rapplied r1) as Hk1.
    { destruct (decide (j' < j)); [|lia]. pose proof (position_order _ _ Hix j' j e' et t t ltac:(lia) He' Het Hx' Hxt). lia. }
    assert (u ∈ remitted r1 ++ sending (rfsm r1)) as [|Hsend]%elem_of_app; [|done|].
    - rewrite Ex. apply elem_of_log_txs. by exists k, e.
    - apply StronglySorted_app in Hs1 as (Hs1 & _).
      specialize (Hs1 (ID t) (ID u) (list_elem_of_fmap_2 _ _ _ Ht1) (list_elem_of_fmap_2 _ _ _ Hsend)). lia. }
  split_and!; [done|done| |].
  - intros [l Hl]. apply Hu2. rewrite Hl. apply elem_of_app. by left.
  - intros [l Hl]. rewrite Hl in Hu1, Hs1. apply elem_of_app in Hu1 as [|Hul]; [done|].
    apply StronglySorted_app_1_l in Hs1. rewrite fmap_app in Hs1. apply StronglySorted_app in Hs1 as (Hs1 & _).
    specialize (Hs1 (ID t) (ID u) (list_elem_of_fmap_2 _ _ _ Ht) (list_elem_of_fmap_2 _ _ _ Hul)). lia.
Qed.

(** A receipt for nothing.  If the context's deadline has passed but its
    timer has not fired yet, so that ctx.Err() is still nil, SubmitWithReceipt
    returns the zero transaction without an error and without proposing
    anything. *)
Theorem raft_empty_receipt {E} t now ct (apply : bytes → Z → res E raft_response) :
  (t ≤ 0)%Z → raft_SubmitWithReceipt None (Some t) None now apply ct = (zero_tx, None).
Proof.
  intros Ht. unfold raft_SubmitWithReceipt. cbn [bool_decide default]. 
  by rewrite (proj2 (Z.leb_le _ _)).
Qed.

(** ** Witnesses *)

Definition no_other (data : bytes) : option raftProposal := None.

(** A log of two proposals, around an entry that is not one. *)
Definition sample_log : list raft_entry :=
  [MkEntry 3 (Marshal (MkProposal 5 (str "a"))); MkEntry 4 (str "?");
   MkEntry 7 (Marshal (MkProposal 6 (str "bc")))].

Lemma raft_run_reachable other rlog es r r' :
  raft_reachable other rlog r → raft_run other rlog es r = Some r' → raft_reachable other rlog r'.
Proof.
  revert r. induction es as [|e es IH]; intros r Hr; cbn; [by intros [= <-]|].
  intros (r1 & E & Hrun)%bind_Some. eapply IH; [|done]. by econstructor.
Qed.

(** The state after some FSM steps. *)
Definition after (es : list raft_event) : RaftOrderedLog :=
  default (new_raft 8) (raft_run no_other sample_log es (new_raft 8)).

Definition one_applied : RaftOrderedLog := after [RApply; RSend].
Definition all_applied : RaftOrderedLog := after [RApply; RSend; RApply; RApply; RSend].

Lemma after_reachable es : raft_reachable no_other sample_log (after es).
Proof.
  unfold after. destruct (raft_run _ _ es _) as [r|] eqn:E; [|constructor].
  eapply raft_run_reachable; [constructor|exact E].
Qed.

Lemma raft_replicas_agree_witness :
  let s1 := start one_applied in
  let s2 := start all_applied in
  rapplied (slog s1) = 1 ∧ remitted (slog s2) =
    [{| ID := 3; Ciphertext := str "a"; ArrivedAt := 5 |};
     {| ID := 7; Ciphertext := str "bc"; ArrivedAt := 6 |}] ∧
  (commitments s1 `prefix_of` commitments s2 ∨ commitments s2 `prefix_of` commitments s1).
Proof.
  intros s1 s2. split; [vm_compute; reflexivity|]. split; [vm_compute; reflexivity|].
  apply (raft_replicas_agree no_other sample_log doubling doubling (λ _, Some []) (λ _, Some [])
    (λ _, Some []) (λ _, Some []) s1 s2).
  - repeat constructor.
  - apply pipe_start; [apply after_reachable|intros d; vm_compute; reflexivity].
  - apply pipe_start; [apply after_reachable|intros d; vm_compute; reflexivity].
  - vm_compute. reflexivity.
  - vm_compute. reflexivity.
Defined.

Lemma raft_receipts_witness :
  raft_SubmitWithReceipt (E := unit) None None None 6
    (λ data _, Ok (fsm_response no_other (MkEntry 7 data))) (str "bc") =
    ({| ID := 7; Ciphertext := str "bc"; ArrivedAt := 6 |}, None) ∧
  {| ID := 7; Ciphertext := str "bc"; ArrivedAt := 6 |} ∈
    remitted all_applied ++ sending (rfsm all_applied).
Proof.
  destruct (raft_receipts (E := unit) no_other sample_log None None 6 7 (str "bc")
    (λ data _, Ok (fsm_response no_other (MkEntry 7 data)))) as [E H]; [exact I|done|].
  split; [exact E|]. apply (H all_applied 2).
  - apply after_reachable.
  - vm_compute. reflexivity.
  - vm_compute. lia.
  - vm_compute. reflexivity.
Defined.

Lemma raft_close_releases_witness : rshutdowns (raft_Close all_applied) = 1.
Proof. apply (raft_close_releases no_other sample_log all_applied (after_reachable _)). Defined.

(** A node that restores the first two entries, against one that applies all. *)
Lemma raft_restore_diverges_witness :
  ∃ r r2, raft_step no_other sample_log (RRestore 2) (new_raft 8) = Some r ∧
    raft_run no_other sample_log [RApply; RSend] r = Some r2 ∧
    ¬ remitted all_applied `prefix_of` remitted r2 ∧ ¬ remitted r2 `prefix_of` remitted all_applied.
Proof.
  destruct (raft_step no_other sample_log (RRestore 2) (new_raft 8)) as [r|] eqn:E; [|by vm_compute in E].
  destruct (raft_run no_other sample_log [RApply; RSend] r) as [r2|] eqn:E2;
    [|vm_compute in E; injection E as <-; by vm_compute in E2].
  exists r, r2. split; [done|]. split; [done|].
  apply (raft_restore_diverges no_other sample_log (new_raft 8) 2 r [RApply; RSend] r2 0
    (MkEntry 3 (Marshal (MkProposal 5 (str "a")))) {| ID := 3; Ciphertext := str "a"; ArrivedAt := 5 |}
    {| ID := 7; Ciphertext := str "bc"; ArrivedAt := 6 |} all_applied); try done.
  - repeat constructor.
  - constructor.
  - cbn. lia.
  - vm_compute in E. injection E as <-. vm_compute in E2. injection E2 as <-. by left.
  - by intros ?%elem_of_nil.
  - apply after_reachable.
  - by right; left.
Defined.

Lemma raft_empty_receipt_witness :
  raft_SubmitWithReceipt (E := unit) None (Some (-3)%Z) None 6 (λ _ _, Err tt) (str "bc") = (zero_tx, None).
Proof. apply (raft_empty_receipt (-3) 6 (str "bc") (λ _ _, Err tt)). lia. Defined.
