(* ===== verification/CMemory.v ===== *)
(** The C memory that cgo and the C++ privacy layer work on: a heap of live
    blocks.  A block holds bytes, or one of the two arrays of structs of
    cpp/include/privacy/encryption.h; a cell that malloc left uninitialised is
    [None].  An access outside a live block, of uninitialised data or through
    NULL is undefined behaviour: the operation returns [None]. *)

From S2P Require Import Prelude.

(** Pointers are block addresses; 0 is NULL. *)
Abbreviation ptr := nat (only parsing).
Definition NULL : ptr := 0.

(** encryption.h *)
Record EncryptedTx := MkEnc { enc_ciphertext : ptr; enc_length : Z }.
Record DecryptedTx := MkDec {
  dec_plaintext : ptr;
  dec_length : Z;
  original_index : Z;
  dec_status : Z
}.

Definition SO_SUCCESS : Z := 0.
Definition SO_ERR_BAD_CIPHER : Z := -1.
Definition SO_ERR_KEY_MISMATCH : Z := -2.
Definition SO_ERR_INIT_FAILED : Z := -4.

Inductive block :=
| Bytes (b : list (option byte))
| EncArray (l : list (option EncryptedTx))
| DecArray (l : list (option DecryptedTx)).

Abbreviation cmem := (gmap nat block).

(** ** Allocation

    cgo's C.malloc and C.CBytes end the program when memory runs out, so they
    never return NULL. *)
Definition fresh_block (m : cmem) : ptr := fresh ({[NULL]} ∪ dom m : gset nat).

Definition C_malloc (b : block) (m : cmem) : ptr * cmem :=
  (fresh_block m, <[fresh_block m := b]> m).

Definition malloc_bytes (n : nat) : cmem → ptr * cmem := C_malloc (Bytes (replicate n None)).

Definition C_CBytes (bs : bytes) : cmem → ptr * cmem := C_malloc (Bytes (Some <$> bs)).

(** Freeing NULL does nothing; freeing a block twice is undefined. *)
Definition C_free (p : ptr) (m : cmem) : option cmem :=
  if decide (p = NULL) then Some m
  else match m !! p with Some _ => Some (delete p m) | None => None end.

Fixpoint C_free_all (ps : list ptr) (m : cmem) : option cmem :=
  match ps with
  | [] => Some m
  | p :: ps => m ← C_free p m; C_free_all ps m
  end.

(** ** Access *)

Definition read_bytes (m : cmem) (p : ptr) (n : nat) : option bytes :=
  match m !! p with
  | Some (Bytes b) => if decide (n ≤ length b) then mapM id (take n b) else None
  | _ => None
  end.

Definition write_bytes (p : ptr) (bs : bytes) (m : cmem) : option cmem :=
  match m !! p with
  | Some (Bytes b) =>
      if decide (length bs ≤ length b)
      then Some (<[p := Bytes ((Some <$> bs) ++ drop (length bs) b)]> m) else None
  | _ => None
  end.

Definition read_enc (m : cmem) (p : ptr) (i : nat) : option EncryptedTx :=
  match m !! p with Some (EncArray l) => mjoin (l !! i) | _ => None end.

Definition read_dec (m : cmem) (p : ptr) (i : nat) : option DecryptedTx :=
  match m !! p with Some (DecArray l) => mjoin (l !! i) | _ => None end.

Definition write_enc (p : ptr) (i : nat) (x : EncryptedTx) (m : cmem) : option cmem :=
  match m !! p with
  | Some (EncArray l) =>
      if decide (i < length l) then Some (<[p := EncArray (<[i := Some x]> l)]> m) else None
  | _ => None
  end.

Definition write_dec (p : ptr) (i : nat) (x : DecryptedTx) (m : cmem) : option cmem :=
  match m !! p with
  | Some (DecArray l) =>
      if decide (i < length l) then Some (<[p := DecArray (<[i := Some x]> l)]> m) else None
  | _ => None
  end.

(** A store to one field of a struct. *)
Definition update_dec (p : ptr) (i : nat) (f : DecryptedTx → DecryptedTx) (m : cmem) : option cmem :=
  d ← read_dec m p i; write_dec p i (f d) m.

Definition set_length (z : Z) (d : DecryptedTx) : DecryptedTx :=
  MkDec (dec_plaintext d) z (original_index d) (dec_status d).
Definition set_index (z : Z) (d : DecryptedTx) : DecryptedTx :=
  MkDec (dec_plaintext d) (dec_length d) z (dec_status d).
Definition set_status (z : Z) (d : DecryptedTx) : DecryptedTx :=
  MkDec (dec_plaintext d) (dec_length d) (original_index d) z.

(** [C.int(x)] and the conversion to uint32_t. *)
Definition int32 (z : Z) : Z := ((z + 2 ^ 31) mod 2 ^ 32 - 2 ^ 31)%Z.
Definition uint32 (z : Z) : Z := (z mod 2 ^ 32)%Z.

(** [C.GoBytes(p, n)] panics when [n] is negative. *)
Definition C_GoBytes (m : cmem) (p : ptr) (n : Z) : option bytes :=
  if (n <? 0)%Z then None else read_bytes m p (Z.to_nat n).

(** ** Lemmas *)

Lemma fresh_block_spec m : fresh_block m ≠ NULL ∧ m !! fresh_block m = None.
Proof.
  pose proof (is_fresh ({[NULL]} ∪ dom m : gset nat)) as H. fold (fresh_block m) in H.
  rewrite not_elem_of_union, not_elem_of_singleton in H. destruct H as [H1 H2].
  split; [done|]. by apply not_elem_of_dom in H2.
Qed.

Lemma C_free_live p m b : p ≠ NULL → m !! p = Some b → C_free p m = Some (delete p m).
Proof. intros Hp Hm. unfold C_free. by rewrite decide_False, Hm. Qed.

Lemma read_bytes_full m p bs : m !! p = Some (Bytes (Some <$> bs)) → read_bytes m p (length bs) = Some bs.
Proof.
  intros H. unfold read_bytes. rewrite H, decide_True by (by rewrite length_fmap).
  rewrite take_ge by (by rewrite length_fmap). by apply mapM_fmap_Some.
Qed.

(** Reading back the front of a block that was just written. *)
Lemma read_bytes_front m p bs r :
  m !! p = Some (Bytes ((Some <$> bs) ++ r)) → read_bytes m p (length bs) = Some bs.
Proof.
  intros H. unfold read_bytes. rewrite H, decide_True by (rewrite length_app, length_fmap; lia).
  rewrite take_app_length' by (by rewrite length_fmap). by apply mapM_fmap_Some.
Qed.

Lemma write_bytes_spec p bs m b :
  m !! p = Some (Bytes b) → length bs ≤ length b →
  write_bytes p bs m = Some (<[p := Bytes ((Some <$> bs) ++ drop (length bs) b)]> m).
Proof. intros H Hl. unfold write_bytes. by rewrite H, decide_True. Qed.

Lemma read_dec_insert_ne m p q b i : p ≠ q → read_dec (<[q := b]> m) p i = read_dec m p i.
Proof. intros H. unfold read_dec. by rewrite lookup_insert_ne. Qed.

Lemma read_dec_Some m p i d :
  read_dec m p i = Some d → ∃ l, m !! p = Some (DecArray l) ∧ l !! i = Some (Some d).
Proof.
  unfold read_dec. destruct (m !! p) as [[]|]; try done. intros H. eexists; split; [done|].
  by destruct (l !! i) as [[?|]|]; simplify_eq/=.
Qed.

(** A field store changes one struct and nothing else. *)
Lemma update_dec_spec p i f m d :
  read_dec m p i = Some d →
  ∃ m', update_dec p i f m = Some m' ∧ read_dec m' p i = Some (f d) ∧
    (∀ j, j ≠ i → read_dec m' p j = read_dec m p j) ∧
    (∀ q, q ≠ p → m' !! q = m !! q) ∧
    (∀ l, m !! p = Some (DecArray l) → m' !! p = Some (DecArray (<[i := Some (f d)]> l))).
Proof.
  intros Hd. pose proof Hd as (l & Hl & Hi)%read_dec_Some.
  unfold update_dec, write_dec. rewrite Hd. cbn. rewrite Hl.
  pose proof (lookup_lt_Some _ _ _ Hi) as Hlt. rewrite decide_True by done.
  eexists; split; [done|]. unfold read_dec. rewrite !lookup_insert_eq, Hl. split_and!.
  - by rewrite list_lookup_insert_eq.
  - intros j Hj. by rewrite list_lookup_insert_ne by done.
  - intros q Hq. by rewrite lookup_insert_ne.
  - congruence.
Qed.

Lemma int32_small z : (0 ≤ z < 2 ^ 31)%Z → int32 z = z.
Proof. intros H. unfold int32. rewrite Z.mod_small by lia. lia. Qed.
