(* ===== verification/Tasks.v ===== *)
(** Tasks that run interleaved on a shared state: a schedule lists which task
    takes the next step.  The threads of decrypt_batch_tx and the tasks of the
    thread pool are such tasks. *)

From S2P Require Import Prelude.

(** ** Sums over tasks *)

Lemma sum_insert {A} (f : A → nat) l k x y :
  l !! k = Some x → sum_list_with f (<[k := y]> l) + f x = sum_list_with f l + f y.
Proof.
  intros Hk. rewrite insert_take_drop by (by eapply lookup_lt_Some).
  rewrite <- (take_drop_middle _ _ _ Hk) at 3. rewrite !sum_list_with_app. cbn. lia.
Qed.

Lemma sum_le {A} (f g : A → nat) l : (∀ x, x ∈ l → f x ≤ g x) → sum_list_with f l ≤ sum_list_with g l.
Proof.
  induction l as [|x l IH]; intros H; cbn; [done|].
  assert (f x ≤ g x) by (apply H; left). assert (sum_list_with f l ≤ sum_list_with g l); [|lia].
  apply IH. intros y Hy. apply H. by right.
Qed.

Lemma sum_elem {A} (f : A → nat) l x : x ∈ l → f x ≤ sum_list_with f l.
Proof. induction 1; cbn; lia. Qed.

Section tasks.
(** A step returns [None] when its behaviour is undefined. *)
Context {T X : Type} (tstep : T → X → option (T * X)) (tdone : T → bool).

Record tasks := MkTasks { code : list T; shared : X }.

(** A turn of task [k]; a turn of a finished task does nothing. *)
Definition run_task (k : nat) (s : tasks) : option tasks :=
  match code s !! k with
  | Some t =>
      if tdone t then Some s
      else '(t', x) ← tstep t (shared s); Some (MkTasks (<[k := t']> (code s)) x)
  | None => Some s
  end.

Fixpoint run_sched (ks : list nat) (s : tasks) : option tasks :=
  match ks with
  | [] => Some s
  | k :: ks => s ← run_task k s; run_sched ks s
  end.

Definition all_done (s : tasks) : bool := forallb tdone (code s).

(** The turns of task [k] in a schedule. *)
Definition turns (k : nat) (ks : list nat) : nat := length (filter (λ j, j = k) ks).

(** ** Lemmas *)

Lemma run_sched_app ks1 ks2 s : run_sched (ks1 ++ ks2) s = run_sched ks1 s ≫= run_sched ks2.
Proof.
  revert s. induction ks1 as [|k ks1 IH]; intros s; cbn; [done|].
  destruct (run_task k s); cbn; [apply IH|done].
Qed.

Lemma all_done_spec s : all_done s = true ↔ ∀ k t, code s !! k = Some t → tdone t = true.
Proof.
  unfold all_done. rewrite forallb_forall. split.
  - intros H k t Hk. apply H, list_elem_of_In. by eapply list_elem_of_lookup_2.
  - intros H t [k Hk]%list_elem_of_In%list_elem_of_lookup. by eapply H.
Qed.

(** An invariant of the turns: no schedule runs into undefined behaviour. *)
Lemma run_sched_inv (P : tasks → Prop) ks s :
  (∀ k s, P s → ∃ s', run_task k s = Some s' ∧ P s') → P s →
  ∃ s', run_sched ks s = Some s' ∧ P s'.
Proof.
  intros Hstep. revert s. induction ks as [|k ks IH]; intros s Hs; cbn; [by eauto|].
  destruct (Hstep k s Hs) as (s1 & -> & H1). cbn. by apply IH.
Qed.

Lemma turns_cons_eq k ks : turns k (k :: ks) = S (turns k ks).
Proof. unfold turns. by rewrite filter_cons_True. Qed.
Lemma turns_cons_ne j k ks : j ≠ k → turns k (j :: ks) = turns k ks.
Proof. intros H. unfold turns. by rewrite filter_cons_False. Qed.
Lemma turns_replicate k n : turns k (replicate n k) = n.
Proof. induction n as [|n IH]; [done|]. cbn [replicate]. by rewrite turns_cons_eq, IH. Qed.

(** Termination: a task that makes progress at every turn is done after enough
    turns, whatever the others do. *)
Context (rem : T → nat).
Context (tstep_rem : ∀ t x t' x', tdone t = false → tstep t x = Some (t', x') → rem t' < rem t).

Lemma run_task_other j k s s' :
  run_task j s = Some s' → j ≠ k → code s' !! k = code s !! k.
Proof.
  unfold run_task. intros E Hne. destruct (code s !! j) as [t|]; [|by simplify_eq].
  destruct (tdone t); [by simplify_eq|]. apply bind_Some in E as ([t' x] & _ & [= <-]). cbn.
  by rewrite list_lookup_insert_ne.
Qed.

Lemma run_task_length j s s' : run_task j s = Some s' → length (code s') = length (code s).
Proof.
  unfold run_task. intros E. destruct (code s !! j) as [t|]; [|by simplify_eq].
  destruct (tdone t); [by simplify_eq|]. apply bind_Some in E as ([t' x] & _ & [= <-]). cbn.
  by rewrite length_insert.
Qed.

(** A finished task stays as it is. *)
Lemma run_sched_frozen ks s s' k t :
  run_sched ks s = Some s' → code s !! k = Some t → tdone t = true → code s' !! k = Some t.
Proof.
  intros E Ht Hd. revert s E Ht. induction ks as [|j ks IH]; intros s E Ht; cbn in E; [by simplify_eq|].
  apply bind_Some in E as (s1 & E1 & E). apply (IH s1); [done|].
  destruct (decide (j = k)) as [->|]; [|by rewrite (run_task_other j k s s1)].
  unfold run_task in E1. rewrite Ht, Hd in E1. by simplify_eq.
Qed.

Lemma run_sched_rem ks s s' k t :
  run_sched ks s = Some s' → code s !! k = Some t →
  ∃ t', code s' !! k = Some t' ∧ (tdone t' = true ∨ rem t' + turns k ks ≤ rem t).
Proof.
  revert s t. induction ks as [|j ks IH]; intros s t E Ht; cbn in E.
  { simplify_eq. exists t. split; [done|]. right. cbn. lia. }
  apply bind_Some in E as (s1 & E1 & E). destruct (decide (j = k)) as [->|Hne].
  - unfold run_task in E1. rewrite Ht in E1. destruct (tdone t) eqn:Hd.
    + simplify_eq. exists t. split; [|by left]. by eapply run_sched_frozen.
    + apply bind_Some in E1 as ([t1 x1] & Es & [= <-]).
      destruct (IH _ t1 E) as (t' & Ht' & Hr).
      { cbn. rewrite list_lookup_insert_eq; [done|by eapply lookup_lt_Some]. }
      exists t'. split; [done|]. destruct Hr as [Hr|Hr]; [by left|right].
      apply tstep_rem in Es; [|done]. rewrite turns_cons_eq. lia.
  - rewrite turns_cons_ne by done. apply (IH s1); [done|]. by rewrite (run_task_other j k s s1).
Qed.

Lemma run_sched_length ks s s' : run_sched ks s = Some s' → length (code s') = length (code s).
Proof.
  revert s. induction ks as [|j ks IH]; intros s E; cbn in E; [by simplify_eq|].
  apply bind_Some in E as (s1 & E1 & E). rewrite (IH _ E). by eapply run_task_length.
Qed.

Lemma run_sched_done ks s s' :
  run_sched ks s = Some s' → (∀ k t, code s !! k = Some t → rem t ≤ turns k ks) →
  (∀ t, tdone t = false → 0 < rem t) → all_done s' = true.
Proof.
  intros E Ht Hpos. apply all_done_spec. intros k t' Hk.
  destruct (code s !! k) as [t|] eqn:Hs.
  - destruct (run_sched_rem _ _ _ _ _ E Hs) as (t1 & H1 & Hr). simplify_eq.
    destruct (tdone t') eqn:Hd; [done|]. specialize (Ht k t Hs). specialize (Hpos t' Hd).
    destruct Hr; [done|lia].
  - apply lookup_ge_None in Hs. apply lookup_lt_Some in Hk. rewrite (run_sched_length _ _ _ E) in Hk. lia.
Qed.
End tasks.

Arguments tasks : clear implicits.
Arguments MkTasks {T X}.
Arguments code {T X}.
Arguments shared {T X}.
