(* ===== verification/Decryption.v ===== *)
(** cpp/src/privacy/encryption.cpp: sealing, single decryption, and
    decrypt_batch_tx, which splits a batch into chunks and decrypts each chunk
    on a thread of its own.

    libsodium's crypto_box_seal and crypto_box_seal_open are parameters.  The
    threads are tasks on the shared C memory whose steps are single stores and
    calls; a schedule interleaves them. *)

From S2P Require Import Prelude CMemory Tasks.

Definition crypto_box_SEALBYTES : Z := 48.
Definition crypto_box_PUBLICKEYBYTES : Z := 32.
Definition crypto_box_SECRETKEYBYTES : Z := 32.

(** ** Splitting a batch *)

(** [hw] is std::thread::hardware_concurrency(). *)
Definition num_threads (hw batch_size : Z) : Z :=
  Z.min (if (hw =? 0)%Z then 2 else hw) batch_size.

Definition chunk_size (num_threads batch_size : Z) : Z :=
  (wrap64 (batch_size + num_threads - 1) / num_threads)%Z.

(** The items of thread [t]: from [start] up to, but not including, [end]. *)
Definition chunk (num_threads batch_size t : Z) : Z * Z :=
  let c := chunk_size num_threads batch_size in
  let start := wrap64 (t * c) in
  (start, Z.min (wrap64 (start + c)) batch_size).

Definition chunks (hw batch_size : Z) : list (Z * Z) :=
  let nt := num_threads hw batch_size in
  chunk nt batch_size <$> seqZ 0 nt.

(** ** Lifecycle and keys *)

(** [ret] is the result of sodium_init(). *)
Definition init_privacy_layer (ret : Z) : Z :=
  if (ret <? 0)%Z then SO_ERR_INIT_FAILED else SO_SUCCESS.

(** keygen.cpp: [init] is the result of sodium_init(), [pair] what
    crypto_box_keypair returns: its code, and the keys when it is 0. *)
Definition generate_sequencer_keys (init : Z) (pair : Z * (bytes * bytes)) (public_key private_key : ptr)
    (m : cmem) : option (Z * cmem) :=
  if (init <? 0)%Z then Some (SO_ERR_INIT_FAILED, m)
  else if decide (pair.1 ≠ 0%Z) then Some (SO_ERR_KEY_MISMATCH, m)
  else
    m ← write_bytes public_key pair.2.1 m;
    m ← write_bytes private_key pair.2.2 m;
    Some (SO_SUCCESS, m).

Section decryption.
(** libsodium: the sealed box of a message for a public key ([None] when it
    fails), and opening one with a keypair. *)
Context (seal : bytes → bytes → option bytes).
Context (seal_open : bytes → bytes → bytes → option bytes).

(** ** Single calls *)

Definition seal_transaction (plaintext : ptr) (len : nat) (seq_pub_key ciphertext : ptr) (m : cmem)
  : option (Z * cmem) :=
  msg ← read_bytes m plaintext len;
  pk ← read_bytes m seq_pub_key (Z.to_nat crypto_box_PUBLICKEYBYTES);
  match seal msg pk with
  | None => Some (SO_ERR_BAD_CIPHER, m)
  | Some c => m ← write_bytes ciphertext c m; Some (SO_SUCCESS, m)
  end.

(** crypto_box_seal_open(out, c, clen, pub, priv): 0 and the message written
    to [out], or -1. *)
Definition crypto_box_seal_open (out c : ptr) (clen : Z) (pub_key priv_key : ptr) (m : cmem)
  : option (Z * cmem) :=
  box ← read_bytes m c (Z.to_nat clen);
  pk ← read_bytes m pub_key (Z.to_nat crypto_box_PUBLICKEYBYTES);
  sk ← read_bytes m priv_key (Z.to_nat crypto_box_SECRETKEYBYTES);
  match seal_open box pk sk with
  | None => Some (-1, m)%Z
  | Some msg => m ← write_bytes out msg m; Some (0%Z, m)
  end.

(** [input] and [output] are the structs the caller passes by address; the
    result is the return value, the output struct, and the memory. *)
Definition decrypt_single_tx (input : EncryptedTx) (pub_key priv_key : ptr) (output : DecryptedTx)
    (m : cmem) : option (Z * DecryptedTx * cmem) :=
  if (enc_length input <? crypto_box_SEALBYTES)%Z then
    Some (SO_ERR_BAD_CIPHER, set_length 0 (set_status SO_ERR_BAD_CIPHER output), m)
  else
    let plaintext_len := (enc_length input - crypto_box_SEALBYTES)%Z in
    '(res, m) ← crypto_box_seal_open (dec_plaintext output) (enc_ciphertext input)
                  (enc_length input) pub_key priv_key m;
    if decide (res ≠ 0%Z) then
      Some (SO_ERR_KEY_MISMATCH, set_length 0 (set_status SO_ERR_KEY_MISMATCH output), m)
    else Some (SO_SUCCESS, set_status SO_SUCCESS (set_length plaintext_len output), m).

(** ** The batch *)

Section batch.
Context (inputs pub_key priv_key outputs : ptr).

(** What the threads share besides the arrays: the memory and [any_failure]. *)
Record batch_state := MkBatch { bmem : cmem; any_failure : Z }.

Definition set_bmem (m : cmem) (x : batch_state) : batch_state := MkBatch m (any_failure x).
Definition fail_batch (x : batch_state) : batch_state := MkBatch (bmem x) SO_ERR_BAD_CIPHER.

(** Where a thread is in its loop: testing [i < end] and the length, opening
    box [i], storing the three parts of a failure, storing the three parts of a
    success, or finished. *)
Inductive task_pc :=
| PLoop (i : nat) | POpen (i : nat)
| PBadStatus (i : nat) | PBadLength (i : nat) | PBadFlag (i : nat)
| PLength (i : nat) | PIndex (i : nat) | PStatus (i : nat)
| PDone.

(** A thread: the end of its chunk, and where it is. *)
Record chunk_task := MkChunk { chunk_end : nat; chunk_pc : task_pc }.

Definition chunk_done (t : chunk_task) : bool := match chunk_pc t with PDone => true | _ => false end.

Definition item_step (stop : nat) (pc : task_pc) (x : batch_state) : option (task_pc * batch_state) :=
  match pc with
  | PLoop i =>
      if decide (i < stop) then
        inp ← read_enc (bmem x) inputs i;
        Some (if (enc_length inp <? crypto_box_SEALBYTES)%Z then PBadStatus i else POpen i, x)
      else Some (PDone, x)
  | POpen i =>
      inp ← read_enc (bmem x) inputs i;
      out ← read_dec (bmem x) outputs i;
      '(res, m) ← crypto_box_seal_open (dec_plaintext out) (enc_ciphertext inp) (enc_length inp)
                    pub_key priv_key (bmem x);
      Some (if decide (res ≠ 0%Z) then PBadStatus i else PLength i, set_bmem m x)
  | PBadStatus i =>
      m ← update_dec outputs i (set_status SO_ERR_BAD_CIPHER) (bmem x);
      Some (PBadLength i, set_bmem m x)
  | PBadLength i =>
      m ← update_dec outputs i (set_length 0) (bmem x);
      Some (PBadFlag i, set_bmem m x)
  | PBadFlag i => Some (PLoop (S i), fail_batch x)
  | PLength i =>
      inp ← read_enc (bmem x) inputs i;
      m ← update_dec outputs i (set_length (enc_length inp - crypto_box_SEALBYTES)) (bmem x);
      Some (PIndex i, set_bmem m x)
  | PIndex i =>
      m ← update_dec outputs i (set_index (uint32 (Z.of_nat i))) (bmem x);
      Some (PStatus i, set_bmem m x)
  | PStatus i =>
      m ← update_dec outputs i (set_status SO_SUCCESS) (bmem x);
      Some (PLoop (S i), set_bmem m x)
  | PDone => Some (PDone, x)
  end.

Definition chunk_step (t : chunk_task) (x : batch_state) : option (chunk_task * batch_state) :=
  '(pc, x) ← item_step (chunk_end t) (chunk_pc t) x;
  Some (MkChunk (chunk_end t) pc, x).

Definition new_chunk (c : Z * Z) : chunk_task := MkChunk (Z.to_nat c.2) (PLoop (Z.to_nat c.1)).

(** How a call that waits for other threads ends. *)
Inductive call_result (A : Type) := Returned (a : A) | Waiting | Undefined.
Arguments Returned {A} a.
Arguments Waiting {A}.
Arguments Undefined {A}.

(** decrypt_batch_tx returns once every thread has been joined.  [hw] is the
    number of hardware threads and [sched] the interleaving of the workers. *)
Definition decrypt_batch_tx (hw : Z) (sched : list nat) (batch_size : Z) (m : cmem)
  : call_result (Z * cmem) :=
  if (batch_size =? 0)%Z then Returned (SO_SUCCESS, m)
  else
    match run_sched chunk_step chunk_done sched
            (MkTasks (new_chunk <$> chunks hw batch_size) (MkBatch m SO_SUCCESS)) with
    | None => Undefined
    | Some s =>
        if all_done chunk_done s then Returned (any_failure (shared s), bmem (shared s)) else Waiting
    end.
End batch.
End decryption.

Arguments Returned {A} a.
Arguments Waiting {A}.
Arguments Undefined {A}.
