(* ===== verification/DecryptionInv.v ===== *)
(** The arithmetic of the chunks of a batch, the typing of the C memory that
    decrypt_batch_tx works on, and the invariant of its threads. *)

From S2P Require Import Prelude CMemory Tasks Decryption.

(** ** Chunks *)

Section chunks.
Context (hw n : Z) (Hhw : (0 ≤ hw)%Z) (Hn : (0 < n < 2 ^ 63)%Z).

Let nt := num_threads hw n.
Let c := ((n + nt - 1) / nt)%Z.

Lemma num_threads_range : (0 < nt ≤ n)%Z.
Proof. unfold nt, num_threads. destruct (Z.eqb_spec hw 0); lia. Qed.

Lemma chunk_size_range : (0 < c ∧ n ≤ nt * c < n + nt)%Z.
Proof.
  pose proof num_threads_range. pose proof (Z.div_mod (n + nt - 1) nt ltac:(lia)).
  pose proof (Z.mod_pos_bound (n + nt - 1) nt ltac:(lia)). fold c in H0. nia.
Qed.

(** No arithmetic on size_t wraps around. *)
Lemma chunk_eq t : (0 ≤ t < nt)%Z → chunk nt n t = (t * c, Z.min (t * c + c) n)%Z.
Proof.
  intros Ht. pose proof num_threads_range. pose proof chunk_size_range as [Hc Hle].
  unfold chunk, chunk_size. rewrite (wrap64_small (n + nt - 1)) by (unfold is_uint64; lia).
  fold c. assert (0 ≤ t * c ∧ t * c + c ≤ nt * c)%Z by nia.
  rewrite (wrap64_small (t * c)), wrap64_small; unfold is_uint64; lia || done.
Qed.

Lemma lookup_chunks k s e :
  chunks hw n !! k = Some (s, e) →
  (0 ≤ Z.of_nat k < nt ∧ s = Z.of_nat k * c ∧ e = Z.min (Z.of_nat k * c + c) n)%Z.
Proof.
  unfold chunks. fold nt. rewrite list_lookup_fmap, fmap_Some. intros (t & Ht & E).
  apply lookup_seqZ in Ht as [-> Hlt]. rewrite Z.add_0_l in *.
  rewrite chunk_eq in E by lia. simplify_eq. lia.
Qed.

Lemma chunks_length : length (chunks hw n) = Z.to_nat nt.
Proof. unfold chunks. by rewrite length_fmap, length_seqZ. Qed.

(** The chunk of item [j]. *)
Lemma chunks_owner j :
  (0 ≤ j < n)%Z →
  ∃ k s e, chunks hw n !! k = Some (s, e) ∧ (s ≤ j < e)%Z.
Proof.
  intros Hj. pose proof num_threads_range. pose proof chunk_size_range as [Hc Hle].
  pose proof (Z.div_mod j c ltac:(lia)). pose proof (Z.mod_pos_bound j c ltac:(lia)).
  assert (0 ≤ j / c < nt)%Z as Hk by nia.
  exists (Z.to_nat (j / c)), (j / c * c)%Z, (Z.min (j / c * c + c) n). split; [|nia].
  unfold chunks. rewrite list_lookup_fmap.
  rewrite (lookup_seqZ_lt 0) by (fold nt; lia). cbn. fold nt.
  rewrite Z2Nat.id by lia. rewrite chunk_eq by lia. done.
Qed.

Lemma chunks_disjoint j k k' s e s' e' :
  chunks hw n !! k = Some (s, e) → chunks hw n !! k' = Some (s', e') →
  (s ≤ j < e)%Z → (s' ≤ j < e')%Z → k = k'.
Proof.
  intros (Hk & -> & ->)%lookup_chunks (Hk' & -> & ->)%lookup_chunks H H'.
  pose proof chunk_size_range. nia.
Qed.
End chunks.

(** ** The memory of a batch *)

Section batch.
Context (seal_open : bytes → bytes → bytes → option bytes).
(** Documented of crypto_box_seal_open: a message is crypto_box_SEALBYTES
    shorter than its box. *)
Context (seal_open_length : ∀ c pk sk msg, seal_open c pk sk = Some msg → length c = length msg + 48).
Context (inputs pub_key priv_key outputs : ptr).
Context (pk sk : bytes) (cts : list bytes) (cptr pptr : list ptr).

(** The plaintext buffers are distinct blocks, apart from the blocks that are
    only read. *)
Record layout : Prop := {
  ly_cptr : length cptr = length cts;
  ly_pptr : length pptr = length cts;
  ly_pk : length pk = 32;
  ly_sk : length sk = 32;
  ly_nodup : NoDup pptr;
  ly_sep : ∀ p, p ∈ pptr → p ≠ pub_key ∧ p ≠ priv_key ∧ p ∉ cptr
}.

(** The types of the blocks: every box in its input struct, a buffer with room
    for its message in its output struct, and the keys. *)
Record heap_typed (m : cmem) : Prop := {
  ht_inputs : m !! inputs =
    Some (EncArray (zip_with (λ p ct, Some (MkEnc p (Z.of_nat (length ct)))) cptr cts));
  ht_outputs : ∃ ds, m !! outputs = Some (DecArray (Some <$> ds)) ∧ dec_plaintext <$> ds = pptr;
  ht_cipher : ∀ i p ct, cptr !! i = Some p → cts !! i = Some ct →
    m !! p = Some (Bytes (Some <$> ct));
  ht_plain : ∀ i p ct, pptr !! i = Some p → cts !! i = Some ct →
    ∃ b, m !! p = Some (Bytes b) ∧ length ct ≤ length b + 48;
  ht_pub : m !! pub_key = Some (Bytes (Some <$> pk));
  ht_priv : m !! priv_key = Some (Bytes (Some <$> sk))
}.

Context (Hly : layout).

(** An item's output struct and plaintext buffer. *)
Abbreviation cell := (DecryptedTx * list (option byte))%type.

Definition view (m : cmem) (i : nat) : option cell :=
  d ← read_dec m outputs i;
  match m !! dec_plaintext d with Some (Bytes b) => Some (d, b) | _ => None end.

(** A change of one item's cell. *)
Definition changed (m m' : cmem) (i : nat) (v : cell) : Prop :=
  heap_typed m' ∧ view m' i = Some v ∧ (∀ j, j ≠ i → view m' j = view m j) ∧
  (∀ p, p ≠ outputs → p ∉ pptr → m' !! p = m !! p).

Lemma view_typed m i ct :
  heap_typed m → cts !! i = Some ct →
  ∃ d b, view m i = Some (d, b) ∧ pptr !! i = Some (dec_plaintext d) ∧ length ct ≤ length b + 48.
Proof.
  intros Hm Hct. destruct (ht_outputs _ Hm) as (ds & Ho & Hds).
  destruct (lookup_lt_is_Some_2 pptr i) as [p Hp].
  { rewrite (ly_pptr Hly). by eapply lookup_lt_Some. }
  pose proof Hp as Hd. rewrite <- Hds, list_lookup_fmap, fmap_Some in Hd.
  destruct Hd as (d & Hd & ->). destruct (ht_plain _ Hm _ _ _ Hp Hct) as (b & Hb & Hlen).
  exists d, b. split_and!; [|done..]. unfold view, read_dec.
  rewrite Ho, list_lookup_fmap, Hd. cbn. by rewrite Hb.
Qed.

Lemma view_Some m i d b :
  view m i = Some (d, b) → read_dec m outputs i = Some d ∧ m !! dec_plaintext d = Some (Bytes b).
Proof.
  unfold view. intros (d' & Hd & H)%bind_Some. by destruct (m !! dec_plaintext d') as [[]|] eqn:E; simplify_eq.
Qed.

(** [pptr] lists the pointers of the views. *)
Lemma view_ptr m i d b : heap_typed m → view m i = Some (d, b) → pptr !! i = Some (dec_plaintext d).
Proof.
  intros Hm [Hd _]%view_Some. destruct (ht_outputs _ Hm) as (ds & Ho & <-).
  unfold read_dec in Hd. rewrite Ho, list_lookup_fmap in Hd. rewrite list_lookup_fmap.
  by destruct (ds !! i); simplify_eq/=.
Qed.

Lemma outputs_fresh m p : heap_typed m → p ∈ pptr → p ≠ outputs.
Proof.
  intros Hm [i Hi]%list_elem_of_lookup ->. destruct (lookup_lt_is_Some_2 cts i) as [ct Hct].
  { rewrite <- (ly_pptr Hly). by eapply lookup_lt_Some. }
  destruct (ht_plain _ Hm _ _ _ Hi Hct) as (b & Hb & _).
  destruct (ht_outputs _ Hm) as (ds & Ho & _). congruence.
Qed.

(** A store to a field of an output struct. *)
Lemma store_spec m i d b f :
  heap_typed m → view m i = Some (d, b) → (∀ d, dec_plaintext (f d) = dec_plaintext d) →
  ∃ m', update_dec outputs i f m = Some m' ∧ changed m m' i (f d, b).
Proof.
  intros Hm Hv Hf. pose proof (view_Some _ _ _ _ Hv) as [Hd Hb].
  destruct (update_dec_spec outputs i f m d Hd) as (m' & E & Hi & Hj & Hp & Ho).
  destruct (ht_outputs _ Hm) as (ds & Hds & Hpp). specialize (Ho _ Hds).
  pose proof (view_ptr _ _ _ _ Hm Hv) as Hpi. pose proof (λ p, outputs_fresh m p Hm) as Hout.
  exists m'. split; [done|]. split_and!.
  - destruct Hm as [H1 _ H3 H4 H5 H6]. split; try (rewrite Hp; congruence).
    + exists (<[i := f d]> ds). rewrite Ho, list_fmap_insert. split; [done|].
      rewrite list_fmap_insert, Hf, Hpp. by apply list_insert_id.
    + intros j p ct H H'. rewrite Hp; [by eapply H3|]. intros ->. specialize (H3 _ _ _ H H'). congruence.
    + intros j p ct H H'. rewrite Hp; [by eapply H4|].
      by eapply Hout, list_elem_of_lookup_2.
  - unfold view. rewrite Hi. cbn. rewrite Hf, Hp, Hb; [done|congruence].
  - intros j Hne. unfold view. rewrite Hj by done. destruct (read_dec m outputs j); cbn; [|done].
    destruct (decide (dec_plaintext d0 = outputs)) as [->|]; [by rewrite Ho, Hds|by rewrite Hp].
  - intros p Hne _. by apply Hp.
Qed.

(** Writing a message to an item's buffer. *)
Lemma write_spec m i d b msg :
  heap_typed m → view m i = Some (d, b) → length msg ≤ length b →
  ∃ m', write_bytes (dec_plaintext d) msg m = Some m' ∧
    changed m m' i (d, (Some <$> msg) ++ drop (length msg) b).
Proof.
  intros Hm Hv Hlen. pose proof (view_Some _ _ _ _ Hv) as [Hd Hb].
  pose proof (view_ptr _ _ _ _ Hm Hv) as Hp. pose proof (list_elem_of_lookup_2 _ _ _ Hp) as Hin.
  pose proof (outputs_fresh _ _ Hm Hin) as Hne. destruct (ly_sep Hly _ Hin) as (Hne1 & Hne2 & Hne3).
  eexists. split; [by apply write_bytes_spec|].
  assert (∀ j, read_dec (<[dec_plaintext d := Bytes ((Some <$> msg) ++ drop (length msg) b)]> m) outputs j
    = read_dec m outputs j) as Hrd by (intros j; by apply read_dec_insert_ne).
  split_and!.
  - destruct Hm as [H1 H2 H3 H4 H5 H6]. split; try (rewrite lookup_insert_ne by congruence; done).
    + intros j p ct H H'. rewrite lookup_insert_ne; [by eapply H3|].
      intros <-. apply Hne3. by eapply list_elem_of_lookup_2.
    + intros j p ct H H'. destruct (decide (dec_plaintext d = p)) as [<-|]; [|rewrite lookup_insert_ne by done; by eapply H4].
      rewrite lookup_insert_eq. eexists; split; [done|].
      destruct (H4 _ _ _ H H') as (b' & Hb' & ?). simplify_eq.
      rewrite length_app, length_fmap, length_drop. lia.
  - unfold view. rewrite Hrd, Hd. cbn. by rewrite lookup_insert_eq.
  - intros j Hj. unfold view. rewrite Hrd. destruct (read_dec m outputs j) as [d'|] eqn:Hd'; cbn; [|done].
    rewrite lookup_insert_ne; [done|]. intros E. apply Hj.
    destruct (view m j) as [[d1 b1]|] eqn:Hvj.
    + pose proof (view_ptr _ _ _ _ Hm Hvj) as Hpj. apply view_Some in Hvj as [Hd1 _].
      eapply NoDup_lookup; [apply (ly_nodup Hly)|exact Hpj|]. congruence.
    + exfalso. unfold view in Hvj. rewrite Hd' in Hvj. cbn in Hvj. by rewrite <- E, Hb in Hvj.
  - intros p Hnp Hnin. apply lookup_insert_ne. by intros <-.
Qed.

(** ** Items *)

(** What opening item [ct] gives: nothing when it is too short or libsodium
    rejects it. *)
Definition item_out (ct : bytes) : option bytes :=
  if decide (48 ≤ length ct) then seal_open ct pk sk else None.

Definition opened (ct : bytes) (b : list (option byte)) : list (option byte) :=
  match item_out ct with Some msg => (Some <$> msg) ++ drop (length msg) b | None => b end.

(** The cell of item [i] after its iteration. *)
Definition final (ct : bytes) (i : nat) (v : cell) : cell :=
  (match item_out ct with
   | Some msg => MkDec (dec_plaintext v.1) (Z.of_nat (length msg)) (uint32 (Z.of_nat i)) SO_SUCCESS
   | None => MkDec (dec_plaintext v.1) 0 (original_index v.1) SO_ERR_BAD_CIPHER
   end, opened ct v.2).

(** Its cell within the iteration. *)
Definition partial (pc : task_pc) (ct : bytes) (i : nat) (v : cell) : cell :=
  let len := set_length (Z.of_nat (length ct) - 48) v.1 in
  match pc with
  | PBadLength _ => (set_status SO_ERR_BAD_CIPHER v.1, v.2)
  | PBadFlag _ => final ct i v
  | PLength _ => (v.1, opened ct v.2)
  | PIndex _ => (len, opened ct v.2)
  | PStatus _ => (set_index (uint32 (Z.of_nat i)) len, opened ct v.2)
  | _ => v
  end.

Definition pc_item (pc : task_pc) : option nat :=
  match pc with
  | PLoop i | POpen i | PBadStatus i | PBadLength i | PBadFlag i
  | PLength i | PIndex i | PStatus i => Some i
  | PDone => None
  end.

Definition expected (pc : task_pc) (ct : bytes) (i : nat) (v : cell) : cell :=
  match pc_item pc with
  | None => final ct i v
  | Some j => if decide (i < j) then final ct i v else if decide (i = j) then partial pc ct i v else v
  end.

(** What a thread knows of the item it is at. *)
Definition pc_ok (s e : nat) (pc : task_pc) : Prop :=
  match pc with
  | PDone => True
  | PLoop i => s ≤ i
  | POpen i => s ≤ i < e ∧ ∀ ct, cts !! i = Some ct → 48 ≤ length ct
  | PBadStatus i | PBadLength i | PBadFlag i =>
      s ≤ i < e ∧ ∀ ct, cts !! i = Some ct → item_out ct = None
  | PLength i | PIndex i | PStatus i =>
      s ≤ i < e ∧ ∀ ct, cts !! i = Some ct → is_Some (item_out ct)
  end.

(** A thread over [s, e), in memory [m], started in [m0]: the cells of its
    items are as its program counter says. *)
Definition task_inv (m0 : cmem) (s e : nat) (pc : task_pc) (m : cmem) : Prop :=
  pc_ok s e pc ∧
  ∀ i ct v, s ≤ i < e → cts !! i = Some ct → view m0 i = Some v → view m i = Some (expected pc ct i v).

Lemma expected_other pc pc' ct i j v :
  pc_item pc = Some i → pc_item pc' = Some i ∨ pc' = PLoop (S i) → j ≠ i →
  expected pc' ct j v = expected pc ct j v.
Proof.
  unfold expected. intros -> [->| ->] Hj; repeat (case_decide; [try done|try done]); try lia.
  all: cbn; repeat (case_decide; try done; try lia).
Qed.

(** A thread's step within its item. *)
Lemma task_inv_move m0 s e pc pc' i m m' :
  task_inv m0 s e pc m → pc_item pc = Some i → pc_item pc' = Some i ∨ pc' = PLoop (S i) →
  pc_ok s e pc' → (∀ j, j ≠ i → view m' j = view m j) →
  (∀ ct v, cts !! i = Some ct → view m0 i = Some v → view m i = Some (expected pc ct i v) →
     view m' i = Some (expected pc' ct i v)) →
  s ≤ i < e → task_inv m0 s e pc' m'.
Proof.
  intros [_ Hi] Hpc Hpc' Hok Hj Hv Hr. split; [done|]. intros j ct v Hjr Hct Hv0.
  destruct (decide (j = i)) as [->|Hne]; [by eapply Hv, Hi|].
  rewrite Hj by done. rewrite (expected_other pc pc' ct i j v) by done. by apply Hi.
Qed.

Lemma expected_here pc ct i v : pc_item pc = Some i → expected pc ct i v = partial pc ct i v.
Proof. unfold expected. intros ->. by rewrite decide_False, decide_True by lia. Qed.

Lemma expected_after ct i v : expected (PLoop (S i)) ct i v = final ct i v.
Proof. unfold expected. cbn. by rewrite decide_True by lia. Qed.

Lemma read_enc_typed m i ct :
  heap_typed m → cts !! i = Some ct →
  ∃ p, cptr !! i = Some p ∧ read_enc m inputs i = Some (MkEnc p (Z.of_nat (length ct))).
Proof.
  intros Hm Hct. destruct (lookup_lt_is_Some_2 cptr i) as [p Hp].
  { rewrite (ly_cptr Hly). by eapply lookup_lt_Some. }
  exists p. split; [done|]. unfold read_enc. rewrite (ht_inputs _ Hm), lookup_zip_with, Hp. cbn.
  by rewrite Hct.
Qed.

(** The call of libsodium on a typed heap. *)
Lemma open_spec m i ct p d b :
  heap_typed m → cts !! i = Some ct → cptr !! i = Some p → view m i = Some (d, b) → 48 ≤ length ct →
  ∃ res m', crypto_box_seal_open seal_open (dec_plaintext d) p (Z.of_nat (length ct)) pub_key priv_key m
      = Some (res, m') ∧
    match item_out ct with
    | Some msg => res = 0%Z ∧ changed m m' i (d, opened ct b)
    | None => res = (-1)%Z ∧ m' = m
    end.
Proof.
  intros Hm Hct Hp Hv Hlen. unfold crypto_box_seal_open. rewrite Nat2Z.id.
  rewrite (read_bytes_full _ _ ct) by (by eapply ht_cipher).
  pose proof (read_bytes_full _ _ _ (ht_pub _ Hm)) as H1. rewrite (ly_pk Hly) in H1.
  pose proof (read_bytes_full _ _ _ (ht_priv _ Hm)) as H2. rewrite (ly_sk Hly) in H2.
  change (Z.to_nat crypto_box_PUBLICKEYBYTES) with 32.
  change (Z.to_nat crypto_box_SECRETKEYBYTES) with 32.
  rewrite H1, H2. cbn [mbind option_bind]. unfold opened, item_out.
  rewrite decide_True by done. destruct (seal_open ct pk sk) as [msg|] eqn:Eo; [|by eauto].
  destruct (view_typed _ _ _ Hm Hct) as (d' & b' & Hv' & _ & Hroom). simplify_eq.
  apply seal_open_length in Eo.
  destruct (write_spec m i d b msg Hm Hv) as (m' & -> & Hch); [lia|]. cbn. by eauto.
Qed.

(** ** One step of a thread *)

Definition flag_after (pc : task_pc) (x : batch_state) : Z :=
  match pc with PBadFlag _ => SO_ERR_BAD_CIPHER | _ => any_failure x end.

(** The step has defined behaviour, keeps the heap typed and the thread's own
    invariant, and touches no item outside the thread's chunk. *)
Definition step_ok (m0 : cmem) (s e : nat) (pc : task_pc) (x : batch_state) : Prop :=
  ∃ pc' x', item_step seal_open inputs pub_key priv_key outputs e pc x = Some (pc', x') ∧
    heap_typed (bmem x') ∧ task_inv m0 s e pc' (bmem x') ∧
    (∀ j, ¬ (s ≤ j < e) → view (bmem x') j = view (bmem x) j) ∧
    (∀ p, p ≠ outputs → p ∉ pptr → bmem x' !! p = bmem x !! p) ∧
    any_failure x' = flag_after pc x.

Lemma step_same m0 s e pc pc' i x :
  heap_typed (bmem x) → task_inv m0 s e pc (bmem x) → pc_item pc = Some i → s ≤ i < e →
  item_step seal_open inputs pub_key priv_key outputs e pc x = Some (pc', MkBatch (bmem x) (flag_after pc x)) →
  pc_item pc' = Some i ∨ pc' = PLoop (S i) → pc_ok s e pc' →
  (∀ ct v, cts !! i = Some ct → expected pc' ct i v = expected pc ct i v) →
  step_ok m0 s e pc x.
Proof.
  intros Hm Ht Hpc Hr E Hpc' Hok Hex. exists pc', (MkBatch (bmem x) (flag_after pc x)).
  split_and!; try done. eapply task_inv_move; eauto. cbn. intros ct v Hct _ ->. by rewrite Hex.
Qed.

(** A step that changes the cell of its item. *)
Lemma step_changed m0 s e pc pc' i x m' v' :
  heap_typed (bmem x) → task_inv m0 s e pc (bmem x) → pc_item pc = Some i → s ≤ i < e →
  item_step seal_open inputs pub_key priv_key outputs e pc x = Some (pc', set_bmem m' x) →
  changed (bmem x) m' i v' → flag_after pc x = any_failure x →
  pc_item pc' = Some i ∨ pc' = PLoop (S i) → pc_ok s e pc' →
  (∀ ct v, cts !! i = Some ct → view m0 i = Some v → v' = expected pc' ct i v) →
  step_ok m0 s e pc x.
Proof.
  intros Hm Ht Hpc Hr E (Hm' & Hv & Hj & Hp) Hfl Hpc' Hok Hex. exists pc', (set_bmem m' x). cbn.
  split_and!; try done.
  - eapply task_inv_move; eauto. intros ct v Hct Hv0 _. rewrite Hv. f_equal. eauto.
  - intros j Hnj. apply Hj. intros ->. lia.
Qed.

(** The current cell of the item a thread is at. *)
Lemma task_cell m0 s e pc i m :
  heap_typed m0 → e ≤ length cts → task_inv m0 s e pc m → pc_item pc = Some i → s ≤ i < e →
  ∃ ct v, cts !! i = Some ct ∧ view m0 i = Some v ∧ view m i = Some (partial pc ct i v).
Proof.
  intros H0 He [_ Hi] Hpc Hr. destruct (lookup_lt_is_Some_2 cts i) as [ct Hct]; [lia|].
  destruct (view_typed _ _ _ H0 Hct) as (d & b & Hv & _).
  exists ct, (d, b). split_and!; try done. rewrite <- expected_here by done. by apply Hi.
Qed.

(** A step that stores to a field of its output struct. *)
Lemma step_store m0 s e pc pc' i x f :
  heap_typed m0 → heap_typed (bmem x) → e ≤ length cts → task_inv m0 s e pc (bmem x) →
  pc_item pc = Some i → s ≤ i < e →
  (∀ d, dec_plaintext (f d) = dec_plaintext d) →
  item_step seal_open inputs pub_key priv_key outputs e pc x =
    (m ← update_dec outputs i f (bmem x); Some (pc', set_bmem m x)) →
  flag_after pc x = any_failure x → pc_item pc' = Some i ∨ pc' = PLoop (S i) → pc_ok s e pc' →
  (∀ ct v, cts !! i = Some ct → (f (partial pc ct i v).1, (partial pc ct i v).2) = expected pc' ct i v) →
  step_ok m0 s e pc x.
Proof.
  intros H0 Hm He Ht Hpc Hr Hf E Hfl Hpc' Hok Hex.
  destruct (task_cell _ _ _ _ _ _ H0 He Ht Hpc Hr) as (ct & v & Hct & Hv0 & Hv).
  destruct (partial pc ct i v) as [d b] eqn:Ep.
  destruct (store_spec _ _ _ _ f Hm Hv Hf) as (m' & Eu & Hch).
  rewrite Eu in E. eapply step_changed; eauto.
  intros ct' v' Hct' Hv'. simplify_eq. rewrite <- Hex by done. by rewrite Ep.
Qed.

Lemma item_out_short ct : length ct < 48 → item_out ct = None.
Proof. intros H. unfold item_out. by rewrite decide_False by lia. Qed.

(** A message is as long as the code computes it to be. *)
Lemma item_out_length ct msg : item_out ct = Some msg → length ct = length msg + 48.
Proof. unfold item_out. case_decide; [|done]. apply seal_open_length. Qed.

Lemma item_step_loop m0 s e i x :
  heap_typed (bmem x) → e ≤ length cts → task_inv m0 s e (PLoop i) (bmem x) → step_ok m0 s e (PLoop i) x.
Proof.
  intros Hm He Ht. pose proof Ht as [Hok Hi]. cbn in Hok. destruct (decide (i < e)) as [Hlt|Hge].
  - destruct (lookup_lt_is_Some_2 cts i) as [ct Hct]; [lia|].
    destruct (read_enc_typed _ _ _ Hm Hct) as (p & _ & Hrd).
    assert (item_step seal_open inputs pub_key priv_key outputs e (PLoop i) x =
      Some (if (Z.of_nat (length ct) <? crypto_box_SEALBYTES)%Z then PBadStatus i else POpen i,
            MkBatch (bmem x) (flag_after (PLoop i) x))) as E.
    { cbn. rewrite decide_True, Hrd by done. cbn. by destruct x. }
    unfold crypto_box_SEALBYTES in E. destruct (Z.ltb_spec (Z.of_nat (length ct)) 48).
    + eapply step_same; [done..|lia|exact E|by left| |].
      * split; [lia|]. intros ct' Hct'. simplify_eq. apply item_out_short. lia.
      * intros. by rewrite !(expected_here _ _ i).
    + eapply step_same; [done..|lia|exact E|by left| |].
      * split; [lia|]. intros ct' Hct'. simplify_eq. lia.
      * intros. by rewrite !(expected_here _ _ i).
  - exists PDone, x. cbn. rewrite decide_False by done. split_and!; try done. split; [done|].
    intros j ct v Hj Hct Hv. rewrite (Hi j ct v Hj Hct Hv). unfold expected. cbn.
    by rewrite decide_True by lia.
Qed.

Lemma item_step_open m0 s e i x :
  heap_typed m0 → heap_typed (bmem x) → e ≤ length cts → task_inv m0 s e (POpen i) (bmem x) →
  step_ok m0 s e (POpen i) x.
Proof.
  intros H0 Hm He Ht. pose proof Ht as [[Hr Hlen] _].
  destruct (task_cell _ _ _ _ _ _ H0 He Ht eq_refl Hr) as (ct & [d b] & Hct & Hv0 & Hv). cbn [partial] in Hv.
  destruct (read_enc_typed _ _ _ Hm Hct) as (p & Hp & Hrd).
  pose proof (view_Some _ _ _ _ Hv) as [Hd _].
  destruct (open_spec _ _ _ _ _ _ Hm Hct Hp Hv (Hlen _ Hct)) as (res & m' & Eo & Hres).
  assert (item_step seal_open inputs pub_key priv_key outputs e (POpen i) x =
    Some (if decide (res ≠ 0%Z) then PBadStatus i else PLength i, set_bmem m' x)) as E.
  { cbn. rewrite Hrd. cbn. rewrite Hd. cbn. by rewrite Eo. }
  destruct (item_out ct) as [msg|] eqn:Em.
  - destruct Hres as [-> Hch]. eapply (step_changed _ _ _ _ (PLength i)); [done..|exact E|exact Hch|done|by left| |].
    + split; [done|]. intros ct' Hct'. simplify_eq. by rewrite Em.
    + intros ct' v' Hct' Hv'. simplify_eq. by rewrite (expected_here _ _ i).
  - destruct Hres as [-> ->]. eapply (step_same _ _ _ _ (PBadStatus i)); [done..| |by left| |].
    + rewrite E. cbn. by destruct x.
    + split; [done|]. intros ct' Hct'. by simplify_eq.
    + intros. by rewrite !(expected_here _ _ i).
Qed.

(** Preservation and progress: on a typed heap no step of a thread is
    undefined, and it leaves the heap typed. *)
Lemma item_step_ok m0 s e pc x :
  heap_typed m0 → heap_typed (bmem x) → e ≤ length cts → task_inv m0 s e pc (bmem x) →
  step_ok m0 s e pc x.
Proof.
  intros H0 Hm He Ht. pose proof Ht as [Hok _].
  destruct pc as [i|i|i|i|i|i|i|i|]; [by apply item_step_loop|by apply item_step_open| | | | | | |].
  - pose proof Hok as [Hr _]. apply (step_store _ _ _ _ (PBadLength i) i _ (set_status SO_ERR_BAD_CIPHER)); [done..|by left|exact Hok|].
    intros. by rewrite (expected_here _ _ i).
  - pose proof Hok as [Hr Hout]. apply (step_store _ _ _ _ (PBadFlag i) i _ (set_length 0)); [done..|by left|exact Hok|].
    intros ct v Hct. rewrite (expected_here _ _ i) by done. cbn. unfold final, opened. by rewrite (Hout _ Hct).
  - pose proof Hok as [Hr _]. eapply (step_same _ _ _ _ (PLoop (S i)) i); [done..|by right|cbn; lia|].
    intros. by rewrite expected_after, (expected_here _ _ i).
  - pose proof Hok as [Hr _]. destruct (lookup_lt_is_Some_2 cts i) as [ct Hct]; [lia|].
    destruct (read_enc_typed _ _ _ Hm Hct) as (p & _ & Hrd).
    apply (step_store _ _ _ _ (PIndex i) i _ (set_length (Z.of_nat (length ct) - 48)));
      [done..|by cbn; rewrite Hrd|done|by left|exact Hok|]. intros ct' v Hct'. simplify_eq. by rewrite (expected_here _ _ i).
  - pose proof Hok as [Hr _]. apply (step_store _ _ _ _ (PStatus i) i _ (set_index (uint32 (Z.of_nat i)))); [done..|by left|exact Hok|].
    intros. by rewrite (expected_here _ _ i).
  - pose proof Hok as [Hr Hout]. apply (step_store _ _ _ _ (PLoop (S i)) i _ (set_status SO_SUCCESS)); [done..|by right|cbn; lia|].
    intros ct v Hct. rewrite expected_after. cbn. unfold final, opened.
    destruct (Hout _ Hct) as [msg Em]. rewrite Em. apply item_out_length in Em.
    by replace (Z.of_nat (length ct) - 48)%Z with (Z.of_nat (length msg)) by lia.
  - by exists PDone, x.
Qed.

(** ** All threads together *)

(** The chunks: disjoint and within the batch. *)
Context (rs : list (nat * nat)).

Record ranges_ok : Prop := {
  rg_end : ∀ k s e, rs !! k = Some (s, e) → e ≤ length cts;
  rg_disjoint : ∀ k k' s e s' e' i, rs !! k = Some (s, e) → rs !! k' = Some (s', e') →
    s ≤ i < e → s' ≤ i < e' → k = k';
  rg_cover : ∀ i, i < length cts → ∃ k s e, rs !! k = Some (s, e) ∧ s ≤ i < e
}.

Context (Hrs : ranges_ok).

Definition passed (pc : task_pc) (i : nat) : Prop :=
  match pc_item pc with None => True | Some j => i < j end.

Record par_inv (m0 : cmem) (st : tasks chunk_task batch_state) : Prop := {
  pv_typed : heap_typed (bmem (shared st));
  pv_task : ∀ k s e, rs !! k = Some (s, e) →
    ∃ pc, code st !! k = Some (MkChunk e pc) ∧ task_inv m0 s e pc (bmem (shared st));
  pv_len : length (code st) = length rs;
  pv_frame : ∀ p, p ≠ outputs → p ∉ pptr → bmem (shared st) !! p = m0 !! p;
  pv_flag : any_failure (shared st) = SO_SUCCESS ∨
    any_failure (shared st) = SO_ERR_BAD_CIPHER ∧ ∃ ct, ct ∈ cts ∧ item_out ct = None;
  pv_passed : ∀ k s e pc i ct, rs !! k = Some (s, e) → code st !! k = Some (MkChunk e pc) →
    s ≤ i < e → cts !! i = Some ct → item_out ct = None → passed pc i →
    any_failure (shared st) = SO_ERR_BAD_CIPHER
}.

(** A step passes an item that cannot be opened only by raising the flag. *)
Lemma passed_step m0 s e pc pc' x x' m i ct :
  task_inv m0 s e pc m → item_step seal_open inputs pub_key priv_key outputs e pc x = Some (pc', x') →
  any_failure x' = flag_after pc x → s ≤ i < e → cts !! i = Some ct → item_out ct = None →
  passed pc' i → passed pc i ∨ any_failure x' = SO_ERR_BAD_CIPHER.
Proof.
  intros [Hok _] E Hfl Hr Hct Hno Hp. destruct pc as [j|j|j|j|j|j|j|j|]; cbn in E.
  - case_decide.
    + apply bind_Some in E as (inp & _ & [= <- <-]). left. by case_match.
    + left. unfold passed. cbn. lia.
  - left. repeat (apply bind_Some in E as ([] & _ & E)). simplify_eq. by case_decide.
  - left. apply bind_Some in E as (? & _ & [= <- <-]). done.
  - left. apply bind_Some in E as (? & _ & [= <- <-]). done.
  - by right.
  - left. apply bind_Some in E as (? & _ & E). apply bind_Some in E as (? & _ & [= <- <-]). done.
  - left. apply bind_Some in E as (? & _ & [= <- <-]). done.
  - apply bind_Some in E as (? & _ & [= <- <-]). left. unfold passed in *. cbn in *.
    destruct (decide (i = j)) as [->|]; [|lia]. destruct Hok as [_ Hout].
    destruct (Hout _ Hct) as [msg Em]. congruence.
  - by left.
Qed.

Lemma par_step m0 k st :
  heap_typed m0 → par_inv m0 st →
  ∃ st', run_task (chunk_step seal_open inputs pub_key priv_key outputs) chunk_done k st = Some st' ∧
    par_inv m0 st'.
Proof.
  intros H0 Hi. unfold run_task. destruct (code st !! k) as [t|] eqn:Hk; [|by eauto].
  destruct (chunk_done t) eqn:Hd; [by eauto|].
  destruct (lookup_lt_is_Some_2 rs k) as [[s e] Hse].
  { rewrite <- (pv_len _ _ Hi). by eapply lookup_lt_Some. }
  destruct (pv_task _ _ Hi _ _ _ Hse) as (pc & Hpc & Ht). rewrite Hk in Hpc. injection Hpc as ->.
  destruct (item_step_ok _ _ _ _ _ H0 (pv_typed _ _ Hi) (rg_end Hrs _ _ _ Hse) Ht)
    as (pc' & x' & E & Hm' & Ht' & Hother & Hfr & Hfl).
  unfold chunk_step. cbn [chunk_end chunk_pc]. rewrite E. cbn. eexists; split; [done|].
  assert (∀ k' s' e', rs !! k' = Some (s', e') → k' ≠ k → ∀ j, s' ≤ j < e' → ¬ (s ≤ j < e)) as Hdis.
  { intros k' s' e' Hse' Hne j Hj Hj'. by pose proof (rg_disjoint Hrs _ _ _ _ _ _ _ Hse' Hse Hj Hj'). }
  pose proof (lookup_lt_Some _ _ _ Hk) as Hlt.
  split; cbn.
  - done.
  - intros k' s' e' Hse'. destruct (decide (k' = k)) as [->|Hne].
    + simplify_eq. exists pc'. by rewrite list_lookup_insert_eq.
    + rewrite list_lookup_insert_ne by done. destruct (pv_task _ _ Hi _ _ _ Hse') as (q & Hq & Hok & Hv).
      exists q. split; [done|]. split; [done|]. intros j ct v Hj. rewrite Hother; [by apply Hv|by eapply Hdis].
  - rewrite length_insert. apply (pv_len _ _ Hi).
  - intros p Hp Hp'. rewrite Hfr by done. by apply (pv_frame _ _ Hi).
  - rewrite Hfl. pose proof (pv_flag _ _ Hi) as Hflag. destruct pc as [j|j|j|j|j|j|j|j|]; try done.
    right. split; [done|]. destruct Ht as [[Hr Hout] _].
    destruct (lookup_lt_is_Some_2 cts j) as [ct Hct].
    { pose proof (rg_end Hrs _ _ _ Hse). lia. }
    exists ct. split; [by eapply list_elem_of_lookup_2|by apply Hout].
  - intros k' s' e' q j ct Hse' Hq Hj Hct Hno Hp.
    assert (any_failure (shared st) = SO_ERR_BAD_CIPHER → any_failure x' = SO_ERR_BAD_CIPHER) as Hmono.
    { rewrite Hfl. by destruct pc. }
    destruct (decide (k' = k)) as [->|Hne].
    + rewrite list_lookup_insert_eq in Hq by done. simplify_eq.
      destruct (passed_step _ _ _ _ _ _ _ _ _ _ Ht E Hfl Hj Hct Hno Hp) as [Hp'|]; [|done].
      apply Hmono. by eapply (pv_passed _ _ Hi k).
    + rewrite list_lookup_insert_ne in Hq by done. apply Hmono. by eapply (pv_passed _ _ Hi k').
Qed.

(** ** The start and the end *)

Definition start_tasks (m : cmem) : tasks chunk_task batch_state :=
  MkTasks ((λ c, MkChunk c.2 (PLoop c.1)) <$> rs) (MkBatch m SO_SUCCESS).

Lemma par_inv_start m : heap_typed m → par_inv m (start_tasks m).
Proof.
  intros Hm. split; cbn; try done.
  - intros k s e Hk. exists (PLoop s). rewrite list_lookup_fmap, Hk. split; [done|]. split; [cbn; lia|].
    intros i ct v Hi Hct Hv. rewrite Hv. unfold expected. cbn.
    rewrite decide_False by lia. by case_decide.
  - by rewrite length_fmap.
  - by left.
  - intros k s e pc i ct Hk Hc Hi _ _ Hp. rewrite list_lookup_fmap, Hk in Hc. cbn in Hc. simplify_eq.
    unfold passed in Hp. cbn in Hp. lia.
Qed.

(** The memory after a batch: every item's output struct and buffer as a
    sequential loop leaves them, and nothing else changed. *)
Record batch_done (m0 m : cmem) : Prop := {
  bd_typed : heap_typed m;
  bd_items : ∀ i ct v, cts !! i = Some ct → view m0 i = Some v → view m i = Some (final ct i v);
  bd_frame : ∀ p, p ≠ outputs → p ∉ pptr → m !! p = m0 !! p
}.

Definition batch_ret : Z :=
  if forallb (λ ct, bool_decide (is_Some (item_out ct))) cts then SO_SUCCESS else SO_ERR_BAD_CIPHER.

Lemma batch_ret_fails ct : ct ∈ cts → item_out ct = None → batch_ret = SO_ERR_BAD_CIPHER.
Proof.
  intros Hin Hno. unfold batch_ret. destruct (forallb _ cts) eqn:E; [|done].
  rewrite forallb_forall in E. apply list_elem_of_In in Hin. specialize (E _ Hin).
  apply bool_decide_eq_true in E as [msg E]. congruence.
Qed.

Lemma batch_ret_ok : (∀ ct, ct ∈ cts → is_Some (item_out ct)) → batch_ret = SO_SUCCESS.
Proof.
  intros H. unfold batch_ret. destruct (forallb _ cts) eqn:E; [done|].
  assert (forallb (λ ct, bool_decide (is_Some (item_out ct))) cts = true); [|congruence].
  apply forallb_forall. intros ct Hin%list_elem_of_In. by apply bool_decide_eq_true, H.
Qed.

Lemma par_inv_done m0 st :
  par_inv m0 st → all_done chunk_done st = true →
  batch_done m0 (bmem (shared st)) ∧ any_failure (shared st) = batch_ret.
Proof.
  intros Hi Hd. rewrite all_done_spec in Hd.
  assert (∀ i ct, cts !! i = Some ct → ∃ k s e, rs !! k = Some (s, e) ∧ s ≤ i < e ∧
    code st !! k = Some (MkChunk e PDone) ∧ task_inv m0 s e PDone (bmem (shared st))) as Hown.
  { intros i ct Hct. destruct (rg_cover Hrs i) as (k & s & e & Hk & Hr); [by eapply lookup_lt_Some|].
    destruct (pv_task _ _ Hi _ _ _ Hk) as (pc & Hc & Ht). pose proof (Hd _ _ Hc) as Hpc.
    destruct pc; try discriminate Hpc. by exists k, s, e. }
  split; [split|].
  - apply (pv_typed _ _ Hi).
  - intros i ct v Hct Hv. destruct (Hown _ _ Hct) as (k & s & e & _ & Hr & _ & _ & Hc). by apply Hc.
  - apply (pv_frame _ _ Hi).
  - destruct (pv_flag _ _ Hi) as [Hf|[Hf (ct & Hin & Hno)]].
    + rewrite batch_ret_ok; [done|]. intros ct [i Hct]%list_elem_of_lookup.
      destruct (item_out ct) eqn:Ho; [by eauto|]. exfalso.
      destruct (Hown _ _ Hct) as (k & s & e & Hk & Hr & Hc & _).
      pose proof (pv_passed _ _ Hi _ _ _ _ _ _ Hk Hc Hr Hct Ho I) as Hbad. by rewrite Hf in Hbad.
    + by rewrite (batch_ret_fails ct).
Qed.

(** The memory after a batch is determined. *)
Lemma batch_done_unique m0 m1 m2 : heap_typed m0 → batch_done m0 m1 → batch_done m0 m2 → m1 = m2.
Proof.
  intros H0 [T1 I1 F1] [T2 I2 F2].
  assert (∀ i, i < length cts → ∃ d b p, pptr !! i = Some p ∧ dec_plaintext d = p ∧
    view m1 i = Some (d, b) ∧ view m2 i = Some (d, b)) as Hv.
  { intros i Hi. destruct (lookup_lt_is_Some_2 cts i Hi) as [ct Hct].
    destruct (view_typed _ _ _ H0 Hct) as (d & b & Hv & _). pose proof (I1 _ _ _ Hct Hv) as V1.
    pose proof (I2 _ _ _ Hct Hv) as V2. destruct (final ct i (d, b)) as [d' b'].
    exists d', b', (dec_plaintext d'). split_and!; try done. by eapply view_ptr. }
  destruct (ht_outputs _ T1) as (ds1 & O1 & P1). destruct (ht_outputs _ T2) as (ds2 & O2 & P2).
  apply map_eq. intros p. destruct (decide (p = outputs)) as [->|Hno].
  - rewrite O1, O2. do 3 f_equal. apply list_eq. intros i.
    destruct (decide (i < length cts)) as [Hi|Hi].
    + destruct (Hv i Hi) as (d & b & _ & _ & _ & V1 & V2). apply view_Some in V1 as [V1 _], V2 as [V2 _].
      unfold read_dec in V1, V2. rewrite O1, list_lookup_fmap in V1. rewrite O2, list_lookup_fmap in V2.
      by destruct (ds1 !! i), (ds2 !! i); simplify_eq/=.
    + pose proof (ly_pptr Hly) as Hl. rewrite !lookup_ge_None_2; [done|..].
      * rewrite <- P2, length_fmap in Hl. lia.
      * rewrite <- P1, length_fmap in Hl. lia.
  - destruct (decide (p ∈ pptr)) as [[i Hi]%list_elem_of_lookup|Hnin]; [|by rewrite F1, F2].
    destruct (Hv i) as (d & b & q & Hq & Hd & V1 & V2).
    { rewrite <- (ly_pptr Hly). by eapply lookup_lt_Some. }
    apply view_Some in V1 as [_ V1], V2 as [_ V2]. simplify_eq. by rewrite V1, V2.
Qed.
End batch.

(** ** Termination *)

(** The steps a thread has left. *)
Definition chunk_rem (t : chunk_task) : nat :=
  match chunk_pc t with
  | PDone => 0
  | PLoop i => 6 * (chunk_end t - i) + 1
  | POpen i => 6 * (chunk_end t - S i) + 6
  | PBadStatus i | PLength i => 6 * (chunk_end t - S i) + 5
  | PBadLength i | PIndex i => 6 * (chunk_end t - S i) + 4
  | PBadFlag i | PStatus i => 6 * (chunk_end t - S i) + 3
  end.

Lemma chunk_step_rem so ins pub sec outs t x t' x' :
  chunk_done t = false → chunk_step so ins pub sec outs t x = Some (t', x') → chunk_rem t' < chunk_rem t.
Proof.
  intros Hd E. unfold chunk_step in E. apply bind_Some in E as ([pc x1] & E & [= <- <-]).
  unfold chunk_rem. destruct t as [e p]. cbn in *. destruct p; cbn in *; try done.
  - case_decide; [apply bind_Some in E as (? & _ & [= <- <-]); destruct (_ <? _)%Z; lia|simplify_eq; lia].
  - apply bind_Some in E as (? & _ & E). apply bind_Some in E as (? & _ & E).
    apply bind_Some in E as ([] & _ & [= <- <-]). case_decide; lia.
  - apply bind_Some in E as (? & _ & [= <- <-]). lia.
  - apply bind_Some in E as (? & _ & [= <- <-]). lia.
  - injection E as <- <-. lia.
  - apply bind_Some in E as (? & _ & E). apply bind_Some in E as (? & _ & [= <- <-]). lia.
  - apply bind_Some in E as (? & _ & [= <- <-]). lia.
  - apply bind_Some in E as (? & _ & [= <- <-]). lia.
Qed.

Lemma chunk_rem_pos t : chunk_done t = false → 0 < chunk_rem t.
Proof. unfold chunk_rem, chunk_done. destruct (chunk_pc t); intros; try done; lia. Qed.
