(* ===== verification/DecryptionProps.v ===== *)
(** What the C++ batch decryption promises: chunks that cover the batch, a
    well-typed memory at every step, and a result that depends neither on the
    number of threads nor on their interleaving. *)

From S2P Require Import Prelude CMemory Tasks Decryption DecryptionInv.

(** ** Lemmas *)

Lemma seqZ_split s a b : (0 ≤ a)%Z → (0 ≤ b)%Z → seqZ s (a + b) = seqZ s a ++ seqZ (s + a) b.
Proof. intros Ha Hb. by rewrite seqZ_app. Qed.

(** The first [k] chunks list the first [k * c] items. *)
Lemma chunks_prefix (c n : Z) k :
  (0 < c)%Z → (0 ≤ n)%Z →
  concat ((λ t, seqZ (Z.of_nat t * c) (Z.min (Z.of_nat t * c + c) n - Z.of_nat t * c)) <$> seq 0 k)
  = seqZ 0 (Z.min (Z.of_nat k * c) n).
Proof.
  intros Hc Hn. induction k as [|k IH]; [by rewrite Z.min_l by lia|].
  rewrite seq_S, fmap_app, concat_app, IH. cbn. rewrite app_nil_r.
  destruct (decide (Z.of_nat k * c ≤ n)%Z).
  - rewrite (Z.min_l (Z.of_nat k * c)) by done.
    replace (Z.min (Z.of_nat (S k) * c) n)%Z
      with (Z.of_nat k * c + (Z.min (Z.of_nat k * c + c) n - Z.of_nat k * c))%Z by lia.
    by rewrite seqZ_split by lia.
  - rewrite !Z.min_r by lia. rewrite (seqZ_nil _ (n - _)) by lia. by rewrite app_nil_r.
Qed.

Lemma chunks_seq hw n :
  (0 ≤ hw)%Z → (0 < n < 2 ^ 63)%Z →
  let nt := num_threads hw n in
  let c := ((n + nt - 1) / nt)%Z in
  chunks hw n = (λ t, (Z.of_nat t * c, Z.min (Z.of_nat t * c + c) n)%Z) <$> seq 0 (Z.to_nat nt).
Proof.
  intros Hhw Hn nt c. apply list_eq. intros k. rewrite list_lookup_fmap.
  destruct (chunks hw n !! k) as [[s e]|] eqn:E.
  - apply lookup_chunks in E as (Hk & -> & ->); [|done..].
    by rewrite lookup_seq_lt by (fold nt in Hk; lia).
  - apply lookup_ge_None in E. rewrite chunks_length in E. rewrite lookup_seq_ge; [done|]. fold nt in E. lia.
Qed.

(** ** Properties *)

(** C17: chunks.  For every number of hardware threads and every batch that
    fits in memory, the chunks that decrypt_batch_tx hands to its threads list
    every item exactly once and in order; there are as many threads as items or
    hardware threads, two when the hardware does not say; and the arithmetic on
    size_t does not wrap around: the numerator of the division, and the start and
    end of each thread's chunk before it is cut at the batch's end, are below
    2^64 as integers, so that chunk size and chunks are those of the integers. *)
Theorem chunks_partition hw n :
  (0 ≤ hw)%Z → (0 < n < 2 ^ 63)%Z →
  let nt := num_threads hw n in
  let c := ((n + nt - 1) / nt)%Z in
  concat ((λ c, seqZ c.1 (c.2 - c.1)) <$> chunks hw n) = seqZ 0 n ∧
  Z.of_nat (length (chunks hw n)) = Z.min (if decide (hw = 0)%Z then 2 else hw) n ∧
  (n + nt - 1 < 2 ^ 64)%Z ∧ chunk_size nt n = c ∧
  ∀ t, (0 ≤ t < nt)%Z → (0 ≤ t * c ∧ t * c + c < 2 ^ 64)%Z ∧ chunk nt n t = (t * c, Z.min (t * c + c) n)%Z.
Proof.
  intros Hhw Hn nt c. pose proof (num_threads_range hw n Hhw Hn) as Hnt.
  pose proof (chunk_size_range hw n Hhw Hn) as [Hc Hle]. fold nt in Hnt, Hc, Hle. fold c in Hc, Hle.
  split_and!.
  - rewrite chunks_seq by done. rewrite <- list_fmap_compose. unfold compose. cbn.
    rewrite chunks_prefix by (fold nt c; lia). f_equal. fold nt c. rewrite Z2Nat.id by lia. lia.
  - rewrite chunks_length by done. fold nt. rewrite Z2Nat.id by lia. unfold nt, num_threads.
    destruct (Z.eqb_spec hw 0); case_decide; done.
  - lia.
  - unfold chunk_size. by rewrite wrap64_small by (unfold is_uint64; lia).
  - intros t Ht. split; [nia|]. by apply chunk_eq.
Qed.

Section batch.
Context (seal_open : bytes → bytes → bytes → option bytes).
Context (seal_open_length : ∀ c pk sk msg, seal_open c pk sk = Some msg → length c = length msg + 48).
Context (inputs pub_key priv_key outputs : ptr) (pk sk : bytes) (cts : list bytes) (cptr pptr : list ptr).

Abbreviation typed := (heap_typed inputs pub_key priv_key outputs pk sk cts cptr pptr).
Abbreviation lay := (layout pub_key priv_key pk sk cts cptr pptr).
Abbreviation run := (run_sched (chunk_step seal_open inputs pub_key priv_key outputs) chunk_done).

Definition ranges (hw : Z) : list (nat * nat) :=
  (λ c, (Z.to_nat c.1, Z.to_nat c.2)) <$> chunks hw (Z.of_nat (length cts)).

Lemma ranges_start hw m :
  start_tasks (ranges hw) m =
    MkTasks (new_chunk <$> chunks hw (Z.of_nat (length cts))) (MkBatch m SO_SUCCESS).
Proof. unfold start_tasks, ranges. by rewrite <- list_fmap_compose. Qed.

Lemma ranges_ok_chunks hw :
  (0 ≤ hw)%Z → (0 < Z.of_nat (length cts) < 2 ^ 63)%Z → ranges_ok cts (ranges hw).
Proof.
  intros Hhw Hn.
  assert (∀ k s e, ranges hw !! k = Some (s, e) → ∃ s' e', chunks hw (Z.of_nat (length cts)) !! k = Some (s', e') ∧
    s = Z.to_nat s' ∧ e = Z.to_nat e' ∧ (0 ≤ s')%Z ∧ (0 ≤ e' ≤ Z.of_nat (length cts))%Z) as Hr.
  { intros k s e. unfold ranges. rewrite list_lookup_fmap, fmap_Some. intros ([s' e'] & Hk & [= -> ->]).
    exists s', e'. split_and!; try done; apply lookup_chunks in Hk as (? & -> & ->); try done;
      pose proof (chunk_size_range hw _ Hhw Hn); lia. }
  split.
  - intros k s e Hk. destruct (Hr _ _ _ Hk) as (s' & e' & _ & -> & -> & _ & ?). lia.
  - intros k k' s e s' e' i Hk Hk' Hi Hi'.
    destruct (Hr _ _ _ Hk) as (? & ? & Hc & -> & -> & ? & ?).
    destruct (Hr _ _ _ Hk') as (? & ? & Hc' & -> & -> & ? & ?).
    eapply (chunks_disjoint hw _ Hhw Hn (Z.of_nat i)); [exact Hc|exact Hc'|lia..].
  - intros i Hi. destruct (chunks_owner hw _ Hhw Hn (Z.of_nat i)) as (k & s & e & Hk & Hse); [lia|].
    exists k, (Z.to_nat s), (Z.to_nat e). unfold ranges. rewrite list_lookup_fmap, Hk. split; [done|].
    assert (0 ≤ s)%Z; [|lia]. apply lookup_chunks in Hk as (? & -> & _); [|done..].
    pose proof (chunk_size_range hw _ Hhw Hn). lia.
Qed.

(** Every schedule leads to a state that satisfies the invariant. *)
Lemma run_par_inv hw sched m :
  (0 ≤ hw)%Z → (0 < Z.of_nat (length cts) < 2 ^ 63)%Z → lay → typed m →
  ∃ st, run sched (start_tasks (ranges hw) m) = Some st ∧
    par_inv seal_open inputs pub_key priv_key outputs pk sk cts cptr pptr (ranges hw) m st.
Proof.
  intros Hhw Hn Hly Hm. apply run_sched_inv.
  - intros k st Hi. apply par_step; try done. by apply ranges_ok_chunks.
  - by apply par_inv_start.
Qed.

(** C16: type safety of the batch.  On a heap where inputs, outputs and keys are
    typed (a box and its length in every input struct, a large enough buffer in
    every output struct), no interleaving of the threads reaches undefined
    behaviour (an access out of bounds, through a dangling pointer or of
    uninitialised memory), and the heap has the same types after every step. *)
Theorem decrypt_batch_typed hw sched m :
  (0 ≤ hw)%Z → (0 < Z.of_nat (length cts) < 2 ^ 63)%Z → lay → typed m →
  ∃ st, run sched (MkTasks (new_chunk <$> chunks hw (Z.of_nat (length cts))) (MkBatch m SO_SUCCESS))
      = Some st ∧ typed (bmem (shared st)).
Proof.
  intros Hhw Hn Hly Hm. destruct (run_par_inv hw sched m Hhw Hn Hly Hm) as (st & E & Hi).
  exists st. rewrite <- ranges_start. split; [done|]. by destruct Hi.
Qed.

(** Enough turns finish every thread. *)
Lemma run_finishes hw sched m st :
  (0 ≤ hw)%Z → (0 < Z.of_nat (length cts) < 2 ^ 63)%Z →
  (∀ k, k < length (chunks hw (Z.of_nat (length cts))) → 6 * length cts + 1 ≤ turns k sched) →
  run sched (start_tasks (ranges hw) m) = Some st → all_done chunk_done st = true.
Proof.
  intros Hhw Hn Ht E. eapply (run_sched_done _ _ chunk_rem); [|exact E| |].
  - intros ????. apply chunk_step_rem.
  - intros k t Hk. rewrite ranges_start in Hk. cbn in Hk. etrans; [|apply Ht].
    + rewrite list_lookup_fmap in Hk. destruct (chunks hw _ !! k) as [[s e]|] eqn:Hc; [|done].
      injection Hk as <-. apply lookup_chunks in Hc as (_ & _ & ->); [|done..].
      unfold chunk_rem, new_chunk. cbn. lia.
    + rewrite <- (length_fmap new_chunk). by eapply lookup_lt_Some.
  - intros t. apply chunk_rem_pos.
Qed.

Lemma decrypt_batch_returns hw sched m :
  (0 ≤ hw)%Z → (Z.of_nat (length cts) < 2 ^ 63)%Z → lay → typed m →
  (∀ k, k < length (chunks hw (Z.of_nat (length cts))) → 6 * length cts + 1 ≤ turns k sched) →
  ∃ m', decrypt_batch_tx seal_open inputs pub_key priv_key outputs hw sched (Z.of_nat (length cts)) m
      = Returned (batch_ret seal_open pk sk cts, m') ∧
    batch_done seal_open inputs pub_key priv_key outputs pk sk cts cptr pptr m m'.
Proof.
  intros Hhw Hn Hly Hm Ht. unfold decrypt_batch_tx. destruct (Z.eqb_spec (Z.of_nat (length cts)) 0) as [H0|H0].
  - destruct cts; [|done]. exists m. split; [done|]. by split.
  - assert (0 < Z.of_nat (length cts) < 2 ^ 63)%Z as Hn' by lia.
    destruct (run_par_inv hw sched m Hhw Hn' Hly Hm) as (st & E & Hi).
    rewrite <- ranges_start, E, (run_finishes _ _ _ _ Hhw Hn' Ht E).
    destruct (par_inv_done _ _ _ _ _ _ _ _ _ _ _ (ranges_ok_chunks hw Hhw Hn') _ _ Hi) as [Hd ->].
    { by eapply run_finishes. }
    by eexists.
Qed.

(** The run on a single thread. *)
Lemma decrypt_batch_sequential m :
  (Z.of_nat (length cts) < 2 ^ 63)%Z → lay → typed m →
  ∃ m', decrypt_batch_tx seal_open inputs pub_key priv_key outputs 1 (replicate (6 * length cts + 1) 0)
      (Z.of_nat (length cts)) m = Returned (batch_ret seal_open pk sk cts, m') ∧
    batch_done seal_open inputs pub_key priv_key outputs pk sk cts cptr pptr m m'.
Proof.
  intros Hn Hly Hm. apply decrypt_batch_returns; try done. intros k Hk.
  destruct (decide (length cts = 0)) as [H0|H0]; [rewrite H0 in Hk; vm_compute in Hk; lia|].
  rewrite chunks_length in Hk by lia. unfold num_threads in Hk.
  change (if (1 =? 0)%Z then 2%Z else 1%Z) with 1%Z in Hk.
  replace k with 0 by lia. by rewrite turns_replicate.
Qed.

(** C15: the parallel batch is the sequential one.  For every number of
    hardware threads and every interleaving that gives each thread enough turns,
    decrypt_batch_tx returns, with the return value and the memory of the run
    that decrypts the items one after the other on a single thread: each output
    struct and buffer holds the result of opening its own box, a box that cannot
    be opened affects no other item, and nothing else changes. *)
Theorem decrypt_batch_parallel hw sched m :
  (0 ≤ hw)%Z → (Z.of_nat (length cts) < 2 ^ 63)%Z → lay → typed m →
  (∀ k, k < length (chunks hw (Z.of_nat (length cts))) → 6 * length cts + 1 ≤ turns k sched) →
  let call hw sched := decrypt_batch_tx seal_open inputs pub_key priv_key outputs hw sched
                         (Z.of_nat (length cts)) m in
  ∃ m', call hw sched = Returned (batch_ret seal_open pk sk cts, m') ∧
    call 1%Z (replicate (6 * length cts + 1) 0) = call hw sched ∧
    batch_done seal_open inputs pub_key priv_key outputs pk sk cts cptr pptr m m'.
Proof.
  intros Hhw Hn Hly Hm Ht call.
  destruct (decrypt_batch_returns hw sched m Hhw Hn Hly Hm Ht) as (m' & E & Hd).
  exists m'. split_and!; [done| |done].
  destruct (decrypt_batch_sequential m) as (m1 & E1 & Hd1); try done.
  unfold call. rewrite E, E1. do 2 f_equal. by eapply batch_done_unique.
Qed.
End batch.

(** ** Witnesses

    A sealed box for examples: the recipient's public key, an empty tag and the
    message in the clear. *)

Definition toy_seal (msg pk : bytes) : option bytes := Some (pk ++ replicate 16 x00 ++ msg).
Definition toy_open (c pk sk : bytes) : option bytes :=
  if decide (take 32 c = pk ∧ 48 ≤ length c) then Some (drop 48 c) else None.

Lemma toy_open_length c pk sk msg : toy_open c pk sk = Some msg → length c = length msg + 48.
Proof. unfold toy_open. case_decide as H; [|done]. intros [= <-]. rewrite length_drop. lia. Qed.

Lemma toy_open_seal msg pk sk c : length pk = 32 → toy_seal msg pk = Some c → toy_open c pk sk = Some msg.
Proof.
  intros Hl E. assert (c = pk ++ replicate 16 x00 ++ msg) as -> by (unfold toy_seal in E; congruence).
  unfold toy_open. rewrite take_app_length' by lia. rewrite decide_True.
  - rewrite app_assoc, drop_app_length'; [done|]. rewrite length_app, length_replicate. lia.
  - split; [done|]. rewrite !length_app, length_replicate. lia.
Qed.

Definition sample_pk : bytes := replicate 32 x01.
Definition sample_sk : bytes := replicate 32 x02.
Definition sample_box (msg : bytes) : bytes := default [] (toy_seal msg sample_pk).

(** A good box, one that is too short, and one for another key. *)
Definition sample_cts : list bytes :=
  [sample_box (str "ab"); str "short"; default [] (toy_seal (str "c") sample_sk)].

Definition buffer (n : nat) : block := Bytes (replicate n None).

Definition sample_mem : cmem :=
  list_to_map
    [(1, EncArray (zip_with (λ p ct, Some (MkEnc p (Z.of_nat (length ct)))) [5; 6; 7] sample_cts));
     (2, DecArray ((λ p, Some (MkDec p 0 0 0)) <$> [8; 9; 10]));
     (3, Bytes (Some <$> sample_pk)); (4, Bytes (Some <$> sample_sk));
     (5, Bytes (Some <$> sample_box (str "ab"))); (6, Bytes (Some <$> str "short"));
     (7, Bytes (Some <$> default [] (toy_seal (str "c") sample_sk)));
     (8, buffer 2); (9, buffer 1); (10, buffer 1)].

Lemma sample_layout : layout 3 4 sample_pk sample_sk sample_cts [5; 6; 7] [8; 9; 10].
Proof.
  split; try done.
  - repeat constructor; set_solver.
  - intros p Hp. rewrite !elem_of_cons in Hp. rewrite !not_elem_of_cons.
    destruct Hp as [->|[->|[->|Hp]]]; [repeat split; try lia; apply not_elem_of_nil..|].
    by apply elem_of_nil in Hp.
Qed.

Lemma sample_typed : heap_typed 1 3 4 2 sample_pk sample_sk sample_cts [5; 6; 7] [8; 9; 10] sample_mem.
Proof.
  split; try (vm_compute; reflexivity).
  - exists ((λ p, MkDec p 0 0 0) <$> [8; 9; 10]). by split; vm_compute.
  - intros [|[|[|i]]] p ct; cbn; intros; simplify_eq; vm_compute; reflexivity.
  - intros [|[|[|i]]] p ct; cbn; intros; simplify_eq; eexists;
      (split; [vm_compute; reflexivity|]); vm_compute; lia.
Qed.

Lemma chunks_partition_witness :
  chunks 3 10 = [(0, 4); (4, 8); (8, 10)]%Z ∧
  concat ((λ c, seqZ c.1 (c.2 - c.1)) <$> chunks 3 10) = seqZ 0 10.
Proof.
  split; [vm_compute; reflexivity|]. destruct (chunks_partition 3 10) as [H _]; [done..|exact H].
Defined.

Lemma decrypt_batch_typed_witness :
  ∃ st, run_sched (chunk_step toy_open 1 3 4 2) chunk_done [1; 0; 1; 0; 0; 1]
      (MkTasks (new_chunk <$> chunks 2 3) (MkBatch sample_mem SO_SUCCESS)) = Some st ∧
    heap_typed 1 3 4 2 sample_pk sample_sk sample_cts [5; 6; 7] [8; 9; 10] (bmem (shared st)).
Proof.
  apply (decrypt_batch_typed toy_open toy_open_length 1 3 4 2 sample_pk sample_sk sample_cts
    [5; 6; 7] [8; 9; 10] 2 [1; 0; 1; 0; 0; 1] sample_mem); [done|done|apply sample_layout|apply sample_typed].
Defined.

(** Two threads taking turns. *)
Definition sample_sched : list nat := concat (replicate 19 [1; 0]).

Lemma decrypt_batch_parallel_witness :
  ∃ m', decrypt_batch_tx toy_open 1 3 4 2 2 sample_sched 3 sample_mem = Returned (SO_ERR_BAD_CIPHER, m') ∧
    decrypt_batch_tx toy_open 1 3 4 2 1 (replicate 19 0) 3 sample_mem = Returned (SO_ERR_BAD_CIPHER, m').
Proof.
  destruct (decrypt_batch_parallel toy_open toy_open_length 1 3 4 2 sample_pk sample_sk sample_cts
    [5; 6; 7] [8; 9; 10] 2 sample_sched sample_mem) as (m' & E & E1 & _);
    [done|done|apply sample_layout|apply sample_typed| |].
  - intros k Hk. change (length (chunks 2 (Z.of_nat (length sample_cts)))) with 2 in Hk.
    destruct k as [|[|k]]; [vm_compute; lia..|lia].
  - exists m'. change (batch_ret toy_open sample_pk sample_sk sample_cts) with SO_ERR_BAD_CIPHER in E.
    split; [exact E|]. rewrite <- E. exact E1.
Defined.
