(* ===== verification/ThreadPool.v ===== *)
(** cpp/src/privacy/thread_pool.cpp: the fixed-size thread pool.

    The sections under [queue_mutex] are atomic steps.  A wait on a condition
    variable evaluates its predicate under the lock and then either goes on or
    sleeps; a sleeper is woken by a notification or spuriously, and evaluates
    the predicate again.  What the tasks do is left open ([tstep]); the
    thread that owns the pool runs a list of calls. *)

From S2P Require Import Prelude Tasks.

(** Worker threads: about to evaluate the predicate of [condition], asleep on
    it, executing task [k], about to count task [k] as finished, or returned
    from worker_thread. *)
Inductive worker_pc := WCheck | WSleep | WRun (k : nat) | WFinish (k : nat) | WExit.

#[global] Instance worker_pc_eq_decision : EqDecision worker_pc.
Proof. solve_decision. Defined.

(** The owner's calls: submit(task k) and wait_all(). *)
Inductive pool_call := Submit (k : nat) | WaitAll.

(** Where the owner is: before its next call, between the critical section of
    submit and notify_one, asleep in wait_all, or in the destructor before
    notify_all, joining worker [w], or done. *)
Inductive owner_pc :=
| OReady (prog : list pool_call)
| ONotify (prog : list pool_call)
| OSleep (prog : list pool_call)
| OStopNotify
| OJoin (w : nat)
| OGone.

Section pool.
Context {T X : Type} (tstep : T → X → option (T * X)) (tdone : T → bool).

(** [queue] holds the indices of the queued tasks; [jobs] the state of all
    tasks, submitted or not, and what they share. *)
Record ThreadPool := MkPool {
  workers : list worker_pc;
  queue : list nat;
  active_tasks : Z;
  stop : bool;
  owner : owner_pc;
  jobs : tasks T X
}.

Definition set_worker (w : nat) (pc : worker_pc) (p : ThreadPool) : ThreadPool :=
  MkPool (<[w := pc]> (workers p)) (queue p) (active_tasks p) (stop p) (owner p) (jobs p).
Definition set_owner (o : owner_pc) (p : ThreadPool) : ThreadPool :=
  MkPool (workers p) (queue p) (active_tasks p) (stop p) o (jobs p).
Definition set_queue (q : list nat) (p : ThreadPool) : ThreadPool :=
  MkPool (workers p) q (active_tasks p) (stop p) (owner p) (jobs p).
Definition set_jobs (j : tasks T X) (p : ThreadPool) : ThreadPool :=
  MkPool (workers p) (queue p) (active_tasks p) (stop p) (owner p) j.
Definition set_active (n : Z) (p : ThreadPool) : ThreadPool :=
  MkPool (workers p) (queue p) n (stop p) (owner p) (jobs p).

(** The constructor: [threads] workers, two if that is 0. *)
Definition new_pool (threads : nat) (prog : list pool_call) (j : tasks T X) : ThreadPool :=
  MkPool (replicate (if decide (threads = 0) then 2 else threads) WCheck) [] 0 false (OReady prog) j.

(** wait_condition.notify_all(): only the owner waits on it. *)
Definition notify_owner (o : owner_pc) : owner_pc :=
  match o with OSleep prog => OReady (WaitAll :: prog) | o => o end.

(** worker_thread *)
Definition worker_step (w : nat) (p : ThreadPool) : option ThreadPool :=
  pc ← workers p !! w;
  match pc with
  | WCheck =>
      match queue p with
      | [] => Some (set_worker w (if stop p then WExit else WSleep) p)
      | k :: q => Some (set_worker w (WRun k) (set_queue q p))
      end
  | WRun k =>
      t ← code (jobs p) !! k;
      if tdone t then Some (set_worker w (WFinish k) p)
      else j ← run_task tstep tdone k (jobs p); Some (set_jobs j p)
  | WFinish k =>
      let n := (active_tasks p - 1)%Z in
      let p := set_worker w WCheck (set_active n p) in
      Some (if decide (n = 0%Z) then set_owner (notify_owner (owner p)) p else p)
  | WSleep | WExit => None
  end.

(** condition.notify_all() *)
Definition wake (pc : worker_pc) : worker_pc := match pc with WSleep => WCheck | pc => pc end.

(** The owner's next step.  [who] is the worker that notify_one wakes; it wakes
    none only when none sleeps. *)
Definition owner_step (who : option nat) (p : ThreadPool) : option ThreadPool :=
  match owner p with
  | OReady (Submit k :: prog) =>
      Some (set_owner (ONotify prog) (set_active (active_tasks p + 1) (set_queue (queue p ++ [k]) p)))
  | ONotify prog =>
      match who with
      | Some w => if decide (workers p !! w = Some WSleep)
                  then Some (set_owner (OReady prog) (set_worker w WCheck p)) else None
      | None => if decide (WSleep ∈ workers p) then None else Some (set_owner (OReady prog) p)
      end
  | OReady (WaitAll :: prog) =>
      Some (set_owner (if decide (active_tasks p = 0%Z ∧ queue p = []) then OReady prog else OSleep prog) p)
  | OStopNotify =>
      Some (MkPool (wake <$> workers p) (queue p) (active_tasks p) (stop p) (OJoin 0) (jobs p))
  | OJoin w =>
      match workers p !! w with
      | None => Some (set_owner OGone p)
      | Some WExit => Some (set_owner (OJoin (S w)) p)
      | Some _ => None
      end
  | OReady [] | OSleep _ | OGone => None
  end.

(** The destructor, after the last call: up to its notify_all. *)
Definition destroy (p : ThreadPool) : option ThreadPool :=
  match owner p with
  | OReady [] => Some (MkPool (workers p) (queue p) (active_tasks p) true OStopNotify (jobs p))
  | _ => None
  end.

Inductive pool_event :=
| EWorker (w : nat)
| EOwner (who : option nat)
| EDestroy
| ESpurious (w : nat)      (* a worker wakes without a notification *)
| ESpuriousOwner.

Definition pool_step (e : pool_event) (p : ThreadPool) : option ThreadPool :=
  match e with
  | EWorker w => worker_step w p
  | EOwner who => owner_step who p
  | EDestroy => destroy p
  | ESpurious w => if decide (workers p !! w = Some WSleep) then Some (set_worker w WCheck p) else None
  | ESpuriousOwner =>
      match owner p with OSleep _ => Some (set_owner (notify_owner (owner p)) p) | _ => None end
  end.

Fixpoint pool_run (es : list pool_event) (p : ThreadPool) : option ThreadPool :=
  match es with
  | [] => Some p
  | e :: es => p ← pool_step e p; pool_run es p
  end.

(** ** The invariant *)

Definition busy (pc : worker_pc) : list nat :=
  match pc with WRun k | WFinish k => [k] | _ => [] end.
Definition awake (pc : worker_pc) : Prop := pc ≠ WSleep ∧ pc ≠ WExit.

(** The tasks submitted and not counted as finished. *)
Definition in_flight (p : ThreadPool) : list nat := queue p ++ mbind busy (workers p).

Definition submits (c : pool_call) : list nat := match c with Submit k => [k] | _ => [] end.
Definition rest (o : owner_pc) : list pool_call :=
  match o with OReady prog | ONotify prog | OSleep prog => prog | _ => [] end.
Definition to_submit (p : ThreadPool) : list nat := mbind submits (rest (owner p)).

Definition stopping (o : owner_pc) : Prop :=
  match o with OStopNotify | OJoin _ | OGone => True | _ => False end.

Definition task_done (p : ThreadPool) (k : nat) : Prop :=
  ∃ t, code (jobs p) !! k = Some t ∧ tdone t = true.

Record pool_inv (p : ThreadPool) : Prop := {
  pl_workers : workers p ≠ [];
  pl_nodup : NoDup (to_submit p ++ in_flight p);
  pl_active : active_tasks p = Z.of_nat (length (in_flight p));
  pl_known : ∀ k, k ∈ to_submit p ++ in_flight p → k < length (code (jobs p));
  pl_covered : ∀ k, k < length (code (jobs p)) → k ∈ to_submit p ∨ k ∈ in_flight p ∨ task_done p k;
  pl_finish : ∀ w k, workers p !! w = Some (WFinish k) → task_done p k;
  pl_awake : queue p ≠ [] → (∃ w pc, workers p !! w = Some pc ∧ awake pc) ∨ ∃ prog, owner p = ONotify prog;
  pl_asleep : ∀ prog, owner p = OSleep prog → (0 < active_tasks p)%Z;
  pl_stop : stop p = true ↔ stopping (owner p);
  pl_exit : ∀ w, workers p !! w = Some WExit → stop p = true;
  pl_join : ∀ w, owner p = OJoin w → ∀ w', w' < w → workers p !! w' = Some WExit;
  pl_joining : ∀ w w', owner p = OJoin w → workers p !! w' ≠ Some WSleep;
  pl_gone : owner p = OGone → ∀ w pc, workers p !! w = Some pc → pc = WExit
}.
End pool.

Arguments ThreadPool : clear implicits.
Arguments MkPool {T X}.
