(* ===== verification/ThreadPoolInv.v ===== *)
(** The invariant of the thread pool is preserved by every step. *)

From S2P Require Import Prelude Tasks ThreadPool.

(** Replacing one element under [mbind]. *)
Lemma mbind_insert {A B} (f : A → list B) l i x :
  l !! i = Some x → ∃ r, mbind f l ≡ₚ f x ++ r ∧ ∀ y, mbind f (<[i := y]> l) ≡ₚ f y ++ r.
Proof.
  intros Hi. exists (mbind f (take i l) ++ mbind f (drop (S i) l)).
  pose proof (take_drop_middle _ _ _ Hi) as Hl. pose proof (lookup_lt_Some _ _ _ Hi). split.
  - rewrite <- Hl at 1. rewrite bind_app, bind_cons. solve_Permutation.
  - intros y. rewrite insert_take_drop by done. rewrite bind_app, bind_cons. solve_Permutation.
Qed.

Section pool.
Context {T X : Type} (tstep : T → X → option (T * X)) (tdone : T → bool).

Implicit Types p : ThreadPool T X.

Lemma task_done_jobs p k j' i :
  run_task tstep tdone i (jobs p) = Some j' → task_done tdone p k → task_done tdone (set_jobs j' p) k.
Proof.
  intros E (t & Ht & Hd). exists t. split; [|done]. cbn.
  eapply (run_sched_frozen tstep tdone [i]); [|done..]. cbn. by rewrite E.
Qed.

(** ** Workers *)

Lemma lookup_set_worker p w pc pc' w' pc0 :
  workers p !! w = Some pc → <[w := pc']> (workers p) !! w' = Some pc0 →
  w' = w ∧ pc0 = pc' ∨ w' ≠ w ∧ workers p !! w' = Some pc0.
Proof.
  intros Hpc%lookup_lt_Some. destruct (decide (w' = w)) as [->|].
  - rewrite list_lookup_insert_eq by done. intros [= <-]. by left.
  - rewrite list_lookup_insert_ne by done. by right.
Qed.

(** A worker goes on with the same task in hand, or still without one. *)
Lemma inv_worker_keep p w pc pc' :
  pool_inv tdone p → workers p !! w = Some pc → busy pc = busy pc' → pc ≠ WExit →
  (∀ k, pc' = WFinish k → task_done tdone p k) →
  (pc' = WExit → stop p = true ∧ queue p = []) → (pc' = WSleep → stop p = false ∧ queue p = []) →
  pool_inv tdone (set_worker w pc' p).
Proof.
  intros [Hw Hnd Ha Hk Hc Hf Haw Has Hs He Hj Hjg Hg] Hpc Hb Hne Hfin Hex Hsl.
  pose proof (lookup_lt_Some _ _ _ Hpc) as Hlt.
  pose proof (λ w' pc0, lookup_set_worker p w pc pc' w' pc0 Hpc) as Hl.
  assert (in_flight (set_worker w pc' p) ≡ₚ in_flight p) as Hin.
  { unfold in_flight. cbn. destruct (mbind_insert busy _ _ _ Hpc) as (r & -> & ->). by rewrite Hb. }
  split; unfold to_submit in *; rewrite ?Hin; try done; cbn.
  - intros E. apply Hw, length_zero_iff_nil. by rewrite <- (length_insert _ w pc'), E.
  - intros k. rewrite Hin. apply Hk.
  - intros k Hlk. rewrite Hin. by apply Hc.
  - intros w' k [[-> E]|[_ E]]%Hl; [by apply Hfin|by eapply Hf].
  - intros Hq. destruct (Haw Hq) as [(w' & pc0 & Hw' & Hpc0)|Hno]; [left|by right].
    destruct (decide (w' = w)) as [->|].
    + exists w, pc'. rewrite list_lookup_insert_eq by done. split; [done|].
      split; intros E; [by destruct (Hsl E)|by destruct (Hex E)].
    + exists w', pc0. by rewrite list_lookup_insert_ne.
  - intros w' [[-> E]|[_ E]]%Hl; [by apply Hex|by eapply He].
  - intros w' Ho w0 Hw0. specialize (Hj _ Ho _ Hw0). rewrite list_lookup_insert_ne; [done|].
    intros ->. congruence.
  - intros w' w0 Ho [[-> E]|[_ E]]%Hl; [|by eapply Hjg]. destruct (Hsl (eq_sym E)) as [Hst _].
    assert (stop p = true); [|congruence]. apply Hs. by rewrite Ho.
  - intros Ho w' pc0 [[-> ->]|[_ E]]%Hl; [|by eapply Hg]. by specialize (Hg Ho _ _ Hpc).
Qed.

(** It takes the first task from the queue. *)
Lemma inv_worker_pop p w k q :
  pool_inv tdone p → workers p !! w = Some WCheck → queue p = k :: q →
  pool_inv tdone (set_worker w (WRun k) (set_queue q p)).
Proof.
  intros [Hw Hnd Ha Hk Hc Hf Haw Has Hs He Hj Hjg Hg] Hpc Hq.
  pose proof (lookup_lt_Some _ _ _ Hpc) as Hlt.
  pose proof (λ w' pc0, lookup_set_worker p w WCheck (WRun k) w' pc0 Hpc) as Hl.
  assert (in_flight (set_worker w (WRun k) (set_queue q p)) ≡ₚ in_flight p) as Hin.
  { unfold in_flight. cbn. destruct (mbind_insert busy _ _ _ Hpc) as (r & -> & ->).
    rewrite Hq. cbn. solve_Permutation. }
  split; unfold to_submit in *; rewrite ?Hin; try done; cbn.
  - intros E. apply Hw, length_zero_iff_nil. by rewrite <- (length_insert _ w (WRun k)), E.
  - intros i. rewrite Hin. apply Hk.
  - intros i Hlk. rewrite Hin. by apply Hc.
  - intros w' i [[-> E]|[_ E]]%Hl; [done|by eapply Hf].
  - intros _. left. exists w, (WRun k). by rewrite list_lookup_insert_eq.
  - intros w' [[-> E]|[_ E]]%Hl; [done|by eapply He].
  - intros w' Ho w0 Hw0. specialize (Hj _ Ho _ Hw0). rewrite list_lookup_insert_ne; [done|].
    intros ->. congruence.
  - intros w' w0 Ho [[-> E]|[_ E]]%Hl; [done|by eapply Hjg].
  - intros Ho w' pc0 [[-> ->]|[_ E]]%Hl; [|by eapply Hg]. by specialize (Hg Ho _ _ Hpc).
Qed.

(** A step of a task. *)
Lemma inv_jobs p k j' :
  pool_inv tdone p → run_task tstep tdone k (jobs p) = Some j' → pool_inv tdone (set_jobs j' p).
Proof.
  intros [Hw Hnd Ha Hk Hc Hf Haw Has Hs He Hj Hjg Hg] E.
  pose proof (run_task_length _ _ _ _ _ E) as Hlen. pose proof (λ i, task_done_jobs p i j' k E) as Hd.
  split; unfold to_submit in *; try done; cbn; rewrite ?Hlen; try done.
  - intros i Hi. destruct (Hc i Hi) as [|[|]]; auto.
  - intros w i Hwi. by eapply Hd, Hf.
Qed.

Lemma to_submit_notify o : mbind submits (rest (notify_owner o)) = mbind submits (rest o).
Proof. by destruct o. Qed.

(** It counts its task as finished. *)
Lemma inv_worker_finish p w k :
  pool_inv tdone p → workers p !! w = Some (WFinish k) →
  ∀ p', worker_step tstep tdone w p = Some p' → pool_inv tdone p'.
Proof.
  intros [Hw Hnd Ha Hk Hc Hf Haw Has Hs He Hj Hjg Hg] Hpc p' E.
  pose proof (lookup_lt_Some _ _ _ Hpc) as Hlt.
  pose proof (λ w' pc0, lookup_set_worker p w (WFinish k) WCheck w' pc0 Hpc) as Hl.
  unfold worker_step in E. rewrite Hpc in E. cbn in E. injection E as <-.
  set (n := (active_tasks p - 1)%Z).
  assert (∃ o, (o = owner p ∧ n ≠ 0%Z ∨ o = notify_owner (owner p) ∧ n = 0%Z) ∧
    (if decide (n = 0%Z) then set_owner (notify_owner (owner p)) (set_worker w WCheck (set_active n p))
     else set_worker w WCheck (set_active n p)) = set_owner o (set_worker w WCheck (set_active n p)))
    as (o & Ho & ->) by (case_decide; eexists; split; eauto).
  unfold to_submit in *.
  assert (mbind submits (rest o) = mbind submits (rest (owner p))) as Hsub.
  { destruct Ho as [[-> _]|[-> _]]; [done|apply to_submit_notify]. }
  assert (in_flight p ≡ₚ k :: in_flight (set_owner o (set_worker w WCheck (set_active n p)))) as Hin.
  { unfold in_flight. cbn. destruct (mbind_insert busy _ _ _ Hpc) as (r & -> & ->). cbn. solve_Permutation. }
  rewrite Hin in Hnd. setoid_rewrite Hin in Hk. setoid_rewrite Hin in Hc.
  pose proof (Permutation_length Hin) as Hlen. cbn [length] in Hlen.
  assert (n = active_tasks p - 1)%Z as Hn by done. clearbody n.
  assert (∀ w', o = OJoin w' → owner p = OJoin w') as Hoj.
  { intros w'. destruct Ho as [[-> _]|[-> _]]; [done|]. by destruct (owner p). }
  assert (stopping o ↔ stopping (owner p)) as Hst.
  { destruct Ho as [[-> _]|[-> _]]; [done|]. by destruct (owner p). }
  split; unfold to_submit; cbn -[in_flight]; rewrite ?Hsub; try done.
  - intros E. apply Hw, length_zero_iff_nil. by rewrite <- (length_insert _ w WCheck), E.
  - rewrite <- Permutation_middle in Hnd. by apply NoDup_cons in Hnd as [_ ?].
  - lia.
  - intros i Hi. apply Hk. rewrite elem_of_app, elem_of_cons in *. tauto.
  - intros i Hi. destruct (Hc i Hi) as [H|[[->|H]%elem_of_cons|H]]; auto. right; right. by eapply Hf.
  - intros w' i [[-> E]|[_ E]]%Hl; [done|by eapply Hf].
  - intros _. left. exists w, WCheck. by rewrite list_lookup_insert_eq.
  - intros prog ->. destruct Ho as [[_ ?]|[Ho _]]; [|by destruct (owner p)].
    lia.
  - by rewrite Hs, Hst.
  - intros w' [[-> E]|[_ E]]%Hl; [done|by eapply He].
  - intros w' Ho' w0 Hw0. specialize (Hj _ (Hoj _ Ho') _ Hw0). rewrite list_lookup_insert_ne; [done|].
    intros ->. congruence.
  - intros w' w0 Ho' [[-> E]|[_ E]]%Hl; [done|by eapply Hjg; [apply Hoj|]].
  - intros -> w' pc0 [[-> ->]|[_ E]]%Hl.
    + assert (owner p = OGone) as Hgo by (destruct Ho as [[<- _]|[Ho _]]; [done|by destruct (owner p)]).
      by specialize (Hg Hgo _ _ Hpc).
    + eapply Hg; [|done]. destruct Ho as [[<- _]|[Ho _]]; [done|by destruct (owner p)].
Qed.

Lemma inv_worker w p p' : pool_inv tdone p → worker_step tstep tdone w p = Some p' → pool_inv tdone p'.
Proof.
  intros Hi E. destruct (workers p !! w) as [[| |k|k|]|] eqn:Hpc;
    [..|by unfold worker_step in E; rewrite Hpc in E].
  - unfold worker_step in E. rewrite Hpc in E. cbn in E. destruct (queue p) as [|k q] eqn:Hq; injection E as <-.
    + apply (inv_worker_keep _ _ WCheck); try done; destruct (stop p) eqn:Hs; try done; intros; by split.
    + by apply inv_worker_pop.
  - unfold worker_step in E. by rewrite Hpc in E.
  - unfold worker_step in E. rewrite Hpc in E. cbn in E. apply bind_Some in E as (t & Ht & E).
    destruct (tdone t) eqn:Hd; [injection E as <-|].
    + apply (inv_worker_keep _ _ (WRun k)); try done. intros k' [= <-]. by exists t.
    + apply bind_Some in E as (j & E & [= <-]). by eapply inv_jobs.
  - by eapply inv_worker_finish.
  - unfold worker_step in E. by rewrite Hpc in E.
Qed.
(** ** The owner *)

Lemma no_sleeper_awake p :
  pool_inv tdone p → WSleep ∉ workers p → stop p = false → ∃ w pc, workers p !! w = Some pc ∧ awake pc.
Proof.
  intros Hi Hns Hs. destruct (workers p) as [|pc ws] eqn:Hw; [by destruct (pl_workers _ _ Hi)|].
  exists 0, pc. split; [done|]. split.
  - intros ->. apply Hns. by left.
  - intros ->. assert (stop p = true); [|congruence]. apply (pl_exit _ _ Hi 0). by rewrite Hw.
Qed.

(** The owner moves between calls; nothing else changes. *)
Lemma inv_set_owner p o :
  pool_inv tdone p → mbind submits (rest o) = to_submit p → ¬ stopping o → ¬ stopping (owner p) →
  (queue p ≠ [] → (∃ w pc, workers p !! w = Some pc ∧ awake pc) ∨ ∃ prog, o = ONotify prog) →
  (∀ prog, o = OSleep prog → (0 < active_tasks p)%Z) →
  pool_inv tdone (set_owner o p).
Proof.
  intros [Hw Hnd Ha Hk Hc Hf Haw Has Hs He Hj Hjg Hg] Hsub Hno Hno' Hawake Hsleep.
  split; unfold to_submit in *; cbn -[in_flight]; rewrite ?Hsub; try done.
  - rewrite Hs. split; intros; [by destruct Hno'|by destruct Hno].
  - by intros w ->.
  - by intros w w' ->.
  - by intros ->.
Qed.

Lemma inv_submit p k prog :
  pool_inv tdone p → owner p = OReady (Submit k :: prog) →
  pool_inv tdone (set_owner (ONotify prog) (set_active (active_tasks p + 1) (set_queue (queue p ++ [k]) p))).
Proof.
  intros [Hw Hnd Ha Hk Hc Hf Haw Has Hs He Hj Hjg Hg] Ho.
  set (p' := set_owner _ _).
  assert (in_flight p' ≡ₚ k :: in_flight p) as Hin.
  { unfold in_flight, p'. cbn. solve_Permutation. }
  assert (to_submit p = k :: to_submit p') as Hsub.
  { unfold to_submit, p'. by rewrite Ho. }
  assert (to_submit p ++ in_flight p ≡ₚ to_submit p' ++ in_flight p') as Hall.
  { rewrite Hsub, Hin. cbn. apply Permutation_middle. }
  split; try done.
  - by rewrite <- Hall.
  - cbn -[in_flight]. fold p'. rewrite Hin, Ha. cbn [length]. lia.
  - intros i. rewrite <- Hall. apply Hk.
  - intros i Hi. destruct (Hc i Hi) as [H|[H|H]]; [| |by auto]; rewrite Hsub in *.
    + apply elem_of_cons in H as [->|H]; [|by auto]. right; left. rewrite Hin. by left.
    + right; left. rewrite Hin. by right.
  - intros _. right. by exists prog.
  - cbn. rewrite Hs, Ho. done.
Qed.

Lemma busy_wake ws : mbind busy (wake <$> ws) = mbind busy ws.
Proof. induction ws as [|pc ws IH]; [done|]. rewrite fmap_cons, !bind_cons, IH. by destruct pc. Qed.

Lemma inv_stop_notify p :
  pool_inv tdone p → owner p = OStopNotify →
  pool_inv tdone (MkPool (wake <$> workers p) (queue p) (active_tasks p) (stop p) (OJoin 0) (jobs p)).
Proof.
  intros [Hw Hnd Ha Hk Hc Hf Haw Has Hs He Hj Hjg Hg] Ho.
  assert (in_flight (MkPool (wake <$> workers p) (queue p) (active_tasks p) (stop p) (OJoin 0) (jobs p))
    = in_flight p) as Hin by (unfold in_flight; cbn; by rewrite busy_wake).
  split; unfold to_submit in *; rewrite ?Hin; rewrite Ho in *; try done; cbn -[in_flight].
  - by intros ?%fmap_nil_inv.
  - intros w k (pc & E & Hpc)%list_lookup_fmap_Some. destruct pc; simplify_eq/=. by eapply Hf.
  - intros Hq. left. destruct (Haw Hq) as [(w & pc & Hpc & Hpc')|[]]; [|done].
    exists w, pc. rewrite list_lookup_fmap, Hpc. split; [|done]. by destruct pc, Hpc'.
  - intros w (pc & E & Hpc)%list_lookup_fmap_Some. apply (He w). by destruct pc.
  - intros w [= <-] w' Hw'. lia.
  - intros w w' _ (pc & E & Hpc)%list_lookup_fmap_Some. by destruct pc.
Qed.

(** Joining: the next worker, or none is left. *)
Lemma inv_join p o :
  pool_inv tdone p → (∃ w, owner p = OJoin w) →
  o = OGone ∧ (∃ w, owner p = OJoin w ∧ workers p !! w = None) ∨
    (∃ w, o = OJoin (S w) ∧ owner p = OJoin w ∧ workers p !! w = Some WExit) →
  pool_inv tdone (set_owner o p).
Proof.
  intros [Hw Hnd Ha Hk Hc Hf Haw Has Hs He Hj Hjg Hg] [w0 Ho0] Ho.
  assert (rest o = [] ∧ stopping o ∧ ∀ prog, o ≠ OSleep prog) as (Hr & Hst & Hns).
  { by destruct Ho as [(-> & _)|(w & -> & _)]. }
  split; unfold to_submit in *; cbn -[in_flight]; rewrite ?Hr; rewrite Ho0 in *; try done.
  - intros Hq. left. by destruct (Haw Hq) as [|[]].
  - intros prog E. by destruct (Hns prog).
  - rewrite Hs. by split.
  - intros w -> w' Hw'. destruct Ho as [(? & _)|(w1 & [= ->] & [= <-] & Hx)]; [done|].
    destruct (decide (w' = w0)) as [->|]; [done|]. eapply Hj; [done|lia].
  - intros w w' _. by eapply Hjg.
  - intros -> w pc Hpc. destruct Ho as [(_ & w1 & [= <-] & Hx)|(? & ? & _)]; [|done].
    pose proof (lookup_lt_Some _ _ _ Hpc). apply lookup_ge_None in Hx.
    rewrite (Hj _ eq_refl w) in Hpc by lia. by simplify_eq.
Qed.

Lemma inv_owner who p p' : pool_inv tdone p → owner_step who p = Some p' → pool_inv tdone p'.
Proof.
  intros Hi E. unfold owner_step in E. destruct (owner p) as [[|[k|] prog]|prog|prog| |w|] eqn:Ho; try done.
  - injection E as <-. by apply inv_submit.
  - injection E as <-. apply inv_set_owner; try done; unfold to_submit; rewrite ?Ho; try done.
    + by case_decide.
    + case_decide; by intros [].
    + by intros [].
    + intros Hq. left. destruct (pl_awake _ _ Hi Hq) as [|[prog' Ho']]; [done|congruence].
    + intros prog'. case_decide as Hd; [done|]. intros _. rewrite (pl_active _ _ Hi).
      enough (0 < length (in_flight p)) by lia. destruct (queue p) as [|k q] eqn:Hq.
      * rewrite (pl_active _ _ Hi) in Hd. destruct (length (in_flight p)); [|lia]. by destruct Hd.
      * unfold in_flight. rewrite Hq. cbn. lia.
  - assert (stop p = false) as Hs.
    { apply not_true_is_false. rewrite (pl_stop _ _ Hi), Ho. by intros []. }
    destruct who as [w|]; case_decide as Hd; try done; injection E as <-.
    + change (pool_inv tdone (set_owner (OReady prog) (set_worker w WCheck p))).
      apply inv_set_owner; cbn; unfold to_submit; rewrite ?Ho; try done; try by intros [].
      * by apply (inv_worker_keep _ _ WSleep).
      * cbn. by rewrite Ho.
      * intros _. left. exists w, WCheck. rewrite list_lookup_insert_eq; [done|by eapply lookup_lt_Some].
    + apply inv_set_owner; unfold to_submit; rewrite ?Ho; try done; try by intros [].
      intros _. left. by apply no_sleeper_awake.
  - injection E as <-. by apply inv_stop_notify.
  - destruct (workers p !! w) as [[]|] eqn:Hw; try done; injection E as <-.
    + apply inv_join; [done|by eauto|]. right. by exists w.
    + apply inv_join; [done|by eauto|]. left. split; [done|]. by exists w.
Qed.

Lemma inv_destroy p p' : pool_inv tdone p → destroy p = Some p' → pool_inv tdone p'.
Proof.
  intros [Hw Hnd Ha Hk Hc Hf Haw Has Hs He Hj Hjg Hg] E. unfold destroy in E.
  destruct (owner p) as [[]| | | | |] eqn:Ho; try done. injection E as <-.
  split; unfold to_submit in *; rewrite ?Ho in *; try done.
  intros Hq. left. by destruct (Haw Hq) as [|[]].
Qed.

Lemma pool_inv_step e p p' : pool_inv tdone p → pool_step tstep tdone e p = Some p' → pool_inv tdone p'.
Proof.
  intros Hi E. destruct e as [w|who| |w|]; cbn in E.
  - by eapply inv_worker.
  - by eapply inv_owner.
  - by eapply inv_destroy.
  - case_decide; [|done]. injection E as <-. by apply (inv_worker_keep _ _ WSleep).
  - destruct (owner p) as [| |prog| | |] eqn:Ho; try done. injection E as <-.
    apply inv_set_owner; unfold to_submit; rewrite ?Ho; try done; try by intros [].
    intros Hq. left. destruct (pl_awake _ _ Hi Hq) as [|[prog' Ho']]; [done|congruence].
Qed.

Lemma pool_run_app es1 es2 p :
  pool_run tstep tdone (es1 ++ es2) p = pool_run tstep tdone es1 p ≫= pool_run tstep tdone es2.
Proof.
  revert p. induction es1 as [|e es1 IH]; intros p; cbn; [done|].
  destruct (pool_step tstep tdone e p); cbn; [apply IH|done].
Qed.

Lemma inv_run es p p' : pool_inv tdone p → pool_run tstep tdone es p = Some p' → pool_inv tdone p'.
Proof.
  revert p. induction es as [|e es IH]; intros p Hi E; cbn in E; [by simplify_eq|].
  apply bind_Some in E as (p1 & E1 & E). apply (IH p1); [|done]. by eapply pool_inv_step.
Qed.

End pool.
