(* ===== verification/ThreadPoolProps.v ===== *)
(** What the thread pool promises: every submitted task runs to its end, once;
    wait_all is a barrier; no notification is lost, so nobody waits for ever. *)

From S2P Require Import Prelude Tasks ThreadPool ThreadPoolInv.

Section pool.
Context {T X : Type} (tstep : T → X → option (T * X)) (tdone : T → bool).
Implicit Types p : ThreadPool T X.

(** A pool between two batches: nothing queued, every worker idle, and the owner
    about to make the calls [prog] on tasks that have not started. *)
Record idle_pool (prog : list pool_call) (p : ThreadPool T X) : Prop := {
  id_workers : workers p ≠ [];
  id_idle : ∀ w pc, workers p !! w = Some pc → pc = WCheck ∨ pc = WSleep;
  id_queue : queue p = [];
  id_active : active_tasks p = 0%Z;
  id_stop : stop p = false;
  id_owner : owner p = OReady prog;
  id_nodup : NoDup (mbind submits prog);
  id_known : ∀ k, k ∈ mbind submits prog → k < length (code (jobs p));
  id_covered : ∀ k, k < length (code (jobs p)) → k ∈ mbind submits prog ∨ task_done tdone p k
}.

Lemma idle_in_flight prog p : idle_pool prog p → in_flight p = [].
Proof.
  intros Hi. unfold in_flight. rewrite (id_queue _ _ Hi). cbn.
  pose proof (id_idle _ _ Hi) as H. induction (workers p) as [|pc ws IH]; [done|].
  rewrite bind_cons, IH; [|intros w pc' Hw; by apply (H (S w))].
  by destruct (H 0 pc eq_refl) as [-> | ->].
Qed.

Lemma idle_inv prog p : idle_pool prog p → pool_inv tdone p.
Proof.
  intros Hi. pose proof (idle_in_flight _ _ Hi) as Hfl. destruct Hi as [Hw Hid Hq Ha Hs Ho Hnd Hk Hc].
  split; unfold to_submit; rewrite ?Hfl, ?app_nil_r, ?Ho; try done.
  - intros k Hk'. destruct (Hc k Hk'); auto.
  - intros w k Hwk. by destruct (Hid _ _ Hwk).
  - rewrite Hs. by split; [|intros []].
  - intros w Hwk. by destruct (Hid _ _ Hwk).
Qed.

(** The pool that the constructor makes is idle. *)
Lemma new_pool_idle threads prog j :
  NoDup (mbind submits prog) → (∀ k, k ∈ mbind submits prog → k < length (code j)) →
  (∀ k, k < length (code j) → k ∈ mbind submits prog) →
  idle_pool prog (new_pool threads prog j).
Proof.
  intros Hnd Hk Hc. split; cbn; try done.
  - by case_decide; destruct threads.
  - intros w pc H%list_elem_of_lookup_2%elem_of_replicate. left. by destruct H.
  - auto.
Qed.

(** The tasks themselves only see a schedule. *)
Lemma pool_schedule es p p' :
  pool_run tstep tdone es p = Some p' → ∃ sched, run_sched tstep tdone sched (jobs p) = Some (jobs p').
Proof.
  assert (∀ e p p', pool_step tstep tdone e p = Some p' →
    jobs p' = jobs p ∨ ∃ k, run_task tstep tdone k (jobs p) = Some (jobs p')) as Hstep.
  { clear es p p'. intros e p p' E. destruct e as [w|who| |w|]; cbn in E.
    - unfold worker_step in E. apply bind_Some in E as (pc & _ & E). destruct pc as [| |k|k|]; try done.
      + left. destruct (queue p); by simplify_eq.
      + apply bind_Some in E as (t & _ & E). destruct (tdone t); [left; by simplify_eq|right].
        apply bind_Some in E as (j & E & [= <-]). by exists k.
      + left. simplify_eq. by case_decide.
    - left. unfold owner_step in E. destruct (owner p) as [[|[]]| | | | |]; try done; simplify_eq/=; try done.
      + by destruct who; case_decide; simplify_eq.
      + by destruct (workers p !! w) as [[]|]; simplify_eq.
    - left. unfold destroy in E. destruct (owner p) as [[]| | | | |]; by simplify_eq.
    - left. case_decide; by simplify_eq.
    - left. destruct (owner p); by simplify_eq. }
  revert p. induction es as [|e es IH]; intros p E; cbn in E; [simplify_eq; by exists []|].
  apply bind_Some in E as (p1 & E1 & E). destruct (IH _ E) as [sched Hs].
  destruct (Hstep _ _ _ E1) as [<-|[k Hk]]; [by exists sched|].
  exists (k :: sched). cbn. by rewrite Hk.
Qed.

(** A program that ends with wait_all has nothing in flight at its end. *)
Definition waited (p : ThreadPool T X) : Prop :=
  match owner p with
  | OReady [] => active_tasks p = 0%Z
  | OReady prog | ONotify prog => last prog = Some WaitAll
  | OSleep prog => prog = [] ∨ last prog = Some WaitAll
  | _ => True
  end.

Lemma finish_active p w k :
  pool_inv tdone p → workers p !! w = Some (WFinish k) → (0 < active_tasks p)%Z.
Proof.
  intros Hi Hw. rewrite (pl_active _ _ Hi). enough (in_flight p ≠ []) by (destruct (in_flight p); [done|cbn; lia]).
  unfold in_flight. destruct (mbind_insert busy _ _ _ Hw) as (r & Hr & _).
  intros [_ Hb]%app_eq_nil. rewrite Hb in Hr. by apply Permutation_nil_l in Hr.
Qed.

Lemma waited_step e p p' :
  pool_inv tdone p → pool_step tstep tdone e p = Some p' → waited p → waited p'.
Proof.
  intros Hi E. unfold waited. destruct e as [w|who| |w|]; cbn in E.
  - unfold worker_step in E. apply bind_Some in E as (pc & Hpc & E). destruct pc as [| |k|k|]; try done.
    + destruct (queue p); by simplify_eq/=.
    + apply bind_Some in E as (t & _ & E). destruct (tdone t); [by simplify_eq/=|].
      by apply bind_Some in E as (j & _ & [= <-]).
    + simplify_eq. destruct (owner p) as [[]|prog|prog| | |] eqn:Ho; case_decide; cbn; rewrite ?Ho; cbn; try done.
      * intros Hact. pose proof (finish_active _ _ _ Hi Hpc). lia.
      * by intros [->|Hl]; [|destruct prog].
  - unfold owner_step in E. destruct (owner p) as [[|[k|] prog]|prog|prog| |w|] eqn:Ho; try done; simplify_eq/=; try done.
    + by destruct prog.
    + case_decide as Hd; cbn; [destruct prog; [|done]; by destruct Hd|]. destruct prog; auto.
    + intros Hl. destruct who; case_decide; simplify_eq/=; by destruct prog.
    + by destruct (workers p !! w) as [[]|]; simplify_eq/=.
  - unfold destroy in E. destruct (owner p) as [[]| | | | |]; by simplify_eq/=.
  - case_decide; by simplify_eq/=.
  - destruct (owner p) as [| |prog| | |]; simplify_eq/=. by intros [->|Hl]; [|destruct prog].
Qed.

Lemma waited_run prog p0 es p :
  idle_pool prog p0 → last prog = Some WaitAll → pool_run tstep tdone es p0 = Some p → waited p.
Proof.
  intros Hid Hl. assert (waited p0) as Hw.
  { unfold waited. rewrite (id_owner _ _ Hid). by destruct prog. }
  pose proof (idle_inv _ _ Hid) as Hi. clear Hid. revert p0 Hi Hw.
  induction es as [|e es IH]; intros p0 Hi Hw E; cbn in E; [by simplify_eq|].
  apply bind_Some in E as (p1 & E1 & E). eapply IH; [|by eapply waited_step|done]. by eapply pool_inv_step.
Qed.

(** Its pool is idle again, with every task done. *)
Lemma waited_end prog p0 es p :
  idle_pool prog p0 → last prog = Some WaitAll → pool_run tstep tdone es p0 = Some p → owner p = OReady [] →
  (∀ k, k < length (code (jobs p)) → task_done tdone p k) ∧ idle_pool [] p.
Proof.
  intros Hid Hl E Ho. pose proof (waited_run _ _ _ _ Hid Hl E) as Hact. unfold waited in Hact. rewrite Ho in Hact.
  pose proof (inv_run _ _ _ _ _ (idle_inv _ _ Hid) E) as Hi.
  assert (in_flight p = []) as Hfl.
  { apply length_zero_iff_nil. rewrite (pl_active _ _ Hi) in Hact. lia. }
  assert (∀ k, k < length (code (jobs p)) → task_done tdone p k) as Hd.
  { intros k Hk. destruct (pl_covered _ _ Hi k Hk) as [H|[H|]]; [| |done].
    - unfold to_submit in H. rewrite Ho in H. by apply elem_of_nil in H.
    - rewrite Hfl in H. by apply elem_of_nil in H. }
  assert (stop p = false) as Hs.
  { apply not_true_is_false. rewrite (pl_stop _ _ Hi), Ho. by intros []. }
  apply app_eq_nil in Hfl as [Hq Hb]. split; [done|]. split; try done; auto.
  - apply (pl_workers _ _ Hi).
  - intros w pc Hw. destruct (mbind_insert busy _ _ _ Hw) as (r & Hr & _).
    rewrite Hb in Hr. apply Permutation_nil_l, eq_sym, app_eq_nil in Hr as [Hr _].
    destruct pc; auto; try done. pose proof (pl_exit _ _ Hi _ Hw). congruence.
  - constructor.
  - by intros k ?%elem_of_nil.
Qed.

(** ** Properties *)

(** C18: the pool runs every task once, and wait_all is a barrier.  In every
    reachable state, whatever the workers, the scheduler and spurious wake-ups
    do: no task is queued or executed twice; a submitted task is in flight or
    has run to its end; active_tasks counts the tasks in flight; when wait_all
    returns, all submitted tasks have run to their end; when the destructor
    returns, the same holds and all workers have exited; and the tasks and what
    they share are in a state that a schedule of the tasks reaches. *)
Theorem pool_barrier prog p0 es p :
  idle_pool prog p0 → pool_run tstep tdone es p0 = Some p →
  NoDup (in_flight p) ∧ active_tasks p = Z.of_nat (length (in_flight p)) ∧
  (∀ k, k ∈ mbind submits prog → k ∉ to_submit p → k ∈ in_flight p ∨ task_done tdone p k) ∧
  (∀ who p' prog', owner p = OReady (WaitAll :: prog') → pool_step tstep tdone (EOwner who) p = Some p' →
     owner p' = OReady prog' →
     ∀ k, k ∈ mbind submits prog → k ∉ to_submit p' → task_done tdone p' k) ∧
  (owner p = OGone →
     (∀ k, k ∈ mbind submits prog → task_done tdone p k) ∧ Forall (λ pc, pc = WExit) (workers p)) ∧
  ∃ sched, run_sched tstep tdone sched (jobs p0) = Some (jobs p).
Proof.
  intros Hid E. pose proof (inv_run _ _ _ _ _ (idle_inv _ _ Hid) E) as Hi.
  assert (∀ k, k ∈ mbind submits prog → k < length (code (jobs p))) as Hk.
  { intros k Hin. destruct (pool_schedule _ _ _ E) as [sched Hs].
    rewrite (run_sched_length _ _ _ _ _ Hs). by apply (id_known _ _ Hid). }
  assert (∀ k, k ∈ mbind submits prog → k ∉ to_submit p → k ∈ in_flight p ∨ task_done tdone p k) as Hsub.
  { intros k Hin Hn. destruct (pl_covered _ _ Hi k (Hk k Hin)) as [|]; [done|auto]. }
  pose proof (pl_nodup _ _ Hi) as Hnd. apply NoDup_app in Hnd as (_ & _ & Hnd).
  split_and!; [done|apply (pl_active _ _ Hi)|done| | |by eapply pool_schedule].
  - intros who p' prog' Ho E' Ho' k Hin Hn. cbn in E'. unfold owner_step in E'. rewrite Ho in E'.
    injection E' as <-. case_decide as Hd; [|done]. destruct Hd as [Hact Hq].
    assert (in_flight p = []) as Hfl.
    { apply length_zero_iff_nil. rewrite (pl_active _ _ Hi) in Hact. lia. }
    destruct (Hsub k Hin) as [Hf|Hd]; [|by rewrite Hfl in Hf; apply elem_of_nil in Hf|done].
    unfold to_submit in *. by rewrite Ho.
  - intros Ho. assert (Forall (λ pc, pc = WExit) (workers p)) as Hex.
    { apply Forall_lookup. intros w pc. by apply (pl_gone _ _ Hi). }
    split; [|done]. intros k Hin.
    assert (in_flight p = []) as Hfl.
    { unfold in_flight. destruct (queue p) eqn:Hq.
      - clear -Hex. cbn. induction Hex as [|pc ws -> _ IH]; [done|]. by rewrite bind_cons, IH.
      - exfalso. destruct (pl_awake _ _ Hi) as [(w & pc & Hw & Hpc)|[prog' Ho']]; [by rewrite Hq| |congruence].
        rewrite (pl_gone _ _ Hi Ho _ _ Hw) in Hpc. by destruct Hpc. }
    destruct (Hsub k Hin) as [Hf|Hd]; [|by rewrite Hfl in Hf; apply elem_of_nil in Hf|done].
    unfold to_submit. rewrite Ho. by intros ?%elem_of_nil.
Qed.

(** ** Termination *)

Context (rem : T → nat).
Context (tstep_rem : ∀ t x t' x', tdone t = false → tstep t x = Some (t', x') → rem t' < rem t).

(** What is left to do for a task, a worker, a call, and the owner. *)
Definition task_cost (j : tasks T X) (k : nat) : nat := 5 + default 0 (rem <$> code j !! k).

Definition worker_cost (j : tasks T X) (pc : worker_pc) : nat :=
  match pc with WCheck => 1 | WRun k => task_cost j k | WFinish _ => 4 | WSleep | WExit => 0 end.

Definition call_cost (j : tasks T X) (c : pool_call) : nat :=
  match c with Submit k => task_cost j k + 3 | WaitAll => 2 end.

Definition owner_cost (n : nat) (j : tasks T X) (o : owner_pc) : nat :=
  let calls prog := sum_list_with (call_cost j) prog in
  match o with
  | OReady prog => calls prog + (2 * n + 3)
  | ONotify prog => 2 + calls prog + (2 * n + 3)
  | OSleep prog => 1 + calls prog + (2 * n + 3)
  | OStopNotify => 2 * n + 2
  | OJoin w => S (n - w)
  | OGone => 0
  end.

Definition pool_measure (p : ThreadPool T X) : nat :=
  sum_list_with (worker_cost (jobs p)) (workers p) + sum_list_with (task_cost (jobs p)) (queue p) +
  owner_cost (length (workers p)) (jobs p) (owner p).

(** A step of task [k] lowers its cost and no other. *)
Lemma task_cost_step k t j j' :
  code j !! k = Some t → tdone t = false → run_task tstep tdone k j = Some j' →
  task_cost j' k < task_cost j k ∧ ∀ i, task_cost j' i ≤ task_cost j i.
Proof.
  intros Ht Hd E. unfold run_task in E. rewrite Ht, Hd in E. apply bind_Some in E as ([t' x] & Es & [= <-]).
  apply tstep_rem in Es; [|done]. pose proof (lookup_lt_Some _ _ _ Ht) as Hlt. unfold task_cost. cbn. split.
  - rewrite list_lookup_insert_eq, Ht by done. cbn. lia.
  - intros i. destruct (decide (i = k)) as [->|].
    + rewrite list_lookup_insert_eq, Ht by done. cbn. lia.
    + by rewrite list_lookup_insert_ne by done.
Qed.

Lemma worker_measure w p p' :
  worker_step tstep tdone w p = Some p' → pool_measure p' < pool_measure p.
Proof.
  unfold worker_step. intros (pc & Hpc & E)%bind_Some.
  pose proof (λ j pc', sum_insert (worker_cost j) _ _ _ pc' Hpc) as Hsum.
  destruct pc as [| |k|k|]; try done.
  - unfold pool_measure. destruct (queue p) as [|k q] eqn:Hq; injection E as <-; cbn; rewrite ?length_insert, ?Hq.
    + specialize (Hsum (jobs p) (if stop p then WExit else WSleep)). destruct (stop p); cbn in *; lia.
    + specialize (Hsum (jobs p) (WRun k)). cbn in *. lia.
  - apply bind_Some in E as (t & Ht & E). destruct (tdone t) eqn:Hd.
    + injection E as <-. unfold pool_measure. cbn. rewrite length_insert.
      specialize (Hsum (jobs p) (WFinish k)). unfold worker_cost, task_cost in *. lia.
    + apply bind_Some in E as (j & E & [= <-]). destruct (task_cost_step _ _ _ _ Ht Hd E) as [Hk Hle].
      unfold pool_measure. cbn.
      assert (sum_list_with (worker_cost j) (workers p) < sum_list_with (worker_cost (jobs p)) (workers p)).
      { pose proof (Hsum j WCheck) as H1. pose proof (Hsum (jobs p) WCheck) as H2. cbn [worker_cost] in H1, H2.
        assert (sum_list_with (worker_cost j) (<[w := WCheck]> (workers p)) ≤
                sum_list_with (worker_cost (jobs p)) (<[w := WCheck]> (workers p))); [|lia].
        apply sum_le. intros [] _; cbn [worker_cost]; try done. }
      assert (sum_list_with (task_cost j) (queue p) ≤ sum_list_with (task_cost (jobs p)) (queue p)).
      { apply sum_le. intros i _. apply Hle. }
      assert (∀ prog, sum_list_with (call_cost j) prog ≤ sum_list_with (call_cost (jobs p)) prog) as Hcalls.
      { intros prog. apply sum_le. intros [i|] _; cbn [call_cost]; [|done]. pose proof (Hle i). lia. }
      assert (owner_cost (length (workers p)) j (owner p) ≤ owner_cost (length (workers p)) (jobs p) (owner p)).
      { destruct (owner p) as [prog|prog|prog| | |]; cbn [owner_cost]; try done; pose proof (Hcalls prog); lia. }
      lia.
  - specialize (Hsum (jobs p) WCheck). injection E as <-. unfold pool_measure. cbn [worker_cost] in Hsum.
    assert (owner_cost (length (workers p)) (jobs p) (notify_owner (owner p))
      ≤ S (owner_cost (length (workers p)) (jobs p) (owner p))).
    { destruct (owner p); cbn -[Nat.mul]; lia. }
    case_decide; cbn -[owner_cost]; rewrite length_insert; lia.
Qed.

Lemma owner_measure who p p' :
  pool_inv tdone p → owner_step who p = Some p' → pool_measure p' < pool_measure p.
Proof.
  intros Hi E. unfold owner_step in E. unfold pool_measure.
  destruct (owner p) as [[|[k|] prog]|prog|prog| |w|] eqn:Ho; try done.
  - injection E as <-. cbn -[Nat.mul]. rewrite sum_list_with_app.
    cbn -[Nat.mul]. lia.
  - injection E as <-. case_decide; cbn -[Nat.mul]; lia.
  - destruct who as [w|]; case_decide as Hd; try done; injection E as <-; cbn -[Nat.mul].
    + rewrite length_insert. pose proof (sum_insert (worker_cost (jobs p)) _ _ _ WCheck Hd). cbn in *. lia.
    + lia.
  - injection E as <-. cbn -[Nat.mul]. rewrite length_fmap.
    assert (sum_list_with (worker_cost (jobs p)) (wake <$> workers p) ≤
            sum_list_with (worker_cost (jobs p)) (workers p) + length (workers p)); [|lia].
    induction (workers p) as [|[] ws IH]; cbn; lia.
  - destruct (workers p !! w) as [[]|] eqn:Hw; try done; injection E as <-; cbn.
    + apply lookup_lt_Some in Hw. lia.
    + lia.
Qed.

(** The tasks: an invariant under which their steps are defined. *)
Context (safe : tasks T X → Prop).
Context (safe_step : ∀ k j, safe j → ∃ j', run_task tstep tdone k j = Some j' ∧ safe j').

Lemma safe_run es p p' : safe (jobs p) → pool_run tstep tdone es p = Some p' → safe (jobs p').
Proof.
  intros Hs [sched E]%pool_schedule.
  destruct (run_sched_inv tstep tdone safe sched (jobs p)) as (j & E' & Hj); [done..|congruence].
Qed.

Lemma awake_step p w pc :
  pool_inv tdone p → safe (jobs p) → workers p !! w = Some pc → awake pc →
  is_Some (worker_step tstep tdone w p).
Proof.
  intros Hi Hs Hw [Hns Hne]. unfold worker_step. rewrite Hw. cbn. destruct pc as [| |k|k|]; try done.
  - by destruct (queue p).
  - destruct (lookup_lt_is_Some_2 (code (jobs p)) k) as [t Ht].
    { apply (pl_known _ _ Hi), elem_of_app. right. unfold in_flight. apply elem_of_app. right.
      apply list_elem_of_bind. exists (WRun k). split; [by left|by eapply list_elem_of_lookup_2]. }
    rewrite Ht. cbn. destruct (tdone t); [by eexists|].
    destruct (safe_step k _ Hs) as (j & -> & _). by eexists.
Qed.

(** A task in flight is in the hands of a worker that is awake, or will be
    taken by one. *)
Lemma in_flight_awake p :
  pool_inv tdone p → in_flight p ≠ [] → (∀ prog, owner p ≠ ONotify prog) →
  ∃ w pc, workers p !! w = Some pc ∧ awake pc.
Proof.
  intros Hi Hfl Ho. destruct (queue p) as [|k q] eqn:Hq.
  - unfold in_flight in Hfl. rewrite Hq in Hfl. cbn in Hfl.
    destruct (mbind busy (workers p)) as [|k l] eqn:Hb; [done|].
    assert (k ∈ mbind busy (workers p)) as Hk by (rewrite Hb; by left).
    apply list_elem_of_bind in Hk as (pc & Hk & [w Hw]%list_elem_of_lookup).
    exists w, pc. split; [done|]. split; intros ->; by apply elem_of_nil in Hk.
  - destruct (pl_awake _ _ Hi) as [|[prog Hp]]; [by rewrite Hq|done|by destruct (Ho prog)].
Qed.

(** A wake-up without a notification. *)
Definition spurious (e : pool_event) : bool :=
  match e with EWorker _ | EOwner _ | EDestroy => false | ESpurious _ | ESpuriousOwner => true end.

Definition count_spurious (es : list pool_event) : nat := length (filter (λ e, spurious e = true) es).

(** Those of a call in progress. *)
Definition working (e : pool_event) : Prop :=
  match e with EWorker _ | EOwner _ => True | _ => False end.

(** Whoever waits is not forgotten. *)
Lemma pool_enabled p :
  pool_inv tdone p → safe (jobs p) → owner p ≠ OReady [] → owner p ≠ OGone →
  ∃ e, working e ∧ is_Some (pool_step tstep tdone e p).
Proof.
  intros Hi Hs Hne Hng.
  assert ((∃ w pc, workers p !! w = Some pc ∧ awake pc) →
    ∃ e, working e ∧ is_Some (pool_step tstep tdone e p)) as Haw.
  { intros (w & pc & Hw & Hpc). exists (EWorker w). split; [done|]. by eapply awake_step. }
  destruct (owner p) as [[|c prog]|prog|prog| |w|] eqn:Ho; try done.
  - exists (EOwner None). split; [done|]. cbn. unfold owner_step. rewrite Ho. destruct c; by eexists.
  - destruct (decide (WSleep ∈ workers p)) as [Hin|Hin].
    + pose proof Hin as [w Hw]%list_elem_of_lookup. exists (EOwner (Some w)). split; [done|].
      cbn. unfold owner_step. rewrite Ho, decide_True by done. by eexists.
    + exists (EOwner None). split; [done|]. cbn. unfold owner_step. rewrite Ho, decide_False by done. by eexists.
  - apply Haw, in_flight_awake; [done| |by rewrite Ho]. intros Hfl.
    pose proof (pl_asleep _ _ Hi _ Ho) as Hact. rewrite (pl_active _ _ Hi), Hfl in Hact. cbn in Hact. lia.
  - exists (EOwner None). split; [done|]. cbn. unfold owner_step. rewrite Ho. by eexists.
  - destruct (workers p !! w) as [pc|] eqn:Hw.
    + destruct (decide (pc = WExit)) as [->|Hx].
      * exists (EOwner None). split; [done|]. cbn. unfold owner_step. rewrite Ho, Hw. by eexists.
      * apply Haw. exists w, pc. split; [done|]. split; [|done]. intros ->.
        by apply (pl_joining _ _ Hi w w Ho).
    + exists (EOwner None). split; [done|]. cbn. unfold owner_step. rewrite Ho, Hw. by eexists.
Qed.

(** Every step lowers the measure, but a spurious wake-up raises it by one. *)
Lemma step_measure e p p' :
  pool_inv tdone p → pool_step tstep tdone e p = Some p' →
  if spurious e then pool_measure p' = S (pool_measure p) else pool_measure p' < pool_measure p.
Proof.
  intros Hi E. destruct e as [w|who| |w|]; cbn in E |- *; try done.
  - by eapply worker_measure.
  - by eapply owner_measure.
  - unfold destroy in E. destruct (owner p) as [[]| | | | |] eqn:Ho; try done. injection E as <-.
    unfold pool_measure. rewrite Ho. cbn -[Nat.mul]. lia.
  - case_decide as Hw; [|done]. injection E as <-. unfold pool_measure. cbn. rewrite length_insert.
    pose proof (sum_insert (worker_cost (jobs p)) _ _ _ WCheck Hw). cbn in *. lia.
  - destruct (owner p) as [| |prog| | |] eqn:Ho; try done. injection E as <-.
    unfold pool_measure. rewrite Ho. cbn -[Nat.mul]. lia.
Qed.

Lemma working_not_stopping e p p' :
  working e → pool_step tstep tdone e p = Some p' → ¬ stopping (owner p) → ¬ stopping (owner p').
Proof.
  intros He E Hns. destruct e as [w|who| |w|]; cbn in E; try done.
  - unfold worker_step in E. apply bind_Some in E as (pc & _ & E). destruct pc as [| |k|k|]; try done.
    + destruct (queue p); by simplify_eq/=.
    + apply bind_Some in E as (t & _ & E). destruct (tdone t); [by simplify_eq/=|].
      by apply bind_Some in E as (j & _ & [= <-]).
    + simplify_eq/=. case_decide; cbn; [|done]. by destruct (owner p).
  - unfold owner_step in E. destruct (owner p) as [[|[k|] prog]|prog|prog| |w|]; try done; simplify_eq/=; try done.
    + by case_decide.
    + destruct who; case_decide; simplify_eq/=; done.
Qed.

(** A call in progress can be brought to its end. *)
Lemma pool_completes p :
  pool_inv tdone p → safe (jobs p) → ¬ stopping (owner p) →
  ∃ es p', Forall working es ∧ pool_run tstep tdone es p = Some p' ∧ owner p' = OReady [].
Proof.
  induction p as [p IH] using (induction_ltof1 _ pool_measure). intros Hi Hs Hns.
  assert (owner p = OReady [] ∨ owner p ≠ OReady []) as [Ho|Ho].
  { destruct (owner p) as [[]| | | | |]; auto. }
  - exists [], p. by repeat constructor.
  - destruct (pool_enabled p Hi Hs Ho) as (e & He & p1 & E); [by intros E; rewrite E in Hns; destruct Hns|].
    destruct (IH p1) as (es & p' & Hes & E' & Ho').
    + unfold ltof. pose proof (step_measure _ _ _ Hi E). by destruct e.
    + by eapply pool_inv_step.
    + apply (safe_run [e] p); [done|]. cbn. by rewrite E.
    + by eapply working_not_stopping.
    + exists (e :: es), p'. split; [by constructor|]. cbn. by rewrite E.
Qed.

(** C19: the pool terminates.  As long as calls of the owner remain, some
    thread can take a step that is not a spurious wake-up, so no notification is
    ever lost and nobody waits for ever; and from every state the number of steps
    of the threads is bounded by a measure of the work left plus the number of
    spurious wake-ups among them, each of which costs one look at the condition.
    So submit, wait_all and the destructor return unless wake-ups without a
    notification never cease. *)
Theorem pool_terminates prog p0 es p :
  idle_pool prog p0 → safe (jobs p0) → pool_run tstep tdone es p0 = Some p →
  (owner p ≠ OReady [] → owner p ≠ OGone → ∃ e, working e ∧ is_Some (pool_step tstep tdone e p)) ∧
  ∀ es' p', pool_run tstep tdone es' p = Some p' →
    length (filter (λ e, spurious e = false) es') ≤ pool_measure p + count_spurious es'.
Proof.
  intros Hid Hs E. pose proof (inv_run _ _ _ _ _ (idle_inv _ _ Hid) E) as Hi. split.
  - apply pool_enabled; [done|]. by eapply safe_run.
  - intros es' p'. clear E. revert p Hi. induction es' as [|e es' IH]; intros p Hi E; [cbn; lia|].
    cbn in E. apply bind_Some in E as (p1 & E1 & E). specialize (IH p1 (pool_inv_step _ _ _ _ _ Hi E1) E).
    pose proof (step_measure _ _ _ Hi E1). unfold count_spurious in *. rewrite !filter_cons.
    destruct (spurious e); repeat case_decide; try done; cbn; lia.
Qed.
End pool.

(** ** Witnesses

    Tasks that count down, on a pool of two workers. *)

Definition count_step (t x : nat) : option (nat * nat) :=
  match t with O => None | S t => Some (t, S x) end.
Definition count_done (t : nat) : bool := t =? 0.

Definition count_prog : list pool_call := [Submit 0; Submit 1; WaitAll].
Definition count_pool : ThreadPool nat nat := new_pool 2 count_prog (MkTasks [1; 2] 0).

(** Both workers fall asleep, are woken for one task each, and the owner sleeps
    in wait_all until the last task is counted. *)
Definition count_events : list pool_event :=
  [EWorker 0; EWorker 1; EOwner None; EOwner (Some 1); EOwner None; EOwner (Some 0); EOwner None;
   EWorker 1; EWorker 0; EWorker 1; EWorker 0; EWorker 1; EWorker 1; EWorker 1; EWorker 0; EWorker 0; EWorker 0].

Definition count_end : ThreadPool nat nat :=
  default count_pool (pool_run count_step count_done count_events count_pool).

Lemma count_idle : idle_pool count_done count_prog count_pool.
Proof.
  apply new_pool_idle; cbn.
  - repeat constructor; set_solver.
  - set_solver by lia.
  - intros [|[|k]]; [set_solver..|lia].
Qed.

Lemma pool_barrier_witness :
  owner count_end = OReady [WaitAll] ∧
  ∃ p', pool_step count_step count_done (EOwner None) count_end = Some p' ∧ owner p' = OReady [] ∧
    task_done count_done p' 0 ∧ task_done count_done p' 1.
Proof.
  split; [vm_compute; reflexivity|].
  destruct (pool_barrier count_step count_done count_prog count_pool count_events count_end
    count_idle ltac:(vm_compute; reflexivity)) as (_ & _ & _ & H & _).
  assert (∃ p', pool_step count_step count_done (EOwner None) count_end = Some p' ∧ owner p' = OReady [] ∧
    to_submit p' = []) as (p' & E & Ho & Hs) by (eexists; vm_compute; done).
  exists p'. split; [exact E|]. split; [exact Ho|].
  split; (eapply (H None p' []); [vm_compute; reflexivity|exact E|exact Ho| |rewrite Hs; apply not_elem_of_nil]).
  - by left.
  - right. by left.
Defined.

Lemma count_step_rem t x t' x' : count_done t = false → count_step t x = Some (t', x') → t' < t.
Proof. destruct t; cbn; [done|]. intros _ [= <- <-]. lia. Qed.

Lemma count_safe k (j : tasks nat nat) : True → ∃ j', run_task count_step count_done k j = Some j' ∧ True.
Proof.
  intros _. unfold run_task. destruct (code j !! k) as [[|t]|]; cbn; by eexists.
Qed.

Lemma pool_terminates_witness :
  (∃ e, working e ∧ is_Some (pool_step count_step count_done e count_end)) ∧
  (∀ es p', pool_run count_step count_done es count_end = Some p' →
    length (filter (λ e, spurious e = false) es) ≤ 10 + count_spurious es).
Proof.
  destruct (pool_terminates count_step count_done (λ t, t) count_step_rem (λ _, True) count_safe
    count_prog count_pool count_events count_end count_idle I ltac:(vm_compute; reflexivity)) as [H1 H2].
  change (pool_measure (λ t, t) count_end) with 10 in H2.
  split; [apply H1; vm_compute; discriminate|exact H2].
Defined.
