(* ===== verification/BatchDecryptor.v ===== *)
(** cpp/src/privacy/batch_decryptor.cpp: batch decryption on the persistent
    thread pool.  One task per chunk is submitted, then wait_all is called; the
    tasks are the chunks of decrypt_batch_tx. *)

From S2P Require Import Prelude CMemory Tasks Decryption DecryptionInv DecryptionProps.
From S2P Require Import ThreadPool ThreadPoolInv ThreadPoolProps.

(** The loop that submits the chunks; it stops at the first chunk that starts
    behind the end of the batch. *)
Fixpoint submit_chunks (num_threads batch_size : Z) (ts : list Z) : list (Z * Z) :=
  match ts with
  | [] => []
  | t :: ts =>
      let c := chunk num_threads batch_size t in
      if (batch_size <=? c.1)%Z then [] else c :: submit_chunks num_threads batch_size ts
  end.

Definition batch_chunks (hw batch_size : Z) : list (Z * Z) :=
  let nt := num_threads hw batch_size in submit_chunks nt batch_size (seqZ 0 nt).

Section batch.
Context (seal_open : bytes → bytes → bytes → option bytes).
Context (inputs pub_key priv_key outputs : ptr).

Abbreviation bstep := (chunk_step seal_open inputs pub_key priv_key outputs).

(** The pool when decrypt_batch starts: [ws] are its workers. *)
Definition batch_pool (hw : Z) (ws : list worker_pc) (batch_size : Z) (m : cmem)
  : ThreadPool chunk_task batch_state :=
  let cs := batch_chunks hw batch_size in
  MkPool ws [] 0 false (OReady ((Submit <$> seq 0 (length cs)) ++ [WaitAll]))
    (MkTasks (new_chunk <$> cs) (MkBatch m SO_SUCCESS)).

(** decrypt_batch: [es] is what the pool's threads and the caller do.  The
    result is the return value, the memory and the workers; [None] if [es] does
    not reach the return of wait_all. *)
Definition decrypt_batch (hw : Z) (ws : list worker_pc) (es : list pool_event) (batch_size : Z) (m : cmem)
  : option (Z * cmem * list worker_pc) :=
  if (batch_size =? 0)%Z then Some (SO_SUCCESS, m, ws)
  else
    p ← pool_run bstep chunk_done es (batch_pool hw ws batch_size m);
    match owner p with
    | OReady [] => Some (any_failure (shared (jobs p)), bmem (shared (jobs p)), workers p)
    | _ => None
    end.

(** Workers waiting for a batch. *)
Definition idle_workers (ws : list worker_pc) : Prop :=
  ws ≠ [] ∧ ∀ w pc, ws !! w = Some pc → pc = WCheck ∨ pc = WSleep.

(** ** Lemmas *)

Lemma submit_chunks_prefix nt n ts : submit_chunks nt n ts `prefix_of` chunk nt n <$> ts.
Proof.
  induction ts as [|t ts IH]; cbn; [done|]. case_match; [apply prefix_nil|].
  by apply prefix_cons.
Qed.

(** A chunk is submitted if it and those before it start within the batch. *)
Lemma submit_chunks_lookup nt n ts k c :
  (chunk nt n <$> ts) !! k = Some c →
  (∀ j c', j ≤ k → (chunk nt n <$> ts) !! j = Some c' → (c'.1 < n)%Z) →
  submit_chunks nt n ts !! k = Some c.
Proof.
  revert k. induction ts as [|t ts IH]; intros k Hk Hj; [done|]. cbn [submit_chunks].
  assert ((chunk nt n t).1 < n)%Z as H0 by exact (Hj 0 (chunk nt n t) (Nat.le_0_l _) eq_refl).
  destruct (Z.leb_spec n (chunk nt n t).1); [lia|]. destruct k as [|k]; [exact Hk|].
  apply IH; [exact Hk|]. intros j c' Hjk Hc'. apply (Hj (S j)); [lia|exact Hc'].
Qed.

Lemma lookup_batch_chunks hw n k c : batch_chunks hw n !! k = Some c → chunks hw n !! k = Some c.
Proof. intros H. eapply prefix_lookup_Some; [exact H|]. apply submit_chunks_prefix. Qed.

Context (seal_open_length : ∀ c pk sk msg, seal_open c pk sk = Some msg → length c = length msg + 48).
Context (pk sk : bytes) (cts : list bytes) (cptr pptr : list ptr).
Abbreviation n := (Z.of_nat (length cts)).

Definition batch_ranges (hw : Z) : list (nat * nat) :=
  (λ c, (Z.to_nat c.1, Z.to_nat c.2)) <$> batch_chunks hw n.

Lemma batch_ranges_ok hw : (0 ≤ hw)%Z → (0 < n < 2 ^ 63)%Z → ranges_ok cts (batch_ranges hw).
Proof.
  intros Hhw Hn. pose proof (ranges_ok_chunks cts hw Hhw Hn) as [He Hd Hc].
  assert (∀ k s e, batch_ranges hw !! k = Some (s, e) → ranges cts hw !! k = Some (s, e)) as Hsub.
  { intros k s e. unfold batch_ranges, ranges. rewrite !list_lookup_fmap, !fmap_Some.
    intros (c & Hk & E). exists c. split; [by apply lookup_batch_chunks|done]. }
  split.
  - intros k s e Hk. by eapply He, Hsub.
  - intros k k' s e s' e' i Hk Hk'. by apply Hd; apply Hsub.
  - intros i Hi. destruct (chunks_owner hw n Hhw Hn (Z.of_nat i)) as (k & s & e & Hk & Hse); [lia|].
    exists k, (Z.to_nat s), (Z.to_nat e). pose proof Hk as (Hkt & Hs & _)%lookup_chunks; [|done..].
    pose proof (chunk_size_range hw n Hhw Hn) as [Hcs _].
    split; [|nia]. unfold batch_ranges. rewrite list_lookup_fmap.
    unfold batch_chunks. rewrite (submit_chunks_lookup _ _ _ k (s, e)); [done|exact Hk|].
    intros j [s' e'] Hj Hj'. apply lookup_chunks in Hj' as (? & -> & _); [|done..]. cbn. nia.
Qed.

Lemma batch_pool_start hw ws m :
  jobs (batch_pool hw ws n m) = start_tasks (batch_ranges hw) m.
Proof. unfold start_tasks, batch_ranges, batch_pool. cbn. by rewrite <- list_fmap_compose. Qed.

Lemma submits_prog l : mbind submits ((Submit <$> l) ++ [WaitAll]) = l.
Proof.
  rewrite bind_app. cbn. rewrite app_nil_r. induction l as [|k l IH]; [done|].
  by rewrite fmap_cons, bind_cons, IH.
Qed.

Lemma batch_pool_idle hw ws m :
  idle_workers ws → idle_pool chunk_done ((Submit <$> seq 0 (length (batch_chunks hw n))) ++ [WaitAll])
    (batch_pool hw ws n m).
Proof.
  intros [Hw Hid]. split; try done; rewrite ?submits_prog; cbn.
  - apply NoDup_seq.
  - intros k Hk%elem_of_seq. rewrite length_fmap. lia.
  - intros k Hk. left. apply elem_of_seq. rewrite length_fmap in Hk. lia.
Qed.

Abbreviation typed := (heap_typed inputs pub_key priv_key outputs pk sk cts cptr pptr).
Abbreviation lay := (layout pub_key priv_key pk sk cts cptr pptr).
Abbreviation inv hw m := (par_inv seal_open inputs pub_key priv_key outputs pk sk cts cptr pptr (batch_ranges hw) m).

(** What a finished run leaves. *)
Lemma decrypt_batch_result hw ws es m ret m' ws' :
  (0 ≤ hw)%Z → (n < 2 ^ 63)%Z → lay → typed m → idle_workers ws →
  decrypt_batch hw ws es n m = Some (ret, m', ws') →
  ret = batch_ret seal_open pk sk cts ∧ idle_workers ws' ∧
  batch_done seal_open inputs pub_key priv_key outputs pk sk cts cptr pptr m m'.
Proof.
  intros Hhw Hn Hly Hm Hws E. unfold decrypt_batch in E. destruct (Z.eqb_spec n 0) as [H0|H0].
  - injection E as <- <- <-. destruct cts; [|done]. split_and!; [done..|]. by split.
  - apply bind_Some in E as (p & E & Er). destruct (owner p) as [[]| | | | |] eqn:Ho; try done.
    injection Er as <- <- <-. assert (0 < n < 2 ^ 63)%Z as Hn' by lia.
    pose proof (batch_pool_idle hw ws m Hws) as Hid.
    pose proof (inv_run _ _ _ _ _ (idle_inv _ _ _ Hid) E) as Hp.
    destruct (pool_schedule _ _ _ _ _ E) as [sched Hs]. rewrite batch_pool_start in Hs.
    destruct (run_sched_inv bstep chunk_done (inv hw m) sched (start_tasks (batch_ranges hw) m))
      as (j & Hj & Hi).
    + intros k st Hi. apply par_step; try done. by apply batch_ranges_ok.
    + by apply par_inv_start.
    + rewrite Hs in Hj. injection Hj as <-.
      destruct (waited_end _ _ _ _ _ _ Hid ltac:(apply last_snoc) E Ho) as [Hdone Hend].
      destruct (par_inv_done _ _ _ _ _ _ _ _ _ _ _ (batch_ranges_ok hw Hhw Hn') _ _ Hi) as [Hd ->].
      { apply all_done_spec. intros k t Hk. destruct (Hdone k) as (t' & Ht' & Hdt); [by eapply lookup_lt_Some|].
        by simplify_eq. }
      split_and!; [done|split; [apply (id_workers _ _ _ Hend)|apply (id_idle _ _ _ Hend)]|done].
Qed.

(** Every partial run can be brought to its end. *)
Lemma decrypt_batch_completes hw ws es m p :
  (0 ≤ hw)%Z → (0 < n < 2 ^ 63)%Z → lay → typed m → idle_workers ws →
  pool_run bstep chunk_done es (batch_pool hw ws n m) = Some p → ¬ stopping (owner p) →
  ∃ es', Forall working es' ∧ is_Some (decrypt_batch hw ws (es ++ es') n m).
Proof.
  intros Hhw Hn Hly Hm Hws E Hns. pose proof (batch_pool_idle hw ws m Hws) as Hid.
  destruct (pool_completes bstep chunk_done chunk_rem
    ltac:(intros ????; apply chunk_step_rem) (inv hw m)) with (p := p) as (es' & p' & Hes & E' & Ho).
  - intros k st Hi. apply par_step; try done. by apply batch_ranges_ok.
  - by eapply inv_run; [eapply idle_inv|].
  - eapply (safe_run bstep chunk_done (inv hw m)); [| |exact E].
    + intros k st Hi. apply par_step; try done. by apply batch_ranges_ok.
    + rewrite batch_pool_start. by apply par_inv_start.
  - done.
  - exists es'. split; [done|]. unfold decrypt_batch. destruct (Z.eqb_spec n 0); [lia|].
    rewrite pool_run_app, E. cbn. rewrite E'. cbn. rewrite Ho. by eexists.
Qed.

(** C20: the thread pool decrypts like the threads.  For every pool of idle
    workers, however its threads, the caller, notifications and spurious wake-ups
    interleave, a run of BatchDecryptor::decrypt_batch ends with the return value
    and the memory that decrypt_batch_tx leaves, and with idle workers, ready for
    the next batch; and as long as the pool is not destroyed, every run can be
    completed without a spurious wake-up. *)
Theorem batch_decryptor_equiv hw ws m :
  (0 ≤ hw)%Z → (0 < n < 2 ^ 63)%Z → lay → typed m → idle_workers ws →
  (∀ es ret m' ws', decrypt_batch hw ws es n m = Some (ret, m', ws') →
     decrypt_batch_tx seal_open inputs pub_key priv_key outputs 1 (replicate (6 * length cts + 1) 0) n m
       = Returned (ret, m') ∧ idle_workers ws') ∧
  ∀ es p, pool_run bstep chunk_done es (batch_pool hw ws n m) = Some p → ¬ stopping (owner p) →
    ∃ es', Forall working es' ∧ is_Some (decrypt_batch hw ws (es ++ es') n m).
Proof.
  intros Hhw Hn Hly Hm Hws. split; [|intros es p; by apply decrypt_batch_completes].
  intros es ret m' ws' E.
  destruct (decrypt_batch_result _ _ _ _ _ _ _ Hhw ltac:(lia) Hly Hm Hws E) as (-> & Hws' & Hd).
  split; [|done].
  destruct (decrypt_batch_sequential seal_open seal_open_length inputs pub_key priv_key outputs pk sk cts cptr pptr m)
    as (m1 & E1 & Hd1); try done; [lia|].
  rewrite E1. do 2 f_equal. by eapply batch_done_unique.
Qed.
End batch.

(** ** Witnesses *)

(** Ten items on eight threads make five chunks: the loop stops at the sixth. *)
Example guard_triggers :
  batch_chunks 8 10 = [(0, 2); (2, 4); (4, 6); (6, 8); (8, 10)]%Z ∧ length (chunks 8 10) = 8.
Proof. by split; vm_compute. Qed.

Definition batch_code (r : call_result (Z * cmem)) : option Z :=
  match r with Returned (ret, _) => Some ret | _ => None end.

Lemma batch_decryptor_equiv_witness :
  ∃ es m' ws', decrypt_batch toy_open 1 3 4 2 2 [WCheck; WSleep] es 3 sample_mem
      = Some (SO_ERR_BAD_CIPHER, m', ws') ∧
    decrypt_batch_tx toy_open 1 3 4 2 1 (replicate 19 0) 3 sample_mem = Returned (SO_ERR_BAD_CIPHER, m').
Proof.
  assert (idle_workers [WCheck; WSleep]) as Hw.
  { split; [done|]. intros [|[|w]] pc; cbn; intros; simplify_eq; auto. }
  destruct (batch_decryptor_equiv toy_open 1 3 4 2 toy_open_length sample_pk sample_sk sample_cts
    [5; 6; 7] [8; 9; 10] 2 [WCheck; WSleep] sample_mem) as [H1 H2];
    [done|done|apply sample_layout|apply sample_typed|exact Hw|].
  destruct (H2 [] (batch_pool 2 [WCheck; WSleep] 3 sample_mem) eq_refl (λ H, H)) as (es & _ & [[[ret m'] ws'] E]).
  destruct (H1 _ _ _ _ E) as [E1 _].
  assert (batch_code (decrypt_batch_tx toy_open 1 3 4 2 1 (replicate 19 0) 3 sample_mem)
    = Some SO_ERR_BAD_CIPHER) as Hc by (vm_compute; reflexivity).
  assert (ret = SO_ERR_BAD_CIPHER) as ->.
  { change (6 * length sample_cts + 1) with 19 in E1. change (Z.of_nat (length sample_cts)) with 3%Z in E1.
    rewrite E1 in Hc. by injection Hc. }
  exists es, m', ws'. split; [exact E|exact E1].
Defined.
