(* ===== verification/Privacy.v ===== *)
(** pkg/privacy/privacy_cgo.go: the Go side of the privacy layer, across cgo.

    Inputs are copied to C memory, the C++ functions run on the copies, and
    results are copied back.  Each function returns the C memory it leaves, so
    a buffer that is not freed stays visible.  [Undefined] stands for undefined
    behaviour in C and for a run-time panic in Go. *)

From S2P Require Import Prelude GoStrings Keys CMemory Tasks Decryption.

Definition SealBytes : nat := 48.

Inductive privacy_error :=
| ErrInit
| ErrGenerateKeys (code : Z)
| ErrEmptyPlaintext
| ErrPublicKeyLength
| ErrSecretKeyLength
| ErrSeal (code : Z)
| ErrTooShort
| ErrDecryptSingle (ret status : Z)
| ErrAllocate
| ErrItemTooShort (i : nat)
| ErrAllocateItem (i : nat)
| ErrDecryptBatch (indexes : bytes).

(** [ret] is the result of sodium_init(). *)
Definition Init (ret : Z) : option privacy_error :=
  if decide (init_privacy_layer ret ≠ 0%Z) then Some ErrInit else None.

(** A Go slice whose address is passed to C is a block while the call runs. *)
Definition pin (bs : bytes) : cmem → ptr * cmem := C_CBytes bs.

(** [init] and [pair] are what libsodium answers. *)
Definition GenerateSequencerKeys (init : Z) (pair : Z * (bytes * bytes)) (m : cmem)
  : option (res privacy_error (bytes * bytes) * cmem) :=
  let '(pub, m1) := pin (replicate (Z.to_nat PublicKeyBytes) x00) m in
  let '(sec, m2) := pin (replicate (Z.to_nat SecretKeyBytes) x00) m1 in
  '(ret, m3) ← generate_sequencer_keys init pair pub sec m2;
  if decide (ret ≠ 0%Z) then Some (Err (ErrGenerateKeys ret), m)
  else
    p ← read_bytes m3 pub (Z.to_nat PublicKeyBytes);
    s ← read_bytes m3 sec (Z.to_nat SecretKeyBytes);
    Some (Ok (p, s), m).

Section privacy.
Context (seal : bytes → bytes → option bytes).
Context (seal_open : bytes → bytes → bytes → option bytes).

Definition SealTransaction (plaintext sequencerPubKey : bytes) (m : cmem)
  : option (res privacy_error bytes * cmem) :=
  if decide (length plaintext = 0) then Some (Err ErrEmptyPlaintext, m)
  else if decide (Z.of_nat (length sequencerPubKey) ≠ PublicKeyBytes) then Some (Err ErrPublicKeyLength, m)
  else
    let '(p, m1) := pin plaintext m in
    let '(k, m2) := pin sequencerPubKey m1 in
    let '(c, m3) := pin (replicate (length plaintext + SealBytes) x00) m2 in
    '(ret, m4) ← seal_transaction seal p (length plaintext) k c m3;
    if decide (ret ≠ 0%Z) then Some (Err (ErrSeal ret), m)
    else ciphertext ← read_bytes m4 c (length plaintext + SealBytes); Some (Ok ciphertext, m).

(** The deferred calls run in reverse order. *)
Definition DecryptSingle (ciphertext pubKey secKey : bytes) (m : cmem)
  : option (res privacy_error bytes * cmem) :=
  if decide (length ciphertext ≤ SealBytes) then Some (Err ErrTooShort, m)
  else if decide (Z.of_nat (length pubKey) ≠ PublicKeyBytes) then Some (Err ErrPublicKeyLength, m)
  else if decide (Z.of_nat (length secKey) ≠ SecretKeyBytes) then Some (Err ErrSecretKeyLength, m)
  else
    let '(cCiphertext, m) := C_CBytes ciphertext m in
    let '(cPubKey, m) := C_CBytes pubKey m in
    let '(cSecKey, m) := C_CBytes secKey m in
    let plaintextLen := length ciphertext - SealBytes in
    let '(cPlaintext, m) := malloc_bytes plaintextLen m in
    let enc := MkEnc cCiphertext (Z.of_nat (length ciphertext)) in
    '(ret, dec, m) ← decrypt_single_tx seal_open enc cPubKey cSecKey (MkDec cPlaintext 0 0 0) m;
    r ← (if decide (ret ≠ 0%Z ∨ dec_status dec ≠ 0%Z)
         then Some (Err (ErrDecryptSingle ret (dec_status dec)))
         else Ok <$> C_GoBytes m cPlaintext (int32 (dec_length dec)));
    m ← C_free_all [cPlaintext; cSecKey; cPubKey; cCiphertext] m;
    Some (r, m).

(** ** DecryptBatch *)

(** The loop that copies the ciphertexts; [cb] and [pb] are cipherBuffers and
    plainBuffers so far.  An error ends the function. *)
Fixpoint fill (encMem decMem : ptr) (i : nat) (cts : list bytes) (cb pb : list ptr) (m : cmem)
  : option (option privacy_error * list ptr * list ptr * cmem) :=
  match cts with
  | [] => Some (None, cb, pb, m)
  | ct :: cts =>
      if decide (length ct < SealBytes) then Some (Some (ErrItemTooShort i), cb, pb, m)
      else
        let ptLen := length ct - SealBytes in
        let ptLen := if decide (ptLen = 0) then 1 else ptLen in
        let '(c, m) := C_CBytes ct m in
        if decide (c = NULL) then Some (Some (ErrAllocateItem i), cb, pb, m)
        else
          let '(p, m) := malloc_bytes ptLen m in
          if decide (p = NULL) then Some (Some (ErrAllocateItem i), cb ++ [c], pb, m)
          else
            m ← write_enc encMem i (MkEnc c (Z.of_nat (length ct))) m;
            m ← write_dec decMem i (MkDec p 0 0 0) m;
            fill encMem decMem (S i) cts (cb ++ [c]) (pb ++ [p]) m
  end.

(** The loop that copies the results: [out] and [errIdx]. *)
Fixpoint collect_results (decMem : ptr) (m : cmem) (idx : list nat) : option (list bytes * list bytes) :=
  match idx with
  | [] => Some ([], [])
  | i :: idx =>
      d ← read_dec m decMem i;
      if decide (dec_status d ≠ 0%Z) then
        '(out, errIdx) ← collect_results decMem m idx;
        Some ([] :: out, fmt_d (Z.of_nat i) :: errIdx)
      else
        bs ← C_GoBytes m (dec_plaintext d) (int32 (dec_length d));
        '(out, errIdx) ← collect_results decMem m idx;
        Some (bs :: out, errIdx)
  end.

(** Returning, and going on with what undefined behaviour would end. *)
Definition returning {A} (r : option A) : call_result A :=
  match r with Some a => Returned a | None => Undefined end.

Definition DecryptBatch (hw : Z) (sched : list nat) (ciphertexts : list bytes) (pubKey secKey : bytes)
    (m : cmem) : call_result (res privacy_error (list bytes) * cmem) :=
  if decide (Z.of_nat (length pubKey) ≠ PublicKeyBytes) then Returned (Err ErrPublicKeyLength, m)
  else if decide (Z.of_nat (length secKey) ≠ SecretKeyBytes) then Returned (Err ErrSecretKeyLength, m)
  else
    let n := length ciphertexts in
    if decide (n = 0) then Returned (Ok [], m)
    else
      let '(encMem, m) := C_malloc (EncArray (replicate n None)) m in
      if decide (encMem = NULL) then Returned (Err ErrAllocate, m)
      else
        let '(decMem, m) := C_malloc (DecArray (replicate n None)) m in
        if decide (decMem = NULL) then
          returning (m ← C_free encMem m; Some (Err ErrAllocate, m))
        else
          match fill encMem decMem 0 ciphertexts [] [] m with
          | None => Undefined
          | Some (Some err, _, _, m) =>
              (* the cleanup of the buffers is not deferred yet *)
              returning (m ← C_free_all [decMem; encMem] m; Some (Err err, m))
          | Some (None, cipherBuffers, plainBuffers, m) =>
              let '(cPubKey, m) := C_CBytes pubKey m in
              let '(cSecKey, m) := C_CBytes secKey m in
              match decrypt_batch_tx seal_open encMem cPubKey cSecKey decMem hw sched (Z.of_nat n) m with
              | Undefined => Undefined
              | Waiting => Waiting
              | Returned (ret, m) =>
                  returning
                    ('(out, errIdx) ← collect_results decMem m (seq 0 n);
                     m ← C_free_all ([cSecKey; cPubKey] ++ cipherBuffers ++ plainBuffers ++
                                     [decMem; encMem]) m;
                     Some (if decide (ret ≠ 0%Z ∨ errIdx ≠ [])
                           then Err (ErrDecryptBatch (Join errIdx (str ","))) else Ok out, m))
              end
          end.
End privacy.
