(* ===== verification/PrivacyInv.v ===== *)
(** Lemmas on the memory of DecryptBatch: allocation, the copying loop, the
    collection of the results, and the release of every buffer. *)

From S2P Require Import Prelude GoStrings CMemory Tasks Decryption DecryptionInv DecryptionProps Privacy.

(** ** Allocating and freeing *)

Lemma C_malloc_spec b m p m' :
  C_malloc b m = (p, m') → p ≠ NULL ∧ m !! p = None ∧ m' = <[p := b]> m.
Proof. intros [= <- <-]. by destruct (fresh_block_spec m). Qed.

Lemma C_free_all_spec ps m :
  NoDup ps → (∀ p, p ∈ ps → p ≠ NULL ∧ is_Some (m !! p)) →
  ∃ m', C_free_all ps m = Some m' ∧ ∀ q, m' !! q = if decide (q ∈ ps) then None else m !! q.
Proof.
  revert m. induction ps as [|p ps IH]; intros m Hnd Hlive; cbn [C_free_all].
  - exists m. split; [done|]. intros q. by rewrite decide_False by apply not_elem_of_nil.
  - apply NoDup_cons in Hnd as [Hp Hnd]. destruct (Hlive p) as [Hnn [b Hb]]; [by left|].
    rewrite (C_free_live _ _ _ Hnn Hb). cbn.
    destruct (IH (delete p m)) as (m' & E & Hm'); [done| |].
    + intros q Hq. destruct (Hlive q) as [Hqn Hqb]; [by right|]. split; [done|].
      rewrite lookup_delete_ne; [done|]. by intros ->.
    + exists m'. split; [done|]. intros q. rewrite Hm'. destruct (decide (q = p)) as [->|Hne].
      * rewrite decide_False by done. rewrite decide_True by (by left). apply lookup_delete_eq.
      * rewrite lookup_delete_ne by done.
        destruct (decide (q ∈ ps)); [rewrite decide_True by (by right)|rewrite decide_False]; try done.
        by intros [->|?]%elem_of_cons.
Qed.

(** Freeing what was allocated since [m0] gives [m0] back. *)
Lemma C_free_all_restores ps m0 m :
  NoDup ps → (∀ p, p ∈ ps → p ≠ NULL ∧ m0 !! p = None ∧ is_Some (m !! p)) →
  (∀ p, p ∉ ps → m !! p = m0 !! p) → C_free_all ps m = Some m0.
Proof.
  intros Hnd Hps Hold. destruct (C_free_all_spec ps m Hnd) as (m' & E & Hm').
  { intros p Hp. by destruct (Hps p Hp) as (? & _ & ?). }
  rewrite E. f_equal. apply map_eq. intros q. rewrite Hm'. case_decide as Hq; [|by apply Hold].
  by destruct (Hps q Hq) as (_ & -> & _).
Qed.

(** ** The copying loop *)

(** The memory when the items [dn] of [n] have been copied; [m0] is the memory
    before the call. *)
Record filled (m0 m : cmem) (enc dec : ptr) (dn : list bytes) (n : nat) (cb pb : list ptr) : Prop := {
  fl_cb : length cb = length dn;
  fl_pb : length pb = length dn;
  fl_enc : m !! enc = Some (EncArray (zip_with (λ p ct, Some (MkEnc p (Z.of_nat (length ct)))) cb dn
                                       ++ replicate (n - length dn) None));
  fl_dec : m !! dec = Some (DecArray (((λ p, Some (MkDec p 0 0 0)) <$> pb) ++ replicate (n - length dn) None));
  fl_cipher : ∀ i p ct, cb !! i = Some p → dn !! i = Some ct → m !! p = Some (Bytes (Some <$> ct));
  fl_plain : ∀ i p ct, pb !! i = Some p → dn !! i = Some ct →
    ∃ k, m !! p = Some (Bytes (replicate k None)) ∧ length ct ≤ k + 48;
  fl_nodup : NoDup (cb ++ pb ++ [dec; enc]);
  fl_new : ∀ p, p ∈ cb ++ pb ++ [dec; enc] → p ≠ NULL ∧ m0 !! p = None ∧ is_Some (m !! p);
  fl_old : ∀ p, p ∉ cb ++ pb ++ [dec; enc] → m !! p = m0 !! p
}.

(** The start: two arrays of uninitialised structs. *)
Lemma filled_start m0 n enc m1 dec m2 :
  C_malloc (EncArray (replicate n None)) m0 = (enc, m1) →
  C_malloc (DecArray (replicate n None)) m1 = (dec, m2) → filled m0 m2 enc dec [] n [] [].
Proof.
  intros (He & Hem & ->)%C_malloc_spec (Hd & Hdm & ->)%C_malloc_spec.
  assert (dec ≠ enc) as Hne by (intros ->; by rewrite lookup_insert_eq in Hdm).
  rewrite lookup_insert_ne in Hdm by done.
  split; try done; cbn; rewrite ?Nat.sub_0_r.
  - by rewrite lookup_insert_ne, lookup_insert_eq by done.
  - by rewrite lookup_insert_eq.
  - apply NoDup_cons. split; [by intros ->%list_elem_of_singleton|]. apply NoDup_singleton.
  - intros p Hp. rewrite !elem_of_cons in Hp. destruct Hp as [->|[->|Hp%elem_of_nil]]; [..|done].
    + by rewrite lookup_insert_eq.
    + by rewrite lookup_insert_ne, lookup_insert_eq by done.
  - intros p Hp. rewrite !not_elem_of_cons in Hp. destruct Hp as (H1 & H2 & _).
    by rewrite !lookup_insert_ne by done.
Qed.

(** Writing entry [i] of an array whose first [i] entries are written. *)
Lemma insert_next {A} (l : list (option A)) k i x :
  length l = i → 0 < k → <[i := Some x]> (l ++ replicate k None) = (l ++ [Some x]) ++ replicate (k - 1) None.
Proof.
  intros <- Hk. destruct k as [|k]; [lia|]. cbn [replicate].
  rewrite insert_app_r_alt by lia. rewrite Nat.sub_diag. cbn. rewrite Nat.sub_0_r, <- app_assoc. done.
Qed.

Lemma write_enc_spec p i x m l :
  m !! p = Some (EncArray l) → i < length l →
  write_enc p i x m = Some (<[p := EncArray (<[i := Some x]> l)]> m).
Proof. intros H Hi. unfold write_enc. by rewrite H, decide_True. Qed.

Lemma write_dec_spec p i x m l :
  m !! p = Some (DecArray l) → i < length l →
  write_dec p i x m = Some (<[p := DecArray (<[i := Some x]> l)]> m).
Proof. intros H Hi. unfold write_dec. by rewrite H, decide_True. Qed.

(** One more item: its two buffers are new, and its structs are written. *)
Lemma filled_extend m0 m m' enc dec dn n cb pb ct c p k :
  filled m0 m enc dec dn n cb pb → length dn < n → length ct ≤ k + 48 →
  c ≠ NULL → p ≠ NULL → c ≠ p → m !! c = None → m !! p = None →
  m' !! c = Some (Bytes (Some <$> ct)) → m' !! p = Some (Bytes (replicate k None)) →
  (∀ l, m !! enc = Some (EncArray l) →
     m' !! enc = Some (EncArray (<[length dn := Some (MkEnc c (Z.of_nat (length ct)))]> l))) →
  (∀ l, m !! dec = Some (DecArray l) → m' !! dec = Some (DecArray (<[length dn := Some (MkDec p 0 0 0)]> l))) →
  (∀ q, q ∉ [c; p; enc; dec] → m' !! q = m !! q) →
  filled m0 m' enc dec (dn ++ [ct]) n (cb ++ [c]) (pb ++ [p]).
Proof.
  intros [Hcb Hpb He Hd Hci Hpl Hnd Hnew Hold] Hn Hk Hcn Hpn Hcp Hcm Hpm Hc' Hp' He' Hd' Hm'.
  assert (∀ q, q ∈ cb ++ pb ++ [dec; enc] → q ≠ c ∧ q ≠ p) as Hfresh.
  { intros q Hq. destruct (Hnew q Hq) as (_ & _ & [b Hb]). split; congruence. }
  assert (∀ q, q ∈ cb ++ pb → m' !! q = m !! q) as Hbuf.
  { intros q Hq. apply Hm'. rewrite !not_elem_of_cons.
    destruct (Hfresh q) as [? ?]; [set_solver|]. split_and!; [done..| | |apply not_elem_of_nil];
      intros ->; rewrite app_assoc in Hnd; apply NoDup_app in Hnd as (_ & Hnd & _);
      apply (Hnd _ Hq); set_solver. }
  assert ((cb ++ [c]) ++ (pb ++ [p]) ++ [dec; enc] ≡ₚ c :: p :: cb ++ pb ++ [dec; enc]) as Hperm
    by solve_Permutation.
  assert (m0 !! c = None ∧ m0 !! p = None) as [Hc0 Hp0].
  { split; rewrite <- Hold; try done; intros Hq; by destruct (Hfresh _ Hq). }
  split; rewrite ?length_app; cbn [length]; try lia.
  - rewrite (He' _ He), insert_next by (rewrite ?length_zip_with; lia).
    rewrite zip_with_app by done. by replace (n - (length dn + 1)) with (n - length dn - 1) by lia.
  - rewrite (Hd' _ Hd), insert_next by (rewrite ?length_fmap; lia). rewrite fmap_app.
    by replace (n - (length dn + 1)) with (n - length dn - 1) by lia.
  - intros i q ct' [Hq|[Hi Hq]]%lookup_app_Some Hct.
    + rewrite lookup_app_l in Hct by (rewrite <- Hcb; by eapply lookup_lt_Some).
      rewrite Hbuf; [by eapply Hci|]. apply elem_of_app. left. by eapply list_elem_of_lookup_2.
    + apply list_lookup_singleton_Some in Hq as [Hi0 ->].
      rewrite lookup_app_r in Hct by lia. replace (i - length dn) with 0 in Hct by lia. by simplify_eq/=.
  - intros i q ct' [Hq|[Hi Hq]]%lookup_app_Some Hct.
    + rewrite lookup_app_l in Hct by (rewrite <- Hpb; by eapply lookup_lt_Some).
      rewrite Hbuf; [by eapply Hpl|]. apply elem_of_app. right. by eapply list_elem_of_lookup_2.
    + apply list_lookup_singleton_Some in Hq as [Hi0 ->].
      rewrite lookup_app_r in Hct by lia. replace (i - length dn) with 0 in Hct by lia. simplify_eq/=. by exists k.
  - rewrite Hperm. apply NoDup_cons. split.
    + intros [->|Hq]%elem_of_cons; [done|]. by destruct (Hfresh _ Hq).
    + apply NoDup_cons. split; [|done]. intros Hq. by destruct (Hfresh _ Hq).
  - intros q. rewrite Hperm, !elem_of_cons. intros [->|[->|Hq]].
    + by rewrite Hc'.
    + by rewrite Hp'.
    + destruct (Hnew q Hq) as (? & ? & ?). split_and!; [done..|].
      rewrite app_assoc in Hq. apply elem_of_app in Hq as [Hq|Hq]; [by rewrite Hbuf|].
      rewrite !elem_of_cons in Hq. destruct Hq as [->|[->|Hq%elem_of_nil]]; [..|done].
      * by rewrite (Hd' _ Hd).
      * by rewrite (He' _ He).
  - intros q. rewrite Hperm, !not_elem_of_cons. intros (? & ? & Hq). rewrite <- Hold by done.
    apply Hm'. rewrite !not_elem_of_cons. rewrite !not_elem_of_app, !not_elem_of_cons in Hq. naive_solver.
Qed.

(** Copying one item. *)
Lemma filled_next m0 m enc dec dn n cb pb ct c m1 p m2 k :
  filled m0 m enc dec dn n cb pb → length dn < n → length ct ≤ k + 48 →
  C_CBytes ct m = (c, m1) → malloc_bytes k m1 = (p, m2) →
  c ≠ NULL ∧ p ≠ NULL ∧
  ∃ m3 m4, write_enc enc (length dn) (MkEnc c (Z.of_nat (length ct))) m2 = Some m3 ∧
    write_dec dec (length dn) (MkDec p 0 0 0) m3 = Some m4 ∧
    filled m0 m4 enc dec (dn ++ [ct]) n (cb ++ [c]) (pb ++ [p]).
Proof.
  intros Hf Hn Hk (Hcn & Hcm & ->)%C_malloc_spec (Hpn & Hpm & ->)%C_malloc_spec.
  split; [done|]. split; [done|].
  assert (p ≠ c) as Hpc by (intros ->; by rewrite lookup_insert_eq in Hpm).
  rewrite lookup_insert_ne in Hpm by done.
  pose proof (fl_enc _ _ _ _ _ _ _ _ Hf) as He. pose proof (fl_dec _ _ _ _ _ _ _ _ Hf) as Hd.
  pose proof (fl_cb _ _ _ _ _ _ _ _ Hf). pose proof (fl_pb _ _ _ _ _ _ _ _ Hf).
  assert (enc ≠ c ∧ enc ≠ p ∧ dec ≠ c ∧ dec ≠ p ∧ dec ≠ enc) as (? & ? & ? & ? & ?) by (split_and!; congruence).
  eexists _, _. split; [|split].
  - apply write_enc_spec; [by rewrite !lookup_insert_ne by done|].
    rewrite length_app, length_zip_with, length_replicate. lia.
  - apply write_dec_spec; [by rewrite !lookup_insert_ne by done|].
    rewrite length_app, length_fmap, length_replicate. lia.
  - eapply (filled_extend m0 m); [done..| | | | |].
    + by rewrite !lookup_insert_ne, lookup_insert_eq by done.
    + by rewrite !lookup_insert_ne, lookup_insert_eq by done.
    + intros l Hl. rewrite lookup_insert_ne, lookup_insert_eq by done. congruence.
    + intros l Hl. rewrite lookup_insert_eq. congruence.
    + intros q. rewrite !not_elem_of_cons. intros (? & ? & ? & ? & _). by rewrite !lookup_insert_ne by done.
Qed.

(** The loop copies the items up to the first that is too short. *)
Lemma fill_spec m0 enc dec n ok rest m dn cb pb :
  filled m0 m enc dec dn n cb pb → length dn + length ok + length rest = n →
  Forall (λ ct, SealBytes ≤ length ct) ok → (∀ ct r, rest = ct :: r → length ct < SealBytes) →
  ∃ cb' pb' m', fill enc dec (length dn) (ok ++ rest) cb pb m =
      Some (match rest with [] => None | _ => Some (ErrItemTooShort (length dn + length ok)) end, cb', pb', m') ∧
    filled m0 m' enc dec (dn ++ ok) n cb' pb'.
Proof.
  intros Hf Hn Hok Hrest. revert m dn cb pb Hf Hn. induction Hok as [|ct ok Hct _ IH]; intros m dn cb pb Hf Hn; cbn [app].
  - rewrite app_nil_r, Nat.add_0_r. destruct rest as [|ct r]; cbn [fill]; [by eauto|].
    rewrite decide_True by (by eapply Hrest). by eauto.
  - cbn [fill]. rewrite decide_False by lia. unfold SealBytes in *.
    set (k := if decide (length ct - 48 = 0) then 1 else length ct - 48).
    assert (length ct ≤ k + 48) as Hk by (unfold k; case_decide; lia).
    destruct (C_CBytes ct m) as [c m1] eqn:Ec. destruct (malloc_bytes k m1) as [p m2] eqn:Ep.
    destruct (filled_next _ _ _ _ _ _ _ _ _ _ _ _ _ _ Hf ltac:(cbn in Hn; lia) Hk Ec Ep)
      as (Hcn & Hpn & m3 & m4 & E3 & E4 & Hf').
    rewrite !decide_False by done. rewrite E3. cbn. rewrite E4. cbn.
    destruct (IH m4 (dn ++ [ct]) (cb ++ [c]) (pb ++ [p]) Hf') as (cb' & pb' & m' & E & Hf'').
    { rewrite length_app. cbn in *. lia. }
    rewrite length_app, Nat.add_1_r in E. exists cb', pb', m'. rewrite <- app_assoc in Hf''. split; [|done].
    rewrite E. do 4 f_equal. destruct rest; [done|]. do 2 f_equal. cbn. lia.
Qed.

(** ** The typed heap of the call *)

(** With the keys copied as well, the memory is one that decrypt_batch_tx may
    be called on. *)
Lemma filled_typed m0 m enc dec cts cb pb pk sk kp m1 ks m2 :
  filled m0 m enc dec cts (length cts) cb pb → length pk = 32 → length sk = 32 →
  C_CBytes pk m = (kp, m1) → C_CBytes sk m1 = (ks, m2) →
  layout kp ks pk sk cts cb pb ∧ heap_typed enc kp ks dec pk sk cts cb pb m2 ∧
  NoDup ([ks; kp] ++ cb ++ pb ++ [dec; enc]) ∧
  (∀ q, q ∈ [ks; kp] ++ cb ++ pb ++ [dec; enc] → q ≠ NULL ∧ m0 !! q = None ∧ is_Some (m2 !! q)) ∧
  (∀ q, q ∉ [ks; kp] ++ cb ++ pb ++ [dec; enc] → m2 !! q = m0 !! q) ∧
  (∀ q, q ∉ [ks; kp] → m2 !! q = m !! q).
Proof.
  intros [Hcb Hpb He Hd Hci Hpl Hnd Hnew Hold] Hpk Hsk (Hkn & Hkm & ->)%C_malloc_spec (Hsn & Hsm & ->)%C_malloc_spec.
  assert (ks ≠ kp) as Hne by (intros ->; by rewrite lookup_insert_eq in Hsm).
  rewrite lookup_insert_ne in Hsm by done.
  assert (∀ q, q ∈ cb ++ pb ++ [dec; enc] → q ≠ kp ∧ q ≠ ks) as Hfresh.
  { intros q Hq. destruct (Hnew q Hq) as (_ & _ & [b Hb]). split; congruence. }
  assert (∀ q, q ∉ [ks; kp] → <[ks := Bytes (Some <$> sk)]> (<[kp := Bytes (Some <$> pk)]> m) !! q = m !! q) as Hm2.
  { intros q. rewrite !not_elem_of_cons. intros (? & ? & _). by rewrite !lookup_insert_ne by done. }
  assert (∀ q, q ∈ cb ++ pb ++ [dec; enc] →
    <[ks := Bytes (Some <$> sk)]> (<[kp := Bytes (Some <$> pk)]> m) !! q = m !! q) as Hbuf.
  { intros q Hq. apply Hm2. destruct (Hfresh q Hq). rewrite !not_elem_of_cons. by repeat split; try apply not_elem_of_nil. }
  assert (m0 !! kp = None ∧ m0 !! ks = None) as [Hk0 Hs0].
  { split; rewrite <- Hold; try done; intros Hq; by destruct (Hfresh _ Hq). }
  rewrite Nat.sub_diag, !app_nil_r in *. split_and!; [| | | | |done].
  - split; try done.
    + rewrite app_assoc in Hnd. apply NoDup_app in Hnd as (Hnd & _). by apply NoDup_app in Hnd as (_ & _ & ?).
    + intros p Hp. destruct (Hfresh p) as [? ?]; [rewrite !elem_of_app; auto|]. split_and!; [done..|].
      intros Hc. apply NoDup_app in Hnd as (_ & Hnd & _). apply (Hnd _ Hc). rewrite elem_of_app. auto.
  - split.
    + rewrite Hbuf by (rewrite !elem_of_app, !elem_of_cons; auto). done.
    + exists ((λ p, MkDec p 0 0 0) <$> pb). rewrite Hbuf by (rewrite !elem_of_app, !elem_of_cons; auto).
      rewrite Hd, <- !list_fmap_compose. split; [done|]. apply list_fmap_id.
    + intros i p ct Hp Hct. rewrite Hbuf by (rewrite elem_of_app; left; by eapply list_elem_of_lookup_2).
      by eapply Hci.
    + intros i p ct Hp Hct.
      rewrite Hbuf by (rewrite !elem_of_app; right; left; by eapply list_elem_of_lookup_2).
      destruct (Hpl _ _ _ Hp Hct) as (k & Hk & ?). eexists. split; [exact Hk|]. by rewrite length_replicate.
    + by rewrite lookup_insert_ne, lookup_insert_eq by done.
    + by rewrite lookup_insert_eq.
  - cbn. apply NoDup_cons. split; [|apply NoDup_cons; split; [|done]].
    + intros [->|Hq]%elem_of_cons; [done|]. by destruct (Hfresh _ Hq).
    + intros Hq. by destruct (Hfresh _ Hq).
  - intros q [->|[->|Hq]%elem_of_cons]%elem_of_cons.
    + by rewrite lookup_insert_eq.
    + by rewrite lookup_insert_ne, lookup_insert_eq by done.
    + rewrite Hbuf by done. by apply Hnew.
  - intros q. cbn [app]. rewrite !not_elem_of_cons. intros (? & ? & Hq).
    rewrite !lookup_insert_ne by done. by apply Hold.
Qed.
