(* ===== verification/PrivacyProps.v ===== *)
(** What the Go side of the privacy layer promises: DecryptSingle and
    DecryptBatch return what libsodium makes of each ciphertext and leave the C
    memory as they found it, except on the path that leaks. *)

From S2P Require Import Prelude GoStrings Keys CMemory Tasks.
From S2P Require Import Decryption DecryptionInv DecryptionProps Privacy PrivacyInv.

(** ** The specification *)

Section spec.
Context (seal_open : bytes → bytes → bytes → option bytes) (pk sk : bytes).

(** The positions of the ciphertexts that do not open, counted from [i]. *)
Fixpoint failing (i : nat) (cts : list bytes) : list nat :=
  match cts with
  | [] => []
  | ct :: cts =>
      match item_out seal_open pk sk ct with
      | Some _ => failing (S i) cts
      | None => i :: failing (S i) cts
      end
  end.

Definition index_strings (l : list nat) : list bytes := (λ i, fmt_d (Z.of_nat i)) <$> l.

(** All messages, or the list of the positions that failed. *)
Definition batch_spec (cts : list bytes) : res privacy_error (list bytes) :=
  match failing 0 cts with
  | [] => Ok ((λ ct, default [] (item_out seal_open pk sk ct)) <$> cts)
  | l => Err (ErrDecryptBatch (Join (index_strings l) (str ",")))
  end.

Definition single_spec (ct : bytes) : res privacy_error bytes :=
  if decide (length ct ≤ 48) then Err ErrTooShort
  else match item_out seal_open pk sk ct with
       | Some msg => Ok msg
       | None => Err (ErrDecryptSingle SO_ERR_KEY_MISMATCH SO_ERR_KEY_MISMATCH)
       end.

Lemma failing_nil i cts : failing i cts = [] ↔ ∀ ct, ct ∈ cts → is_Some (item_out seal_open pk sk ct).
Proof.
  revert i. induction cts as [|ct cts IH]; intros i; cbn.
  - split; [by intros _ ct ?%elem_of_nil|done].
  - destruct (item_out seal_open pk sk ct) as [msg|] eqn:E.
    + rewrite IH. split.
      * intros H c [->|Hc]%elem_of_cons; [by rewrite E|by apply H].
      * intros H c Hc. apply H. by right.
    + split; [done|]. intros H. specialize (H ct ltac:(by left)). rewrite E in H. by destruct H.
Qed.

Lemma failing_elem i cts p :
  p ∈ failing i cts ↔ ∃ q ct, p = i + q ∧ cts !! q = Some ct ∧ item_out seal_open pk sk ct = None.
Proof.
  revert i. induction cts as [|ct cts IH]; intros i; cbn [failing].
  - split; [by intros ?%elem_of_nil|]. by intros (q & ct & _ & ? & _).
  - assert (p ∈ failing (S i) cts ↔ ∃ q c, p = i + q ∧ q ≠ 0 ∧ (ct :: cts) !! q = Some c ∧ item_out seal_open pk sk c = None) as H.
    { rewrite IH. split.
      - intros (q & c & -> & ? & ?). exists (S q), c. split_and!; [lia|done..].
      - intros ([|q] & c & -> & ? & ? & ?); [done|]. exists q, c. split_and!; [lia|done..]. }
    destruct (item_out seal_open pk sk ct) eqn:E; rewrite ?elem_of_cons, H; split.
    + intros (q & c & ? & _ & ? & ?). by exists q, c.
    + intros ([|q] & c & ? & Hq & ?); [cbn in Hq; congruence|]. by exists (S q), c.
    + intros [->|(q & c & ? & _ & ? & ?)]; [exists 0, ct; split_and!; [lia|done..]|]. by exists q, c.
    + intros ([|q] & c & ? & Hq & ?); [left; lia|]. right. by exists (S q), c.
Qed.

Lemma failing_sorted i cts : StronglySorted lt (failing i cts).
Proof.
  revert i. induction cts as [|ct cts IH]; intros i; cbn [failing]; [constructor|].
  destruct (item_out seal_open pk sk ct); [apply IH|]. constructor; [apply IH|].
  apply Forall_forall. intros p (q & ? & -> & _)%failing_elem. lia.
Qed.

Lemma batch_ret_spec cts : batch_ret seal_open pk sk cts = SO_SUCCESS ↔ failing 0 cts = [].
Proof.
  rewrite failing_nil. split; [|apply batch_ret_ok]. intros H ct Hct.
  destruct (item_out seal_open pk sk ct) eqn:E; [by eauto|].
  by rewrite (batch_ret_fails _ _ _ _ _ Hct E) in H.
Qed.
End spec.

Section privacy.
Context (seal_open : bytes → bytes → bytes → option bytes).
Context (seal_open_length : ∀ c pk sk msg, seal_open c pk sk = Some msg → length c = length msg + 48).

(** Go's [C.int] conversion and [C.GoBytes] are exact on these lengths. *)
Definition fits (ct : bytes) : Prop := (Z.of_nat (length ct) < 2 ^ 31 + 48)%Z.

(** ** Collecting the results *)

Lemma collect_item enc kp ks dec pk sk cts cb pb m m' i ct :
  layout kp ks pk sk cts cb pb → heap_typed enc kp ks dec pk sk cts cb pb m →
  batch_done seal_open enc kp ks dec pk sk cts cb pb m m' → cts !! i = Some ct → fits ct →
  ∃ d, read_dec m' dec i = Some d ∧
    match item_out seal_open pk sk ct with
    | Some msg => dec_status d = 0%Z ∧ C_GoBytes m' (dec_plaintext d) (int32 (dec_length d)) = Some msg
    | None => dec_status d ≠ 0%Z
    end.
Proof.
  intros Hly Hm Hd Hct Hfit.
  destruct (view_typed _ _ _ _ _ _ _ _ _ Hly _ _ _ Hm Hct) as (d & b & Hv & _ & Hb).
  pose proof (bd_items _ _ _ _ _ _ _ _ _ _ _ _ Hd _ _ _ Hct Hv) as Hv'.
  unfold final in Hv'. destruct (item_out seal_open pk sk ct) as [msg|] eqn:Ho;
    apply view_Some in Hv' as [Hrd Hblk]; eexists; (split; [exact Hrd|]); [|done].
  split; [done|]. unfold opened in Hblk. rewrite Ho in Hblk. cbn in *.
  apply (item_out_length _ seal_open_length) in Ho. unfold fits in Hfit.
  rewrite int32_small by lia. unfold C_GoBytes. destruct (Z.ltb_spec (Z.of_nat (length msg)) 0); [lia|].
  rewrite Nat2Z.id. by eapply read_bytes_front.
Qed.

Lemma collect_spec enc kp ks dec pk sk cts cb pb m m' pre suf :
  layout kp ks pk sk cts cb pb → heap_typed enc kp ks dec pk sk cts cb pb m →
  batch_done seal_open enc kp ks dec pk sk cts cb pb m m' → Forall fits cts → cts = pre ++ suf →
  collect_results dec m' (seq (length pre) (length suf)) =
    Some ((λ ct, default [] (item_out seal_open pk sk ct)) <$> suf,
          index_strings (failing seal_open pk sk (length pre) suf)).
Proof.
  intros Hly Hm Hd Hfit. revert pre. induction suf as [|ct suf IH]; intros pre Hcts; [done|].
  assert (cts !! length pre = Some ct) as Hct by (by rewrite Hcts, list_lookup_middle).
  specialize (IH (pre ++ [ct])). rewrite length_app, Nat.add_1_r in IH.
  specialize (IH ltac:(by rewrite Hcts, <- app_assoc)).
  destruct (collect_item _ _ _ _ _ _ _ _ _ _ _ _ _ Hly Hm Hd Hct) as (d & Hrd & Hout).
  { rewrite Forall_forall in Hfit. apply Hfit. by eapply list_elem_of_lookup_2. }
  cbn [seq length collect_results]. rewrite Hrd. cbn [mbind option_bind].
  destruct (item_out seal_open pk sk ct) as [msg|] eqn:Ho.
  - destruct Hout as [Hst Hgo]. rewrite decide_False by (by intros []). rewrite Hgo. cbn [mbind option_bind].
    rewrite IH. cbn. by rewrite Ho.
  - rewrite decide_True by done. rewrite IH. cbn. by rewrite Ho.
Qed.

(** The batch frees nothing. *)
Lemma batch_done_live enc kp ks dec pk sk cts cb pb m m' q :
  layout kp ks pk sk cts cb pb → batch_done seal_open enc kp ks dec pk sk cts cb pb m m' →
  is_Some (m !! q) → is_Some (m' !! q).
Proof.
  intros Hly [Ht' _ Hfr] Hq. destruct (decide (q = dec)) as [->|Hd].
  { destruct (ht_outputs _ _ _ _ _ _ _ _ _ _ Ht') as (ds & -> & _). by eexists. }
  destruct (decide (q ∈ pb)) as [[i Hi]%list_elem_of_lookup|Hp]; [|by rewrite Hfr].
  destruct (lookup_lt_is_Some_2 cts i) as [ct Hct].
  { rewrite <- (ly_pptr _ _ _ _ _ _ _ Hly). by eapply lookup_lt_Some. }
  destruct (ht_plain _ _ _ _ _ _ _ _ _ _ Ht' _ _ _ Hi Hct) as (b & -> & _). by eexists.
Qed.

Lemma DecryptBatch_result hw sched cts pk sk m :
  (0 ≤ hw)%Z → (Z.of_nat (length cts) < 2 ^ 63)%Z → length pk = 32 → length sk = 32 →
  Forall (λ ct, SealBytes ≤ length ct) cts → Forall fits cts →
  (∀ k, k < length (chunks hw (Z.of_nat (length cts))) → 6 * length cts + 1 ≤ turns k sched) →
  DecryptBatch seal_open hw sched cts pk sk m = Returned (batch_spec seal_open pk sk cts, m).
Proof.
  intros Hhw Hn Hpk Hsk Hlen Hfit Hturns. unfold DecryptBatch.
  rewrite Hpk, Hsk, !decide_False by (by intros []).
  case_decide as H0; [by destruct cts|].
  destruct (C_malloc _ m) as [enc m1] eqn:E1. pose proof (C_malloc_spec _ _ _ _ E1) as (He & _).
  destruct (C_malloc _ m1) as [dec m2] eqn:E2. pose proof (C_malloc_spec _ _ _ _ E2) as (Hd & _).
  rewrite !decide_False by done.
  destruct (fill_spec _ _ _ (length cts) cts [] _ [] _ _ (filled_start _ _ _ _ _ _ E1 E2)
    ltac:(cbn; lia) Hlen ltac:(done)) as (cb & pb & m3 & Ef & Hf).
  rewrite app_nil_r in Ef. cbn [length] in Ef. rewrite Ef. cbn [app] in Hf.
  destruct (C_CBytes pk m3) as [kp m4] eqn:E4. destruct (C_CBytes sk m4) as [ks m5] eqn:E5.
  destruct (filled_typed _ _ _ _ _ _ _ _ _ _ _ _ _ Hf Hpk Hsk E4 E5) as (Hly & Ht & Hnd & Hnew & Hold & _).
  destruct (decrypt_batch_returns seal_open seal_open_length enc kp ks dec pk sk cts cb pb hw sched m5)
    as (m6 & Eb & Hbd); try done.
  pose proof (collect_spec _ _ _ _ _ _ _ _ _ _ _ [] cts Hly Ht Hbd Hfit eq_refl) as Ec. cbn [length] in Ec.
  rewrite Eb, Ec. cbn [mbind option_bind].
  rewrite (C_free_all_restores ([ks; kp] ++ cb ++ pb ++ [dec; enc]) m m6); [| done | |].
  - cbn [mbind option_bind returning]. do 2 f_equal. unfold batch_spec. cbn [length].
    destruct (failing seal_open pk sk 0 cts) as [|i l] eqn:Efail.
    + rewrite (proj2 (batch_ret_spec _ _ _ _) Efail). rewrite decide_False; [done|]. by intros [[]|[]].
    + rewrite decide_True; [done|]. by right.
  - intros q Hq. destruct (Hnew q Hq) as (? & ? & Hlive). split_and!; [done..|].
    by eapply batch_done_live.
  - intros q Hq. rewrite <- Hold by done. rewrite !elem_of_app, !elem_of_cons in Hq.
    apply (bd_frame _ _ _ _ _ _ _ _ _ _ _ _ Hbd); intros H; apply Hq; auto.
Qed.
(** ** Properties *)

(** C14: DecryptBatch.  On ciphertexts of at least 48 bytes, whatever the
    number of hardware threads and the interleaving of the workers, DecryptBatch
    has no undefined behaviour and returns: all messages, in the order of the
    ciphertexts, if every one opens; otherwise an error that lists exactly the
    positions that do not.  The C memory is as it was: every buffer is freed,
    none twice. *)
Theorem DecryptBatch_spec hw sched cts pk sk m :
  (0 ≤ hw)%Z → (Z.of_nat (length cts) < 2 ^ 63)%Z → length pk = 32 → length sk = 32 →
  Forall (λ ct, SealBytes ≤ length ct) cts → Forall fits cts →
  (∀ k, k < length (chunks hw (Z.of_nat (length cts))) → 6 * length cts + 1 ≤ turns k sched) →
  let opens ct := item_out seal_open pk sk ct in
  ∃ r, DecryptBatch seal_open hw sched cts pk sk m = Returned (r, m) ∧
  match r with
  | Ok out => Forall2 (λ ct msg, opens ct = Some msg) cts out
  | Err e => ∃ l, l ≠ [] ∧ e = ErrDecryptBatch (Join (index_strings l) (str ",")) ∧ StronglySorted lt l ∧
      ∀ i, i ∈ l ↔ ∃ ct, cts !! i = Some ct ∧ opens ct = None
  end.
Proof.
  intros Hhw Hn Hpk Hsk Hlen Hfit Ht opens. unfold opens. clear opens.
  eexists. split; [by apply DecryptBatch_result|]. unfold batch_spec.
  destruct (failing seal_open pk sk 0 cts) as [|i l] eqn:Ef.
  - rewrite failing_nil in Ef. apply Forall2_fmap_r, Forall_Forall2_diag, Forall_forall. intros ct Hct.
    cbn. by destruct (Ef ct Hct) as [msg ->].
  - exists (i :: l). rewrite <- Ef. split; [congruence|]. split; [done|]. split; [apply failing_sorted|].
    intros p. rewrite failing_elem. split.
    + intros (q & ct & -> & ?). by exists ct.
    + intros (ct & ?). by exists p, ct.
Qed.

(** A ciphertext that is too short: what was copied before it stays. *)
Lemma DecryptBatch_short hw sched ok bad rest pk sk m :
  length pk = 32 → length sk = 32 → Forall (λ ct, SealBytes ≤ length ct) ok → length bad < SealBytes →
  ∃ enc dec cb pb m1 m2, filled m m1 enc dec ok (length (ok ++ bad :: rest)) cb pb ∧
    DecryptBatch seal_open hw sched (ok ++ bad :: rest) pk sk m = Returned (Err (ErrItemTooShort (length ok)), m2) ∧
    ∀ q, m2 !! q = if decide (q ∈ [dec; enc]) then None else m1 !! q.
Proof.
  intros Hpk Hsk Hok Hbad. unfold DecryptBatch.
  rewrite Hpk, Hsk, !decide_False by (by intros []).
  rewrite decide_False by (rewrite length_app; cbn; lia).
  destruct (C_malloc _ m) as [enc m1] eqn:E1. pose proof (C_malloc_spec _ _ _ _ E1) as (He & _).
  destruct (C_malloc _ m1) as [dec m2] eqn:E2. pose proof (C_malloc_spec _ _ _ _ E2) as (Hd & _).
  rewrite !decide_False by done.
  destruct (fill_spec _ _ _ (length (ok ++ bad :: rest)) ok (bad :: rest) _ [] _ _
    (filled_start _ _ _ _ _ _ E1 E2)) as (cb & pb & m3 & Ef & Hf);
    [by rewrite length_app|done|by intros ?? [= -> ->]|].
  cbn [length app] in *. rewrite Ef, Nat.add_0_l. pose proof Hf as [_ _ _ _ _ _ Hnd Hnew _].
  rewrite app_assoc in Hnd. apply NoDup_app in Hnd as (_ & _ & Hnd).
  destruct (C_free_all_spec [dec; enc] m3) as (m4 & Efree & Hm4); [done| |].
  { intros p Hp. destruct (Hnew p) as (? & _ & ?); [rewrite !elem_of_app; auto|done]. }
  rewrite Efree. by exists enc, dec, cb, pb, m3, m4.
Qed.

(** C22: the leak.  When a ciphertext is shorter than 48 bytes, DecryptBatch
    names the first such position and decrypts nothing; but the cleanup of the
    buffers is deferred only after the loop, so the two C buffers of every
    ciphertext before that position stay allocated for ever. *)
Theorem DecryptBatch_leaks hw sched ok bad rest pk sk m :
  length pk = 32 → length sk = 32 → Forall (λ ct, SealBytes ≤ length ct) ok → length bad < SealBytes →
  ∃ leaked m', DecryptBatch seal_open hw sched (ok ++ bad :: rest) pk sk m =
      Returned (Err (ErrItemTooShort (length ok)), m') ∧
    NoDup leaked ∧ length leaked = 2 * length ok ∧
    (∀ p, p ∈ leaked → m !! p = None ∧ is_Some (m' !! p)) ∧
    (∀ p, p ∉ leaked → m' !! p = m !! p).
Proof.
  intros Hpk Hsk Hok Hbad.
  destruct (DecryptBatch_short hw sched ok bad rest pk sk m Hpk Hsk Hok Hbad)
    as (enc & dec & cb & pb & m1 & m2 & [Hcb Hpb _ _ _ _ Hnd Hnew Hold] & E & Hm2).
  rewrite app_assoc in Hnd. apply NoDup_app in Hnd as (Hnd & Hdis & _).
  exists (cb ++ pb), m2. split; [done|]. split; [done|].
  split; [rewrite length_app; lia|]. split.
  - intros p Hp. rewrite Hm2, decide_False by (by apply Hdis).
    destruct (Hnew p) as (_ & ? & ?); [rewrite app_assoc; apply elem_of_app; by left|done].
  - intros p Hp. rewrite Hm2. case_decide as Hq.
    + destruct (Hnew p) as (_ & ? & _); [rewrite app_assoc; apply elem_of_app; by right|done].
    + apply Hold. rewrite app_assoc, elem_of_app. tauto.
Qed.

(** ** DecryptSingle *)

(** crypto_box_seal_open on buffers of the right sizes. *)
Lemma seal_open_spec m out c kp ks ct pk sk k :
  m !! c = Some (Bytes (Some <$> ct)) → m !! kp = Some (Bytes (Some <$> pk)) →
  m !! ks = Some (Bytes (Some <$> sk)) → m !! out = Some (Bytes (replicate k None)) →
  length pk = 32 → length sk = 32 → length ct = k + 48 →
  crypto_box_seal_open seal_open out c (Z.of_nat (length ct)) kp ks m =
    Some match seal_open ct pk sk with
         | Some msg => (0%Z, <[out := Bytes (Some <$> msg)]> m)
         | None => ((-1)%Z, m)
         end.
Proof.
  intros Hc Hkp Hks Hout Hpk Hsk Hk. unfold crypto_box_seal_open, crypto_box_PUBLICKEYBYTES, crypto_box_SECRETKEYBYTES.
  rewrite Nat2Z.id, (read_bytes_full _ _ _ Hc). cbn [mbind option_bind].
  change (Z.to_nat 32) with 32.
  rewrite <- Hpk at 1. rewrite (read_bytes_full _ _ _ Hkp). cbn [mbind option_bind].
  rewrite <- Hsk at 1. rewrite (read_bytes_full _ _ _ Hks). cbn [mbind option_bind].
  destruct (seal_open ct pk sk) as [msg|] eqn:Eo; [|done]. apply seal_open_length in Eo.
  rewrite (write_bytes_spec _ _ _ _ Hout) by (rewrite length_replicate; lia). cbn.
  rewrite drop_ge, app_nil_r by (rewrite length_replicate; lia). done.
Qed.

(** A list of buffers allocated one after the other. *)
Fixpoint C_alloc (bs : list block) (m : cmem) : list ptr * cmem :=
  match bs with
  | [] => ([], m)
  | b :: bs => let '(p, m) := C_malloc b m in let '(ps, m) := C_alloc bs m in (p :: ps, m)
  end.

Lemma C_alloc_spec bs m ps m' :
  C_alloc bs m = (ps, m') →
  NoDup ps ∧ (∀ p, p ∈ ps → p ≠ NULL ∧ m !! p = None) ∧ (∀ p, p ∉ ps → m' !! p = m !! p) ∧
  Forall2 (λ p b, m' !! p = Some b) ps bs.
Proof.
  revert m ps m'. induction bs as [|b bs IH]; intros m ps m'; cbn [C_alloc].
  - intros [= <- <-]. split_and!; [constructor| |done|constructor]. by intros p ?%elem_of_nil.
  - destruct (C_malloc b m) as [p m1] eqn:E1. destruct (C_alloc bs m1) as [ps' m2] eqn:E2.
    intros [= <- <-]. apply C_malloc_spec in E1 as (Hn & Hp & ->). apply IH in E2 as (Hnd & Hnew & Hold & Hall).
    assert (p ∉ ps') as Hps by (intros [_ Hc]%Hnew; by rewrite lookup_insert_eq in Hc).
    split_and!.
    + by constructor.
    + intros q [->|Hq]%elem_of_cons; [done|]. destruct (Hnew q Hq) as [? Hm]. split; [done|].
      rewrite lookup_insert_ne in Hm; [done|]. by intros ->.
    + intros q [? ?]%not_elem_of_cons. rewrite Hold by done. by rewrite lookup_insert_ne.
    + constructor; [|done]. rewrite Hold by done. apply lookup_insert_eq.
Qed.

(** DecryptSingle.  It returns the message libsodium opens, or the error,
    for every ciphertext; it has no undefined behaviour, and frees its four
    buffers on every path.  A box of exactly 48 bytes is rejected unopened. *)
Theorem DecryptSingle_spec ct pk sk m :
  length pk = 32 → length sk = 32 → fits ct →
  DecryptSingle seal_open ct pk sk m = Some (single_spec seal_open pk sk ct, m).
Proof.
  intros Hpk Hsk Hfit. unfold DecryptSingle, single_spec, SealBytes.
  case_decide as Hlen; [done|]. rewrite Hpk, Hsk, !decide_False by (by intros []).
  destruct (C_alloc [Bytes (Some <$> ct); Bytes (Some <$> pk); Bytes (Some <$> sk);
    Bytes (replicate (length ct - 48) None)] m) as [ps m'] eqn:E.
  pose proof (C_alloc_spec _ _ _ _ E) as (Hnd & Hnew & Hold & Hall).
  cbn [C_alloc] in E. unfold C_CBytes, malloc_bytes.
  destruct (C_malloc (Bytes (Some <$> ct)) m) as [c m1].
  destruct (C_malloc (Bytes (Some <$> pk)) m1) as [kp m2].
  destruct (C_malloc (Bytes (Some <$> sk)) m2) as [ks m3].
  destruct (C_malloc (Bytes (replicate (length ct - 48) None)) m3) as [out m4].
  injection E as <- <-.
  apply Forall2_cons in Hall as [Hc Hall]. apply Forall2_cons in Hall as [Hkp Hall].
  apply Forall2_cons in Hall as [Hks Hall]. apply Forall2_cons in Hall as [Hout _].
  cbn [enc_ciphertext]. unfold decrypt_single_tx, crypto_box_SEALBYTES. cbn [enc_length enc_ciphertext dec_plaintext].
  destruct (Z.ltb_spec (Z.of_nat (length ct)) 48); [lia|].
  rewrite (seal_open_spec m4 out c kp ks ct pk sk (length ct - 48)) by (done || lia). cbn [mbind option_bind].
  rewrite Permutation_rev in Hnd. cbn in Hnd.
  assert (∀ m5, (∀ q, q ≠ out → m5 !! q = m4 !! q) → is_Some (m5 !! out) →
    C_free_all [out; ks; kp; c] m5 = Some m) as Hfree.
  { intros m5 Heq [b Hb]. apply C_free_all_restores; [done| |].
    - intros q Hq. destruct (Hnew q) as [? ?]; [rewrite !elem_of_cons in *; tauto|]. split_and!; [done..|].
      destruct (decide (q = out)) as [->|Hne]; [by eexists|]. rewrite Heq by done.
      rewrite !elem_of_cons in Hq. destruct Hq as [->|[->|[->|[->|Hq%elem_of_nil]]]]; [done|..|done]; by eexists.
    - intros q Hq. rewrite !not_elem_of_cons in Hq. rewrite Heq by tauto. apply Hold.
      rewrite !not_elem_of_cons. tauto. }
  unfold item_out. rewrite decide_True by lia.
  destruct (seal_open ct pk sk) as [msg|] eqn:Eo.
  - apply seal_open_length in Eo. rewrite decide_False by (by intros []). cbn [mbind option_bind dec_status set_status set_length dec_length].
    rewrite decide_False by (by intros [[]|[]]). unfold fits in Hfit. rewrite int32_small by lia.
    unfold C_GoBytes. destruct (Z.ltb_spec (Z.of_nat (length ct) - 48) 0); [lia|].
    replace (Z.to_nat (Z.of_nat (length ct) - 48)) with (length msg) by lia.
    rewrite (read_bytes_full _ _ msg) by apply lookup_insert_eq. cbn [mbind option_bind fmap option_fmap option_map].
    rewrite Hfree; [done| |].
    + intros q Hq. by rewrite lookup_insert_ne.
    + by rewrite lookup_insert_eq.
  - rewrite decide_True by done. cbn [mbind option_bind dec_status set_status set_length].
    rewrite decide_True by (by left). cbn [mbind option_bind]. rewrite Hfree; [done|done|]. by eexists.
Qed.
(** One at a time or in a batch.  On ciphertexts of more than 48 bytes
    the parallel batch returns messages exactly when DecryptSingle returns the
    same messages ciphertext by ciphertext. *)
Theorem DecryptBatch_singles hw sched cts out pk sk m :
  (0 ≤ hw)%Z → (Z.of_nat (length cts) < 2 ^ 63)%Z → length pk = 32 → length sk = 32 →
  Forall (λ ct, SealBytes < length ct) cts → Forall fits cts →
  (∀ k, k < length (chunks hw (Z.of_nat (length cts))) → 6 * length cts + 1 ≤ turns k sched) →
  DecryptBatch seal_open hw sched cts pk sk m = Returned (Ok out, m) ↔
  Forall2 (λ ct msg, DecryptSingle seal_open ct pk sk m = Some (Ok msg, m)) cts out.
Proof.
  intros Hhw Hn Hpk Hsk Hlen Hfit Hturns. rewrite DecryptBatch_result; try done.
  2: { eapply Forall_impl; [exact Hlen|]. cbn. lia. }
  assert (∀ ct msg, ct ∈ cts → DecryptSingle seal_open ct pk sk m = Some (Ok msg, m) ↔
    item_out seal_open pk sk ct = Some msg) as Hone.
  { intros ct msg Hct. rewrite Forall_forall in Hfit, Hlen. rewrite DecryptSingle_spec by auto.
    specialize (Hlen _ Hct). unfold SealBytes in Hlen. unfold single_spec. rewrite decide_False by lia.
    destruct (item_out seal_open pk sk ct); split; congruence. }
  unfold batch_spec. destruct (failing seal_open pk sk 0 cts) as [|i l] eqn:Ef.
  - rewrite failing_nil in Ef. split.
    + intros [= <-]. apply Forall2_fmap_r, Forall_Forall2_diag, Forall_forall. intros ct Hct.
      apply Hone; [done|]. by destruct (Ef ct Hct) as [msg ->].
    + intros H. do 3 f_equal. clear - H Hone. induction H as [|ct msg cts out H1 _ IH]; [done|]. cbn.
      apply Hone in H1; [|by left]. rewrite H1. f_equal. apply IH. intros. apply Hone. by right.
  - split; [done|]. intros H. exfalso. enough (failing seal_open pk sk 0 cts = []) by congruence.
    apply failing_nil. intros ct Hct. apply list_elem_of_lookup in Hct as [j Hj].
    destruct (Forall2_lookup_l _ _ _ _ _ H Hj) as (msg & _ & H1). exists msg.
    apply Hone; [by eapply list_elem_of_lookup_2|done].
Qed.

(** ** Sealing *)

Context (seal : bytes → bytes → option bytes).
Context (seal_length : ∀ msg pk c, seal msg pk = Some c → length c = length msg + 48).

Lemma SealTransaction_out plaintext pk m :
  plaintext ≠ [] → length pk = 32 →
  SealTransaction seal plaintext pk m =
    Some (match seal plaintext pk with
          | Some c => Ok c
          | None => Err (ErrSeal SO_ERR_BAD_CIPHER)
          end, m).
Proof.
  intros Hne Hpk. unfold SealTransaction. rewrite decide_False by (by destruct plaintext).
  rewrite Hpk, decide_False by (by intros []).
  destruct (C_alloc [Bytes (Some <$> plaintext); Bytes (Some <$> pk);
    Bytes (Some <$> replicate (length plaintext + SealBytes) x00)] m) as [ps m'] eqn:E.
  pose proof (C_alloc_spec _ _ _ _ E) as (_ & _ & _ & Hall).
  cbn [C_alloc] in E. unfold pin, C_CBytes.
  destruct (C_malloc (Bytes (Some <$> plaintext)) m) as [p m1].
  destruct (C_malloc (Bytes (Some <$> pk)) m1) as [k m2].
  destruct (C_malloc (Bytes (Some <$> replicate _ x00)) m2) as [c m3]. injection E as <- <-.
  apply Forall2_cons in Hall as [Hp Hall]. apply Forall2_cons in Hall as [Hk Hall].
  apply Forall2_cons in Hall as [Hc _].
  unfold seal_transaction, crypto_box_PUBLICKEYBYTES. change (Z.to_nat 32) with 32.
  rewrite (read_bytes_full _ _ _ Hp). cbn [mbind option_bind].
  rewrite <- Hpk at 1. rewrite (read_bytes_full _ _ _ Hk). cbn [mbind option_bind].
  destruct (seal plaintext pk) as [box|] eqn:Es; [|done].
  apply seal_length in Es.
  rewrite (write_bytes_spec _ _ _ _ Hc) by (rewrite length_fmap, length_replicate; unfold SealBytes; lia).
  cbn [mbind option_bind]. rewrite drop_ge, app_nil_r by (rewrite length_fmap, length_replicate; unfold SealBytes; lia).
  rewrite decide_False by (by intros []).
  replace (length plaintext + SealBytes) with (length box) by (unfold SealBytes; lia).
  by rewrite (read_bytes_full _ _ box) by apply lookup_insert_eq.
Qed.

(** C21: round trip.  Transactions sealed for the sequencer's key come back
    from DecryptBatch in their order, each box being 48 bytes longer than its
    transaction.  ([seal_open_seal] is libsodium's promise for a keypair.) *)
Theorem seal_decrypt_roundtrip hw sched msgs cts pk sk m
  (seal_open_seal : ∀ msg c, seal msg pk = Some c → seal_open c pk sk = Some msg) :
  (0 ≤ hw)%Z → (Z.of_nat (length cts) < 2 ^ 63)%Z → length pk = 32 → length sk = 32 →
  Forall (λ msg, msg ≠ [] ∧ (Z.of_nat (length msg) < 2 ^ 31)%Z) msgs →
  Forall2 (λ msg ct, SealTransaction seal msg pk m = Some (Ok ct, m)) msgs cts →
  (∀ k, k < length (chunks hw (Z.of_nat (length cts))) → 6 * length cts + 1 ≤ turns k sched) →
  DecryptBatch seal_open hw sched cts pk sk m = Returned (Ok msgs, m) ∧
  Forall2 (λ msg ct, length ct = length msg + SealBytes) msgs cts.
Proof.
  intros Hhw Hn Hpk Hsk Hmsgs Hseal Hturns.
  assert (Forall2 (λ msg ct, seal msg pk = Some ct ∧ msg ≠ [] ∧ (Z.of_nat (length msg) < 2 ^ 31)%Z) msgs cts) as H.
  { clear - Hmsgs Hseal Hpk seal_length. induction Hseal as [|msg ct msgs cts H1 _ IH]; [constructor|].
    apply Forall_cons in Hmsgs as [[? ?] Hmsgs]. constructor; [|by apply IH].
    rewrite SealTransaction_out in H1 by done. split; [|done]. destruct (seal msg pk); congruence. }
  split.
  - rewrite DecryptBatch_result; try done.
    + assert (∀ msg ct, seal msg pk = Some ct → item_out seal_open pk sk ct = Some msg) as Ho.
      { intros msg ct E. unfold item_out. rewrite decide_True; [by apply seal_open_seal|].
        apply seal_length in E. lia. }
      unfold batch_spec. rewrite (proj2 (failing_nil _ _ _ _ _)).
      * do 3 f_equal. clear - H Ho. induction H as [|msg ct msgs cts [E _] _ IH]; [done|].
        cbn. rewrite (Ho _ _ E), IH. done.
      * intros ct [i Hi]%list_elem_of_lookup. destruct (Forall2_lookup_r _ _ _ _ _ H Hi) as (msg & _ & E & _).
        exists msg. by apply Ho.
    + apply Forall_lookup. intros i ct Hi. destruct (Forall2_lookup_r _ _ _ _ _ H Hi) as (msg & _ & E & _).
      apply seal_length in E. unfold SealBytes. lia.
    + apply Forall_lookup. intros i ct Hi. destruct (Forall2_lookup_r _ _ _ _ _ H Hi) as (msg & _ & E & _ & ?).
      apply seal_length in E. unfold fits. lia.
  - eapply Forall2_impl; [exact H|]. intros msg ct [E _]. by apply seal_length in E.
Qed.
End privacy.

(** ** Witnesses *)

Lemma toy_seal_length msg pk c : length pk = 32 → toy_seal msg pk = Some c → length c = length msg + 48.
Proof.
  intros Hpk E. assert (c = pk ++ replicate 16 x00 ++ msg) as -> by (unfold toy_seal in E; congruence).
  rewrite !length_app, length_replicate. lia.
Qed.

(** A sealed box that pads the key to 32 bytes, so that its length is right for
    every key. *)
Definition toy_seal32 (msg pk : bytes) : option bytes := toy_seal msg (take 32 (pk ++ replicate 32 x00)).

Lemma toy_seal32_length msg pk c : toy_seal32 msg pk = Some c → length c = length msg + 48.
Proof. apply toy_seal_length. rewrite length_take, length_app, length_replicate. lia. Qed.

Lemma toy_open_seal32 msg c : toy_seal32 msg sample_pk = Some c → toy_open c sample_pk sample_sk = Some msg.
Proof. apply toy_open_seal. done. Qed.

Definition good_boxes : list bytes := [sample_box (str "ab"); sample_box (str "c")].

(** Two threads for two items. *)
Definition two_turns : list nat := concat (replicate 13 [0; 1]).

Lemma two_turns_ok k : k < length (chunks 2 2) → 13 ≤ turns k two_turns.
Proof.
  change (length (chunks 2 2)) with 2. intros Hk. destruct k as [|[|k]]; [vm_compute; lia..|lia].
Qed.

Lemma good_boxes_long : Forall (λ ct, SealBytes < length ct) good_boxes.
Proof. repeat constructor; vm_compute; lia. Qed.

Lemma good_boxes_fit : Forall fits good_boxes.
Proof. repeat constructor. Qed.

Lemma DecryptBatch_spec_witness :
  DecryptBatch toy_open 2 two_turns [sample_box (str "ab"); replicate 50 x09] sample_pk sample_sk ∅ =
  Returned (Err (ErrDecryptBatch (str "1")), ∅).
Proof.
  destruct (DecryptBatch_spec toy_open toy_open_length 2 two_turns [sample_box (str "ab"); replicate 50 x09]
    sample_pk sample_sk ∅) as (r & E & Hr); [done..| | | |].
  - repeat constructor; vm_compute; lia.
  - repeat constructor.
  - apply two_turns_ok.
  - clear Hr. vm_compute in E. injection E as <-. vm_compute. reflexivity.
Defined.

Lemma DecryptBatch_leaks_witness :
  ∃ leaked m', DecryptBatch toy_open 2 [] ([sample_box (str "ab")] ++ str "short" :: []) sample_pk sample_sk ∅ =
      Returned (Err (ErrItemTooShort 1), m') ∧
    NoDup leaked ∧ length leaked = 2 ∧
    (∀ p, p ∈ leaked → (∅ : cmem) !! p = None ∧ is_Some (m' !! p)) ∧
    (∀ p, p ∉ leaked → m' !! p = (∅ : cmem) !! p).
Proof.
  apply (DecryptBatch_leaks toy_open 2 [] [sample_box (str "ab")]); [done|done| |vm_compute; lia].
  repeat constructor; vm_compute; lia.
Defined.

Lemma DecryptSingle_spec_witness :
  DecryptSingle toy_open (sample_box (str "ab")) sample_pk sample_sk ∅ = Some (Ok (str "ab"), ∅) ∧
  DecryptSingle toy_open (sample_box []) sample_pk sample_sk ∅ = Some (Err ErrTooShort, ∅).
Proof.
  split; by rewrite (DecryptSingle_spec toy_open toy_open_length).
Defined.

Lemma DecryptBatch_singles_witness :
  DecryptBatch toy_open 2 two_turns good_boxes sample_pk sample_sk ∅ = Returned (Ok [str "ab"; str "c"], ∅).
Proof.
  apply (DecryptBatch_singles toy_open toy_open_length); try done.
  - apply good_boxes_long.
  - apply good_boxes_fit.
  - apply two_turns_ok.
  - repeat constructor.
Defined.

Lemma seal_decrypt_roundtrip_witness :
  DecryptBatch toy_open 2 two_turns good_boxes sample_pk sample_sk ∅ = Returned (Ok [str "ab"; str "c"], ∅).
Proof.
  apply (seal_decrypt_roundtrip toy_open toy_open_length toy_seal32 toy_seal32_length 2 two_turns
    [str "ab"; str "c"] good_boxes sample_pk sample_sk ∅ toy_open_seal32); try done.
  - repeat constructor; done.
  - repeat constructor; vm_compute; reflexivity.
  - apply two_turns_ok.
Defined.
