(* ===== verification/Clients.v ===== *)
(** cmd/client/main.go and cmd/rpc-loadtest/main.go: the programs that seal
    transactions and submit them.

    The load test runs one goroutine per client; a client is a task whose
    shared state is the two counters and the WaitGroup, and a schedule
    interleaves the clients.  What the network answers is an argument. *)

From S2P Require Import Prelude GoStrings Keys Commitment CMemory Tasks Decryption Privacy.
From Stdlib Require Import SpecFloat.

(** ** cmd/client *)

(** [fmt.Sprintf("TRADE|%s|%s|%.6f|%.6f|%d", ...)] *)
Definition trade_payload (side pair : bytes) (amount price : spec_float) (now : Z) : bytes :=
  str "TRADE" ++ pipe :: side ++ pipe :: pair ++ pipe :: fmt_f amount ++ pipe ::
  fmt_f price ++ pipe :: fmt_d now.

Record client_flags := {
  payload : bytes;
  side : bytes;
  pair : bytes;
  amount : spec_float;
  price : spec_float;
  pubkey_path : bytes
}.

Inductive client_exit :=
| FatalConnect
| FatalInit (e : privacy_error)
| FatalKey (e : key_error)
| FatalSeal (e : privacy_error)
| FatalRPC
| Submitted (accepted : bool) (payload : bytes).

Definition tx_payload (f : client_flags) (now : Z) : bytes :=
  if decide (payload f = []) then trade_payload (side f) (pair f) (amount f) (price f) now
  else payload f.

Section client.
Context (seal : bytes → bytes → option bytes).

(** [connected] says whether grpc.NewClient succeeded, [init] is the result of
    sodium_init(), [opens] whether the key file opens, [now] the Unix time, and
    [submit] the reply to SubmitTx: [None] is an error. *)
Definition client_main (f : client_flags) (connected : bool) (init : Z) (opens : bool) (d : disk)
    (now : Z) (submit : bytes → option bool) (m : cmem) : option (client_exit * cmem) :=
  if connected then
    match Init init with
    | Some e => Some (FatalInit e, m)
    | None =>
        match LoadKeyFromFile opens (pubkey_path f) PublicKeyBytes d with
        | Err e => Some (FatalKey e, m)
        | Ok pubKey =>
            let txPayload := tx_payload f now in
            '(r, m) ← SealTransaction seal txPayload pubKey m;
            match r with
            | Err e => Some (FatalSeal e, m)
            | Ok ciphertext =>
                match submit ciphertext with
                | None => Some (FatalRPC, m)
                | Some accepted => Some (Submitted accepted txPayload, m)
                end
            end
        end
    end
  else Some (FatalConnect, m).
End client.

(** ** cmd/rpc-loadtest *)

(** [fmt.Sprintf("loadtest-client-%d-req-%d-%d", ...)] *)
Definition loadtest_payload (clientID j now : Z) : bytes :=
  str "loadtest-client" ++ x2d :: fmt_d clientID ++ str "-req" ++ x2d :: fmt_d j ++ x2d :: fmt_d now.

Record counters := MkCounters { success : Z; failed : Z; wg : Z; lt_mem : cmem }.

(** Where a client is: before grpc.NewClient, at the head of its loop for
    request [j], in SubmitTx, about to count a failure or a success, about to
    count all its requests as failed, in the deferred wg.Done, or gone. *)
Inductive client_pc :=
| CDial
| CReq (j : nat)
| CSubmit (j : nat) (ciphertext : bytes)
| CFail (j : nat)
| CSuccess (j : nat)
| CFailAll
| CReturn
| CGone.

Record load_client := MkClient { clientID : Z; client_at : client_pc }.

Definition client_gone (c : load_client) : bool :=
  match client_at c with CGone => true | _ => false end.

(** The counters are atomic.Int64. *)
Definition count_success (x : counters) : counters :=
  MkCounters (int64 (success x + 1)) (failed x) (wg x) (lt_mem x).
Definition count_failed (n : Z) (x : counters) : counters :=
  MkCounters (success x) (int64 (failed x + n)) (wg x) (lt_mem x).
Definition set_lt_mem (m : cmem) (x : counters) : counters :=
  MkCounters (success x) (failed x) (wg x) m.

(** A WaitGroup whose counter would be negative panics. *)
Definition wg_Done (x : counters) : option counters :=
  if (wg x - 1 <? 0)%Z then None else Some (MkCounters (success x) (failed x) (wg x - 1) (lt_mem x)).

Section loadtest.
(** The flags, the key, and the environment's answers to client [i] for
    request [j]: whether it connects, the clock, the sealed box, the reply. *)
Context (clients requestsPerClient : Z) (pubKey : bytes).
Context (dial : Z → bool) (clock : Z → nat → Z) (seal : Z → nat → bytes → bytes → option bytes).
Context (submit : Z → nat → bytes → option bool).

Definition client_step (c : load_client) (x : counters) : option (load_client * counters) :=
  let i := clientID c in
  let goto pc := MkClient i pc in
  match client_at c with
  | CDial => Some (goto (if dial i then CReq 0 else CFailAll), x)
  | CReq j =>
      if (Z.of_nat j <? requestsPerClient)%Z then
        '(r, m) ← SealTransaction (seal i j) (loadtest_payload i (Z.of_nat j) (clock i j)) pubKey (lt_mem x);
        Some (goto (match r with Ok ciphertext => CSubmit j ciphertext | Err _ => CFail j end),
              set_lt_mem m x)
      else Some (goto CReturn, x)
  | CSubmit j ciphertext =>
      Some (goto (if decide (submit i j ciphertext = Some true) then CSuccess j else CFail j), x)
  | CFail j => Some (goto (CReq (S j)), count_failed 1 x)
  | CSuccess j => Some (goto (CReq (S j)), count_success x)
  | CFailAll => Some (goto CReturn, count_failed requestsPerClient x)
  | CReturn => x ← wg_Done x; Some (goto CGone, x)
  | CGone => Some (c, x)
  end.

(** wg.Add and the loop that starts the clients. *)
Definition loadtest_start (m : cmem) : option (tasks load_client counters) :=
  if (clients <? 0)%Z then None
  else Some (MkTasks ((λ i, MkClient i CDial) <$> seqZ 0 clients) (MkCounters 0 0 clients m)).

(** How the program ends: without requests, or with the summary's numbers and,
    if there were failures, log.Fatalf. *)
Inductive verdict := FatalNoRequests | Summary (total successful failures : Z) (fatal : bool).

Definition loadtest_report (x : counters) : verdict :=
  let total := int64 (clients * requestsPerClient) in
  if decide (total = 0%Z) then FatalNoRequests
  else Summary total (success x) (failed x) (0 <? failed x)%Z.

(** main from wg.Add on: it waits for the WaitGroup.  A panic is [Undefined]. *)
Definition loadtest_main (sched : list nat) (m : cmem) : call_result verdict :=
  match s ← loadtest_start m; run_sched client_step client_gone sched s with
  | None => Undefined
  | Some s => if decide (wg (shared s) = 0%Z) then Returned (loadtest_report (shared s)) else Waiting
  end.
End loadtest.

(** The whole program: libsodium, the key, and the test. *)
Inductive loadtest_exit :=
| LoadInit (e : privacy_error) | LoadKey (e : key_error) | Ran (r : call_result verdict).

Definition loadtest (init : Z) (opens : bool) (pubKeyPath : bytes) (d : disk) (clients requestsPerClient : Z)
    (dial : Z → bool) (clock : Z → nat → Z) (seal : Z → nat → bytes → bytes → option bytes)
    (submit : Z → nat → bytes → option bool) (sched : list nat) (m : cmem) : loadtest_exit :=
  match Init init with
  | Some e => LoadInit e
  | None =>
      match LoadKeyFromFile opens pubKeyPath PublicKeyBytes d with
      | Err e => LoadKey e
      | Ok pubKey => Ran (loadtest_main clients requestsPerClient pubKey dial clock seal submit sched m)
      end
  end.
