(* ===== verification/ClientProps.v ===== *)
(** What the client programs promise: an accepted submission is a sequenced
    transaction that opens to the payload, and the load test's summary is exact
    for every interleaving of its clients. *)

From Stdlib Require Import SpecFloat.
From S2P Require Import Prelude GoStrings Keys Commitment CMemory Tasks Decryption DecryptionProps.
From S2P Require Import Privacy PrivacyProps GoJson TxQueue TxQueueInv TxQueueProps RaftLog RaftProps ReceptionStore Server Clients.

(** ** The counters *)

Section counting.
Context (clients requestsPerClient : Z) (pubKey : bytes).
Context (dial : Z → bool) (clock : Z → nat → Z) (seal : Z → nat → bytes → bytes → option bytes).
Context (submit : Z → nat → bytes → option bool).
Context (pubKey_length : length pubKey = 32).
Context (seal_length : ∀ i j msg pk c, seal i j msg pk = Some c → length c = length msg + 48).

Abbreviation requests := (Z.to_nat requestsPerClient).
Abbreviation cstep := (client_step requestsPerClient pubKey dial clock seal submit).

Definition sealed (i : Z) (j : nat) : option bytes :=
  seal i j (loadtest_payload i (Z.of_nat j) (clock i j)) pubKey.

(** Whether request [j] of client [i] is accepted. *)
Definition served (i : Z) (j : nat) : bool :=
  match sealed i j with Some c => bool_decide (submit i j c = Some true) | None => false end.

(** The accepted requests of client [i] among its first [j]. *)
Definition served_upto (i : Z) (j : nat) : nat := length (filter (λ j, served i j = true) (seq 0 j)).
#[local] Arguments served_upto : simpl never.

(** The accepted requests of client [i]: none if it cannot connect. *)
Definition client_served (i : Z) : nat := if dial i then served_upto i requests else 0.

(** What a client has added to the counters, and whether it still holds the
    WaitGroup. *)
Definition added_success (c : load_client) : nat :=
  let i := clientID c in
  match client_at c with
  | CDial | CFailAll => 0
  | CReq j | CSubmit j _ | CFail j | CSuccess j => served_upto i j
  | CReturn | CGone => client_served i
  end.
Definition added_failed (c : load_client) : nat :=
  let i := clientID c in
  match client_at c with
  | CDial | CFailAll => 0
  | CReq j | CSubmit j _ | CFail j | CSuccess j => j - served_upto i j
  | CReturn | CGone => requests - client_served i
  end.
Definition holds_wg (c : load_client) : nat := if client_gone c then 0 else 1.

Definition client_ok (c : load_client) : Prop :=
  let i := clientID c in
  match client_at c with
  | CDial | CReturn | CGone => True
  | CReq j => dial i = true ∧ j ≤ requests
  | CSubmit j ct => dial i = true ∧ j < requests ∧ sealed i j = Some ct
  | CFail j => dial i = true ∧ j < requests ∧ served i j = false
  | CSuccess j => dial i = true ∧ j < requests ∧ served i j = true
  | CFailAll => dial i = false
  end.

Lemma int64_add a b : int64 (int64 a + b) = int64 (a + b).
Proof.
  unfold int64, wrap64. f_equal.
  replace ((a + 2 ^ 63) mod 2 ^ 64 - 2 ^ 63 + b + 2 ^ 63)%Z with ((a + 2 ^ 63) mod 2 ^ 64 + b)%Z by lia.
  rewrite Zplus_mod_idemp_l. f_equal. lia.
Qed.

Lemma served_upto_S i j : served_upto i (S j) = served_upto i j + (if served i j then 1 else 0).
Proof.
  unfold served_upto. rewrite seq_S, filter_app, length_app. f_equal. rewrite Nat.add_0_l.
  destruct (served i j) eqn:E; [by rewrite filter_cons_True|rewrite filter_cons_False; [done|by rewrite E]].
Qed.

Lemma served_upto_le i j : served_upto i j ≤ j.
Proof. unfold served_upto. etrans; [apply length_filter|]. by rewrite length_seq. Qed.

Lemma client_served_le i : client_served i ≤ requests.
Proof. unfold client_served. destruct (dial i); [apply served_upto_le|lia]. Qed.

(** A step counts what it adds. *)
Lemma client_step_ok c x sc fl :
  client_ok c → client_gone c = false → (0 < wg x)%Z → (0 ≤ requestsPerClient)%Z →
  success x = int64 sc → failed x = int64 fl →
  ∃ c' x', cstep c x = Some (c', x') ∧ client_ok c' ∧ clientID c' = clientID c ∧
    success x' = int64 (sc + (Z.of_nat (added_success c') - Z.of_nat (added_success c))) ∧
    failed x' = int64 (fl + (Z.of_nat (added_failed c') - Z.of_nat (added_failed c))) ∧
    wg x' = (wg x + (Z.of_nat (holds_wg c') - Z.of_nat (holds_wg c)))%Z.
Proof.
  destruct c as [i pc]. unfold client_ok, client_gone, client_step. cbn [client_at clientID].
  intros Hok Hg Hwg Hr Hsc Hfl.
  assert (∀ c' x', success x' = success x → failed x' = failed x → wg x' = wg x →
    added_success c' = added_success (MkClient i pc) → added_failed c' = added_failed (MkClient i pc) →
    holds_wg c' = holds_wg (MkClient i pc) →
    success x' = int64 (sc + (Z.of_nat (added_success c') - Z.of_nat (added_success (MkClient i pc)))) ∧
    failed x' = int64 (fl + (Z.of_nat (added_failed c') - Z.of_nat (added_failed (MkClient i pc)))) ∧
    wg x' = (wg x + (Z.of_nat (holds_wg c') - Z.of_nat (holds_wg (MkClient i pc))))%Z) as Hsame.
  { intros c' x' -> -> -> -> -> ->. rewrite !Z.sub_diag, !Z.add_0_r. done. }
  destruct pc as [|j|j ct|j|j| | |]; [..|done].
  - eexists _, x. split; [done|]. destruct (dial i) eqn:Hd; (split; [cbn; rewrite ?Hd; done || (split; [done|lia])|]);
      (split; [done|]); by apply Hsame.
  - destruct Hok as [Hd Hj]. destruct (Z.ltb_spec (Z.of_nat j) requestsPerClient) as [Hlt|Hge].
    + rewrite (SealTransaction_out _ (seal_length i j)) by done. cbn [mbind option_bind].
      fold (sealed i j). eexists _, _. split; [done|].
      destruct (sealed i j) as [ct|] eqn:Es; (split; [cbn|]).
      * split_and!; [done|lia|done].
      * split; [done|]. by apply Hsame.
      * split_and!; [done|lia|]. unfold served. by rewrite Es.
      * split; [done|]. by apply Hsame.
    + eexists _, x. split; [done|]. split; [done|]. split; [done|].
      assert (j = requests) as -> by lia. apply Hsame; try done; cbn; unfold client_served; by rewrite Hd.
  - destruct Hok as (Hd & Hj & Es). eexists _, x. split; [done|].
    assert (served i j = bool_decide (submit i j ct = Some true)) as Hsv by (unfold served; by rewrite Es).
    case_decide as Ha; (split; [cbn|]); try (split; [done|]; by apply Hsame).
    + split_and!; [done..|]. rewrite Hsv. by apply bool_decide_true.
    + split_and!; [done..|]. rewrite Hsv. by apply bool_decide_false.
  - destruct Hok as (Hd & Hj & Hsv). eexists _, _. split; [done|]. split; [cbn; split; [done|lia]|]. split; [done|].
    cbn. rewrite served_upto_S, Hsv, Hfl, int64_add. pose proof (served_upto_le i j).
    split_and!; [rewrite Hsc; f_equal; lia|f_equal; lia|lia].
  - destruct Hok as (Hd & Hj & Hsv). eexists _, _. split; [done|]. split; [cbn; split; [done|lia]|]. split; [done|].
    cbn. rewrite served_upto_S, Hsv, Hsc, int64_add. pose proof (served_upto_le i j).
    split_and!; [f_equal; lia|rewrite Hfl; f_equal; lia|lia].
  - eexists _, _. split; [done|]. split; [done|]. split; [done|]. cbn. unfold client_served. rewrite Hok, Hfl, int64_add.
    split_and!; [rewrite Hsc; f_equal; lia|f_equal; lia|lia].
  - unfold wg_Done. destruct (Z.ltb_spec (wg x - 1) 0); [lia|]. eexists _, _. split; [done|]. split; [done|].
    split; [done|]. cbn. rewrite Hsc, Hfl. split_and!; [f_equal; lia|f_equal; lia|lia].
Qed.

Record load_inv (st : tasks load_client counters) : Prop := {
  li_ok : ∀ k c, code st !! k = Some c → client_ok c;
  li_ids : clientID <$> code st = seqZ 0 clients;
  li_success : success (shared st) = int64 (Z.of_nat (sum_list_with added_success (code st)));
  li_failed : failed (shared st) = int64 (Z.of_nat (sum_list_with added_failed (code st)));
  li_wg : wg (shared st) = Z.of_nat (sum_list_with holds_wg (code st))
}.

Lemma load_step k st :
  (0 ≤ requestsPerClient)%Z → load_inv st → ∃ st', run_task cstep client_gone k st = Some st' ∧ load_inv st'.
Proof.
  intros Hr Hi. unfold run_task. destruct (code st !! k) as [c|] eqn:Hk; [|by eauto].
  destruct (client_gone c) eqn:Hg; [by eauto|]. pose proof Hi as [Hok Hids Hsc Hfl Hwg].
  assert (0 < wg (shared st))%Z as Hpos.
  { rewrite Hwg. pose proof (sum_elem holds_wg (code st) c (list_elem_of_lookup_2 _ _ _ Hk)).
    unfold holds_wg in *. rewrite Hg in *. lia. }
  destruct (client_step_ok c (shared st) _ _ (Hok _ _ Hk) Hg Hpos Hr Hsc Hfl)
    as (c' & x' & E & Hok' & Hid & Hsc' & Hfl' & Hwg').
  rewrite E. eexists. split; [done|].
  pose proof (λ f, sum_insert f _ _ _ c' Hk) as Hsum. split; cbn.
  - intros k' d. destruct (decide (k' = k)) as [->|Hne].
    + rewrite list_lookup_insert_eq by (by eapply lookup_lt_Some). by intros [= <-].
    + rewrite list_lookup_insert_ne by done. apply Hok.
  - rewrite list_fmap_insert, Hid, list_insert_id; [done|]. by rewrite list_lookup_fmap, Hk.
  - rewrite Hsc'. f_equal. specialize (Hsum added_success). lia.
  - rewrite Hfl'. f_equal. specialize (Hsum added_failed). lia.
  - rewrite Hwg', Hwg. specialize (Hsum holds_wg). lia.
Qed.

Lemma load_start m : (0 ≤ clients)%Z → ∃ st, loadtest_start clients m = Some st ∧ load_inv st ∧
  length (code st) = Z.to_nat clients ∧ ∀ k c, code st !! k = Some c → client_at c = CDial.
Proof.
  intros Hc. unfold loadtest_start. destruct (Z.ltb_spec clients 0); [lia|]. eexists. split; [done|].
  assert (∀ f l, (∀ i, f (MkClient i CDial) = 0) → sum_list_with f ((λ i, MkClient i CDial) <$> l) = 0) as H0.
  { intros f l Hf. induction l as [|i l IH]; [done|]. cbn. by rewrite Hf. }
  split; [split|split]; cbn.
  - intros k c. rewrite list_lookup_fmap, fmap_Some. by intros (i & _ & ->).
  - rewrite <- list_fmap_compose. apply list_fmap_id.
  - by rewrite H0.
  - by rewrite H0.
  - assert (∀ l : list Z, sum_list_with holds_wg ((λ i, MkClient i CDial) <$> l) = length l) as ->.
    { induction l as [|i l IH]; [done|]. cbn. by rewrite IH. }
    rewrite length_seqZ. lia.
  - by rewrite length_fmap, length_seqZ.
  - intros k c. rewrite list_lookup_fmap, fmap_Some. by intros (i & _ & ->).
Qed.

(** The accepted requests of all clients. *)
Definition total_served : nat := sum_list_with client_served (seqZ 0 clients).

Lemma holds_wg_gone l : sum_list_with holds_wg l = 0 ↔ ∀ c, c ∈ l → client_gone c = true.
Proof.
  induction l as [|c l IH]; cbn [sum_list_with]; [split; [by intros _ c ?%elem_of_nil|done]|].
  unfold holds_wg at 1. setoid_rewrite elem_of_cons. split.
  - intros H d [->|Hd]; [by destruct (client_gone c)|].
    apply IH; [|done]. lia.
  - intros H. rewrite (H c) by (by left). apply IH. auto.
Qed.

Lemma gone_counts l :
  (∀ c, c ∈ l → client_gone c = true) →
  sum_list_with added_success l = sum_list_with client_served (clientID <$> l) ∧
  sum_list_with added_failed l + sum_list_with client_served (clientID <$> l) = length l * requests.
Proof.
  induction l as [|c l IH]; intros H; [done|]. destruct IH as [IH1 IH2]; [by intros; apply H; right|].
  specialize (H c ltac:(by left)). pose proof (client_served_le (clientID c)).
  cbn [sum_list_with fmap list_fmap length]. unfold client_gone in H.
  unfold added_success at 1, added_failed at 1.
  destruct (client_at c); try done. cbn -[Nat.mul]. lia.
Qed.

(** When every client is gone the counters are complete. *)
Lemma load_inv_done st :
  load_inv st → wg (shared st) = 0%Z →
  success (shared st) = int64 (Z.of_nat total_served) ∧
  failed (shared st) = int64 (Z.of_nat (Z.to_nat clients * requests - total_served)) ∧
  total_served ≤ Z.to_nat clients * requests.
Proof.
  intros [_ Hids -> -> Hwg] H0. unfold total_served. rewrite <- Hids.
  assert (Z.to_nat clients = length (code st)) as ->.
  { rewrite <- (length_fmap clientID), Hids, length_seqZ. done. }
  destruct (gone_counts (code st)) as [H1 H2]; [apply holds_wg_gone; lia|].
  rewrite H1. split_and!; [done|f_equal; lia|lia].
Qed.

(** ** Termination *)

(** A bound on the turns a client still needs. *)
Definition client_rem (c : load_client) : nat :=
  match client_at c with
  | CDial => 3 * requests + 3
  | CReq j => 3 * (requests - j) + 2
  | CSubmit j _ => 3 * (requests - S j) + 4
  | CFail j | CSuccess j => 3 * (requests - S j) + 3
  | CFailAll => 2
  | CReturn => 1
  | CGone => 0
  end.

Lemma client_step_rem c x c' x' :
  client_gone c = false → cstep c x = Some (c', x') → client_rem c' < client_rem c.
Proof.
  destruct c as [i pc]. unfold client_step, client_gone. cbn [client_at clientID].
  destruct pc as [|j|j ct|j|j| | |]; intros Hg E; try done; try (simplify_eq; cbn -[Nat.mul]; lia).
  - injection E as <- <-. destruct (dial i); cbn -[Nat.mul]; lia.
  - destruct (Z.ltb_spec (Z.of_nat j) requestsPerClient).
    + apply bind_Some in E as ([r m] & _ & [= <- <-]). destruct r; cbn -[Nat.mul]; lia.
    + injection E as <- <-. cbn -[Nat.mul]. lia.
  - injection E as <- <-. case_decide; cbn -[Nat.mul]; lia.
  - apply bind_Some in E as (y & _ & [= <- <-]). cbn. lia.
Qed.

(** The load test counts every request once.  Whatever the interleaving of
    the clients and the answers of the network, the load test does not panic and
    cannot finish early: either a client is still running, or the summary gives
    the number of accepted requests, all others as failures, and ends fatally
    exactly if there is a failure.  With enough turns for every client it
    finishes. *)
Theorem loadtest_counts sched m :
  (0 < clients)%Z → (0 < requestsPerClient)%Z → (clients * requestsPerClient < 2 ^ 63)%Z →
  let total := (clients * requestsPerClient)%Z in
  let ok := Z.of_nat total_served in
  let result := loadtest_main clients requestsPerClient pubKey dial clock seal submit sched m in
  (result = Waiting ∨ result = Returned (Summary total ok (total - ok) (bool_decide (ok ≠ total)))) ∧
  ((∀ k, k < Z.to_nat clients → 3 * requests + 3 ≤ turns k sched) → result ≠ Waiting).
Proof.
  intros Hc Hr Hb total ok result. unfold result, loadtest_main.
  destruct (load_start m) as (st0 & -> & Hi0 & Hlen & Hdial); [lia|]. cbn [mbind option_bind].
  destruct (run_sched_inv cstep client_gone load_inv sched st0) as (st & E & Hi); [|done|].
  { intros k s. apply load_step. lia. }
  rewrite E. split.
  - case_decide as Hwg; [right|by left]. destruct (load_inv_done _ Hi Hwg) as (Hs & Hf & Hle).
    assert (∀ z, (0 ≤ z < 2 ^ 63)%Z → int64 z = z) as Hsmall.
    { intros z Hz. unfold int64. rewrite wrap64_small by (unfold is_uint64; lia). lia. }
    unfold loadtest_report. rewrite (Hsmall (clients * requestsPerClient)%Z), decide_False by lia.
    rewrite Hs, Hf, !Hsmall by nia. unfold total, ok. do 2 f_equal; [nia|].
    destruct (Z.ltb_spec 0 (Z.of_nat (Z.to_nat clients * requests - total_served)));
      symmetry; [apply bool_decide_true|apply bool_decide_false]; nia.
  - intros Ht. assert (all_done client_gone st = true) as Hd.
    { eapply (run_sched_done _ _ client_rem); [|exact E| |].
      - intros ????. apply client_step_rem.
      - intros k c Hk. unfold client_rem. rewrite (Hdial _ _ Hk). apply Ht. rewrite <- Hlen.
        by eapply lookup_lt_Some.
      - intros [i pc]. destruct pc; cbn -[Nat.mul]; try done; lia. }
    rewrite decide_True; [done|]. rewrite (li_wg _ Hi), (proj2 (holds_wg_gone _)); [done|].
    rewrite all_done_spec in Hd. intros c [k Hk]%list_elem_of_lookup. by eapply Hd.
Qed.
End counting.

(** ** Payloads *)

Lemma tx_payload_ne f now : tx_payload f now ≠ [].
Proof. unfold tx_payload. by case_decide. Qed.

Lemma digits_no_dash fuel n acc : x2d ∉ acc → x2d ∉ dec_digits fuel n acc.
Proof. apply dec_digits_chars. by vm_compute. Qed.

Lemma fmt_d_no_dash z : (0 ≤ z)%Z → x2d ∉ fmt_d z.
Proof.
  intros Hz. unfold fmt_d. destruct (Z.ltb_spec z 0); [lia|]. apply digits_no_dash, not_elem_of_nil.
Qed.

(** Two requests of a load test never carry the same payload, whatever the
    clock says. *)
Lemma loadtest_payload_inj i j t i' j' t' :
  is_int64 i → is_int64 j → is_int64 i' → is_int64 j' → (0 ≤ i)%Z → (0 ≤ j)%Z → (0 ≤ i')%Z → (0 ≤ j')%Z →
  loadtest_payload i j t = loadtest_payload i' j' t' → i = i' ∧ j = j'.
Proof.
  intros Hi Hj Hi' Hj' Hi0 Hj0 Hi0' Hj0' E. unfold loadtest_payload in E.
  apply app_inv_head in E. injection E as E.
  change (str "-req" ++ ?x) with (x2d :: str "req" ++ x) in E.
  apply separator_cancel in E as [Ei E]; [|by apply fmt_d_no_dash..].
  injection E as E.
  apply separator_cancel in E as [Ej _]; [|by apply fmt_d_no_dash..].
  apply (f_equal ParseInt) in Ei, Ej. rewrite !ParseInt_fmt_d in Ei, Ej by done. by simplify_eq.
Qed.

Lemma LoadKeyFromFile_length opens path n d key :
  LoadKeyFromFile opens path n d = Ok key → Z.of_nat (length key) = n.
Proof.
  unfold LoadKeyFromFile, load_key_from_file. destruct (Z.leb_spec n 0); [done|].
  destruct (d !! path) as [content|]; [|done]. cbn. destruct opens; [|done]. case_decide; [|done].
  intros [= <-]. rewrite length_take. lia.
Qed.

(** ** The answer of the log

    What SubmitWithReceipt of the configured log answers to a payload, and the
    transactions that log has committed by then: a call of the ordering queue that
    has returned, or a call at the Raft leader, where raft.Apply answers with the
    FSM's response to an entry of the log that carries the proposal. *)

Section answers.
Context {apply_error : Type} (unmarshal_other : bytes → option raftProposal).

Definition log_error : Type := q_error + raft_submit_error apply_error.

(** The call has no deadline, or has not reached it before its proposal. *)
Definition in_time (until : option Z) : Prop := (if until is Some t then 0 < t else True)%Z.

Inductive log_answer : backend → bytes → res log_error EncryptedTransaction → list EncryptedTransaction → Prop :=
| local_answer q c k r :
    reachable q → calls q !! c = Some k → sc_pc k = SReturned r →
    log_answer LocalLog (sc_payload k) (as_res (resp_tx r, inl <$> resp_err r)) (sent q).*2
| raft_answer leader rlog err0 until err1 now apply ct :
    in_time until →
    (∀ data t resp, apply data t = Ok resp →
      ∃ e, e ∈ rlog ∧ Data e = data ∧ resp = fsm_response unmarshal_other e) →
    let p := raft_SubmitWithReceipt (E := apply_error) err0 until err1 now apply ct in
    log_answer (RaftLog true leader) ct (as_res (p.1, inr <$> p.2)) (log_txs unmarshal_other rlog (length rlog)).

(** A success is a transaction of the log that carries the payload. *)
Lemma log_answer_committed b ct tx txs :
  log_answer b ct (Ok tx) txs → Ciphertext tx = ct ∧ tx ∈ txs.
Proof.
  intros Ha. remember (Ok tx) as o eqn:Eo.
  destruct Ha as [q c k r Hq Hk Hpc|leader rlog err0 until err1 now apply ct Hu Hap p]; unfold as_res in Eo; cbn in Eo.
  - destruct (inv_reachable q Hq) as [_ [Hp Hresp] _ _ _].
    specialize (Hresp c k r Hk (or_intror Hpc)). unfold good_resp in Hresp.
    destruct (resp_err r); [done|]. injection Eo as <-. split; [|by apply (list_elem_of_fmap_2 snd) in Hresp].
    destruct (Hp c (resp_tx r)) as (k' & Hk' & ->); [apply elem_of_app; by left|]. congruence.
  - unfold p, raft_SubmitWithReceipt in Eo. destruct err0; [done|].
    assert (bool_decide (is_Some until) && (default defaultRaftApplyTimeout until <=? 0)%Z = false) as Ht.
    { destruct until as [t|]; [|done]. cbn. by apply Z.leb_gt. }
    rewrite Ht in Eo. destruct (apply _ _) as [resp|] eqn:Ea; [|done].
    destruct (Hap _ _ _ Ea) as ([i data] & He & Hd & ->). cbn [Data] in Hd. subst data. unfold fsm_response in Eo.
    pose proof (entry_tx_Marshal unmarshal_other i (UnixNano now) ct (int64_range _)) as Hx.
    rewrite Hx in Eo. cbn [fst snd] in Eo. injection Eo as <-. split; [done|].
    unfold log_txs. rewrite take_ge by done. apply list_elem_of_omap. eauto.
Qed.
End answers.

(** ** The client against the server *)

Section client.
Context (seal : bytes → bytes → option bytes) (seal_open : bytes → bytes → bytes → option bytes).
Context (seal_length : ∀ msg pk c, seal msg pk = Some c → length c = length msg + 48).
Context (seal_open_length : ∀ c pk sk msg, seal_open c pk sk = Some msg → length c = length msg + 48).
Context (conn client dial_error remote_error apply_error : Type) (NewRPCServiceClient : conn → client).
Context (unmarshal_other : bytes → option raftProposal).
Abbreviation reply := (option SubmitAck * option (rpc_error dial_error remote_error (@log_error apply_error)))%type.
Abbreviation server_SubmitTx :=
  (SubmitTx conn client dial_error remote_error (@log_error apply_error) NewRPCServiceClient).
(** gRPC delivers the handler's reply to the client: [None] is an error. *)
Context (grpc_reply : reply → option bool).
Context (grpc_delivers : ∀ r a, grpc_reply r = Some a → r = (Some (MkAck a), None)).

(** The server a client talks to, when [handle] is the handler of the server that
    commits: this one, or one that a follower has a connection to, over which gRPC
    delivers the acknowledgement. *)
Inductive contact (handle : bytes → reply) : (bytes → reply) → Prop :=
| contact_direct : contact handle handle
| contact_follower leader dial remote submit s :
    (∀ cl ct a, remote cl ct = (Some (MkAck a), None) → handle ct = (Some (MkAck a), None)) →
    contact handle (λ ct, (server_SubmitTx (RaftLog false leader) dial remote submit ct s).1).

Lemma contact_ack handle entry ct a :
  contact handle entry → entry ct = (Some (MkAck a), None) → handle ct = (Some (MkAck a), None).
Proof.
  intros [|leader dial remote submit s Hr]; [done|]. unfold SubmitTx. case_decide; [done|].
  destruct (getProxyClient _ _ _ _ _ _) as [[cl|] s']; [|done]. apply Hr.
Qed.

(** C24: submission end to end.  The client talks to a single node, to the
    leader of a cluster, or to a follower that forwards to the leader.  When it
    reports an accepted payload, the log of that node or leader, if the call did
    not run into its deadline there, had committed a transaction for it, whose
    reception proof is stored there, and with the sequencer's keypair the
    transaction decrypts to exactly the payload: the one given, or the trade built
    from the flags. *)
Theorem client_end_to_end f connected init opens d now b dial remote submit history s entry m m' p pk sk :
  (∀ ct, log_answer unmarshal_other b ct (submit ct) (history ct)) →
  contact (λ ct, (server_SubmitTx b dial remote submit ct s).1) entry →
  LoadKeyFromFile opens (pubkey_path f) PublicKeyBytes d = Ok pk → length sk = 32 →
  (∀ msg c, seal msg pk = Some c → seal_open c pk sk = Some msg) →
  (Z.of_nat (length (tx_payload f now)) < 2 ^ 31)%Z →
  client_main seal f connected init opens d now (λ c, grpc_reply (entry c)) m = Some (Submitted true p, m') →
  p = tx_payload f now ∧ m' = m ∧
  ∃ c tx, submit c = Ok tx ∧ tx ∈ history c ∧ Ciphertext tx = c ∧
    (server_SubmitTx b dial remote submit c s).2 = add_proof conn client (proof_of tx) s ∧
    DecryptSingle seal_open (Ciphertext tx) pk sk m = Some (Ok p, m).
Proof.
  intros Hlog Hcon Hpk Hsk Hopen Hlen. unfold client_main. destruct connected; [|done].
  destruct (Init init); [done|]. rewrite Hpk. apply LoadKeyFromFile_length in Hpk as Hpkl.
  rewrite SealTransaction_out by (done || apply tx_payload_ne || unfold PublicKeyBytes in Hpkl; lia).
  cbn [mbind option_bind]. destruct (seal (tx_payload f now) pk) as [c|] eqn:Es; [|done].
  destruct (grpc_reply _) as [a|] eqn:Er; [|done]. intros [= -> <- <-].
  split; [done|]. split; [done|]. exists c. apply grpc_delivers, (contact_ack _ _ _ _ Hcon) in Er.
  specialize (Hlog c).
  assert ((server_SubmitTx b dial remote submit c s) =
    match submit c with
    | Err e => ((Some (MkAck false), Some (ErrSubmit _ _ _ e)), s)
    | Ok tx => ((Some (MkAck true), None), add_proof conn client (proof_of tx) s)
    end) as Ecommit.
  { assert (∀ l, b ≠ RaftLog false l) as Hb by (intros l ->; inversion Hlog).
    destruct b as [|[] l]; [done..|]. by destruct (Hb l). }
  cbv beta in Er. rewrite Ecommit in Er |- *. clear Ecommit. destruct (submit c) as [tx|e] eqn:Etx; [|done]. exists tx.
  destruct (log_answer_committed _ _ _ _ _ Hlog) as [Hct Hin]. split_and!; [done..|].
  rewrite Hct. pose proof (seal_length _ _ _ Es) as Hc. pose proof (tx_payload_ne f now) as Hne.
  assert (length (tx_payload f now) ≠ 0) by (by destruct (tx_payload f now)).
  rewrite (DecryptSingle_spec _ seal_open_length).
  - unfold single_spec, DecryptionInv.item_out. rewrite decide_False, decide_True by lia.
    by rewrite (Hopen _ _ Es).
  - unfold PublicKeyBytes in Hpkl. lia.
  - done.
  - unfold fits. lia.
Qed.
End client.

(** ** Witnesses *)

(** Two clients with two requests each; the second request of client 1 is
    rejected. *)
Definition sample_answers (i : Z) (j : nat) (_ : bytes) : option bool :=
  Some (negb ((i =? 1)%Z && (j =? 1))).

Definition sample_clients : list nat := concat (replicate 9 [1; 0]).

Lemma loadtest_counts_witness :
  loadtest_main 2 2 sample_pk (λ _, true) (λ _ _, 0%Z) (λ _ _, toy_seal32) sample_answers sample_clients ∅
  = Returned (Summary 4 3 1 true).
Proof.
  destruct (loadtest_counts 2 2 sample_pk (λ _, true) (λ _ _, 0%Z) (λ _ _, toy_seal32) sample_answers
    eq_refl (λ _ _, toy_seal32_length) sample_clients ∅) as [[H|H] Hturns]; [done..| |].
  - exfalso. apply Hturns; [|exact H]. intros k Hk. destruct k as [|[|k]]; [vm_compute; lia..|].
    change (Z.to_nat 2) with 2 in Hk. lia.
  - rewrite H. vm_compute. reflexivity.
Defined.

Definition sample_flags : client_flags :=
  {| payload := []; side := str "BUY"; pair := str "ETH/USDC"; amount := S754_finite false 3 (-1);
     price := S754_finite false 3200 0; pubkey_path := pubPath |}.

(** A queue that has served one call, with any payload. *)
Definition served_queue (ct : bytes) : TxQueue :=
  default (empty_queue 4) (run (submit_schedule 1 0 ct 7) (empty_queue 4)).

Definition served_tx (ct : bytes) : EncryptedTransaction := {| ID := 1; Ciphertext := ct; ArrivedAt := 7 |}.

Lemma served_answer ct :
  log_answer (apply_error := nat) (λ _, None) LocalLog ct (Ok (served_tx ct)) (sent (served_queue ct)).*2.
Proof.
  apply (local_answer _ (served_queue ct) 1 (Call 0 ct (SReturned (receipt (served_tx ct))) None) (receipt (served_tx ct)));
    [|by vm_compute|done].
  eapply (reachable_from_empty 4 (submit_schedule 1 0 ct 7)). unfold served_queue. by vm_compute.
Qed.

Definition sample_grpc (r : option SubmitAck * option (rpc_error nat nat (@log_error nat))) : option bool :=
  match r with (Some (MkAck a), None) => Some a | _ => None end.

(** The leader of a cluster, where any payload becomes entry 4. *)
Definition leader_log (ct : bytes) : list raft_entry := [MkEntry 4 (Marshal (MkProposal (UnixNano 6) ct))].
Definition leader_submit (ct : bytes) : res (@log_error nat) EncryptedTransaction :=
  let p := raft_SubmitWithReceipt (E := nat) None (Some 9%Z) None 6
             (λ data _, if decide (data = Marshal (MkProposal (UnixNano 6) ct))
                        then Ok (fsm_response no_other (MkEntry 4 data)) else Err 0) ct in
  as_res (p.1, inr <$> p.2).

Lemma leader_answer ct :
  log_answer no_other (RaftLog true []) ct (leader_submit ct) (log_txs no_other (leader_log ct) 1).
Proof.
  apply (raft_answer no_other [] (leader_log ct)); [done|]. intros data t resp. case_decide as Hd; [|done].
  intros [= <-]. exists (MkEntry 4 data). subst data. split_and!; [by left|done..].
Qed.

Abbreviation sample_SubmitTx := (SubmitTx nat nat nat nat (@log_error nat) (λ co, co)).

(** The leader's handler, and a follower that reaches it. *)
Definition leader_handle (ct : bytes) :=
  (sample_SubmitTx (RaftLog true []) (λ _, Err 0) (λ _ _, (None, None)) leader_submit ct (NewServer nat nat)).1.
Definition follower_handle (ct : bytes) :=
  (sample_SubmitTx (RaftLog false (str "h:7000")) (λ _, Ok 3) (λ _, leader_handle) (λ _, Err (inl ErrQueueClosed))
     ct (NewServer nat nat)).1.

(** The trade of the flags at a single node, and at a follower. *)
Lemma client_end_to_end_witness :
  let trade := str "TRADE|BUY|ETH/USDC|1.500000|3200.000000|1700000000" in
  (∃ c, served_tx c ∈ (sent (served_queue c)).*2 ∧ DecryptSingle toy_open c sample_pk sample_sk ∅ = Some (Ok trade, ∅)) ∧
  ∃ c tx, leader_submit c = Ok tx ∧ tx ∈ log_txs no_other (leader_log c) 1 ∧
    DecryptSingle toy_open (Ciphertext tx) sample_pk sample_sk ∅ = Some (Ok trade, ∅).
Proof.
  intros trade. split.
  - destruct (client_end_to_end toy_seal32 toy_open toy_seal32_length toy_open_length nat nat nat nat nat (λ co, co)
      (λ _, None) sample_grpc ltac:(by intros [[[]|] []] ? [= <-]) sample_flags true 0 true {[pubPath := sample_pk]}
      1700000000 LocalLog (λ _, Err 0) (λ _ _, (None, None)) (λ ct, Ok (served_tx ct)) (λ ct, (sent (served_queue ct)).*2)
      (NewServer nat nat) _ ∅ ∅ trade sample_pk sample_sk served_answer (contact_direct _ _ _ _ _ _ _))
      as (_ & _ & c & tx & H1 & H2 & H3 & _ & H4); [done|done|apply toy_open_seal32|done|by vm_compute|].
    exists c. injection H1 as <-. by split.
  - destruct (client_end_to_end toy_seal32 toy_open toy_seal32_length toy_open_length nat nat nat nat nat (λ co, co)
      no_other sample_grpc ltac:(by intros [[[]|] []] ? [= <-]) sample_flags true 0 true {[pubPath := sample_pk]}
      1700000000 (RaftLog true []) (λ _, Err 0) (λ _ _, (None, None)) leader_submit (λ ct, log_txs no_other (leader_log ct) 1)
      (NewServer nat nat) follower_handle ∅ ∅ trade sample_pk sample_sk leader_answer)
      as (_ & _ & c & tx & H1 & H2 & _ & _ & H4); [|done|done|apply toy_open_seal32|done|by vm_compute|].
    + by apply contact_follower.
    + exists c, tx. by split_and!.
Defined.
