(* ===== verification/Demo.v ===== *)
(** cmd/demo/main.go: ten goroutines seal and submit a trade each to an
    in-process TxQueue; the program then drains, decrypts and prints them, and
    checks that the IDs increase.

    The queue is the transition system of [TxQueue]: client [i] is its call
    [i], and the program's DrainWait is its drain 0.  [dpayloads] is history:
    the payload each client sealed. *)

From Stdlib Require Import SpecFloat.
From S2P Require Import Prelude GoStrings Commitment CMemory Decryption Privacy TxQueue TxQueueInv.

(** ** Payloads *)

(** The conversion of an int to float64, and addition. *)
Definition float64 (z : Z) : spec_float := binary_normalize 53 1024 z 0 false.
Definition float64_add (x y : spec_float) : spec_float := SFadd 53 1024 x y.

(** [fmt.Sprintf "%02d"] *)
Definition fmt_02d (z : Z) : bytes := replicate (2 - length (fmt_d z)) x30 ++ fmt_d z.

(** [fmt.Sprintf("TRADE|%02d|BUY|ETH/USDC|%.6f|%.6f|%d", ...)] *)
Definition demo_payload (clientID : nat) (now : Z) : bytes :=
  let c := Z.of_nat clientID in
  str "TRADE|" ++ fmt_02d c ++ str "|BUY|ETH/USDC|" ++ fmt_f (float64 c) ++ pipe ::
  fmt_f (float64_add (float64 3000) (float64 c)) ++ pipe :: fmt_d now.

Definition numClients : nat := 10.
Definition demo_batchSize : Z := Z.of_nat numClients.
Definition queueCap : Z := 64.

(** ** The check of the order *)

(** The loop at the end: every ID above its predecessor. *)
Fixpoint fifo_check (batch : list EncryptedTransaction) : bool :=
  match batch with
  | tx :: (tx' :: _) as rest => if (ID tx' <=? ID tx)%Z then false else fifo_check rest
  | _ => true
  end.

(** ** The program *)

Inductive demo_error := SealFailed (e : privacy_error) | SubmitFailed (e : q_error).

Inductive demo_client := DStart | DSubmit | DDone (e : option demo_error).

(** A row of the table. *)
Record demo_row := MkRow { row_id : Z; row_prefix : bytes; row_plaintext : bytes; row_arrived : Z }.

(** What main prints: the error of DrainWait, the table, the verdict. *)
Record demo_report := MkReport { drain_err : option q_error; rows : list demo_row; fifo : bool }.

(** main: waiting for the clients, in DrainWait, or finished. *)
Inductive demo_main_pc := MWait | MDrain | MPrinted (r : demo_report).

Record demo := Demo {
  dqueue : TxQueue;
  dclients : gmap nat demo_client;
  dmain : demo_main_pc;
  dmem : cmem;
  dpayloads : gmap nat bytes
}.

(** The contexts: context.Background() of the clients, and the one with the
    timeout. *)
Definition background : nat := 0.
Definition timeout_ctx : nat := 1.

(** The events of the queue that the program leaves to the queue's goroutines
    and to the two contexts. *)
Definition queue_event (e : event) : bool :=
  match e with
  | ESubmit _ _ _ | EDrainWait _ _ _ | EDrain _ _ | EClose => false
  | ECtxDone x _ => negb (x =? background)
  | _ => true
  end.

Section demo.
Context (seal : nat → bytes → bytes → option bytes) (seal_open : bytes → bytes → bytes → option bytes).

(** Before the goroutines: the queue, libsodium and the keys.  [init] and
    [again] are the results of the two calls of sodium_init(). *)
Definition demo_start (init again : Z) (pair : Z * (bytes * bytes)) (m : cmem)
  : option (res privacy_error (bytes * bytes * demo)) :=
  q ← NewTxQueue queueCap;
  match Init init with
  | Some e => Some (Err e)
  | None =>
      '(r, m) ← GenerateSequencerKeys again pair m;
      match r with
      | Err e => Some (Err e)
      | Ok (pubKey, secKey) =>
          Some (Ok (pubKey, secKey, Demo q (gset_to_gmap DStart (list_to_set (seq 1 numClients))) MWait m ∅))
      end
  end.

Context (pubKey secKey : bytes).

Definition decrypt_error : bytes := str "<decrypt-error>".

(** The rows of the table; decrypting threads the C memory. *)
Fixpoint print_rows (batch : list EncryptedTransaction) (m : cmem) : option (list demo_row * cmem) :=
  match batch with
  | [] => Some ([], m)
  | tx :: batch =>
      '(r, m) ← DecryptSingle seal_open (Ciphertext tx) pubKey secKey m;
      let plaintext := match r with Ok p => p | Err _ => decrypt_error end in
      let prefix := take 24 (Ciphertext tx) in
      '(rows, m) ← print_rows batch m;
      Some (MkRow (ID tx) prefix plaintext (ArrivedAt tx) :: rows, m)
  end.

(** The goroutine of client [i], up to and including its call of Submit. *)
Definition client_submits (i : nat) (now : Z) (s : demo) : option demo :=
  c ← dclients s !! i;
  match c with
  | DStart =>
      let payload := demo_payload i now in
      '(r, m) ← SealTransaction (seal i) payload pubKey (dmem s);
      match r with
      | Err e => Some (Demo (dqueue s) (<[i := DDone (Some (SealFailed e))]> (dclients s)) (dmain s) m (dpayloads s))
      | Ok ciphertext =>
          q ← step (ESubmit i background ciphertext) (dqueue s);
          Some (Demo q (<[i := DSubmit]> (dclients s)) (dmain s) m (<[i := payload]> (dpayloads s)))
      end
  | _ => None
  end.

(** Submit returns to client [i], which prints its error if there is one. *)
Definition client_returns (i : nat) (s : demo) : option demo :=
  c ← dclients s !! i;
  k ← calls (dqueue s) !! i;
  match c, sc_pc k with
  | DSubmit, SReturned r =>
      Some (Demo (dqueue s) (<[i := DDone (SubmitFailed <$> Submit r)]> (dclients s)) (dmain s)
              (dmem s) (dpayloads s))
  | _, _ => None
  end.

Definition client_done (c : demo_client) : bool := match c with DDone _ => true | _ => false end.

(** wg.Wait() is over, and DrainWait is called. *)
Definition main_drains (s : demo) : option demo :=
  match dmain s with
  | MWait =>
      if decide (map_Forall (λ _ c, client_done c = true) (dclients s)) then
        q ← step (EDrainWait 0 timeout_ctx demo_batchSize) (dqueue s);
        Some (Demo q (dclients s) MDrain (dmem s) (dpayloads s))
      else None
  | _ => None
  end.

(** DrainWait has returned: the table and the check. *)
Definition main_prints (s : demo) : option demo :=
  match dmain s with
  | MDrain =>
      k ← drains (dqueue s) !! 0;
      err ← d_ret k;
      '(rows, m) ← print_rows (d_batch k) (dmem s);
      Some (Demo (dqueue s) (dclients s) (MPrinted (MkReport err rows (fifo_check (d_batch k)))) m (dpayloads s))
  | _ => None
  end.

(** Any other action on the queue. *)
Definition queue_acts (e : event) (s : demo) : option demo :=
  if queue_event e then
    q ← step e (dqueue s); Some (Demo q (dclients s) (dmain s) (dmem s) (dpayloads s))
  else None.

Inductive demo_event :=
| DSeal (i : nat) (now : Z) | DQueue (e : event) | DReturn (i : nat) | DDrain | DPrint.

Definition demo_step (e : demo_event) (s : demo) : option demo :=
  match dmain s with
  | MPrinted _ => None
  | _ =>
      match e with
      | DSeal i now => client_submits i now s
      | DQueue e => queue_acts e s
      | DReturn i => client_returns i s
      | DDrain => main_drains s
      | DPrint => main_prints s
      end
  end.

Fixpoint demo_run (es : list demo_event) (s : demo) : option demo :=
  match es with
  | [] => Some s
  | e :: es => s ← demo_step e s; demo_run es s
  end.
End demo.

(** ** A queue whose calls submit sealed payloads *)

Section sealed.
Context (seal : nat → bytes → bytes → option bytes) (pubKey : bytes).

(** Call [c] submitted its payload in [pays], sealed. *)
Definition sealed_for (pays : gmap nat bytes) (c : nat) (ct : bytes) : Prop :=
  ∃ p, pays !! c = Some p ∧ seal c p pubKey = Some ct.

Definition sealed_calls (pays : gmap nat bytes) (q : TxQueue) : Prop :=
  ∀ c k, calls q !! c = Some k → sealed_for pays c (sc_payload k).

(** Only ESubmit adds a call. *)
Lemma calls_old e q q' c :
  step e q = Some q' → calls q !! c = None →
  match e with
  | ESubmit c' x p => calls q' !! c = if decide (c = c') then Some (Call x p SSend None) else None
  | _ => calls q' !! c = None
  end.
Proof.
  unfold step. destruct (panicked q); [done|]. intros H Hn.
  destruct e as [c' x p|c' b|b|d x n|d n|d b|c'|d| |x e];
    unfold submit_begin, submit_step, admission_step, reject_step, drain_begin, drain_step,
      rv_submit, rv_deliver, Close, close_ch in H; invert_step; cbn in *; try done.
  all: try (by repeat case_match).
  all: rewrite ?lookup_insert, ?lookup_alter; repeat case_decide; simplify_eq; rewrite ?Hn; try done; congruence.
Qed.

Lemma sealed_calls_submit c x ct pays q q' p :
  sealed_calls pays q → calls q !! c = None → seal c p pubKey = Some ct →
  step (ESubmit c x ct) q = Some q' → sealed_calls (<[c := p]> pays) q'.
Proof.
  intros Hs Hc Hp E c' k' Hk'. destruct (calls q !! c') as [k|] eqn:Hk.
  - destruct (calls_mono q q' c' k) as (k2 & Hk2 & Hpay & _); [by apply step_effect in E as [_ ?]|done|].
    simplify_eq. rewrite Hpay. destruct (Hs _ _ Hk) as (p' & Hp' & ?). exists p'.
    rewrite lookup_insert_ne; [done|]. intros ->. congruence.
  - apply (calls_old _ _ _ _ E) in Hk. rewrite Hk' in Hk. case_decide as Hcc; simplify_eq. cbn.
    exists p. by rewrite lookup_insert_eq.
Qed.

Lemma sealed_calls_step e pays q q' :
  sealed_calls pays q → (∀ c x ct, e ≠ ESubmit c x ct) → step e q = Some q' → sealed_calls pays q'.
Proof.
  intros Hs Hne E c k' Hk'. destruct (calls q !! c) as [k|] eqn:Hk.
  - destruct (calls_mono q q' c k) as (k2 & Hk2 & Hpay & _); [by apply step_effect in E as [_ ?]|done|].
    simplify_eq. rewrite Hpay. by apply Hs.
  - apply (calls_old _ _ _ _ E) in Hk. destruct e; try congruence.
Qed.

(** What was received, transaction by transaction: each is the sealed payload of
    a call of its own. *)
Lemma received_sealed pays q :
  reachable q → sealed_calls pays q →
  ∃ order, NoDup order ∧ Forall2 (λ c tx, sealed_for pays c (Ciphertext tx)) order (recvd q).*2.
Proof.
  intros Hr Hs. destruct (inv_reachable q Hr) as [Hreq [Hp _] _ Hd _].
  set (l := take (length (recvd q)) (sent q)).
  assert (l.*2 = (recvd q).*2) as El.
  { unfold l. rewrite <- (length_fmap snd (recvd q)), fmap_take, (iv_split _ Hd). apply take_app_length. }
  exists l.*1. split.
  - destruct (ir_split _ Hreq) as (proc & Hacc & Hsub). pose proof (ir_nodup _ Hreq) as Hnd.
    rewrite Hacc in Hnd. apply NoDup_app in Hnd as [Hnd _]. eapply sublist_NoDup; [exact Hnd|].
    etrans; [|exact Hsub]. apply fmap_sublist. apply sublist_take.
  - rewrite <- El. assert (∀ c tx, (c, tx) ∈ l → sealed_for pays c (Ciphertext tx)) as Hl.
    { intros c tx Hin. destruct (Hp c tx) as (k & Hk & ->); [|by apply Hs].
      apply elem_of_app. left. eapply elem_of_subseteq; [|exact Hin].
      intros y. apply sublist_subseteq, sublist_take. }
    clear El. induction l as [|[c tx] l IH]; cbn; constructor.
    + apply Hl. by left.
    + apply IH. intros. apply Hl. by right.
Qed.
End sealed.
