(* ===== verification/DemoProps.v ===== *)
(** What the demo shows: every row is the payload of a client of its own, in
    increasing order of IDs, so the order check that it prints always holds. *)

From Stdlib Require Import SpecFloat.
From S2P Require Import Prelude GoStrings Commitment CMemory Decryption DecryptionInv DecryptionProps.
From S2P Require Import Privacy PrivacyProps TxQueue TxQueueInv TxQueueProps OrderedLog Demo.

(** ** The order check *)

Lemma fifo_check_sorted batch : fifo_check batch = true ↔ StronglySorted Z.lt (ID <$> batch).
Proof.
  induction batch as [|tx batch IH]; [split; [constructor|done]|].
  destruct batch as [|tx' batch]; [split; [repeat constructor|done]|].
  change (fifo_check (tx :: tx' :: batch)) with
    (if (ID tx' <=? ID tx)%Z then false else fifo_check (tx' :: batch)).
  destruct (Z.leb_spec (ID tx') (ID tx)) as [Hle|Hlt].
  - split; [done|]. intros H. inversion H as [|? ? _ HF]; subst. apply Forall_cons in HF as [? _]. lia.
  - rewrite IH. split; intros H.
    + constructor; [done|]. inversion H as [|? ? _ HF]; subst. constructor; [done|].
      eapply Forall_impl; [exact HF|]. cbn. lia.
    + by inversion H.
Qed.

(** ** Lengths *)

Lemma dec_digits_length fuel n acc : length (dec_digits fuel n acc) ≤ fuel + length acc.
Proof.
  revert n acc. induction fuel as [|fuel IH]; intros n acc; cbn [dec_digits]; [lia|].
  cbn zeta. case_match; [cbn; lia|]. etrans; [apply IH|]. cbn. lia.
Qed.

Lemma fmt_d_length z : is_int64 z → length (fmt_d z) ≤ 66.
Proof.
  unfold is_int64, fmt_d. intros Hz.
  assert (∀ n, (0 ≤ n ≤ 2 ^ 63)%Z → S (Z.to_nat (Z.log2 n)) ≤ 65) as Hlog.
  { intros n Hn. assert (Z.log2 n ≤ Z.log2 (2 ^ 63))%Z as H by (apply Z.log2_le_mono; lia).
    rewrite Z.log2_pow2 in H by lia. lia. }
  destruct (Z.ltb_spec z 0).
  - cbn [length]. pose proof (dec_digits_length (S (Z.to_nat (Z.log2 (- z)))) (- z) []). cbn [length] in *.
    specialize (Hlog (- z)%Z). lia.
  - pose proof (dec_digits_length (S (Z.to_nat (Z.log2 z))) z []). cbn [length] in *. specialize (Hlog z). lia.
Qed.

Lemma demo_payload_length i now : i ∈ seq 1 numClients → is_int64 now → length (demo_payload i now) ≤ 200.
Proof.
  intros Hi Hn%fmt_d_length. unfold demo_payload.
  assert (Forall (λ c, length (str "TRADE|" ++ fmt_02d (Z.of_nat c) ++ str "|BUY|ETH/USDC|" ++
    fmt_f (float64 (Z.of_nat c)) ++ pipe :: fmt_f (float64_add (float64 3000) (float64 (Z.of_nat c))) ++ [pipe]) ≤ 100)
    (seq 1 numClients)) as HF by (apply (bool_decide_eq_true_1 _); vm_compute; reflexivity).
  rewrite Forall_forall in HF. specialize (HF i Hi). rewrite !length_app in *. cbn [length] in *.
  rewrite !length_app in *. cbn [length] in *. lia.
Qed.

(** ** The program *)

Section demo.
Context (seal : nat → bytes → bytes → option bytes) (seal_open : bytes → bytes → bytes → option bytes).
Context (seal_length : ∀ i msg pk c, seal i msg pk = Some c → length c = length msg + 48).
Context (seal_open_length : ∀ c pk sk msg, seal_open c pk sk = Some msg → length c = length msg + 48).
Context (pk sk : bytes) (pk_length : length pk = 32) (sk_length : length sk = 32).
(** libsodium's promise for the keypair. *)
Context (seal_open_seal : ∀ i msg c, seal i msg pk = Some c → seal_open c pk sk = Some msg).

(** A payload that client [i] built. *)
Definition built (i : nat) (p : bytes) : Prop :=
  i ∈ seq 1 numClients ∧ ∃ now, is_int64 now ∧ p = demo_payload i now.

Lemma built_open i p ct m :
  built i p → seal i p pk = Some ct → DecryptSingle seal_open ct pk sk m = Some (Ok p, m).
Proof.
  intros (Hi & now & Hnow & ->) Es. pose proof (demo_payload_length i now Hi Hnow) as Hl.
  pose proof (seal_length _ _ _ _ Es) as Hc.
  assert (length (demo_payload i now) ≠ 0) by done.
  rewrite (DecryptSingle_spec _ seal_open_length) by (done || unfold fits; lia).
  unfold single_spec, item_out. rewrite decide_False, decide_True by lia. by rewrite (seal_open_seal _ _ _ Es).
Qed.

Lemma print_rows_spec pays order batch m :
  (∀ i p, pays !! i = Some p → built i p) →
  Forall2 (λ c tx, sealed_for seal pk pays c (Ciphertext tx)) order batch →
  ∃ rows, print_rows seal_open pk sk batch m = Some (rows, m) ∧
    row_id <$> rows = ID <$> batch ∧ Forall2 (λ i row, built i (row_plaintext row)) order rows.
Proof.
  intros Hb. induction 1 as [|c tx order batch (p & Hp & Es) _ (rows & E & Hid & Hrows)]; cbn [print_rows].
  - exists []. split_and!; [done..|constructor].
  - rewrite (built_open c p _ m (Hb _ _ Hp) Es). cbn [mbind option_bind]. rewrite E. cbn [mbind option_bind].
    eexists. split; [done|]. rewrite !fmap_cons, Hid. split; [done|]. constructor; [|done]. cbn. by apply Hb.
Qed.

Record demo_inv (m0 : cmem) (s : demo) : Prop := {
  di_reach : reachable (dqueue s);
  di_sealed : sealed_calls seal pk (dpayloads s) (dqueue s);
  di_mem : dmem s = m0;
  di_ids : dom (dclients s) = list_to_set (seq 1 numClients);
  di_built : ∀ i p, dpayloads s !! i = Some p → built i p;
  di_drains : ∀ d k, drains (dqueue s) !! d = Some k →
    d = 0 ∧ d_ctx k = Some timeout_ctx ∧ d_size k = demo_batchSize;
  di_printed : ∀ r, dmain s = MPrinted r → ∃ k,
    drains (dqueue s) !! 0 = Some k ∧ d_ret k = Some (drain_err r) ∧
    print_rows seal_open pk sk (d_batch k) m0 = Some (rows r, m0) ∧ fifo r = fifo_check (d_batch k)
}.

(** The drain's batch is all that was received. *)
Lemma demo_batch q k :
  reachable q → (∀ d k, drains q !! d = Some k → d = 0) → drains q !! 0 = Some k → d_batch k = (recvd q).*2.
Proof.
  intros Hr H0 Hk. destruct (inv_reachable q Hr) as [_ _ _ Hd _]. rewrite (iv_batch _ Hd _ _ Hk). f_equal.
  assert (∀ p, p ∈ recvd q → p.1 = 0) as Hall.
  { intros [d tx] Hin. destruct (iv_known _ Hd d tx Hin) as [k' Hk']. by eapply H0. }
  induction (recvd q) as [|p l IH]; [done|]. rewrite filter_cons_True by (apply Hall; by left).
  f_equal. apply IH. intros. apply Hall. by right.
Qed.

(** Drains of the queue across one of its own steps. *)
Lemma queue_event_drains e q q' :
  queue_event e = true → step e q = Some q' →
  (∀ d k, drains q !! d = Some k → d = 0 ∧ d_ctx k = Some timeout_ctx ∧ d_size k = demo_batchSize) →
  ∀ d k, drains q' !! d = Some k → d = 0 ∧ d_ctx k = Some timeout_ctx ∧ d_size k = demo_batchSize.
Proof.
  intros He E Hd d k' Hk'. destruct (drains q !! d) as [k|] eqn:Hk.
  - destruct (drains_mono q q' d k) as (k2 & Hk2 & Hx & Hz & _); [by apply step_effect in E as [_ ?]|done|].
    simplify_eq. rewrite Hx, Hz. by apply Hd.
  - pose proof (drains_old _ _ _ _ E Hk) as H. destruct e; try done; congruence.
Qed.

Definition now_ok (e : demo_event) : Prop := match e with DSeal _ now => is_int64 now | _ => True end.
#[global] Instance now_ok_dec e : Decision (now_ok e) := ltac:(destruct e; unfold now_ok, is_int64; apply _).

Lemma demo_ids s i c (cl : demo_client) :
  dom (dclients s) = list_to_set (seq 1 numClients) → dclients s !! i = Some c →
  i ∈ seq 1 numClients ∧ dom (<[i := cl]> (dclients s)) = (list_to_set (seq 1 numClients) : gset nat).
Proof.
  intros Hids Hc. apply elem_of_dom_2 in Hc. split.
  - rewrite Hids in Hc. by apply elem_of_list_to_set in Hc.
  - rewrite dom_insert_L, <- Hids. set_solver.
Qed.

Lemma submit_fresh c x ct q q' : step (ESubmit c x ct) q = Some q' → calls q !! c = None ∧ drains q' = drains q.
Proof.
  unfold step, submit_begin. destruct (panicked q); [done|]. destruct (calls q !! c); [done|]. by intros [= <-].
Qed.

Definition running (s : demo) : Prop := ∀ r, dmain s ≠ MPrinted r.

Lemma client_submits_inv m0 i now s s' :
  running s → is_int64 now → demo_inv m0 s → client_submits seal pk i now s = Some s' → demo_inv m0 s'.
Proof.
  intros Hrun Hnow [Hr Hs Hm Hids Hb Hd _] E. apply bind_Some in E as (c & Hc & E). destruct c; [|done..].
  destruct (demo_ids s i _ DSubmit Hids Hc) as [Hi Hdom].
  cbv zeta in E. rewrite (SealTransaction_out _ (seal_length i)) in E by done. cbn [mbind option_bind] in E.
  destruct (seal i (demo_payload i now) pk) as [ct|] eqn:Es.
  - apply bind_Some in E as (q & E & [= <-]). destruct (submit_fresh _ _ _ _ _ E) as [Hfr Hdr].
    split; cbn; try done.
    + by econstructor.
    + by eapply sealed_calls_submit.
    + intros i' p. rewrite lookup_insert. case_decide; [|apply Hb]. intros [= <-]. subst. by split; [|eexists].
    + by rewrite Hdr.
    + intros r Hr'. by destruct (Hrun r).
  - injection E as <-. split; cbn; try done; [by eapply demo_ids|]. intros r Hr'. by destruct (Hrun r).
Qed.

Lemma queue_acts_inv m0 e s s' :
  running s → demo_inv m0 s → queue_acts e s = Some s' → demo_inv m0 s'.
Proof.
  intros Hrun [Hr Hs Hm Hids Hb Hd _] E. unfold queue_acts in E. destruct (queue_event e) eqn:He; [|done].
  apply bind_Some in E as (q & E & [= <-]). split; cbn; try done.
  - by econstructor.
  - eapply sealed_calls_step; [done| |done]. by intros c x ct ->.
  - by eapply queue_event_drains.
  - intros r Hr'. by destruct (Hrun r).
Qed.

Lemma client_returns_inv m0 i s s' :
  running s → demo_inv m0 s → client_returns i s = Some s' → demo_inv m0 s'.
Proof.
  intros Hrun [Hr Hs Hm Hids Hb Hd _] E.
  apply bind_Some in E as (c & Hc & (k & Hk & E)%bind_Some). destruct c; [done| |done].
  destruct (sc_pc k); [done..|]. injection E as <-.
  split; cbn; try done; [by eapply demo_ids|]. intros ? Hr'. by destruct (Hrun _ Hr').
Qed.

Lemma main_drains_inv m0 s s' : demo_inv m0 s → main_drains s = Some s' → demo_inv m0 s'.
Proof.
  intros [Hr Hs Hm Hids Hb Hd _] E. unfold main_drains in E. destruct (dmain s); [|done..].
  case_decide; [|done]. apply bind_Some in E as (q & E & [= <-]). split; cbn; try done.
  - by econstructor.
  - by eapply sealed_calls_step; [| |exact E].
  - intros d k Hk. destruct (drains (dqueue s) !! d) as [k0|] eqn:Hk0.
    + destruct (drains_mono (dqueue s) q d k0) as (k2 & Hk2 & Hx & Hz & _);
        [by apply step_effect in E as [_ ?]|done|]. simplify_eq. rewrite Hx, Hz. by apply Hd.
    + pose proof (drains_old _ _ _ _ E Hk0) as H1. cbn in H1. rewrite Hk in H1. case_decide; by simplify_eq.
Qed.

Lemma main_prints_inv m0 s s' : demo_inv m0 s → main_prints seal_open pk sk s = Some s' → demo_inv m0 s'.
Proof.
  intros [Hr Hs Hm Hids Hb Hd _] E. unfold main_prints in E. destruct (dmain s); [done| |done].
  apply bind_Some in E as (k & Hk & (err & He & ([rws m] & Hrows & [= <-])%bind_Some)%bind_Some).
  destruct (received_sealed seal pk _ _ Hr Hs) as (order & _ & Hord).
  rewrite <- (demo_batch _ k Hr) in Hord by (done || intros; by eapply Hd).
  destruct (print_rows_spec _ _ _ (dmem s) Hb Hord) as (rws' & Hp & _). rewrite Hp in Hrows. simplify_eq.
  split; cbn; try done. intros r [= <-]. by exists k.
Qed.

Lemma demo_step_inv m0 e s s' :
  now_ok e → demo_inv m0 s → demo_step seal seal_open pk sk e s = Some s' → demo_inv m0 s'.
Proof.
  intros Hnow Hi E. unfold demo_step in E.
  assert (running s) as Hrun by (intros r Hr; by rewrite Hr in E).
  destruct (dmain s); [| |done]; destruct e; eauto using client_submits_inv, queue_acts_inv, client_returns_inv,
    main_drains_inv, main_prints_inv.
Qed.

Lemma demo_run_inv m0 es s s' :
  Forall now_ok es → demo_inv m0 s → demo_run seal seal_open pk sk es s = Some s' → demo_inv m0 s'.
Proof.
  intros Hes. revert s. induction Hes as [|e es He _ IH]; intros s Hi; cbn; [by intros [= <-]|].
  intros (s1 & E & Hrun)%bind_Some. eapply IH; [|done]. by eapply demo_step_inv.
Qed.

(** The rows of a printed table, and how many there can be. *)
Lemma demo_table_rows m0 s r :
  demo_inv m0 s → dmain s = MPrinted r → (stamps (dqueue s) < 2 ^ 64)%Z →
  ∃ order, NoDup order ∧ Forall2 (λ i row, built i (row_plaintext row)) order (rows r) ∧
    StronglySorted Z.lt (row_id <$> rows r) ∧ fifo r = true ∧
    (drain_err r = None → length (rows r) = numClients).
Proof.
  intros [Hr Hs Hm Hids Hb Hd Hpr] Hmain Hlt. destruct (Hpr r Hmain) as (k & Hk & Hret & Hp & Hf).
  destruct (received_sealed seal pk _ _ Hr Hs) as (order & Hnd & Hord).
  rewrite <- (demo_batch _ k Hr) in Hord by (done || intros; by eapply Hd).
  destruct (print_rows_spec _ _ _ m0 Hb Hord) as (rws & Hp' & Hid & Hrows). rewrite Hp in Hp'. simplify_eq.
  assert (StronglySorted Z.lt (ID <$> d_batch k)) as Hsort.
  { destruct (inv_reachable _ Hr) as [_ _ Hi Hdl _]. destruct (ii_sorted _ Hi Hlt) as [H _].
    rewrite !fmap_app, (iv_split _ Hdl), fmap_app, <- app_assoc in H. apply StronglySorted_app_1_l in H.
    by rewrite (demo_batch _ k Hr) by (done || intros; by eapply Hd). }
  exists order. split_and!; [done|done|by rewrite Hid|by rewrite Hf; apply fifo_check_sorted|].
  intros Hnone. rewrite <- (length_fmap row_id), Hid, length_fmap.
  destruct (Hd _ _ Hk) as (_ & Hx & Hsz). rewrite Hnone in Hret.
  destruct (inv_reachable _ Hr) as [_ _ _ Hdl _].
  pose proof (iv_full _ Hdl _ _ _ Hk Hret Hx). pose proof (iv_size _ Hdl _ _ Hk).
  rewrite Hsz in *. unfold demo_batchSize, numClients in *. lia.
Qed.

Lemma full_permutation (order l : list nat) :
  NoDup order → NoDup l → (∀ i, i ∈ order → i ∈ l) → length l ≤ length order → order ≡ₚ l.
Proof. intros. by apply submseteq_length_Permutation; [apply NoDup_submseteq|]. Qed.

(** The demo.  However the clients and the queue's goroutines interleave,
    the table that the demo prints shows payloads of distinct clients in
    increasing order of sequence ID, with no decryption error, and the order
    check prints true; and if DrainWait reports no error, the table shows the
    payload of every one of the ten clients exactly once. *)
Theorem demo_table init again pair m0 s0 es s r :
  demo_start init again pair m0 = Some (Ok (pk, sk, s0)) →
  Forall now_ok es → demo_run seal seal_open pk sk es s0 = Some s → dmain s = MPrinted r →
  (stamps (dqueue s) < 2 ^ 64)%Z →
  fifo r = true ∧ StronglySorted Z.lt (row_id <$> rows r) ∧
  ∃ order, NoDup order ∧ Forall2 (λ i row, built i (row_plaintext row)) order (rows r) ∧
    (drain_err r = None → order ≡ₚ seq 1 numClients).
Proof.
  intros Hst Hes Hrun Hmain Hlt.
  assert (demo_inv (dmem s0) s0) as Hi0.
  { unfold demo_start in Hst. apply bind_Some in Hst as (q & Hq & Hst). destruct (Init init); [done|].
    apply bind_Some in Hst as ([[[? ?]|?] m] & _ & Hst); [|done]. injection Hst as -> -> <-.
    split; cbn; try done.
    - by eapply reachable_new.
    - unfold NewTxQueue in Hq. case_match; simplify_eq. by intros c k.
    - unfold NewTxQueue in Hq. case_match; simplify_eq. by intros d k. }
  pose proof (demo_run_inv _ _ _ _ Hes Hi0 Hrun) as Hi.
  destruct (demo_table_rows _ _ _ Hi Hmain Hlt) as (order & Hnd & Hrows & Hsort & Hf & Hfull).
  split; [done|]. split; [done|]. exists order. split; [done|]. split; [done|]. intros Hnone.
  apply full_permutation; [done|apply NoDup_seq| |].
  - intros i [j Hj]%list_elem_of_lookup. destruct (Forall2_lookup_l _ _ _ _ _ Hrows Hj) as (row & _ & H & _). done.
  - rewrite length_seq. apply Forall2_length in Hrows. rewrite Hrows, Hfull by done. done.
Qed.
End demo.

(** ** Witness: the ten clients, one after the other *)

Definition one_client (i : nat) : list demo_event :=
  DSeal i 1700000000 ::
  (DQueue <$> [ECall i SendReq; EAdmission LoopRecv; EAdmission (CheckDefault 5); EAdmission CommitCh;
               ECall i RecvResp]) ++ [DReturn i].

Definition demo_events : list demo_event :=
  (seq 1 numClients ≫= one_client) ++ [DDrain] ++ (DQueue <$> replicate 10 (EDrainCall 0 DRecv) ++ [EDrainCall 0 DFull]) ++
  [DPrint].

Definition demo_key_pair : Z * (bytes * bytes) := (0%Z, (sample_pk, sample_sk)).

(** The queue and the clients when the demo starts. *)
Definition sample_demo : demo :=
  match demo_start 0 1 demo_key_pair ∅ with
  | Some (Ok (_, _, s)) => s
  | _ => Demo (empty_queue 64) ∅ MWait ∅ ∅
  end.

Definition demo_end : demo :=
  default sample_demo (demo_run (λ _, toy_seal32) toy_open sample_pk sample_sk demo_events sample_demo).

Definition printed (s : demo) : demo_report :=
  match dmain s with MPrinted r => r | _ => MkReport None [] false end.

Lemma demo_table_witness :
  fifo (printed demo_end) = true ∧ row_id <$> rows (printed demo_end) = [1; 2; 3; 4; 5; 6; 7; 8; 9; 10]%Z ∧
  ∃ order, order ≡ₚ seq 1 numClients ∧
    Forall2 (λ i row, built i (row_plaintext row)) order (rows (printed demo_end)).
Proof.
  assert (demo_start 0 1 demo_key_pair ∅ = Some (Ok (sample_pk, sample_sk, sample_demo))) as H0 by (vm_compute; reflexivity).
  assert (demo_run (λ _, toy_seal32) toy_open sample_pk sample_sk demo_events sample_demo = Some demo_end)
    as H1 by (vm_compute; reflexivity).
  assert (dmain demo_end = MPrinted (printed demo_end)) as H2 by (vm_compute; reflexivity).
  destruct (demo_table (λ _, toy_seal32) toy_open (λ _, toy_seal32_length) toy_open_length sample_pk sample_sk
    eq_refl eq_refl (λ _, toy_open_seal32) 0 1 demo_key_pair ∅ sample_demo demo_events demo_end (printed demo_end) H0)
    as (Hf & _ & order & _ & Hrows & Hall); [|done|done|vm_compute; reflexivity|].
  - apply (bool_decide_eq_true_1 _). vm_compute. reflexivity.
  - split; [done|]. split; [vm_compute; reflexivity|]. exists order. split; [|done].
    apply Hall. vm_compute. reflexivity.
Defined.
