(* ===== verification/LiveDemo.v ===== *)
(** cmd/live-demo/main.go: one goroutine submits fifty random trades to an
    in-process TxQueue while the main loop, at every tick, drains up to five
    transactions for at most 100 ms, decrypts and displays them.  The mutex is
    held by main from the tick to the end of the display. *)

From Stdlib Require Import SpecFloat.
From S2P Require Import Prelude GoStrings Commitment CMemory Decryption Privacy TxQueue TxQueueInv Demo.

(** ** Payloads *)

(** [%.pf]: [p] digits after the point, correctly rounded. *)
Definition scaled (p : Z) (m : positive) (e : Z) : Z :=
  if (0 <=? e)%Z then (Z.pos m * 2 ^ e * 10 ^ p)%Z
  else round_half_even (Z.pos m * 10 ^ p) (2 ^ (- e)).

Definition fmt_fp (p : nat) (x : spec_float) : bytes :=
  let unit := (10 ^ Z.of_nat p)%Z in
  let fixed neg n :=
    let frac := fmt_d (n mod unit)%Z in
    sign_bytes neg ++ fmt_d (n / unit)%Z ++
    (if decide (p = 0) then [] else x2e :: replicate (p - length frac) x30 ++ frac) in
  match x with
  | S754_zero s => fixed s 0%Z
  | S754_finite s m e => fixed s (scaled (Z.of_nat p) m e)
  | S754_infinity s => (if s then x2d else x2b) :: str "Inf"
  | S754_nan => str "NaN"
  end.

(** The results of rand.Intn for one trade, and the clock. *)
Record trade := {
  intn_client : nat;   (* below 20 *)
  intn_side : nat;     (* below 2 *)
  intn_pair : nat;     (* below 3 *)
  intn_amount : nat;   (* below 100 *)
  intn_price : nat;    (* below 5000 *)
  trade_now : Z
}.

Definition trade_client (t : trade) : Z := (Z.of_nat (intn_client t) + 1)%Z.
Definition tradeType (t : trade) : option bytes := [str "BUY"; str "SELL"] !! intn_side t.
Definition trade_pair (t : trade) : option bytes :=
  [str "ETH/USDC"; str "BTC/USDC"; str "SOL/USDC"] !! intn_pair t.
Definition trade_amount (t : trade) : spec_float := float64 (Z.of_nat (intn_amount t) + 1).
Definition trade_price (t : trade) : spec_float :=
  float64_add (float64 1000) (float64 (Z.of_nat (intn_price t))).

(** [fmt.Sprintf("TRADE|%02d|%s|%s|%.2f|%.2f|%d", ...)]; an index out of range
    panics. *)
Definition live_payload (t : trade) : option bytes :=
  side ← tradeType t; pair ← trade_pair t;
  Some (str "TRADE|" ++ fmt_02d (trade_client t) ++ pipe :: side ++ pipe :: pair ++ pipe ::
        fmt_fp 2 (trade_amount t) ++ pipe :: fmt_fp 2 (trade_price t) ++ pipe :: fmt_d (trade_now t)).

(** [fmt.Sprintf("Client %02d | %s %s | %.2f @ %.0f", ...)] *)
Definition live_info (t : trade) : option bytes :=
  side ← tradeType t; pair ← trade_pair t;
  Some (str "Client " ++ fmt_02d (trade_client t) ++ str " | " ++ side ++ str " " ++ pair ++ str " | " ++
        fmt_fp 2 (trade_amount t) ++ str " @ " ++ fmt_fp 0 (trade_price t)).

(** ** The program *)

(** The submitting goroutine: at the head of iteration [i], in Submit, about to
    lock the mutex, or past its loop. *)
Inductive submitter_pc :=
| LNext (i : nat)
| LCall (i : nat) (t : trade)
| LLock (i : nat) (t : trade)
| LOver.

(** main: waiting for a tick, in DrainWait call [d] with the mutex held, or
    past its loop. *)
Inductive live_main_pc := LTick | LDrain (d : nat) | LStop.

(** What the display shows of a transaction. *)
Record shown := MkShown { shown_id : Z; shown_text : bytes }.

(** [ticks] counts the DrainWait calls so far; [displayed], [infos] and
    [lpayloads] are history: all that was displayed, all txInfo strings, and the
    payload of each iteration. *)
Record live := Live {
  lqueue : TxQueue;
  lsub : submitter_pc;
  lmain : live_main_pc;
  ticks : nat;
  submitted : nat;
  processed : nat;
  transactions : list bytes;
  lmem : cmem;
  displayed : list shown;
  infos : list bytes;
  lpayloads : gmap nat bytes
}.

Definition set_lqueue (q : TxQueue) (s : live) : live :=
  Live q (lsub s) (lmain s) (ticks s) (submitted s) (processed s) (transactions s) (lmem s)
    (displayed s) (infos s) (lpayloads s).
Definition set_lsub (p : submitter_pc) (s : live) : live :=
  Live (lqueue s) p (lmain s) (ticks s) (submitted s) (processed s) (transactions s) (lmem s)
    (displayed s) (infos s) (lpayloads s).
Definition set_lmem (m : cmem) (s : live) : live :=
  Live (lqueue s) (lsub s) (lmain s) (ticks s) (submitted s) (processed s) (transactions s) m
    (displayed s) (infos s) (lpayloads s).
Definition log_payload (i : nat) (p : bytes) (s : live) : live :=
  Live (lqueue s) (lsub s) (lmain s) (ticks s) (submitted s) (processed s) (transactions s) (lmem s)
    (displayed s) (infos s) (<[i := p]> (lpayloads s)).
Definition begin_drain (s : live) : live :=
  Live (lqueue s) (lsub s) (LDrain (ticks s)) (S (ticks s)) (submitted s) (processed s) (transactions s)
    (lmem s) (displayed s) (infos s) (lpayloads s).
Definition display (sh : list shown) (s : live) : live :=
  let processed := processed s + length sh in
  Live (lqueue s) (lsub s) (if decide (50 ≤ processed) then LStop else LTick) (ticks s) (submitted s)
    processed (transactions s) (lmem s) (displayed s ++ sh) (infos s) (lpayloads s).

(** [transactions = append(transactions, txInfo)], and the window of 15. *)
Definition push_info (info : bytes) (s : live) : live :=
  let l := transactions s ++ [info] in
  Live (lqueue s) (lsub s) (lmain s) (ticks s) (S (submitted s)) (processed s)
    (if decide (15 < length l) then drop 1 l else l) (lmem s) (displayed s) (infos s ++ [info]) (lpayloads s).

Definition live_iterations : nat := 50.

Section live.
Context (seal : nat → bytes → bytes → option bytes) (seal_open : bytes → bytes → bytes → option bytes).

Definition live_start (init again : Z) (pair : Z * (bytes * bytes)) (m : cmem)
  : option (res privacy_error (bytes * bytes * live)) :=
  match Init init with
  | Some e => Some (Err e)
  | None =>
      '(r, m) ← GenerateSequencerKeys again pair m;
      match r with
      | Err e => Some (Err e)
      | Ok (pubKey, secKey) =>
          q ← NewTxQueue 256;
          Some (Ok (pubKey, secKey, Live q (LNext 1) LTick 0 0 0 [] m [] [] ∅))
      end
  end.

Context (pubKey secKey : bytes).

(** One iteration up to the call of Submit, or the end of the loop.  A seal
    error skips the rest of the iteration. *)
Definition submitter_seals (t : trade) (s : live) : option live :=
  match lsub s with
  | LNext i =>
      if decide (i ≤ live_iterations) then
        payload ← live_payload t;
        '(r, m) ← SealTransaction (seal i) payload pubKey (lmem s);
        match r with
        | Err _ => Some (set_lmem m (set_lsub (LNext (S i)) s))
        | Ok ciphertext =>
            q ← step (ESubmit i background ciphertext) (lqueue s);
            Some (set_lmem m (set_lqueue q (set_lsub (LCall i t) (log_payload i payload s))))
        end
      else Some (set_lsub LOver s)
  | _ => None
  end.

(** Submit returns; after an error the iteration ends. *)
Definition submitter_returns (s : live) : option live :=
  match lsub s with
  | LCall i t =>
      k ← calls (lqueue s) !! i;
      match sc_pc k with
      | SReturned r => Some (set_lsub (match Submit r with None => LLock i t | Some _ => LNext (S i) end) s)
      | _ => None
      end
  | _ => None
  end.

(** The critical section of the submitter: main must not hold the mutex. *)
Definition submitter_counts (s : live) : option live :=
  match lsub s, lmain s with
  | LLock i t, (LTick | LStop) =>
      info ← live_info t;
      Some (push_info info (set_lsub (LNext (S i)) s))
  | _, _ => None
  end.

(** A tick: main locks the mutex and calls DrainWait(ctx, 5); call [d] has a
    context of its own. *)
Definition main_ticks (s : live) : option live :=
  match lmain s with
  | LTick =>
      q ← step (EDrainWait (ticks s) (S (ticks s)) 5) (lqueue s);
      Some (begin_drain (set_lqueue q s))
  | _ => None
  end.

(** The loop over the batch; the error of DecryptSingle is ignored. *)
Fixpoint show_batch (batch : list EncryptedTransaction) (m : cmem) : option (list shown * cmem) :=
  match batch with
  | [] => Some ([], m)
  | tx :: batch =>
      '(r, m) ← DecryptSingle seal_open (Ciphertext tx) pubKey secKey m;
      let plaintext := match r with Ok p => p | Err _ => [] end in
      '(sh, m) ← show_batch batch m;
      Some (MkShown (ID tx) plaintext :: sh, m)
  end.

(** DrainWait returns, with or without an error: the display, the unlocking,
    and the test that ends the loop. *)
Definition main_displays (s : live) : option live :=
  match lmain s with
  | LDrain d =>
      k ← drains (lqueue s) !! d;
      _ ← d_ret k;
      '(sh, m) ← show_batch (d_batch k) (lmem s);
      Some (display sh (set_lmem m s))
  | _ => None
  end.

(** Any other action on the queue. *)
Definition live_queue (e : event) (s : live) : option live :=
  if queue_event e then q ← step e (lqueue s); Some (set_lqueue q s) else None.

Inductive live_event :=
| LSeal (t : trade) | LReturn | LCount | LTicks | LShow | LQueue (e : event).

Definition live_step (e : live_event) (s : live) : option live :=
  match e with
  | LSeal t => submitter_seals t s
  | LReturn => submitter_returns s
  | LCount => submitter_counts s
  | LTicks => main_ticks s
  | LShow => main_displays s
  | LQueue e => live_queue e s
  end.

Fixpoint live_run (es : list live_event) (s : live) : option live :=
  match es with
  | [] => Some s
  | e :: es => s ← live_step e s; live_run es s
  end.
End live.
