(* ===== verification/LiveProps.v ===== *)
(** What the live demo shows: payloads in increasing order of sequence IDs, each
    submission at most once, and all fifty when it ends; so the order check it
    prints without computing it is true. *)

From S2P Require Import Prelude GoStrings Commitment CMemory Decryption DecryptionInv DecryptionProps.
From S2P Require Import Privacy PrivacyProps TxQueue TxQueueInv TxQueueProps OrderedLog Demo DemoProps LiveDemo.

(** ** One drain at a time *)

(** When only drain [d] is active, what arrives is its batch. *)
Lemma active_receives e q q' d k :
  reachable q → step e q = Some q' →
  (∀ d' k', drains q !! d' = Some k' → d_ret k' = None → d' = d) → drains q !! d = Some k →
  ∃ k' new, drains q' !! d = Some k' ∧ d_batch k' = d_batch k ++ new ∧ (recvd q').*2 = (recvd q).*2 ++ new.
Proof.
  intros Hr E Hact Hk. pose proof (reachable_step _ _ _ Hr E) as Hr'. apply step_effect in E as [_ He].
  destruct (drains_mono _ _ _ _ He Hk) as (k' & Hk' & _).
  destruct (recvd_step _ _ He) as (new & Hrec & Hnew). exists k', new.*2.
  rewrite (iv_batch _ (i_deliver _ (inv_reachable _ Hr')) _ _ Hk').
  rewrite (iv_batch _ (i_deliver _ (inv_reachable _ Hr)) _ _ Hk).
  rewrite Hrec, filter_app, !fmap_app. split; [done|]. split; [|done]. f_equal. f_equal.
  clear Hrec. induction new as [|p new IH]; [done|]. rewrite filter_cons_True.
  - f_equal. apply IH. intros. apply Hnew. by right.
  - destruct (Hnew p) as (kp & ? & ?); [by left|]. by eapply Hact.
Qed.

(** When no drain is active, nothing arrives. *)
Lemma inactive_receives e q q' :
  step e q = Some q' → (∀ d k, drains q !! d = Some k → d_ret k ≠ None) → recvd q' = recvd q.
Proof.
  intros [_ He]%step_effect Hact. destruct (recvd_step _ _ He) as (new & -> & Hnew).
  destruct new as [|p new]; [apply app_nil_r|]. destruct (Hnew p) as (k & Hk & Hret); [by left|].
  by destruct (Hact _ _ Hk).
Qed.

(** A step keeps returned drains returned. *)
Lemma drains_after e q q' d k' :
  queue_event e = true → step e q = Some q' → drains q' !! d = Some k' →
  ∃ k, drains q !! d = Some k ∧ (d_ret k' = None → d_ret k = None).
Proof.
  intros He E Hk'. destruct (drains q !! d) as [k|] eqn:Hk.
  - exists k. split; [done|]. destruct (drains_mono q q' d k) as (k2 & Hk2 & _ & _ & Hret);
      [by apply step_effect in E as [_ ?]|done|]. simplify_eq. intros Hn.
    destruct (d_ret k) eqn:Hd; [|done]. rewrite Hret in Hn by done. congruence.
  - pose proof (drains_old _ _ _ _ E Hk) as H. destruct e; try done; congruence.
Qed.

(** ** The program *)

Section live.
Context (seal : nat → bytes → bytes → option bytes) (seal_open : bytes → bytes → bytes → option bytes).
Context (seal_length : ∀ i msg pk c, seal i msg pk = Some c → length c = length msg + 48).
Context (seal_open_length : ∀ c pk sk msg, seal_open c pk sk = Some msg → length c = length msg + 48).
Context (pk sk : bytes) (pk_length : length pk = 32) (sk_length : length sk = 32).
(** libsodium's promise for the keypair. *)
Context (seal_open_seal : ∀ i msg c, seal i msg pk = Some c → seal_open c pk sk = Some msg).

(** The batch of the drain that main waits for. *)
Definition current (s : live) : list EncryptedTransaction :=
  match lmain s with
  | LDrain d => match drains (lqueue s) !! d with Some k => d_batch k | None => [] end
  | _ => []
  end.

(** One more than the submissions so far. *)
Definition sub_bound (p : submitter_pc) : nat :=
  match p with LNext i | LCall i _ | LLock i _ => i | LOver => S live_iterations end.

Definition shows_tx (tx : EncryptedTransaction) (sh : shown) : Prop :=
  shown_id sh = ID tx ∧ seal_open (Ciphertext tx) pk sk = Some (shown_text sh).

Definition payload_ok (i : nat) (p : bytes) : Prop :=
  1 ≤ i ≤ live_iterations ∧ length p ≠ 0 ∧ (Z.of_nat (length p) < 2 ^ 31)%Z.

Record live_inv (m0 : cmem) (s : live) : Prop := {
  lv_reach : reachable (lqueue s);
  lv_sealed : sealed_calls seal pk (lpayloads s) (lqueue s);
  lv_mem : lmem s = m0;
  lv_payloads : ∀ i p, lpayloads s !! i = Some p → payload_ok i p;
  lv_sub : 1 ≤ sub_bound (lsub s) ≤ S live_iterations ∧
           ∀ i t, lsub s = LCall i t ∨ lsub s = LLock i t → i ≤ live_iterations;
  lv_drains : ∀ d k, drains (lqueue s) !! d = Some k → d_ret k = None → lmain s = LDrain d;
  lv_main : ∀ d, lmain s = LDrain d → is_Some (drains (lqueue s) !! d);
  lv_shown : ∃ txs, (recvd (lqueue s)).*2 = txs ++ current s ∧ Forall2 shows_tx txs (displayed s);
  lv_processed : processed s = length (displayed s);
  lv_stop : lmain s = LStop → 50 ≤ processed s;
  lv_submitted : submitted s = length (infos s) ∧ length (infos s) < sub_bound (lsub s);
  lv_window : transactions s = drop (length (infos s) - 15) (infos s)
}.

(** A submitter's step that leaves the queue and main alone. *)
Lemma live_inv_sub m0 s p :
  live_inv m0 s → sub_bound (lsub s) ≤ sub_bound p ≤ S live_iterations →
  (∀ i t, p = LCall i t ∨ p = LLock i t → i ≤ live_iterations) → live_inv m0 (set_lsub p s).
Proof.
  intros [? ? ? ? [? ?] ? ? ? ? ? [? ?] ?] Hp Hi. split; try done; split; try done; cbn in *; lia.
Qed.

(** A step of the queue, with whatever payloads it needs. *)
Lemma live_inv_queue m0 s e q pays :
  live_inv m0 s → step e (lqueue s) = Some q → sealed_calls seal pk pays q →
  (∀ i p, pays !! i = Some p → payload_ok i p) →
  (∀ d k', drains q !! d = Some k' → ∃ k, drains (lqueue s) !! d = Some k ∧ (d_ret k' = None → d_ret k = None)) →
  live_inv m0 (Live q (lsub s) (lmain s) (ticks s) (submitted s) (processed s) (transactions s) (lmem s)
    (displayed s) (infos s) pays).
Proof.
  intros [Hr Hs Hm Hp Hsub Hd Hmain (txs & Hrec & Htxs) Hpr Hst Hsb Hw] E Hs' Hp' Hdr.
  split; cbn; try done.
  - by econstructor.
  - intros d k' Hk' Hret. destruct (Hdr _ _ Hk') as (k & Hk & Hn). by apply (Hd d k), Hn.
  - intros d Hl. destruct (Hmain d Hl) as [k Hk].
    destruct (drains_mono (lqueue s) q d k) as (k2 & Hk2 & _); [by apply step_effect in E as [_ ?]|done|]. by exists k2.
  - exists txs. split; [|done]. unfold current in *. cbn. destruct (lmain s) as [|d|] eqn:Hl.
    + rewrite (inactive_receives _ _ _ E); [done|]. intros d k Hk Hret. by apply Hd in Hk.
    + destruct (Hmain d eq_refl) as [k Hk]. rewrite Hk in Hrec.
      destruct (active_receives _ _ _ d k Hr E) as (k' & new & -> & -> & ->); [|done|by rewrite Hrec, app_assoc].
      intros d' k' Hk' Hret. apply Hd in Hk'; [|done]. congruence.
    + rewrite (inactive_receives _ _ _ E); [done|]. intros d k Hk Hret. by apply Hd in Hk.
Qed.

Definition trade_ok (e : live_event) : Prop :=
  match e with
  | LSeal t => ∀ p, live_payload t = Some p → (Z.of_nat (length p) < 2 ^ 31)%Z
  | _ => True
  end.

Lemma live_payload_ne t p : live_payload t = Some p → length p ≠ 0.
Proof.
  unfold live_payload. intros (side & _ & (pair & _ & [= <-])%bind_Some)%bind_Some. done.
Qed.

Lemma submitter_seals_inv m0 t s s' :
  trade_ok (LSeal t) → live_inv m0 s → submitter_seals seal pk t s = Some s' → live_inv m0 s'.
Proof.
  intros Ht Hi E. pose proof Hi as [Hr Hs Hm Hp [Hb Hsub] Hd _ _ _ _ _ _]. unfold submitter_seals in E.
  destruct (lsub s) as [i| | |] eqn:Hl; [|done..]. cbn in Hb. case_decide as H50.
  - apply bind_Some in E as (p & Hpay & E). pose proof (live_payload_ne _ _ Hpay) as Hne.
    rewrite (SealTransaction_out _ (seal_length i)) in E by (done || by intros ->). cbn [mbind option_bind] in E.
    destruct (seal i p pk) as [ct|] eqn:Es.
    + apply bind_Some in E as (q & E & [= <-]). destruct (submit_fresh _ _ _ _ _ E) as [Hfr Hdr].
      apply (live_inv_sub m0 (Live q (lsub s) (lmain s) (ticks s) (submitted s) (processed s) (transactions s)
        (lmem s) (displayed s) (infos s) (<[i:=p]> (lpayloads s)))).
      * eapply live_inv_queue; [done|exact E|by eapply sealed_calls_submit| |rewrite Hdr; eauto].
        intros i' p'. rewrite lookup_insert. case_decide; [|apply Hp]. intros [= <-]. subst.
        split; [lia|]. split; [done|]. by apply Ht.
      * cbn. rewrite Hl. cbn. lia.
      * by intros i' t' [[= <- <-]|?].
    + injection E as <-. rewrite Hm in *.
      assert (set_lmem m0 (set_lsub (LNext (S i)) s) = set_lsub (LNext (S i)) s) as -> by (by destruct s; cbn in *; subst).
      apply live_inv_sub; [done| |]; [rewrite Hl; cbn; lia|by intros ?? [?|?]].
  - injection E as <-. apply live_inv_sub; [done| |]; [rewrite Hl; cbn; lia|by intros ?? [?|?]].
Qed.

Lemma submitter_returns_inv m0 s s' : live_inv m0 s → submitter_returns s = Some s' → live_inv m0 s'.
Proof.
  intros Hi E. pose proof (lv_sub _ _ Hi) as [Hb Hsub]. unfold submitter_returns in E.
  destruct (lsub s) as [|i t| |] eqn:Hl; [done| |done..]. pose proof (Hsub i t (or_introl eq_refl)).
  apply bind_Some in E as (k & _ & E). destruct (sc_pc k) as [| |r]; [done..|]. injection E as <-.
  apply live_inv_sub; [done| |]; rewrite ?Hl; destruct (Submit r); cbn in *; try lia;
    intros i' t' [?|?]; by simplify_eq.
Qed.

Lemma window_push (l : list bytes) x :
  (if decide (15 < length (drop (length l - 15) l ++ [x]))
   then drop 1 (drop (length l - 15) l ++ [x]) else drop (length l - 15) l ++ [x]) =
  drop (length (l ++ [x]) - 15) (l ++ [x]).
Proof.
  rewrite !length_app, length_drop. cbn [length]. case_decide as H.
  - rewrite <- drop_app_le, drop_drop by lia. f_equal. lia.
  - rewrite <- drop_app_le by lia. f_equal. lia.
Qed.

Lemma submitter_counts_inv m0 s s' : live_inv m0 s → submitter_counts s = Some s' → live_inv m0 s'.
Proof.
  intros Hi E. pose proof Hi as [Hr Hs Hm Hp [Hb Hsub] Hd Hmain Hsh Hpr Hst [Hsb Hlt] Hw]. unfold submitter_counts in E.
  destruct (lsub s) as [| |i t|] eqn:Hl; [done..| |done]. pose proof (Hsub i t (or_intror eq_refl)) as Hit.
  assert (∃ info, live_info t = Some info ∧ push_info info (set_lsub (LNext (S i)) s) = s') as (info & _ & <-).
  { destruct (lmain s); try done; apply bind_Some in E as (info & Hinfo & [= <-]); by exists info. }
  split; cbn in *; try done.
  - split; [lia|]. by intros ?? [?|?].
  - rewrite length_app. cbn. lia.
  - rewrite Hw. apply window_push.
Qed.

Lemma main_ticks_inv m0 s s' : live_inv m0 s → main_ticks s = Some s' → live_inv m0 s'.
Proof.
  intros [Hr Hs Hm Hp Hsub Hd Hmain (txs & Hrec & Htxs) Hpr Hst Hsb Hw] E. unfold main_ticks in E.
  destruct (lmain s) eqn:Hl; [|done..]. apply bind_Some in E as (q & E & [= <-]).
  assert (drains (lqueue s) !! ticks s = None ∧ drains q = <[ticks s := DrainCall (Some (S (ticks s))) 5 [] None]> (drains (lqueue s)))
    as [Hfr Hdr].
  { unfold step, drain_begin in E. destruct (panicked (lqueue s)); [done|].
    destruct (drains (lqueue s) !! ticks s) eqn:Hf; [done|]. cbn in E. by injection E as <-. }
  split; cbn; try done.
  - by econstructor.
  - by eapply sealed_calls_step; [| |exact E].
  - rewrite Hdr. intros d k. rewrite lookup_insert. case_decide; [by subst|]. intros Hk Hret. by apply Hd in Hk.
  - intros d [= <-]. rewrite Hdr, lookup_insert_eq. by eexists.
  - exists txs. split; [|done]. unfold current in *. cbn. rewrite Hl in Hrec.
    rewrite Hdr, lookup_insert_eq. rewrite (inactive_receives _ _ _ E); [done|].
    intros d k Hk Hret. by apply Hd in Hk.
Qed.

Lemma show_batch_spec pays order batch m :
  (∀ i p, pays !! i = Some p → payload_ok i p) →
  Forall2 (λ c tx, sealed_for seal pk pays c (Ciphertext tx)) order batch →
  ∃ sh, show_batch seal_open pk sk batch m = Some (sh, m) ∧ Forall2 shows_tx batch sh.
Proof.
  intros Hp. induction 1 as [|c tx order batch (p & Hc & Es) _ (sh & E & Hsh)]; cbn [show_batch].
  { by exists []. }
  destruct (Hp _ _ Hc) as (_ & Hne & Hlen). pose proof (seal_length _ _ _ _ Es).
  rewrite (DecryptSingle_spec _ seal_open_length) by (done || unfold fits; lia). cbn [mbind option_bind].
  rewrite E. cbn [mbind option_bind]. eexists. split; [done|]. constructor; [|done]. split; [done|].
  unfold single_spec, item_out. rewrite decide_False, decide_True by lia. by rewrite (seal_open_seal _ _ _ Es).
Qed.

Lemma main_displays_inv m0 s s' :
  live_inv m0 s → main_displays seal_open pk sk s = Some s' → live_inv m0 s'.
Proof.
  intros [Hr Hs Hm Hp Hsub Hd Hmain (txs & Hrec & Htxs) Hpr Hst Hsb Hw] E. unfold main_displays in E.
  unfold current in Hrec. destruct (lmain s) as [|d|] eqn:Hl; [done| |done].
  apply bind_Some in E as (k & Hk & (err & Herr & ([sh m] & Hsh & [= <-])%bind_Some)%bind_Some).
  rewrite Hk in Hrec. destruct (received_sealed seal pk _ _ Hr Hs) as (order & _ & Hord).
  rewrite Hrec in Hord. apply Forall2_app_inv_r in Hord as (o1 & o2 & _ & Hord & _).
  destruct (show_batch_spec _ _ _ (lmem s) Hp Hord) as (sh' & E' & Hshow). rewrite Hsh in E'. simplify_eq.
  assert (∀ d' k', drains (lqueue s) !! d' = Some k' → d_ret k' ≠ None) as Hret.
  { intros d' k' Hk' Hn. pose proof (Hd _ _ Hk' Hn). congruence. }
  split; cbn; try done.
  - intros d' k' Hk' Hn. by destruct (Hret _ _ Hk').
  - intros d'. by case_decide.
  - exists (txs ++ d_batch k). unfold current. cbn. rewrite Hrec. split.
    + by case_decide; rewrite app_nil_r.
    + by apply Forall2_app.
  - rewrite length_app. lia.
  - by case_decide.
Qed.

Lemma live_run_inv m0 es s s' :
  Forall trade_ok es → live_inv m0 s → live_run seal seal_open pk sk es s = Some s' → live_inv m0 s'.
Proof.
  intros Hes. revert s. induction Hes as [|e es He _ IH]; intros s Hi; cbn; [by intros [= <-]|].
  intros (s1 & E & Hrun)%bind_Some. eapply IH; [|done]. destruct e; cbn in E;
    eauto using submitter_seals_inv, submitter_returns_inv, submitter_counts_inv, main_ticks_inv, main_displays_inv.
  unfold live_queue in E. destruct (queue_event e) eqn:Hq; [|done]. apply bind_Some in E as (q & E & [= <-]).
  eapply live_inv_queue; [done|exact E| |apply Hi|].
  - eapply sealed_calls_step; [apply Hi| |done]. by intros c x ct ->.
  - intros d k'. by eapply drains_after.
Qed.

(** The live demo.  However the submitter, the display and the queue
    interleave, the display shows payloads of distinct submissions in increasing
    order of sequence ID, at most fifty; the counter is their number; the list
    of recent submissions is the last fifteen; and when the program ends it has
    displayed each of the fifty payloads exactly once, as its final message
    claims without checking. *)
Theorem live_demo_shows init again pair m0 s0 es s :
  live_start init again pair m0 = Some (Ok (pk, sk, s0)) → Forall trade_ok es →
  live_run seal seal_open pk sk es s0 = Some s → (stamps (lqueue s) < 2 ^ 64)%Z →
  StronglySorted Z.lt (shown_id <$> displayed s) ∧ processed s = length (displayed s) ∧
  submitted s ≤ 50 ∧ transactions s = drop (submitted s - 15) (infos s) ∧
  ∃ order, NoDup order ∧ order ⊆+ seq 1 50 ∧
    Forall2 (λ i sh, lpayloads s !! i = Some (shown_text sh)) order (displayed s) ∧
    (lmain s = LStop → order ≡ₚ seq 1 50).
Proof.
  intros Hst Hes Hrun Hlt.
  assert (live_inv (lmem s0) s0) as Hi0.
  { unfold live_start in Hst. destruct (Init init); [done|].
    apply bind_Some in Hst as ([[[? ?]|?] m] & _ & Hst); [|done].
    apply bind_Some in Hst as (q & Hq & [= -> -> <-]).
    unfold NewTxQueue in Hq. cbn in Hq. simplify_eq. split; cbn; try done.
    - by eapply (reachable_new 256).
    - split; [unfold live_iterations; lia|]. by intros ?? [?|?].
    - by exists [].
    - lia. }
  destruct (live_run_inv _ _ _ _ Hes Hi0 Hrun) as [Hr Hs Hm Hp [Hb _] Hd Hmain (txs & Hrec & Htxs) Hpr Hstop [Hsb Hsl] Hw].
  destruct (received_sealed seal pk _ _ Hr Hs) as (order & Hnd & Hord).
  rewrite Hrec in Hord. apply Forall2_app_inv_r in Hord as (o1 & o2 & Ho1 & _ & ->).
  apply NoDup_app in Hnd as (Hnd & _ & _).
  assert (shown_id <$> displayed s = ID <$> txs) as Hids.
  { clear - Htxs. induction Htxs as [|tx sh txs l [H _] _ IH]; [done|]. cbn. by rewrite H, IH. }
  assert (∀ i, i ∈ o1 → i ∈ seq 1 50) as Hin.
  { intros i [j Hj]%list_elem_of_lookup. destruct (Forall2_lookup_l _ _ _ _ _ Ho1 Hj) as (tx & _ & p & Hpi & _).
    apply elem_of_seq. destruct (Hp _ _ Hpi) as (? & _). unfold live_iterations in *. lia. }
  unfold live_iterations in Hb. split_and!; [| |lia|by rewrite Hsb|].
  - rewrite Hids. destruct (inv_reachable _ Hr) as [_ _ Hi Hdl _]. destruct (ii_sorted _ Hi Hlt) as [H _].
    rewrite !fmap_app, (iv_split _ Hdl), Hrec, !fmap_app, <- !app_assoc in H. by apply StronglySorted_app_1_l in H.
  - done.
  - exists o1. split_and!; [done|by apply NoDup_submseteq| |].
    + clear - Ho1 Htxs seal_open_seal. revert o1 Ho1.
      induction Htxs as [|tx sh txs l [_ Hsh] _ IH]; intros o1 Ho1; [inversion Ho1; subst; constructor|].
      apply Forall2_cons_inv_r in Ho1 as (c & o1' & (p & Hp & Es) & Ho & ->).
      constructor; [|by apply IH]. apply seal_open_seal in Es. congruence.
    + intros Hl. apply full_permutation; [done|apply NoDup_seq|done|].
      rewrite length_seq. apply Forall2_length in Ho1, Htxs. specialize (Hstop Hl). lia.
Qed.
End live.

(** ** Witness: fifty trades, displayed five at a time *)

Definition sample_trade (i : nat) : trade :=
  {| intn_client := i mod 20; intn_side := i mod 2; intn_pair := i mod 3; intn_amount := i; intn_price := 40 * i;
     trade_now := 1700000000 |}.

Definition one_trade (i : nat) : list live_event :=
  LSeal (sample_trade i) ::
  (LQueue <$> [ECall i SendReq; EAdmission LoopRecv; EAdmission (CheckDefault 5); EAdmission CommitCh;
               ECall i RecvResp]) ++ [LReturn; LCount].

Definition one_tick (d : nat) : list live_event :=
  LTicks :: (LQueue <$> replicate 5 (EDrainCall d DRecv) ++ [EDrainCall d DFull]) ++ [LShow].

Definition live_events : list live_event :=
  seq 0 10 ≫= λ d, (seq (1 + 5 * d) 5 ≫= one_trade) ++ one_tick d.

Definition sample_live : live :=
  match live_start 0 1 demo_key_pair ∅ with
  | Some (Ok (_, _, s)) => s
  | _ => Live (empty_queue 256) LOver LTick 0 0 0 [] ∅ [] [] ∅
  end.

Definition live_end : live :=
  default sample_live (live_run (λ _, toy_seal32) toy_open sample_pk sample_sk live_events sample_live).

Definition trade_short (e : live_event) : bool :=
  match e with
  | LSeal t => match live_payload t with Some p => bool_decide (length p < 1000) | None => true end
  | _ => true
  end.

Lemma trade_short_ok e : trade_short e = true → trade_ok e.
Proof.
  destruct e; cbn; try done. intros H p Hp. rewrite Hp in H. apply bool_decide_eq_true in H. lia.
Qed.

Lemma live_demo_shows_witness :
  shown_id <$> displayed live_end = Z.of_nat <$> seq 1 50 ∧ lmain live_end = LStop ∧
  take 1 (shown_text <$> displayed live_end) = [str "TRADE|02|SELL|BTC/USDC|2.00|1040.00|1700000000"] ∧
  ∃ order, order ≡ₚ seq 1 50 ∧
    Forall2 (λ i sh, lpayloads live_end !! i = Some (shown_text sh)) order (displayed live_end).
Proof.
  assert (live_start 0 1 demo_key_pair ∅ = Some (Ok (sample_pk, sample_sk, sample_live))) as H0 by (vm_compute; reflexivity).
  assert (live_run (λ _, toy_seal32) toy_open sample_pk sample_sk live_events sample_live = Some live_end)
    as H1 by (vm_compute; reflexivity).
  assert (forallb trade_short live_events = true) as H2 by (vm_compute; reflexivity).
  assert (lmain live_end = LStop) as H3 by (vm_compute; reflexivity).
  destruct (live_demo_shows (λ _, toy_seal32) toy_open (λ _, toy_seal32_length) toy_open_length sample_pk sample_sk
    eq_refl eq_refl (λ _, toy_open_seal32) 0 1 demo_key_pair ∅ sample_live live_events live_end H0)
    as (_ & _ & _ & _ & order & _ & _ & Hrows & Hall); [|exact H1|vm_compute; reflexivity|].
  - apply Forall_forall. intros e He. apply trade_short_ok.
    rewrite forallb_forall in H2. by apply H2, list_elem_of_In.
  - split; [vm_compute; reflexivity|]. split; [done|]. split; [vm_compute; reflexivity|].
    exists order. exact (conj (Hall H3) Hrows).
Defined.
