(* ===== verification/GoPath.v ===== *)
(** Package path/filepath on Unix, as far as the program uses it: Clean and
    Join. *)

From S2P Require Import Prelude GoStrings.

Definition slash : byte := x2f.
Definition dot : bytes := [x2e].
Definition dotdot : bytes := [x2e; x2e].

(** One path element on the elements so far, the last one first.  An inner ..
    removes the element before it; a leading .. stays, except at the root. *)
Definition clean_elem (rooted : bool) (out : list bytes) (e : bytes) : list bytes :=
  if decide (e = [] ∨ e = dot) then out
  else if decide (e = dotdot) then
    match out with
    | [] => if rooted then [] else [dotdot]
    | x :: out' => if decide (x = dotdot) then dotdot :: out else out'
    end
  else e :: out.

Definition Clean (path : bytes) : bytes :=
  let rooted := bool_decide (head path = Some slash) in
  let body := Join (rev (foldl (clean_elem rooted) [] (Split path slash))) [slash] in
  if rooted then slash :: body else if decide (body = []) then dot else body.

(** filepath.Join: leading empty elements are ignored. *)
Fixpoint path_Join (elems : list bytes) : bytes :=
  match elems with
  | [] => []
  | e :: rest => if decide (e = []) then path_Join rest else Clean (Join elems [slash])
  end.

Example Clean_examples :
  Clean (str "a//b/./c/..") = str "a/b" ∧ Clean (str "../../x") = str "../../x" ∧
  Clean (str "/../a") = str "/a" ∧ Clean (str "a/..") = str "." ∧ Clean [] = str "." ∧ Clean (str "/") = str "/".
Proof. by split_and!; vm_compute. Qed.

(** A path element that Clean keeps. *)
Definition plain_elem (e : bytes) : Prop := e ≠ [] ∧ e ≠ dot ∧ e ≠ dotdot ∧ slash ∉ e.

#[global] Instance plain_elem_dec e : Decision (plain_elem e) := ltac:(unfold plain_elem; apply _).

Lemma clean_plain rooted out l :
  Forall plain_elem l → foldl (clean_elem rooted) out l = rev l ++ out.
Proof.
  intros H. revert out. induction H as [|e l (H1 & H2 & H3 & _) _ IH]; intros out; [done|]. cbn [foldl rev].
  rewrite IH. unfold clean_elem. rewrite decide_False by (by intros [?|?]). rewrite decide_False by done.
  by rewrite <- app_assoc.
Qed.

(** A relative path of plain elements is clean already. *)
Lemma Clean_plain l : l ≠ [] → Forall plain_elem l → Clean (Join l [slash]) = Join l [slash].
Proof.
  intros Hne Hl. destruct l as [|e l]; [done|]. pose proof Hl as [(He & _ & _ & Hs) _]%Forall_cons.
  destruct e as [|b e]; [done|].
  assert (∃ rest, Join ((b :: e) :: l) [slash] = b :: rest) as [rest Ej].
  { destruct l as [|e' l]; [by exists e|]. by eexists. }
  unfold Clean. rewrite (bool_decide_false (head _ = _)) by (rewrite Ej; intros [= ->]; apply Hs; left).
  cbv zeta. rewrite Split_Join; [|done|eapply Forall_impl; [exact Hl|]; by intros ? (_ & _ & _ & ?)].
  rewrite clean_plain, app_nil_r, rev_involutive by done. rewrite Ej. by rewrite decide_False.
Qed.
