(* ===== verification/Main.v ===== *)
(** cmd/sequencer/main.go from the flags to the serving node: the data
    directory, the dynamic join (with the handler it reaches in
    internal/rpc/server.go), what is printed, and the order in which main starts
    and stops the parts.

    [action] names what main does to the world outside the process; a start
    gives the actions it took, the new disk, and how it ended. *)

From S2P Require Import Prelude GoStrings GoPath Keys Decryption Privacy ReceptionStore Server Startup.

(** ** The data directory *)

Definition defaultRaftDataDir (raftNodeID : bytes) : bytes :=
  path_Join [str ".local"; str "raft"; str "data"; raftNodeID].

(** What os.Stat answers. *)
Inductive stat_result := StatOk | StatNotExist | StatOther.

Definition pathExists (r : stat_result) : bool :=
  match r with StatNotExist => false | StatOk | StatOther => true end.

(** ** logStartupConfiguration: the lines it prints *)

Definition peer_line (p : RaftPeer) : bytes := str "  - " ++ peer_ID p ++ str "=" ++ Address p.

Definition logStartupConfiguration (orderingMode grpcAddr raftNodeID raftBind raftDataDir : bytes)
    (raftBootstrap : bool) (peers : list RaftPeer) : list bytes :=
  [str "Ordering backend: " ++ orderingMode; str "gRPC bind: " ++ grpcAddr] ++
  if decide (orderingMode ≠ str "raft") then []
  else
    [str "Raft node ID: " ++ raftNodeID; str "Raft bind: " ++ raftBind;
     str "Raft data dir: " ++ raftDataDir;
     str "Raft bootstrap: " ++ (if raftBootstrap then str "true" else str "false")] ++
    if decide (length peers = 0) then [str "Raft peers: none configured"]
    else str "Raft peers:" :: (peer_line <$> peers).

(** ** Joining *)

Section main.
(** The errors of dialling, of a remote call, of the ordered log, and of the
    other libraries. *)
Context (dial_error remote_error log_error : Type) {E : Type}.

Inductive join_error :=
| JoinDial (e : dial_error)
| JoinRPC (e : remote_error)
| JoinRefused (message : option (join_message log_error)).

(** [dialed] is what DialContext answers, [reply] what JoinCluster does. *)
Definition attemptJoin (dialed : option dial_error) (reply : res remote_error (JoinResponse log_error))
  : option join_error :=
  match dialed with
  | Some e => Some (JoinDial e)
  | None =>
      match reply with
      | Err e => Some (JoinRPC e)
      | Ok resp => if Success _ resp then None else Some (JoinRefused (ErrorMessage _ resp))
      end
  end.

(** ** Starting *)

Record flags := {
  orderingMode : bytes; grpcAddr : bytes; raftNodeID : bytes; raftBind : bytes;
  raftDataDir : bytes; raftBootstrap : bool; raftPeers : bytes; raftJoinAddr : bytes;
  leaderLease : Z; publisherType : bytes
}.

(** What the world answers during a start.  Stat and the join see the path and
    the node they are asked about. *)
Record world := {
  sodium : Z;
  key_world : key_env;
  stat : bytes → stat_result;
  join_dial : bytes → option dial_error;
  join_reply : bytes → bytes → res remote_error (JoinResponse log_error);
  raft_world : raft_io E;
  listen : bytes → option E
}.

Inductive action :=
| AKeys | AJoin (addr node bind : bytes) | AOpenLog (dir : bytes) | AListen (addr : bytes).

(** log.Fatalf *)
Inductive fatal :=
| FatalPrivacy (e : privacy_error)
| FatalKeys (e : key_error)
| FatalPeers (e : peer_error)
| FatalJoinCluster (e : join_error)
| FatalLog (e : Startup.log_error E)
| FatalListen (e : E).

(** A serving node: its keys, its log, whether the lease goroutine runs, and
    what was printed. *)
Record node := MkServing {
  node_keys : bytes * bytes;
  node_log : ordered_log;
  node_lease : bool;
  node_output : list bytes
}.

Definition startup_lines (f : flags) (dir : bytes) (peers : list RaftPeer) (fresh waits : bool) : list bytes :=
  (if waits then
     if fresh then [str "Fresh node detected. Attempting to join cluster via " ++ raftJoinAddr f ++ str "...";
                    str "Successfully joined cluster"]
     else [str "Local Raft state found, skipping dynamic join."]
   else []) ++
  [str "Sequencer keys ready in keys/"; str "Publisher type: " ++ publisherType f] ++
  logStartupConfiguration (orderingMode f) (grpcAddr f) (raftNodeID f) (raftBind f) dir (raftBootstrap f) peers.

Definition raft_log_path (dir : bytes) : bytes := path_Join [dir; str "raft-log.bolt"].

Definition data_dir (f : flags) : bytes :=
  if decide (raftDataDir f = []) then defaultRaftDataDir (raftNodeID f) else raftDataDir f.

(** The rest of main once the node need not join any more. *)
Definition serve (f : flags) (w : world) (keys : bytes * bytes) (peers : list RaftPeer) (lines : list bytes)
  : option (res fatal node * list action) :=
  let dir := data_dir f in
  r ← newOrderedLog (raft_world w) (orderingMode f) (raftNodeID f) (raftBind f) (raftPeers f) dir (raftBootstrap f);
  match r with
  | Err e => Some (Err (FatalLog e), [AOpenLog dir])
  | Ok orderedLog =>
      let lease := (0 <? leaderLease f)%Z && bool_decide (orderingMode f = str "raft") in
      match listen w (grpcAddr f) with
      | Some e => Some (Err (FatalListen e), [AOpenLog dir; AListen (grpcAddr f)])
      | None => Some (Ok (MkServing keys orderedLog lease lines), [AOpenLog dir; AListen (grpcAddr f)])
      end
  end.

(** main up to the gRPC server. *)
Definition startup (f : flags) (w : world) (d : disk) : option (res fatal node * list action * disk) :=
  match Init (sodium w) with
  | Some e => Some (Err (FatalPrivacy e), [], d)
  | None =>
      let '(r, d) := loadOrCreateSequencerKeys (key_world w) d in
      match r with
      | Err e => Some (Err (FatalKeys e), [AKeys], d)
      | Ok keys =>
          match parseRaftPeers (raftPeers f) with
          | Err e => Some (Err (FatalPeers e), [AKeys], d)
          | Ok peers =>
              let dir := data_dir f in
              let asks := bool_decide (orderingMode f = str "raft") && negb (raftBootstrap f) &&
                          bool_decide (raftJoinAddr f ≠ []) in
              let fresh := negb (pathExists (stat w (raft_log_path dir))) in
              let lines := startup_lines f dir peers fresh asks in
              if should_join (orderingMode f) (raftJoinAddr f) (raftBootstrap f) (negb fresh) then
                let joining := AJoin (raftJoinAddr f) (raftNodeID f) (raftBind f) in
                match attemptJoin (join_dial w (raftJoinAddr f)) (join_reply w (raftNodeID f) (raftBind f)) with
                | Some e => Some (Err (FatalJoinCluster e), [AKeys; joining], d)
                | None => '(r, acts) ← serve f w keys peers lines; Some (r, AKeys :: joining :: acts, d)
                end
              else '(r, acts) ← serve f w keys peers lines; Some (r, AKeys :: acts, d)
          end
      end
  end.

(** ** Properties *)

(** Whether this start asks the cluster to add the node. *)
Definition joins (f : flags) (w : world) : bool :=
  should_join (orderingMode f) (raftJoinAddr f) (raftBootstrap f) (pathExists (stat w (raft_log_path (data_dir f)))).

Definition is_join (a : action) : bool := match a with AJoin _ _ _ => true | _ => false end.
Definition is_open (a : action) : bool := match a with AOpenLog _ => true | _ => false end.
Definition is_listen (a : action) : bool := match a with AListen _ => true | _ => false end.

Lemma newOrderedLog_peers (io : raft_io E) mode id bind spec dir boot peers :
  parseRaftPeers spec = Ok peers →
  ∃ r, newOrderedLog io mode id bind spec dir boot = Some r ∧
    match r with
    | Err (ErrPeers _) => False
    | Err (ErrUnsupportedMode m) => m = mode ∧ mode ≠ str "local" ∧ mode ≠ str "raft"
    | Err (ErrRaft _) => mode = str "raft"
    | Ok (LocalQueue _) => mode = str "local"
    | Ok (RaftBackend _) => mode = str "raft"
    end.
Proof.
  intros Hp. unfold newOrderedLog. case_decide as Hl; [by eexists|]. case_decide as Hr.
  - rewrite Hp. destruct (NewRaftOrderedLog _ _).1; by eexists.
  - by eexists.
Qed.

Lemma serve_spec f w keys peers lines :
  parseRaftPeers (raftPeers f) = Ok peers →
  ∃ r acts, serve f w keys peers lines = Some (r, acts) ∧
    match r with
    | Ok n => acts = [AOpenLog (data_dir f); AListen (grpcAddr f)] ∧ node_keys n = keys ∧
        node_lease n = bool_decide (0 < leaderLease f ∧ orderingMode f = str "raft")%Z ∧
        match node_log n with
        | LocalQueue _ => orderingMode f = str "local"
        | RaftBackend _ => orderingMode f = str "raft"
        end
    | Err (FatalLog e) => acts = [AOpenLog (data_dir f)] ∧ ∀ pe, e ≠ ErrPeers pe
    | Err (FatalListen _) => acts = [AOpenLog (data_dir f); AListen (grpcAddr f)]
    | Err _ => False
    end.
Proof.
  intros Hp. unfold serve.
  destruct (newOrderedLog_peers (raft_world w) (orderingMode f) (raftNodeID f) (raftBind f) (raftPeers f)
    (data_dir f) (raftBootstrap f) peers Hp) as (r & -> & Hr). cbn [mbind option_bind].
  destruct r as [log|e].
  - destruct (listen w (grpcAddr f)) as [e|]; eexists _, _; (split; [done|]); cbn; [done|]. split_and!; [done..| |done].
    destruct (Z.ltb_spec 0 (leaderLease f)); case_bool_decide; symmetry;
      (apply bool_decide_true; done) || (apply bool_decide_false; lia || intuition lia || naive_solver).
  - eexists _, _. split; [done|]. cbn. split; [done|]. by intros pe ->.
Qed.
(** C25: a start always ends, and does things in this order: the keys, the join
    exactly if this is a fresh Raft node that was told to join, the log, the
    listener; what it did is a prefix of that list, all of it if the node serves.
    A serving node has the keys that were loaded or created, the log of its mode,
    a lease goroutine exactly in Raft mode with a positive lease, and has been
    accepted by the cluster if it asked to; a node that was refused never opens
    its log.  The second parse of the peers cannot fail. *)
Theorem startup_order f w d :
  let full := AKeys :: (if joins f w then [AJoin (raftJoinAddr f) (raftNodeID f) (raftBind f)] else []) ++
              [AOpenLog (data_dir f); AListen (grpcAddr f)] in
  let accepted := attemptJoin (join_dial w (raftJoinAddr f)) (join_reply w (raftNodeID f) (raftBind f)) in
  let keys := loadOrCreateSequencerKeys (key_world w) d in
  ∃ r acts d', startup f w d = Some (r, acts, d') ∧ acts `prefix_of` full ∧
  match r with
  | Ok n => acts = full ∧ keys = (Ok (node_keys n), d') ∧ (joins f w = true → accepted = None) ∧
      node_lease n = bool_decide (0 < leaderLease f ∧ orderingMode f = str "raft")%Z ∧
      match node_log n with
      | LocalQueue _ => orderingMode f = str "local"
      | RaftBackend _ => orderingMode f = str "raft"
      end
  | Err (FatalPrivacy _) => acts = []
  | Err (FatalKeys e) => keys.1 = Err e ∧ acts = [AKeys]
  | Err (FatalPeers e) => parseRaftPeers (raftPeers f) = Err e ∧ acts = [AKeys]
  | Err (FatalJoinCluster e) => joins f w = true ∧ accepted = Some e ∧ existsb is_open acts = false
  | Err (FatalLog e) => (∀ pe, e ≠ ErrPeers pe) ∧ existsb is_listen acts = false
  | Err (FatalListen _) => acts = full
  end.
Proof.
  intros full accepted keys. unfold startup. destruct (Init (sodium w)) as [e|].
  { eexists _, _, _. split; [done|]. by split; [apply prefix_nil|]. }
  unfold keys. destruct (loadOrCreateSequencerKeys (key_world w) d) as [[k|e] d'].
  2: { eexists _, _, _. split; [done|]. split; [by eexists|]. done. }
  destruct (parseRaftPeers (raftPeers f)) as [peers|e] eqn:Ep.
  2: { eexists _, _, _. split; [done|]. split; [by eexists|]. done. }
  rewrite negb_involutive. fold (joins f w). cbv zeta. unfold full, accepted.
  pose proof (λ lines, serve_spec f w k peers lines Ep) as Hserve.
  destruct (joins f w) eqn:Hj; [destruct (attemptJoin _ _) as [e|] eqn:Ea|].
  { eexists _, _, _. split; [done|]. split; [by eexists|]. done. }
  all: match goal with |- context [serve _ _ _ _ ?lines] =>
    destruct (Hserve lines) as (r & acts & -> & Hr) end; cbn [mbind option_bind];
    eexists _, _, _; (split; [done|]);
    destruct r as [n|e0]; [|destruct e0; try done];
    (split; [|naive_solver]);
    [destruct Hr as [-> _]|destruct Hr as [-> _]|rewrite Hr]; by eexists.
Qed.

(** ** Joining at the handler *)

Context (conn client : Type) (NewRPCServiceClient : conn → client).
(** gRPC delivers a handler's reply, or an error when it returned one. *)
Context (grpc_reply : option (JoinResponse log_error) * option (rpc_error dial_error remote_error log_error) →
                      res remote_error (JoinResponse log_error)).
Context (grpc_delivers : ∀ r, grpc_reply (Some r, None) = Ok r).

Abbreviation server_JoinCluster :=
  (JoinCluster conn client dial_error remote_error log_error NewRPCServiceClient).

(** A node that joins is a voter.  A join request that reaches the leader's
    handler lets the node start if and only if the leader added it to the voters
    under its own ID and address; one that reaches a single-node server, or a
    follower that knows no leader, never does.  The server is left as it was. *)
Theorem join_adds_voter b dial remote AddVoter id addr s :
  (b = LocalLog ∨ b = RaftLog false [] ∨ ∃ a, b = RaftLog true a) →
  let '(reply, s') := server_JoinCluster b dial remote AddVoter id addr s in
  s' = s ∧
  (attemptJoin None (grpc_reply reply) = None ↔ (∃ a, b = RaftLog true a) ∧ AddVoter id addr = None).
Proof.
  unfold Server.JoinCluster. intros [->|[->|[a ->]]]; cbn.
  - split; [done|]. rewrite grpc_delivers. cbn. naive_solver.
  - split; [done|]. rewrite grpc_delivers. cbn. naive_solver.
  - destruct (AddVoter id addr) as [e|]; (split; [done|]); rewrite grpc_delivers; cbn; naive_solver.
Qed.
End main.

(** Data directories are apart.  Nodes whose IDs are single path elements
    (not empty, no slash, not . or ..) keep their data in
    .local/raft/data/<ID>, so two such nodes never share a directory. *)
Theorem data_dirs_isolated id id' :
  plain_elem id → plain_elem id' →
  defaultRaftDataDir id = str ".local/raft/data/" ++ id ∧
  (defaultRaftDataDir id = defaultRaftDataDir id' ↔ id = id').
Proof.
  assert (∀ i, plain_elem i → defaultRaftDataDir i = str ".local/raft/data/" ++ i) as H.
  { intros i Hi. change (defaultRaftDataDir i) with (Clean (Join [str ".local"; str "raft"; str "data"; i] [slash])).
    rewrite Clean_plain; [done..|]. repeat (apply Forall_cons; split); [..|done|constructor];
      by apply (bool_decide_eq_true_1 _); vm_compute. }
  intros Hid Hid'. rewrite !H by done. split; [done|]. split; [apply app_inv_head|by intros ->].
Qed.

(** Other IDs escape from it, or collide. *)
Example data_dirs_collide :
  defaultRaftDataDir (str "x/../node-2") = defaultRaftDataDir (str "node-2") ∧
  defaultRaftDataDir (str "../../../keys") = str "keys" ∧
  defaultRaftDataDir [] = defaultRaftDataDir (str ".").
Proof. by split_and!; vm_compute. Qed.

(** ** Witnesses *)

Lemma data_dirs_isolated_witness :
  defaultRaftDataDir (str "node-1") = str ".local/raft/data/node-1" ∧
  defaultRaftDataDir (str "node-1") ≠ defaultRaftDataDir (str "node-2").
Proof.
  destruct (data_dirs_isolated (str "node-1") (str "node-2")) as [H1 H2];
    [by apply (bool_decide_eq_true_1 _); vm_compute..|]. split; [done|]. by intros ?%H2.
Defined.

Lemma join_adds_voter_witness :
  attemptJoin nat nat nat None
    (match (JoinCluster nat nat nat nat nat (λ co, co) (RaftLog true []) (λ _, Err 0) (λ _ _ _, (None, None))
              (λ _ _, Some 7) (str "node-2") (str "10.0.0.2:7000") (NewServer nat nat)).1 with
     | (Some r, None) => Ok r
     | _ => Err 0
     end) ≠ None.
Proof.
  pose proof (join_adds_voter nat nat nat nat nat (λ co, co)
    (λ r, match r with (Some r, None) => Ok r | _ => Err 0 end) (λ _, eq_refl) (RaftLog true [])
    (λ _, Err 0) (λ _ _ _, (None, None)) (λ _ _, Some 7) (str "node-2") (str "10.0.0.2:7000") (NewServer nat nat)
    ltac:(right; right; by eexists)) as H.
  cbn in *. destruct H as [_ H]. intros Hn. by apply H in Hn as [_ ?].
Defined.
