(* ===== verification/Reveal.v ===== *)
(** Revealing batches with the privacy layer: the pipeline of cmd/sequencer
    with the functions of pkg/privacy in the place of its two parameters.

    The pipeline takes decryption as functions of the ciphertexts; [decrypts]
    says that these are what DecryptBatch and DecryptSingle return, on whatever C
    memory, number of hardware threads and interleaving a call finds. *)

From S2P Require Import Prelude Commitment CMemory Tasks Decryption DecryptionInv DecryptionProps.
From S2P Require Import Privacy PrivacyProps GoSlice Mempool TxQueue OrderedLog Pipeline.

(** A result and error as main tests them. *)
Definition ok_value {E A} (r : res E A) : option A := match r with Ok a => Some a | Err _ => None end.

Lemma elem_of_concat_2 {A} (x : A) (l : list A) ls : x ∈ l → l ∈ ls → x ∈ concat ls.
Proof. rewrite !list_elem_of_In. intros. apply in_concat. by exists l. Qed.

(** The first ciphertext that is too short. *)
Lemma first_short (cts : list bytes) :
  ¬ Forall (λ ct, SealBytes ≤ length ct) cts →
  ∃ ok bad rest, cts = ok ++ bad :: rest ∧ Forall (λ ct, SealBytes ≤ length ct) ok ∧ length bad < SealBytes.
Proof.
  induction cts as [|ct l IH]; intros H; [by destruct H|].
  destruct (decide (SealBytes ≤ length ct)) as [Hle|Hgt].
  - destruct IH as (ok & b & rest & -> & ? & ?); [intros Hl; apply H; by constructor|].
    exists (ct :: ok), b, rest. split_and!; [done|by constructor|done].
  - exists [], ct, l. split_and!; [done|constructor|lia].
Qed.

Section reveal.
Context (seal_open : bytes → bytes → bytes → option bytes).
Context (seal_open_length : ∀ c pk sk msg, seal_open c pk sk = Some msg → length c = length msg + 48).
Context (pk sk : bytes) (pk_length : length pk = 32) (sk_length : length sk = 32).
Context (batch : list bytes → option (list bytes)) (single : bytes → option bytes).

Record decrypts : Prop := {
  dc_batch : ∀ cts, (Z.of_nat (length cts) < 2 ^ 63)%Z → Forall fits cts → ∃ hw sched m m' r,
    (0 ≤ hw)%Z ∧ (∀ k, k < length (chunks hw (Z.of_nat (length cts))) → 6 * length cts + 1 ≤ turns k sched) ∧
    Privacy.DecryptBatch seal_open hw sched cts pk sk m = Returned (r, m') ∧ batch cts = ok_value r;
  dc_single : ∀ ct, fits ct → ∃ m m' r,
    Privacy.DecryptSingle seal_open ct pk sk m = Some (r, m') ∧ single ct = ok_value r
}.

(** What DecryptSingle cannot decrypt. *)
Definition unopened (tx : EncryptedTransaction) : Prop :=
  length (Ciphertext tx) ≤ 48 ∨ item_out seal_open pk sk (Ciphertext tx) = None.

#[global] Instance unopened_dec tx : Decision (unopened tx) := ltac:(unfold unopened; apply _).

(** Whether DecryptBatch returns the messages. *)
Definition batch_opens (txs : list EncryptedTransaction) : Prop :=
  Forall (λ tx, is_Some (item_out seal_open pk sk (Ciphertext tx))) txs.

#[global] Instance batch_opens_dec txs : Decision (batch_opens txs) := ltac:(unfold batch_opens; apply _).

(** The IDs that the batch goroutine logs for a batch. *)
Definition failed_ids (txs : list EncryptedTransaction) : list Z :=
  if decide (batch_opens txs) then [] else ID <$> filter unopened txs.

Lemma item_out_long ct : is_Some (item_out seal_open pk sk ct) → SealBytes ≤ length ct.
Proof. intros [msg H%(item_out_length _ seal_open_length)]. unfold SealBytes. lia. Qed.

Lemma single_fails (tx : EncryptedTransaction) :
  decrypts → fits (Ciphertext tx) → single (Ciphertext tx) = None ↔ unopened tx.
Proof.
  intros [_ Hs] Hf. destruct (Hs (Ciphertext tx) Hf) as (m & m' & r & E & ->).
  rewrite (DecryptSingle_spec _ seal_open_length) in E by done. injection E as <- <-.
  unfold single_spec, unopened. case_decide; [naive_solver|].
  destruct (item_out seal_open pk sk (Ciphertext tx)); naive_solver.
Qed.

Lemma batch_succeeds txs :
  decrypts → (Z.of_nat (length txs) < 2 ^ 63)%Z → Forall fits (Ciphertext <$> txs) →
  is_Some (batch (Ciphertext <$> txs)) ↔ batch_opens txs.
Proof.
  intros [Hb _] Hn Hf. destruct (Hb (Ciphertext <$> txs)) as (hw & sched & m & m' & r & Hhw & Ht & E & ->);
    [by rewrite length_fmap|done|].
  destruct (decide (Forall (λ ct, SealBytes ≤ length ct) (Ciphertext <$> txs))) as [Hl|Hl].
  - rewrite (DecryptBatch_result _ seal_open_length) in E by (done || by rewrite length_fmap). injection E as <- <-.
    assert (batch_opens txs ↔ failing seal_open pk sk 0 (Ciphertext <$> txs) = []) as ->.
    { rewrite failing_nil, <- Forall_forall, Forall_fmap. done. }
    unfold batch_spec.
    destruct (failing seal_open pk sk 0 (Ciphertext <$> txs)); cbn; split; try done; try by intros [].
  - split.
    + intros [out Hout]. exfalso. destruct r as [|e]; [|done].
      apply first_short in Hl as (ok & bad' & rest & El & Hok & Hb').
      rewrite El in E. destruct (DecryptBatch_short seal_open hw sched ok bad' rest pk sk m) as (_ & _ & _ & _ & _ & m2 & _ & E2 & _);
        try done. congruence.
    + intros Ho. destruct Hl. apply Forall_fmap. eapply Forall_impl; [exact Ho|]. intros tx. cbn. apply item_out_long.
Qed.
Lemma reveal_exact txs :
  decrypts → (Z.of_nat (length txs) < 2 ^ 63)%Z → Forall fits (Ciphertext <$> txs) →
  reveal batch single txs = failed_ids txs.
Proof.
  intros Hd Hn Hf. unfold reveal, failed_ids. pose proof (batch_succeeds txs Hd Hn Hf) as Hb.
  destruct (batch (Ciphertext <$> txs)) as [out|]; case_decide as Ho; try done.
  - destruct Ho. apply Hb. by eexists.
  - apply Hb in Ho as [? ?]. done.
  - f_equal. apply filter_iff_elem. intros tx Htx. apply single_fails; [done|].
    rewrite Forall_fmap, Forall_forall in Hf. by apply Hf.
Qed.

(** A transaction that some client sealed for this key is not unopened. *)
Lemma sealed_opens seal plaintext m tx :
  (∀ msg pk c, seal msg pk = Some c → length c = length msg + 48) →
  (∀ msg c, seal msg pk = Some c → seal_open c pk sk = Some msg) →
  SealTransaction seal plaintext pk m = Some (Ok (Ciphertext tx), m) → ¬ unopened tx.
Proof.
  intros Hlen Hopen E. assert (plaintext ≠ []) as Hne by (by intros ->).
  rewrite SealTransaction_out in E by done. destruct (seal plaintext pk) as [c|] eqn:Es; [|done].
  injection E as ->. pose proof (Hlen _ _ _ Es) as Hc.
  assert (length plaintext ≠ 0) by (by destruct plaintext).
  intros [Hl|Ho]; [lia|]. unfold item_out in Ho. rewrite decide_True in Ho by lia.
  rewrite (Hopen _ _ Es) in Ho. done.
Qed.

(** ** In the pipeline *)

Context {L : Type} `{!OrderedLog L} `{!OrderedLogLaws L} (grow : nat → nat → nat).

Abbreviation runs_to := (pipe_reachable grow batch single (L := L)).

(** What is logged as undecryptable is what the batches leave. *)
Lemma failures_batches s : runs_to s → failures s = batches s ≫= reveal batch single.
Proof.
  induction 1 as [|s s' Hs IH Hstep]; [done|]. inversion Hstep as [| |? ? E|b ? ? E|]; subst; try done.
  - unfold collect in E. destruct (collector s) as [|d|[|tx txs]|]; try done.
    + by apply bind_Some in E as ([txs []] & _ & [= <-]).
    + by injection E as <-.
    + by apply bind_Some in E as (m & _ & [= <-]).
  - unfold batch_step in E. destruct (batcher s), b; try done.
    + by injection E as <-.
    + apply bind_Some in E as ([r m] & _ & E). by repeat case_match; simplify_eq.
    + apply bind_Some in E as (txs & _ & [= <-]). cbn. rewrite IH, bind_app. cbn. by rewrite app_nil_r.
Qed.

(** C23: what the reveal logs.  In the running sequencer, the transactions logged
    as undecryptable are, batch by batch and in order, none if the whole batch
    opens, and otherwise exactly those that do not open alone; so a transaction
    that a client sealed for the sequencer's key is never among them, whatever
    other clients put into its batch. *)
Theorem reveal_failures s :
  decrypts → runs_to s → Forall fits (Ciphertext <$> concat (batches s)) →
  failures s = batches s ≫= failed_ids ∧
  ∀ i, i ∈ failures s → ∃ tx, tx ∈ concat (batches s) ∧ ID tx = i ∧
    ∀ seal plaintext m,
      (∀ msg pk c, seal msg pk = Some c → length c = length msg + 48) →
      (∀ msg c, seal msg pk = Some c → seal_open c pk sk = Some msg) →
      SealTransaction seal plaintext pk m ≠ Some (Ok (Ciphertext tx), m).
Proof.
  intros Hd Hs Hf. destruct (committed_split _ _ _ s Hs) as (_ & _ & Hsz & _).
  assert (failures s = batches s ≫= failed_ids) as E.
  { rewrite failures_batches by done. clear Hs. induction (batches s) as [|b bs IH]; [done|].
    apply Forall_cons in Hsz as [Hb Hsz]. cbn in Hf. rewrite fmap_app in Hf. apply Forall_app in Hf as [Hf Hfs].
    cbn. rewrite IH, reveal_exact by (done || rewrite Hb; done). done. }
  split; [done|]. intros i. rewrite E. intros (b & Hi & Hb)%list_elem_of_bind.
  unfold failed_ids in Hi. case_decide; [by apply elem_of_nil in Hi|].
  apply list_elem_of_fmap in Hi as (tx & -> & [Hun Htx]%list_elem_of_filter).
  exists tx. split; [by eapply elem_of_concat_2|]. split; [done|].
  intros seal plaintext m H1 H2 H3. by eapply sealed_opens in H3.
Qed.
End reveal.

(** ** Witness: a batch of a thousand empty ciphertexts *)

(** One hardware thread, with turns enough for [n] items. *)
Definition one_thread (n : nat) : list nat := replicate (6 * n + 1) 0.

Definition toy_batch (cts : list bytes) : option (list bytes) :=
  match Privacy.DecryptBatch toy_open 1 (one_thread (length cts)) cts sample_pk sample_sk ∅ with
  | Returned (r, _) => ok_value r
  | _ => None
  end.

Definition toy_single (ct : bytes) : option bytes :=
  match Privacy.DecryptSingle toy_open ct sample_pk sample_sk ∅ with
  | Some (r, _) => ok_value r
  | None => None
  end.

Lemma one_thread_turns (cts : list bytes) k :
  k < length (chunks 1 (Z.of_nat (length cts))) → (0 < Z.of_nat (length cts) < 2 ^ 63)%Z →
  6 * length cts + 1 ≤ turns k (one_thread (length cts)).
Proof.
  intros Hk Hn. rewrite chunks_length in Hk by lia. unfold num_threads in Hk. cbn in Hk.
  assert (k = 0) as -> by lia. unfold one_thread. by rewrite turns_replicate.
Qed.

Lemma toy_decrypts : decrypts toy_open sample_pk sample_sk toy_batch toy_single.
Proof.
  split.
  - intros cts Hn Hf. exists 1%Z, (one_thread (length cts)), ∅.
    assert (∃ m' r, Privacy.DecryptBatch toy_open 1 (one_thread (length cts)) cts sample_pk sample_sk ∅ =
      Returned (r, m')) as (m' & r & E).
    { destruct (decide (cts = [])) as [->|Hne]; [by eexists _, _|].
      assert (length cts ≠ 0) by (by destruct cts).
      destruct (decide (Forall (λ ct, SealBytes ≤ length ct) cts)) as [Hl|Hl].
      - eexists _, _. apply DecryptBatch_result; try done; [apply toy_open_length|].
        intros k Hk. apply one_thread_turns; [done|lia].
      - apply first_short in Hl as (ok & bad & rest & -> & Hok & Hbad).
        destruct (DecryptBatch_short toy_open 1 (one_thread (length (ok ++ bad :: rest))) ok bad rest
          sample_pk sample_sk ∅) as (_ & _ & _ & _ & _ & m2 & _ & E & _); try done. by eexists _, _. }
    exists m', r. unfold toy_batch. rewrite E. split_and!; [done| |done..].
    intros k Hk. destruct (decide (length cts = 0)) as [H0|H0].
    + rewrite H0 in Hk. vm_compute in Hk. lia.
    + apply one_thread_turns; [done|lia].
  - intros ct Hf. eexists ∅, ∅, _. unfold toy_single.
    rewrite (DecryptSingle_spec _ toy_open_length) by done. by split.
Qed.

Lemma reveal_failures_witness :
  ∃ (s : sequencer (L := TxQueue)) b, pipe_reachable doubling toy_batch toy_single s ∧ batches s = [b] ∧
    length (failures s) = 1000 ∧ failures s = ID <$> b.
Proof.
  destruct (one_batch_processed toy_batch toy_single) as (s & b & Hs & Hb & _ & Hct). exists s, b.
  split; [done|]. split; [done|].
  destruct (committed_split _ _ _ s Hs) as (_ & _ & Hlen & _). rewrite Hb, Forall_singleton in Hlen.
  destruct (reveal_failures toy_open toy_open_length sample_pk sample_sk eq_refl eq_refl toy_batch toy_single
    doubling s toy_decrypts Hs) as [E _].
  - rewrite Hb. cbn. rewrite app_nil_r. apply Forall_fmap. eapply Forall_impl; [exact Hct|]. intros tx. cbn. by intros ->.
  - rewrite Hb in E. cbn [mbind list_bind] in E. rewrite app_nil_r in E.
    assert (failed_ids toy_open sample_pk sample_sk b = ID <$> b) as Eb.
    { unfold failed_ids. destruct b as [|tx b]; [done|]. rewrite decide_False.
      - f_equal. clear - Hct. induction Hct as [|tx' l Htx' _ IH]; [done|].
        rewrite filter_cons_True by (left; rewrite Htx'; cbn; lia). by rewrite IH.
      - intros Ho. apply Forall_cons in Ho as [[msg Ho] _]. apply Forall_cons in Hct as [Htx _]. by rewrite Htx in Ho. }
    rewrite Eb in E. split; [|done]. rewrite E, length_fmap. unfold batchSize in Hlen. lia.
Defined.
