(* ===== verification/Node.v ===== *)
(** The running single-node sequencer of cmd/sequencer/main.go: concurrent
    SubmitTx handlers, the ordering queue, the collector and batch goroutines,
    the goroutines that publish commitments, and main itself from the signal to
    its end.

    The parts are composed through their interfaces.  The queue with its
    handlers ([Ingress]) is an OrderedLog, so that the pipeline of [Pipeline]
    runs on it unchanged; [node_step] adds main, which decides when requests are
    accepted and when the context and the queue are closed. *)

From S2P Require Import Prelude Commitment GoSlice Mempool TxQueue TxQueueInv TxQueueProps.
From S2P Require Import ReceptionStore OrderedLog Ingress Pipeline Server.

(** ** The queue with its handlers is an ordered log *)

Definition ingress_log_event (e : ingress_event) : option (option (nat * Z)) :=
  match e with IQueue e => log_event e | _ => Some None end.

#[export] Instance ingress_log : OrderedLog ingress := {
  log_ok s := txqueue_ok (iqueue s);
  log_step o s s' := ∃ e, ingress_log_event e = Some o ∧ ingress_step e s = Some s';
  committed s := committed (iqueue s);
  taken s := taken (iqueue s);
  asked s := asked (iqueue s);
  drain_result s := drain_result (iqueue s);
  ids_fit s := ids_fit (iqueue s)
}.

(** A step of the handlers is a step of the queue or leaves it alone. *)
Lemma ingress_log_step o (s s' : ingress) :
  log_step o s s' → log_step o (iqueue s) (iqueue s') ∨ o = None ∧ iqueue s' = iqueue s.
Proof.
  intros (e & Ee & E). destruct e as [c x ct|e|c|c]; cbn in Ee, E; simplify_eq.
  - destruct (handlers s !! c); [done|]. apply bind_Some in E as (q & E & [= <-]).
    left. by exists (ESubmit c x ct).
  - destruct (is_submit e); [done|]. apply bind_Some in E as (q & E & [= <-]).
    left. by exists e.
  - right. split; [done|]. apply bind_Some in E as (h & _ & (k & _ & E)%bind_Some).
    by destruct h, (sc_pc k); simplify_eq/=.
  - right. split; [done|]. apply bind_Some in E as (h & _ & E). by destruct h; simplify_eq/=.
Qed.

#[export] Instance ingress_log_laws : OrderedLogLaws ingress.
Proof.
  split.
  - intros o s s' Hs [H|[_ E]]%ingress_log_step; [exact (log_ok_step (L := TxQueue) _ _ _ Hs H)|].
    cbn in *. by rewrite E.
  - intros o s s' Hs [H|[_ E]]%ingress_log_step; [exact (committed_step (L := TxQueue) _ _ _ Hs H)|].
    cbn in *. by rewrite E.
  - intros s. exact (committed_sorted (L := TxQueue) (iqueue s)).
  - intros s. exact (taken_prefix (L := TxQueue) (iqueue s)).
  - intros o s s' Hs [H|[_ E]]%ingress_log_step; [exact (taken_step (L := TxQueue) _ _ _ Hs H)|].
    exists []. cbn. rewrite E, app_nil_r. split; [done|]. by intros p ?%elem_of_nil.
  - intros s p. exact (taken_asked (L := TxQueue) (iqueue s) p).
  - intros s s' d n Hs [H|[? _]]%ingress_log_step; [|done]. exact (asked_begin (L := TxQueue) _ _ _ _ Hs H).
  - intros o s s' d Hs [H|[-> E]]%ingress_log_step; [exact (asked_step (L := TxQueue) _ _ _ d Hs H)|].
    cbn. by rewrite E.
  - intros o s s' d r Hs [H|[-> E]]%ingress_log_step; [exact (result_step (L := TxQueue) _ _ _ d r Hs H)|].
    cbn. by rewrite E.
  - intros s d r. exact (result_asked (L := TxQueue) (iqueue s) d r).
  - intros s d b err. exact (result_batch (L := TxQueue) (iqueue s) d b err).
  - intros s d n b err. exact (result_size (L := TxQueue) (iqueue s) d n b err).
Qed.

Lemma ingress_start_ok q : txqueue_ok q → log_ok (ingress_start q).
Proof. done. Qed.

(** ** Data *)

(** Where main is: waiting for a signal; about to call cancel, rpcServer.Close,
    GracefulStop; in GracefulStop; about to call orderedLog.Close; returned. *)
Inductive main_pc :=
| MServing | MCancel | MCloseServer | MGraceful | MDraining | MCloseLog | MStopped.

#[global] Instance main_pc_eq_decision : EqDecision main_pc.
Proof. solve_decision. Defined.

(** [sdone] of the server, the commitments whose publishing goroutines run, and
    (history) those that have ended, with whether they were published. *)
Record node := Node {
  pipe : sequencer (L := ingress);
  main : main_pc;
  server_done : bool;
  settling : list bytes;
  settled : list (bytes * bool)
}.

(** Context 0 is main's; the others belong to requests. *)
Definition main_ctx : nat := 0.

Definition inode (n : node) : ingress := slog (pipe n).
Definition qnode (n : node) : TxQueue := iqueue (inode n).

Definition set_pipe (p : sequencer) (n : node) : node :=
  Node p (main n) (server_done n) (settling n) (settled n).
Definition set_main (m : main_pc) (n : node) : node :=
  Node (pipe n) m (server_done n) (settling n) (settled n).

(** The local node's Server: it never dials another node. *)
Definition rpcServer (n : node) : Server nat nat :=
  MkServer nat nat (store (inode n)) (server_done n) ∅ ∅.

Inductive node_event :=
| NRequest (c x : nat) (ciphertext : bytes)   (* an RPC arrives *)
| NHandler (e : ingress_event)                (* a step of a handler or of the queue *)
| NGiveUp (x : nat) (e : ctx_error)           (* a request's context ends *)
| NCall (d : nat)                             (* the collector calls DrainWait(ctx, 1) *)
| NCollect
| NBatch (b : batch_branch)
| NSettle (i : nat) (ok : bool)               (* a publishing goroutine ends *)
| NMain.

(** Whether the queue can take a step as part of a handler, of the admission
    goroutine or of the collector's DrainWait. *)
Definition goroutine_event (e : ingress_event) : bool :=
  match e with
  | IRequest _ _ _ => false
  | IQueue e => match e with
                | ECall _ _ | EAdmission _ | EDrainCall _ _ | ERvSubmit _ | ERvDeliver _ => true
                | ESubmit _ _ _ | EDrainWait _ _ _ | EDrain _ _ | EClose | ECtxDone _ _ => false
                end
  | IReturn _ | IStore _ => true
  end.

(** The gRPC server takes requests until GracefulStop. *)
Definition accepting (m : main_pc) : bool :=
  match m with
  | MServing | MCancel | MCloseServer | MGraceful => true
  | MDraining | MCloseLog | MStopped => false
  end.

Definition replied (h : handler) : bool := match h with HReplied _ => true | _ => false end.

Section node.
Context (grow : nat → nat → nat).
Context (DecryptBatch : list bytes → option (list bytes)) (DecryptSingle : bytes → option bytes).
(** Whether GracefulStop returns with these handlers: it waits for those that
    run. *)
Context (graceful : gmap nat handler → bool).
Context (graceful_waits : ∀ hs, graceful hs = true ↔ map_Forall (λ _ h, replied h = true) hs).

(** A step of the queue and its handlers. *)
Definition node_ingress (e : ingress_event) (n : node) : option node :=
  i ← ingress_step e (inode n);
  Some (set_pipe (set_slog i (pipe n)) n).

(** ** main after the signal

    [NMain] at [MServing] is the arrival of the signal. *)
Definition node_main (n : node) : option node :=
  match main n with
  | MServing => Some (set_main MCancel n)
  | MCancel =>
      n ← node_ingress (IQueue (ECtxDone main_ctx Canceled)) n;
      Some (set_main MCloseServer (set_pipe (cancel (pipe n)) n))
  | MCloseServer =>
      '(_, s) ← server_Close nat nat (rpcServer n);
      Some (Node (pipe n) MGraceful (sdone _ _ s) (settling n) (settled n))
  | MGraceful => Some (set_main MDraining n)
  | MDraining => if graceful (handlers (inode n)) then Some (set_main MCloseLog n) else None
  | MCloseLog => n ← node_ingress (IQueue EClose) n; Some (set_main MStopped n)
  | MStopped => None
  end.

(** A batch step starts a publishing goroutine for a commitment it handed
    over; in local mode every commitment is published. *)
Definition node_batch (b : batch_branch) (n : node) : option node :=
  match b with
  | BRun false => None
  | _ =>
      p ← batch_step grow DecryptBatch DecryptSingle b (pipe n);
      Some (Node p (main n) (server_done n)
              (settling n ++ drop (length (published (pipe n))) (published p)) (settled n))
  end.

(** When main returns, the process and every goroutine in it end. *)
Definition node_step (e : node_event) (n : node) : option node :=
  if decide (main n = MStopped) then None
  else
      match e with
      | NRequest c x ct =>
          if decide (accepting (main n) = true ∧ x ≠ main_ctx) then node_ingress (IRequest c x ct) n
          else None
      | NHandler e => if goroutine_event e then node_ingress e n else None
      | NGiveUp x e =>
          if decide (x = main_ctx) then None else node_ingress (IQueue (ECtxDone x e)) n
      | NCall d =>
          match collector (pipe n) with
          | CLoop =>
              n ← node_ingress (IQueue (EDrainWait d main_ctx 1)) n;
              Some (set_pipe (set_collector (CWait d) (pipe n)) n)
          | _ => None
          end
      | NCollect => p ← collect grow (pipe n); Some (set_pipe p n)
      | NBatch b => node_batch b n
      | NSettle i ok =>
          c ← settling n !! i;
          Some (Node (pipe n) (main n) (server_done n) (delete i (settling n)) (settled n ++ [(c, ok)]))
      | NMain => node_main n
      end.

Fixpoint node_run (es : list node_event) (n : node) : option node :=
  match es with
  | [] => Some n
  | e :: es => n ← node_step e n; node_run es n
  end.

(** newOrderedLog in local mode, and the goroutines at their starts. *)
Definition boot : option node :=
  q ← NewTxQueue 100;
  Some (Node (start (ingress_start q)) MServing false [] []).

Inductive node_reachable : node → Prop :=
| node_boot n : boot = Some n → node_reachable n
| node_next e n n' : node_reachable n → node_step e n = Some n' → node_reachable n'.

Lemma node_reachable_run es n n' : node_reachable n → node_run es n = Some n' → node_reachable n'.
Proof.
  revert n. induction es as [|e es IH]; intros n Hr; cbn; [by intros [= <-]|].
  intros (n1 & E & Hrun)%bind_Some. eapply IH, Hrun. by econstructor.
Qed.

(** ** The parts of a node *)

Abbreviation pipeline_reachable := (pipe_reachable grow DecryptBatch DecryptSingle (L := ingress)).

Lemma node_ingress_Some e n n' :
  node_ingress e n = Some n' →
  ∃ i, ingress_step e (inode n) = Some i ∧ n' = set_pipe (set_slog i (pipe n)) n.
Proof. intros (i & E & [= <-])%bind_Some. eauto. Qed.

Lemma node_ingress_pipe e n n' :
  ingress_log_event e = Some None → node_ingress e n = Some n' →
  pipeline_reachable (pipe n) → pipeline_reachable (pipe n').
Proof.
  intros He (i & E & ->)%node_ingress_Some Hp. eapply pipe_next; [done|].
  apply P_log. by exists e.
Qed.

Lemma goroutine_log_event e : goroutine_event e = true → ingress_log_event e = Some None.
Proof. by destruct e as [|[]| |]. Qed.

(** Each step of a node is a step of its pipeline, or none, or two. *)
Lemma node_step_pipe e n n' :
  node_step e n = Some n' → pipeline_reachable (pipe n) → pipeline_reachable (pipe n').
Proof.
  unfold node_step. intros E Hp. case_decide; [done|].
  destruct e as [c x ct|e|x e|d| |b|i ok|].
  - case_decide; [|done]. exact (node_ingress_pipe (IRequest c x ct) _ _ eq_refl E Hp).
  - destruct (goroutine_event e) eqn:Hg; [|done].
    exact (node_ingress_pipe _ _ _ (goroutine_log_event e Hg) E Hp).
  - case_decide; [done|]. exact (node_ingress_pipe (IQueue (ECtxDone x e)) _ _ eq_refl E Hp).
  - destruct (collector (pipe n)) eqn:Hc; try done.
    apply bind_Some in E as (n1 & (i & E & ->)%node_ingress_Some & [= <-]).
    eapply pipe_next; [done|]. apply P_call; [done|]. by exists (IQueue (EDrainWait d main_ctx 1)).
  - apply bind_Some in E as (p & E & [= <-]). eapply pipe_next; [done|]. by apply P_collect.
  - unfold node_batch in E. destruct b as [| |[]]; try done;
      apply bind_Some in E as (p & E & [= <-]); eapply pipe_next; try done; by eapply P_batch.
  - by apply bind_Some in E as (c & _ & [= <-]).
  - unfold node_main in E. destruct (main n) eqn:Hm; try done.
    + by injection E as <-.
    + apply bind_Some in E as (n1 & E & [= <-]). eapply pipe_next; [|apply P_cancel].
      exact (node_ingress_pipe (IQueue (ECtxDone _ _)) _ n1 eq_refl E Hp).
    + by apply bind_Some in E as ([cl s] & _ & [= <-]).
    + by injection E as <-.
    + destruct (graceful _); [|done]. by injection E as <-.
    + apply bind_Some in E as (n1 & E & [= <-]). exact (node_ingress_pipe (IQueue EClose) _ n1 eq_refl E Hp).
Qed.

Lemma boot_Some n :
  boot = Some n → n = Node (start (ingress_start (empty_queue 100))) MServing false [] [].
Proof. by intros [= <-]. Qed.

Lemma node_pipe n : node_reachable n → pipeline_reachable (pipe n).
Proof.
  induction 1 as [n ->%boot_Some|e n n' _ IH E]; [|by eapply node_step_pipe].
  apply pipe_start; [|done]. split; [|done]. by eapply reachable_new, (empty_queue_new 100).
Qed.
End node.
