(* ===== verification/NodeInv.v ===== *)
(** Invariants of the running node: the queue of a node that has not stopped,
    and the whole node. *)

From S2P Require Import Prelude Commitment GoSlice Mempool TxQueue TxQueueInv TxQueueProps.
From S2P Require Import ReceptionStore OrderedLog Ingress Pipeline Server Node.

(** ** The queue of a node that has not stopped *)

Definition node_queue_event (e : event) : Prop :=
  match e with
  | EClose | EDrain _ _ => False
  | EDrainWait _ x n => x = main_ctx ∧ n = 1%Z
  | ESubmit _ x _ => x ≠ main_ctx
  | _ => True
  end.

(** The error a call with context [x] got is that of its context. *)
Definition gave_up (q : TxQueue) (x : nat) (e : q_error) : Prop :=
  match e with CtxErr e => ctxs q !! x = Some e | ErrQueueClosed => False end.

(** Nobody is told that the queue is closed; a caller that waits for its
    response is in hand or in [submitCh]; every drain is the collector's, and
    no request shares main's context. *)
Record served (q : TxQueue) : Prop := {
  sv_reach : reachable q;
  sv_panic : panicked q = false;
  sv_cap : capacity q = 100;
  sv_wait : ∀ c k, calls q !! c = Some k → sc_pc k = SWait → sc_resp k = None →
              c ∈ held (adm q) ++ submitCh q;
  sv_err : ∀ c k r e, calls q !! c = Some k → sc_resp k = Some r ∨ sc_pc k = SReturned r →
             resp_err r = Some e → gave_up q (sc_ctx k) e;
  sv_drains : ∀ d k, drains q !! d = Some k → d_ctx k = Some main_ctx ∧ d_size k = 1%Z;
  sv_ctx : ∀ c k, calls q !! c = Some k → sc_ctx k ≠ main_ctx
}.

Lemma open_admission q :
  reachable q → done q = false →
  shutting_down (adm q) = false ∧ ch_closed q = false ∧ closeOnce q = false.
Proof.
  intros Hr Hd. destruct (i_ctrl _ (inv_reachable q Hr)) as [Ho Hs Hc _].
  split_and!; [| |congruence].
  - destruct (shutting_down (adm q)); [|done]. by rewrite Hs in Hd.
  - destruct (ch_closed q); [|done]. destruct (adm q); try (by destruct Hc as [Hc _]; specialize (Hc eq_refl)).
    by rewrite Hs in Hd.
Qed.

Lemma wait_step q q' :
  effect q q' →
  (∀ c k, calls q !! c = Some k → sc_pc k = SWait → sc_resp k = None → c ∈ held (adm q) ++ submitCh q) →
  ∀ c k, calls q' !! c = Some k → sc_pc k = SWait → sc_resp k = None → c ∈ held (adm q') ++ submitCh q'.
Proof.
  intros He Hw c' k' Hk' Hpc Hr.
  destruct He; cbn in *; try (by eapply Hw);
    repeat match goal with H : _ ∨ _ |- _ => destruct H | H : _ ∧ _ |- _ => destruct H end; subst;
    lookup_cases; try done; try pose proof (Hw _ _ Hk' Hpc Hr) as Hin; clear Hw;
    repeat match goal with E : adm q = _ |- _ => rewrite E in *; clear E
      | E : submitCh q = _ |- _ => rewrite E in *; clear E
      | E : _ ++ submitCh q = _ |- _ => rewrite E in *; clear E end; cbn in *; set_solver.
Qed.

(** A context that has ended stays ended. *)
Lemma ctxs_mono q q' x e : effect q q' → ctxs q !! x = Some e → ctxs q' !! x = Some e.
Proof.
  intros He Hx. destruct He; cbn; try done; try (by repeat case_match).
  rewrite lookup_insert. case_decide; [congruence|done].
Qed.

Lemma err_step e q q' :
  step e q = Some q' → done q = false → shutting_down (adm q) = false →
  (∀ c k r er, calls q !! c = Some k → sc_resp k = Some r ∨ sc_pc k = SReturned r →
     resp_err r = Some er → gave_up q (sc_ctx k) er) →
  ∀ c k r er, calls q' !! c = Some k → sc_resp k = Some r ∨ sc_pc k = SReturned r →
     resp_err r = Some er → gave_up q' (sc_ctx k) er.
Proof.
  intros E Hd Ha Hq c' k' r' er' Hk Hr Her. pose proof (step_effect _ _ _ E) as [_ Hf].
  enough (gave_up q (sc_ctx k') er') as Hg.
  { destruct er'; [done|]. by eapply ctxs_mono. }
  unfold step in E. destruct (panicked q); [done|]. clear Hf.
  destruct e as [c x p|c b|b|d x n|d n|d b|c|d| |x e];
    unfold submit_begin, submit_step, admission_step, reject_step, drain_begin, drain_step,
      rv_submit, rv_deliver, Close, close_ch, call_ctx_err in E; invert_step; cbn in *; try congruence;
    try (by eapply Hq);
    try match goal with A : adm q = AReject |- _ => by rewrite A in Ha end;
    try (by repeat case_match; eapply Hq);
    lookup_cases; try (by eapply Hq);
    destruct Hr as [Hr|Hr]; simplify_eq/=; try done; by (eapply Hq; eauto).
Qed.

(** A call keeps its context. *)
Lemma calls_ctx e q q' c k' :
  step e q = Some q' → calls q' !! c = Some k' →
  (∃ k, calls q !! c = Some k ∧ sc_ctx k' = sc_ctx k) ∨ ∃ ct, e = ESubmit c (sc_ctx k') ct.
Proof.
  unfold step. destruct (panicked q); [done|]. intros E Hk.
  destruct e as [c0 x p|c0 b|b|d x n|d n|d b|c0|d| |x e].
  1: { unfold submit_begin in E. invert_step. cbn in Hk. rewrite lookup_insert in Hk.
       case_decide; simplify_eq/=; eauto. }
  all: left; unfold submit_step, admission_step, reject_step, drain_begin, drain_step,
      rv_submit, rv_deliver, Close, close_ch in E; invert_step; cbn in *; try (by eauto);
    try (by repeat case_match; eauto); lookup_cases; eauto.
Qed.

Lemma done_step e q q' : step e q = Some q' → e ≠ EClose → done q' = done q.
Proof.
  unfold step. destruct (panicked q); [done|]. intros E He.
  destruct e as [c0 x p|c0 b|b|d x n|d n|d b|c0|d| |x e]; try done;
    unfold submit_begin, submit_step, admission_step, reject_step, drain_begin, drain_step,
      rv_submit, rv_deliver, close_ch in E; invert_step; cbn in *; try done; by repeat case_match.
Qed.

Lemma served_step e q q' :
  served q → done q = false → node_queue_event e → step e q = Some q' → served q' ∧ done q' = false.
Proof.
  intros [Hr Hp Hcap Hw He Hd Hx] Hdn Hev E.
  destruct (open_admission q Hr Hdn) as (Ha & Hc & Ho).
  pose proof (step_effect _ _ _ E) as [_ Hf].
  assert (∀ d k, drains q' !! d = Some k → d_ctx k = Some main_ctx ∧ d_size k = 1%Z) as Hd'.
  { intros d k' Hk'. destruct (drains q !! d) as [k|] eqn:Hk.
    - destruct (drains_mono _ _ _ _ Hf Hk) as (k1 & Hk1 & Hc1 & Hs1 & _). simplify_eq.
      destruct (Hd d k Hk). by rewrite Hc1, Hs1.
    - pose proof (drains_old _ _ _ _ E Hk) as H. destruct e; cbn in Hev; try done; rewrite Hk' in H; try done.
      case_decide; [|done]. simplify_eq. by destruct Hev as [-> ->]. }
  assert (reachable q') as Hr' by (by econstructor).
  split; [split|]; try done.
  - destruct (panicked q') eqn:Hp'; [|done].
    destruct (ic_panic _ (i_ctrl _ (inv_reachable _ Hr')) Hp') as (d & k & Hk & Hsz).
    destruct (Hd' d k Hk). lia.
  - by destruct Hf; cbn; repeat case_match.
  - by eapply wait_step.
  - by eapply err_step.
  - intros c k' Hk'. destruct (calls_ctx _ _ _ _ _ E Hk') as [(k & Hk & ->)|[ct ->]]; [by eapply Hx|done].
  - rewrite (done_step _ _ _ E); [done|]. by intros ->.
Qed.

Lemma served_close q q' : served q → done q = false → step EClose q = Some q' → served q' ∧ done q' = true.
Proof.
  intros [Hr Hp Hcap Hw He Hd Hx] Hdn E. assert (reachable q') as Hr' by (by econstructor).
  unfold step in E. rewrite Hp in E. injection E as <-.
  destruct (open_admission q Hr Hdn) as (_ & _ & Ho). unfold Close in *. rewrite Ho, Hdn in *. by split.
Qed.

(** ** Steps of the handlers *)

(** What the queue does in a step of the handlers. *)
Definition queue_part (e : ingress_event) : option event :=
  match e with
  | IRequest c x ct => Some (ESubmit c x ct)
  | IQueue e => Some e
  | IReturn _ | IStore _ => None
  end.

Lemma ingress_queue e i i' :
  ingress_step e i = Some i' →
  match queue_part e with
  | Some e => step e (iqueue i) = Some (iqueue i')
  | None => iqueue i' = iqueue i
  end.
Proof.
  destruct e as [c x ct|e|c|c]; cbn; intros E.
  - destruct (handlers i !! c); [done|]. by apply bind_Some in E as (q & E & [= <-]).
  - destruct (is_submit e); [done|]. by apply bind_Some in E as (q & E & [= <-]).
  - apply bind_Some in E as (h & _ & (k & _ & E)%bind_Some). by destruct h, (sc_pc k); simplify_eq/=.
  - apply bind_Some in E as (h & _ & E). by destruct h; simplify_eq/=.
Qed.

(** A call that has returned stays as it is. *)
Lemma returned_mono q q' c k r :
  effect q q' → calls q !! c = Some k → sc_pc k = SReturned r →
  ∃ k', calls q' !! c = Some k' ∧ sc_pc k' = SReturned r.
Proof.
  intros He Hc Hpc. destruct He; cbn; try (by eauto); try (by repeat case_match; cbn; eauto);
    lookup_cases; try (by eauto); repeat match goal with H : _ ∨ _ |- _ => destruct H end; congruence.
Qed.

(** A handler past SubmitWithReceipt has its result; one that refused got an
    error. *)
Definition got_result (h : handler) (k : submit_call) : Prop :=
  h ≠ HSubmit → ∃ r, sc_pc k = SReturned r ∧ (h = HReplied false → is_Some (resp_err r)).

Definition handlers_ok (i : ingress) : Prop :=
  ∀ c h, handlers i !! c = Some h → ∃ k, calls (iqueue i) !! c = Some k ∧ got_result h k.

(** Every call is that of a handler. *)
Definition calls_ok (i : ingress) : Prop :=
  ∀ c, is_Some (calls (iqueue i) !! c) → is_Some (handlers i !! c).

Lemma calls_ok_step e i i' :
  calls_ok i → ingress_step e i = Some i' → calls_ok i'.
Proof.
  intros Hi E c [k' Hk']. pose proof (ingress_queue _ _ _ E) as Hq.
  assert (is_Some (calls (iqueue i) !! c) ∨ ∃ x ct, e = IRequest c x ct) as [Hc|(x & ct & ->)].
  { destruct (queue_part e) as [e0|] eqn:Ee; [|left; rewrite <- Hq; by eexists].
    destruct (calls_ctx _ _ _ _ _ Hq Hk') as [(k & Hk & _)|[ct ->]]; [left; by eexists|].
    destruct e as [c0 x ct0|e| |]; simplify_eq/=. right. eauto. }
  - apply Hi in Hc as [h Hc]. destruct e as [c0 x ct|e|c0|c0]; cbn in E.
    + destruct (handlers i !! c0) eqn:Hc0; [done|]. apply bind_Some in E as (q & E & [= <-]). cbn.
      rewrite lookup_insert. case_decide; by eexists.
    + destruct (is_submit e); [done|]. apply bind_Some in E as (q & E & [= <-]). by eexists.
    + apply bind_Some in E as (h0 & Hh & (k & Hk & E)%bind_Some). destruct h0, (sc_pc k); simplify_eq/=.
      rewrite lookup_insert. case_decide; by eexists.
    + apply bind_Some in E as (h0 & Hh & E). destruct h0; simplify_eq/=.
      rewrite lookup_insert. case_decide; by eexists.
  - cbn in E. destruct (handlers i !! c); [done|]. apply bind_Some in E as (q & E & [= <-]). cbn.
    rewrite lookup_insert_eq. by eexists.
Qed.

Lemma handlers_ok_step e i i' : handlers_ok i → ingress_step e i = Some i' → handlers_ok i'.
Proof.
  intros Hi E. assert (∀ c h, handlers i !! c = Some h →
    ∃ k', calls (iqueue i') !! c = Some k' ∧ got_result h k') as Hold.
  { intros c h Hh. destruct (Hi c h Hh) as (k & Hk & Hr). apply ingress_queue in E.
    destruct (queue_part e) as [e0|]; [|rewrite E; eauto]. apply step_effect in E as [_ Hf].
    assert (h = HSubmit ∨ h ≠ HSubmit) as [->|Hne] by (destruct h; naive_solver).
    - destruct (calls_mono _ _ _ _ Hf Hk) as (k' & ? & _). exists k'. split; [done|]. by intros ?.
    - destruct (Hr Hne) as (r & Hpc & He). destruct (returned_mono _ _ _ _ _ Hf Hk Hpc) as (k' & ? & ?).
      exists k'. split; [done|]. intros _. eauto. }
  intros c' h' Hh'. destruct e as [c x ct|e|c|c]; cbn in E.
  - destruct (handlers i !! c) eqn:Hc; [done|]. apply bind_Some in E as (q & E & [= <-]). cbn in *.
    rewrite lookup_insert in Hh'. case_decide; [|by eapply Hold]. simplify_eq.
    unfold step, submit_begin in E. destruct (panicked _); [done|]. invert_step. cbn.
    rewrite lookup_insert_eq. eexists; split; [done|]. by intros ?.
  - destruct (is_submit e); [done|]. apply bind_Some in E as (q & E & [= <-]). by eapply Hold.
  - apply bind_Some in E as (h & Hh & (k & Hk & E)%bind_Some). destruct h, (sc_pc k) eqn:Hpc; simplify_eq/=.
    rewrite lookup_insert in Hh'. case_decide; [|by eapply Hold]. simplify_eq.
    eexists. split; [done|]. intros _. eexists. split; [done|]. by destruct (resp_err _).
  - apply bind_Some in E as (h & Hh & E). destruct h; simplify_eq/=.
    rewrite lookup_insert in Hh'. case_decide; [|by eapply Hold]. simplify_eq.
    destruct (Hi _ _ Hh) as (k & Hk & Hr). eexists. split; [done|]. intros _.
    destruct Hr as (r & Hpc & _); [done|]. by exists r.
Qed.

(** Once every handler has replied, only a new request changes that. *)
Definition all_replied (i : ingress) : Prop := map_Forall (λ _ h, replied h = true) (handlers i).

Lemma all_replied_step e i i' :
  all_replied i → (∀ c x ct, e ≠ IRequest c x ct) → ingress_step e i = Some i' → all_replied i'.
Proof.
  intros Hi He E. destruct e as [c x ct|e|c|c]; cbn in E; [by destruct (He c x ct)| | |].
  - destruct (is_submit e); [done|]. by apply bind_Some in E as (q & E & [= <-]).
  - apply bind_Some in E as (h & Hh & (k & Hk & E)%bind_Some). specialize (Hi _ _ Hh). by destruct h.
  - apply bind_Some in E as (h & Hh & E). specialize (Hi _ _ Hh). by destruct h.
Qed.

(** Only the event that ends a context ends it. *)
Lemma ctxs_step e q q' x :
  step e q = Some q' → (∀ y, e ≠ ECtxDone x y) → ctxs q' !! x = ctxs q !! x.
Proof.
  unfold step. destruct (panicked q); [done|]. intros E He.
  destruct e as [c0 x0 p|c0 b|b|d x0 n|d n|d b|c0|d| |x0 e];
    unfold submit_begin, submit_step, admission_step, reject_step, drain_begin, drain_step,
      rv_submit, rv_deliver, Close, close_ch in E; invert_step; cbn in *; try done; try (by repeat case_match).
  rewrite lookup_insert_ne; [done|]. intros ->. by eapply He.
Qed.

(** ** The node *)

Section node.
Context (grow : nat → nat → nat).
Context (DecryptBatch : list bytes → option (list bytes)) (DecryptSingle : bytes → option bytes).
Context (graceful : gmap nat handler → bool).
Context (graceful_waits : ∀ hs, graceful hs = true ↔ map_Forall (λ _ h, replied h = true) hs).

Abbreviation step1 := (node_step grow DecryptBatch DecryptSingle graceful).
Abbreviation reached := (node_reachable grow DecryptBatch DecryptSingle graceful).

(** Where main is decides what is closed and whether handlers run. *)
Definition past_cancel (m : main_pc) : bool :=
  match m with MServing | MCancel => false | _ => true end.
Definition past_server (m : main_pc) : bool :=
  match m with MServing | MCancel | MCloseServer => false | _ => true end.
Definition past_graceful (m : main_pc) : bool :=
  match m with MCloseLog | MStopped => true | _ => false end.

Record node_inv (n : node) : Prop := {
  ni_pipe : pipe_reachable grow DecryptBatch DecryptSingle (pipe n);
  ni_ingress : ∃ added, ingress_inv (inode n) added;
  ni_served : served (qnode n);
  ni_done : done (qnode n) = bool_decide (main n = MStopped);
  ni_ctx : is_Some (ctxs (qnode n) !! main_ctx) ↔ past_cancel (main n) = true;
  ni_cancelled : cancelled (pipe n) = past_cancel (main n);
  ni_server : server_done n = past_server (main n);
  ni_replied : past_graceful (main n) = true → all_replied (inode n);
  ni_handler : handlers_ok (inode n) ∧ calls_ok (inode n);
  ni_published : published (pipe n) ≡ₚ settling n ++ (settled n).*1;
  ni_all : published (pipe n) = commitments (pipe n)
}.

Lemma node_move e n i :
  node_inv n → main n ≠ MStopped → ingress_step e (inode n) = Some i →
  (∀ e0, queue_part e = Some e0 → node_queue_event e0) →
  (past_graceful (main n) = true → ∀ c x ct, e ≠ IRequest c x ct) →
  (∃ added, ingress_inv i added) ∧ (served (iqueue i) ∧ done (iqueue i) = false) ∧
  (past_graceful (main n) = true → all_replied i) ∧ (handlers_ok i ∧ calls_ok i) ∧
  ((∀ y, queue_part e ≠ Some (ECtxDone main_ctx y)) →
   ctxs (iqueue i) !! main_ctx = ctxs (qnode n) !! main_ctx).
Proof.
  intros [Hp [added Hi] Hs Hd _ _ _ Hr Hh _ _] Hm E Hev Hreq. rewrite bool_decide_false in Hd by done.
  pose proof (ingress_queue _ _ _ E) as Hq. split; [by eapply ingress_step_inv|]. split; [|split_and!].
  - destruct (queue_part e) as [e0|]; [|by rewrite Hq]. eapply (served_step e0); eauto.
  - intros Hg. eapply all_replied_step; eauto.
  - destruct Hh as [Hh _]. by eapply handlers_ok_step.
  - destruct Hh as [_ Hh]. by eapply calls_ok_step.
  - intros Hne. destruct (queue_part e) as [e0|]; [|by rewrite Hq]. eapply ctxs_step; [done|].
    intros y ->. by destruct (Hne y).
Qed.

(** A step of the handlers or of the queue that ends no context of main. *)
Lemma inv_ingress e n n' :
  node_inv n → main n ≠ MStopped → node_ingress e n = Some n' →
  (∀ e0, queue_part e = Some e0 → node_queue_event e0) →
  (∀ y, queue_part e ≠ Some (ECtxDone main_ctx y)) →
  (past_graceful (main n) = true → ∀ c x ct, e ≠ IRequest c x ct) →
  pipe_reachable grow DecryptBatch DecryptSingle (pipe n') → node_inv n'.
Proof.
  intros Hn Hm (i & E & ->)%node_ingress_Some Hev Hx Hreq Hp.
  destruct (node_move e n i Hn Hm E Hev Hreq) as (Hi & [Hs Hd] & Hr & Hh & Hc).
  destruct Hn as [_ _ _ _ Hcx Hca Hsv _ _ Hpu Hall]. split; try done.
  - change (done (iqueue i) = bool_decide (main n = MStopped)). by rewrite bool_decide_false.
  - change (is_Some (ctxs (iqueue i) !! main_ctx) ↔ past_cancel (main n) = true). by rewrite Hc.
Qed.

Lemma collect_keeps (p p' : sequencer (L := ingress)) :
  collect grow p = Some p' →
  slog p' = slog p ∧ cancelled p' = cancelled p ∧ published p' = published p ∧ commitments p' = commitments p.
Proof.
  unfold collect. intros E. destruct (collector p) as [|d|[|tx txs]|]; try done.
  - by apply bind_Some in E as ([txs err] & _ & [= <-]).
  - by injection E as <-.
  - by apply bind_Some in E as (m & _ & [= <-]).
Qed.

Lemma batch_keeps b (p p' : sequencer (L := ingress)) :
  batch_step grow DecryptBatch DecryptSingle b p = Some p' → b ≠ BRun false →
  slog p' = slog p ∧ cancelled p' = cancelled p ∧
  ∃ new, published p' = published p ++ new ∧ commitments p' = commitments p ++ new.
Proof.
  unfold batch_step. intros E Hb.
  destruct (batcher p), b as [|w|[]]; try done; simplify_option_eq; repeat case_match; simplify_eq/=;
    split_and!; try done; (by exists []; rewrite !app_nil_r) || by eexists.
Qed.

Lemma inv_batch b n n' :
  node_inv n → node_batch grow DecryptBatch DecryptSingle b n = Some n' →
  pipe_reachable grow DecryptBatch DecryptSingle (pipe n') → node_inv n'.
Proof.
  intros [_ Hi Hs Hd Hcx Hca Hsv Hr Hh Hpu Hall] E Hp. unfold node_batch in E.
  assert (b ≠ BRun false) as Hb by (by intros ->).
  assert (∃ p, batch_step grow DecryptBatch DecryptSingle b (pipe n) = Some p ∧
    n' = Node p (main n) (server_done n)
           (settling n ++ drop (length (published (pipe n))) (published p)) (settled n)) as (p & Ep & ->).
  { destruct b as [| |[]]; try done; apply bind_Some in E as (p & Ep & [= <-]); eauto. }
  destruct (batch_keeps _ _ _ Ep Hb) as (El & Ec & new & Enew & Ecm).
  split; unfold inode, qnode in *; cbn; unfold inode; cbn; rewrite ?El, ?Ec; try done.
  - rewrite Enew, drop_app_length, Hpu, <- !app_assoc. apply Permutation_app_head, Permutation_app_comm.
  - by rewrite Enew, Ecm, Hall.
Qed.

Lemma inv_call d n n1 :
  node_inv n → main n ≠ MStopped → node_ingress (IQueue (EDrainWait d main_ctx 1)) n = Some n1 →
  let n' := set_pipe (set_collector (CWait d) (pipe n1)) n1 in
  pipe_reachable grow DecryptBatch DecryptSingle (pipe n') → node_inv n'.
Proof.
  intros Hn Hm (i & E & ->)%node_ingress_Some n' Hp.
  destruct (node_move (IQueue (EDrainWait d main_ctx 1)) n i Hn Hm E) as (Hi & [Hs Hd] & Hr & Hh & Hc); [|done|].
  { by intros e0 [= <-]. }
  destruct Hn as [_ _ _ _ Hcx Hca Hsv _ _ Hpu Hall]. split; try done.
  - change (done (iqueue i) = bool_decide (main n = MStopped)). by rewrite bool_decide_false.
  - change (is_Some (ctxs (iqueue i) !! main_ctx) ↔ past_cancel (main n) = true). by rewrite Hc.
Qed.

Lemma inv_main n n' :
  node_inv n → main n ≠ MStopped → node_main graceful n = Some n' →
  pipe_reachable grow DecryptBatch DecryptSingle (pipe n') → node_inv n'.
Proof.
  intros Hn Hm E Hp. pose proof Hn as [_ Hi Hs Hd Hcx Hca Hsv Hr Hh Hpu Hall].
  rewrite bool_decide_false in Hd by done. unfold node_main in E.
  destruct (main n) eqn:Em; try done.
  - injection E as <-. by split.
  - apply bind_Some in E as (n1 & (i & E & ->)%node_ingress_Some & [= <-]).
    assert (main n ≠ MStopped) as Hm' by (by rewrite Em).
    destruct (node_move (IQueue (ECtxDone main_ctx Canceled)) n i Hn Hm' E) as (Hi' & [Hs' Hd'] & _ & Hh' & _);
      [by intros e0 [= <-]|done|].
    split; try done. cbn. split; [done|]. intros _.
    apply ingress_queue in E. cbn in E. unfold step in E. destruct (panicked _); [done|].
    destruct (ctxs _ !! main_ctx); [done|]. injection E as E. unfold qnode. cbn. rewrite <- E. cbn. rewrite lookup_insert_eq. by eexists.
  - apply bind_Some in E as ([cl sv] & E & [= <-]). unfold server_Close in E. cbn in E.
    destruct (server_done n); [done|]. injection E as <- <-. by split.
  - injection E as <-. by split.
  - destruct (graceful _) eqn:Hg; [|done]. injection E as <-. apply graceful_waits in Hg.
    by split.
  - apply bind_Some in E as (n1 & (i & E & ->)%node_ingress_Some & [= <-]).
    pose proof (ingress_queue _ _ _ E) as Eq. cbn in Eq.
    destruct (served_close _ _ Hs Hd Eq) as [Hs' Hd'].
    split; try done.
    + destruct Hi as [added Hi]. by eapply ingress_step_inv.
    + change (is_Some (ctxs (iqueue i) !! main_ctx) ↔ true = true).
      by rewrite (ctxs_step _ _ _ main_ctx Eq).
    + intros _. change (all_replied i). eapply all_replied_step; [by apply Hr| |exact E]. done.
    + destruct Hh. split; [by eapply handlers_ok_step|by eapply calls_ok_step].
Qed.

Lemma node_inv_step e n n' : node_inv n → step1 e n = Some n' → node_inv n'.
Proof.
  intros Hn E. pose proof (node_step_pipe _ _ _ _ _ _ _ E (ni_pipe _ Hn)) as Hp.
  unfold node_step in E. case_decide as Hm; [done|]. destruct e as [c x ct|e|x e|d| |b|i ok|].
  - case_decide as Ha; [|done]. eapply inv_ingress; try done.
    + intros e0 [= <-]. by destruct Ha.
    + intros Hg. by destruct (main n), Ha.
  - destruct (goroutine_event e) eqn:Hg; [|done].
    eapply inv_ingress; try done; destruct e as [|[]| |]; naive_solver.
  - case_decide as Hx; [done|]. eapply inv_ingress; try done.
    + by intros e0 [= <-].
    + intros y [= ? ?]. done.
  - destruct (collector (pipe n)) eqn:Hc; try done. apply bind_Some in E as (n1 & E & [= <-]).
    by eapply inv_call.
  - apply bind_Some in E as (p & E & [= <-]). destruct (collect_keeps _ _ E) as (El & Ec & Epu & Ecm).
    destruct Hn as [_ Hi Hs Hd Hcx Hca Hsv Hr Hh Hpu Hall].
    split; unfold inode, qnode in *; cbn; unfold inode; cbn; rewrite ?El, ?Ec, ?Epu, ?Ecm; done.
  - by eapply inv_batch.
  - apply bind_Some in E as (c & Hc & [= <-]). destruct Hn. split; try done. cbn.
    rewrite ni_published0, fmap_app. cbn.
    rewrite (delete_Permutation _ _ _ Hc) at 1. cbn. rewrite app_assoc. apply Permutation_cons_append.
  - by eapply inv_main.
Qed.

Lemma node_inv_reachable n : reached n → node_inv n.
Proof.
  induction 1 as [n ->%boot_Some|e n n' _ IH E]; [|by eapply node_inv_step].
  assert (reachable (empty_queue 100)) as Hr by (by eapply reachable_new, (empty_queue_new 100)).
  split; try done; cbn.
  - apply pipe_start; [|done]. by split.
  - exists []. by apply ingress_start_inv.
  - rewrite lookup_empty. split; [by intros []|done].
  - split; [done|]. by intros c [k Hk].
Qed.
End node.
