(* ===== verification/Shutdown.v ===== *)
(** How a single-node sequencer stops: the work that is left once main is in
    GracefulStop, that it always ends, and the one way in which main can wait
    for ever.

    After cancel nobody need read the queue's channel any more, but the queue is
    closed only when GracefulStop has returned.  A handler whose transaction
    does not fit into the channel then waits for its own context. *)

From S2P Require Import Prelude Commitment GoSlice Mempool TxQueue TxQueueInv TxQueueProps.
From S2P Require Import ReceptionStore OrderedLog Ingress Pipeline Server Node NodeInv.

(** ** The work that is left *)

Definition handler_work (h : handler) : nat :=
  match h with HSubmit => 2 | HStore _ => 1 | HReplied _ => 0 end.

Definition call_work (k : submit_call) : nat :=
  match sc_pc k with SSend => 20 | SWait => 1 | SReturned _ => 0 end.

Definition admission_work (a : admission_pc) : nat :=
  match a with ACheck _ => 13 | ASend _ _ => 12 | _ => 0 end.

(** A transaction in [ch] costs the collector a call, a receive and an Add. *)
Definition queue_work (q : TxQueue) : nat :=
  map_sum call_work (calls q) + 14 * length (submitCh q) + admission_work (adm q) + 9 * length (ch q).

Definition drain_work (k : drain_call) : nat :=
  match d_ret k with
  | Some None => 7
  | Some (Some _) => 1
  | None => if (Z.of_nat (length (d_batch k)) <? d_size k)%Z then 3 else 8
  end.

Definition collector_work (c : collector_pc) (q : TxQueue) : nat :=
  match c with
  | CLoop => 4
  | CWait d => from_option drain_work 0 (drains q !! d)
  | CAdd txs => 5 + length txs
  | CStopped => 0
  end.

Definition main_work (m : main_pc) : nat :=
  match m with
  | MServing => 6 | MCancel => 5 | MCloseServer => 4 | MGraceful => 3 | MDraining => 2
  | MCloseLog => 1 | MStopped => 0
  end.

Definition node_work (n : node) : nat :=
  map_sum handler_work (handlers (inode n)) + queue_work (qnode n) +
  collector_work (collector (pipe n)) (qnode n) + main_work (main n).

(** The steps that do it: those of handlers, admission, collector and main. *)
Definition is_work (e : node_event) : bool :=
  match e with
  | NHandler _ | NCall _ | NCollect | NMain => true
  | NRequest _ _ _ | NGiveUp _ _ | NBatch _ | NSettle _ _ => false
  end.

Definition work_of (es : list node_event) : nat := sum_list_with (λ e, Nat.b2n (is_work e)) es.

(** Transactions that are in [ch] or may still get there. *)
Definition sending (k : submit_call) : nat := match sc_pc k with SSend => 1 | _ => 0 end.

Definition backlog (q : TxQueue) : nat :=
  length (ch q) + length (held (adm q)) + length (submitCh q) + map_sum sending (calls q).

(** ** The queue *)

Ltac map_sums f :=
  repeat match goal with
  | |- context [map_sum f (<[?c := ?y]> ?m)] =>
      match goal with H : m !! c = Some _ |- _ =>
        pose proof (map_sum_set f m c _ y H); generalize dependent (map_sum f (<[c := y]> m)); intros end
  | |- context [map_sum f (alter ?g ?c ?m)] =>
      match goal with H : m !! c = Some _ |- _ =>
        pose proof (map_sum_alter f g m c _ H); generalize dependent (map_sum f (alter g c m)); intros end
  end.

(** A step of a call or of the admission goroutine. *)
Lemma queue_work_step e q q' :
  step e q = Some q' → capacity q ≠ 0 → done q = false → shutting_down (adm q) = false →
  ch_closed q = false →
  match e with ECall _ _ | EAdmission _ => True | _ => False end →
  queue_work q' < queue_work q ∧ backlog q' ≤ backlog q ∧ drains q' = drains q.
Proof.
  unfold step. destruct (panicked q); [done|]. intros E Hcap Hd Ha Hc He.
  destruct e as [c x p|c b|b|d x n|d n|d b|c|d| |x e]; try done;
    unfold submit_step, admission_step, reject_step, close_ch, call_ctx_err in E; invert_step; cbn in *; try congruence;
    try match goal with A : adm q = _ |- _ => rewrite A in Ha; try discriminate Ha end;
    unfold queue_work, backlog; cbn; (split; [|split; [|done]]);
    repeat match goal with A : adm q = _ |- _ => rewrite A; clear A
      | A : submitCh q = _ |- _ => rewrite A; clear A end; cbn;
    map_sums call_work; map_sums sending; unfold call_work, sending in *; cbn in *;
    repeat match goal with A : sc_pc _ = _ |- _ => rewrite A in *; clear A end;
    rewrite ?length_app in *; cbn in *; try lia.
Qed.

(** A step of a drain in progress. *)
Lemma drain_work_step d b q q' :
  step (EDrainCall d b) q = Some q' → ch_closed q = false →
  (∀ k, drains q !! d = Some k → d_ctx k ≠ None) →
  ∃ k k', drains q !! d = Some k ∧ d_ret k = None ∧ drains q' = <[d := k']> (drains q) ∧
    queue_work q' + drain_work k' < queue_work q + drain_work k ∧ backlog q' ≤ backlog q.
Proof.
  unfold step. destruct (panicked q); [done|]. intros E Hc Hx. unfold drain_step in E.
  invert_step; try congruence; try (by destruct (Hx _ ltac:(done))).
  all: eexists _, _; (split; [done|]); (split; [done|]); (split; [cbn; done|]).
  all: unfold queue_work, backlog, drain_work; cbn;
    repeat match goal with A : d_ret _ = _ |- _ => rewrite A; clear A
      | A : ch _ = _ |- _ => rewrite A; clear A
      | A : (_ <? _)%Z = _ |- _ => rewrite A; clear A end;
    cbn; try case_match; lia.
Qed.

(** ** The whole node *)

Section shutdown.
Context (grow : nat → nat → nat).
Context (DecryptBatch : list bytes → option (list bytes)) (DecryptSingle : bytes → option bytes).
Context (graceful : gmap nat handler → bool).
Context (graceful_waits : ∀ hs, graceful hs = true ↔ map_Forall (λ _ h, replied h = true) hs).

Abbreviation step1 := (node_step grow DecryptBatch DecryptSingle graceful).
Abbreviation run1 := (node_run grow DecryptBatch DecryptSingle graceful).
Abbreviation reached := (node_reachable grow DecryptBatch DecryptSingle graceful).
Abbreviation ninv := (node_inv grow DecryptBatch DecryptSingle).

(** main has called GracefulStop. *)
Definition stopping (m : main_pc) : bool :=
  match m with MDraining | MCloseLog | MStopped => true | _ => false end.

(** The only DrainWait call in progress is the collector's. *)
Lemma open_drain n d k :
  ninv n → drains (qnode n) !! d = Some k → d_ret k = None → collector (pipe n) = CWait d.
Proof.
  intros Hn Hk Hr. destruct (invariant_reachable _ _ _ _ (ni_pipe _ _ _ _ Hn)) as (fl & q & pre & cur & Hi).
  apply (pi_open _ _ _ _ _ Hi).
  - cbn. unfold qnode, inode in Hk. rewrite Hk. by eexists.
  - cbn. unfold qnode, inode in Hk. rewrite Hk. cbn. by rewrite Hr.
Qed.

Lemma node_open n :
  ninv n → main n ≠ MStopped →
  done (qnode n) = false ∧ shutting_down (adm (qnode n)) = false ∧ ch_closed (qnode n) = false ∧
  capacity (qnode n) ≠ 0.
Proof.
  intros Hn Hm. pose proof (ni_done _ _ _ _ Hn) as Hd. rewrite bool_decide_false in Hd by done.
  pose proof (ni_served _ _ _ _ Hn) as Hs.
  destruct (open_admission _ (sv_reach _ Hs) Hd) as (? & ? & _). rewrite (sv_cap _ Hs). done.
Qed.

(** A step of a handler, of the admission goroutine or of a drain. *)
Lemma handler_step_work e n i :
  ninv n → main n ≠ MStopped → goroutine_event e = true → ingress_step e (inode n) = Some i →
  map_sum handler_work (handlers i) + queue_work (iqueue i) + collector_work (collector (pipe n)) (iqueue i) <
  map_sum handler_work (handlers (inode n)) + queue_work (qnode n) + collector_work (collector (pipe n)) (qnode n) ∧
  backlog (iqueue i) ≤ backlog (qnode n).
Proof.
  intros Hn Hm He E. destruct (node_open n Hn Hm) as (Hd & Ha & Hc & Hcap).
  destruct e as [|e|c|c]; try done; cbn in E.
  - destruct (is_submit e); [done|]. apply bind_Some in E as (q & E & [= <-]). cbn.
    destruct e as [|c b|b| | |d b|c|d| |]; try done.
    1-2: destruct (queue_work_step _ _ _ E Hcap Hd Ha Hc I) as (Hlt & Hb & Hdr);
      split; [|done]; unfold collector_work; rewrite Hdr; unfold qnode in *; lia.
    + destruct (drain_work_step _ _ _ _ E Hc) as (k & k' & Hk & Hr & Hdr & Hlt & Hb).
      { intros k Hk. by destruct (sv_drains _ (ni_served _ _ _ _ Hn) d k Hk) as [-> _]. }
      split; [|done].
      rewrite (open_drain _ _ _ Hn Hk Hr). cbn. rewrite Hdr, lookup_insert_eq. cbn.
      unfold qnode in *. rewrite Hk. cbn. lia.
    + unfold step in E. destruct (panicked _); [done|]. unfold rv_submit in E. invert_step; done.
    + unfold step in E. destruct (panicked _); [done|]. unfold rv_deliver in E. invert_step; by destruct_and?.
  - apply bind_Some in E as (h & Hh & (k & Hk & E)%bind_Some). destruct h, (sc_pc k); simplify_eq/=.
    split; [|done]. pose proof (map_sum_set handler_work _ c _ (match resp_err r with
      | None => HStore (resp_tx r) | Some _ => HReplied false end) Hh) as Hs. cbn in Hs.
    unfold qnode. destruct (resp_err r); cbn in *; lia.
  - apply bind_Some in E as (h & Hh & E). destruct h; simplify_eq/=. split; [|done].
    pose proof (map_sum_set handler_work _ c _ (HReplied true) Hh) as Hs. cbn in Hs. unfold qnode. lia.
Qed.

Lemma call_work_step d n n1 :
  collector (pipe n) = CLoop → node_ingress (IQueue (EDrainWait d main_ctx 1)) n = Some n1 →
  node_work (set_pipe (set_collector (CWait d) (pipe n1)) n1) < node_work n ∧
  backlog (qnode n1) = backlog (qnode n).
Proof.
  intros Hc (i & E & ->)%node_ingress_Some. cbn in E. apply bind_Some in E as (q & E & [= <-]).
  unfold step in E. destruct (panicked _); [done|]. unfold drain_begin in E. destruct (drains _ !! d); [done|].
  injection E as <-. split; [|done]. unfold node_work, qnode, inode. cbn. rewrite Hc, lookup_insert_eq.
  unfold queue_work. cbn [from_option]. change (drain_work _) with 3. cbn -[Nat.mul]. lia.
Qed.

Lemma collect_work n p :
  ninv n → collect grow (pipe n) = Some p →
  node_work (set_pipe p n) < node_work n ∧ slog p = slog (pipe n).
Proof.
  intros Hn E. destruct (collect_keeps _ _ _ E) as (El & _). split; [|done].
  unfold node_work, qnode, inode. cbn. rewrite El. unfold collect in E.
  destruct (collector (pipe n)) as [|d|[|tx txs]|] eqn:Hc; try done; cbn.
  - apply bind_Some in E as ([txs err] & E & [= <-]). cbn in *.
    apply bind_Some in E as (k & Hk & E). rewrite Hk. cbn. unfold drain_work.
    destruct (d_ret k) as [e|] eqn:Hr; [|done]. cbn in E. injection E as <- <-.
    destruct e as [e|]; cbn; [lia|]. pose proof (ni_served _ _ _ _ Hn) as Hs.
    pose proof (iv_size _ (i_deliver _ (inv_reachable _ (sv_reach _ Hs))) _ _ Hk) as Hsz.
    destruct (sv_drains _ Hs _ _ Hk) as [_ Hone]. rewrite Hone in Hsz. lia.
  - injection E as <-. cbn. lia.
  - apply bind_Some in E as (m & _ & [= <-]). cbn. lia.
Qed.

(** The batch goroutine touches neither the queue nor the collector. *)
Lemma node_batch_keeps b n n' :
  node_batch grow DecryptBatch DecryptSingle b n = Some n' →
  slog (pipe n') = slog (pipe n) ∧ collector (pipe n') = collector (pipe n) ∧ main n' = main n.
Proof.
  unfold node_batch. intros E. destruct b as [|w|[]]; try done; apply bind_Some in E as (p & E & [= <-]); cbn;
    unfold batch_step in E; destruct (batcher (pipe n)); try done;
    simplify_option_eq; repeat case_match; simplify_eq/=; done.
Qed.

(** Once main is in GracefulStop, every step of the node does some of the work
    that is left, or none of it and adds nothing. *)
Lemma work_step e n n' :
  ninv n → stopping (main n) = true → step1 e n = Some n' →
  (if is_work e then node_work n' < node_work n else node_work n' = node_work n) ∧
  stopping (main n') = true ∧ backlog (qnode n') ≤ backlog (qnode n).
Proof.
  intros Hn Hst E. unfold node_step in E. case_decide as Hm; [done|]. destruct e as [c x ct|e|x e|d| |b|i ok|].
  - case_decide as Ha; [|done]. by destruct (main n), Ha.
  - destruct (goroutine_event e) eqn:Hg; [|done]. apply node_ingress_Some in E as (i & E & ->).
    destruct (handler_step_work e n i Hn Hm Hg E) as [Hlt Hb]. split; [|done].
    unfold node_work, qnode, inode in *. cbn in *. lia.
  - case_decide; [done|]. apply node_ingress_Some in E as (i & E & ->). cbn in E.
    apply bind_Some in E as (q & E & [= <-]). unfold step in E. destruct (panicked _); [done|].
    destruct (ctxs _ !! x); [done|]. injection E as <-. by split.
  - destruct (collector (pipe n)) eqn:Hc; try done. apply bind_Some in E as (n1 & E & [= <-]).
    destruct (call_work_step d n n1 Hc E) as [Hlt Hb]. split; [done|].
    apply node_ingress_Some in E as (i & E & ->). split; [done|]. by rewrite <- Hb.
  - apply bind_Some in E as (p & E & [= <-]). destruct (collect_work n p Hn E) as [Hlt El].
    split; [done|]. split; [done|]. unfold qnode, inode. cbn. by rewrite El.
  - destruct (node_batch_keeps _ _ _ E) as (El & Ec & Em).
    cbn. unfold node_work, qnode, inode. by rewrite El, Ec, Em.
  - apply bind_Some in E as (c & Hc & [= <-]). by split.
  - unfold node_main in E. destruct (main n) eqn:Em; try done.
    + destruct (graceful _); [|done]. injection E as <-. split; [|done].
      unfold node_work, qnode, inode. cbn -[Nat.mul]. rewrite Em. cbn -[Nat.mul]. lia.
    + apply bind_Some in E as (n1 & (i & E & ->)%node_ingress_Some & [= <-]).
      cbn in E. apply bind_Some in E as (q & E & [= <-]). unfold step in E. destruct (panicked _); [done|].
      injection E as <-. split; [|split; [done|]].
      * unfold node_work, qnode, inode. cbn -[Nat.mul]. rewrite Em. unfold Close.
        unfold queue_work, collector_work. destruct (collector (pipe n)); repeat case_match; cbn -[Nat.mul]; lia.
      * unfold qnode, inode, Close. cbn. by repeat case_match.
Qed.

(** ** Progress *)

(** main waits in GracefulStop, the collector has stopped, and the admission
    goroutine waits for room in the full channel, for a caller whose context has
    not ended. *)
Definition jammed (n : node) : Prop :=
  main n = MDraining ∧ collector (pipe n) = CStopped ∧ full (qnode n).

Definition can_work (n : node) : Prop := ∃ e, is_work e = true ∧ is_Some (step1 e n).

Lemma can_work_handler e n :
  main n ≠ MStopped → goroutine_event e = true → is_Some (ingress_step e (inode n)) → can_work n.
Proof.
  intros Hm Hg [i E]. exists (NHandler e). split; [done|]. unfold node_step.
  rewrite decide_False, Hg by done. unfold node_ingress. rewrite E. by eexists.
Qed.

Lemma can_work_queue e n :
  main n ≠ MStopped → goroutine_event (IQueue e) = true → is_Some (step e (qnode n)) → can_work n.
Proof.
  intros Hm Hg [q E]. apply (can_work_handler (IQueue e)); [done..|]. cbn.
  destruct (is_submit e) eqn:Hs; [by destruct e|]. unfold qnode in E. rewrite E. by eexists.
Qed.

(** After cancel the collector can go on until it has stopped. *)
Lemma collector_progress n :
  ninv n → main n ≠ MStopped → past_cancel (main n) = true →
  can_work n ∨ collector (pipe n) = CStopped.
Proof.
  intros Hn Hm Hpc. pose proof (ni_served _ _ _ _ Hn) as Hs. pose proof (sv_panic _ Hs) as Hpan.
  destruct (collector (pipe n)) as [|d|txs|] eqn:Hc; [left..|by right].
  - destruct (exist_fresh (dom (drains (qnode n)))) as [d Hd%not_elem_of_dom].
    exists (NCall d). split; [done|]. unfold node_step. rewrite decide_False, Hc by done.
    unfold node_ingress, ingress_step. cbn [is_submit]. unfold step. unfold qnode in Hpan, Hd.
    rewrite Hpan. unfold drain_begin. rewrite Hd. by eexists.
  - destruct (invariant_reachable _ _ _ _ (ni_pipe _ _ _ _ Hn)) as (fl & q & pre & cur & Hi).
    pose proof (pi_cur _ _ _ _ _ Hi) as Hcur. rewrite Hc in Hcur. destruct Hcur as [Ha _].
    cbn in Ha. apply fmap_Some in Ha as (k & Hk & Hsz). destruct (d_ret k) as [e|] eqn:Hr.
    + exists NCollect. split; [done|]. unfold node_step. rewrite decide_False by done. unfold collect.
      rewrite Hc. cbn. rewrite Hk. cbn. rewrite Hr. by eexists.
    + destruct (sv_drains _ Hs d k Hk) as [Hx _].
      destruct (ni_ctx _ _ _ _ Hn) as [_ [err Hctx]]; [done|].
      destruct (Z.of_nat (length (d_batch k)) <? d_size k)%Z eqn:Hlt.
      * apply (can_work_queue (EDrainCall d DCtx)); [done..|]. unfold step, drain_step. rewrite Hpan.
        unfold qnode in *. unfold inode in *. rewrite Hk. cbn. rewrite Hr, Hlt, Hx, Hctx.
        destruct (ch (iqueue (slog (pipe n)))); by eexists.
      * apply (can_work_queue (EDrainCall d DFull)); [done..|]. unfold step, drain_step. rewrite Hpan.
        unfold qnode, inode in *. rewrite Hk. cbn. rewrite Hr, Hlt. by eexists.
  - exists NCollect. split; [done|]. unfold node_step. rewrite decide_False by done. unfold collect. rewrite Hc.
    destruct txs as [|tx txs]; [by eexists|].
    destruct (invariant_reachable _ _ _ _ (ni_pipe _ _ _ _ Hn)) as (fl & q & pre & cur & Hi).
    destruct (Add_spec grow (mempool (pipe n)) q tx (pi_rep _ _ _ _ _ Hi)) as (m & -> & _). by eexists.
Qed.

(** A handler that has not replied can go on, or waits for the admission
    goroutine, which has something to do. *)
Lemma handler_progress n c h :
  ninv n → main n ≠ MStopped → handlers (inode n) !! c = Some h → replied h = false →
  can_work n ∨ full (qnode n).
Proof.
  intros Hn Hm Hh Hrep. pose proof (ni_served _ _ _ _ Hn) as Hs. pose proof (sv_panic _ Hs) as Hpan.
  destruct (node_open n Hn Hm) as (Hd & Ha & Hc & Hcap).
  destruct (proj1 (ni_handler _ _ _ _ Hn) c h Hh) as (k & Hk & Hret). unfold qnode in *.
  destruct h as [|tx|]; [|left|done].
  2: { apply (can_work_handler (IStore c)); [done..|]. cbn. rewrite Hh. by eexists. }
  destruct (sc_pc k) as [| |r] eqn:Hpc.
  3: { left. apply (can_work_handler (IReturn c)); [done..|]. cbn. rewrite Hh, Hk. cbn. rewrite Hpc. by eexists. }
  1: destruct (decide (length (submitCh (iqueue (inode n))) < capacity (iqueue (inode n)))) as [Hroom|Hroom].
  { left. apply (can_work_queue (ECall c SendReq)); [done..|]. unfold step, submit_step, qnode. rewrite Hpan, Hk.
    cbn. rewrite Hpc, decide_True by done. by eexists. }
  2: destruct (sc_resp k) as [r|] eqn:Hr.
  2: { left. apply (can_work_queue (ECall c RecvResp)); [done..|]. unfold step, submit_step, qnode. rewrite Hpan, Hk.
       cbn. rewrite Hpc, Hr. by eexists. }
  2: pose proof (sv_wait _ Hs c k Hk Hpc Hr) as Hwait.
  all: destruct (admission_step_ready _ (inv_reachable _ (sv_reach _ Hs)) Hpan)
         as [(b & Hb)|[(Hi & Hsub & _)|[Hf|Hex]]]; [left; by apply (can_work_queue (EAdmission b))| |by right|].
  all: unfold qnode in *; try (by rewrite Hex in Ha).
  - rewrite Hsub in Hroom. cbn in Hroom. lia.
  - rewrite Hi, Hsub in Hwait. by apply elem_of_nil in Hwait.
Qed.

(** A node in shutdown can go on, has stopped, or is jammed. *)
Lemma shutdown_progress n :
  ninv n → stopping (main n) = true → can_work n ∨ main n = MStopped ∨ jammed n.
Proof.
  intros Hn Hst. pose proof (sv_panic _ (ni_served _ _ _ _ Hn)) as Hpan.
  destruct (main n) eqn:Em; try done; [| |by right; left].
  - assert (main n ≠ MStopped) as Hm by (by rewrite Em).
    destruct (collector_progress n Hn Hm) as [|Hc]; [by rewrite Em|by left|].
    destruct (decide (map_Forall (λ _ h, replied h = true) (handlers (inode n)))) as [Hall|Hall].
    + left. exists NMain. split; [done|]. unfold node_step. rewrite decide_False by done. unfold node_main.
      rewrite Em. apply graceful_waits in Hall. rewrite Hall. by eexists.
    + apply map_not_Forall in Hall as (c & h & Hh & Hrep); [|apply _]. apply not_true_is_false in Hrep.
      destruct (handler_progress n c h Hn Hm Hh Hrep) as [|Hf]; [by left|]. right. by right.
  - left. exists NMain. split; [done|]. unfold node_step. rewrite Em, decide_False by done. unfold node_main.
    rewrite Em. unfold node_ingress, ingress_step. cbn [is_submit]. unfold step. unfold qnode in Hpan.
    rewrite Hpan. by eexists.
Qed.
End shutdown.
