(* ===== verification/ShutdownProps.v ===== *)
(** What a single-node sequencer promises while it runs and when it stops. *)

From S2P Require Import Prelude Commitment GoSlice Mempool TxQueue TxQueueInv TxQueueProps.
From S2P Require Import ReceptionStore OrderedLog Ingress Pipeline Server Node NodeInv Shutdown.

Section props.
Context (grow : nat → nat → nat).
Context (DecryptBatch : list bytes → option (list bytes)) (DecryptSingle : bytes → option bytes).
Context (graceful : gmap nat handler → bool).
Context (graceful_waits : ∀ hs, graceful hs = true ↔ map_Forall (λ _ h, replied h = true) hs).

Abbreviation step1 := (node_step grow DecryptBatch DecryptSingle graceful).
Abbreviation run1 := (node_run grow DecryptBatch DecryptSingle graceful).
Abbreviation reached := (node_reachable grow DecryptBatch DecryptSingle graceful).
Abbreviation ninv := (node_inv grow DecryptBatch DecryptSingle).

(** ** Runs after the signal *)

Lemma shutdown_run es n n' :
  ninv n → stopping (main n) = true → run1 es n = Some n' →
  work_of es + node_work n' ≤ node_work n ∧ ninv n' ∧ stopping (main n') = true ∧
  backlog (qnode n') ≤ backlog (qnode n).
Proof.
  revert n. induction es as [|e es IH]; intros n Hn Hst; cbn; [by intros [= <-]|].
  intros (n1 & E & Hrun)%bind_Some.
  destruct (work_step _ _ _ _ _ _ _ Hn Hst E) as (Hw & Hst1 & Hb1).
  pose proof (node_inv_step _ _ _ _ graceful_waits _ _ _ Hn E) as Hn1.
  destruct (IH n1 Hn1 Hst1 Hrun) as (Hw' & ? & ? & ?). split_and!; [|done|done|lia].
  unfold work_of in *. cbn. destruct (is_work e); cbn; lia.
Qed.

Lemma jammed_backlog n : ninv n → jammed n → 100 < backlog (qnode n).
Proof.
  intros Hn (_ & _ & c & tx & Ea & Hf & _). rewrite (sv_cap _ (ni_served _ _ _ _ Hn)) in Hf.
  unfold backlog. rewrite Ea. cbn. lia.
Qed.

(** C12: how a node stops.  Once main is in GracefulStop, in every interleaving
    the handlers, the admission goroutine, the collector and main take at most
    [node_work] more steps, whatever the other goroutines and the clients do;
    and when none of them can take a step, main has returned, or the node is
    jammed: the collector has stopped, the queue's channel is full, and the
    admission goroutine waits for room for a caller whose context has not ended.
    It cannot jam if what is buffered or still to be committed fits into the
    channel. *)
Theorem shutdown_outcome n es n' :
  reached n → main n = MDraining → run1 es n = Some n' →
  work_of es ≤ node_work n ∧
  ((∀ e, is_work e = true → step1 e n' = None) → main n' = MStopped ∨ jammed n') ∧
  (backlog (qnode n) ≤ 100 → ¬ jammed n').
Proof.
  intros Hr Hm Hrun. pose proof (node_inv_reachable _ _ _ _ graceful_waits n Hr) as Hn.
  assert (stopping (main n) = true) as Hst by (by rewrite Hm).
  destruct (shutdown_run es n n' Hn Hst Hrun) as (Hw & Hn' & Hst' & Hb). split_and!; [lia| |].
  - intros Hno. destruct (shutdown_progress _ _ _ _ graceful_waits n' Hn' Hst') as [(e & He & n2 & E)|]; [|done].
    by rewrite Hno in E.
  - intros Hle Hj. pose proof (jammed_backlog n' Hn' Hj). lia.
Qed.

(** ** A jam is for ever *)

(** The caller for whom the admission goroutine waits has context [x]. *)
Definition held_ctx (q : TxQueue) (x : nat) : Prop :=
  ∃ c tx k, adm q = ASend c tx ∧ calls q !! c = Some k ∧ sc_ctx k = x.

(** Its handler has not replied. *)
Lemma held_unanswered n x :
  ninv n → full (qnode n) → held_ctx (qnode n) x →
  ∃ c, handlers (inode n) !! c = Some HSubmit.
Proof.
  intros Hn (c & tx & Ea & _ & _ & Hx) (c' & tx' & k & Ea' & Hk & _).
  rewrite Ea in Ea'. injection Ea' as <- <-. exists c.
  pose proof (ni_served _ _ _ _ Hn) as Hs. pose proof (inv_reachable _ (sv_reach _ Hs)) as Hi.
  destruct (ni_handler _ _ _ _ Hn) as [Hh Hcl]. destruct (Hcl c) as [h Hc]; [by eexists|].
  destruct (Hh c h Hc) as (k' & Hk' & Hret). unfold qnode in *. simplify_eq.
  destruct h as [|tx0|b]; [done|exfalso..]; (destruct Hret as (r & Hpc & _); [done|]);
    destruct (resp_err r) as [e|] eqn:He.
  1,3: pose proof (sv_err _ Hs c k r e Hk (or_intror Hpc) He) as Hg; destruct e as [|e]; [done|];
    unfold call_ctx_err in Hx; rewrite Hk in Hx; cbn in *; congruence.
  all: pose proof (receipt_sent _ _ _ _ (sv_reach _ Hs) Hk Hpc He) as Hsent;
    destruct (ir_split _ (i_req _ Hi)) as (proc & Hacc & Hsub);
    pose proof (ir_nodup _ (i_req _ Hi)) as Hnd; rewrite Hacc, Ea in Hnd;
    apply NoDup_app in Hnd as (_ & Hnd & _); apply (Hnd c); [|by left];
    eapply elem_of_sublist; [|exact Hsub]; apply list_elem_of_fmap; by exists (c, resp_tx r).
Qed.

Lemma submit_step_keeps c b q q' :
  submit_step c b q = Some q' →
  adm q' = adm q ∧ ch q' = ch q ∧ capacity q' = capacity q ∧ done q' = done q ∧ ctxs q' = ctxs q ∧
  ∀ c k, calls q !! c = Some k → ∃ k', calls q' !! c = Some k' ∧ sc_ctx k' = sc_ctx k.
Proof.
  unfold submit_step. intros E. invert_step; cbn; split_and!; try done; intros c' k' Hk';
    lookup_cases; repeat case_decide; simplify_eq; eauto.
Qed.

Lemma full_step x e q q' :
  full q → held_ctx q x → step e q = Some q' →
  match e with ECall _ _ | EAdmission _ => True | ECtxDone y _ => y ≠ x | _ => False end →
  full q' ∧ held_ctx q' x.
Proof.
  intros Hf (c0 & tx0 & k & Ea0 & Hk & Hkx) E He. destruct e as [|c b|b| | | | | | |y err]; try done.
  - unfold step in E. destruct (panicked q); [done|].
    destruct (submit_step_keeps _ _ _ _ E) as (Ha & Hch & Hcap & Hd & Hcx & Hcl).
    destruct Hf as (c1 & tx & Ea & Hfull & Hdn & Hx). rewrite Ea in Ea0. injection Ea0 as <- <-.
    destruct (Hcl c1 k Hk) as (k' & Hk' & Hc'). split.
    + exists c1, tx. rewrite Ha, Hch, Hcap, Hd. split_and!; try done. unfold call_ctx_err in *.
      rewrite Hk in Hx. rewrite Hk', Hcx. cbn in *. by rewrite Hc'.
    + exists c1, tx, k'. rewrite Ha. split_and!; [done..|congruence].
  - by rewrite idle_or_full_blocked in E by auto.
  - unfold step in E. destruct (panicked q); [done|]. destruct (ctxs q !! y) eqn:Hy; [done|]. injection E as <-.
    destruct Hf as (c1 & tx & Ea & Hfull & Hdn & Hx). rewrite Ea in Ea0. injection Ea0 as <- <-. split.
    + exists c1, tx. split_and!; try done. unfold call_ctx_err in *. rewrite Hk in Hx. cbn in *. rewrite Hk. cbn.
      by rewrite Hkx, lookup_insert_ne in * by done.
    + by exists c1, tx, k.
Qed.

Lemma jammed_step x e n n' :
  ninv n → jammed n → held_ctx (qnode n) x → (∀ err, e ≠ NGiveUp x err) → step1 e n = Some n' →
  jammed n' ∧ held_ctx (qnode n') x.
Proof.
  intros Hn (Hm & Hc & Hf) Hh He E. unfold node_step in E. rewrite decide_False in E by (by rewrite Hm).
  destruct e as [c y ct|e|y err|d| |b|i ok|].
  - rewrite Hm in E. case_decide as Ha; [|done]. by destruct Ha.
  - destruct (goroutine_event e) eqn:Hg; [|done]. apply node_ingress_Some in E as (i & E & ->).
    pose proof (ingress_queue _ _ _ E) as Hq. destruct e as [|e|c|c]; [done|..]; cbn in Hq.
    2-3: unfold jammed, qnode, inode; cbn; rewrite Hq; by split.
    destruct e as [|c b|b| | |d b|c|d| |]; try done; [| |exfalso..].
    1-2: destruct (full_step x _ _ _ Hf Hh Hq I) as [Hf' Hh']; by split.
    + unfold step, drain_step in Hq. destruct (panicked _); [done|].
      apply bind_Some in Hq as (k & Hk & Hq). destruct (d_ret k) eqn:Hr; [done|].
      pose proof (open_drain _ _ _ n d k Hn Hk Hr) as Hw. by rewrite Hc in Hw.
    + unfold step, rv_submit in Hq. destruct (panicked _); [done|].
      pose proof (sv_cap _ (ni_served _ _ _ _ Hn)) as Hcap. unfold qnode in Hcap. invert_step; congruence.
    + unfold step, rv_deliver in Hq. destruct (panicked _); [done|].
      pose proof (sv_cap _ (ni_served _ _ _ _ Hn)) as Hcap. unfold qnode in Hcap. invert_step; destruct_and?; congruence.
  - case_decide; [done|]. apply node_ingress_Some in E as (i & E & ->).
    pose proof (ingress_queue _ _ _ E) as Hq. cbn in Hq.
    destruct (full_step x _ _ _ Hf Hh Hq) as [Hf' Hh']; [by intros ->; eapply He|by split].
  - by rewrite Hc in E.
  - apply bind_Some in E as (p & E & _). unfold collect in E. by rewrite Hc in E.
  - destruct (node_batch_keeps _ _ _ _ _ _ E) as (El & Ec & Em).
    unfold jammed, qnode, inode. by rewrite El, Ec, Em.
  - apply bind_Some in E as (c & _ & [= <-]). by split.
  - unfold node_main in E. rewrite Hm in E. destruct (graceful _) eqn:Hg; [|done].
    apply graceful_waits in Hg. destruct (held_unanswered n x Hn Hf Hh) as [c Hc']. by specialize (Hg _ _ Hc').
Qed.

Lemma jammed_run x es n n' :
  ninv n → jammed n → held_ctx (qnode n) x → Forall (λ e, ∀ err, e ≠ NGiveUp x err) es →
  run1 es n = Some n' → jammed n' ∧ held_ctx (qnode n') x.
Proof.
  intros Hn Hj Hh Hes. revert n Hn Hj Hh. induction Hes as [|e es He _ IH]; intros n Hn Hj Hh; cbn;
    [by intros [= <-]|]. intros (n1 & E & Hrun)%bind_Some.
  destruct (jammed_step x e n n1 Hn Hj Hh He E) as [Hj1 Hh1].
  eapply IH, Hrun; [|done..]. by eapply node_inv_step.
Qed.

(** A request with its context that is submitted and received by the admission
    goroutine, which stamps it. *)
Definition rush_in (c : nat) : list node_event :=
  NRequest c c [] ::
  (NHandler ∘ IQueue <$> [ECall c SendReq; EAdmission LoopRecv; EAdmission (CheckDefault 0)]).

(** 101 requests at once; then the signal, before the collector has read any of
    them. *)
Definition rush : list node_event :=
  (seq 1 100 ≫= λ c, rush_in c ++ [NHandler (IQueue (EAdmission CommitCh))]) ++ rush_in 101 ++
  [NMain; NMain; NCall 0; NHandler (IQueue (EDrainCall 0 DCtx)); NCollect; NMain; NMain].

Lemma rush_jams :
  ∃ n, boot ≫= run1 rush = Some n ∧ jammed n ∧ held_ctx (qnode n) 101 ∧
    size (handlers (inode n)) = 101 ∧ length (ch (qnode n)) = 100.
Proof.
  assert ((λ n, (main n, collector (pipe n), (match adm (qnode n) with ASend c tx => Some c | _ => None end,
      length (ch (qnode n)), capacity (qnode n), done (qnode n), ctxs (qnode n) !! 101,
      sc_ctx <$> calls (qnode n) !! 101, size (handlers (inode n))))) <$> (boot ≫= run1 rush) =
    Some (MDraining, CStopped, (Some 101, 100, 100, false, None, Some 101, 101))) as H by (by vm_compute).
  apply fmap_Some in H as (n & E & H). exists n. split; [exact E|]. clear E.
  destruct (adm (qnode n)) as [| |c tx| | |] eqn:Ea; try discriminate H.
  assert (main n = MDraining ∧ collector (pipe n) = CStopped ∧ c = 101 ∧ length (ch (qnode n)) = 100 ∧
    capacity (qnode n) = 100 ∧ done (qnode n) = false ∧ ctxs (qnode n) !! 101 = None ∧
    sc_ctx <$> calls (qnode n) !! 101 = Some 101 ∧ size (handlers (inode n)) = 101)
    as (H1 & H2 & -> & H4 & H5 & H6 & H7 & H8 & H9) by (by simplify_eq).
  apply fmap_Some in H8 as (k & Hk & Hx). split; [|split; [by exists 101, tx, k|done]].
  split; [done|]. split; [done|]. exists 101, tx. split_and!; [done|lia|done|].
  unfold call_ctx_err. rewrite Hk. cbn. by rewrite <- Hx.
Qed.

(** C13: a jam happens, and lasts.  If 101 requests are in flight when the
    signal arrives and the collector stops before reading them, the node reaches
    GracefulStop with the queue's 100 places taken and one transaction waiting
    for room; from then on, whatever the threads and all clients but one do,
    main is in GracefulStop: only the context of that one request, or killing
    the process, ends it. *)
Theorem shutdown_can_hang :
  ∃ n, reached n ∧ main n = MDraining ∧ size (handlers (inode n)) = 101 ∧
    ∀ es n', Forall (λ e, ∀ err, e ≠ NGiveUp 101 err) es → run1 es n = Some n' →
      main n' = MDraining ∧ jammed n'.
Proof.
  destruct rush_jams as (n & E & Hj & Hh & Hsz & _). apply bind_Some in E as (n0 & E0 & E).
  assert (reached n) as Hr by (eapply node_reachable_run, E; by constructor).
  exists n. split; [done|]. split; [by destruct Hj|]. split; [done|]. intros es n' Hes Hrun.
  destruct (jammed_run 101 es n n' (node_inv_reachable _ _ _ _ graceful_waits n Hr) Hj Hh Hes Hrun) as [Hj' _].
  split; [by destruct Hj'|done].
Qed.

(** ** What acknowledged transactions become *)

Lemma acknowledged_sent n c :
  ninv n → handlers (inode n) !! c = Some (HReplied true) →
  ∃ i tx k, sent (qnode n) !! i = Some (c, tx) ∧ calls (qnode n) !! c = Some k ∧
    Ciphertext tx = sc_payload k ∧ proof_of tx ∈ proofs (store (inode n)).
Proof.
  intros Hn Hc. destruct (ni_ingress _ _ _ _ Hn) as (added & Hadd).
  destruct Hadd as [Hr Hst _ Hs _ Ha].
  pose proof (proj1 (Ha c) Hc) as Hadd. apply list_elem_of_fmap in Hadd as ([c' tx] & E & Hin). cbn in E. subst c'.
  pose proof (Hs _ Hin) as Hsent. apply list_elem_of_lookup in Hsent as [i Hi].
  destruct (id_payload _ (i_data _ (inv_reachable _ Hr)) c tx) as (k & Hk & Hp).
  { apply elem_of_app. left. by eapply list_elem_of_lookup_2. }
  exists i, tx, k. split_and!; [done..|]. rewrite Hst. apply list_elem_of_fmap.
  exists tx. split; [done|]. apply list_elem_of_fmap. by exists (c, tx).
Qed.

(** C5: the promise behind an acknowledgement.  If a request has been accepted,
    exactly its ciphertext was committed at some position i, its reception proof
    is stored, and as soon as the batch goroutine has processed batch i/1000 the
    transaction is number i mod 1000 of that batch, whose commitment was computed
    and handed to the publisher as commitment i/1000, before or after the
    acknowledgement and whatever happens to other requests. *)
Theorem node_acknowledged n c :
  reached n → handlers (inode n) !! c = Some (HReplied true) →
  ∃ i tx k, sent (qnode n) !! i = Some (c, tx) ∧ calls (qnode n) !! c = Some k ∧
    Ciphertext tx = sc_payload k ∧ proof_of tx ∈ proofs (store (inode n)) ∧
    ∀ b, batches (pipe n) !! (i / 1000) = Some b →
      length b = 1000 ∧ b !! (i mod 1000) = Some tx ∧
      published (pipe n) !! (i / 1000) = Some (GenerateBatchCommitment b).
Proof.
  intros Hr Hc. pose proof (node_inv_reachable _ _ _ _ graceful_waits n Hr) as Hn.
  destruct (acknowledged_sent n c Hn Hc) as (i & tx & k & Hi & Hk & Hp & Hpr).
  exists i, tx, k. split_and!; [done..|]. intros b Hb.
  destruct (committed_split _ _ _ _ (ni_pipe _ _ _ _ Hn)) as (rest & Hcm & Hsz & Hcs).
  assert (Z.of_nat (length b) = batchSize) as Hlen by exact (Forall_lookup_1 _ _ _ _ Hsz Hb).
  split_and!; [unfold batchSize in Hlen; lia| |].
  - apply (batch_position (batches (pipe n)) rest i tx b Hsz); [|done].
    rewrite <- Hcm. cbn. unfold qnode, inode in Hi. by rewrite list_lookup_fmap, Hi.
  - by rewrite (ni_all _ _ _ _ Hn), Hcs, list_lookup_fmap, Hb.
Qed.

(** A request is refused only because its own context has ended. *)
Lemma refused_gave_up n c :
  ninv n → handlers (inode n) !! c = Some (HReplied false) →
  ∃ k e, calls (qnode n) !! c = Some k ∧ ctxs (qnode n) !! sc_ctx k = Some e.
Proof.
  intros Hn Hc. destruct (proj1 (ni_handler _ _ _ _ Hn) c _ Hc) as (k & Hk & Hr).
  destruct Hr as (r & Hpc & He); [done|]. destruct He as [e He]; [done|].
  pose proof (sv_err _ (ni_served _ _ _ _ Hn) c k r e Hk (or_intror Hpc) He) as Hg.
  destruct e as [|e]; [done|]. by exists k, e.
Qed.

Lemma log_ok_pipe n : ninv n → log_ok (slog (pipe n)).
Proof. intros Hn. destruct (invariant_reachable _ _ _ _ (ni_pipe _ _ _ _ Hn)) as (? & ? & ? & ? & []). done. Qed.

(** The collector asks for one transaction at a time. *)
Lemma in_hand_one n cur :
  ninv n → match collector (pipe n) with CWait d => cur = received_by (slog (pipe n)) d | _ => cur = [] end →
  length cur ≤ 1.
Proof.
  intros Hn Hcur. pose proof (ni_served _ _ _ _ Hn) as Hs.
  pose proof (i_deliver _ (inv_reachable _ (sv_reach _ Hs))) as Hi.
  destruct (collector (pipe n)) as [|d|txs|]; rewrite Hcur; try (cbn; lia).
  destruct (drains (qnode n) !! d) as [k|] eqn:Hk.
  - assert (received_by (slog (pipe n)) d = d_batch k) as -> by (symmetry; exact (iv_batch _ Hi d k Hk)).
    pose proof (iv_size _ Hi d k Hk) as Hsz.
    destruct (sv_drains _ Hs d k Hk) as [_ Hone]. lia.
  - rewrite received_by_none; [cbn; lia|exact (log_ok_pipe n Hn)|].
    cbn. unfold qnode, inode in Hk. by rewrite Hk.
Qed.

(** C11: what a stopped node leaves.  When main has returned, every request that
    was taken has been answered, and refused only because its own context had
    ended, never because the queue was closed; nothing runs any more; the
    committed transactions are those of the processed batches followed by those
    that are dropped: a batch in hand, the mempool, the collector's hands, and
    what was never read from the queue; and each processed batch's commitment
    had been handed to one goroutine for publication, which is either cut off
    before PublishCommitment returned or had ended, with that call's success or
    failure. *)
Theorem stopped_node n :
  reached n → main n = MStopped →
  (∀ e, step1 e n = None) ∧
  (∀ c h, handlers (inode n) !! c = Some h → h = HReplied true ∨
     h = HReplied false ∧ ∃ k e, calls (qnode n) !! c = Some k ∧ ctxs (qnode n) !! sc_ctx k = Some e) ∧
  (∃ fl q cur, contents (mheap (mempool (pipe n))) (items (mempool (pipe n))) = Some q ∧
     draining (pipe n) fl ∧ length cur ≤ 1 ∧
     (sent (qnode n)).*2 = concat (batches (pipe n)) ++ fl ++ q ++ hand (collector (pipe n)) ++ cur ++ ch (qnode n)) ∧
  GenerateBatchCommitment <$> batches (pipe n) ≡ₚ settling n ++ (settled n).*1.
Proof.
  intros Hr Hm. pose proof (node_inv_reachable _ _ _ _ graceful_waits n Hr) as Hn. split_and!.
  - intros e. unfold node_step. by rewrite decide_True.
  - intros c h Hc. pose proof (ni_replied _ _ _ _ Hn) as Hrep. rewrite Hm in Hrep.
    specialize (Hrep eq_refl c h Hc). destruct h as [| |[]]; try done; [by left|right].
    split; [done|]. by apply refused_gave_up.
  - destruct (pipeline_in_hand _ _ _ _ (ni_pipe _ _ _ _ Hn)) as (fl & q & cur & Hq & Hfl & Ht & Hcur).
    exists fl, q, cur. split_and!; try done; [by eapply in_hand_one|].
    pose proof (inv_reachable _ (sv_reach _ (ni_served _ _ _ _ Hn))) as Hi.
    rewrite (iv_split _ (i_deliver _ Hi)). change (recvd (qnode n)) with (taken (slog (pipe n))).
    rewrite Ht, <- !app_assoc. done.
  - destruct (committed_split _ _ _ _ (ni_pipe _ _ _ _ Hn)) as (rest & _ & _ & Hcs).
    rewrite <- Hcs, <- (ni_all _ _ _ _ Hn). apply (ni_published _ _ _ _ Hn).
Qed.
End props.

(** ** Witnesses *)

Definition all_done (hs : gmap nat handler) : bool := bool_decide (map_Forall (λ _ h, replied h = true) hs).

Lemma all_done_waits hs : all_done hs = true ↔ map_Forall (λ _ h, replied h = true) hs.
Proof. apply bool_decide_eq_true. Qed.

Definition no_batch (_ : list bytes) : option (list bytes) := Some [].
Definition no_single (_ : bytes) : option bytes := Some [].

Abbreviation sample_node := (node_run doubling no_batch no_single all_done).

(** One request, accepted; the signal; and main in GracefulStop. *)
Definition one_request : list node_event :=
  rush_in 1 ++ (NHandler <$> [IQueue (EAdmission CommitCh); IQueue (ECall 1 RecvResp); IReturn 1; IStore 1]) ++
  [NMain; NMain; NMain; NMain].

Definition until_stopped : list node_event :=
  [NCall 0; NHandler (IQueue (EDrainCall 0 DCtx)); NCollect; NMain; NMain].

Lemma reach_sample es n : boot ≫= sample_node es = Some n → node_reachable doubling no_batch no_single all_done n.
Proof. intros (n0 & E0 & E)%bind_Some. eapply node_reachable_run, E. by constructor. Qed.

Lemma shutdown_outcome_witness :
  ∃ n n', boot ≫= sample_node one_request = Some n ∧ sample_node until_stopped n = Some n' ∧
    5 ≤ node_work n ∧ ¬ jammed n'.
Proof.
  assert ((λ n, (main n, backlog (qnode n), bool_decide (is_Some (sample_node until_stopped n)))) <$>
    (boot ≫= sample_node one_request) = Some (MDraining, 1, true)) as H by (by vm_compute).
  apply fmap_Some in H as (n & E & H). injection H as Hm Hb Hs. symmetry in Hs.
  apply bool_decide_eq_true in Hs as [n' E']. exists n, n'. split; [exact E|]. split; [exact E'|].
  destruct (shutdown_outcome doubling no_batch no_single all_done all_done_waits n until_stopped n'
    (reach_sample _ _ E) (eq_sym Hm) E') as (H1 & _ & H3).
  split; [exact H1|]. apply H3. lia.
Defined.

Lemma shutdown_can_hang_witness :
  ∃ n, main n = MDraining ∧ ∀ es n', Forall (λ e, ∀ err, e ≠ NGiveUp 101 err) es →
    sample_node es n = Some n' → main n' = MDraining.
Proof.
  destruct (shutdown_can_hang doubling no_batch no_single all_done all_done_waits) as (n & _ & Hm & _ & H).
  exists n. split; [done|]. intros es n' Hes Hrun. by destruct (H es n' Hes Hrun).
Defined.

Lemma node_acknowledged_witness :
  ∃ n i tx, boot ≫= sample_node one_request = Some n ∧ sent (qnode n) !! i = Some (1, tx) ∧
    proof_of tx ∈ proofs (store (inode n)).
Proof.
  assert ((λ n, handlers (inode n) !! 1) <$> (boot ≫= sample_node one_request) = Some (Some (HReplied true)))
    as H by (by vm_compute).
  apply fmap_Some in H as (n & E & H).
  destruct (node_acknowledged doubling no_batch no_single all_done all_done_waits n 1
    (reach_sample _ _ E) (eq_sym H)) as (i & tx & k & H1 & _ & _ & H2 & _).
  exists n, i, tx. split; [exact E|]. by split.
Defined.

(** An acknowledged transaction that is never revealed. *)
Lemma stopped_node_witness :
  ∃ n, boot ≫= sample_node (one_request ++ until_stopped) = Some n ∧
    handlers (inode n) !! 1 = Some (HReplied true) ∧ batches (pipe n) = [] ∧
    ∀ e, node_step doubling no_batch no_single all_done e n = None.
Proof.
  assert ((λ n, (main n, handlers (inode n) !! 1, batches (pipe n))) <$>
    (boot ≫= sample_node (one_request ++ until_stopped)) = Some (MStopped, Some (HReplied true), []))
    as H by (by vm_compute).
  apply fmap_Some in H as (n & E & H). injection H as Hm Hh Hb.
  destruct (stopped_node doubling no_batch no_single all_done all_done_waits n
    (reach_sample _ _ E) (eq_sym Hm)) as (Hstop & _).
  exists n. split; [exact E|]. split; [exact (eq_sym Hh)|]. split; [exact (eq_sym Hb)|exact Hstop].
Defined.
