(* ===== verification/CppMempool.v ===== *)
(** cpp/src/privacy/encrypted_mempool.cpp: the C++ key-value mempool with
    arrival order.

    Each method holds the mutex for its whole body, also when get_transaction
    throws, so that whatever the threads do the object goes through a sequence
    of operations.  A vector that was moved from is empty. *)

From S2P Require Import Prelude.

Abbreviation key := bytes.
Abbreviation blob := bytes.

(** ** The class *)

Record encrypted_mempool := MkMempool {
  mempool : gmap key blob;
  arrival_order : list key
}.

Definition new_mempool : encrypted_mempool := MkMempool ∅ [].

Definition add_transaction (k : key) (value : blob) (s : encrypted_mempool) : encrypted_mempool :=
  let is_new := bool_decide (mempool s !! k = None) in
  MkMempool (<[k := value]> (mempool s)) (if is_new then arrival_order s ++ [k] else arrival_order s).

Definition remove_transaction (k : key) (s : encrypted_mempool) : encrypted_mempool :=
  MkMempool (delete k (mempool s)) (arrival_order s).

(** [None] is the exception std::out_of_range of at(). *)
Definition get_transaction (k : key) (s : encrypted_mempool) : option blob := mempool s !! k.

Definition has_transaction (k : key) (s : encrypted_mempool) : bool := bool_decide (mempool s !! k ≠ None).

Definition mempool_size (s : encrypted_mempool) : nat := size (mempool s).

(** The loop of drain_all: the value found is moved out of the map, which keeps
    an empty one. *)
Fixpoint drain_loop (order : list key) (m : gmap key blob) (result : list (key * blob))
  : list (key * blob) * gmap key blob :=
  match order with
  | [] => (result, m)
  | k :: order =>
      match m !! k with
      | Some v => drain_loop order (<[k := []]> m) (result ++ [(k, v)])
      | None => drain_loop order m result
      end
  end.

(** [clear()] of the map. *)
Definition clear (m : gmap key blob) : gmap key blob := ∅.

Definition drain_all (s : encrypted_mempool) : list (key * blob) * encrypted_mempool :=
  let '(result, m) := drain_loop (arrival_order s) (mempool s) [] in
  (result, MkMempool (clear m) []).

Inductive op := OpAdd (k : key) (v : blob) | OpRemove (k : key) | OpGet (k : key) | OpHas (k : key) | OpSize | OpDrain.
Inductive out := Done | Value (v : option blob) | Flag (b : bool) | Number (n : nat) | Items (l : list (key * blob)).

Definition perform (o : op) (s : encrypted_mempool) : out * encrypted_mempool :=
  match o with
  | OpAdd k v => (Done, add_transaction k v s)
  | OpRemove k => (Done, remove_transaction k s)
  | OpGet k => (Value (get_transaction k s), s)
  | OpHas k => (Flag (has_transaction k s), s)
  | OpSize => (Number (mempool_size s), s)
  | OpDrain => let '(l, s) := drain_all s in (Items l, s)
  end.

Fixpoint perform_all (ops : list op) (s : encrypted_mempool) : list out * encrypted_mempool :=
  match ops with
  | [] => ([], s)
  | o :: ops => let '(r, s) := perform o s in let '(rs, s) := perform_all ops s in (r :: rs, s)
  end.

(** ** What the header promises

    A list of entries with different keys, in the order of their arrival;
    [gone] are the keys removed since the last drain. *)

Record store_spec := Spec { entries : list (key * blob); gone : list key }.

Definition update (k : key) (v : blob) (l : list (key * blob)) : list (key * blob) :=
  (λ p, if decide (p.1 = k) then (k, v) else p) <$> l.

Definition lookup_entry (k : key) (l : list (key * blob)) : option blob :=
  snd <$> List.find (λ p, bool_decide (p.1 = k)) l.

Definition spec_perform (o : op) (a : store_spec) : out * store_spec :=
  match o with
  | OpAdd k v =>
      (Done, Spec (if decide (k ∈ (entries a).*1) then update k v (entries a) else entries a ++ [(k, v)]) (gone a))
  | OpRemove k => (Done, Spec (filter (λ p, p.1 ≠ k) (entries a)) (k :: gone a))
  | OpGet k => (Value (lookup_entry k (entries a)), a)
  | OpHas k => (Flag (bool_decide (k ∈ (entries a).*1)), a)
  | OpSize => (Number (length (entries a)), a)
  | OpDrain => (Items (entries a), Spec [] [])
  end.

(** No key is added that was removed since the last drain. *)
Definition op_ok (o : op) (a : store_spec) : bool :=
  match o with OpAdd k _ => bool_decide (k ∉ gone a) | _ => true end.

Fixpoint spec_all (ops : list op) (a : store_spec) : list out * store_spec * bool :=
  match ops with
  | [] => ([], a, true)
  | o :: ops =>
      let '(r, a') := spec_perform o a in
      let '(rs, a', ok) := spec_all ops a' in (r :: rs, a', op_ok o a && ok)
  end.

(** ** Refinement *)

Record rep (s : encrypted_mempool) (a : store_spec) : Prop := {
  rp_nodup : NoDup (entries a).*1;
  rp_map : ∀ k v, mempool s !! k = Some v ↔ (k, v) ∈ entries a;
  rp_order : filter (λ k, k ∈ (entries a).*1) (arrival_order s) = (entries a).*1;
  rp_gone : ∀ k, k ∈ arrival_order s → k ∈ (entries a).*1 ∨ k ∈ gone a
}.

(** The loop over an order in which each key of [l] occurs once. *)
Lemma drain_loop_spec order m (l : list (key * blob)) result :
  NoDup l.*1 → (∀ k v, (k, v) ∈ l → m !! k = Some v) → (∀ k, k ∈ order → k ∉ l.*1 → m !! k = None) →
  filter (λ k, k ∈ l.*1) order = l.*1 →
  ∃ m', drain_loop order m result = (result ++ l, m') ∧
    (∀ k, k ∈ l.*1 → m' !! k = Some []) ∧ ∀ k, k ∉ l.*1 → m' !! k = m !! k.
Proof.
  revert m l result. induction order as [|k order IH]; intros m l result Hnd Hm Hno Hf.
  { cbn in Hf. symmetry in Hf. apply fmap_nil_inv in Hf as ->. exists m. rewrite app_nil_r.
    split_and!; [done| |done]. by intros ? ?%elem_of_nil. }
  rewrite filter_cons in Hf. case_decide as Hk.
  - destruct l as [|[k0 v] l]; [done|]. cbn in Hf. injection Hf as <- Hf. apply NoDup_cons in Hnd as [Hk0 Hnd].
    assert (k ∉ order) as Hko.
    { intros Hin. apply Hk0. change (k ∈ l.*1). rewrite <- Hf. apply list_elem_of_filter. by split; [left|]. }
    destruct (IH (<[k := []]> m) l (result ++ [(k, v)])) as (m' & E & Hm' & Hkeep); [done|..].
    + intros k' v' Hin. rewrite lookup_insert_ne; [apply Hm; by right|]. intros ->.
      apply Hk0. apply list_elem_of_fmap. by exists (k', v').
    + intros k' Hk' Hn. rewrite lookup_insert_ne by (by intros ->). apply Hno; [by right|].
      cbn. by intros [->|?]%elem_of_cons.
    + etrans; [|exact Hf]. apply filter_iff_elem. intros k' Hk'. cbn. rewrite elem_of_cons.
      split; [by right|]. by intros [->|].
    + exists m'. cbn. rewrite (Hm k v) by (by left). rewrite E, <- app_assoc. split_and!; [done|..].
      * intros k' [->|?]%elem_of_cons; [|by apply Hm']. by rewrite Hkeep, lookup_insert_eq.
      * intros k' [Hne Hn]%not_elem_of_cons. rewrite Hkeep by done. by apply lookup_insert_ne.
  - cbn. rewrite Hno by (by (left || done)). apply IH; try done. intros k' Hk'. apply Hno. by right.
Qed.

Lemma rep_lookup s a k : rep s a → mempool s !! k = None ↔ k ∉ (entries a).*1.
Proof.
  intros [_ Hm _ _]. rewrite eq_None_not_Some. f_equiv. split.
  - intros [v Hv%Hm]. apply list_elem_of_fmap. by exists (k, v).
  - intros ([k' v] & -> & Hin)%list_elem_of_fmap. exists v. by apply Hm.
Qed.

Lemma rep_drain s a : rep s a → drain_all s = (entries a, new_mempool).
Proof.
  intros Hr. destruct (drain_loop_spec (arrival_order s) (mempool s) (entries a) []) as (m' & E & _).
  - apply Hr.
  - intros k v Hin. by apply (rp_map _ _ Hr).
  - intros k _ Hk. by apply (rep_lookup s a).
  - apply Hr.
  - unfold drain_all. by rewrite E.
Qed.

Lemma update_keys k v l : (update k v l).*1 = l.*1.
Proof.
  unfold update. rewrite <- list_fmap_compose. apply list_fmap_ext. intros i p _. cbn. by case_decide.
Qed.

Lemma elem_of_update k v l k' v' :
  (k', v') ∈ update k v l ↔ if decide (k' = k) then v' = v ∧ k ∈ l.*1 else (k', v') ∈ l.
Proof.
  unfold update. rewrite !list_elem_of_fmap. split.
  - intros ([k0 v0] & E & Hin). cbn in E. destruct (decide (k0 = k)); simplify_eq.
    + rewrite decide_True by done. split; [done|]. apply list_elem_of_fmap. by exists (k, v0).
    + by rewrite decide_False.
  - destruct (decide (k' = k)) as [->|Hk].
    + intros [-> ([k0 v0] & E & Hin)%list_elem_of_fmap]. cbn in E. exists (k0, v0). cbn. subst. by rewrite decide_True.
    + intros Hin. exists (k', v'). cbn. by rewrite decide_False.
Qed.

Lemma filter_keys k (l : list (key * blob)) :
  (filter (λ p, p.1 ≠ k) l).*1 = filter (λ k', k' ≠ k) l.*1.
Proof. induction l as [|[k0 v] l IH]; [done|]. rewrite fmap_cons, !filter_cons. cbn. case_decide; cbn; by rewrite IH. Qed.

Lemma rep_add s a k v :
  rep s a → k ∉ gone a → rep (add_transaction k v s) (spec_perform (OpAdd k v) a).2.
Proof.
  intros Hr Hg. pose proof Hr as [Hnd Hm Ho Hgo]. unfold add_transaction. cbn. case_decide as Hk.
  - rewrite bool_decide_false by (intros Hn; by apply (rep_lookup s a k Hr) in Hn).
    split; cbn; rewrite ?update_keys; try done.
    intros k' v'. rewrite lookup_insert, elem_of_update. repeat case_decide; subst; try done.
    split; [by intros [= ->]|by intros [-> _]].
  - assert (mempool s !! k = None) as Hn by (by apply (rep_lookup s a)). rewrite bool_decide_true by done.
    assert (k ∉ arrival_order s) as Hko by (by intros [?|?]%Hgo).
    split; cbn; rewrite ?fmap_app; cbn.
    + apply NoDup_app. split_and!; [done| |apply NoDup_singleton]. by intros k' Hk' ->%list_elem_of_singleton.
    + intros k' v'. rewrite lookup_insert, elem_of_app, list_elem_of_singleton. case_decide as Hkk.
      * subst. split; [intros [= ->]; by right|]. intros [Hin|[= ->]]; [|done].
        destruct Hk. apply list_elem_of_fmap. by exists (k', v').
      * rewrite Hm. split; [by left|]. intros [|[= -> _]]; done.
    + rewrite filter_app, filter_cons_True, filter_nil by set_solver. f_equal.
      etrans; [|exact Ho]. apply filter_iff_elem. intros k' Hk'. rewrite elem_of_app, list_elem_of_singleton.
      split; [|by left]. by intros [| ->].
    + intros k' [Hk'|Hk']%elem_of_app; [|left; set_solver]. destruct (Hgo k' Hk'); [left; set_solver|by right].
Qed.

Lemma rep_remove s a k : rep s a → rep (remove_transaction k s) (spec_perform (OpRemove k) a).2.
Proof.
  intros [Hnd Hm Ho Hgo]. split; cbn; rewrite ?filter_keys.
  - by apply NoDup_filter.
  - intros k' v. rewrite lookup_delete, list_elem_of_filter. cbn. case_decide; [by split; [|intros [[] _]]|].
    rewrite Hm. split; [by intros|by intros [_ ?]].
  - etrans; [|exact (f_equal (filter (λ k', k' ≠ k)) Ho)]. rewrite list_filter_filter.
    apply filter_iff_elem. intros k' _. by rewrite list_elem_of_filter.
  - intros k' Hk'. rewrite list_elem_of_filter. destruct (decide (k' = k)) as [->|]; [right; by left|].
    destruct (Hgo k' Hk'); [by left|right; by right].
Qed.

Lemma rep_size s a : rep s a → mempool_size s = length (entries a).
Proof.
  intros [Hnd Hm _ _]. unfold mempool_size. rewrite <- length_map_to_list. apply Permutation_length.
  apply NoDup_Permutation; [apply NoDup_map_to_list|by eapply NoDup_fmap_1|].
  intros [k v]. by rewrite elem_of_map_to_list, Hm.
Qed.

Lemma rep_get s a k : rep s a → get_transaction k s = lookup_entry k (entries a).
Proof.
  intros [Hnd Hm _ _]. unfold get_transaction, lookup_entry. apply option_eq. intros v. rewrite Hm. clear Hm.
  induction (entries a) as [|[k0 v0] l IH]; cbn.
  { split; [by intros ?%elem_of_nil|done]. }
  apply NoDup_cons in Hnd as [Hk0 Hnd]. rewrite elem_of_cons. case_bool_decide as Hk; cbn.
  - subst. split; [|by intros [= ->]; left]. intros [[= ->]|Hin]; [done|].
    destruct Hk0. apply list_elem_of_fmap. by exists (k, v).
  - rewrite <- IH by done. split; [|by right]. by intros [[= ]|].
Qed.

Lemma rep_new : rep new_mempool (Spec [] []).
Proof. split; try done; cbn; [constructor| |]; intros; set_solver. Qed.

Lemma perform_ok o s a :
  rep s a → op_ok o a = true →
  (perform o s).1 = (spec_perform o a).1 ∧ rep (perform o s).2 (spec_perform o a).2.
Proof.
  intros Hr Hok. destruct o as [k v|k|k|k| |]; cbn in Hok.
  - apply bool_decide_eq_true in Hok. by split; [|apply rep_add].
  - split; [done|]. by apply rep_remove.
  - split; [|done]. cbn. by rewrite (rep_get s a).
  - split; [|done]. cbn. unfold has_transaction. f_equal. apply bool_decide_ext.
    rewrite (rep_lookup s a) by done. split; [apply dec_stable|intros H1 H2; by apply H2].
  - split; [|done]. cbn. by rewrite (rep_size s a).
  - unfold perform. rewrite (rep_drain s a Hr). split; [done|apply rep_new].
Qed.

Lemma drain_loop_app o1 o2 m result :
  drain_loop (o1 ++ o2) m result =
  let '(r, m') := drain_loop o1 m result in drain_loop o2 m' r.
Proof. revert m result. induction o1 as [|k o1 IH]; intros m result; [done|]. cbn. destruct (m !! k); apply IH. Qed.

Lemma filter_absent k (l : list (key * blob)) : k ∉ l.*1 → filter (λ p, p.1 ≠ k) l = l.
Proof.
  induction l as [|[k0 v] l IH]; [done|]. rewrite fmap_cons. intros [Hk Hl]%not_elem_of_cons.
  rewrite filter_cons_True by (intros E; by apply Hk). by rewrite IH.
Qed.

(** ** Properties *)

(** C28: the C++ mempool is the store its header promises, as long as no key is
    added that was removed since the last drain: every operation answers as a
    list of entries in order of first arrival would, in any sequence of
    operations and so in any interleaving of threads; an update keeps its place,
    a removal is skipped, at() throws exactly for absent keys, and drain_all
    returns everything in arrival order and leaves an empty store. *)
Theorem cpp_mempool_refines ops :
  let '(outs, s) := perform_all ops new_mempool in
  let '(expected, a, ok) := spec_all ops (Spec [] []) in
  ok = true → outs = expected ∧ rep s a.
Proof.
  pose proof rep_new as Hr. revert Hr. generalize new_mempool, (Spec [] []).
  induction ops as [|o ops IH]; intros s a Hr; [done|]. cbn.
  pose proof (perform_ok o s a Hr) as Hp. destruct (perform o s) as [r s1], (spec_perform o a) as [r' a1]. cbn in Hp.
  specialize (IH s1 a1). destruct (perform_all ops s1) as [rs s2], (spec_all ops a1) as [[rs' a2] ok].
  intros [Ho ->]%andb_true_iff. destruct (Hp Ho) as [-> Hr1]. by destruct (IH Hr1 eq_refl) as [-> ?].
Qed.

(** A key that is removed and added again breaks the order.  drain_all then
    returns it twice: with its new ciphertext at the place of the removed entry,
    ahead of everything that arrived since, and at its own place with an empty
    ciphertext; so one item more than size() says. *)
Theorem cpp_mempool_readd s a l1 k v0 l2 v :
  rep s a → entries a = l1 ++ (k, v0) :: l2 →
  let s' := add_transaction k v (remove_transaction k s) in
  drain_all s' = (l1 ++ (k, v) :: l2 ++ [(k, [])], new_mempool) ∧
  length (drain_all s').1 = S (mempool_size s') ∧
  (spec_perform OpDrain (spec_perform (OpAdd k v) (spec_perform (OpRemove k) a).2).2).1 = Items (l1 ++ l2 ++ [(k, v)]).
Proof.
  intros Hr Ea s'. pose proof Hr as [Hnd Hm Ho Hgo].
  assert (s' = MkMempool (<[k := v]> (mempool s)) (arrival_order s ++ [k])) as Es.
  { unfold s', add_transaction, remove_transaction. cbn. rewrite lookup_delete_eq, bool_decide_true by done.
    by rewrite insert_delete_eq. }
  assert ((l1 ++ (k, v) :: l2).*1 = (entries a).*1) as Ek by (by rewrite Ea, !fmap_app).
  destruct (drain_loop_spec (arrival_order s) (<[k := v]> (mempool s)) (l1 ++ (k, v) :: l2) []) as (m & E & Hmoved & _).
  - by rewrite Ek.
  - intros k' v' Hin. destruct (decide (k' = k)) as [->|Hk].
    + rewrite lookup_insert_eq. f_equal.
      apply (NoDup_fmap_inj fst (l1 ++ (k, v) :: l2) (k, v) (k, v')) in Hin; try done; [by injection Hin| |].
      * by rewrite Ek.
      * set_solver.
    + rewrite lookup_insert_ne by done. apply Hm. rewrite Ea. set_solver.
  - intros k' _ Hk'. rewrite Ek in Hk'. rewrite lookup_insert_ne; [by apply (rep_lookup s a)|].
    intros ->. apply Hk'. rewrite Ea, fmap_app. set_solver.
  - rewrite Ek. exact Ho.
  - assert (drain_all s' = (l1 ++ (k, v) :: l2 ++ [(k, [])], new_mempool)) as Ed.
    { rewrite Es. unfold drain_all. cbn. rewrite drain_loop_app, E. cbn. rewrite Hmoved by (rewrite fmap_app; set_solver).
      by rewrite <- app_assoc. }
    split; [done|]. split.
    + rewrite Ed. unfold mempool_size. rewrite Es. cbn. rewrite map_size_insert_Some by (exists v0; apply Hm; rewrite Ea; set_solver).
      change (size (mempool s)) with (mempool_size s). rewrite (rep_size s a Hr), Ea, !length_app. cbn.
      rewrite length_app. cbn. lia.
    + cbn. rewrite Ea. rewrite Ea, fmap_app in Hnd. cbn in Hnd. rewrite filter_app, filter_cons_False by (cbn; by intros []).
      rewrite !filter_absent by (apply NoDup_app in Hnd as (_ & H1 & H2%NoDup_cons); set_solver).
      rewrite decide_False; [by rewrite app_assoc|]. rewrite fmap_app.
      apply NoDup_app in Hnd as (_ & H1 & H2%NoDup_cons). set_solver.
Qed.

(** ** Witnesses *)

Definition sample_ops : list op :=
  [OpAdd (str "a") (str "1"); OpAdd (str "b") (str "2"); OpAdd (str "a") (str "3"); OpGet (str "a");
   OpRemove (str "b"); OpSize; OpHas (str "b"); OpAdd (str "c") (str "4"); OpDrain; OpAdd (str "b") (str "5"); OpDrain].

Lemma cpp_mempool_refines_witness :
  (spec_all sample_ops (Spec [] [])).2 = true ∧
  (perform_all sample_ops new_mempool).1 !! 8 = Some (Items [(str "a", str "3"); (str "c", str "4")]) ∧
  (perform_all sample_ops new_mempool).1 = (spec_all sample_ops (Spec [] [])).1.1.
Proof.
  pose proof (cpp_mempool_refines sample_ops) as H.
  destruct (perform_all sample_ops new_mempool) as [outs s] eqn:E, (spec_all sample_ops (Spec [] [])) as [[ex a] ok] eqn:E'.
  assert (ok = true) as -> by (by vm_compute in E'; injection E'). split; [done|].
  destruct (H eq_refl) as [-> _]. split; [|done]. vm_compute in E'. by injection E' as <- _.
Defined.

(** Two clients, of which the first replaces its transaction. *)
Lemma cpp_mempool_readd_witness :
  ∃ s, s = (perform_all [OpAdd (str "a") (str "1"); OpAdd (str "b") (str "2")] new_mempool).2 ∧
    (drain_all (add_transaction (str "a") (str "3") (remove_transaction (str "a") s))).1 =
    [(str "a", str "3"); (str "b", str "2"); (str "a", [])].
Proof.
  set (ops := [OpAdd (str "a") (str "1"); OpAdd (str "b") (str "2")]).
  exists (perform_all ops new_mempool).2. split; [done|].
  pose proof (rep_add _ _ (str "a") (str "1") rep_new ltac:(by intros ?%elem_of_nil)) as H1.
  pose proof (rep_add _ _ (str "b") (str "2") H1 ltac:(by intros ?%elem_of_nil)) as H2.
  destruct (cpp_mempool_readd (perform_all ops new_mempool).2 _ [] (str "a") (str "1") [(str "b", str "2")] (str "3") H2)
    as (E & _); [by vm_compute|]. by rewrite E.
Defined.
