(* ===== verification/Cluster.v ===== *)
(** A cluster of sequencers on one Raft log: SubmitTx at the leader, from
    internal/rpc/server.go through SubmitWithReceipt of pkg/sequencing/raft_log.go
    to the batches that every replica reveals; and what is left of it when a
    node shuts down. *)

From S2P Require Import Prelude GoStrings GoJson Commitment GoSlice Mempool.
From S2P Require Import TxQueue TxQueueInv ReceptionStore OrderedLog Pipeline Server RaftLog RaftProps.

Section cluster.
Context (unmarshal_other : bytes → option raftProposal) (rlog : list raft_entry).
Context (indices : StronglySorted Z.lt (Index <$> rlog)).

(** The place in the sequence of transactions of entry [k] of the log. *)
Definition tx_position (k : nat) : nat := length (log_txs unmarshal_other rlog k).

Lemma tx_position_lookup k e tx :
  rlog !! k = Some e → entry_tx unmarshal_other e = Some tx →
  log_txs unmarshal_other rlog (length rlog) !! tx_position k = Some tx.
Proof.
  intros Hk He. assert (k < length rlog) as Hlt by (by eapply lookup_lt_Some).
  assert (log_txs unmarshal_other rlog (length rlog) =
    log_txs unmarshal_other rlog (S k) ++ omap (entry_tx unmarshal_other) (drop (S k) rlog)) as ->.
  { unfold log_txs. rewrite (take_ge rlog (length rlog)) by lia. by rewrite <- omap_app, take_drop. }
  rewrite (log_txs_S _ _ _ _ Hk), He. cbn. rewrite <- app_assoc. cbn. by apply list_lookup_middle.
Qed.

(** What a replica has processed agrees with the log. *)
Lemma replica_lookup grow db ds (s : sequencer (L := RaftOrderedLog)) p tx b :
  pipe_reachable (Hlog := raft_log unmarshal_other rlog) grow db ds s → rskipped (slog s) = false →
  log_txs unmarshal_other rlog (length rlog) !! p = Some tx →
  batches s !! (p / Z.to_nat batchSize) = Some b → b !! (p mod Z.to_nat batchSize) = Some tx.
Proof.
  intros Hs Hsk Hp Hb. pose proof (raft_log_laws unmarshal_other rlog indices) as Hlaws.
  destruct (invariant_reachable _ _ _ s Hs) as (? & ? & ? & ? & [Hl _ _ _ _ _ _ _ _]).
  destruct (remitted_prefix _ _ _ Hl Hsk) as [more Hmore].
  destruct (committed_split _ _ _ s Hs) as (rest & Hc & Hsz & _). cbn in Hc.
  apply (batch_position (batches s) (rest ++ more) p tx b Hsz); [|done].
  by rewrite app_assoc, <- Hc, <- Hmore.
Qed.

(** The batches of two replicas that skipped nothing are the same. *)
Lemma replica_batches g1 db1 ds1 g2 db2 ds2 (s1 s2 : sequencer (L := RaftOrderedLog)) i b1 b2 :
  pipe_reachable (Hlog := raft_log unmarshal_other rlog) g1 db1 ds1 s1 →
  pipe_reachable (Hlog := raft_log unmarshal_other rlog) g2 db2 ds2 s2 →
  rskipped (slog s1) = false → rskipped (slog s2) = false →
  batches s1 !! i = Some b1 → batches s2 !! i = Some b2 → b1 = b2.
Proof.
  intros H1 H2 K1 K2 B1 B2.
  assert (∀ g db ds s, pipe_reachable (Hlog := raft_log unmarshal_other rlog) g db ds s → rskipped (slog s) = false →
    ∃ rest, log_txs unmarshal_other rlog (length rlog) = concat (batches s) ++ rest ∧
      Forall (λ b, Z.of_nat (length b) = batchSize) (batches s)) as Hsplit.
  { intros g db ds s Hs Hsk. pose proof (raft_log_laws unmarshal_other rlog indices) as Hlaws.
    destruct (invariant_reachable _ _ _ s Hs) as (? & ? & ? & ? & [Hl _ _ _ _ _ _ _ _]).
    destruct (remitted_prefix _ _ _ Hl Hsk) as [more ->].
    destruct (committed_split _ _ _ s Hs) as (rest & Hc & Hsz & _). cbn in Hc.
    exists (rest ++ more). by rewrite Hc, app_assoc. }
  destruct (Hsplit _ _ _ _ H1 K1) as (r1 & E1 & S1), (Hsplit _ _ _ _ H2 K2) as (r2 & E2 & S2).
  rewrite E1 in E2. destruct (Nat.le_ge_cases (length (batches s1)) (length (batches s2))) as [Hle|Hle].
  - pose proof (prefix_lookup_Some _ _ _ _ B1 (batches_prefix _ _ _ _ S1 S2 E2 Hle)). congruence.
  - pose proof (prefix_lookup_Some _ _ _ _ B2 (batches_prefix _ _ _ _ S2 S1 (eq_sym E2) Hle)). congruence.
Qed.

(** ** SubmitTx at the leader *)

Context (conn client dial_error remote_error apply_error : Type) (NewRPCServiceClient : conn → client).

Abbreviation server := (Server conn client).
Abbreviation raft_submit := (λ until err1 now apply ct,
  as_res (raft_SubmitWithReceipt (E := apply_error) None until err1 now apply ct)).
Abbreviation server_SubmitTx :=
  (SubmitTx conn client dial_error remote_error (raft_submit_error apply_error) NewRPCServiceClient).

(** C6: the promise of a cluster.  A request that reaches the leader before its
    deadline, and whose proposal Raft commits as entry k, is acknowledged, with
    the proof of exactly its ciphertext under the entry's index and the time of
    the call stored at the leader.  And on every replica that has skipped nothing
    and has processed batch p/1000, the leader or not, the transaction is number
    p mod 1000 of that batch, where p counts the transactions of the entries
    before k; any two such replicas have the same 1000 transactions in this batch
    and have computed the same commitment of it. *)
Theorem raft_acknowledged k i now ct until err1 (apply : bytes → Z → res apply_error raft_response)
    dial remote leader (srv : server) :
  rlog !! k = Some (MkEntry i (Marshal (MkProposal (UnixNano now) ct))) →
  (if until is Some t then 0 < t else True)%Z →
  (∀ data t, apply data t = Ok (fsm_response unmarshal_other (MkEntry i data))) →
  let tx := {| ID := i; Ciphertext := ct; ArrivedAt := Unix0 (UnixNano now) |} in
  server_SubmitTx (RaftLog true leader) dial remote (raft_submit until err1 now apply) ct srv =
    ((Some (MkAck true), None), add_proof conn client (proof_of tx) srv) ∧
  ∀ g1 db1 ds1 g2 db2 ds2 (s1 s2 : sequencer (L := RaftOrderedLog)) b1 b2,
    pipe_reachable (Hlog := raft_log unmarshal_other rlog) g1 db1 ds1 s1 → rskipped (slog s1) = false →
    pipe_reachable (Hlog := raft_log unmarshal_other rlog) g2 db2 ds2 s2 → rskipped (slog s2) = false →
    batches s1 !! (tx_position k / 1000) = Some b1 → batches s2 !! (tx_position k / 1000) = Some b2 →
    b1 = b2 ∧ b1 !! (tx_position k mod 1000) = Some tx ∧ length b1 = 1000 ∧
    commitments s1 !! (tx_position k / 1000) = Some (GenerateBatchCommitment b1) ∧
    commitments s2 !! (tx_position k / 1000) = Some (GenerateBatchCommitment b1).
Proof.
  intros Hk Hu Ha tx. split.
  - unfold SubmitTx. rewrite (raft_receipt_returned unmarshal_other until err1 now i ct apply Hu Ha). done.
  - intros g1 db1 ds1 g2 db2 ds2 s1 s2 b1 b2 Hs1 Hsk1 Hs2 Hsk2 Hb1 Hb2.
    pose proof (raft_log_laws unmarshal_other rlog indices) as Hlaws.
    pose proof (replica_batches _ _ _ _ _ _ _ _ _ _ _ Hs1 Hs2 Hsk1 Hsk2 Hb1 Hb2) as <-.
    destruct (committed_split _ _ _ s1 Hs1) as (r1 & _ & Hsz & ->).
    destruct (committed_split _ _ _ s2 Hs2) as (r2 & _ & _ & ->).
    split_and!; [done| | |by rewrite list_lookup_fmap, Hb1|by rewrite list_lookup_fmap, Hb2].
    + apply (replica_lookup g1 db1 ds1 s1 (tx_position k) tx b1 Hs1 Hsk1); [|exact Hb1].
      eapply tx_position_lookup; [exact Hk|]. apply entry_tx_Marshal, int64_range.
    + pose proof (Forall_lookup_1 _ _ _ _ Hsz Hb1) as Hlen. cbn in Hlen. unfold batchSize in Hlen. lia.
Qed.

(** ** A node whose collector has stopped *)

(** The FSM waits for room in the full channel, which nobody reads. *)
Definition fsm_jammed (r : RaftOrderedLog) : Prop :=
  (∃ tx, rfsm r = FSend tx) ∧ rcap r ≤ length (rch r) ∧ rdone r = false ∧
  ∀ d k, rdrains r !! d = Some k → d_ret k ≠ None.

Definition no_rescue (e : raft_event) : Prop :=
  match e with RClose | RDrainWait _ _ _ => False | _ => True end.

Lemma fsm_jammed_step e r r' :
  fsm_jammed r → no_rescue e → raft_step unmarshal_other rlog e r = Some r' →
  fsm_jammed r' ∧ rfsm r' = rfsm r ∧ rapplied r' = rapplied r.
Proof.
  intros (( tx & Hf) & Hcap & Hd & Hdr) He E. destruct e as [| | |n|d x n|d b| |x err]; cbn in E; try done.
  - unfold fsm_apply in E. by rewrite Hf in E.
  - unfold fsm_send in E. rewrite Hf, decide_False in E by lia. done.
  - unfold fsm_drop in E. by rewrite Hf, Hd in E.
  - unfold fsm_restore in E. by rewrite Hf in E.
  - unfold rdrain_step in E. apply bind_Some in E as (k & Hk & E). specialize (Hdr d k Hk). by destruct (d_ret k).
  - destruct (rctxs r !! x); [done|]. injection E as <-. split; [|done]. split; [by exists tx|done].
Qed.

(** A node's FSM can be stuck until Close.  Once the collector has stopped
    and the channel is full, the FSM stays at its send whatever else happens,
    also when every request gives up: no later entry is applied on this node, so
    that raft.Apply answers none of the requests behind it, until orderedLog is
    closed, which main does only when GracefulStop has seen those requests
    return. *)
Theorem raft_fsm_blocks es r r' :
  raft_reachable unmarshal_other rlog r → fsm_jammed r → Forall no_rescue es →
  raft_run unmarshal_other rlog es r = Some r' →
  rfsm r' = rfsm r ∧ rapplied r' = rapplied r ∧
  ∃ r2, fsm_drop (raft_Close r') = Some r2 ∧ rfsm r2 = FIdle.
Proof.
  intros Hr Hj Hes. revert r Hr Hj. induction Hes as [|e es He _ IH]; intros r Hr Hj; cbn.
  - intros [= <-]. split_and!; [done..|]. destruct (closeOnce_done _ _ _ Hr) as [Hc _].
    destruct Hj as ((tx & Hf) & _ & Hd & _). unfold raft_Close, fsm_drop. rewrite Hc, Hd. cbn. rewrite Hf.
    by eexists.
  - intros (r1 & E & Hrun)%bind_Some. destruct (fsm_jammed_step _ _ _ Hj He E) as (Hj1 & Hf1 & Ha1).
    rewrite <- Hf1, <- Ha1. eapply IH; [by econstructor|done..].
Qed.
End cluster.

(** ** A replica that processes a batch

    Entry by entry: Raft applies it, the FSM sends it, and the collector takes it
    into the mempool. *)

Section replica.
Context (unmarshal_other : bytes → option raftProposal) (rlog : list raft_entry).
#[local] Instance here : OrderedLog RaftOrderedLog := raft_log unmarshal_other rlog.

Abbreviation replica_reachable := (pipe_reachable doubling (λ _, Some []) (λ _, Some []) (L := RaftOrderedLog)).

(** Both goroutines wait, and the first [n] entries have been taken. *)
Record caught_up (n : nat) (s : sequencer (L := RaftOrderedLog)) : Prop := {
  cu_fsm : rfsm (slog s) = FIdle;
  cu_applied : rapplied (slog s) = n;
  cu_ch : rch (slog s) = [];
  cu_cap : 0 < rcap (slog s);
  cu_skipped : rskipped (slog s) = false;
  cu_drains : ∀ d, n ≤ d → rdrains (slog s) !! d = None;
  cu_collector : collector s = CLoop;
  cu_batcher : batcher s = BWait;
  cu_batches : batches s = [];
  cu_cancelled : cancelled s = false
}.

Lemma replica_log es s r :
  raft_run unmarshal_other rlog es (slog s) = Some r → Forall (λ e, raft_log_event e = None) es →
  replica_reachable s → replica_reachable (set_slog r s).
Proof.
  intros Hrun Hes. revert s Hrun. induction Hes as [|e es He _ IH]; intros s Hrun Hs.
  - injection Hrun as <-. by destruct s.
  - cbn in Hrun. apply bind_Some in Hrun as (r1 & E & Hrun).
    change (set_slog r s) with (set_slog r (set_slog r1 s)). apply IH; [done|].
    eapply pipe_next; [done|]. apply P_log. by exists e.
Qed.

(** The log after one more entry has been applied, sent and drained. *)
Definition applied_one (tx : EncryptedTransaction) (r : RaftOrderedLog) : RaftOrderedLog :=
  set_fsm FIdle (emit tx (set_fsm (FSend tx) (set_applied (S (rapplied r)) r))).
Definition asked_one (d : nat) (r : RaftOrderedLog) : RaftOrderedLog :=
  set_rdrain d (DrainCall (Some 0) 1 [] None) r.
Definition drained_one (d : nat) (tx : EncryptedTransaction) (r : RaftOrderedLog) : RaftOrderedLog :=
  rdrain_return d (DrainCall (Some 0) 1 [tx] None) None
    (set_rdrain d (DrainCall (Some 0) 1 [tx] None) (take_one d tx [] r)).

Lemma apply_one n e tx s :
  caught_up n s → rlog !! n = Some e → entry_tx unmarshal_other e = Some tx →
  raft_run unmarshal_other rlog [RApply; RSend] (slog s) = Some (applied_one tx (slog s)).
Proof.
  intros [Hf Ha Hc Hcap _ _ _ _ _ _] He Hx. cbn. unfold fsm_apply. rewrite Hf, Ha, He. cbn. rewrite Hx. cbn.
  unfold fsm_send. cbn. rewrite Hc. cbn. rewrite decide_True by done. cbn. unfold applied_one. by rewrite Ha.
Qed.

Lemma drain_one d tx r :
  rch r = [tx] →
  raft_run unmarshal_other rlog [RDrainCall d DRecv; RDrainCall d DFull] (asked_one d r) =
    Some (drained_one d tx (asked_one d r)).
Proof.
  intros Hc. cbn. unfold rdrain_step, asked_one, set_rdrain. cbn.
  rewrite (lookup_insert_eq (rdrains r)). cbn. rewrite Hc.
  change (Z.of_nat 0 <? 1)%Z with true. cbn. rewrite (lookup_insert_eq (<[d := _]> (rdrains r))). done.
Qed.

Lemma caught_up_next n e tx s pool :
  caught_up n s → rlog !! n = Some e → entry_tx unmarshal_other e = Some tx →
  rep (mempool s) pool → replica_reachable s →
  ∃ s', caught_up (S n) s' ∧ rep (mempool s') (pool ++ [tx]) ∧ replica_reachable s'.
Proof.
  intros Hc He Hx Hr Hs. pose proof (apply_one n e tx s Hc He Hx) as E1.
  destruct Hc as [Hf Ha Hch Hcap Hsk Hd Hco Hb Hbs Hca].
  pose proof (replica_log _ _ _ E1 ltac:(by repeat constructor) Hs) as Hs1.
  set (s1 := set_slog (applied_one tx (slog s)) s) in *.
  assert (raft_step unmarshal_other rlog (RDrainWait n 0 1) (slog s1) = Some (asked_one n (slog s1))) as E2.
  { unfold s1. cbn. unfold rdrain_begin. cbn. by rewrite Hd. }
  assert (replica_reachable (set_collector (CWait n) (set_slog (asked_one n (slog s1)) s1))) as Hs2.
  { eapply pipe_next; [exact Hs1|]. apply P_call; [done|]. by exists (RDrainWait n 0 1). }
  set (s2 := set_collector (CWait n) (set_slog (asked_one n (slog s1)) s1)) in *.
  assert (raft_run unmarshal_other rlog [RDrainCall n DRecv; RDrainCall n DFull] (slog s2) =
    Some (drained_one n tx (slog s2))) as E3 by (apply (drain_one n tx (slog s1)); cbn; by rewrite Hch).
  pose proof (replica_log _ _ _ E3 ltac:(by repeat constructor) Hs2) as Hs3.
  set (s3 := set_slog (drained_one n tx (slog s2)) s2) in *.
  destruct (Add_spec doubling (mempool s) pool tx Hr) as (m & Em & Hm & _).
  assert (replica_reachable (set_collector CLoop (set_mempool m s3))) as Hs4.
  { eapply pipe_next; [eapply pipe_next; [eapply pipe_next; [exact Hs3|]|]|].
    - apply P_collect. unfold collect, s3, s2. cbn. rewrite lookup_insert_eq. reflexivity.
    - apply P_collect. unfold collect. cbn. rewrite Em. reflexivity.
    - apply P_collect. reflexivity. }
  exists (set_collector CLoop (set_mempool m s3)). split; [|by split].
  split; cbn; try done; [by rewrite Ha|].
  intros d Hdn. rewrite !lookup_insert_ne by lia. apply Hd. lia.
Qed.

Lemma replica_fill n :
  (∀ k, k < n → ∃ e tx, rlog !! k = Some e ∧ entry_tx unmarshal_other e = Some tx) →
  ∃ s pool, caught_up n s ∧ rep (mempool s) pool ∧ length pool = n ∧ replica_reachable s.
Proof.
  induction n as [|n IH]; intros Hlog.
  - exists (set_batcher BWait (start (new_raft 1))), []. split_and!; [by split; cbn; (lia || done)| |done|].
    + exact (NewEncryptedMempool_rep ∅ 1024).
    + eapply pipe_next; [apply pipe_start; [constructor|done]|]. by apply (P_batch _ _ _ BSelect).
  - destruct IH as (s & pool & Hc & Hr & Hlen & Hs); [intros k Hk; apply Hlog; lia|].
    destruct (Hlog n) as (e & tx & He & Hx); [lia|].
    destruct (caught_up_next n e tx s pool Hc He Hx Hr Hs) as (s' & Hc' & Hr' & Hs').
    exists s', (pool ++ [tx]). split_and!; try done. rewrite length_app. cbn. lia.
Qed.

(** A replica that has processed a batch, by its own publisher or not. *)
Lemma replica_batch (publish : bool) :
  (∀ k, k < 1000 → ∃ e tx, rlog !! k = Some e ∧ entry_tx unmarshal_other e = Some tx) →
  ∃ s b, replica_reachable s ∧ rskipped (slog s) = false ∧ batches s = [b].
Proof.
  intros (s & pool & [] & Hr & Hlen & Hs)%replica_fill.
  destruct (batch_ready doubling (λ _, Some []) (λ _, Some []) s pool publish)
    as (s1 & s2 & E1 & E2 & El & Hb & _); [done|done|unfold batchSize; lia|].
  exists s2, (batch_at 0 pool). rewrite El, Hb, cu_batches0. split_and!; try done.
  eapply pipe_next; [eapply pipe_next; [exact Hs|]|]; by eapply P_batch.
Qed.
End replica.

(** ** Witnesses *)

(** A thousand requests with the same payload at the same time. *)
Definition long_log : list raft_entry :=
  (λ i, MkEntry (Z.of_nat i) (Marshal (MkProposal (UnixNano 6) (str "bc")))) <$> seq 1 1000.

Lemma long_log_sorted : StronglySorted Z.lt (Index <$> long_log).
Proof.
  unfold long_log. rewrite <- list_fmap_compose. generalize 1, 1000. intros a n. revert a.
  induction n as [|n IH]; intros a; cbn; [constructor|]. constructor; [apply IH|].
  apply Forall_fmap, Forall_forall. intros i [Hi _]%elem_of_seq.
  change (Z.of_nat a < Z.of_nat i)%Z. lia.
Qed.

Lemma long_log_lookup k :
  k < 1000 → long_log !! k = Some (MkEntry (Z.of_nat (S k)) (Marshal (MkProposal (UnixNano 6) (str "bc")))).
Proof. intros Hk. unfold long_log. by rewrite list_lookup_fmap, lookup_seq_lt. Qed.

(** The request that became the last of these entries, at a leader; and two
    replicas, of which one publishes. *)
Lemma raft_acknowledged_witness :
  let tx := {| ID := 1000; Ciphertext := str "bc"; ArrivedAt := 6 |} in
  SubmitTx nat nat nat nat (raft_submit_error unit) (λ co, co) (RaftLog true []) (λ _, Err 0) (λ _ _, (None, None))
    (λ ct, as_res (raft_SubmitWithReceipt None None None 6 (λ data _, Ok (fsm_response no_other (MkEntry 1000 data))) ct))
    (str "bc") (Server.NewServer nat nat) =
  ((Some (MkAck true), None), add_proof nat nat (proof_of tx) (Server.NewServer nat nat)) ∧
  ∃ (s1 s2 : sequencer (L := RaftOrderedLog)) b, batches s1 = [b] ∧ batches s2 = [b] ∧ b !! 999 = Some tx ∧
    commitments s1 !! 0 = commitments s2 !! 0.
Proof.
  intros tx.
  assert (∀ k, k < 1000 → ∃ e tx, long_log !! k = Some e ∧ entry_tx no_other e = Some tx) as Hlog.
  { intros k Hk. eexists _, _. split; [by apply long_log_lookup|]. apply entry_tx_Marshal, int64_range. }
  destruct (replica_batch no_other long_log true Hlog) as (s1 & b1 & Hs1 & K1 & B1).
  destruct (replica_batch no_other long_log false Hlog) as (s2 & b2 & Hs2 & K2 & B2).
  destruct (raft_acknowledged no_other long_log long_log_sorted nat nat nat nat unit (λ co, co) 999 1000 6 (str "bc")
    None None (λ data _, Ok (fsm_response no_other (MkEntry 1000 data))) (λ _, Err 0) (λ _ _, (None, None)) []
    (Server.NewServer nat nat)) as [Hack Hrep]; [apply long_log_lookup; lia|exact I|done|].
  split; [exact Hack|]. assert (tx_position no_other long_log 999 = 999) as Hpos by (vm_compute; reflexivity).
  rewrite Hpos in Hrep. change (999 / 1000) with 0 in Hrep. change (999 mod 1000) with 999 in Hrep.
  destruct (Hrep _ _ _ _ _ _ s1 s2 b1 b2 Hs1 K1 Hs2 K2) as (<- & Htx & _ & C1 & C2); [by rewrite B1|by rewrite B2|].
  exists s1, s2, b1. split; [exact B1|]. split; [exact B2|]. split; [exact Htx|]. by rewrite C1, C2.
Defined.

(** A node with a channel for one transaction, which the first entry fills. *)
Definition filled : RaftOrderedLog :=
  default (new_raft 1) (raft_run no_other sample_log [RApply; RSend; RApply; RApply] (new_raft 1)).

Lemma raft_fsm_blocks_witness :
  raft_run no_other sample_log [RCtxDone 5 Canceled] filled = Some (finish_ctx 5 Canceled filled) ∧
  rapplied (finish_ctx 5 Canceled filled) = 3 ∧
  rfsm (finish_ctx 5 Canceled filled) = FSend {| ID := 7; Ciphertext := str "bc"; ArrivedAt := 6 |}.
Proof.
  assert (raft_reachable no_other sample_log filled) as Hr.
  { eapply (raft_run_reachable _ _ [RApply; RSend; RApply; RApply] (new_raft 1)); [constructor|].
    vm_compute. reflexivity. }
  destruct (raft_fsm_blocks no_other sample_log [RCtxDone 5 Canceled] filled (finish_ctx 5 Canceled filled) Hr)
    as (H1 & H2 & _); [|by repeat constructor|vm_compute; reflexivity|].
  - split; [by eexists; vm_compute|]. split_and!; [vm_compute; lia|vm_compute; reflexivity|].
    intros d k Hk. vm_compute in Hk. done.
  - split; [vm_compute; reflexivity|]. rewrite H1, H2. split; vm_compute; reflexivity.
Defined.
