(* ===== verification/PrivacyStub.v ===== *)
(** pkg/privacy/privacy_stub.go: the privacy layer of a build without cgo.

    Every function fails.  main and the clients call Init first and end there;
    what the sequencer would do without that check is [stub_reveals_nothing]. *)

From S2P Require Import Prelude Commitment GoSlice Mempool TxQueue OrderedLog Pipeline Reveal.

Inductive stub_error := ErrRequiresCgo | ErrUnavailable.

Definition stub_PublicKeyBytes : Z := 32.
Definition stub_SecretKeyBytes : Z := 32.
Definition stub_SealBytes : Z := 48.

Definition stub_Init : option stub_error := Some ErrRequiresCgo.

Definition stub_GenerateSequencerKeys : res stub_error (bytes * bytes) := Err ErrUnavailable.

Definition stub_SaveKeyToFile (path key : bytes) : option stub_error := Some ErrUnavailable.

Definition stub_LoadKeyFromFile (path : bytes) (expectedLen : Z) : res stub_error bytes := Err ErrUnavailable.

Definition stub_SealTransaction (plaintext sequencerPubKey : bytes) : res stub_error bytes := Err ErrUnavailable.

Definition stub_DecryptSingle (ciphertext pk sk : bytes) : res stub_error bytes := Err ErrUnavailable.

Definition stub_DecryptBatch (ciphertexts : list bytes) (pk sk : bytes) : res stub_error (list bytes) :=
  Err ErrUnavailable.

(** ** The pipeline on the stub *)

Section stub.
Context {L : Type} `{!OrderedLog L} `{!OrderedLogLaws L} (grow : nat → nat → nat) (pk sk : bytes).

(** What main sees of the two decryption functions. *)
Definition stub_batch (cts : list bytes) : option (list bytes) := ok_value (stub_DecryptBatch cts pk sk).
Definition stub_single (ct : bytes) : option bytes := ok_value (stub_DecryptSingle ct pk sk).

(** On the stub ordering and commitments work and nothing is revealed: every
    transaction of every processed batch is logged as undecryptable, in order,
    although the commitment of its batch has been computed. *)
Theorem stub_reveals_nothing (s : sequencer (L := L)) :
  pipe_reachable grow stub_batch stub_single s →
  failures s = ID <$> concat (batches s) ∧ commitments s = GenerateBatchCommitment <$> batches s.
Proof.
  intros Hs. split.
  - rewrite (failures_batches stub_batch stub_single grow s Hs). clear Hs.
    induction (batches s) as [|b bs IH]; [done|]. cbn. rewrite fmap_app, IH. f_equal.
    unfold reveal. cbn. f_equal. induction b as [|tx b IHb]; [done|]. by rewrite filter_cons_True, IHb by done.
  - by destruct (committed_split _ _ _ s Hs) as (rest & _ & _ & ->).
Qed.
End stub.

Lemma stub_reveals_nothing_witness :
  ∃ (s : sequencer (L := TxQueue)) b, batches s = [b] ∧ failures s = ID <$> b.
Proof.
  destruct (one_batch_processed (stub_batch [] []) (stub_single [] [])) as (s & b & Hs & Hb & _).
  destruct (stub_reveals_nothing doubling [] [] s Hs) as [E _].
  exists s, b. split; [done|]. rewrite E, Hb. cbn. by rewrite app_nil_r.
Defined.
