(* ===== verification/Dex.v ===== *)
(** contracts/MockDEXEngine.sol: the constant-product exchange that the demo's
    trades are simulated on.

    A call either returns with the new storage, the events it emitted and a
    value, or reverts and leaves the storage as it was.  Arithmetic is that of
    Solidity 0.8: an operation whose result is not a uint256 panics. *)

From S2P Require Import Prelude.

Local Open Scope Z_scope.
Local Open Scope go_scope.

(** ** Solidity *)

(** A failed [require] with its reason, or a panic with Solidity's code: 1 for
    assert, 17 for an overflow, 18 for a division by zero. *)
Inductive revert := Require (reason : string) | Panic (code : Z).

Abbreviation sol := (res revert).

Definition is_uint256 (z : Z) : Prop := 0 ≤ z < 2 ^ 256.

#[global] Instance is_uint256_dec z : Decision (is_uint256 z) := ltac:(unfold is_uint256; apply _).

Definition checked (z : Z) : sol Z := if bool_decide (0 ≤ z < 2 ^ 256) then Ok z else Err (Panic 17).
Definition add256 (x y : Z) : sol Z := checked (x + y).
Definition sub256 (x y : Z) : sol Z := checked (x - y).
Definition mul256 (x y : Z) : sol Z := checked (x * y).
Definition div256 (x y : Z) : sol Z := if y =? 0 then Err (Panic 18) else Ok (x / y).

Definition require (b : bool) (reason : string) : sol () := if b then Ok () else Err (Require reason).
Definition sol_assert (b : bool) : sol () := if b then Ok () else Err (Panic 1).

Abbreviation address := Z (only parsing).

(** A mapping reads as 0 where nothing was written. *)
Definition get (m : gmap address Z) (a : address) : Z := default 0 (m !! a).

Definition increase (m : gmap address Z) (a : address) (x : Z) : sol (gmap address Z) :=
  let! z := add256 (get m a) x in Ok (<[a := z]> m).
Definition decrease (m : gmap address Z) (a : address) (x : Z) : sol (gmap address Z) :=
  let! z := sub256 (get m a) x in Ok (<[a := z]> m).

(** ** The contract *)

Record MockDEXEngine := MkDex {
  balanceTokenA : gmap address Z;
  balanceTokenB : gmap address Z;
  liquidityShares : gmap address Z;
  totalLiquidityShares : Z;
  reserveTokenA : Z;
  reserveTokenB : Z;
  accumulatedFeeTokenA : Z;
  accumulatedFeeTokenB : Z;
  lastK : Z
}.

Definition deployed : MockDEXEngine := MkDex ∅ ∅ ∅ 0 0 0 0 0 0.

Inductive dex_event :=
| LiquidityAdded (provider : address) (amountA amountB sharesIssued : Z)
| LiquidityRemoved (provider : address) (amountA amountB sharesBurned : Z)
| SwapTokenAForTokenB (trader : address) (amountAIn amountBOut feeTokenA : Z)
| SwapTokenBForTokenA (trader : address) (amountBIn amountAOut feeTokenB : Z)
| ConstantProductCheckFailed (previousK newK : Z) (operation : string)
| PoolInitialized (initialLiquidity : Z).

Definition FEE_NUMERATOR : Z := 3.
Definition FEE_DENOMINATOR : Z := 1000.
Definition MINIMUM_LIQUIDITY : Z := 1000.

(** The state after a call, what it returned, and its events in order. *)
Definition outcome (A : Type) : Type := sol (A * MockDEXEngine * list dex_event).

Definition poolInitialized (s : MockDEXEngine) : sol () :=
  require (0 <? totalLiquidityShares s) "Pool not initialized".

Definition mintTestTokens (user amountA amountB : Z) (s : MockDEXEngine) : outcome () :=
  let! _ := require (negb (user =? 0)) "Invalid address" in
  let! _ := require ((0 <? amountA) || (0 <? amountB)) "Must mint positive amounts" in
  let! a := increase (balanceTokenA s) user amountA in
  let! b := increase (balanceTokenB s) user amountB in
  Ok ((), MkDex a b (liquidityShares s) (totalLiquidityShares s) (reserveTokenA s) (reserveTokenB s)
            (accumulatedFeeTokenA s) (accumulatedFeeTokenB s) (lastK s), []).

(** *** sqrt *)

(** The loop with its two variables; [None] when the fuel is used up. *)
Fixpoint sqrt_loop (fuel : nat) (x z y : Z) : option (sol Z) :=
  match fuel with
  | O => None
  | S fuel =>
      if z <? y then
        match let! q := div256 x z in let! t := add256 q z in div256 t 2 with
        | Ok z' => sqrt_loop fuel x z' z
        | Err e => Some (Err e)
        end
      else Some (Ok y)
  end.

(** The distance to the root halves in each round. *)
Definition sqrt_fuel : nat := 260.

Definition sqrt (x : Z) : sol Z :=
  if x =? 0 then Ok 0
  else
    let! t := add256 x 1 in
    let! z := div256 t 2 in
    default (Err (Panic 0)) (sqrt_loop sqrt_fuel x z x).

(** *** Liquidity *)

(** What of the offered amounts an existing pool takes. *)
Definition optimal_amounts (amountA amountB : Z) (s : MockDEXEngine) : sol (Z * Z) :=
  let! p := mul256 amountA (reserveTokenB s) in
  let! amountBQuote := div256 p (reserveTokenA s) in
  if amountBQuote <=? amountB then Ok (amountA, amountBQuote)
  else
    let! q := mul256 amountB (reserveTokenA s) in
    let! amountAQuote := div256 q (reserveTokenB s) in
    let! _ := sol_assert (amountAQuote <=? amountA) in
    Ok (amountAQuote, amountB).

(** The pool after a deposit. *)
Record deposit := Deposit {
  d_shares : Z; d_amountA : Z; d_amountB : Z; d_reserveA : Z; d_reserveB : Z; d_k : Z; d_events : list dex_event
}.

Definition first_deposit (amountA amountB : Z) : sol deposit :=
  let! p := mul256 amountA amountB in
  let! sharesToMint := sqrt p in
  let! _ := require (MINIMUM_LIQUIDITY <=? sharesToMint) "Insufficient liquidity" in
  let! k := mul256 amountA amountB in
  Ok (Deposit sharesToMint amountA amountB amountA amountB k [PoolInitialized sharesToMint]).

Definition more_deposit (amountA amountB : Z) (s : MockDEXEngine) : sol deposit :=
  let! o := optimal_amounts amountA amountB s in
  let '(amountAOptimal, amountBOptimal) := o in
  let! p := mul256 amountAOptimal (totalLiquidityShares s) in
  let! sharesToMint := div256 p (reserveTokenA s) in
  let! _ := require (0 <? sharesToMint) "Liquidity too small" in
  let! ra := add256 (reserveTokenA s) amountAOptimal in
  let! rb := add256 (reserveTokenB s) amountBOptimal in
  let! newK := mul256 ra rb in
  Ok (Deposit sharesToMint amountAOptimal amountBOptimal ra rb newK
        (if newK <? lastK s then [ConstantProductCheckFailed (lastK s) newK "addLiquidity"] else [])).

Definition addLiquidity (sender amountA amountB : Z) (s : MockDEXEngine) : outcome Z :=
  let! _ := require ((0 <? amountA) && (0 <? amountB)) "Amounts must be positive" in
  let! _ := require (amountA <=? get (balanceTokenA s) sender) "Insufficient TokenA balance" in
  let! _ := require (amountB <=? get (balanceTokenB s) sender) "Insufficient TokenB balance" in
  let! d := if totalLiquidityShares s =? 0 then first_deposit amountA amountB else more_deposit amountA amountB s in
  let! a := decrease (balanceTokenA s) sender (d_amountA d) in
  let! b := decrease (balanceTokenB s) sender (d_amountB d) in
  let! shares := increase (liquidityShares s) sender (d_shares d) in
  let! total := add256 (totalLiquidityShares s) (d_shares d) in
  Ok (d_shares d,
      MkDex a b shares total (d_reserveA d) (d_reserveB d) (accumulatedFeeTokenA s) (accumulatedFeeTokenB s) (d_k d),
      d_events d ++ [LiquidityAdded sender (d_amountA d) (d_amountB d) (d_shares d)]).

Definition removeLiquidity (sender shares : Z) (s : MockDEXEngine) : outcome (Z * Z) :=
  let! _ := poolInitialized s in
  let! _ := require (0 <? shares) "Shares must be positive" in
  let! _ := require (shares <=? get (liquidityShares s) sender) "Insufficient LP shares" in
  let! p := mul256 shares (reserveTokenA s) in
  let! amountA := div256 p (totalLiquidityShares s) in
  let! q := mul256 shares (reserveTokenB s) in
  let! amountB := div256 q (totalLiquidityShares s) in
  let! _ := require ((0 <? amountA) && (0 <? amountB)) "Withdrawal amounts too small" in
  let! _ := require ((amountA <=? reserveTokenA s) && (amountB <=? reserveTokenB s)) "Pool reserve error" in
  let! ra := sub256 (reserveTokenA s) amountA in
  let! rb := sub256 (reserveTokenB s) amountB in
  let! newK := mul256 ra rb in
  let! left := decrease (liquidityShares s) sender shares in
  let! total := sub256 (totalLiquidityShares s) shares in
  let! a := increase (balanceTokenA s) sender amountA in
  let! b := increase (balanceTokenB s) sender amountB in
  Ok ((amountA, amountB),
      MkDex a b left total ra rb (accumulatedFeeTokenA s) (accumulatedFeeTokenB s) newK,
      (if newK <? lastK s then [ConstantProductCheckFailed (lastK s) newK "removeLiquidity"] else []) ++
      [LiquidityRemoved sender amountA amountB shares]).

(** *** Swaps *)

Definition swapExactTokenAForTokenB (sender amountIn minAmountOut : Z) (s : MockDEXEngine) : outcome Z :=
  let! _ := poolInitialized s in
  let! _ := require (0 <? amountIn) "Amount must be positive" in
  let! _ := require (0 <? minAmountOut) "Min amount must be positive" in
  let! _ := require (amountIn <=? get (balanceTokenA s) sender) "Insufficient TokenA balance" in
  let! f := mul256 amountIn FEE_NUMERATOR in
  let! fee := div256 f FEE_DENOMINATOR in
  let! amountInAfterFee := sub256 amountIn fee in
  let! denominator := add256 (reserveTokenA s) amountInAfterFee in
  let! p := mul256 (reserveTokenB s) amountInAfterFee in
  let! amountOut := div256 p denominator in
  let! _ := require (minAmountOut <=? amountOut) "Slippage too high: output less than minimum" in
  let! _ := require (0 <? amountOut) "Output amount is zero" in
  let! _ := require (amountOut <=? reserveTokenB s) "Insufficient pool TokenB" in
  let! a := decrease (balanceTokenA s) sender amountIn in
  let! ra := add256 (reserveTokenA s) amountInAfterFee in
  let! rb := sub256 (reserveTokenB s) amountOut in
  let! fees := add256 (accumulatedFeeTokenA s) fee in
  let! b := increase (balanceTokenB s) sender amountOut in
  let! newK := mul256 ra rb in
  let! _ := require (lastK s <=? newK) "Constant product formula violated" in
  Ok (amountOut,
      MkDex a b (liquidityShares s) (totalLiquidityShares s) ra rb fees (accumulatedFeeTokenB s) newK,
      [SwapTokenAForTokenB sender amountIn amountOut fee]).

Definition swapExactTokenBForTokenA (sender amountIn minAmountOut : Z) (s : MockDEXEngine) : outcome Z :=
  let! _ := poolInitialized s in
  let! _ := require (0 <? amountIn) "Amount must be positive" in
  let! _ := require (0 <? minAmountOut) "Min amount must be positive" in
  let! _ := require (amountIn <=? get (balanceTokenB s) sender) "Insufficient TokenB balance" in
  let! f := mul256 amountIn FEE_NUMERATOR in
  let! fee := div256 f FEE_DENOMINATOR in
  let! amountInAfterFee := sub256 amountIn fee in
  let! denominator := add256 (reserveTokenB s) amountInAfterFee in
  let! p := mul256 (reserveTokenA s) amountInAfterFee in
  let! amountOut := div256 p denominator in
  let! _ := require (minAmountOut <=? amountOut) "Slippage too high: output less than minimum" in
  let! _ := require (0 <? amountOut) "Output amount is zero" in
  let! _ := require (amountOut <=? reserveTokenA s) "Insufficient pool TokenA" in
  let! b := decrease (balanceTokenB s) sender amountIn in
  let! rb := add256 (reserveTokenB s) amountInAfterFee in
  let! ra := sub256 (reserveTokenA s) amountOut in
  let! fees := add256 (accumulatedFeeTokenB s) fee in
  let! a := increase (balanceTokenA s) sender amountOut in
  let! newK := mul256 ra rb in
  let! _ := require (lastK s <=? newK) "Constant product formula violated" in
  Ok (amountOut,
      MkDex a b (liquidityShares s) (totalLiquidityShares s) ra rb (accumulatedFeeTokenA s) fees newK,
      [SwapTokenBForTokenA sender amountIn amountOut fee]).

(** *** Views *)

Definition getUserTokenABalance (user : Z) (s : MockDEXEngine) : Z := get (balanceTokenA s) user.
Definition getUserTokenBBalance (user : Z) (s : MockDEXEngine) : Z := get (balanceTokenB s) user.

Definition getPoolState (s : MockDEXEngine) : Z * Z * Z * Z :=
  (reserveTokenA s, reserveTokenB s, lastK s, totalLiquidityShares s).

Definition getSwapOutputAToB (amountIn : Z) (s : MockDEXEngine) : sol Z :=
  let! _ := require (0 <? amountIn) "Amount must be positive" in
  let! f := mul256 amountIn FEE_NUMERATOR in
  let! fee := div256 f FEE_DENOMINATOR in
  let! amountInAfterFee := sub256 amountIn fee in
  let! p := mul256 (reserveTokenB s) amountInAfterFee in
  let! d := add256 (reserveTokenA s) amountInAfterFee in
  div256 p d.

Definition getSwapOutputBToA (amountIn : Z) (s : MockDEXEngine) : sol Z :=
  let! _ := require (0 <? amountIn) "Amount must be positive" in
  let! f := mul256 amountIn FEE_NUMERATOR in
  let! fee := div256 f FEE_DENOMINATOR in
  let! amountInAfterFee := sub256 amountIn fee in
  let! p := mul256 (reserveTokenA s) amountInAfterFee in
  let! d := add256 (reserveTokenB s) amountInAfterFee in
  div256 p d.

Definition getLPValue (lp : Z) (s : MockDEXEngine) : sol (Z * Z) :=
  if totalLiquidityShares s =? 0 then Ok (0, 0)
  else
    let userShares := get (liquidityShares s) lp in
    let! p := mul256 userShares (reserveTokenA s) in
    let! valueTokenA := div256 p (totalLiquidityShares s) in
    let! q := mul256 userShares (reserveTokenB s) in
    let! valueTokenB := div256 q (totalLiquidityShares s) in
    Ok (valueTokenA, valueTokenB).

(** ** Transactions *)

Inductive dex_call :=
| CMint (user amountA amountB : Z)
| CAdd (amountA amountB : Z)
| CRemove (shares : Z)
| CSwapAB (amountIn minAmountOut : Z)
| CSwapBA (amountIn minAmountOut : Z).

Definition state_of {A} (o : outcome A) : option MockDEXEngine :=
  match o with Ok (_, s, _) => Some s | Err _ => None end.

(** The state after a call that does not revert. *)
Definition dex_exec (sender : address) (c : dex_call) (s : MockDEXEngine) : option MockDEXEngine :=
  match c with
  | CMint user a b => state_of (mintTestTokens user a b s)
  | CAdd a b => state_of (addLiquidity sender a b s)
  | CRemove n => state_of (removeLiquidity sender n s)
  | CSwapAB x m => state_of (swapExactTokenAForTokenB sender x m s)
  | CSwapBA x m => state_of (swapExactTokenBForTokenA sender x m s)
  end.

Definition transact (t : address * dex_call) (s : MockDEXEngine) : MockDEXEngine :=
  default s (dex_exec t.1 t.2 s).

Fixpoint dex_run (ts : list (address * dex_call)) (s : MockDEXEngine) : MockDEXEngine :=
  match ts with [] => s | t :: ts => dex_run ts (transact t s) end.

(** The arguments of calls are unsigned. *)
Definition call_ok (c : dex_call) : Prop :=
  match c with
  | CMint _ a b | CAdd a b | CSwapAB a b | CSwapBA a b => is_uint256 a ∧ is_uint256 b
  | CRemove n => is_uint256 n
  end.

#[global] Instance call_ok_dec c : Decision (call_ok c).
Proof. destruct c; apply _. Defined.
