(* ===== verification/DexInv.v ===== *)
(** The invariant of the exchange: its mappings and counters are unsigned
    integers, the shares add up to their total, the constant is the product of
    the reserves, and the pool has both tokens or nothing at all; and what the
    operations do when they do not revert. *)

From S2P Require Import Prelude Dex.

Local Open Scope Z_scope.
Local Open Scope go_scope.

(** ** Sums of mappings *)

Definition supply (m : gmap address Z) : Z := map_fold (λ _ z acc, z + acc) 0 m.

Lemma supply_new m a v : m !! a = None → supply (<[a := v]> m) = v + supply m.
Proof. intros Ha. unfold supply. rewrite map_fold_insert_L; [done|lia|done]. Qed.

Lemma supply_set m a v : supply (<[a := v]> m) = supply m + v - get m a.
Proof.
  unfold get. destruct (m !! a) as [u|] eqn:Ha; cbn.
  - rewrite <- insert_delete_eq, supply_new by apply lookup_delete_eq.
    rewrite <- (insert_delete_id m a u Ha) at 2. rewrite supply_new by apply lookup_delete_eq. lia.
  - rewrite supply_new by done. lia.
Qed.

Lemma get_set m a v b : get (<[a := v]> m) b = if decide (a = b) then v else get m b.
Proof. unfold get. rewrite lookup_insert. by case_decide. Qed.

(** ** Results of checked operations *)

Lemma bind_Ok {E A B} (r : res E A) (k : A → res E B) b :
  res_bind r k = Ok b → ∃ a, r = Ok a ∧ k a = Ok b.
Proof. destruct r as [a|e]; [|done]. by exists a. Qed.

Lemma checked_Ok z v : checked z = Ok v → v = z ∧ is_uint256 z.
Proof. unfold checked. case_bool_decide; [|done]. by intros [= <-]. Qed.

Lemma checked_small z : is_uint256 z → checked z = Ok z.
Proof. intros H. unfold checked. by rewrite bool_decide_true. Qed.

Lemma require_Ok b reason u : require b reason = Ok u → b = true.
Proof. by destruct b. Qed.

Lemma div256_Ok x y v : div256 x y = Ok v → y ≠ 0 ∧ v = x / y.
Proof. unfold div256. destruct (y =? 0) eqn:E; [done|]. intros [= <-]. lia. Qed.

Lemma increase_Ok m a x m' :
  increase m a x = Ok m' → m' = <[a := get m a + x]> m ∧ is_uint256 (get m a + x).
Proof. intros (z & [-> ?]%checked_Ok & [= <-])%bind_Ok. done. Qed.

Lemma decrease_Ok m a x m' :
  decrease m a x = Ok m' → m' = <[a := get m a - x]> m ∧ is_uint256 (get m a - x).
Proof. intros (z & [-> ?]%checked_Ok & [= <-])%bind_Ok. done. Qed.

(** [sol_invert H] takes apart a call that did not revert. *)
Ltac sol_invert H :=
  repeat (let v := fresh "v" in let E := fresh "E" in
    apply bind_Ok in H as (v & E & H);
    first [ apply require_Ok in E; clear v
          | apply checked_Ok in E as [-> ?]
          | apply div256_Ok in E as [? ->]
          | apply increase_Ok in E as [-> ?]
          | apply decrease_Ok in E as [-> ?]
          | idtac ]).

(** ** The invariant *)

Record dex_ok (s : MockDEXEngine) : Prop := {
  dx_A : ∀ a, is_uint256 (get (balanceTokenA s) a);
  dx_B : ∀ a, is_uint256 (get (balanceTokenB s) a);
  dx_shares : ∀ a, is_uint256 (get (liquidityShares s) a);
  dx_total : is_uint256 (totalLiquidityShares s);
  dx_reserves : is_uint256 (reserveTokenA s) ∧ is_uint256 (reserveTokenB s);
  dx_fees : is_uint256 (accumulatedFeeTokenA s) ∧ is_uint256 (accumulatedFeeTokenB s);
  dx_k : is_uint256 (lastK s) ∧ lastK s = reserveTokenA s * reserveTokenB s;
  dx_sum : supply (liquidityShares s) = totalLiquidityShares s;
  dx_pool : if decide (totalLiquidityShares s = 0) then reserveTokenA s = 0 ∧ reserveTokenB s = 0
            else 0 < reserveTokenA s ∧ 0 < reserveTokenB s
}.

Lemma dex_ok_deployed : dex_ok deployed.
Proof. by split. Qed.

(** The tokens in wallets, in the pool, and set aside as fees. *)
Definition holdingsA (s : MockDEXEngine) : Z := supply (balanceTokenA s) + reserveTokenA s + accumulatedFeeTokenA s.
Definition holdingsB (s : MockDEXEngine) : Z := supply (balanceTokenB s) + reserveTokenB s + accumulatedFeeTokenB s.

(** The two tokens exchanged. *)
Definition mirror (s : MockDEXEngine) : MockDEXEngine :=
  MkDex (balanceTokenB s) (balanceTokenA s) (liquidityShares s) (totalLiquidityShares s) (reserveTokenB s)
    (reserveTokenA s) (accumulatedFeeTokenB s) (accumulatedFeeTokenA s) (lastK s).

Lemma mirror_mirror s : mirror (mirror s) = s.
Proof. by destruct s. Qed.

Lemma dex_ok_mirror s : dex_ok s → dex_ok (mirror s).
Proof.
  intros [HA HB HS HT [] [] [? Hk] Hsum Hp]. split; cbn; try done; [by rewrite Z.mul_comm|].
  case_decide; tauto.
Qed.


(** ** What the operations do *)

(** A trader pays [x] of A, of which 0.3% is set aside, and gets [out] of B. *)
Definition fee_of (x : Z) : Z := x * FEE_NUMERATOR / FEE_DENOMINATOR.

Definition after_swap (sender x out : Z) (s : MockDEXEngine) : MockDEXEngine :=
  let ra := reserveTokenA s + (x - fee_of x) in
  let rb := reserveTokenB s - out in
  MkDex (<[sender := get (balanceTokenA s) sender - x]> (balanceTokenA s))
    (<[sender := get (balanceTokenB s) sender + out]> (balanceTokenB s))
    (liquidityShares s) (totalLiquidityShares s) ra rb (accumulatedFeeTokenA s + fee_of x) (accumulatedFeeTokenB s)
    (ra * rb).

Definition swap_output (x : Z) (s : MockDEXEngine) : Z :=
  reserveTokenB s * (x - fee_of x) / (reserveTokenA s + (x - fee_of x)).

Record swapped (sender x out : Z) (s s' : MockDEXEngine) : Prop := {
  sw_pool : 0 < totalLiquidityShares s;
  sw_in : 0 < x ≤ get (balanceTokenA s) sender;
  sw_out : out = swap_output x s ∧ 0 < out ≤ reserveTokenB s;
  sw_state : s' = after_swap sender x out s;
  sw_balances : is_uint256 (get (balanceTokenA s) sender - x) ∧ is_uint256 (get (balanceTokenB s) sender + out);
  sw_reserves : is_uint256 (reserveTokenA s + (x - fee_of x)) ∧ is_uint256 (reserveTokenB s - out);
  sw_fee : is_uint256 (accumulatedFeeTokenA s + fee_of x);
  sw_k : is_uint256 (lastK s') ∧ lastK s ≤ lastK s'
}.

Ltac swap_invert H :=
  sol_invert H; injection H as <- <- _;
  split; rewrite ?andb_true_iff, ?Z.leb_le, ?Z.ltb_lt in *; cbn in *;
  unfold swap_output, fee_of, FEE_NUMERATOR, FEE_DENOMINATOR in *; cbn; split_and?; try done; lia.

Lemma swapAB_Ok sender x m s out s' ev :
  swapExactTokenAForTokenB sender x m s = Ok (out, s', ev) → swapped sender x out s s'.
Proof. intros H. unfold swapExactTokenAForTokenB, poolInitialized in H. swap_invert H. Qed.

(** The other direction is the same in the mirror. *)
Lemma swapBA_Ok sender x m s out s' ev :
  swapExactTokenBForTokenA sender x m s = Ok (out, s', ev) → swapped sender x out (mirror s) (mirror s').
Proof.
  intros H. unfold swapExactTokenBForTokenA, poolInitialized in H. sol_invert H. injection H as <- <- _.
  split; rewrite ?Z.leb_le, ?Z.ltb_lt in *; unfold after_swap, mirror, swap_output, fee_of in *; cbn in *;
    rewrite ?(Z.mul_comm (reserveTokenB s + _)); split_and?; try done.
Qed.

(** ** The square root *)

(** One round of the Babylonian method stays above the root, and halves the
    distance to it. *)
Lemma babylon x z :
  0 < x → Z.sqrt x ≤ z → z ≤ x → let z' := (x / z + z) / 2 in
  Z.sqrt x ≤ z' ∧ (Z.sqrt x < z → 2 * (z' - Z.sqrt x) ≤ z - Z.sqrt x) ∧ 0 ≤ x / z + z ≤ x + 1.
Proof.
  intros Hx Hz Hle. pose proof (Z.sqrt_spec x ltac:(lia)) as Hr.
  pose proof (proj2 (Z.sqrt_pos x) Hx) as Hpos. set (r := Z.sqrt x) in *. cbv zeta in *.
  pose proof (Z.div_mod x z ltac:(lia)) as Hq. pose proof (Z.mod_pos_bound x z ltac:(lia)) as Hm.
  set (q := x / z) in *. set (t := (q + z) / 2).
  pose proof (Z.div_mod (q + z) 2 ltac:(lia)) as Ht. pose proof (Z.mod_pos_bound (q + z) 2 ltac:(lia)).
  fold t in Ht. assert (1 ≤ q) by (apply Z.div_le_lower_bound; lia).
  assert (r * r < (q + 1) * z) by lia.
  assert (2 * r ≤ q + z).
  { destruct (Z.le_gt_cases (2 * r) (q + z)) as [|Hlt]; [done|].
    pose proof (Z.square_nonneg (q + 1 - z)).
    pose proof (Z.mul_le_mono_nonneg (q + 1 + z) (2 * r) (q + 1 + z) (2 * r)). lia. }
  split_and!; [lia| |lia|nia]. intros Hlt. assert (q ≤ r) by nia. lia.
Qed.

Lemma sqrt_loop_root n x z y :
  0 < x < 2 ^ 256 - 1 → Z.sqrt x ≤ z ≤ x → Z.sqrt x ≤ y → (Z.sqrt x < y → z < y) →
  z - Z.sqrt x < 2 ^ Z.of_nat n → sqrt_loop (S (S n)) x z y = Some (Ok (Z.sqrt x)).
Proof.
  revert z y. induction n as [|n IH]; intros z y Hx Hz Hy Hzy Hn; cbn [sqrt_loop];
    (destruct (Z.ltb_spec z y) as [Hlt|Hge];
      [|do 2 f_equal; destruct (Z.lt_ge_cases (Z.sqrt x) y) as [?%Hzy|]; lia]);
    pose proof (babylon x z ltac:(lia) ltac:(lia) ltac:(lia)) as (H1 & H2 & H3);
    pose proof (proj2 (Z.sqrt_pos x) ltac:(lia));
    unfold div256, add256; rewrite (proj2 (Z.eqb_neq z 0)) by lia; cbn [res_bind];
    rewrite checked_small by (split; lia); cbn [res_bind]; change (2 =? 0) with false; cbv iota.
  - change (2 ^ Z.of_nat 0) with 1 in Hn. replace z with (Z.sqrt x) in * by lia. cbn [sqrt_loop].
    by rewrite (proj2 (Z.ltb_ge _ (Z.sqrt x))) by lia.
  - rewrite Nat2Z.inj_succ, Z.pow_succ_r in Hn by lia.
    destruct (Z.lt_ge_cases (Z.sqrt x) z) as [Hz'|Hz']; [specialize (H2 Hz')|].
    + apply IH; lia.
    + replace z with (Z.sqrt x) in * by lia. destruct n; cbn [sqrt_loop];
        by rewrite (proj2 (Z.ltb_ge _ (Z.sqrt x))) by lia.
Qed.

(** sqrt returns the root rounded down, for every argument but the largest, for
    which x + 1 overflows. *)
Lemma sqrt_root x : 0 ≤ x < 2 ^ 256 - 1 → sqrt x = Ok (Z.sqrt x).
Proof.
  intros Hx. unfold sqrt. destruct (Z.eqb_spec x 0) as [->|H0]; [done|].
  unfold add256. rewrite checked_small by (split; lia). cbn [res_bind]. unfold div256.
  change (2 =? 0) with false. cbn [res_bind]. unfold sqrt_fuel.
  pose proof (Z.sqrt_spec x ltac:(lia)) as Hr. pose proof (proj2 (Z.sqrt_pos x) ltac:(lia)) as Hp.
  pose proof (Z.div_mod (x + 1) 2 ltac:(lia)) as Hd. pose proof (Z.mod_pos_bound (x + 1) 2 ltac:(lia)).
  cbv zeta in Hr. set (z := (x + 1) / 2) in *.
  assert (Z.sqrt x ≤ z) by (destruct (Z.le_gt_cases (Z.sqrt x) z); [done|nia]).
  assert (z ≤ x) by lia. assert (Z.sqrt x ≤ x) by nia.
  rewrite (sqrt_loop_root 258); [done|lia..|]. change (2 ^ Z.of_nat 258) with (2 ^ 258). lia.
Qed.

(** ** Liquidity *)

Definition share_of (n r : Z) (s : MockDEXEngine) : Z := n * r / totalLiquidityShares s.

Record removed (sender n aA aB : Z) (s s' : MockDEXEngine) : Prop := {
  rm_shares : 0 < n ≤ get (liquidityShares s) sender;
  rm_out : aA = share_of n (reserveTokenA s) s ∧ aB = share_of n (reserveTokenB s) s;
  rm_bounds : 0 < aA ≤ reserveTokenA s ∧ 0 < aB ≤ reserveTokenB s;
  rm_state : s' = MkDex (<[sender := get (balanceTokenA s) sender + aA]> (balanceTokenA s))
    (<[sender := get (balanceTokenB s) sender + aB]> (balanceTokenB s))
    (<[sender := get (liquidityShares s) sender - n]> (liquidityShares s)) (totalLiquidityShares s - n)
    (reserveTokenA s - aA) (reserveTokenB s - aB) (accumulatedFeeTokenA s) (accumulatedFeeTokenB s)
    ((reserveTokenA s - aA) * (reserveTokenB s - aB));
  rm_ranges : is_uint256 (get (balanceTokenA s) sender + aA) ∧ is_uint256 (get (balanceTokenB s) sender + aB) ∧
    is_uint256 (totalLiquidityShares s - n) ∧ is_uint256 (lastK s')
}.

Lemma remove_Ok sender n s aA aB s' ev :
  removeLiquidity sender n s = Ok ((aA, aB), s', ev) → removed sender n aA aB s s'.
Proof.
  intros H. unfold removeLiquidity, poolInitialized in H. sol_invert H. injection H as <- <- <- _.
  rewrite ?andb_true_iff, ?Z.leb_le, ?Z.ltb_lt in *. split; cbn; split_and?; try done; tauto.
Qed.

(** What a deposit takes, and for how many shares: the root of the product into
    an empty pool, and in the pool's proportion otherwise. *)
Definition deposited (a b dA dB shares : Z) (s : MockDEXEngine) : Prop :=
  if totalLiquidityShares s =? 0 then dA = a ∧ dB = b ∧ shares = Z.sqrt (a * b) ∧ MINIMUM_LIQUIDITY ≤ shares
  else shares = dA * totalLiquidityShares s / reserveTokenA s ∧ 0 < shares ∧
    (dA = a ∧ dB = a * reserveTokenB s / reserveTokenA s ∧ dB ≤ b ∨
     dB = b ∧ dA = b * reserveTokenA s / reserveTokenB s ∧ dA ≤ a).

Record added (sender a b dA dB shares : Z) (s s' : MockDEXEngine) : Prop := {
  ad_amounts : 0 < a ≤ get (balanceTokenA s) sender ∧ 0 < b ≤ get (balanceTokenB s) sender;
  ad_deposit : deposited a b dA dB shares s;
  ad_state : s' = MkDex (<[sender := get (balanceTokenA s) sender - dA]> (balanceTokenA s))
    (<[sender := get (balanceTokenB s) sender - dB]> (balanceTokenB s))
    (<[sender := get (liquidityShares s) sender + shares]> (liquidityShares s)) (totalLiquidityShares s + shares)
    (reserveTokenA s + dA) (reserveTokenB s + dB) (accumulatedFeeTokenA s) (accumulatedFeeTokenB s)
    ((reserveTokenA s + dA) * (reserveTokenB s + dB));
  ad_ranges : is_uint256 (get (balanceTokenA s) sender - dA) ∧ is_uint256 (get (balanceTokenB s) sender - dB) ∧
    is_uint256 (get (liquidityShares s) sender + shares) ∧ is_uint256 (totalLiquidityShares s + shares) ∧
    is_uint256 (reserveTokenA s + dA) ∧ is_uint256 (reserveTokenB s + dB) ∧ is_uint256 (lastK s')
}.

Lemma sqrt_Ok x r : is_uint256 x → sqrt x = Ok r → r = Z.sqrt x.
Proof.
  intros [H0 H1] E. destruct (decide (x = 2 ^ 256 - 1)) as [->|]; [by vm_compute in E|].
  rewrite sqrt_root in E by lia. by injection E.
Qed.

Definition new_pool (a b : Z) (s : MockDEXEngine) (d : deposit) : Prop :=
  deposited a b (d_amountA d) (d_amountB d) (d_shares d) s ∧
  d_reserveA d = reserveTokenA s + d_amountA d ∧ d_reserveB d = reserveTokenB s + d_amountB d ∧
  is_uint256 (d_reserveA d) ∧ is_uint256 (d_reserveB d) ∧
  d_k d = d_reserveA d * d_reserveB d ∧ is_uint256 (d_k d).

Lemma first_deposit_Ok a b s d :
  dex_ok s → totalLiquidityShares s = 0 → is_uint256 a → is_uint256 b → first_deposit a b = Ok d →
  new_pool a b s d.
Proof.
  intros Hs H0 Ha Hb H. unfold new_pool, deposited. rewrite H0. cbn [Z.eqb].
  pose proof (dx_pool s Hs) as Hp. rewrite decide_True in Hp by done. destruct Hp as [-> ->].
  unfold first_deposit in H. sol_invert H. injection H as <-. cbn.
  apply sqrt_Ok in E as ->; [|done]. by split_and!; try lia.
Qed.

Lemma more_deposit_Ok a b s d :
  dex_ok s → totalLiquidityShares s ≠ 0 → more_deposit a b s = Ok d →
  new_pool a b s d.
Proof.
  intros Hs H0 H. unfold new_pool, deposited. rewrite (proj2 (Z.eqb_neq _ 0)) by done.
  unfold more_deposit in H. apply bind_Ok in H as ([dA dB] & Eo & H). cbn beta iota in H.
  sol_invert H. injection H as <-. cbn. rewrite Z.ltb_lt in *. split_and!; try done.
  unfold optimal_amounts in Eo. sol_invert Eo. destruct (Z.leb_spec (a * reserveTokenB s / reserveTokenA s) b).
  - injection Eo as <- <-. by left.
  - sol_invert Eo. injection Eo as <- <-. right. unfold sol_assert in *. destruct (Z.leb_spec (b * reserveTokenA s / reserveTokenB s) a); done.
Qed.

Lemma add_Ok sender a b s shares s' ev :
  dex_ok s → is_uint256 a → is_uint256 b → addLiquidity sender a b s = Ok (shares, s', ev) →
  ∃ dA dB, added sender a b dA dB shares s s'.
Proof.
  intros Hs Ha Hb H. unfold addLiquidity in H. sol_invert H. injection H as <- <- _.
  rewrite ?andb_true_iff, ?Z.leb_le, ?Z.ltb_lt in *.
  lazymatch goal with d : deposit |- _ => rename d into dep end.
  exists (d_amountA dep), (d_amountB dep).
  assert (new_pool a b s dep) as (Hd & HrA & HrB & ? & ? & Hk & ?).
  { destruct (Z.eqb_spec (totalLiquidityShares s) 0); [by apply first_deposit_Ok|by apply more_deposit_Ok]. }
  by split; cbn; rewrite <- ?HrA, <- ?HrB, <- ?Hk; split_and?; try lia.
Qed.

(** ** Preservation *)

Lemma get_set_ok m a v : (∀ b, is_uint256 (get m b)) → is_uint256 v → ∀ b, is_uint256 (get (<[a := v]> m) b).
Proof. intros Hm Hv b. rewrite get_set. by case_decide. Qed.

Lemma fee_bounds x : 0 < x → 0 ≤ fee_of x < x.
Proof.
  intros Hx. unfold fee_of, FEE_NUMERATOR, FEE_DENOMINATOR.
  pose proof (Z.div_mod (x * 3) 1000 ltac:(lia)). pose proof (Z.mod_pos_bound (x * 3) 1000 ltac:(lia)). lia.
Qed.

(** A quotient [a b / c] against a bound. *)
Lemma quotient_bounds a b c : 0 < c → let q := a * b / c in q * c ≤ a * b < (q + 1) * c.
Proof. intros Hc. cbn. pose proof (Z.div_mod (a * b) c ltac:(lia)). pose proof (Z.mod_pos_bound (a * b) c Hc). lia. Qed.

(** The pool holds tokens exactly if shares are out. *)
Lemma pool_positive s : dex_ok s → 0 < totalLiquidityShares s → 0 < reserveTokenA s ∧ 0 < reserveTokenB s.
Proof. intros Hs Ht. pose proof (dx_pool s Hs) as Hp. rewrite decide_False in Hp by lia. done. Qed.

(** The pool pays less than it has. *)
Lemma output_bound x s :
  0 < x → 0 < reserveTokenA s → 0 < reserveTokenB s → swap_output x s < reserveTokenB s.
Proof.
  intros Hx HA HB. pose proof (fee_bounds x Hx). unfold swap_output.
  apply Z.div_lt_upper_bound; nia.
Qed.

Lemma swapped_ok sender x out s s' :
  dex_ok s → swapped sender x out s s' →
  dex_ok s' ∧ holdingsA s' = holdingsA s ∧ holdingsB s' = holdingsB s.
Proof.
  intros Hs Hw. destruct (pool_positive s Hs (sw_pool _ _ _ _ _ Hw)) as [HpA HpB].
  destruct Hw as [Ht Hx [Ho Hout] -> [] [] Hfee [Hk Hk']]. pose proof (fee_bounds x ltac:(lia)).
  pose proof (output_bound x s ltac:(lia) HpA HpB). destruct Hs as [HA HB HS HT [] [] [? HK] Hsum Hpool].
  split; [split; cbn in *; try done; try by apply get_set_ok|].
  - rewrite decide_False in * by lia. unfold is_uint256 in *. lia.
  - unfold holdingsA, holdingsB. cbn. rewrite !supply_set. lia.
Qed.

Lemma removed_ok sender n aA aB s s' :
  dex_ok s → removed sender n aA aB s s' →
  dex_ok s' ∧ holdingsA s' = holdingsA s ∧ holdingsB s' = holdingsB s.
Proof.
  intros Hs [Hn [EA EB] [] -> (? & ? & ? & Hk)]. destruct Hs as [HA HB HS HT [] [] [? HK] Hsum Hpool].
  pose proof (HS sender) as Hsender. unfold is_uint256 in *.
  assert (totalLiquidityShares s ≠ 0) as Ht by (intros E; rewrite decide_True in Hpool; lia).
  rewrite decide_False in Hpool by done.
  split; [split; cbn in *; try done; try (apply get_set_ok; done || (unfold is_uint256; lia))|].
  - unfold is_uint256. lia.
  - rewrite supply_set. lia.
  - case_decide as Htot.
    + assert (totalLiquidityShares s = n) as E by lia. subst aA aB. unfold share_of. rewrite E.
      rewrite !(Z.mul_comm n), !Z.div_mul by lia. unfold is_uint256 in *. lia.
    + assert (aA < reserveTokenA s ∧ aB < reserveTokenB s); [|lia].
      subst aA aB. unfold share_of. split; apply Z.div_lt_upper_bound; nia.
  - unfold holdingsA, holdingsB. cbn. rewrite !supply_set. lia.
Qed.

Lemma deposited_bounds a b dA dB shares s :
  dex_ok s → 0 < a → 0 < b → deposited a b dA dB shares s → 0 < dA ≤ a ∧ 0 ≤ dB ≤ b ∧ 0 < shares.
Proof.
  intros Hs Ha Hb Hd. unfold deposited in Hd. destruct (Z.eqb_spec (totalLiquidityShares s) 0) as [H0|H0].
  - destruct Hd as (-> & -> & -> & H). unfold MINIMUM_LIQUIDITY in H. lia.
  - destruct (pool_positive s Hs) as [HA HB]; [pose proof (dx_total s Hs); unfold is_uint256 in *; lia|].
    destruct Hd as (Es & Hsh & H). split; [|split; [|done]].
    + destruct H as [(-> & _)|(-> & E & Hle)]; [lia|]. split; [|done].
      destruct (Z.le_gt_cases dA 0) as [Hle'|]; [|done]. exfalso.
      assert (shares ≤ 0); [|lia]. subst shares. apply Z.div_le_upper_bound; [done|].
      pose proof (dx_total s Hs). unfold is_uint256 in *. nia.
    + destruct H as [(-> & -> & Hle)|(-> & _)]; [|lia]. split; [|done]. apply Z.div_pos; nia.
Qed.

Lemma added_ok sender a b dA dB shares s s' :
  dex_ok s → added sender a b dA dB shares s s' →
  dex_ok s' ∧ holdingsA s' = holdingsA s ∧ holdingsB s' = holdingsB s.
Proof.
  intros Hs [[] Hd -> (? & ? & ? & HTs & ? & ? & ?)].
  destruct (deposited_bounds a b dA dB shares s Hs ltac:(lia) ltac:(lia) Hd) as (? & ? & ?).
  assert (0 < reserveTokenB s + dB) as HB0.
  { unfold deposited in Hd. destruct (Z.eqb_spec (totalLiquidityShares s) 0) as [Hz|Hz].
    - destruct Hd as (_ & -> & _). destruct (dx_reserves s Hs) as [_ []]. lia.
    - destruct (pool_positive s Hs); [pose proof (dx_total s Hs); unfold is_uint256 in *; lia|lia]. }
  destruct Hs as [HA HB HS HT [] [] [? HK] Hsum Hpool]. unfold is_uint256 in HT, HTs.
  split; [split; cbn in *; try done; try by apply get_set_ok|].
  - rewrite supply_set. lia.
  - rewrite decide_False by lia. unfold is_uint256 in *. lia.
  - unfold holdingsA, holdingsB. cbn. rewrite !supply_set. lia.
Qed.
