(* ===== verification/DexProps.v ===== *)
(** What the exchange promises: tokens are conserved, a swap gives what the
    preview says, and neither swaps nor deposits take value out of the pool. *)

From S2P Require Import Prelude Dex DexInv.

Local Open Scope Z_scope.
Local Open Scope go_scope.

(** ** Any sequence of transactions *)

(** What a call that does not revert adds to the tokens in existence. *)
Definition mints (c : dex_call) : Z * Z := match c with CMint _ a b => (a, b) | _ => (0, 0) end.

Fixpoint minted (ts : list (address * dex_call)) (s : MockDEXEngine) : Z * Z :=
  match ts with
  | [] => (0, 0)
  | t :: ts =>
      let here := match dex_exec t.1 t.2 s with Some _ => mints t.2 | None => (0, 0) end in
      let rest := minted ts (transact t s) in
      (here.1 + rest.1, here.2 + rest.2)
  end.

Lemma state_of_Some {A} (o : outcome A) s' : state_of o = Some s' → ∃ v ev, o = Ok (v, s', ev).
Proof. destruct o as [[[v s] ev]|]; [|done]. intros [= ->]. eauto. Qed.

Lemma mint_ok user a b s s' ev :
  dex_ok s → is_uint256 a → is_uint256 b → mintTestTokens user a b s = Ok ((), s', ev) →
  dex_ok s' ∧ holdingsA s' = holdingsA s + a ∧ holdingsB s' = holdingsB s + b.
Proof.
  intros Hs Ha Hb H. unfold mintTestTokens in H. sol_invert H. injection H as <- _.
  destruct Hs as [HA HB HS HT HR HF HK Hsum Hpool].
  split; [by split; cbn; try apply get_set_ok|]. unfold holdingsA, holdingsB. cbn. rewrite !supply_set. lia.
Qed.

Lemma exec_ok sender c s s' :
  dex_ok s → call_ok c → dex_exec sender c s = Some s' →
  dex_ok s' ∧ holdingsA s' = holdingsA s + (mints c).1 ∧ holdingsB s' = holdingsB s + (mints c).2.
Proof.
  intros Hs Hc E. destruct c as [user a b|a b|n|x m|x m]; cbn in E, Hc;
    apply state_of_Some in E as (v & ev & E); cbn; rewrite ?Z.add_0_r.
  - destruct v. by eapply mint_ok; try apply Hc.
  - destruct Hc as [Ha Hb]. apply (add_Ok _ _ _ _ _ _ _ Hs Ha Hb) in E as (dA & dB & E). by eapply added_ok.
  - destruct v as [aA aB]. apply remove_Ok in E. by eapply removed_ok.
  - apply swapAB_Ok in E. by eapply swapped_ok.
  - apply swapBA_Ok in E. destruct (swapped_ok _ _ _ _ _ (dex_ok_mirror s Hs) E) as (Hm & HA & HB).
    apply dex_ok_mirror in Hm. rewrite mirror_mirror in Hm.
    unfold holdingsA, holdingsB in *. cbn in HA, HB. done.
Qed.

Lemma run_ok ts s :
  dex_ok s → Forall call_ok ts.*2 →
  dex_ok (dex_run ts s) ∧ holdingsA (dex_run ts s) = holdingsA s + (minted ts s).1 ∧
  holdingsB (dex_run ts s) = holdingsB s + (minted ts s).2.
Proof.
  revert s. induction ts as [|t ts IH]; intros s Hs Hts; cbn; [by rewrite !Z.add_0_r|].
  apply Forall_cons in Hts as [Ht Hts].
  destruct (dex_exec t.1 t.2 s) as [s'|] eqn:E; cbn.
  - assert (transact t s = s') as -> by (unfold transact; by rewrite E).
    destruct (exec_ok _ _ _ _ Hs Ht E) as (Hs' & HA & HB). destruct (IH s' Hs' Hts) as (? & -> & ->).
    split_and!; [done|lia..].
  - assert (transact t s = s) as -> by (unfold transact; by rewrite E). by apply IH.
Qed.

(** C38: the exchange is well formed and conserves tokens.  After any sequence of
    calls by anybody, reverted ones included, every balance and counter is a
    uint256, the shares add up to their total, lastK is the product of the
    reserves, and the pool has both tokens or is empty; and the tokens in all
    wallets, in the pool and in the fees together are exactly those that were
    minted. *)
Theorem dex_conservation ts :
  Forall call_ok ts.*2 →
  let s := dex_run ts deployed in
  dex_ok s ∧ holdingsA s = (minted ts deployed).1 ∧ holdingsB s = (minted ts deployed).2.
Proof. intros Hts. exact (run_ok ts deployed dex_ok_deployed Hts). Qed.

(** ** Swaps *)

(** One checked operation that stays within 256 bits. *)
Ltac sol_ok := rewrite checked_small by assumption; cbn [res_bind].

(** The output leaves the product of the reserves at least as large. *)
Lemma output_k x s :
  0 < x → 0 < reserveTokenA s → 0 < reserveTokenB s →
  let y := x - fee_of x in let out := swap_output x s in
  0 ≤ out ∧ reserveTokenA s * reserveTokenB s ≤ (reserveTokenA s + y) * (reserveTokenB s - out).
Proof.
  intros Hx HA HB. pose proof (fee_bounds x Hx). cbn. unfold swap_output.
  pose proof (quotient_bounds (reserveTokenB s) (x - fee_of x) (reserveTokenA s + (x - fee_of x)) ltac:(lia)) as Hq.
  cbn in Hq. split; [apply Z.div_pos; nia|nia].
Qed.

(** C39: a swap does what its preview says.  In a well-formed exchange with an
    initialised pool, for a trader who has the amount, and when no product or sum
    leaves 256 bits, the swap succeeds exactly if the preview's output reaches
    the trader's minimum, and then moves exactly that output; the checks for an
    empty output, for the pool's stock and for the constant product never fail. *)
Theorem dex_swap_exact sender x m s :
  dex_ok s → 0 < totalLiquidityShares s → 0 < x ≤ get (balanceTokenA s) sender → 0 < m →
  x * 3 < 2 ^ 256 → (reserveTokenA s + x) * reserveTokenB s < 2 ^ 256 → x * reserveTokenB s < 2 ^ 256 →
  accumulatedFeeTokenA s + x < 2 ^ 256 → get (balanceTokenB s) sender + reserveTokenB s < 2 ^ 256 →
  getSwapOutputAToB x s = Ok (swap_output x s) ∧
  swapExactTokenAForTokenB sender x m s =
    if m <=? swap_output x s
    then Ok (swap_output x s, after_swap sender x (swap_output x s) s,
             [SwapTokenAForTokenB sender x (swap_output x s) (fee_of x)])
    else Err (Require "Slippage too high: output less than minimum").
Proof.
  intros Hs Ht [Hx0 Hx] Hm Hx3 Hk Hp Hf Hb. destruct (pool_positive s Hs Ht) as [HA HB].
  pose proof (fee_bounds x Hx0). pose proof (output_bound x s Hx0 HA HB).
  destruct (output_k x s Hx0 HA HB) as [Hout HK]. pose proof (dx_k s Hs) as [_ HlastK].
  destruct Hs as [HbA HbB _ _ [] [] _ _ _]. specialize (HbA sender). specialize (HbB sender).
  unfold is_uint256 in *.
  set (y := x - fee_of x) in *. set (out := swap_output x s) in *. cbv zeta in HK.
  assert (reserveTokenA s + x < 2 ^ 256) by nia.
  assert (is_uint256 (x * FEE_NUMERATOR)) by (unfold is_uint256, FEE_NUMERATOR; lia).
  assert (is_uint256 y ∧ is_uint256 (reserveTokenA s + y)) as [] by (unfold is_uint256; lia).
  assert (is_uint256 (reserveTokenB s * y)) by (unfold is_uint256; nia).
  assert (is_uint256 (get (balanceTokenA s) sender - x) ∧ is_uint256 (reserveTokenB s - out) ∧
    is_uint256 (accumulatedFeeTokenA s + fee_of x) ∧ is_uint256 (get (balanceTokenB s) sender + out))
    as (? & ? & ? & ?) by (unfold is_uint256; lia).
  assert (is_uint256 ((reserveTokenA s + y) * (reserveTokenB s - out))) by (unfold is_uint256; nia).
  unfold getSwapOutputAToB, swapExactTokenAForTokenB, poolInitialized, mul256, div256, sub256, add256, decrease,
    increase, add256, sub256.
  rewrite !(proj2 (Z.ltb_lt _ _)), (proj2 (Z.leb_le x _)) by lia. cbn [require res_bind].
  change (FEE_DENOMINATOR =? 0) with false. repeat sol_ok. fold (fee_of x). fold y. repeat sol_ok.
  rewrite (proj2 (Z.eqb_neq (reserveTokenA s + y) 0)) by lia. cbn [res_bind].
  change (reserveTokenB s * y / (reserveTokenA s + y)) with out. split; [done|].
  destruct (Z.leb_spec m out); [|done]. cbn [require res_bind].
  rewrite (proj2 (Z.ltb_lt 0 out)), (proj2 (Z.leb_le out _)) by lia. cbn [require res_bind].
  repeat sol_ok. by rewrite (proj2 (Z.leb_le (lastK s) _)) by lia.
Qed.

Definition is_swap (c : dex_call) : Prop := match c with CSwapAB _ _ | CSwapBA _ _ => True | _ => False end.

Lemma swap_exec sender c s s' :
  is_swap c → dex_exec sender c s = Some s' →
  lastK s ≤ lastK s' ∧ accumulatedFeeTokenA s ≤ accumulatedFeeTokenA s' ∧
  accumulatedFeeTokenB s ≤ accumulatedFeeTokenB s'.
Proof.
  intros Hc E. destruct c as [| | |x m|x m]; try done; apply state_of_Some in E as (v & ev & E);
    [apply swapAB_Ok in E|apply swapBA_Ok in E]; destruct E as [_ Hx _ Hs' _ _ _ [_ Hk]];
    pose proof (fee_bounds x ltac:(lia)).
  - subst s'. cbn in *. lia.
  - pose proof (f_equal accumulatedFeeTokenA Hs'). pose proof (f_equal accumulatedFeeTokenB Hs').
    cbn in *. lia.
Qed.

Lemma swaps_run ts s :
  Forall is_swap ts.*2 → let s' := dex_run ts s in
  lastK s ≤ lastK s' ∧ accumulatedFeeTokenA s ≤ accumulatedFeeTokenA s' ∧
  accumulatedFeeTokenB s ≤ accumulatedFeeTokenB s' ∧ minted ts s = (0, 0).
Proof.
  revert s. induction ts as [|t ts IH]; intros s Hts; cbn; [by split_and!|].
  apply Forall_cons in Hts as [Ht Hts]. destruct (IH (transact t s) Hts) as (? & ? & ? & ->).
  assert (mints t.2 = (0, 0)) as -> by (by destruct t as [? []]).
  unfold transact in *. destruct (dex_exec t.1 t.2 s) as [s'|] eqn:E; cbn in *; [|done].
  destruct (swap_exec _ _ _ _ Ht E) as (? & ? & ?). split_and!; done || lia.
Qed.

(** C40: trading against the pool makes no profit.  However many traders swap, in
    whatever order and directions, the product of the reserves never falls; so
    if together they end with as much of one token as they had, they have no more
    of the other than they had, less the fees. *)
Theorem dex_no_profit ts s :
  dex_ok s → Forall call_ok ts.*2 → Forall is_swap ts.*2 →
  let s' := dex_run ts s in
  reserveTokenA s * reserveTokenB s ≤ reserveTokenA s' * reserveTokenB s' ∧
  (supply (balanceTokenB s) ≤ supply (balanceTokenB s') →
   supply (balanceTokenA s') + (accumulatedFeeTokenA s' - accumulatedFeeTokenA s) ≤ supply (balanceTokenA s)) ∧
  (supply (balanceTokenA s) ≤ supply (balanceTokenA s') →
   supply (balanceTokenB s') + (accumulatedFeeTokenB s' - accumulatedFeeTokenB s) ≤ supply (balanceTokenB s)).
Proof.
  intros Hs Hok Hsw s'. destruct (run_ok ts s Hs Hok) as (Hs' & HA & HB).
  destruct (swaps_run ts s Hsw) as (Hk & HfA & HfB & Hm). rewrite Hm in HA, HB. fold s' in Hs', HA, HB, Hk, HfA, HfB.
  rewrite (proj2 (dx_k s Hs)), (proj2 (dx_k s' Hs')) in Hk. unfold holdingsA, holdingsB in HA, HB. cbn in HA, HB.
  destruct (dx_reserves s Hs) as [[? _] [? _]], (dx_reserves s' Hs') as [[? _] [? _]].
  pose proof (dx_pool s Hs) as Hp. split; [done|].
  assert (reserveTokenB s' ≤ reserveTokenB s → reserveTokenA s ≤ reserveTokenA s') by (case_decide; nia).
  assert (reserveTokenA s' ≤ reserveTokenA s → reserveTokenB s ≤ reserveTokenB s') by (case_decide; nia).
  split; intros; lia.
Qed.

(** ** Liquidity *)

(** Shares are worth at least as much if the reserve per share does not fall. *)
Lemma share_mono n r t r' t' :
  0 ≤ n → 0 < t → 0 < t' → r * t' ≤ r' * t → n * r / t ≤ n * r' / t'.
Proof.
  intros Hn Ht Ht' H. pose proof (quotient_bounds n r t Ht) as [Hq _]. set (q := n * r / t) in *.
  apply Z.div_le_lower_bound; [done|]. apply (Z.mul_le_mono_pos_l _ _ t Ht).
  pose proof (Z.mul_le_mono_nonneg_l (r * t') (r' * t) n Hn H).
  pose proof (Z.mul_le_mono_nonneg_l (q * t) (n * r) t' ltac:(lia) Hq). lia.
Qed.

(** One unit of the reserve is worth at most one unit to a holder. *)
Lemma share_unit n r t : 0 < t → n ≤ t → n * (r + 1) / t ≤ n * r / t + 1.
Proof.
  intros Ht Hn. etrans; [apply (Z.div_le_mono _ (n * r + 1 * t)); [done|lia]|]. by rewrite Z.div_add by lia.
Qed.

Lemma supply_ge m a : (∀ b, 0 ≤ get m b) → get m a ≤ supply m.
Proof.
  intros Hm. assert (∀ m', (∀ b, 0 ≤ get m' b) → 0 ≤ supply m') as Hpos.
  { intros m'. induction m' as [|b v m' Hb IH] using map_ind; [done|]. intros H.
    rewrite supply_new by done. pose proof (H b) as Hv. rewrite get_set, decide_True in Hv by done.
    assert (0 ≤ supply m'); [|lia]. apply IH. intros c. destruct (decide (b = c)) as [<-|Hc].
    - unfold get. by rewrite Hb.
    - specialize (H c). by rewrite get_set, decide_False in H. }
  pose proof (supply_set m a 0) as H. assert (0 ≤ supply (<[a := 0]> m)); [|lia].
  apply Hpos. intros b. rewrite get_set. by case_decide.
Qed.

(** A deposit buys at most its part of the pool: exactly in A, and up to one
    unit in B. *)
Lemma deposit_fair a b dA dB shares s :
  dex_ok s → 0 < totalLiquidityShares s → deposited a b dA dB shares s →
  shares * reserveTokenA s ≤ dA * totalLiquidityShares s ∧
  shares * reserveTokenB s ≤ (dB + 1) * totalLiquidityShares s.
Proof.
  intros Hs Ht Hd. destruct (pool_positive s Hs Ht) as [HA HB]. unfold deposited in Hd.
  rewrite (proj2 (Z.eqb_neq _ 0)) in Hd by lia. destruct Hd as (-> & Hpos & Hd).
  pose proof (quotient_bounds dA (totalLiquidityShares s) (reserveTokenA s) HA) as [Hq _].
  set (n := dA * totalLiquidityShares s / reserveTokenA s) in *. split; [done|].
  set (ra := reserveTokenA s) in *. set (rb := reserveTokenB s) in *. set (t := totalLiquidityShares s) in *.
  assert (dA * rb ≤ (dB + 1) * ra) as Hc.
  { destruct Hd as [(-> & -> & _)|(-> & -> & _)].
    - pose proof (quotient_bounds a rb ra HA) as [_ Hc]. lia.
    - pose proof (quotient_bounds b ra rb HB) as [Hc _]. lia. }
  apply (Z.mul_le_mono_pos_l _ _ ra HA).
  pose proof (Z.mul_le_mono_nonneg_l _ _ rb ltac:(lia) Hq). pose proof (Z.mul_le_mono_nonneg_l _ _ t ltac:(lia) Hc). lia.
Qed.

Definition is_liquidity (c : dex_call) : Prop := match c with CAdd _ _ | CRemove _ => True | _ => False end.

(** Other people's deposits and withdrawals do not dilute a holder.  What a
    holder's shares can be redeemed for does not fall in token A, and falls by at
    most one unit in token B, whoever else adds or removes liquidity. *)
Theorem dex_liquidity_fair sender lp c s s' :
  dex_ok s → 0 < totalLiquidityShares s → lp ≠ sender → call_ok c → is_liquidity c →
  dex_exec sender c s = Some s' →
  let n := get (liquidityShares s) lp in
  get (liquidityShares s') lp = n ∧
  share_of n (reserveTokenA s) s ≤ share_of n (reserveTokenA s') s' ∧
  share_of n (reserveTokenB s) s - 1 ≤ share_of n (reserveTokenB s') s'.
Proof.
  intros Hs Ht Hlp Hc Hl E n. destruct (exec_ok _ _ _ _ Hs Hc E) as (Hs' & _).
  assert (0 ≤ n) as Hn by apply (dx_shares s Hs lp).
  assert (get (liquidityShares s') lp = n → n ≤ totalLiquidityShares s') as Hle.
  { intros <-. rewrite <- (dx_sum s' Hs'). apply supply_ge. intros b. apply (dx_shares s' Hs' b). }
  unfold share_of. destruct c as [|a b|k| |]; try done; apply state_of_Some in E as (v & ev & E).
  - destruct Hc as [Ha Hb]. apply (add_Ok _ _ _ _ _ _ _ Hs Ha Hb) in E as (dA & dB & [[] Hd -> _]).
    destruct (deposited_bounds a b dA dB v s Hs) as (_ & _ & Hv); [lia..|done|].
    destruct (deposit_fair _ _ _ _ _ _ Hs Ht Hd) as [HA HB].
    assert (get (<[sender := get (liquidityShares s) sender + v]> (liquidityShares s)) lp = n) as Hg
      by (by rewrite get_set, decide_False).
    specialize (Hle Hg). cbn in *. split; [done|]. split; [apply share_mono; lia|].
    pose proof (share_unit n (reserveTokenB s + dB) (totalLiquidityShares s + v) ltac:(lia) Hle).
    pose proof (share_mono n (reserveTokenB s) (totalLiquidityShares s) (reserveTokenB s + dB + 1)
      (totalLiquidityShares s + v) Hn Ht ltac:(lia) ltac:(lia)). lia.
  - destruct v as [aA aB]. apply remove_Ok in E as [Hk [-> ->] _ -> _].
    assert (get (<[sender := get (liquidityShares s) sender - k]> (liquidityShares s)) lp = n) as Hg
      by (by rewrite get_set, decide_False).
    specialize (Hle Hg). cbn in *. split; [done|]. unfold share_of.
    pose proof (quotient_bounds k (reserveTokenA s) _ Ht) as [HA _].
    pose proof (quotient_bounds k (reserveTokenB s) _ Ht) as [HB _].
    destruct (decide (n = 0)) as [->|]; [by rewrite !Z.mul_0_l, !Z.div_0_l by lia|].
    split; [apply share_mono; lia|]. etrans; [|apply (share_mono n (reserveTokenB s) (totalLiquidityShares s)); lia]. lia.
Qed.

(** Adding liquidity and taking it out again gains nothing. *)
Theorem dex_deposit_no_gain sender a b shares aA aB s s1 s2 ev1 ev2 :
  dex_ok s → is_uint256 a → is_uint256 b →
  addLiquidity sender a b s = Ok (shares, s1, ev1) → removeLiquidity sender shares s1 = Ok ((aA, aB), s2, ev2) →
  get (balanceTokenA s2) sender ≤ get (balanceTokenA s) sender ∧
  get (balanceTokenB s2) sender ≤ get (balanceTokenB s) sender.
Proof.
  intros Hs Ha Hb E1 E2. apply (add_Ok _ _ _ _ _ _ _ Hs Ha Hb) in E1 as (dA & dB & [[] Hd -> _]).
  apply remove_Ok in E2 as [_ [-> ->] _ -> _]. cbn. rewrite !get_set, !decide_True by done. unfold share_of. cbn.
  destruct (deposited_bounds a b dA dB shares s Hs) as (? & ? & ?); [lia..|done|].
  pose proof (dx_total s Hs) as [Ht0 _]. set (t := totalLiquidityShares s) in *.
  destruct (decide (t = 0)) as [Ht|Ht].
  - pose proof (dx_pool s Hs) as Hp. rewrite decide_True in Hp by done. destruct Hp as [-> ->].
    rewrite Ht. cbn. rewrite !(Z.mul_comm shares), !Z.div_mul by lia. lia.
  - destruct (deposit_fair a b dA dB shares s Hs) as [HA HB]; [fold t; lia|done|]. fold t in HA, HB.
    assert (shares * (reserveTokenA s + dA) / (t + shares) ≤ dA) by (apply Z.div_le_upper_bound; lia).
    assert (shares * (reserveTokenB s + dB) / (t + shares) < dB + 1) by (apply Z.div_lt_upper_bound; lia).
    lia.
Qed.

(** Every withdrawal reports a failed check of the constant product, which it
    cannot but lower. *)
Theorem dex_remove_reports sender n s v s' ev :
  dex_ok s → removeLiquidity sender n s = Ok (v, s', ev) →
  ConstantProductCheckFailed (lastK s) (lastK s') "removeLiquidity" ∈ ev.
Proof.
  intros Hs E. pose proof E as E'. destruct v as [aA aB]. apply remove_Ok in E' as [Hn _ [HA HB] Hst _].
  assert (lastK s' < lastK s) as Hlt by (subst s'; rewrite (proj2 (dx_k s Hs)); cbn; nia).
  unfold removeLiquidity, poolInitialized in E. sol_invert E. injection E as _ _ <- <-. cbn in Hlt.
  rewrite (proj2 (Z.ltb_lt _ _)) by done. by left.
Qed.

(** ** Witnesses *)

(** A pool of 4000 and 9000 and a trader with 1000 of each token. *)
Definition setup : list (address * dex_call) :=
  [(1, CMint 1 5000 9000); (1, CAdd 4000 9000); (2, CMint 2 1000 1000); (3, CMint 0 1 1)].

Definition sample_dex : MockDEXEngine := dex_run setup deployed.

Lemma setup_ok : Forall call_ok setup.*2.
Proof. apply (bool_decide_eq_true _). by vm_compute. Qed.

Lemma dex_conservation_witness :
  dex_ok sample_dex ∧ holdingsA sample_dex = 6000 ∧ totalLiquidityShares sample_dex = 6000.
Proof.
  pose proof (dex_conservation setup setup_ok) as H. cbv zeta in H. fold sample_dex in H.
  destruct H as (H & HA & _). split; [exact H|]. rewrite HA. clear. vm_compute. split; reflexivity.
Defined.

Lemma sample_dex_ok : dex_ok sample_dex.
Proof. apply (run_ok setup deployed dex_ok_deployed setup_ok). Qed.

Lemma dex_swap_exact_witness :
  getSwapOutputAToB 100 sample_dex = Ok 219 ∧
  swapExactTokenAForTokenB 2 100 220 sample_dex = Err (Require "Slippage too high: output less than minimum").
Proof.
  split; [|refine (proj2 (dex_swap_exact 2 100 220 sample_dex sample_dex_ok _ _ _ _ _ _ _ _)); vm_compute; intuition congruence].
  vm_compute. done.
Defined.

Definition trading : list (address * dex_call) := [(2, CSwapAB 1000 1); (2, CSwapBA 900 1); (1, CSwapBA 1 1); (2, CSwapBA 893 1)].

Lemma dex_no_profit_witness :
  let s' := dex_run trading sample_dex in
  reserveTokenA sample_dex * reserveTokenB sample_dex ≤ reserveTokenA s' * reserveTokenB s' ∧
  supply (balanceTokenB sample_dex) ≤ supply (balanceTokenB s') ∧
  supply (balanceTokenA s') ≤ supply (balanceTokenA sample_dex).
Proof.
  destruct (dex_no_profit trading sample_dex sample_dex_ok) as (Hk & HA & _); [apply (bool_decide_eq_true _); by vm_compute|by repeat constructor|].
  cbv zeta. split; [exact Hk|]. assert (supply (balanceTokenB sample_dex) ≤ supply (balanceTokenB (dex_run trading sample_dex))) as Hle by (by vm_compute).
  split; [exact Hle|]. specialize (HA Hle).
  assert (accumulatedFeeTokenA sample_dex ≤ accumulatedFeeTokenA (dex_run trading sample_dex)) by (by vm_compute). lia.
Defined.

Lemma dex_liquidity_fair_witness :
  ∃ s', dex_exec 2 (CAdd 1 3) sample_dex = Some s' ∧
    share_of 6000 (reserveTokenA sample_dex) sample_dex ≤ share_of 6000 (reserveTokenA s') s'.
Proof.
  destruct (dex_exec 2 (CAdd 1 3) sample_dex) as [s'|] eqn:E; [|by vm_compute in E]. exists s'. split; [done|].
  assert (0 < totalLiquidityShares sample_dex) as Ht by (vm_compute; reflexivity).
  assert (get (liquidityShares sample_dex) 1 = 6000) as Hn by (vm_compute; reflexivity).
  assert (call_ok (CAdd 1 3)) as Hc by (apply (bool_decide_eq_true _); vm_compute; reflexivity).
  pose proof (dex_liquidity_fair 2 1 (CAdd 1 3) sample_dex s' sample_dex_ok Ht ltac:(discriminate) Hc I E) as H.
  cbv zeta in H. rewrite Hn in H. apply H.
Defined.

Lemma dex_deposit_no_gain_witness :
  ∃ shares s1 ev1, addLiquidity 2 100 900 sample_dex = Ok (shares, s1, ev1) ∧ shares = 150.
Proof.
  destruct (addLiquidity 2 100 900 sample_dex) as [[[n s1] ev1]|] eqn:E; [|by vm_compute in E].
  destruct (removeLiquidity 2 n s1) as [[[[aA aB] s2] ev2]|] eqn:E2.
  - pose proof (dex_deposit_no_gain 2 100 900 n aA aB sample_dex s1 s2 ev1 ev2 sample_dex_ok
      ltac:(by split; vm_compute) ltac:(by split; vm_compute) E E2). exists n, s1, ev1. split; [done|].
    vm_compute in E. by injection E.
  - exists n, s1, ev1. split; [done|]. vm_compute in E. by injection E.
Defined.

(** The unit of token B can be all of it: a pool of 1000000 and 1 whose holder
    can withdraw everything, until half as many shares have been bought for half
    as much of A and nothing of B; then the whole holding cannot be withdrawn. *)
Example unit_matters :
  let s := dex_run [(1, CMint 1 1000000 1); (2, CMint 2 500000 1); (1, CAdd 1000000 1)] deployed in
  let s' := dex_run [(2, CAdd 500000 1)] s in
  dex_exec 1 (CRemove 1000) s ≠ None ∧ get (liquidityShares s') 2 = 500 ∧ get (balanceTokenB s') 2 = 1 ∧
  removeLiquidity 1 1000 s' = Err (Require "Withdrawal amounts too small").
Proof. by vm_compute. Qed.

(** Nothing stays locked: the first provider can take out the whole pool. *)
Example minimum_not_locked :
  totalLiquidityShares (dex_run [(1, CMint 1 1000 1000); (1, CAdd 1000 1000); (1, CRemove 1000)] deployed) = 0.
Proof. by vm_compute. Qed.
